(* ===== verification/_CoqProject ===== *)
-Q . S2P
Prelude.v
Float.v
Prog.v
Errors.v
Json.v
JsonText.v
JsonSpec.v
JsonRaw.v
Body.v
Crypto.v
Url.v
Domain.v
Mq.v
Memory.v
Rabbit.v
RabbitSpec.v
Nsq.v
MemorySpec.v
Provider.v
Http.v
Adapter.v
Webhook.v
Loadtest.v
LarkBot.v
Firebase.v
Smtp.v
AdapterSpec.v
FirebaseSpec.v
SmtpSpec.v
Config.v
ProviderSpec.v
Breaker.v
Store.v
Lifecycle.v
StoreSpec.v
Scan.v
Limiter.v
Effects.v
Among.v
Publish.v
Processor.v
ProcessorSpec.v
DeliverySpec.v
Backend.v
Compensator.v
Service.v
System.v
SystemSpec.v
Interference.v
CompensatorSpec.v
ServiceSpec.v
Concurrent.v
Dto.v
Api.v
Grpc.v
Mcp.v
Settings.v
Boot.v
Startup.v
FrontSpec.v
RestSpec.v
ToolSpec.v
StartupSpec.v
BootstrapSpec.v
Progress.v
Demo.v
Witnesses.v
EdgeWitnesses.v
