(* ===== verification/Prelude.v ===== *)
(** * GopherPost notification delivery: a verification development

    The program accepts notifications over REST, gRPC and MCP, stores each as
    one row of [notification_event], and has a pool of workers deliver it to
    a vendor (a webhook, a Lark bot, Firebase push, SMTP or a load-test
    endpoint) at least once, with leases, retries, limits and circuit
    breakers. The message broker carries wake-ups only: the table is the
    truth, and compensation scans repair whatever a crash or a lost message
    leaves behind. Paths below are under [src/].

    ** Parts

    Foundations. [Prelude] (results, machine integers, byte strings), [Float]
    ([float64]), [Errors] (error values with [errors.Is] and [errors.As]),
    [Prog] (programs as trees of calls, with [wp], [run] and the typestate
    [obeys]), [Json], [JsonRaw] ([encoding/json]), [Crypto], [Url].

    The row and its table. [Domain] ([internal/domain]), [Store]
    ([internal/store/event_repo.go], one definition per SQL statement),
    [Scan] (reading columns into rows, [scanEvent] and the row loops).
    [Lifecycle] is the abstract specification: an event is pending, leased to
    one token, waiting for redelivery, succeeded or failed.

    Delivering. [Breaker], [Limiter], [Processor], [Compensator]
    ([internal/worker]), [Publish] ([internal/publish]). A handler is a
    [prog] over [Effects.eff]: clock, UUIDs, SQL, broker, breakers, limiters
    and the provider's call. Three environments answer it: [Effects.local],
    a database and a provider that answer anything, with no other process;
    [Among], the same with any statements of other processes after every
    call, as far as they spare the ids this handler drew; and [System], which
    runs any number of handlers interleaved at every call, with crashes,
    redeliveries and lost answers. [Interference] shows that the threads of
    [System] spare each other as [Among] assumes.

    Queues ([internal/mq]). [Mq] (envelope, delay policy), [Memory] (the
    in-process broker, its goroutines, the channel that stops them and the
    waits of [Close] as a step relation), [Rabbit] (over
    the AMQP library's calls as effects, and its reconnect loop as a step
    relation), [Nsq]. [Backend] is the interface all three implement towards
    the worker: the delivery a message gives the handler, what becomes of the
    message after its answer, and how it may arrive again.

    Providers ([internal/provider], [internal/httpclient]). [Provider]
    (results, the [Adapter] interface, the registry), [Http] (bounded client,
    sanitized response documents, credentials), [Adapter], [Webhook],
    [LarkBot], [Loadtest], [Firebase], [Smtp] ([adapters/*.go], each with
    configuration, validation and the whole of [SendActionRequest]).

    Front ends. [Service] ([internal/application/notification]) with [Api],
    [Dto], [Body] ([internal/api]), [Grpc] ([internal/grpcapi]) and [Mcp]
    ([internal/mcpapi]) on top of it.

    Start-up. [Config] and [Settings] ([internal/config], [internal/authn],
    [internal/logging]), [Boot] (the calls made while starting and stopping)
    and [Startup]: [internal/bootstrap], [internal/store/database.go] and
    [postgres.go], [internal/worker/worker.go], and [main] and [run] of
    [cmd/server] and [cmd/worker], in the order of their statements and with
    their deferred calls.

    ** Correspondence

    Names are the code's; a prefix is added where one name is used by several
    types ([Smtp_Send], [Firebase_Send]: [SendActionRequest] of each adapter).
    A pointer that may be nil is an [option]; [(T, error)] is [res T], and
    [error] alone [option error]. Integers are [Z], wrapped ([int64],
    [uint32]) where the code's arithmetic can leave the type. Durations and
    instants are nanoseconds. A method body that runs under a mutex is one
    transition of the state it guards. Log lines are left out, but for the
    access lines of HTTP and MCP, the request and panic lines of gRPC and the
    provider request line.

    ** Theorems

    - Interleavings ([SystemSpec], [Progress]): how often a provider is
      called, what a terminal status means, that only its holder touches a
      leased row, and only one thread holds a lease, no accepted event lost,
      and from every reachable state a way to end any event.
    - One delivery ([DeliverySpec], [ProcessorSpec]): among any other
      processes, what the handler returns agrees with the row and with the
      calls it made, on every path, a lease lost meanwhile included; slots
      and permits are given back; a refusing breaker costs nothing.
    - The table ([Lifecycle], [StoreSpec]): every statement refines the
      lifecycle; a stale lease token changes nothing.
    - Recovery ([CompensatorSpec]): expired leases become claimable and are
      published again; a scan that was not full leaves none behind.
    - Accepting ([ServiceSpec], [Concurrent]): every outcome of [Submit], by
      itself and among other writers; idempotency; submissions agree on the
      event a
      source key stands for; the payload comparison decides equality of JSON
      documents. The latter rests on [JsonText] and [JsonSpec]: printing and
      scanning are inverse on exactly the values the decoder produces.
    - Queues ([Mq], [MemorySpec], [RabbitSpec], [Nsq]): delay policy without
      overflow, envelope round trip, conservation of wake-ups, termination
      of [Close], settlement of RabbitMQ and NSQ messages, no more handlers
      than slots across reconnects.
    - The worker on any queue ([Backend]), among other processes: a message is
      acknowledged only when its event does not depend on it, and is asked
      back with a counted attempt less often than the maximum.
    - Adapters ([AdapterSpec], [FirebaseSpec], [SmtpSpec]): the contract with
      the worker on every branch, safe destinations, idempotency keys, no
      header injection, credentials only over TLS, one Firebase client.
    - Front ends ([FrontSpec], [RestSpec], [ToolSpec]): the three agree on
      the verdict, nothing is done for a caller without a token, responses
      have the documented schemas, panics become status codes and are logged,
      the Swagger page discloses a token, and what is announced of the MCP
      tools (read-only, non-destructive, idempotent) is true.
    - Start-up ([Config], [ProviderSpec], [StartupSpec], [BootstrapSpec]):
      nothing is served before everything is checked, servers are stopped in
      order and resources then released in reverse, but for two leaks that
      are named, the registry, limiters and breakers cover the configured
      actions, and what becomes of a database that several processes create.

    [Demo], [Witnesses] and [EdgeWitnesses] instantiate every parameter and
    apply each theorem that has hypotheses.

    ** Fuel and bounds

    Most recursion is structural: the JSON scanner makes one transition per
    byte. Where a function has fuel ([TrimSpace], [strings.Fields], [expand],
    the members of an object, IPv6 groups) each round consumes at least one
    byte of the text, whose length is the fuel given; IPv6 addresses have at
    most eight groups. Programs are finite trees, since no handler has an
    unbounded loop; goroutines that loop are step relations. The JSON depth
    limit is the library's 10000.

    ** Parameters

    What is not in this repository is an argument: PostgreSQL's column
    conversions ([Store.Postgres]; a theorem that needs a command's texts to
    be stored as they are, or a payload up to canonical equality, says so of
    that command: [ServiceSpec.text_kept], [ServiceSpec.payload_kept]), YAML
    decoding, [pgx] and environment
    variables ([Startup.Platform]), what cobra makes of a command line
    ([Startup.command_line]), the texts of library errors
    ([JsonRaw.Wording]), the Firebase SDK ([Firebase.FirebaseSDK]), address
    and MIME functions ([Smtp.MailLib], laws in [SmtpSpec.MailLaws]), gin's
    routing and binding, the Swagger assets, [google/uuid], the bearer
    middleware (law in [FrontSpec.requires_bearer]) and transport of the MCP
    library. [go-nsq],
    [amqp091], [net/http], SMTP connections and [x/time/rate] are effects
    with any answer.

    ** Not modelled

    Generated protocol buffers and Swagger documentation ([gen/], [docs/]);
    log lines other than those named above (which are modelled without
    latencies and stacks); the timing of the token bucket, which is
    [x/time/rate]; the indexes and column defaults of the migration (its types
    and unique constraints are in [Store]). *)

From Stdlib Require Export ZArith Lia Ascii String.
From stdpp Require Export base tactics option list fin_maps gmap strings sorting pretty.

#[global] Open Scope Z_scope.
#[global] Set Default Proof Using "Type".

(** ** Results *)

(** A Go function returning [(T, error)] or [error]: exactly one of the two
    is meaningful at every return statement of the modelled code. *)
Inductive result (E A : Type) : Type :=
| Ok (a : A)
| Err (e : E).
Arguments Ok {E A} a.
Arguments Err {E A} e.

(** ** Machine integers

    Go integers are [Z]; arithmetic that can leave the type's range is
    wrapped where the code performs it. *)

Definition wrap_unsigned (w z : Z) : Z := z mod 2 ^ w.
Definition wrap_signed (w z : Z) : Z := (z + 2 ^ (w - 1)) mod 2 ^ w - 2 ^ (w - 1).

#[global] Arguments wrap_unsigned : simpl never.
#[global] Arguments wrap_signed : simpl never.

Abbreviation uint32 := (wrap_unsigned 32).
Abbreviation uint64 := (wrap_unsigned 64).
Abbreviation int64 := (wrap_signed 64).

Definition max_int64 : Z := 2 ^ 63 - 1.
Definition min_int64 : Z := - 2 ^ 63.

Lemma wrap_unsigned_small w z : 0 <= z < 2 ^ w -> wrap_unsigned w z = z.
Proof. intros H. unfold wrap_unsigned. by apply Z.mod_small. Qed.

Lemma wrap_unsigned_range w z : 0 <= w -> 0 <= wrap_unsigned w z < 2 ^ w.
Proof. intros H. apply Z.mod_pos_bound. by apply Z.pow_pos_nonneg. Qed.

Lemma wrap_signed_small w z :
  0 < w -> - 2 ^ (w - 1) <= z < 2 ^ (w - 1) -> wrap_signed w z = z.
Proof.
  intros Hw H. unfold wrap_signed.
  assert (2 ^ w = 2 * 2 ^ (w - 1)) as E.
  { rewrite <- Z.pow_succ_r by lia. f_equal. lia. }
  rewrite Z.mod_small by lia. lia.
Qed.

Lemma int64_small z : min_int64 <= z <= max_int64 -> int64 z = z.
Proof. intros H. apply wrap_signed_small; unfold min_int64, max_int64 in H; lia. Qed.

Lemma uint32_small z : 0 <= z < 4294967296 -> uint32 z = z.
Proof. intros H. apply wrap_unsigned_small. lia. Qed.

Create Rewrite HintDb gp.
#[export] Hint Rewrite uint32_small int64_small using lia : gp.

(** Nanoseconds of the duration constants the code uses. *)
Definition time_Millisecond : Z := 1000000.
Definition time_Second : Z := 1000000000.

(** ** Strings

    Go strings are byte sequences: [string] with one [ascii] per byte. *)

Definition byte_val (c : ascii) : N := N_of_ascii c.

Definition string_empty (s : string) : bool := match s with EmptyString => true | _ => false end.

Fixpoint string_map (f : ascii -> ascii) (s : string) : string :=
  match s with
  | EmptyString => EmptyString
  | String c r => String (f c) (string_map f r)
  end.

Definition lower_byte (c : ascii) : ascii :=
  let n := byte_val c in
  if ((65 <=? n) && (n <=? 90))%N then ascii_of_N (n + 32) else c.

Definition upper_byte (c : ascii) : ascii :=
  let n := byte_val c in
  if ((97 <=? n) && (n <=? 122))%N then ascii_of_N (n - 32) else c.

(** [strings.ToLower] up to the letters whose lower case is not ASCII, which
    are kept: besides the ASCII ones, the dotted capital I and the Kelvin
    sign have an ASCII lower case.  Exact for every comparison with an ASCII
    text. *)
Fixpoint strings_ToLower (s : string) : string :=
  match s with
  | String "196" (String "176" r) => String "i" (strings_ToLower r)
  | String "226" (String "132" (String "170" r)) => String "k" (strings_ToLower r)
  | String c r => String (lower_byte c) (strings_ToLower r)
  | EmptyString => EmptyString
  end.

(** [strings.ToUpper] of an ASCII text. *)
Definition strings_ToUpper : string -> string := string_map upper_byte.

(** [strings.HasPrefix], [strings.TrimPrefix]. *)
Fixpoint strip_prefix (p s : string) : option string :=
  match p, s with
  | EmptyString, _ => Some s
  | String a p', String b s' => if Ascii.eqb a b then strip_prefix p' s' else None
  | String _ _, EmptyString => None
  end.

Definition strings_HasPrefix (s p : string) : bool :=
  match strip_prefix p s with Some _ => true | None => false end.

Definition strings_TrimPrefix (s p : string) : string :=
  match strip_prefix p s with Some r => r | None => s end.

Fixpoint string_rev_app (s acc : string) : string :=
  match s with
  | EmptyString => acc
  | String c r => string_rev_app r (String c acc)
  end.
Definition string_rev (s : string) : string := string_rev_app s EmptyString.

Definition strings_HasSuffix (s p : string) : bool :=
  strings_HasPrefix (string_rev s) (string_rev p).

(** [strings.Contains]. *)
Fixpoint strings_Contains (s p : string) : bool :=
  strings_HasPrefix s p ||
  match s with
  | EmptyString => false
  | String _ r => strings_Contains r p
  end.

(** [strings.Index] and the text after the match. *)
Fixpoint after_index (p s : string) : option string :=
  match strip_prefix p s with
  | Some r => Some r
  | None => match s with EmptyString => None | String _ r => after_index p r end
  end.

Fixpoint string_mem (c : ascii) (s : string) : bool :=
  match s with
  | EmptyString => false
  | String d r => Ascii.eqb c d || string_mem c r
  end.

(** [strings.ContainsAny] for an ASCII character set. *)
Fixpoint strings_ContainsAny (s chars : string) : bool :=
  match s with
  | EmptyString => false
  | String c r => string_mem c chars || strings_ContainsAny r chars
  end.

(** Simple case folding onto ASCII: the letters, the long s and the Kelvin
    sign. *)
Fixpoint fold_ascii (s : string) : string :=
  match s with
  | String "197" (String "191" r) => String "s" (fold_ascii r)
  | String "226" (String "132" (String "170" r)) => String "k" (fold_ascii r)
  | String c r => String (lower_byte c) (fold_ascii r)
  | EmptyString => EmptyString
  end.

(** [strings.EqualFold(s, t)] for an ASCII [t]. *)
Definition strings_EqualFold (s t : string) : bool := String.eqb (fold_ascii s) (string_map lower_byte t).

(** [strings.Trim] with an ASCII cut set. *)
Fixpoint trim_left_set (cutset s : string) : string :=
  match s with
  | String c r => if string_mem c cutset then trim_left_set cutset r else s
  | EmptyString => EmptyString
  end.
Definition strings_Trim (s cutset : string) : string :=
  string_rev (trim_left_set cutset (string_rev (trim_left_set cutset s))).

(** [strings.Split] by a single byte. *)
Fixpoint split_on (sep : ascii) (s : string) : list string :=
  match s with
  | EmptyString => [EmptyString]
  | String c r =>
      if Ascii.eqb c sep then EmptyString :: split_on sep r
      else match split_on sep r with
           | [] => [String c EmptyString]
           | w :: ws => String c w :: ws
           end
  end.

(** [strings.Join]. *)
Fixpoint strings_Join (l : list string) (sep : string) : string :=
  match l with
  | [] => EmptyString
  | [s] => s
  | s :: r => (s +:+ sep +:+ strings_Join r sep)%string
  end.

Fixpoint string_of_bytes (l : list N) : string :=
  match l with
  | [] => EmptyString
  | n :: r => String (ascii_of_N n) (string_of_bytes r)
  end.

(** The UTF-8 encodings of the code points [unicode.IsSpace] accepts. *)
Definition unicode_spaces : list string :=
  List.map string_of_bytes
    ([[9];[10];[11];[12];[13];[32]; [194;133]; [194;160]; [225;154;128];
      [226;128;168]; [226;128;169]; [226;128;175]; [226;129;159]; [227;128;128]] ++
     List.map (fun k => [226; 128; 128 + k]) [0;1;2;3;4;5;6;7;8;9;10])%N.

Fixpoint strip_any (ps : list string) (s : string) : option string :=
  match ps with
  | [] => None
  | p :: r => match strip_prefix p s with Some s' => Some s' | None => strip_any r s end
  end.

(** Every pattern is non-empty, so [length s] rounds strip all of them. *)
Fixpoint trim_left_with (ps : list string) (fuel : nat) (s : string) : string :=
  match fuel with
  | O => s
  | S f => match strip_any ps s with
           | Some s' => trim_left_with ps f s'
           | None => s
           end
  end.

(** [strings.TrimSpace]. *)
Definition strings_TrimSpace (s : string) : string :=
  let l := trim_left_with unicode_spaces (String.length s) s in
  string_rev (trim_left_with (List.map string_rev unicode_spaces) (String.length l) (string_rev l)).

(** Printing a Go integer with [%d] or [strconv.Itoa]. *)
Definition strconv_Itoa (z : Z) : string := pretty z.

Lemma string_app_cons c (s t : string) : (String c s +:+ t)%string = String c (s +:+ t)%string.
Proof. reflexivity. Qed.
#[export] Hint Rewrite string_app_cons : gp.

Lemma string_app_nil_r (s : string) : (s +:+ EmptyString)%string = s.
Proof. induction s as [|c s IH]; [done|]. by rewrite string_app_cons, IH. Qed.

Lemma string_app_assoc (s t u : string) : ((s +:+ t) +:+ u = s +:+ (t +:+ u))%string.
Proof. induction s as [|c s IH]; [done|]. by rewrite !string_app_cons, IH. Qed.

Lemma strip_prefix_app (p s : string) : strip_prefix p (p +:+ s)%string = Some s.
Proof. induction p as [|c p IH]; [done|]. rewrite string_app_cons. cbn. by rewrite Ascii.eqb_refl. Qed.

Lemma strip_prefix_Some (p s r : string) :
  strip_prefix p s = Some r -> s = (p +:+ r)%string.
Proof.
  revert s. induction p as [|c p IH]; intros s H; [by simplify_eq/=|].
  destruct s as [|d s]; [done|]. cbn in H.
  destruct (Ascii.eqb_spec c d); [|done]. subst. rewrite string_app_cons. f_equal. by apply IH.
Qed.

Lemma HasPrefix_true (s p : string) :
  strings_HasPrefix s p = true <-> exists r, s = (p +:+ r)%string.
Proof.
  unfold strings_HasPrefix. split.
  - destruct (strip_prefix p s) eqn:E; intros H; [|discriminate].
    eexists. by apply strip_prefix_Some.
  - intros [r ->]. by rewrite strip_prefix_app.
Qed.

(** ** Booleans as propositions *)

Ltac bool_to_prop :=
  repeat match goal with
  | H : _ && _ = true |- _ => apply andb_true_iff in H as [? ?]
  | H : _ || _ = false |- _ => apply orb_false_iff in H as [? ?]
  | H : negb _ = true |- _ => apply negb_true_iff in H
  | H : negb _ = false |- _ => apply negb_false_iff in H
  | H : bool_decide _ = true |- _ => apply bool_decide_eq_true in H
  | H : bool_decide _ = false |- _ => apply bool_decide_eq_false in H
  | H : (_ =? _) = true |- _ => apply Z.eqb_eq in H
  | H : (_ =? _) = false |- _ => apply Z.eqb_neq in H
  | H : (_ <? _) = true |- _ => apply Z.ltb_lt in H
  | H : (_ <? _) = false |- _ => apply Z.ltb_ge in H
  | H : (_ <=? _) = true |- _ => apply Z.leb_le in H
  | H : (_ <=? _) = false |- _ => apply Z.leb_gt in H
  end.

(** Case analysis on the innermost scrutinee of a goal or hypothesis. *)
Ltac case_inner :=
  match goal with
  | |- context [match ?x with _ => _ end] =>
      lazymatch x with context [match _ with _ => _ end] => fail | _ => destruct x eqn:? end
  end.
