(* ===== verification/Float.v ===== *)
(** * Go's [float64]

    IEEE 754 binary64 values as [SpecFloat] has them, the comparisons the code
    makes on them, the conversion to [int], and [strconv.ParseFloat]. *)

From Stdlib Require Export SpecFloat.
From S2P Require Import Prelude.

Abbreviation float64 := spec_float.

Definition f64_prec : Z := 53.
Definition f64_emax : Z := 1024.

(** The nearest [float64] to [num/den], with the sign of the literal. *)
Definition float_of_ratio (neg : bool) (num : N) (den : positive) : float64 :=
  match num with
  | N0 => S754_zero neg
  | Npos m =>
      let '(q, e, l) := SFdiv_core_binary f64_prec f64_emax (Z.pos m) 0 (Z.pos den) 0 in
      binary_round_aux f64_prec f64_emax neg q e l
  end.

(** A Go integer constant in a comparison with a [float64]. *)
Definition float_of_Z (z : Z) : float64 := float_of_ratio (z <? 0) (Z.to_N (Z.abs z)) 1.

(** [f > 0], and so on: every comparison with a NaN is false. *)
Definition float_ltb : float64 -> float64 -> bool := SFltb.
Definition float_leb : float64 -> float64 -> bool := SFleb.

(** [int(f)]: truncation; outside [int64] the result is implementation
    specific, and is here the one of amd64. *)
Definition float_to_int (f : float64) : Z :=
  match f with
  | S754_finite s m e =>
      let a := if e <? 0 then Z.quot (Z.pos m) (2 ^ (- e)) else Z.pos m * 2 ^ e in
      let z := if s then - a else a in
      if (min_int64 <=? z) && (z <=? max_int64) then z else min_int64
  | S754_zero _ => 0
  | _ => min_int64
  end.

(** ** [strconv.ParseFloat] *)

Definition dec_digit (c : ascii) : option N :=
  let n := byte_val c in if ((48 <=? n) && (n <=? 57))%N then Some (n - 48)%N else None.

Definition hex_letter (c : ascii) : option N :=
  let n := byte_val (lower_byte c) in if ((97 <=? n) && (n <=? 102))%N then Some (n - 87)%N else None.

Definition base_digit (hex : bool) (c : ascii) : option N :=
  match dec_digit c with
  | Some d => Some d
  | None => if hex then hex_letter c else None
  end.

(** The digits read, their number, and the number after the point. *)
Record mantissa := mkMantissa { mant : N; sawdigits : bool; sawdot : bool; after_dot : Z }.

Fixpoint read_mantissa (hex : bool) (s : string) (m : mantissa) : mantissa * string :=
  match s with
  | EmptyString => (m, s)
  | String c r =>
      if Ascii.eqb c "_" then read_mantissa hex r m
      else if Ascii.eqb c "." then
        if sawdot m then (m, s) else read_mantissa hex r (mkMantissa (mant m) (sawdigits m) true 0)
      else
        match base_digit hex c with
        | Some d =>
            read_mantissa hex r
              (mkMantissa (mant m * (if hex then 16 else 10) + d)%N true (sawdot m) (after_dot m + (if sawdot m then 1 else 0)))
        | None => (m, s)
        end
  end.

Fixpoint read_exponent (s : string) (e : Z) : Z * string :=
  match s with
  | EmptyString => (e, s)
  | String c r =>
      if Ascii.eqb c "_" then read_exponent r e
      else match dec_digit c with
           | Some d => read_exponent r (if e <? 10000 then e * 10 + Z.of_N d else e)
           | None => (e, s)
           end
  end.

(** Underscores only between digits, a base prefix counting as one. *)
Inductive underscore_saw := SawStart | SawDigit | SawUnderscore | SawOther.

Fixpoint underscores_ok (hex : bool) (s : string) (saw : underscore_saw) : bool :=
  match s with
  | EmptyString => match saw with SawUnderscore => false | _ => true end
  | String c r =>
      match base_digit hex c with
      | Some _ => underscores_ok hex r SawDigit
      | None =>
          if Ascii.eqb c "_" then match saw with SawDigit => underscores_ok hex r SawUnderscore | _ => false end
          else match saw with SawUnderscore => false | _ => underscores_ok hex r SawOther end
      end
  end.

Definition split_sign (s : string) : bool * string :=
  match s with
  | String "-" r => (true, r)
  | String "+" r => (false, r)
  | _ => (false, s)
  end.

Definition split_hex (s : string) : bool * string :=
  match s with
  | String "0" (String x ((String _ _) as r)) => if Ascii.eqb (lower_byte x) "x" then (true, r) else (false, s)
  | _ => (false, s)
  end.

Definition signed_exponent (s : string) : option (Z * string) :=
  let '(neg, r) := split_sign s in
  match r with
  | String c _ =>
      match dec_digit c with
      | Some _ => let '(e, r') := read_exponent r 0 in Some (if neg then - e else e, r')
      | None => None
      end
  | EmptyString => None
  end.

(** The value of a literal: [mant * base^-after_dot * 2^e] or [* 10^e]. *)
Definition literal_value (neg hex : bool) (m : mantissa) (e : Z) : float64 :=
  let b := if hex then 2 else 10 in
  let k := e - (if hex then 4 * after_dot m else after_dot m) in
  if k <? 0 then float_of_ratio neg (mant m) (Z.to_pos (b ^ (- k)))
  else float_of_ratio neg (mant m * Z.to_N (b ^ k))%N 1.

Definition special_float (s : string) : option float64 :=
  let '(neg, r) := split_sign s in
  let l := strings_ToLower r in
  if String.eqb l "inf" || String.eqb l "infinity" then Some (S754_infinity neg)
  else if String.eqb (strings_ToLower s) "nan" then Some S754_nan
  else None.

Definition is_infinite (f : float64) : bool := match f with S754_infinity _ => true | _ => false end.

(** [ParseFloat(s, 64)]; [None] is any error, a value out of range included. *)
Definition ParseFloat (s : string) : option float64 :=
  match special_float s with
  | Some f => Some f
  | None =>
      let '(neg, r) := split_sign s in
      let '(hex, digits) := split_hex r in
      let '(m, rest) := read_mantissa hex digits (mkMantissa 0 false false 0) in
      if negb (sawdigits m) then None
      else
        let exponent :=
          match rest with
          | String c r' =>
              if Ascii.eqb (lower_byte c) (if hex then "p" else "e") then signed_exponent r'
              else if hex then None else Some (0, rest)
          | EmptyString => if hex then None else Some (0, rest)
          end in
        match exponent with
        | Some (e, EmptyString) =>
            if string_mem "_" r && negb (underscores_ok hex digits (if hex then SawDigit else SawStart)) then None
            else
              let f := literal_value neg hex m e in
              if is_infinite f then None else Some f
        | _ => None
        end
  end.

Example parse_tenth : ParseFloat "0.1" = Some (S754_finite false 7205759403792794 (-56)).
Proof. vm_compute. reflexivity. Qed.
Example parse_forms :
  ParseFloat "1" = Some (float_of_Z 1) /\ ParseFloat "+.5e1" = ParseFloat "5" /\ ParseFloat "0x1p-2" = ParseFloat "0.25" /\
  ParseFloat "1_0" = ParseFloat "10" /\ ParseFloat "1__0" = None /\ ParseFloat "1e999" = None /\ ParseFloat "" = None /\
  ParseFloat "0.5x" = None /\ ParseFloat "-Inf" = Some (S754_infinity true) /\ ParseFloat "9007199254740993" = ParseFloat "9007199254740992".
Proof. vm_compute. repeat split. Qed.
