(* ===== verification/Prog.v ===== *)
(** * Effectful programs

    The handlers of the service interleave pure code with calls whose answer
    comes from outside: SQL statements, the clock, the broker, the provider.
    [prog E A] is the tree of such a handler: the next call, and what the
    handler does with each possible answer.  The handlers have no unbounded
    loop, so the trees are finite and every execution ends.

    Three ways to run one tree: [wp] (every answer a handler relation allows,
    used for correctness), [run] (one answer per call, used to evaluate), and
    [obeys] (a typestate checked along every branch, used by the interleaving
    semantics). *)

From S2P Require Import Prelude.

Inductive prog (E : Type -> Type) (A : Type) : Type :=
| Ret (a : A)
| Vis {X : Type} (e : E X) (k : X -> prog E A).
Arguments Ret {E A} a.
Arguments Vis {E A X} e k.

Fixpoint bind {E A B} (p : prog E A) (f : A -> prog E B) : prog E B :=
  match p with
  | Ret a => f a
  | Vis e k => Vis e (fun x => bind (k x) f)
  end.

Definition trigger {E X} (e : E X) : prog E X := Vis e Ret.

Declare Scope prog_scope.
Delimit Scope prog_scope with prog.
Bind Scope prog_scope with prog.
Notation "x <- p ;; q" := (bind p%prog (fun x => q%prog))
  (at level 100, p at next level, right associativity) : prog_scope.
Notation "p ;;; q" := (bind p%prog (fun _ => q%prog))
  (at level 100, right associativity) : prog_scope.

(** A [for] loop over a slice whose body cannot break. *)
Fixpoint for_each {E A} (l : list A) (body : A -> prog E unit) : prog E unit :=
  match l with
  | [] => Ret tt
  | a :: r => bind (body a) (fun _ => for_each r body)
  end.

(** [defer cleanup(); body]: the cleanup runs after the body on every path. *)
Definition deferring {E A} (cleanup : prog E unit) (body : prog E A) : prog E A :=
  (r <- body ;; cleanup ;;; Ret r)%prog.

(** A program over one component's effects as a program over effects that
    include them. *)
Fixpoint translate {E F A} (f : forall X, E X -> F X) (p : prog E A) : prog F A :=
  match p with
  | Ret a => Ret a
  | Vis e k => Vis (f _ e) (fun x => translate f (k x))
  end.

(** ** Weakest preconditions over a handler relation *)

Definition handler (E : Type -> Type) (S : Type) : Type :=
  forall X, E X -> S -> X -> S -> Prop.

Section wp.
Context {E : Type -> Type} {S : Type} (H : handler E S).

Fixpoint wp {A} (p : prog E A) (s : S) (Q : A -> S -> Prop) : Prop :=
  match p with
  | Ret a => Q a s
  | Vis e k => forall x s', H _ e s x s' -> wp (k x) s' Q
  end.

Lemma wp_mono {A} (p : prog E A) s (Q R : A -> S -> Prop) :
  wp p s Q -> (forall a s', Q a s' -> R a s') -> wp p s R.
Proof. revert s. induction p as [a|X e k IH]; cbn; eauto. Qed.

Lemma wp_bind {A B} (p : prog E A) (f : A -> prog E B) s Q :
  wp (bind p f) s Q <-> wp p s (fun a s' => wp (f a) s' Q).
Proof.
  revert s. induction p as [a|X e k IH]; intros s; cbn; [done|].
  split; intros Hk x s' Hx; apply IH; eauto.
Qed.

Lemma wp_conj {A} (p : prog E A) s (Q R : A -> S -> Prop) :
  wp p s Q -> wp p s R -> wp p s (fun a s' => Q a s' /\ R a s').
Proof. revert s. induction p as [a|X e k IH]; cbn; eauto. Qed.

(** A property kept by every effect is kept by every program. *)
Lemma wp_invariant {A} (I : S -> Prop) (p : prog E A) s :
  (forall X (e : E X) s x s', I s -> H X e s x s' -> I s') ->
  I s -> wp p s (fun _ s' => I s').
Proof. intros HI. revert s. induction p as [a|X e k IH]; cbn; eauto. Qed.

Lemma wp_for_each {A} (I : S -> Prop) (l : list A) body s :
  (forall a s, a ∈ l -> I s -> wp (body a) s (fun _ s' => I s')) ->
  I s -> wp (for_each l body) s (fun _ s' => I s').
Proof.
  revert s. induction l as [|a l IH]; intros s Hb HI; cbn; [done|].
  apply wp_bind. eapply wp_mono; [by apply Hb; [left|]|].
  intros [] s' HI'. apply IH; [|done]. intros b t Hb' Ht. apply Hb; [by right|done].
Qed.

(** [wp] is never vacuous when each effect always has an answer. *)
Lemma wp_nonvacuous {A} (p : prog E A) s Q :
  (forall X (e : E X) s, exists x s', H X e s x s') ->
  wp p s Q -> exists a s', Q a s'.
Proof.
  intros Htot. revert s. induction p as [a|X e k IH]; cbn; intros s Hp; [eauto|].
  destruct (Htot X e s) as (x & s' & Hx). eauto.
Qed.
End wp.

(** Fewer answers, the same guarantee. *)
Lemma wp_smaller {E S A} (H H' : handler E S) (p : prog E A) s Q :
  (forall X (e : E X) s x s', H' X e s x s' -> H X e s x s') -> wp H p s Q -> wp H' p s Q.
Proof. intros Hs. revert s. induction p as [a|X e k IH]; cbn; eauto. Qed.

(** ** Evaluation *)

Definition runner (E : Type -> Type) (S : Type) : Type := forall X, E X -> S -> X * S.

Fixpoint run {E S A} (r : runner E S) (p : prog E A) (s : S) : A * S :=
  match p with
  | Ret a => (a, s)
  | Vis e k => let '(x, s') := r _ e s in run r (k x) s'
  end.

Lemma run_wp {E S A} (H : handler E S) (r : runner E S) (p : prog E A) s Q :
  (forall X (e : E X) s, H X e s (r X e s).1 (r X e s).2) ->
  wp H p s Q -> Q (run r p s).1 (run r p s).2.
Proof.
  intros Hr. revert s. induction p as [a|X e k IH]; cbn; intros s Hp; [done|].
  specialize (Hr X e s). destruct (r X e s) as [x s'] eqn:Er. cbn in *. eauto.
Qed.

(** ** Typestates

    [P e g x] is the protocol state after effect [e] answered [x] in state
    [g]; [None] means the protocol forbids [e] there.  [obeys P g p Q]: from
    [g] the program only makes allowed calls, whatever they answer, and ends
    in a result and a state that satisfy [Q]. *)
Definition protocol (E : Type -> Type) (G : Type) : Type :=
  forall X, E X -> G -> X -> option G.

Fixpoint obeys {E G A} (P : protocol E G) (g : G) (p : prog E A) (Q : A -> G -> Prop) : Prop :=
  match p with
  | Ret a => Q a g
  | Vis e k => forall x, exists g', P _ e g x = Some g' /\ obeys P g' (k x) Q
  end.

(** Allowed calls only, whatever the end. *)
Abbreviation follows P g p := (obeys P g p (fun _ _ => True)).

Section obeys.
Context {E : Type -> Type} {G : Type} (P : protocol E G).

Lemma obeys_mono {A} g (p : prog E A) (Q R : A -> G -> Prop) :
  obeys P g p Q -> (forall a g', Q a g' -> R a g') -> obeys P g p R.
Proof.
  revert g. induction p as [a|X e k IH]; cbn; intros g Hp HQ; [auto|].
  intros x. destruct (Hp x) as (g' & E1 & E2). eauto.
Qed.

Lemma obeys_bind {A B} g (p : prog E A) (f : A -> prog E B) Q :
  obeys P g p (fun a g' => obeys P g' (f a) Q) -> obeys P g (bind p f) Q.
Proof.
  revert g. induction p as [a|X e k IH]; cbn; intros g Hp; [done|].
  intros x. destruct (Hp x) as (g' & E1 & E2). eauto.
Qed.

(** A call the protocol answers with [f]. *)
Lemma obeys_trigger {X} (e : E X) g (f : X -> G) Q :
  (forall x, P X e g x = Some (f x)) -> (forall x, Q x (f x)) -> obeys P g (trigger e) Q.
Proof. intros H1 H2 x. exists (f x). split; [apply H1|apply H2]. Qed.

Lemma obeys_for_each {A} g (l : list A) body (Q : unit -> G -> Prop) :
  (forall a, obeys P g (body a) (fun _ g' => g' = g)) -> Q tt g -> obeys P g (for_each l body) Q.
Proof.
  intros Hb HQ. induction l as [|a l IH]; cbn; [done|].
  apply obeys_bind. eapply obeys_mono; [apply Hb|]. intros [] ? ->. exact IH.
Qed.

(** A state in which everything is allowed. *)
Lemma obeys_anything {A} g (p : prog E A) (Q : A -> G -> Prop) :
  (forall X (e : E X) x, P X e g x = Some g) -> (forall a, Q a g) -> obeys P g p Q.
Proof. intros Hg HQ. induction p as [a|X e k IH]; cbn; [done|]. intros x. eauto. Qed.
End obeys.

(** ** The calls of a program, and what it may do

    [only P p]: every call of [p], on every branch, satisfies [P]. [may H p s
    Q]: there are answers with which [p] ends as [Q] says. *)
Fixpoint only {E A} (P : forall X, E X -> Prop) (p : prog E A) : Prop :=
  match p with
  | Ret _ => True
  | Vis e k => P _ e /\ forall x, only P (k x)
  end.

Lemma only_bind {E A B} (P : forall X, E X -> Prop) (p : prog E A) (f : A -> prog E B) :
  only P p -> (forall a, only P (f a)) -> only P (bind p f).
Proof. intros Hp Hf. induction p as [a|X e k IH]; cbn in *; [apply Hf|]. destruct Hp as [He Hk]. split; [done|]. intros x. by apply IH. Qed.

Lemma only_trigger {E X} (P : forall X, E X -> Prop) (e : E X) : P _ e -> only P (trigger e).
Proof. by split. Qed.

Lemma only_for_each {E A} (P : forall X, E X -> Prop) (l : list A) (body : A -> prog E unit) :
  (forall a, only P (body a)) -> only P (for_each l body).
Proof. intros H. induction l as [|a l IH]; cbn; [done|]. by apply only_bind. Qed.

(** What every call of a program keeps holds at its end. *)
Lemma wp_only {E S A} (H : handler E S) (P : forall X, E X -> Prop) (I : S -> Prop) (p : prog E A) s :
  (forall X (e : E X) s x s', P X e -> I s -> H X e s x s' -> I s') -> only P p -> I s -> wp H p s (fun _ s' => I s').
Proof.
  intros HI. revert s. induction p as [a|X e k IH]; cbn; intros s Ho Hs; [done|]. destruct Ho as [He Hk].
  intros x s' Hx. apply IH; [apply Hk|]. by eapply HI.
Qed.

Fixpoint may {E S A} (H : handler E S) (p : prog E A) (s : S) (Q : A -> S -> Prop) : Prop :=
  match p with
  | Ret a => Q a s
  | Vis e k => exists x s', H _ e s x s' /\ may H (k x) s' Q
  end.

Lemma may_bind {E S A B} (H : handler E S) (p : prog E A) (f : A -> prog E B) s Q :
  may H p s (fun a s' => may H (f a) s' Q) -> may H (bind p f) s Q.
Proof.
  revert s. induction p as [a|X e k IH]; cbn; intros s Hp; [done|]. destruct Hp as (x & s' & Hx & Hp). exists x, s'. eauto.
Qed.

Lemma may_mono {E S A} (H : handler E S) (p : prog E A) s (Q R : A -> S -> Prop) :
  may H p s Q -> (forall a s', Q a s' -> R a s') -> may H p s R.
Proof.
  revert s. induction p as [a|X e k IH]; cbn; intros s Hp HQ; [auto|]. destruct Hp as (x & s' & Hx & Hp). exists x, s'. eauto.
Qed.

(** What every run of a total handler ensures, a run of a larger one may do. *)
Lemma wp_may {E S A} (H H' : handler E S) (p : prog E A) s Q :
  (forall X (e : E X) s, exists x s', H X e s x s') -> (forall X (e : E X) s x s', H X e s x s' -> H' X e s x s') ->
  wp H p s Q -> may H' p s Q.
Proof.
  intros Ht Hs. revert s. induction p as [a|X e k IH]; cbn; intros s Hp; [done|]. destruct (Ht X e s) as (x & s' & Hx).
  exists x, s'. eauto.
Qed.

(** A component that keeps its protocol keeps it inside a larger one. *)
Lemma obeys_translate {E F G G' A} (P : protocol E G) (P' : protocol F G') (f : forall X, E X -> F X)
    (embed : G -> G') (p : prog E A) g (Q : A -> G -> Prop) (Q' : A -> G' -> Prop) :
  (forall X (e : E X) g x g1, P X e g x = Some g1 -> P' X (f X e) (embed g) x = Some (embed g1)) ->
  (forall a g1, Q a g1 -> Q' a (embed g1)) ->
  obeys P g p Q -> obeys P' (embed g) (translate f p) Q'.
Proof.
  intros He HQ. revert g. induction p as [a|X e k IH]; cbn; intros g Hp; [auto|].
  intros x. destruct (Hp x) as (g1 & E1 & Ho). eauto.
Qed.

Lemma obeys_deferring {E G A} (P : protocol E G) g cleanup (body : prog E A) Q :
  obeys P g body (fun a g1 => obeys P g1 cleanup (fun _ g2 => Q a g2)) -> obeys P g (deferring cleanup body) Q.
Proof.
  intros H. apply obeys_bind. eapply obeys_mono; [exact H|]. intros a g1 H1. apply obeys_bind.
  eapply obeys_mono; [exact H1|]. by intros [] g2.
Qed.

(** Follows a program through its branches; [leaf] proves [P] of a call. *)
Ltac only_steps leaf :=
  repeat match goal with
  | |- only _ (bind _ _) => apply only_bind
  | |- only _ (trigger _) => apply only_trigger
  | |- only _ (Ret _) => exact I
  | |- only _ (match ?x with _ => _ end) => destruct x
  | |- only _ (let _ := _ in _) => cbv zeta
  | |- forall _, _ => intros ?
  | |- _ => leaf
  end.

(** ** Reflexive-transitive closure *)

Section star.
Context {S : Type} (R : S -> S -> Prop).

Inductive star : S -> S -> Prop :=
| star_refl s : star s s
| star_snoc s1 s2 s3 : star s1 s2 -> R s2 s3 -> star s1 s3.

Lemma star_invariant (I : S -> Prop) s s' :
  (forall s s', I s -> R s s' -> I s') -> I s -> star s s' -> I s'.
Proof. intros HI Hs Hst. induction Hst; eauto. Qed.

Lemma star_trans s1 s2 s3 : star s1 s2 -> star s2 s3 -> star s1 s3.
Proof. intros H1 H2. induction H2; eauto using star_snoc. Qed.

(** An invariant and a preorder preserved by each step from it. *)
Lemma star_invariant_rel (I : S -> Prop) (P : S -> S -> Prop) s s' :
  (forall s, P s s) -> (forall a b c, P a b -> P b c -> P a c) ->
  (forall s s', I s -> R s s' -> I s' /\ P s s') ->
  I s -> star s s' -> I s' /\ P s s'.
Proof.
  intros Hr Ht Hst Hs Hstar. induction Hstar as [|s1 s2 s3 _ IH H]; [by split|].
  destruct (IH Hs) as [HI HP]. destruct (Hst _ _ HI H). eauto.
Qed.
End star.
