(* ===== verification/Errors.v ===== *)
(** * Go errors

    The error values of the modelled packages, with the chain [errors.Is] and
    [errors.As] walk and the text [Error()] renders. *)

From S2P Require Import Prelude.

(** Package-level error variables. *)
Inductive sentinel :=
| StoreErrNotFound | ErrDuplicateSourceRequest | ErrNotClaimed
| ErrInvalidRequest | ErrUnsupportedProviderAction | ErrInvalidPayload
| ErrSourceRequestConflict | ErrNotFound | ErrStorageUnavailable
| ErrMemoryQueueFull | ErrMemoryClosed
| ErrInvalidToken
| CtxCanceled | CtxDeadlineExceeded
| HTTPErrServerClosed | GRPCErrServerStopped.

#[export] Instance sentinel_eq_dec : EqDecision sentinel.
Proof. solve_decision. Defined.

(** [EOp] is a [*net.OpError], [ENet] another [net.Error], [EProtocol] a
    [*textproto.Error], [EPg] a [*pgconn.PgError], [EJoin] what [errors.Join]
    makes of two errors. *)
Inductive error :=
| ESentinel (s : sentinel)
| EString (msg : string)
| EWrap (pre : string) (inner : error) (post : string)
| ERequeue (Cause : option error) (Delay : Z) (Backoff : bool)
| EPayloadValidation (Problems : list string)
| EValidation (Problems : list string)
| EPg (Code msg : string)
| EOp (Op : string) (Timeout : bool) (msg : string)
| ENet (Timeout : bool) (msg : string)
| EProtocol (ProtoCode : Z) (msg : string)
| EJoin (e1 e2 : error).

Abbreviation res := (result error).

Definition store_error_text (s : sentinel) : string :=
  match s with
  | StoreErrNotFound => "store: not found"
  | ErrDuplicateSourceRequest => "store: duplicate source request"
  | _ => "store: event not claimed"
  end.

Definition notification_error_text (s : sentinel) : string :=
  match s with
  | ErrInvalidRequest => "invalid notification request"
  | ErrUnsupportedProviderAction => "unsupported provider action"
  | ErrInvalidPayload => "invalid provider payload"
  | ErrSourceRequestConflict => "source request conflicts with an existing notification"
  | ErrNotFound => "notification not found"
  | _ => "notification storage unavailable"
  end.

Definition sentinel_text (s : sentinel) : string :=
  match s with
  | StoreErrNotFound | ErrDuplicateSourceRequest | ErrNotClaimed => store_error_text s
  | ErrMemoryQueueFull => "mq: memory queue is full"
  | ErrMemoryClosed => "mq: memory broker is closed"
  | ErrInvalidToken => "invalid bearer token"
  | CtxCanceled => "context canceled"
  | CtxDeadlineExceeded => "context deadline exceeded"
  | HTTPErrServerClosed => "http: Server closed"
  | GRPCErrServerStopped => "grpc: the server has been stopped"
  | _ => notification_error_text s
  end.

(** [(e *ValidationError) Error()]: [%v] prints a slice as [[a b]]. *)
Definition ValidationError_Error (problems : list string) : string :=
  ("payload validation failed: [" +:+ strings_Join problems " " +:+ "]")%string.

(** [(e *PayloadValidationError) Error()] and [Unwrap()]. *)
Definition PayloadValidationError_Error : string := sentinel_text ErrInvalidPayload.
Definition PayloadValidationError_Unwrap : error := ESentinel ErrInvalidPayload.

(** [%03d] of a reply code. *)
Definition pad_left (width : nat) (s : string) : string :=
  (string_of_bytes (repeat 48%N (width - String.length s)) +:+ s)%string.

(** [Error()] of every error; a [*RequeueError] without a cause has a fixed
    text, otherwise its cause's. *)
Fixpoint Error (e : error) : string :=
  match e with
  | ESentinel s => sentinel_text s
  | EString m => m
  | EWrap pre e' post => (pre +:+ Error e' +:+ post)%string
  | ERequeue None _ _ => "mq: requeue requested"
  | ERequeue (Some c) _ _ => Error c
  | EPayloadValidation _ => PayloadValidationError_Error
  | EValidation ps => ValidationError_Error ps
  | EPg _ m => m
  | EOp _ _ m => m
  | ENet _ m => m
  | EProtocol c m => (pad_left 3 (strconv_Itoa c) +:+ " " +:+ m)%string
  | EJoin e1 e2 => (Error e1 +:+ string_of_bytes [10%N] +:+ Error e2)%string
  end.

(** [Unwrap()]: one step of the chain. *)
Definition Unwrap (e : error) : option error :=
  match e with
  | EWrap _ e' _ => Some e'
  | ERequeue c _ _ => c
  | EPayloadValidation _ => Some PayloadValidationError_Unwrap
  | _ => None
  end.

(** [errors.Is(e, target)] for a sentinel target. *)
Fixpoint errors_Is (e : error) (target : sentinel) : bool :=
  match e with
  | ESentinel s => bool_decide (s = target)
  | EWrap _ e' _ => errors_Is e' target
  | ERequeue (Some c) _ _ => errors_Is c target
  | EPayloadValidation _ => bool_decide (ErrInvalidPayload = target)
  | EJoin e1 e2 => errors_Is e1 target || errors_Is e2 target
  | _ => false
  end.

(** [errors.As] for the four typed errors of the code. *)
Fixpoint errors_As_Requeue (e : error) : option (Z * bool) :=
  match e with
  | ERequeue _ d b => Some (d, b)
  | EWrap _ e' _ => errors_As_Requeue e'
  | EJoin e1 e2 => match errors_As_Requeue e1 with Some x => Some x | None => errors_As_Requeue e2 end
  | _ => None
  end.

Fixpoint errors_As_Payload (e : error) : option (list string) :=
  match e with
  | EPayloadValidation ps => Some ps
  | EWrap _ e' _ => errors_As_Payload e'
  | ERequeue (Some c) _ _ => errors_As_Payload c
  | EJoin e1 e2 => match errors_As_Payload e1 with Some x => Some x | None => errors_As_Payload e2 end
  | _ => None
  end.

Fixpoint errors_As_Validation (e : error) : option (list string) :=
  match e with
  | EValidation ps => Some ps
  | EWrap _ e' _ => errors_As_Validation e'
  | ERequeue (Some c) _ _ => errors_As_Validation c
  | EJoin e1 e2 => match errors_As_Validation e1 with Some x => Some x | None => errors_As_Validation e2 end
  | _ => None
  end.

Fixpoint errors_As_PgCode (e : error) : option string :=
  match e with
  | EPg code _ => Some code
  | EWrap _ e' _ => errors_As_PgCode e'
  | ERequeue (Some c) _ _ => errors_As_PgCode c
  | EJoin e1 e2 => match errors_As_PgCode e1 with Some x => Some x | None => errors_As_PgCode e2 end
  | _ => None
  end.

(** [errors.As] for [*net.OpError] (its operation), for [net.Error] (whether
    it is a timeout; [context.DeadlineExceeded] is one), and for
    [*textproto.Error] (its code). *)
Fixpoint errors_As_Op (e : error) : option string :=
  match e with
  | EOp op _ _ => Some op
  | EWrap _ e' _ => errors_As_Op e'
  | ERequeue (Some c) _ _ => errors_As_Op c
  | EJoin e1 e2 => match errors_As_Op e1 with Some x => Some x | None => errors_As_Op e2 end
  | _ => None
  end.

Fixpoint errors_As_Net (e : error) : option bool :=
  match e with
  | EOp _ t _ | ENet t _ => Some t
  | ESentinel CtxDeadlineExceeded => Some true
  | EWrap _ e' _ => errors_As_Net e'
  | ERequeue (Some c) _ _ => errors_As_Net c
  | EJoin e1 e2 => match errors_As_Net e1 with Some x => Some x | None => errors_As_Net e2 end
  | _ => None
  end.

Fixpoint errors_As_Protocol (e : error) : option Z :=
  match e with
  | EProtocol c _ => Some c
  | EWrap _ e' _ => errors_As_Protocol e'
  | ERequeue (Some c) _ _ => errors_As_Protocol c
  | EJoin e1 e2 => match errors_As_Protocol e1 with Some x => Some x | None => errors_As_Protocol e2 end
  | _ => None
  end.

(** [errors.Join]: nil errors are dropped; nothing is left of nils. *)
Definition errors_Join (a b : option error) : option error :=
  match a, b with
  | Some e1, Some e2 => Some (EJoin e1 e2)
  | Some e, None | None, Some e => Some (EWrap EmptyString e EmptyString)
  | None, None => None
  end.

(** [errors.Is] is the search along the [Unwrap] chain and into the branches
    of a join. *)
Lemma errors_Is_Unwrap e s :
  errors_Is e s = true <->
  e = ESentinel s \/ (exists e', Unwrap e = Some e' /\ errors_Is e' s = true) \/
  (exists e1 e2, e = EJoin e1 e2 /\ (errors_Is e1 s = true \/ errors_Is e2 s = true)).
Proof.
  split.
  - destruct e as [t|m|pre e' post|[c|] d b|ps|ps|c m|op to m|to m|c m|e1 e2]; cbn; intros H; try discriminate; eauto 6.
    + left. f_equal. by apply bool_decide_eq_true in H.
    + right. right. exists e1, e2. by apply orb_true_iff in H.
  - intros [->|[(e' & E & H)|(e1 & e2 & -> & H)]]; [by apply bool_decide_eq_true| |by cbn; apply orb_true_iff].
    destruct e as [t|m|pre e3 post|[c|] d b|ps|ps|c m|op to m|to m|c m|e1 e2]; cbn in *; simplify_eq; exact H.
Qed.
