(* ===== verification/Json.v ===== *)
(** * JSON as [encoding/json] reads and writes it

    Values, the text scanner (a byte-at-a-time pushdown machine, as Go's
    [scanner]: no fuel, one transition per byte), string quoting and
    unquoting, the printer of [json.Marshal] for [any] values, and the
    rendering of [time.Time]. *)

From S2P Require Import Prelude.

Inductive json :=
| JNull
| JBool (b : bool)
| JNum (lit : string)
| JStr (s : string)
| JArr (l : list json)
| JObj (m : list (string * json)).

(** Induction through the nested lists. *)
Section json_ind.
Variable P : json -> Prop.
Hypothesis Hnull : P JNull.
Hypothesis Hbool : forall b, P (JBool b).
Hypothesis Hnum : forall l, P (JNum l).
Hypothesis Hstr : forall s, P (JStr s).
Hypothesis Harr : forall l, Forall P l -> P (JArr l).
Hypothesis Hobj : forall m, Forall (fun kv => P kv.2) m -> P (JObj m).

Fixpoint json_ind' (j : json) : P j :=
  match j with
  | JNull => Hnull
  | JBool b => Hbool b
  | JNum l => Hnum l
  | JStr s => Hstr s
  | JArr l => Harr l
      ((fix go (l : list json) : Forall P l :=
          match l with
          | [] => Forall_nil_2 P
          | j :: r => Forall_cons_2 P j r (json_ind' j) (go r)
          end) l)
  | JObj m => Hobj m
      ((fix go (m : list (string * json)) : Forall (fun kv => P kv.2) m :=
          match m with
          | [] => Forall_nil_2 _
          | kv :: r => Forall_cons_2 _ kv r (json_ind' kv.2) (go r)
          end) m)
  end.
End json_ind.

(** ** Objects *)

(** The value of a key; of several members with one key the last counts. *)
Fixpoint assoc_last (k : string) (m : list (string * json)) : option json :=
  match m with
  | [] => None
  | (k', v) :: r =>
      match assoc_last k r with
      | Some w => Some w
      | None => if String.eqb k' k then Some v else None
      end
  end.

Definition json_get (k : string) (j : json) : option json :=
  match j with JObj m => assoc_last k m | _ => None end.

(** A struct field without [omitempty], and one with it. *)
Definition field (k : string) (v : json) : list (string * json) := [(k, v)].
Definition field_omitempty (k : string) (empty : bool) (v : json) : list (string * json) :=
  if empty then [] else [(k, v)].

Lemma assoc_last_app k m1 m2 :
  assoc_last k (m1 ++ m2) =
  match assoc_last k m2 with Some v => Some v | None => assoc_last k m1 end.
Proof.
  induction m1 as [|[k' v] m1 IH]; cbn; [by destruct (assoc_last k m2)|].
  rewrite IH. by destruct (assoc_last k m2).
Qed.

Lemma assoc_last_omitempty k k' b v :
  k <> k' -> assoc_last k (field_omitempty k' b v) = None.
Proof. intros H. destruct b; cbn; [done|]. by destruct (String.eqb_spec k' k). Qed.

(** ** [time.Time] in JSON: RFC 3339 with nanoseconds, UTC *)

Definition pad (width : nat) (z : Z) : string :=
  let s := strconv_Itoa z in
  (string_of_bytes (repeat 48%N (width - String.length s)) +:+ s)%string.

Fixpoint trim_zeros (s : string) : string :=
  match s with
  | String "0" r => trim_zeros r
  | _ => s
  end.

(** Days since 1970-01-01 to (year, month, day) in the Gregorian calendar. *)
Definition civil_from_days (d : Z) : Z * Z * Z :=
  let z := d + 719468 in
  let era := z / 146097 in
  let doe := z mod 146097 in
  let yoe := (doe - doe / 1460 + doe / 36524 - doe / 146096) / 365 in
  let doy := doe - (365 * yoe + yoe / 4 - yoe / 100) in
  let mp := (5 * doy + 2) / 153 in
  let day := doy - (153 * mp + 2) / 5 + 1 in
  let month := if mp <? 10 then mp + 3 else mp - 9 in
  let year := yoe + era * 400 + (if month <=? 2 then 1 else 0) in
  (year, month, day).

(** An instant is its nanoseconds since the Unix epoch. *)
Definition rfc3339nano (t : Z) : string :=
  let secs := t / 1000000000 in
  let ns := t mod 1000000000 in
  let '(y, m, d) := civil_from_days (secs / 86400) in
  let sod := secs mod 86400 in
  let frac := if ns =? 0 then EmptyString
              else ("." +:+ string_rev (trim_zeros (string_rev (pad 9 ns))))%string in
  (pad 4 y +:+ "-" +:+ pad 2 m +:+ "-" +:+ pad 2 d +:+ "T" +:+ pad 2 (sod / 3600) +:+ ":" +:+
   pad 2 (sod / 60 mod 60) +:+ ":" +:+ pad 2 (sod mod 60) +:+ frac +:+ "Z")%string.

Definition JTime (t : Z) : json := JStr (rfc3339nano t).
Definition JInt (z : Z) : json := JNum (strconv_Itoa z).

Example rfc3339_epoch : rfc3339nano 0 = "1970-01-01T00:00:00Z"%string.
Proof. vm_compute. reflexivity. Qed.
Example rfc3339_leap : rfc3339nano 1709164800500000000 = "2024-02-29T00:00:00.5Z"%string.
Proof. vm_compute. reflexivity. Qed.

(** ** UTF-8 *)

Definition in_range (lo hi : N) (c : ascii) : bool :=
  ((lo <=? byte_val c) && (byte_val c <=? hi))%N.
Definition cont_byte : ascii -> bool := in_range 128 191.

Definition utf8_2 (a b : ascii) : bool := in_range 194 223 a && cont_byte b.
Definition utf8_3 (a b c : ascii) : bool :=
  cont_byte c &&
  ((in_range 224 224 a && in_range 160 191 b) ||
   (in_range 225 236 a && cont_byte b) ||
   (in_range 237 237 a && in_range 128 159 b) ||
   (in_range 238 239 a && cont_byte b)).
Definition utf8_4 (a b c d : ascii) : bool :=
  cont_byte c && cont_byte d &&
  ((in_range 240 240 a && in_range 144 191 b) ||
   (in_range 241 243 a && cont_byte b) ||
   (in_range 244 244 a && in_range 128 143 b)).

(** Length of the rune starting the string: [0] when the first byte starts no
    valid encoding. *)
Definition rune_len (s : string) : nat :=
  match s with
  | EmptyString => 0
  | String a r =>
      if (byte_val a <? 128)%N then 1 else
      match r with
      | String b r2 =>
          if utf8_2 a b then 2 else
          match r2 with
          | String c r3 =>
              if utf8_3 a b c then 3 else
              match r3 with
              | String d _ => if utf8_4 a b c d then 4 else 0
              | EmptyString => 0
              end
          | EmptyString => 0
          end
      | EmptyString => 0
      end
  end%nat.

Definition replacement : string := string_of_bytes [239; 191; 189]%N.

(** Replace every byte that is not part of a valid encoding by U+FFFD.
    [k] counts the bytes of the current rune still to be copied. *)
Fixpoint utf8_repair_go (k : nat) (s : string) : string :=
  match s with
  | EmptyString => EmptyString
  | String c r =>
      match k with
      | S k' => String c (utf8_repair_go k' r)
      | O => match rune_len s with
             | O => (replacement +:+ utf8_repair_go 0 r)%string
             | S n => String c (utf8_repair_go n r)
             end
      end
  end.
Definition utf8_repair : string -> string := utf8_repair_go 0.

(** UTF-8 encoding of a code point. *)
Definition utf8_encode (n : N) : string :=
  (if n <? 128 then string_of_bytes [n]
   else if n <? 2048 then string_of_bytes [192 + n / 64; 128 + n mod 64]
   else if n <? 65536 then
     string_of_bytes [224 + n / 4096; 128 + n / 64 mod 64; 128 + n mod 64]
   else string_of_bytes [240 + n / 262144; 128 + n / 4096 mod 64;
                         128 + n / 64 mod 64; 128 + n mod 64])%N.

(** ** String literals *)

Definition hex_val (c : ascii) : option N :=
  let n := byte_val c in
  (if (48 <=? n) && (n <=? 57) then Some (n - 48)
   else if (97 <=? n) && (n <=? 102) then Some (n - 87)
   else if (65 <=? n) && (n <=? 70) then Some (n - 55)
   else None)%N.

Definition hex4 (a b c d : ascii) : option N :=
  match hex_val a, hex_val b, hex_val c, hex_val d with
  | Some x, Some y, Some z, Some w => Some (4096 * x + 256 * y + 16 * z + w)%N
  | _, _, _, _ => None
  end.

Definition hex_digit (n : N) : ascii :=
  (if n <? 10 then ascii_of_N (48 + n) else ascii_of_N (87 + n))%N.

(** A literal's content: bytes copied as they are, and [\u] escapes. *)
Inductive unit16 := UByte (c : ascii) | UCode (n : N).

Definition simple_escape (c : ascii) : ascii :=
  match c with
  | "b"%char => "008"%char | "f"%char => "012"%char | "n"%char => "010"%char
  | "r"%char => "013"%char | "t"%char => "009"%char | _ => c
  end.

Fixpoint literal_units (s : string) : list unit16 :=
  match s with
  | String "\" (String "u" (String a (String b (String c (String d r))))) =>
      UCode (default 65533%N (hex4 a b c d)) :: literal_units r
  | String "\" (String e r) => UByte (simple_escape e) :: literal_units r
  | String c r => UByte c :: literal_units r
  | EmptyString => []
  end.

Definition high_surrogate (n : N) : bool := ((55296 <=? n) && (n <? 56320))%N.
Definition low_surrogate (n : N) : bool := ((56320 <=? n) && (n <? 57344))%N.

(** Surrogate pairs combine; a lone surrogate is U+FFFD. *)
Fixpoint units_string (l : list unit16) : string :=
  match l with
  | [] => EmptyString
  | UByte c :: r => String c (units_string r)
  | UCode n :: r =>
      if high_surrogate n then
        match r with
        | UCode m :: r' =>
            if low_surrogate m
            then (utf8_encode (65536 + (n - 55296) * 1024 + (m - 56320))%N +:+ units_string r')%string
            else (replacement +:+ units_string r)%string
        | _ => (replacement +:+ units_string r)%string
        end
      else if low_surrogate n then (replacement +:+ units_string r)%string
      else (utf8_encode n +:+ units_string r)%string
  end.

Definition unquote (raw : string) : string := units_string (literal_units (utf8_repair raw)).

Definition escape_u (n : N) : string :=
  String "\" (String "u" (String (hex_digit (n / 4096)) (String (hex_digit (n / 256 mod 16))
    (String (hex_digit (n / 16 mod 16)) (String (hex_digit (n mod 16)) EmptyString))))).

(** One ASCII byte inside a literal, with Go's HTML escaping. *)
Definition quote_byte (c : ascii) : string :=
  match c with
  | "034"%char => String "\" (String "034" EmptyString)
  | "\"%char => String "\" (String "\" EmptyString)
  | "008"%char => String "\" (String "b" EmptyString)
  | "012"%char => String "\" (String "f" EmptyString)
  | "010"%char => String "\" (String "n" EmptyString)
  | "013"%char => String "\" (String "r" EmptyString)
  | "009"%char => String "\" (String "t" EmptyString)
  | _ =>
      if (byte_val c <? 32)%N || Ascii.eqb c "<" || Ascii.eqb c ">" || Ascii.eqb c "&"
      then escape_u (byte_val c)
      else String c EmptyString
  end.

(** U+2028 and U+2029 are escaped, invalid bytes become [\ufffd]. *)
Fixpoint quote_go (k : nat) (s : string) : string :=
  match s with
  | EmptyString => EmptyString
  | String c r =>
      match k with
      | S k' => String c (quote_go k' r)
      | O => match rune_len s with
             | O => (escape_u 65533 +:+ quote_go 0 r)%string
             | 1%nat => (quote_byte c +:+ quote_go 0 r)%string
             | S n =>
                 match strip_prefix (string_of_bytes [226; 128; 168]%N) s,
                       strip_prefix (string_of_bytes [226; 128; 169]%N) s with
                 | Some _, _ => (escape_u 8232 +:+ skip_go 2 r)%string
                 | _, Some _ => (escape_u 8233 +:+ skip_go 2 r)%string
                 | None, None => String c (quote_go n r)
                 end
             end
      end
  end
with skip_go (k : nat) (s : string) : string :=
  match s with
  | EmptyString => EmptyString
  | String c r => match k with
                  | 1%nat | O => quote_go 0 r
                  | S k' => skip_go k' r
                  end
  end.

Definition dquote : string := String "034" EmptyString.
Definition quote (s : string) : string := (dquote +:+ quote_go 0 s +:+ dquote)%string.

(** ** The scanner *)

Inductive numst := NNeg | NZero | NInt | NDot | NFrac | NE | NESign | NExp.

Definition digit (c : ascii) : bool := in_range 48 57 c.

Definition num_step (st : numst) (c : ascii) : option numst :=
  match st with
  | NNeg => if Ascii.eqb c "0" then Some NZero else if digit c then Some NInt else None
  | NZero | NInt =>
      if (match st with NInt => digit c | _ => false end) then Some NInt
      else if Ascii.eqb c "." then Some NDot
      else if Ascii.eqb c "e" || Ascii.eqb c "E" then Some NE else None
  | NDot => if digit c then Some NFrac else None
  | NFrac => if digit c then Some NFrac
             else if Ascii.eqb c "e" || Ascii.eqb c "E" then Some NE else None
  | NE => if Ascii.eqb c "+" || Ascii.eqb c "-" then Some NESign
          else if digit c then Some NExp else None
  | NESign => if digit c then Some NExp else None
  | NExp => if digit c then Some NExp else None
  end.

Definition num_accepting (st : numst) : bool :=
  match st with NZero | NInt | NFrac | NExp => true | _ => false end.

Inductive strst := SChars | SEsc | SHex (left : nat).

Definition str_escape_ok (c : ascii) : bool :=
  string_mem c "bfnrt\/" || Ascii.eqb c "034".

(** What the scanner is inside of. [acc] holds the bytes read, reversed. *)
Inductive lex :=
| LIdle
| LLit (rest : string) (v : json)
| LNum (st : numst) (acc : string)
| LStr (st : strst) (acc : string).

Inductive expect := XValue | XFirstElem | XFirstKey | XKey | XColon | XNext.

Inductive frame :=
| FArr (acc : list json)
| FObj (acc : list (string * json)) (key : string).

Inductive mach :=
| Run (lx : lex) (ex : expect) (stk : list frame)
| Done (v : json).

Definition max_depth : nat := 10000.

Definition json_space (c : ascii) : bool :=
  Ascii.eqb c " " || Ascii.eqb c "009" || Ascii.eqb c "010" || Ascii.eqb c "013".

(** A value is complete in the context [stk]. *)
Definition complete (v : json) (stk : list frame) : mach :=
  match stk with
  | [] => Done v
  | FArr acc :: r => Run LIdle XNext (FArr (v :: acc) :: r)
  | FObj acc k :: r => Run LIdle XNext (FObj ((k, v) :: acc) EmptyString :: r)
  end.

Definition complete_string (ex : expect) (s : string) (stk : list frame) : mach :=
  match ex, stk with
  | XFirstKey, FObj acc _ :: r | XKey, FObj acc _ :: r => Run LIdle XColon (FObj acc s :: r)
  | _, _ => complete (JStr s) stk
  end.

Definition push (f : frame) (ex : expect) (stk : list frame) : option mach :=
  if (length stk <? max_depth)%nat then Some (Run LIdle ex (f :: stk)) else None.

Definition start_value (c : ascii) (stk : list frame) : option mach :=
  match c with
  | "034"%char => Some (Run (LStr SChars EmptyString) XValue stk)
  | "-"%char => Some (Run (LNum NNeg (String c EmptyString)) XValue stk)
  | "0"%char => Some (Run (LNum NZero (String c EmptyString)) XValue stk)
  | "t"%char => Some (Run (LLit "rue" (JBool true)) XValue stk)
  | "f"%char => Some (Run (LLit "alse" (JBool false)) XValue stk)
  | "n"%char => Some (Run (LLit "ull" JNull) XValue stk)
  | "["%char => push (FArr []) XFirstElem stk
  | "{"%char => push (FObj [] EmptyString) XFirstKey stk
  | _ => if digit c then Some (Run (LNum NInt (String c EmptyString)) XValue stk) else None
  end.

Definition start_key (c : ascii) (ex : expect) (stk : list frame) : option mach :=
  if Ascii.eqb c "034" then Some (Run (LStr SChars EmptyString) ex stk) else None.

Definition idle_step (c : ascii) (ex : expect) (stk : list frame) : option mach :=
  if json_space c then Some (Run LIdle ex stk) else
  match ex, stk with
  | XValue, _ => start_value c stk
  | XFirstElem, FArr _ :: r => if Ascii.eqb c "]" then Some (complete (JArr []) r) else start_value c stk
  | XFirstKey, FObj _ _ :: r => if Ascii.eqb c "}" then Some (complete (JObj []) r) else start_key c ex stk
  | XKey, _ => start_key c ex stk
  | XColon, _ => if Ascii.eqb c ":" then Some (Run LIdle XValue stk) else None
  | XNext, FArr acc :: r =>
      if Ascii.eqb c "," then Some (Run LIdle XValue stk)
      else if Ascii.eqb c "]" then Some (complete (JArr (rev acc)) r) else None
  | XNext, FObj acc _ :: r =>
      if Ascii.eqb c "," then Some (Run LIdle XKey stk)
      else if Ascii.eqb c "}" then Some (complete (JObj (rev acc)) r) else None
  | _, _ => None
  end.

Definition str_step (c : ascii) (st : strst) (acc : string) (ex : expect) (stk : list frame) : option mach :=
  match st with
  | SChars =>
      if Ascii.eqb c "034" then Some (complete_string ex (unquote (string_rev acc)) stk)
      else if (byte_val c <? 32)%N then None
      else Some (Run (LStr (if Ascii.eqb c "\" then SEsc else SChars) (String c acc)) ex stk)
  | SEsc =>
      if Ascii.eqb c "u" then Some (Run (LStr (SHex 4) (String c acc)) ex stk)
      else if str_escape_ok c then Some (Run (LStr SChars (String c acc)) ex stk) else None
  | SHex n =>
      match hex_val c with
      | Some _ => Some (Run (LStr (match n with S (S m) => SHex (S m) | _ => SChars end) (String c acc)) ex stk)
      | None => None
      end
  end.

(** Read one value; the rest of the input starts after its last byte. *)
Fixpoint scan (s : string) (m : mach) : option (json * string) :=
  match m with
  | Done v => Some (v, s)
  | Run lx ex stk =>
      match s with
      | EmptyString =>
          match lx, stk with
          | LNum st acc, [] => if num_accepting st then Some (JNum (string_rev acc), EmptyString) else None
          | _, _ => None
          end
      | String c r =>
          match lx with
          | LIdle => match idle_step c ex stk with Some m' => scan r m' | None => None end
          | LLit (String d EmptyString) v =>
              if Ascii.eqb c d then scan r (complete v stk) else None
          | LLit (String d rest) v =>
              if Ascii.eqb c d then scan r (Run (LLit rest v) ex stk) else None
          | LLit EmptyString _ => None
          | LStr st acc => match str_step c st acc ex stk with Some m' => scan r m' | None => None end
          | LNum st acc =>
              match num_step st c with
              | Some st' => scan r (Run (LNum st' (String c acc)) ex stk)
              | None =>
                  if num_accepting st then
                    match complete (JNum (string_rev acc)) stk with
                    | Done v => Some (v, s)
                    | Run _ ex' stk' =>
                        match idle_step c ex' stk' with Some m' => scan r m' | None => None end
                    end
                  else None
              end
          end
      end
  end.

Fixpoint all_space (s : string) : bool :=
  match s with EmptyString => true | String c r => json_space c && all_space r end.

(** [json.Decoder.Decode]: the first value of the stream. *)
Definition json_decode (s : string) : option (json * string) := scan s (Run LIdle XValue []).

(** [json.Unmarshal] into [any]: one value and nothing else. *)
Definition json_unmarshal (s : string) : option json :=
  match json_decode s with
  | Some (v, rest) => if all_space rest then Some v else None
  | None => None
  end.

(** [json.Valid]. *)
Definition json_valid (s : string) : bool := match json_unmarshal s with Some _ => true | None => false end.

(** ** [json.Marshal] of decoded values *)

(** Decoding an object into a Go map keeps one value per key, the last; a map
    is printed with its keys in byte order. *)
Fixpoint map_insert (k : string) (v : json) (m : list (string * json)) : list (string * json) :=
  match m with
  | [] => [(k, v)]
  | (k', v') :: r =>
      match String.compare k k' with
      | Lt => (k, v) :: m
      | Eq => (k, v) :: r
      | Gt => (k', v') :: map_insert k v r
      end
  end.

Definition map_of_members (m : list (string * json)) : list (string * json) :=
  fold_left (fun acc kv => map_insert kv.1 kv.2 acc) m [].

Fixpoint to_any (j : json) : json :=
  match j with
  | JArr l => JArr (List.map to_any l)
  | JObj m => JObj (map_of_members (List.map (fun kv => (kv.1, to_any kv.2)) m))
  | _ => j
  end.

Fixpoint print (j : json) : string :=
  match j with
  | JNull => "null"
  | JBool true => "true"
  | JBool false => "false"
  | JNum l => l
  | JStr s => quote s
  | JArr l => ("[" +:+ strings_Join (List.map print l) "," +:+ "]")%string
  | JObj m =>
      ("{" +:+ strings_Join (List.map (fun kv => (quote kv.1 +:+ ":" +:+ print kv.2)%string) m) "," +:+ "}")%string
  end.

(** ** Decoding into structs *)

(** Members assigned to field [k] of a struct with field names [names], in
    order: a member goes to the exactly named field, or failing that to the
    first field equal up to case. *)
Definition field_of (names : list string) (k : string) : option string :=
  if bool_decide (k ∈ names) then Some k
  else List.find (fun n => strings_EqualFold k n) names.

Definition members_of (names : list string) (f : string) (m : list (string * json)) : list json :=
  List.map snd (List.filter (fun kv => bool_decide (field_of names kv.1 = Some f)) m).

Definition unknown_member (names : list string) (m : list (string * json)) : bool :=
  existsb (fun kv => match field_of names kv.1 with None => true | Some _ => false end) m.

(** Decoding successive values into one [string] field: [null] leaves it, a
    value of another type is an error. *)
Fixpoint into_string (cur : string) (l : list json) : option string :=
  match l with
  | [] => Some cur
  | JNull :: r => into_string cur r
  | JStr s :: r => into_string s r
  | _ :: _ => None
  end.

(** A number literal as [strconv.ParseInt] of base 10 into an [int64] reads
    it: fractions and exponents are errors. *)
Fixpoint decimal_value (acc : Z) (s : string) : option Z :=
  match s with
  | EmptyString => Some acc
  | String c r => if digit c then decimal_value (10 * acc + (Z.of_N (byte_val c) - 48)) r else None
  end.

Definition json_int (lit : string) : option Z :=
  let value :=
    match lit with
    | EmptyString | String "-" EmptyString => None
    | String "-" r => option_map Z.opp (decimal_value 0 r)
    | _ => decimal_value 0 lit
    end in
  match value with
  | Some z => if (min_int64 <=? z) && (z <=? max_int64) then Some z else None
  | None => None
  end.

(** Decoding successive values into one [*int] field: [null] makes it nil. *)
Fixpoint into_int_ptr (cur : option Z) (l : list json) : option (option Z) :=
  match l with
  | [] => Some cur
  | JNull :: r => into_int_ptr None r
  | JNum lit :: r => match json_int lit with Some z => into_int_ptr (Some z) r | None => None end
  | _ :: _ => None
  end.

(** Decoding successive values into one [bool] field. *)
Fixpoint into_bool (cur : bool) (l : list json) : option bool :=
  match l with
  | [] => Some cur
  | JNull :: r => into_bool cur r
  | JBool b :: r => into_bool b r
  | _ :: _ => None
  end.

(** Decoding successive values into one pointer to a struct: [null] makes it
    nil, an object is decoded into the struct it points to. *)
Fixpoint into_struct {A} (zero : A) (members : A -> list (string * json) -> option A) (cur : option A) (l : list json) : option (option A) :=
  match l with
  | [] => Some cur
  | JNull :: r => into_struct zero members None r
  | JObj m :: r =>
      match members (default zero cur) m with
      | Some a => into_struct zero members (Some a) r
      | None => None
      end
  | _ :: _ => None
  end.

(** Decoding successive values into one [map[string]string] field. *)
Definition string_entries (m : list (string * json)) (acc : gmap string string) : option (gmap string string) :=
  fold_left (fun acc kv =>
    match acc, into_string EmptyString [kv.2] with
    | Some m, Some v => Some (<[kv.1 := v]> m)
    | _, _ => None
    end) m (Some acc).

Fixpoint into_string_map (cur : gmap string string) (l : list json) : option (gmap string string) :=
  match l with
  | [] => Some cur
  | JNull :: r => into_string_map ∅ r
  | JObj m :: r => match string_entries m cur with Some cur' => into_string_map cur' r | None => None end
  | _ :: _ => None
  end.

(** Decoding successive values into one [[]string] field: an array is decoded
    over the slots of the slice, those past its length included, and [null]
    keeps what a slot had. *)
Fixpoint into_slots (slots : list string) (l : list json) : option (list string) :=
  match l with
  | [] => Some []
  | j :: r =>
      match into_string (default EmptyString (head slots)) [j], into_slots (tail slots) r with
      | Some s, Some ss => Some (s :: ss)
      | _, _ => None
      end
  end.

(** [slots] is the memory of the slice, [n] its length. *)
Fixpoint into_strings (slots : list string) (n : nat) (l : list json) : option (list string) :=
  match l with
  | [] => Some (take n slots)
  | JNull :: r => into_strings [] 0 r
  | JArr [] :: r => into_strings [] 0 r
  | JArr vs :: r =>
      match into_slots slots vs with
      | Some ss => into_strings (ss ++ drop (length ss) slots) (length ss) r
      | None => None
      end
  | _ :: _ => None
  end.
