(* ===== verification/JsonText.v ===== *)
(** * String literals: what is written is read back

    Valid UTF-8 as a grammar; the correspondence between a string and the
    literals that denote it; [quote] writes such a literal, the scanner passes
    over it, and [unquote] gives the string back.  Conversely whatever literal
    the scanner accepts denotes valid UTF-8. *)

From S2P Require Import Prelude Json.

Lemma string_rev_app_app s acc t : string_rev_app s (acc +:+ t)%string = (string_rev_app s acc +:+ t)%string.
Proof. revert acc. induction s as [|c s IH]; intros acc; [done|]. cbn. by rewrite <- (IH (String c acc)). Qed.

Lemma string_rev_involutive s : string_rev (string_rev s) = s.
Proof.
  unfold string_rev. assert (forall s acc, string_rev_app (string_rev_app s acc) EmptyString = string_rev_app acc s) as H.
  { clear s. induction s as [|c s IH]; intros acc; [done|]. cbn. by rewrite IH. }
  apply H.
Qed.

(** ** UTF-8 *)

Inductive utf8 : string -> Prop :=
| utf8_nil : utf8 EmptyString
| utf8_one c s : (byte_val c < 128)%N -> utf8 s -> utf8 (String c s)
| utf8_two a b s : utf8_2 a b = true -> utf8 s -> utf8 (String a (String b s))
| utf8_three a b c s : utf8_3 a b c = true -> utf8 s -> utf8 (String a (String b (String c s)))
| utf8_four a b c d s : utf8_4 a b c d = true -> utf8 s -> utf8 (String a (String b (String c (String d s)))).

Ltac ranges :=
  repeat match goal with
  | H : _ && _ = true |- _ => apply andb_true_iff in H as [? ?]
  | H : _ || _ = true |- _ => apply orb_true_iff in H as [H|H]
  | H : (_ <=? _)%N = true |- _ => apply N.leb_le in H
  end.

Ltac unfold_ranges := unfold utf8_2, utf8_3, utf8_4, cont_byte, in_range in *; ranges.

Lemma utf8_2_high a b : utf8_2 a b = true -> (194 <= byte_val a <= 223 /\ 128 <= byte_val b <= 191)%N.
Proof. intros. unfold_ranges. lia. Qed.
Lemma utf8_3_high a b c : utf8_3 a b c = true -> (224 <= byte_val a <= 239 /\ 128 <= byte_val b <= 191 /\ 128 <= byte_val c <= 191)%N.
Proof. intros. unfold_ranges; lia. Qed.
Lemma utf8_4_high a b c d : utf8_4 a b c d = true ->
  (240 <= byte_val a <= 244 /\ 128 <= byte_val b <= 191 /\ 128 <= byte_val c <= 191 /\ 128 <= byte_val d <= 191)%N.
Proof. intros. unfold_ranges; lia. Qed.

Lemma utf8_2_false a b : (223 < byte_val a)%N -> utf8_2 a b = false.
Proof. intros H. apply not_true_iff_false. intros E. apply utf8_2_high in E. lia. Qed.
Lemma utf8_3_false a b c : (239 < byte_val a)%N -> utf8_3 a b c = false.
Proof. intros H. apply not_true_iff_false. intros E. apply utf8_3_high in E. lia. Qed.

Lemma rune_len_1 c s : (byte_val c < 128)%N -> rune_len (String c s) = 1%nat.
Proof. intros H. cbn. by rewrite (proj2 (N.ltb_lt _ _) H). Qed.
Lemma rune_len_2 a b s : utf8_2 a b = true -> rune_len (String a (String b s)) = 2%nat.
Proof. intros H. cbn. pose proof (utf8_2_high _ _ H). destruct (N.ltb_spec (byte_val a) 128); [lia|]. by rewrite H. Qed.
Lemma rune_len_3 a b c s : utf8_3 a b c = true -> rune_len (String a (String b (String c s))) = 3%nat.
Proof.
  intros H. cbn. pose proof (utf8_3_high _ _ _ H). destruct (N.ltb_spec (byte_val a) 128); [lia|]. by rewrite utf8_2_false, H by lia.
Qed.
Lemma rune_len_4 a b c d s : utf8_4 a b c d = true -> rune_len (String a (String b (String c (String d s)))) = 4%nat.
Proof.
  intros H. cbn. pose proof (utf8_4_high _ _ _ _ H). destruct (N.ltb_spec (byte_val a) 128); [lia|].
  by rewrite utf8_2_false, utf8_3_false, H by lia.
Qed.

Lemma utf8_app s t : utf8 s -> utf8 t -> utf8 (s +:+ t)%string.
Proof. intros Hs Ht. induction Hs; [done|rewrite ?string_app_cons; by constructor..]. Qed.

Lemma utf8_repair_id s : utf8 s -> utf8_repair s = s.
Proof.
  unfold utf8_repair. induction 1 as [|c s H _ IH|a b s H _ IH|a b c s H _ IH|a b c d s H _ IH]; [done|..]; cbn [utf8_repair_go].
  - by rewrite rune_len_1, IH.
  - by rewrite rune_len_2, IH.
  - by rewrite rune_len_3, IH.
  - by rewrite rune_len_4, IH.
Qed.

(** The bytes of a rune, and what follows. *)
Lemma rune_cases s : s = EmptyString \/ rune_len s = 0%nat \/
  (exists c r, s = String c r /\ (byte_val c < 128)%N) \/
  (exists a b r, s = String a (String b r) /\ utf8_2 a b = true) \/
  (exists a b c r, s = String a (String b (String c r)) /\ utf8_3 a b c = true) \/
  (exists a b c d r, s = String a (String b (String c (String d r))) /\ utf8_4 a b c d = true).
Proof.
  destruct s as [|a s]; [by left|right]. cbn [rune_len]. destruct (N.ltb_spec (byte_val a) 128); [right; left; by eexists _, _|].
  destruct s as [|b s]; [by left|]. destruct (utf8_2 a b) eqn:E2; [right; right; left; by eexists _, _, _|].
  destruct s as [|c s]; [by left|]. destruct (utf8_3 a b c) eqn:E3; [do 3 right; left; by eexists _, _, _, _|].
  destruct s as [|d s]; [by left|]. destruct (utf8_4 a b c d) eqn:E4; [do 4 right; by eexists _, _, _, _, _|by left].
Qed.

Lemma utf8_replacement s : utf8 s -> utf8 (replacement +:+ s)%string.
Proof. intros H. apply utf8_app; [|done]. by apply (utf8_three _ _ _ EmptyString); [|constructor]. Qed.

Lemma utf8_repair_valid s : utf8 (utf8_repair s).
Proof.
  unfold utf8_repair. induction s as [s IH] using (induction_ltof1 _ String.length). unfold ltof in IH.
  destruct (rune_cases s) as [->|[H|[(c & r & -> & H)|[(a & b & r & -> & H)|[(a & b & c & r & -> & H)|(a & b & c & d & r & -> & H)]]]]].
  - constructor.
  - destruct s as [|c r]; [constructor|]. cbn [utf8_repair_go]. rewrite H. apply utf8_replacement, IH. cbn. lia.
  - cbn [utf8_repair_go]. rewrite rune_len_1 by done. apply utf8_one; [done|]. apply IH. cbn. lia.
  - cbn [utf8_repair_go]. rewrite rune_len_2 by done. apply utf8_two; [done|]. apply IH. cbn. lia.
  - cbn [utf8_repair_go]. rewrite rune_len_3 by done. apply utf8_three; [done|]. apply IH. cbn. lia.
  - cbn [utf8_repair_go]. rewrite rune_len_4 by done. apply utf8_four; [done|]. apply IH. cbn. lia.
Qed.

Lemma byte_val_of n : (n < 256)%N -> byte_val (ascii_of_N n) = n.
Proof. apply N_ascii_embedding. Qed.

(** [lia] with quotients and remainders as atoms. *)
Ltac atoms :=
  repeat match goal with
  | |- context [N.modulo ?x ?y] => let z := fresh "z" in set (z := N.modulo x y) in *; clearbody z
  | H : context [N.modulo ?x ?y] |- _ => let z := fresh "z" in set (z := N.modulo x y) in *; clearbody z
  | |- context [N.div ?x ?y] => let z := fresh "z" in set (z := N.div x y) in *; clearbody z
  | H : context [N.div ?x ?y] |- _ => let z := fresh "z" in set (z := N.div x y) in *; clearbody z
  end.
Ltac nlia := atoms; lia.

(** The encoding of a code point that is not a surrogate is valid. *)
Lemma utf8_encode_valid n : (n < 1114112)%N -> high_surrogate n = false -> low_surrogate n = false -> utf8 (utf8_encode n).
Proof.
  intros Hn Hh Hl. assert (n < 55296 \/ 57344 <= n)%N as Hs.
  { unfold high_surrogate, low_surrogate in *. destruct (N.leb_spec 55296 n), (N.ltb_spec n 56320), (N.leb_spec 56320 n), (N.ltb_spec n 57344); try done; lia. }
  assert (forall lo hi x, (lo <= x)%N -> (x <= hi)%N -> (x < 256)%N -> in_range lo hi (ascii_of_N x) = true) as Hr.
  { intros lo hi x H1 H2 H3. unfold in_range. rewrite byte_val_of by done. apply andb_true_iff. by rewrite !N.leb_le. }
  assert (forall x, (x mod 64 < 64)%N) as Hm by (intros x; by apply N.mod_lt).
  assert (forall x, cont_byte (ascii_of_N (128 + x mod 64)) = true) as Hc by (intros x; specialize (Hm x); apply Hr; nlia).
  unfold utf8_encode. destruct (N.ltb_spec n 128).
  { apply utf8_one; [by rewrite byte_val_of by lia|constructor]. }
  destruct (N.ltb_spec n 2048).
  { apply (utf8_two _ _ EmptyString); [|constructor]. unfold utf8_2. rewrite Hc, andb_true_r.
    assert (2 <= n / 64)%N by (apply N.div_le_lower_bound; lia). assert (n / 64 < 32)%N by (apply N.div_lt_upper_bound; lia). apply Hr; nlia. }
  destruct (N.ltb_spec n 65536).
  - apply (utf8_three _ _ _ EmptyString); [|constructor]. unfold utf8_3. rewrite !Hc. cbn [andb].
    assert (n / 4096 < 16)%N by (apply N.div_lt_upper_bound; lia).
    assert (n / 64 = 64 * (n / 4096) + n / 64 mod 64)%N as E.
    { rewrite (N.div_mod (n / 64) 64) at 1 by done. by rewrite N.Div0.div_div. }
    pose proof (N.div_mod n 64 ltac:(done)) as E'. pose proof (Hm n). pose proof (Hm (n / 64)%N).
    destruct (decide (n / 4096 = 0)%N) as [Ez|].
    { rewrite (Hr 224 224 (224 + n / 4096))%N, (Hr 160 191 (128 + n / 64 mod 64))%N by nlia. done. }
    destruct (decide (n / 4096 = 13)%N) as [Ez|].
    { rewrite (Hr 237 237 (224 + n / 4096))%N, (Hr 128 159 (128 + n / 64 mod 64))%N by nlia. cbn. by rewrite ?orb_true_r. }
    destruct (decide (n / 4096 < 13)%N).
    + rewrite (Hr 225 236 (224 + n / 4096))%N by nlia. by rewrite ?orb_true_r.
    + rewrite (Hr 238 239 (224 + n / 4096))%N by nlia. by rewrite ?orb_true_r.
  - apply (utf8_four _ _ _ _ EmptyString); [|constructor]. unfold utf8_4. rewrite !Hc. cbn [andb].
    assert (n / 262144 < 5)%N by (apply N.div_lt_upper_bound; lia).
    assert (n / 4096 = 64 * (n / 262144) + n / 4096 mod 64)%N as E.
    { rewrite (N.div_mod (n / 4096) 64) at 1 by done. by rewrite N.Div0.div_div. }
    assert (16 <= n / 4096)%N by (apply N.div_le_lower_bound; lia). assert (n / 4096 < 272)%N by (apply N.div_lt_upper_bound; lia).
    pose proof (Hm (n / 4096)%N).
    destruct (decide (n / 262144 = 0)%N) as [Ez|].
    { rewrite (Hr 240 240 (240 + n / 262144))%N, (Hr 144 191 (128 + n / 4096 mod 64))%N by nlia. done. }
    destruct (decide (n / 262144 = 4)%N) as [Ez|].
    { rewrite (Hr 244 244 (240 + n / 262144))%N, (Hr 128 143 (128 + n / 4096 mod 64))%N by nlia. cbn. by rewrite ?orb_true_r. }
    rewrite (Hr 241 243 (240 + n / 262144))%N by nlia. by rewrite ?orb_true_r.
Qed.

(** ** Literals

    [lit s q]: the literal with content [q] denotes [s]. *)
Inductive lit : string -> string -> Prop :=
| lit_nil : lit EmptyString EmptyString
| lit_plain c s q :
    (32 <= byte_val c < 128)%N -> c <> "034"%char -> c <> "\"%char -> lit s q -> lit (String c s) (String c q)
| lit_escape e s q :
    str_escape_ok e = true -> lit s q -> lit (String (simple_escape e) s) (String "\" (String e q))
| lit_code a b c d n s q :
    hex4 a b c d = Some n -> high_surrogate n = false -> low_surrogate n = false -> lit s q ->
    lit (utf8_encode n +:+ s)%string (String "\" (String "u" (String a (String b (String c (String d q))))))
| lit_two a b s q : utf8_2 a b = true -> lit s q -> lit (String a (String b s)) (String a (String b q))
| lit_three a b c s q : utf8_3 a b c = true -> lit s q -> lit (String a (String b (String c s))) (String a (String b (String c q)))
| lit_four a b c d s q :
    utf8_4 a b c d = true -> lit s q ->
    lit (String a (String b (String c (String d s)))) (String a (String b (String c (String d q)))).

(** *** Writing *)

Lemma quote_byte_lit c s q : (byte_val c < 128)%N -> lit s q -> lit (String c s) (quote_byte c +:+ q)%string.
Proof.
  intros Hc Hq.
  assert (forall a b x y n, hex4 a b x y = Some n -> high_surrogate n = false -> low_surrogate n = false -> utf8_encode n = String c EmptyString ->
    lit (String c s) (String "\" (String "u" (String a (String b (String x (String y q))))))) as Hcode.
  { intros a b x y n H1 H2 H3 H4. change (String c s) with (String c EmptyString +:+ s)%string. rewrite <- H4. by eapply lit_code. }
  destruct c as [[] [] [] [] [] [] [] []]; try (exfalso; vm_compute in Hc; discriminate);
    first [ apply lit_plain; [split; [vm_compute; discriminate|done]|discriminate|discriminate|done]
          | apply (lit_escape "034"); done | apply (lit_escape "\"); done | apply (lit_escape "b"); done | apply (lit_escape "f"); done
          | apply (lit_escape "n"); done | apply (lit_escape "r"); done | apply (lit_escape "t"); done
          | eapply Hcode; [vm_compute; reflexivity|reflexivity|reflexivity|vm_compute; reflexivity] ].
Qed.

Lemma quote_go_0 c r n : rune_len (String c r) = S (S n) ->
  strip_prefix (string_of_bytes [226; 128; 168]%N) (String c r) = None ->
  strip_prefix (string_of_bytes [226; 128; 169]%N) (String c r) = None ->
  quote_go 0 (String c r) = String c (quote_go (S n) r).
Proof. intros Hn H1 H2. cbn [quote_go]. rewrite Hn. cbn [quote_go]. by rewrite H1, H2. Qed.

Lemma strip_first_ne (p s : string) c d r : p = String c r -> c <> d -> strip_prefix p (String d s) = None.
Proof. intros -> H. cbn. by destruct (Ascii.eqb_spec c d). Qed.

Lemma lit_quote s : utf8 s -> lit s (quote_go 0 s).
Proof.
  induction 1 as [|c s H _ IH|a b s H _ IH|a b c s H _ IH|a b c d s H _ IH].
  - constructor.
  - cbn [quote_go]. rewrite rune_len_1 by done. by apply quote_byte_lit.
  - assert ("226"%char <> a) as Ha by (intros <-; apply utf8_2_high in H; cbn in H; lia).
    rewrite (quote_go_0 a _ 0) by (by apply rune_len_2 || by eapply strip_first_ne). cbn [quote_go]. by apply lit_two.
  - assert (forall x, string_of_bytes [226; 128; x]%N = String a (String b (String c EmptyString)) -> (x = 168 \/ x = 169)%N ->
      quote_go 0 (String a (String b (String c s))) = (escape_u (8064 + x) +:+ quote_go 0 s)%string) as Hsep.
    { intros x E [-> | ->]; injection E as <- <- <-; reflexivity. }
    destruct (decide (string_of_bytes [226; 128; 168]%N = String a (String b (String c EmptyString)))) as [E|N1].
    { rewrite (Hsep 168%N) by auto. injection E as <- <- <-. by apply (lit_code "2" "0" "2" "8" 8232%N). }
    destruct (decide (string_of_bytes [226; 128; 169]%N = String a (String b (String c EmptyString)))) as [E|N2].
    { rewrite (Hsep 169%N) by auto. injection E as <- <- <-. by apply (lit_code "2" "0" "2" "9" 8233%N). }
    assert (forall x, string_of_bytes [226; 128; x]%N <> String a (String b (String c EmptyString)) ->
      strip_prefix (string_of_bytes [226; 128; x]%N) (String a (String b (String c s))) = None) as Hn.
    { intros x Hx. destruct (strip_prefix _ _) eqn:E; [|done]. apply strip_prefix_Some in E. injection E as -> -> -> _. by destruct Hx. }
    rewrite (quote_go_0 a _ 1) by (by apply rune_len_3 || by apply Hn). cbn [quote_go]. by apply lit_three.
  - assert ("226"%char <> a) as Ha by (intros <-; apply utf8_4_high in H; cbn in H; lia).
    rewrite (quote_go_0 a _ 2) by (by apply rune_len_4 || by eapply strip_first_ne). cbn [quote_go]. by apply lit_four.
Qed.

(** *** Reading the content back *)

Lemma simple_escape_low e : str_escape_ok e = true -> (byte_val e < 128)%N.
Proof. destruct e as [[] [] [] [] [] [] [] []]; vm_compute; done. Qed.

Lemma hex_val_low c n : hex_val c = Some n -> (32 <= byte_val c < 128)%N /\ (n < 16)%N.
Proof. unfold hex_val. intros H. repeat case_match; simplify_eq; bool_to_prop; ranges; lia. Qed.

Lemma hex4_bound a b c d n : hex4 a b c d = Some n ->
  (n < 65536)%N /\ (byte_val a < 128)%N /\ (byte_val b < 128)%N /\ (byte_val c < 128)%N /\ (byte_val d < 128)%N.
Proof.
  unfold hex4. destruct (hex_val a) eqn:Ea, (hex_val b) eqn:Eb, (hex_val c) eqn:Ec, (hex_val d) eqn:Ed; intros [= <-].
  apply hex_val_low in Ea, Eb, Ec, Ed. lia.
Qed.

Lemma lit_utf8 s q : lit s q -> utf8 q.
Proof.
  induction 1 as [|c s q Hc _ _ _ IH|e s q He _ IH|a b c d n s q Hh _ _ _ IH|a b s q H _ IH|a b c s q H _ IH|a b c d s q H _ IH].
  - constructor.
  - apply utf8_one; [lia|done].
  - apply utf8_one; [done|]. apply utf8_one; [by apply simple_escape_low|done].
  - apply hex4_bound in Hh. do 2 (apply utf8_one; [done|]). do 4 (apply utf8_one; [lia|]). done.
  - by apply utf8_two.
  - by apply utf8_three.
  - by apply utf8_four.
Qed.

Lemma literal_units_plain c r : c <> "\"%char -> literal_units (String c r) = UByte c :: literal_units r.
Proof. intros H. destruct c as [[] [] [] [] [] [] [] []]; try done; by exfalso. Qed.

Lemma literal_units_escape e r : e <> "u"%char -> literal_units (String "\" (String e r)) = UByte (simple_escape e) :: literal_units r.
Proof. intros H. destruct e as [[] [] [] [] [] [] [] []]; try done; by exfalso. Qed.

Lemma high_ne c d : (128 <= byte_val c)%N -> (byte_val d < 128)%N -> c <> d.
Proof. intros H1 H2 ->. lia. Qed.

Lemma literal_units_two a b r : utf8_2 a b = true -> literal_units (String a (String b r)) = UByte a :: UByte b :: literal_units r.
Proof. intros H. apply utf8_2_high in H. rewrite !literal_units_plain; [done|apply high_ne; [lia|done]..]. Qed.

Lemma literal_units_three a b c r : utf8_3 a b c = true ->
  literal_units (String a (String b (String c r))) = UByte a :: UByte b :: UByte c :: literal_units r.
Proof. intros H. apply utf8_3_high in H. rewrite !literal_units_plain; [done|apply high_ne; [lia|done]..]. Qed.

Lemma literal_units_four a b c d r : utf8_4 a b c d = true ->
  literal_units (String a (String b (String c (String d r)))) = UByte a :: UByte b :: UByte c :: UByte d :: literal_units r.
Proof. intros H. apply utf8_4_high in H. rewrite !literal_units_plain; [done|apply high_ne; [lia|done]..]. Qed.

Lemma unquote_lit s q : lit s q -> unquote q = s.
Proof.
  intros H. unfold unquote. rewrite utf8_repair_id by by eapply lit_utf8.
  induction H as [|c s q Hc _ Hne _ IH|e s q He _ IH|a b c d n s q Hh Hhi Hlo _ IH|a b s q H _ IH|a b c s q H _ IH|a b c d s q H _ IH].
  - done.
  - rewrite literal_units_plain by done. cbn. by rewrite IH.
  - rewrite literal_units_escape by (intros ->; done). cbn. by rewrite IH.
  - change (literal_units (String "\" (String "u" (String a (String b (String c (String d q))))))) with (UCode (default 65533%N (hex4 a b c d)) :: literal_units q). rewrite Hh. change (default 65533%N (Some n)) with n. cbn [units_string]. by rewrite Hhi, Hlo, IH.
  - rewrite literal_units_two by done. cbn. by rewrite IH.
  - rewrite literal_units_three by done. cbn. by rewrite IH.
  - rewrite literal_units_four by done. cbn. by rewrite IH.
Qed.

Lemma unquote_quote s : utf8 s -> unquote (quote_go 0 s) = s.
Proof. intros H. by apply unquote_lit, lit_quote. Qed.

(** *** Scanning *)

Lemma scan_str st acc c r ex stk m : str_step c st acc ex stk = Some m ->
  scan (String c r) (Run (LStr st acc) ex stk) = scan r m.
Proof. intros H. cbn [scan]. by rewrite H. Qed.

Lemma str_step_plain c acc ex stk : (32 <= byte_val c)%N -> c <> "034"%char -> c <> "\"%char ->
  str_step c SChars acc ex stk = Some (Run (LStr SChars (String c acc)) ex stk).
Proof.
  intros H1 H2 H3. cbn. destruct (Ascii.eqb_spec c "034"); [done|]. destruct (N.ltb_spec (byte_val c) 32); [lia|].
  by destruct (Ascii.eqb_spec c "\").
Qed.

Lemma str_step_high c acc ex stk : (128 <= byte_val c)%N -> str_step c SChars acc ex stk = Some (Run (LStr SChars (String c acc)) ex stk).
Proof. intros H. apply str_step_plain; [lia|apply high_ne; [lia|done]..]. Qed.

Lemma scan_lit s q : lit s q -> forall acc r ex stk,
  scan (q +:+ r)%string (Run (LStr SChars acc) ex stk) = scan r (Run (LStr SChars (string_rev_app q acc)) ex stk).
Proof.
  induction 1 as [|c s q Hc Hq Hb _ IH|e s q He _ IH|a b c d n s q Hh _ _ _ IH|a b s q H _ IH|a b c s q H _ IH|a b c d s q H _ IH];
    intros acc r ex stk; rewrite ?string_app_cons; [done|..].
  - erewrite scan_str by (apply str_step_plain; [lia|done..]). by rewrite IH.
  - erewrite scan_str by reflexivity. erewrite scan_str; [by rewrite IH|]. cbn.
    rewrite He. by destruct (Ascii.eqb_spec e "u") as [->|].
  - unfold hex4 in Hh. destruct (hex_val a) eqn:Ea, (hex_val b) eqn:Eb, (hex_val c) eqn:Ec, (hex_val d) eqn:Ed; try done.
    erewrite scan_str by reflexivity. erewrite scan_str by reflexivity.
    erewrite scan_str by (cbn; rewrite Ea; reflexivity). erewrite scan_str by (cbn; rewrite Eb; reflexivity).
    erewrite scan_str by (cbn; rewrite Ec; reflexivity). erewrite scan_str by (cbn; rewrite Ed; reflexivity). by rewrite IH.
  - apply utf8_2_high in H. do 2 (erewrite scan_str by (apply str_step_high; lia)). by rewrite IH.
  - apply utf8_3_high in H. do 3 (erewrite scan_str by (apply str_step_high; lia)). by rewrite IH.
  - apply utf8_4_high in H. do 4 (erewrite scan_str by (apply str_step_high; lia)). by rewrite IH.
Qed.

(** What follows the opening quote of a written string is scanned as one
    literal that denotes it. *)
Lemma scan_quoted s r ex stk : utf8 s ->
  scan (quote_go 0 s +:+ dquote +:+ r)%string (Run (LStr SChars EmptyString) ex stk) = scan r (complete_string ex s stk).
Proof.
  intros H. erewrite scan_lit by by apply lit_quote.
  change (dquote +:+ r)%string with (String "034" r). erewrite scan_str by reflexivity.
  change (string_rev_app (quote_go 0 s) EmptyString) with (string_rev (quote_go 0 s)). by rewrite string_rev_involutive, unquote_quote.
Qed.

(** *** Whatever is read is valid UTF-8

    [content_run st q]: the scanner's state after the bytes [q] of a literal,
    if it accepts them without leaving the literal. *)
Definition content_step (c : ascii) (st : strst) : option strst :=
  match st with
  | SChars => if Ascii.eqb c "034" || (byte_val c <? 32)%N then None else Some (if Ascii.eqb c "\" then SEsc else SChars)
  | SEsc => if Ascii.eqb c "u" then Some (SHex 4) else if str_escape_ok c then Some SChars else None
  | SHex n => match hex_val c with Some _ => Some (match n with S (S m) => SHex (S m) | _ => SChars end) | None => None end
  end.

Fixpoint content_run (st : strst) (q : string) : option strst :=
  match q with
  | EmptyString => Some st
  | String c r => match content_step c st with Some st' => content_run st' r | None => None end
  end.

Lemma content_run_app st q t : content_run st (q +:+ t)%string = match content_run st q with Some st' => content_run st' t | None => None end.
Proof. revert st. induction q as [|c q IH]; intros st; [done|]. rewrite string_app_cons. cbn [content_run]. by destruct (content_step c st). Qed.

Lemma str_step_cases c st acc ex stk m : str_step c st acc ex stk = Some m ->
  (exists st', content_step c st = Some st' /\ m = Run (LStr st' (String c acc)) ex stk) \/
  st = SChars /\ m = complete_string ex (unquote (string_rev acc)) stk.
Proof.
  destruct st as [| |n]; cbn [str_step content_step].
  - destruct (Ascii.eqb c "034"); [intros [= <-]; by right|]. destruct (byte_val c <? 32)%N; [done|]. intros [= <-]. left. by eexists.
  - destruct (Ascii.eqb c "u"); [intros [= <-]; left; by eexists|]. destruct (str_escape_ok c); [|done]. intros [= <-]. left. by eexists.
  - destruct (hex_val c); [|done]. intros [= <-]. left. by eexists.
Qed.

Lemma content_step_high c st st' : (128 <= byte_val c)%N -> content_step c st = Some st' -> st = SChars /\ st' = SChars.
Proof.
  intros Hc. destruct st as [| |n]; cbn [content_step].
  - destruct (_ || _); [done|]. destruct (Ascii.eqb_spec c "\") as [->|]; [cbn in Hc; lia|]. by intros [= <-].
  - destruct (Ascii.eqb_spec c "u") as [->|]; [cbn in Hc; lia|]. destruct (str_escape_ok c) eqn:E; [|done]. apply simple_escape_low in E. lia.
  - destruct (hex_val c) eqn:E; [|done]. apply hex_val_low in E. lia.
Qed.

Lemma rune_len_0 c r : rune_len (String c r) = 0%nat -> (128 <= byte_val c)%N.
Proof. cbn [rune_len]. by destruct (N.ltb_spec (byte_val c) 128). Qed.

Lemma content_run_repair q : forall k st st', content_run st q = Some st' -> content_run st (utf8_repair_go k q) = Some st'.
Proof.
  induction q as [|c q IH]; intros k st st' H; [done|]. cbn [content_run] in H. destruct (content_step c st) as [st1|] eqn:E; [|done].
  cbn [utf8_repair_go]. destruct k as [|k]; [|cbn [content_run]; rewrite E; by apply IH].
  destruct (rune_len (String c q)) as [|n] eqn:En; [|cbn [content_run]; rewrite E; by apply IH].
  apply rune_len_0 in En. destruct (content_step_high _ _ _ En E) as [-> ->]. rewrite content_run_app. by apply IH.
Qed.

Inductive units_ok : list unit16 -> Prop :=
| units_nil : units_ok []
| units_one c l : (byte_val c < 128)%N -> units_ok l -> units_ok (UByte c :: l)
| units_two a b l : utf8_2 a b = true -> units_ok l -> units_ok (UByte a :: UByte b :: l)
| units_three a b c l : utf8_3 a b c = true -> units_ok l -> units_ok (UByte a :: UByte b :: UByte c :: l)
| units_four a b c d l : utf8_4 a b c d = true -> units_ok l -> units_ok (UByte a :: UByte b :: UByte c :: UByte d :: l)
| units_code n l : (n < 65536)%N -> units_ok l -> units_ok (UCode n :: l).

Lemma units_string_utf8 l : units_ok l ->
  utf8 (units_string l) /\ match l with UCode _ :: r => utf8 (units_string r) | _ => True end.
Proof.
  induction 1 as [|c l H _ [IH _]|a b l H _ [IH _]|a b c l H _ [IH _]|a b c d l H _ [IH _]|n l H _ [IH IH2]]; cbn [units_string]; (split; [|try done]).
  - constructor.
  - by apply utf8_one.
  - by apply utf8_two.
  - by apply utf8_three.
  - by apply utf8_four.
  - destruct (high_surrogate n) eqn:Eh.
    + destruct l as [|[c|m] l]; try by apply utf8_replacement. destruct (low_surrogate m) eqn:El; [|by apply utf8_replacement].
      apply utf8_app; [|done]. unfold high_surrogate, low_surrogate in *. apply andb_true_iff in Eh as [E1 E2], El as [E3 E4].
      apply N.leb_le in E1, E3. apply N.ltb_lt in E2, E4.
      apply utf8_encode_valid; [nia| |]; unfold high_surrogate, low_surrogate; apply andb_false_iff; right; apply N.ltb_ge; nia.
    + destruct (low_surrogate n) eqn:El; [by apply utf8_replacement|]. apply utf8_app; [|done]. apply utf8_encode_valid; [lia|done..].
Qed.

Lemma escaped_low e : content_step e SEsc <> None -> (byte_val e < 128)%N.
Proof. destruct e as [[] [] [] [] [] [] [] []]; vm_compute; done. Qed.

Lemma simple_escape_ascii e : (byte_val e < 128)%N -> (byte_val (simple_escape e) < 128)%N.
Proof. destruct e as [[] [] [] [] [] [] [] []]; vm_compute; done. Qed.

Lemma utf8_tail c s : (byte_val c < 128)%N -> utf8 (String c s) -> utf8 s.
Proof.
  intros Hc H. inversion H as [|? ? _ ?|? ? ? Hu|? ? ? ? Hu|? ? ? ? ? Hu]; subst; [done|..].
  - apply utf8_2_high in Hu. lia.
  - apply utf8_3_high in Hu. lia.
  - apply utf8_4_high in Hu. lia.
Qed.

Lemma content_run_high c r st : (128 <= byte_val c)%N -> content_run SChars (String c r) = Some st -> content_run SChars r = Some st.
Proof.
  intros Hc. cbn [content_run]. destruct (content_step c SChars) as [st1|] eqn:E; [|done]. by destruct (content_step_high _ _ _ Hc E) as [_ ->].
Qed.

Lemma hex_run n r st : content_run (SHex n) r = Some st -> st = SChars ->
  exists c r' x, r = String c r' /\ hex_val c = Some x /\ content_run (match n with S (S m) => SHex (S m) | _ => SChars end) r' = Some st.
Proof.
  destruct r as [|c r]; [by intros [= <-]|]. cbn [content_run content_step]. destruct (hex_val c) eqn:E; [|done]. intros H _. by eexists _, _, _.
Qed.

Lemma literal_units_ok q : utf8 q -> content_run SChars q = Some SChars -> units_ok (literal_units q).
Proof.
  induction q as [q IH] using (induction_ltof1 _ String.length). unfold ltof in IH. intros Hq Hr.
  inversion Hq as [|c s Hc Hs|a b s H Hs|a b c s H Hs|a b c d s H Hs]; subst q; [constructor|..].
  - destruct (Ascii.eqb_spec c "\") as [->|Hne].
    2:{ rewrite literal_units_plain by done. apply units_one; [done|]. apply IH; [cbn; lia|done|].
        cbn [content_run content_step] in Hr. destruct (_ || _); [done|]. by destruct (Ascii.eqb_spec c "\"). }
    cbn [content_run] in Hr. change (content_step "\" SChars) with (Some SEsc) in Hr. destruct s as [|e s]; [done|].
    cbn [content_run] in Hr. destruct (content_step e SEsc) as [st|] eqn:Ee; [|done].
    assert (byte_val e < 128)%N as He by (apply escaped_low; by rewrite Ee). pose proof (utf8_tail _ _ He Hs) as Hs'.
    destruct (decide (e = "u"%char)) as [->|Hu].
    + injection Ee as <-. repeat (apply hex_run in Hr as (? & ? & ? & -> & ? & Hr); [|done]).
      do 4 (apply utf8_tail in Hs'; [|by eapply hex_val_low]). cbn [literal_units]. unfold hex4. simplify_option_eq.
      apply units_code; [|by apply IH; [cbn; lia|..]].
      repeat match goal with H : hex_val _ = Some _ |- _ => apply hex_val_low in H as [_ H] end. cbn. lia.
    + rewrite literal_units_escape by done. apply units_one; [by apply simple_escape_ascii|]. apply IH; [cbn; lia|done|].
      cbn [content_step] in Ee. destruct (Ascii.eqb_spec e "u"); [done|]. destruct (str_escape_ok e); [|done]. by injection Ee as <-.
  - pose proof (utf8_2_high _ _ H). rewrite literal_units_two by done. apply units_two; [done|].
    do 2 (apply content_run_high in Hr; [|lia]). apply IH; [cbn; lia|done..].
  - pose proof (utf8_3_high _ _ _ H). rewrite literal_units_three by done. apply units_three; [done|].
    do 3 (apply content_run_high in Hr; [|lia]). apply IH; [cbn; lia|done..].
  - pose proof (utf8_4_high _ _ _ _ H). rewrite literal_units_four by done. apply units_four; [done|].
    do 4 (apply content_run_high in Hr; [|lia]). apply IH; [cbn; lia|done..].
Qed.

Lemma unquote_utf8 raw : content_run SChars raw = Some SChars -> utf8 (unquote raw).
Proof.
  intros H. apply units_string_utf8, literal_units_ok; [apply utf8_repair_valid|]. by apply content_run_repair.
Qed.
