(* ===== verification/JsonSpec.v ===== *)
(** * Reading and writing JSON

    The values the decoder can produce; every such value, printed, is read
    back as it was; decoding gives nothing else.  On top: when two documents
    are the same value, and that comparing the canonical texts of
    [canonical.go] decides exactly that. *)

From S2P Require Import Prelude Json JsonText.

(** ** Values of the decoder *)

Definition num_start (c : ascii) : option numst :=
  if Ascii.eqb c "-" then Some NNeg else if Ascii.eqb c "0" then Some NZero else if digit c then Some NInt else None.

Fixpoint num_run (st : numst) (s : string) : option numst :=
  match s with
  | EmptyString => Some st
  | String c r => match num_step st c with Some st' => num_run st' r | None => None end
  end.

Definition number_state (s : string) : option numst :=
  match s with
  | EmptyString => None
  | String c r => match num_start c with Some st => num_run st r | None => None end
  end.

Definition number (s : string) : Prop := exists st, number_state s = Some st /\ num_accepting st = true.

(** Values nested at most [d] deep. *)
Inductive wf : nat -> json -> Prop :=
| wf_null d : wf d JNull
| wf_bool d b : wf d (JBool b)
| wf_num d l : number l -> wf d (JNum l)
| wf_str d s : utf8 s -> wf d (JStr s)
| wf_arr d l : Forall (wf d) l -> wf (S d) (JArr l)
| wf_obj d m : Forall (fun kv => utf8 kv.1 /\ wf d kv.2) m -> wf (S d) (JObj m).

(** ** Reading back what is written *)

(** The text after a number does not continue it. *)
Definition stops (rest : string) : Prop :=
  match rest with
  | EmptyString => True
  | String c _ => forall st, num_accepting st = true -> num_step st c = None
  end.

Lemma scan_step c r ex stk m : idle_step c ex stk = Some m -> scan (String c r) (Run LIdle ex stk) = scan r m.
Proof. intros H. cbn [scan]. by rewrite H. Qed.

Lemma complete_idle v stk : complete v stk = Done v \/ exists ex stk', complete v stk = Run LIdle ex stk'.
Proof. destruct stk as [|[acc|acc k] r]; [by left|right; by eexists _, _..]. Qed.

Lemma complete_idle_cons v f stk : exists ex stk', complete v (f :: stk) = Run LIdle ex stk'.
Proof. destruct f as [acc|acc k]; by eexists _, _. Qed.

Lemma scan_num_run s : forall st acc st' ex stk rest,
  num_run st s = Some st' -> num_accepting st' = true -> stops rest ->
  scan (s +:+ rest)%string (Run (LNum st acc) ex stk) = scan rest (complete (JNum (string_rev (string_rev_app s acc))) stk).
Proof.
  induction s as [|c s IH]; intros st acc st' ex stk rest H Ha Hs.
  - injection H as ->. destruct rest as [|c r].
    + change (EmptyString +:+ EmptyString)%string with EmptyString. cbn [scan string_rev_app]. destruct stk as [|f stk]; [by rewrite Ha|].
      by destruct (complete_idle_cons (JNum (string_rev acc)) f stk) as (? & ? & ->).
    + change (EmptyString +:+ String c r)%string with (String c r). cbn [scan string_rev_app]. rewrite Hs, Ha by done.
      by destruct (complete_idle (JNum (string_rev acc)) stk) as [->|(? & ? & ->)].
  - rewrite string_app_cons. cbn [num_run] in H. cbn [scan string_rev_app]. destruct (num_step st c) as [st1|]; [|done]. by eapply IH.
Qed.

Lemma start_value_num c stk st : num_start c = Some st ->
  start_value c stk = Some (Run (LNum st (String c EmptyString)) XValue stk) /\ json_space c = false /\ c <> "]"%char.
Proof. destruct c as [[] [] [] [] [] [] [] []]; vm_compute; intros H; try discriminate H; injection H as <-; done. Qed.

Lemma idle_value c stk : json_space c = false -> idle_step c XValue stk = start_value c stk.
Proof. intros H. unfold idle_step. by rewrite H. Qed.

(** The first byte of a printed value. *)
Lemma print_head d j : wf d j -> exists c r, print j = String c r /\ json_space c = false /\ c <> "]"%char.
Proof.
  intros H. destruct H as [d|d []|d l (st & H & _)|d s|d l|d m]; try by eexists _, _; split; [reflexivity|].
  destruct l as [|c r]; [done|]. cbn [number_state] in H. destruct (num_start c) as [st0|] eqn:E; [|done].
  exists c, r. split; [done|]. by apply (start_value_num c [] st0).
Qed.

Lemma scan_first d j acc stk rest : wf d j ->
  scan (print j +:+ rest)%string (Run LIdle XFirstElem (FArr acc :: stk)) = scan (print j +:+ rest)%string (Run LIdle XValue (FArr acc :: stk)).
Proof.
  intros H. destruct (print_head _ _ H) as (c & r & -> & Hs & Hc). rewrite string_app_cons. cbn [scan]. unfold idle_step. rewrite Hs.
  by destruct (Ascii.eqb_spec c "]").
Qed.

(** [reads d j]: what [j] is printed as is read as [j], at every depth that
    leaves room for it. *)
Definition reads (d : nat) (j : json) : Prop := forall stk rest,
  (d + length stk <= max_depth)%nat -> stops rest ->
  scan (print j +:+ rest)%string (Run LIdle XValue stk) = scan rest (complete j stk).

Lemma stops_byte c r : string_mem c "+-.0123456789eE" = false -> stops (String c r).
Proof. destruct c as [[] [] [] [] [] [] [] []]; vm_compute; intros H; try discriminate H; by intros [] Ha. Qed.

Lemma scan_elems d l : Forall (fun j => wf d j /\ reads d j) l -> forall acc stk rest,
  (S d + length stk <= max_depth)%nat ->
  l <> [] ->
  scan (strings_Join (List.map print l) "," +:+ "]" +:+ rest)%string (Run LIdle XValue (FArr acc :: stk)) =
  scan rest (complete (JArr (rev acc ++ l)) stk).
Proof.
  induction 1 as [|j l [Hw Hj] Hl IH]; intros acc stk rest Hd Hne; [done|]. destruct l as [|j2 l].
  - cbn [List.map strings_Join]. change ("]" +:+ rest)%string with (String "]" rest).
    rewrite Hj; [|cbn [length]; lia|by apply stops_byte]. cbn [complete]. by erewrite scan_step by reflexivity.
  - cbn [List.map strings_Join]. rewrite !string_app_assoc.
    change ("," +:+ ?x)%string with (String "," x). rewrite Hj; [|cbn [length]; lia|by apply stops_byte]. cbn [complete].
    erewrite scan_step by reflexivity. etransitivity; [by apply IH|]. cbn [rev]. by rewrite <- (assoc_L (++)).
Qed.

Definition print_member (kv : string * json) : string := (quote kv.1 +:+ ":" +:+ print kv.2)%string.

Lemma scan_key ex k acc key stk rest : ex = XKey \/ ex = XFirstKey -> utf8 k ->
  scan (quote k +:+ ":" +:+ rest)%string (Run LIdle ex (FObj acc key :: stk)) = scan rest (Run LIdle XValue (FObj acc k :: stk)).
Proof.
  intros Hex Hk. unfold quote. rewrite !string_app_assoc. change (dquote +:+ ?x)%string with (String "034" x) at 1.
  assert (idle_step "034" ex (FObj acc key :: stk) = Some (Run (LStr SChars EmptyString) ex (FObj acc key :: stk))) as E by (by destruct Hex as [-> | ->]).
  erewrite scan_step by exact E. change (String "034" EmptyString) with dquote. rewrite scan_quoted by done.
  assert (complete_string ex k (FObj acc key :: stk) = Run LIdle XColon (FObj acc k :: stk)) as -> by (by destruct Hex as [-> | ->]).
  change (":" +:+ rest)%string with (String ":" rest). by erewrite scan_step by reflexivity.
Qed.

Lemma scan_members d m : Forall (fun kv => utf8 kv.1 /\ reads d kv.2) m -> forall ex acc key stk rest,
  (S d + length stk <= max_depth)%nat -> ex = XKey \/ ex = XFirstKey ->
  m <> [] ->
  scan (strings_Join (List.map print_member m) "," +:+ "}" +:+ rest)%string (Run LIdle ex (FObj acc key :: stk)) =
  scan rest (complete (JObj (rev acc ++ m)) stk).
Proof.
  induction 1 as [|[k j] m [Hk Hj] Hm IH]; intros ex acc key stk rest Hd Hex Hne; [done|]. cbn [fst snd] in *. destruct m as [|kv m].
  - cbn [List.map strings_Join]. unfold print_member at 1. cbn [fst snd]. rewrite !string_app_assoc, scan_key by done.
    change ("}" +:+ rest)%string with (String "}" rest). rewrite Hj; [|cbn [length]; lia|by apply stops_byte]. cbn [complete].
    by erewrite scan_step by reflexivity.
  - cbn [List.map strings_Join]. unfold print_member at 1. cbn [fst snd]. rewrite !string_app_assoc, scan_key by done.
    change ("," +:+ ?x)%string with (String "," x). rewrite Hj; [|cbn [length]; lia|by apply stops_byte]. cbn [complete].
    erewrite scan_step by reflexivity. etransitivity; [by apply IH; auto|]. cbn [rev]. by rewrite <- (assoc_L (++)).
Qed.

Lemma print_arr l : print (JArr l) = ("[" +:+ strings_Join (List.map print l) "," +:+ "]")%string.
Proof. reflexivity. Qed.
Lemma print_obj m : print (JObj m) = ("{" +:+ strings_Join (List.map print_member m) "," +:+ "}")%string.
Proof. reflexivity. Qed.

Lemma push_room f ex stk d : (S d + length stk <= max_depth)%nat -> push f ex stk = Some (Run LIdle ex (f :: stk)).
Proof. intros H. unfold push. destruct (Nat.ltb_spec (length stk) max_depth); [done|lia]. Qed.

Lemma print_reads j : forall d, wf d j -> reads d j.
Proof.
  induction j as [|b|l|s|l IH|m IH] using json_ind'; intros d Hw stk rest Hd Hs.
  - done.
  - by destruct b.
  - inversion Hw as [| |? ? (st & H & Ha)| | |]; subst. destruct l as [|c r]; [done|]. cbn [number_state] in H.
    destruct (num_start c) as [st0|] eqn:E; [|done]. destruct (start_value_num c stk st0 E) as (E1 & E2 & _).
    cbn [print]. rewrite string_app_cons. erewrite scan_step by (rewrite idle_value by done; exact E1).
    erewrite scan_num_run by done. change (string_rev_app r (String c EmptyString)) with (string_rev (String c r)). by rewrite string_rev_involutive.
  - inversion Hw; subst. cbn [print]. unfold quote. rewrite !string_app_assoc. change (dquote +:+ ?x)%string with (String "034" x) at 1.
    erewrite scan_step by reflexivity. change (String "034" EmptyString) with dquote. rewrite scan_quoted by done. by destruct stk as [|[]].
  - inversion Hw as [| | | |d' ? Hl|]; subst. rewrite print_arr, !string_app_assoc. change ("[" +:+ ?x)%string with (String "[" x).
    erewrite scan_step by (rewrite idle_value by done; by eapply push_room).
    destruct l as [|j l]; [by apply (scan_step "]" rest XFirstElem (FArr [] :: stk))|].
    assert (Forall (fun j => wf d' j /\ reads d' j) (j :: l)) as Hall.
    { rewrite Forall_forall in IH, Hl |- *. intros x Hx. split; [by apply Hl|by apply IH, Hl]. }
    etransitivity; [|by apply (scan_elems _ _ Hall [])]. apply Forall_inv in Hl.
    destruct l as [|j2 l]; cbn [List.map strings_Join]; [|rewrite !string_app_assoc]; by eapply scan_first.
  - inversion Hw as [| | | | |d' ? Hm]; subst. rewrite print_obj, !string_app_assoc. change ("{" +:+ ?x)%string with (String "{" x).
    erewrite scan_step by (rewrite idle_value by done; by eapply push_room).
    destruct m as [|kv m]; [by apply (scan_step "}" rest XFirstKey (FObj [] EmptyString :: stk))|].
    apply (scan_members d' (kv :: m)) with (acc := []); [|done|auto|done].
    rewrite Forall_forall in IH, Hm |- *. intros x Hx. split; [by apply Hm|by apply IH, Hm].
Qed.

(** ** Decoding gives nothing else *)

Lemma num_run_app st s t : num_run st (s +:+ t)%string = match num_run st s with Some st' => num_run st' t | None => None end.
Proof. revert st. induction s as [|c s IH]; intros st; [done|]. rewrite string_app_cons. cbn [num_run]. by destruct (num_step st c). Qed.

Lemma string_rev_cons c s : string_rev (String c s) = (string_rev s +:+ String c EmptyString)%string.
Proof. unfold string_rev. cbn [string_rev_app]. by rewrite <- string_rev_app_app. Qed.

Lemma number_state_snoc s c st st' : number_state s = Some st -> num_step st c = Some st' -> number_state (s +:+ String c EmptyString)%string = Some st'.
Proof.
  destruct s as [|a s]; [done|]. rewrite string_app_cons. cbn [number_state]. destruct (num_start a); [|done].
  intros H1 H2. rewrite num_run_app, H1. cbn [num_run]. by rewrite H2.
Qed.

Lemma content_run_snoc s c st st' : content_run SChars s = Some st -> content_step c st = Some st' ->
  content_run SChars (s +:+ String c EmptyString)%string = Some st'.
Proof. intros H1 H2. rewrite content_run_app, H1. cbn [content_run]. by rewrite H2. Qed.

Definition lex_ok (lx : lex) : Prop :=
  match lx with
  | LIdle => True
  | LLit _ v => forall d, wf d v
  | LNum st acc => number_state (string_rev acc) = Some st
  | LStr st acc => content_run SChars (string_rev acc) = Some st
  end.

Definition frame_ok (d : nat) (f : frame) : Prop :=
  match f with
  | FArr acc => Forall (wf d) acc
  | FObj acc k => utf8 k /\ Forall (fun kv => utf8 kv.1 /\ wf d kv.2) acc
  end.

(** The values of a frame may be as deep as the frame is away from the limit. *)
Fixpoint stack_ok (stk : list frame) : Prop :=
  match stk with
  | [] => True
  | f :: r => (length r < max_depth)%nat /\ frame_ok (max_depth - S (length r)) f /\ stack_ok r
  end.

Definition room (stk : list frame) : nat := max_depth - length stk.

Definition mach_ok (m : mach) : Prop :=
  match m with
  | Run lx _ stk => lex_ok lx /\ stack_ok stk
  | Done v => wf max_depth v
  end.

Lemma complete_ok v stk : wf (room stk) v -> stack_ok stk -> mach_ok (complete v stk).
Proof.
  destruct stk as [|f r]; cbn [complete stack_ok]; [unfold room; by rewrite Nat.sub_0_r|].
  intros Hv (Hd & Hf & Hr). unfold room in Hv. cbn [length] in Hv. destruct f as [acc|acc k]; cbn [mach_ok lex_ok stack_ok frame_ok] in *.
  - split_and!; try done; by constructor.
  - destruct Hf as [Hk Hf]. split; [done|]. split; [done|]. split; [|done]. split; [constructor|]. by constructor.
Qed.

Lemma complete_string_ok ex s stk : utf8 s -> stack_ok stk -> mach_ok (complete_string ex s stk).
Proof.
  intros Hs Hk. assert (mach_ok (complete (JStr s) stk)) as H by (apply complete_ok; [by constructor|done]).
  destruct ex, stk as [|[acc|acc k] r]; try done; destruct Hk as (? & [? ?] & ?); by repeat split.
Qed.

Lemma push_ok f ex stk m : frame_ok (room (f :: stk)) f -> stack_ok stk -> push f ex stk = Some m -> mach_ok m.
Proof. unfold push. intros Hf Hk. destruct (Nat.ltb_spec (length stk) max_depth); [|done]. intros [= <-]. by repeat split. Qed.

Lemma number_byte c stk m : num_start c = None -> start_value c stk = Some m ->
  m = Run (LStr SChars EmptyString) XValue stk \/ (exists rest v, (forall d, wf d v) /\ m = Run (LLit rest v) XValue stk) \/
  push (FArr []) XFirstElem stk = Some m \/ push (FObj [] EmptyString) XFirstKey stk = Some m.
Proof.
  intros H E. assert (digit c = false) as Hd by (unfold num_start in H; repeat case_match; done).
  destruct c as [[] [] [] [] [] [] [] []]; try discriminate H; cbn [start_value] in E; try (rewrite Hd in E; discriminate E); auto;
    injection E as <-; first [by left|right; left; eexists _, _; (split; [|reflexivity]); constructor].
Qed.

Lemma start_value_ok c stk m : stack_ok stk -> start_value c stk = Some m -> mach_ok m.
Proof.
  intros Hk H. destruct (num_start c) as [st|] eqn:E.
  - destruct (start_value_num c stk st E) as (E1 & _). rewrite E1 in H. injection H as <-. cbn [mach_ok lex_ok]. split; [|done].
    change (string_rev (String c EmptyString)) with (String c EmptyString). cbn [number_state]. by rewrite E.
  - destruct (number_byte _ _ _ E H) as [->|[(rest & v & Hv & ->)|[Hp|Hp]]]; [done..| |];
      (eapply push_ok; [|done|exact Hp]; by repeat constructor).
Qed.

Lemma closed_arr acc r : stack_ok (FArr acc :: r) -> mach_ok (complete (JArr (rev acc)) r).
Proof.
  intros (Hd & Hf & Hr). apply complete_ok; [|done]. unfold room.
  replace (max_depth - length r)%nat with (S (max_depth - S (length r))) by lia. constructor. by apply Forall_rev.
Qed.

Lemma closed_obj acc k r : stack_ok (FObj acc k :: r) -> mach_ok (complete (JObj (rev acc)) r).
Proof.
  intros (Hd & [_ Hf] & Hr). apply complete_ok; [|done]. unfold room.
  replace (max_depth - length r)%nat with (S (max_depth - S (length r))) by lia. constructor. by apply Forall_rev.
Qed.

Lemma idle_step_ok c ex stk m : stack_ok stk -> idle_step c ex stk = Some m -> mach_ok m.
Proof.
  intros Hk H. unfold idle_step in H. destruct (json_space c); [by injection H as <-|].
  assert (forall ex m, start_key c ex stk = Some m -> mach_ok m) as Hkey.
  { intros ex' m'. unfold start_key. destruct (Ascii.eqb c "034"); [|done]. by intros [= <-]. }
  destruct ex; [by eapply start_value_ok|..].
  - destruct stk as [|[acc|] r]; try done. destruct (Ascii.eqb c "]"); [|by eapply start_value_ok].
    injection H as <-. apply (closed_arr []). destruct Hk as (? & ? & ?). split_and!; [done|by repeat constructor|done].
  - destruct stk as [|[|acc k] r]; try done. destruct (Ascii.eqb c "}"); [|by eapply Hkey].
    injection H as <-. apply (closed_obj [] EmptyString). destruct Hk as (? & ? & ?). split_and!; [done|by repeat constructor|done].
  - by eapply Hkey.
  - destruct (Ascii.eqb c ":"); [|done]. by injection H as <-.
  - destruct stk as [|[acc|acc k] r]; try done; (destruct (Ascii.eqb c ","); [by injection H as <-|]).
    + destruct (Ascii.eqb c "]"); [|done]. injection H as <-. by apply closed_arr.
    + destruct (Ascii.eqb c "}"); [|done]. injection H as <-. by eapply closed_obj.
Qed.

Lemma str_step_ok c st acc ex stk m : lex_ok (LStr st acc) -> stack_ok stk -> str_step c st acc ex stk = Some m -> mach_ok m.
Proof.
  intros Hl Hk H. apply str_step_cases in H as [(st' & E & ->)|[-> ->]].
  - split; [|done]. cbn [lex_ok] in *. rewrite string_rev_cons. by eapply content_run_snoc.
  - apply complete_string_ok; [|done]. by apply unquote_utf8.
Qed.

Lemma scan_wf s : forall m v r, mach_ok m -> scan s m = Some (v, r) -> wf max_depth v.
Proof.
  induction s as [|c s IH]; intros [lx ex stk|w] v r Hm H; cbn [scan] in H; try (by injection H as <- <-); destruct Hm as [Hl Hk].
  - destruct lx as [| |st acc|], stk; try done. destruct (num_accepting st) eqn:Ea; [|done]. injection H as <- <-. constructor. by exists st.
  - destruct lx as [|[|d [|e t]] w|st acc|st acc]; try done.
    + destruct (idle_step c ex stk) as [m|] eqn:E; [|done]. eapply IH; [|exact H]. by eapply idle_step_ok.
    + destruct (Ascii.eqb c d); [|done]. eapply IH; [|exact H]. by apply complete_ok.
    + destruct (Ascii.eqb c d); [|done]. eapply IH; [|exact H]. done.
    + destruct (num_step st c) as [st'|] eqn:E.
      * eapply IH; [|exact H]. split; [|done]. cbn [lex_ok] in *. rewrite string_rev_cons. by eapply number_state_snoc.
      * destruct (num_accepting st) eqn:Ea; [|done].
        assert (mach_ok (complete (JNum (string_rev acc)) stk)) as Hc by (apply complete_ok; [constructor; by exists st|done]).
        destruct (complete _ _) as [lx' ex' stk'|w]; [|by injection H as <- <-].
        destruct (idle_step c ex' stk') as [m|] eqn:E'; [|done]. eapply IH; [|exact H]. eapply idle_step_ok; [|done]. apply Hc.
    + destruct (str_step c st acc ex stk) as [m|] eqn:E; [|done]. eapply IH; [|exact H]. by eapply str_step_ok.
Qed.

Lemma json_decode_wf s v r : json_decode s = Some (v, r) -> wf max_depth v.
Proof. by apply scan_wf. Qed.

Lemma json_decode_print v rest : wf max_depth v -> stops rest -> json_decode (print v +:+ rest)%string = Some (v, rest).
Proof.
  intros Hv Hr. unfold json_decode. rewrite (print_reads v max_depth Hv [] rest) by (done || cbn [length]; lia). by destruct rest.
Qed.

Lemma json_unmarshal_print v : wf max_depth v -> json_unmarshal (print v) = Some v.
Proof.
  intros Hv. unfold json_unmarshal. rewrite <- (string_app_nil_r (print v)). by rewrite json_decode_print.
Qed.

(** ** When two documents are the same value *)

(** Numbers by their digits, strings by their characters, arrays element by
    element, objects by what each key maps to: the order of the members, a
    key's earlier values, white space and the spelling of strings do not
    count. *)
Inductive same_value : json -> json -> Prop :=
| same_null : same_value JNull JNull
| same_bool b : same_value (JBool b) (JBool b)
| same_num l : same_value (JNum l) (JNum l)
| same_str s : same_value (JStr s) (JStr s)
| same_arr l1 l2 : Forall2 same_value l1 l2 -> same_value (JArr l1) (JArr l2)
| same_obj m1 m2 :
    (forall k, option_Forall2 same_value (assoc_last k m1) (assoc_last k m2)) -> same_value (JObj m1) (JObj m2).

(** *** Maps of members *)

Definition key_lt (k1 k2 : string) : Prop := String.compare k1 k2 = Lt.

Lemma compare_refl k : String.compare k k = Eq.
Proof. pose proof (String.compare_antisym k k) as H. by destruct (String.compare k k). Qed.

Lemma string_compare_antisym k1 k2 : String.compare k1 k2 = CompOpp (String.compare k2 k1).
Proof. apply String.compare_antisym. Qed.

Lemma ascii_compare_N a b : Ascii.compare a b = N.compare (N_of_ascii a) (N_of_ascii b).
Proof. reflexivity. Qed.

Lemma key_lt_trans k1 k2 k3 : key_lt k1 k2 -> key_lt k2 k3 -> key_lt k1 k3.
Proof.
  unfold key_lt. revert k2 k3. induction k1 as [|a k1 IH]; intros [|b k2] [|c k3]; try done. cbn [String.compare]. rewrite !ascii_compare_N.
  destruct (N.compare_spec (N_of_ascii a) (N_of_ascii b)) as [E|E|E]; try done;
    destruct (N.compare_spec (N_of_ascii b) (N_of_ascii c)) as [E2|E2|E2]; try done; intros H1 H2.
  - rewrite E, E2, N.compare_refl. by eapply IH.
  - rewrite E. by rewrite (proj2 (N.compare_lt_iff _ _) E2).
  - rewrite <- E2. by rewrite (proj2 (N.compare_lt_iff _ _) E).
  - by rewrite (proj2 (N.compare_lt_iff _ _) (N.lt_trans _ _ _ E E2)).
Qed.

(** Every key once, in byte order. *)
Inductive ordered : list (string * json) -> Prop :=
| ordered_nil : ordered []
| ordered_cons k v m : Forall (fun kv => key_lt k kv.1) m -> ordered m -> ordered ((k, v) :: m).

Lemma assoc_last_below k m : Forall (fun kv => key_lt k kv.1) m -> assoc_last k m = None.
Proof.
  induction 1 as [|[k' v] m H _ IH]; [done|]. cbn. rewrite IH. destruct (String.eqb_spec k' k) as [->|]; [|done].
  unfold key_lt in H. cbn in H. by rewrite compare_refl in H.
Qed.

Lemma map_insert_keys (P : string -> Prop) k v m :
  P k -> Forall (fun kv => P kv.1) m -> Forall (fun kv => P kv.1) (map_insert k v m).
Proof.
  intros Hk. induction 1 as [|[k' v'] m H Hm IH]; cbn [map_insert]; [by repeat constructor|]. destruct (String.compare k k'); by repeat constructor.
Qed.

Lemma map_insert_ordered k v m : ordered m -> ordered (map_insert k v m).
Proof.
  induction 1 as [|k' v' m Hk Hm IH]; cbn [map_insert]; [by repeat constructor|]. destruct (String.compare k k') eqn:E.
  - apply String.compare_eq_iff in E as ->. by constructor.
  - constructor; [|by constructor]. constructor; [done|]. eapply Forall_impl; [done|]. intros kv H. by eapply key_lt_trans.
  - constructor; [|done]. apply map_insert_keys; [|done]. unfold key_lt. by rewrite string_compare_antisym, E.
Qed.

Lemma map_insert_lookup k v m k' : ordered m -> assoc_last k' (map_insert k v m) = if String.eqb k k' then Some v else assoc_last k' m.
Proof.
  induction 1 as [|k1 v1 m Hk Hm IH]; cbn [map_insert]; [cbn; by destruct (String.eqb k k')|]. destruct (String.compare k k1) eqn:E.
  - apply String.compare_eq_iff in E as ->. cbn [assoc_last]. destruct (String.eqb_spec k1 k') as [<-|]; [by rewrite assoc_last_below|]. by destruct (assoc_last k' m).
  - cbn [assoc_last]. destruct (String.eqb_spec k k') as [<-|]; [|by destruct (assoc_last k' m), (String.eqb k1 k')].
    rewrite assoc_last_below; [|eapply Forall_impl; [done|]; intros kv H; by eapply key_lt_trans].
    destruct (String.eqb_spec k1 k) as [->|]; [by rewrite compare_refl in E|done].
  - cbn [assoc_last]. rewrite IH. destruct (String.eqb_spec k k') as [<-|]; done.
Qed.

Lemma fold_insert_ordered m acc : ordered acc -> ordered (fold_left (fun acc kv => map_insert kv.1 kv.2 acc) m acc).
Proof. revert acc. induction m as [|kv m IH]; intros acc H; [done|]. by apply IH, map_insert_ordered. Qed.

Lemma fold_insert_lookup k m : forall acc, ordered acc ->
  assoc_last k (fold_left (fun acc kv => map_insert kv.1 kv.2 acc) m acc) = match assoc_last k m with Some v => Some v | None => assoc_last k acc end.
Proof.
  induction m as [|[k' v] m IH]; intros acc H; [done|]. cbn [fold_left fst snd assoc_last]. rewrite IH by by apply map_insert_ordered.
  destruct (assoc_last k m); [done|]. rewrite map_insert_lookup by done. by destruct (String.eqb k' k).
Qed.

Lemma map_of_members_lookup k m : assoc_last k (map_of_members m) = assoc_last k m.
Proof. unfold map_of_members. rewrite fold_insert_lookup by constructor. by destruct (assoc_last k m). Qed.

Lemma map_of_members_ordered m : ordered (map_of_members m).
Proof. apply fold_insert_ordered. constructor. Qed.

Lemma ordered_ext m1 m2 : ordered m1 -> ordered m2 -> (forall k, assoc_last k m1 = assoc_last k m2) -> m1 = m2.
Proof.
  intros H1. revert m2. induction H1 as [|k v m1 Hk1 H1 IH]; intros m2 H2 He.
  - destruct H2 as [|k v m2 _ _]; [done|]. specialize (He k). cbn in He. rewrite String.eqb_refl in He. by destruct (assoc_last k m2).
  - destruct H2 as [|k2 v2 m2 Hk2 H2].
    { specialize (He k). cbn in He. rewrite String.eqb_refl in He. by destruct (assoc_last k m1). }
    assert (forall k, key_lt k k -> False) as Hirr by (intros x; unfold key_lt; by rewrite compare_refl).
    assert (forall k v m k' v' m', Forall (fun kv => key_lt k kv.1) m -> key_lt k k' -> Forall (fun kv => key_lt k' kv.1) m' ->
      assoc_last k ((k, v) :: m) = assoc_last k ((k', v') :: m') -> False) as Hlt.
    { intros k0 v0 m k' v' m' Hm Hlt Hm'. cbn [assoc_last]. rewrite String.eqb_refl, (assoc_last_below k0 m) by done.
      rewrite (assoc_last_below k0 m') by (eapply Forall_impl; [done|]; intros ? ?; by eapply key_lt_trans).
      destruct (String.eqb_spec k' k0) as [->|]; [by destruct (Hirr k0)|done]. }
    destruct (String.compare k k2) eqn:E.
    + apply String.compare_eq_iff in E as <-. pose proof (He k) as Hk. cbn [assoc_last] in Hk.
      rewrite String.eqb_refl, !assoc_last_below in Hk by done. injection Hk as <-. f_equal. apply IH; [done|].
      intros k'. specialize (He k'). cbn [assoc_last] in He.
      destruct (String.eqb_spec k k') as [Ek|]; [by rewrite <- Ek, !assoc_last_below|]. by destruct (assoc_last k' m1), (assoc_last k' m2).
    + by destruct (Hlt k v m1 k2 v2 m2).
    + destruct (Hlt k2 v2 m2 k v m1); try done. unfold key_lt. by rewrite string_compare_antisym, E.
Qed.

Lemma assoc_last_map f k (m : list (string * json)) : assoc_last k (List.map (fun kv => (kv.1, f kv.2)) m) = f <$> assoc_last k m.
Proof. induction m as [|[k' v] m IH]; [done|]. cbn. rewrite IH. destruct (assoc_last k m); [done|]. by destruct (String.eqb k' k). Qed.

Lemma assoc_last_in k m v : assoc_last k m = Some v -> exists kv, kv ∈ m /\ kv.2 = v.
Proof.
  induction m as [|[k' w] m IH]; cbn; [done|]. destruct (assoc_last k m) as [x|].
  - intros [= ->]. destruct IH as (kv & Hin & He); [done|]. exists kv. split; [by right|done].
  - destruct (String.eqb k' k); [|done]. intros [= ->]. exists (k', v). split; [by left|done].
Qed.

Lemma to_any_same v : forall w, to_any v = to_any w <-> same_value v w.
Proof.
  induction v as [|b|l|s|l IH|m IH] using json_ind'; intros w.
  1-4: split; [destruct w; cbn; try done; intros E; simplify_eq; constructor|by inversion 1].
  - split.
    + destruct w as [| | | |l2|]; cbn; try done. intros [= E]. constructor. revert l2 E.
      induction IH as [|x l Hx _ IHl]; intros [|y l2]; cbn; try done. intros [= E1 E2]. constructor; [by apply Hx|by apply IHl].
    + inversion 1 as [| | | |? l2 H2|]; subst. cbn. f_equal. clear H. induction H2 as [|x y l l2 Hxy _ IHl]; [done|].
      inversion_clear IH as [|? ? Hx Hl]. cbn. f_equal; [by apply Hx|]. by apply IHl.
  - assert (forall m2, map_of_members (List.map (fun kv => (kv.1, to_any kv.2)) m) = map_of_members (List.map (fun kv => (kv.1, to_any kv.2)) m2) <->
      forall k, option_Forall2 same_value (assoc_last k m) (assoc_last k m2)) as Hm.
    { intros m2. transitivity (forall k, to_any <$> assoc_last k m = to_any <$> assoc_last k m2).
      - split; [intros E k|intros E; apply ordered_ext; [apply map_of_members_ordered..|intros k]].
        + pose proof (f_equal (assoc_last k) E) as Ek. by rewrite !map_of_members_lookup, !assoc_last_map in Ek.
        + rewrite !map_of_members_lookup, !assoc_last_map. apply E.
      - apply forall_proper. intros k. destruct (assoc_last k m) as [x|] eqn:Ex, (assoc_last k m2) as [y|];
          (split; [intros E; try done|inversion 1; subst; cbn; try done]).
        + injection E as E. constructor. apply assoc_last_in in Ex as (kv & Hin & <-). rewrite Forall_forall in IH. by apply (IH kv Hin).
        + f_equal. apply assoc_last_in in Ex as (kv & Hin & <-). rewrite Forall_forall in IH. by apply (IH kv Hin).
        + constructor. }
    split.
    + destruct w as [| | | | |m2]; cbn; try done. intros [= E]. constructor. by apply Hm.
    + inversion 1; subst. cbn. f_equal. by apply Hm.
Qed.

Lemma wf_map_insert d k v m : utf8 k -> wf d v -> Forall (fun kv => utf8 kv.1 /\ wf d kv.2) m -> Forall (fun kv => utf8 kv.1 /\ wf d kv.2) (map_insert k v m).
Proof.
  intros Hk Hv. induction 1 as [|[k' v'] m H Hm IH]; cbn [map_insert]; [by repeat constructor|]. destruct (String.compare k k'); repeat constructor; try done; apply H.
Qed.

Lemma to_any_wf v : forall d, wf d v -> wf d (to_any v).
Proof.
  induction v as [|b|l|s|l IH|m IH] using json_ind'; intros d Hw; cbn [to_any]; try done.
  - inversion Hw as [| | | |d' ? Hl|]; subst. constructor. rewrite Forall_map. rewrite Forall_forall in *. intros x Hx. by apply IH, Hl.
  - inversion Hw as [| | | | |d' ? Hm]; subst. constructor. unfold map_of_members.
    assert (Forall (fun kv => utf8 kv.1 /\ wf d' kv.2) []) as Hacc by constructor.
    generalize dependent (@nil (string * json)). induction m as [|[k v] m IHm]; intros acc Hacc; [done|].
    inversion_clear IH as [|? ? Hv IHr]. inversion_clear Hm as [|? ? [Hk Hwv] Hmr]. cbn [List.map fold_left fst snd] in *.
    apply IHm; [done|by constructor|done|]. apply wf_map_insert; [done|by apply Hv|done].
Qed.

(** Canonical texts are equal exactly when the documents are the same value. *)
Lemma canonical_text v w : wf max_depth v -> wf max_depth w -> print (to_any v) = print (to_any w) <-> same_value v w.
Proof.
  intros Hv Hw. rewrite <- to_any_same. split; [|by intros ->]. intros E.
  assert (Some (to_any v) = Some (to_any w)) as [= ?]; [|done].
  rewrite <- (json_unmarshal_print (to_any v)), <- (json_unmarshal_print (to_any w)) by by apply to_any_wf. by rewrite E.
Qed.
