(* ===== verification/JsonRaw.v ===== *)
(** * Raw JSON: [json.RawMessage]

    A [RawMessage] keeps the text of a value.  Reading one takes the member's
    bytes out of the enclosing object; writing one compacts the text and
    escapes it for HTML.  Also the struct decoding used on such members, and
    the wording of errors of the standard library, which no decision of the
    modelled code reads. *)

From S2P Require Import Prelude Json.

(** The texts that [encoding/json], [net/url] and [%q] put into messages. *)
Class Wording := {
  json_error : string -> string;
  quote_q : string -> string;
}.

Fixpoint skip_space (s : string) : string :=
  match s with
  | String c r => if json_space c then skip_space r else s
  | EmptyString => s
  end.

(** The first [n] bytes. *)
Fixpoint take_bytes (n : nat) (s : string) : string :=
  match n, s with
  | S m, String c r => String c (take_bytes m r)
  | _, _ => EmptyString
  end.

(** The part of [s] before its suffix [rest]. *)
Definition before (s rest : string) : string := take_bytes (String.length s - String.length rest) s.

(** Members from the start of a key; every member takes at least one byte,
    so the length of the text is enough fuel. *)
Fixpoint raw_members_go (fuel : nat) (s : string) : option (list (string * string)) :=
  match fuel with
  | O => None
  | S f =>
      match json_decode (skip_space s) with
      | Some (JStr k, r1) =>
          match skip_space r1 with
          | String ":" r2 =>
              let v := skip_space r2 in
              match json_decode v with
              | Some (_, r3) =>
                  match skip_space r3 with
                  | String "," r4 =>
                      match raw_members_go f r4 with
                      | Some l => Some ((k, before v r3) :: l)
                      | None => None
                      end
                  | String "}" _ => Some [(k, before v r3)]
                  | _ => None
                  end
              | None => None
              end
          | _ => None
          end
      | _ => None
      end
  end.

(** The members of an object with the text of their values, in order. *)
Definition raw_members (s : string) : option (list (string * string)) :=
  match json_unmarshal s, skip_space s with
  | Some (JObj []), _ => Some []
  | Some (JObj _), String "{" r => raw_members_go (String.length r) r
  | _, _ => None
  end.

(** [json.Unmarshal] into [map[string]json.RawMessage]: the last member of a
    key.  [None] is an error or a nil map ([null]). *)
Definition raw_object (s : string) : option (gmap string string) :=
  match raw_members s with
  | Some l => Some (fold_left (fun m kv => <[kv.1 := kv.2]> m) l ∅)
  | None => None
  end.

(** The texts a struct field named [f] receives. *)
Definition raw_field (names : list string) (f : string) (l : list (string * string)) : list string :=
  List.map snd (List.filter (fun kv => bool_decide (field_of names kv.1 = Some f)) l).

(** A [RawMessage] field: the last member's text, nil (empty) without one. *)
Definition into_raw (l : list string) : string := List.last l EmptyString.

(** A field of any other type, decoded from the members' values. *)
Definition parsed (l : list string) : list json :=
  List.map (fun s => default JNull (json_unmarshal s)) l.

(** ** Compaction *)

Inductive text_state := Outside | Inside | Escaped.

Definition next_state (st : text_state) (c : ascii) : text_state :=
  match st with
  | Outside => if Ascii.eqb c "034" then Inside else Outside
  | Inside => if Ascii.eqb c "034" then Outside else if Ascii.eqb c "\" then Escaped else Inside
  | Escaped => Inside
  end.

Definition html_byte (c : ascii) : bool := Ascii.eqb c "<" || Ascii.eqb c ">" || Ascii.eqb c "&".

(** [appendCompact] with HTML escaping, on a valid text. *)
Fixpoint compact_go (st : text_state) (s : string) : string :=
  match s with
  | EmptyString => EmptyString
  | String c r =>
      let st' := next_state st c in
      if match st with Outside => json_space c | _ => false end then compact_go st r
      else if html_byte c then (escape_u (byte_val c) +:+ compact_go st' r)%string
      else
        match c, r with
        | "226"%char, String "128" (String b r') =>
            if Ascii.eqb b "168" then ("\u2028" +:+ compact_go st' r')%string
            else if Ascii.eqb b "169" then ("\u2029" +:+ compact_go st' r')%string
            else String c (compact_go st' r)
        | _, _ => String c (compact_go st' r)
        end
  end.

Definition compact : string -> string := compact_go Outside.

(** A struct whose fields are already texts, and whose keys need no escape. *)
Definition marshal_fields (l : list (string * string)) : string :=
  ("{" +:+ strings_Join (List.map (fun kv => (quote kv.1 +:+ ":" +:+ kv.2)%string) l) "," +:+ "}")%string.

Example raw_members_text :
  option_map (List.map snd) (raw_members (" {" +:+ quote "a" +:+ ": [1, 2] ," +:+ quote "b" +:+ ":-1.50e1 }")) = Some ["[1, 2]"; "-1.50e1"].
Proof. vm_compute. reflexivity. Qed.

Example compact_text :
  compact ("[ 1 , " +:+ dquote +:+ "a <\" +:+ dquote +:+ "b" +:+ dquote +:+ " ]") =
  ("[1," +:+ dquote +:+ "a \u003c\" +:+ dquote +:+ "b" +:+ dquote +:+ "]")%string.
Proof. vm_compute. reflexivity. Qed.
