(* ===== verification/Body.v ===== *)
(** * Limits on request bodies

    [maxBodyBytes] of [internal/api/router.go] and [limitRequestBody] of
    [internal/mcpapi/handler.go]: both put [http.MaxBytesReader] between the
    request's body and whoever reads it. *)

From S2P Require Import Prelude Errors JsonRaw.

(** What reading a body to its end gives: its bytes, and the error that ended
    it ([None] is the end of the body). *)
Abbreviation reader := (string * option error)%type.

Definition body_too_large : error := EString "http: request body too large".

(** [http.MaxBytesReader]: at most [limit] bytes, then an error. *)
Definition MaxBytesReader (limit : Z) (body : reader) : reader :=
  if limit <? Z.of_nat (String.length body.1)
  then (take_bytes (Z.to_nat limit) body.1, Some body_too_large)
  else body.

Definition maxBodyBytes (limit : Z) (body : reader) : reader :=
  if 0 <? limit then MaxBytesReader limit body else body.

(** [None] is a request without a body. *)
Definition limitRequestBody (limit : Z) (body : option reader) : option reader :=
  if limit <=? 0 then body
  else match body with
       | Some b => Some (MaxBytesReader limit b)
       | None => None
       end.

Lemma take_bytes_length n s : (String.length (take_bytes n s) <= n)%nat.
Proof. revert s. induction n as [|n IH]; intros [|c s]; cbn; [lia..|]. specialize (IH s). lia. Qed.

Lemma take_bytes_length_lt n s : (n < String.length s)%nat -> String.length (take_bytes n s) = n.
Proof. revert s. induction n as [|n IH]; intros [|c s]; cbn; intros H; try lia. rewrite IH; lia. Qed.

(** A body within the limit is read as it was sent; of a longer one exactly
    the first [limit] bytes are read, and then an error. *)
Lemma maxBodyBytes_bounds limit body :
  0 < limit ->
  (Z.of_nat (String.length body.1) <= limit /\ maxBodyBytes limit body = body) \/
  (limit < Z.of_nat (String.length body.1) /\ (maxBodyBytes limit body).2 = Some body_too_large /\
   Z.of_nat (String.length (maxBodyBytes limit body).1) = limit).
Proof.
  intros Hl. unfold maxBodyBytes, MaxBytesReader. replace (0 <? limit) with true by lia.
  destruct (Z.ltb_spec limit (Z.of_nat (String.length body.1))); [right|by left].
  split; [done|]. split; [done|]. cbn [fst]. rewrite take_bytes_length_lt by lia. lia.
Qed.

(** The two front ends treat a body alike. *)
Lemma limitRequestBody_max limit b : limitRequestBody limit (Some b) = Some (maxBodyBytes limit b).
Proof. unfold limitRequestBody, maxBodyBytes. by destruct (Z.leb_spec limit 0), (Z.ltb_spec 0 limit); try lia. Qed.
