(* ===== verification/Crypto.v ===== *)
(** * SHA-256, HMAC, hex and base64 ([crypto/sha256], [crypto/hmac],
      [encoding/hex], [encoding/base64])

    Executable, checked against published test vectors. *)

From S2P Require Import Prelude Json.

Definition bytes_of (s : string) : list N := List.map byte_val (list_ascii_of_string s).

(** ** SHA-256 (FIPS 180-4), on 32-bit words *)

Definition w32 (n : N) : N := N.land n 4294967295.
Definition add32 (a b : N) : N := w32 (a + b).
Definition rotr (n x : N) : N := N.lor (N.shiftr x n) (w32 (N.shiftl x (32 - n))).

Definition sha_ch (x y z : N) : N := N.lxor (N.land x y) (N.land (N.lxor x 4294967295) z).
Definition sha_maj (x y z : N) : N := N.lxor (N.lxor (N.land x y) (N.land x z)) (N.land y z).
Definition big_sigma0 (x : N) : N := N.lxor (N.lxor (rotr 2 x) (rotr 13 x)) (rotr 22 x).
Definition big_sigma1 (x : N) : N := N.lxor (N.lxor (rotr 6 x) (rotr 11 x)) (rotr 25 x).
Definition small_sigma0 (x : N) : N := N.lxor (N.lxor (rotr 7 x) (rotr 18 x)) (N.shiftr x 3).
Definition small_sigma1 (x : N) : N := N.lxor (N.lxor (rotr 17 x) (rotr 19 x)) (N.shiftr x 10).

Definition sha_k : list N :=
  [1116352408; 1899447441; 3049323471; 3921009573; 961987163; 1508970993; 2453635748; 2870763221;
   3624381080; 310598401; 607225278; 1426881987; 1925078388; 2162078206; 2614888103; 3248222580;
   3835390401; 4022224774; 264347078; 604807628; 770255983; 1249150122; 1555081692; 1996064986;
   2554220882; 2821834349; 2952996808; 3210313671; 3336571891; 3584528711; 113926993; 338241895;
   666307205; 773529912; 1294757372; 1396182291; 1695183700; 1986661051; 2177026350; 2456956037;
   2730485921; 2820302411; 3259730800; 3345764771; 3516065817; 3600352804; 4094571909; 275423344;
   430227734; 506948616; 659060556; 883997877; 958139571; 1322822218; 1537002063; 1747873779;
   1955562222; 2024104815; 2227730452; 2361852424; 2428436474; 2756734187; 3204031479; 3329325298]%N.

Definition sha_init : list N :=
  [1779033703; 3144134277; 1013904242; 2773480762; 1359893119; 2600822924; 528734635; 1541459225]%N.

(** The message schedule, newest word first: 48 words after the block's 16. *)
Fixpoint schedule (n : nat) (w : list N) : list N :=
  match n with
  | O => w
  | S m =>
      let at_ k := nth k w 0%N in
      schedule m (add32 (add32 (small_sigma1 (at_ 1%nat)) (at_ 6%nat)) (add32 (small_sigma0 (at_ 14%nat)) (at_ 15%nat)) :: w)
  end.

Definition sha_round (st : list N) (kw : N * N) : list N :=
  match st with
  | [a; b; c; d; e; f; g; h] =>
      let t1 := add32 (add32 h (big_sigma1 e)) (add32 (sha_ch e f g) (add32 kw.1 kw.2)) in
      let t2 := add32 (big_sigma0 a) (sha_maj a b c) in
      [add32 t1 t2; a; b; c; add32 d t1; e; f; g]
  | _ => st
  end.

Fixpoint be_words (l : list N) : list N :=
  match l with
  | a :: b :: c :: d :: r => (a * 16777216 + b * 65536 + c * 256 + d)%N :: be_words r
  | _ => []
  end.

Definition be_bytes (w : N) : list N :=
  [N.land (N.shiftr w 24) 255; N.land (N.shiftr w 16) 255; N.land (N.shiftr w 8) 255; N.land w 255]%N.

Definition sha_block (st block : list N) : list N :=
  let w := rev (schedule 48 (rev (be_words block))) in
  zip_with add32 st (fold_left sha_round (zip sha_k w) st).

Fixpoint sha_blocks (n : nat) (l st : list N) : list N :=
  match n with
  | O => st
  | S m => sha_blocks m (drop 64 l) (sha_block st (take 64 l))
  end.

(** One [1] bit, zeros, the bit length as 64 bits. *)
Definition sha_pad (l : list N) : list N :=
  let n := length l in
  let zeros := ((119 - n mod 64) mod 64)%nat in
  let bits := (8 * N.of_nat n)%N in
  l ++ [128%N] ++ repeat 0%N zeros ++ be_bytes (w32 (N.shiftr bits 32)) ++ be_bytes (w32 bits).

Definition Sum256 (l : list N) : list N :=
  let p := sha_pad l in
  concat (List.map be_bytes (sha_blocks (length p / 64) p sha_init)).

(** ** HMAC (RFC 2104) *)

Definition hmac_key (key : list N) : list N :=
  let k := if (64 <? length key)%nat then Sum256 key else key in
  k ++ repeat 0%N (64 - length k).

Definition hmac_sha256 (key msg : list N) : list N :=
  let k := hmac_key key in
  Sum256 (List.map (N.lxor 92) k ++ Sum256 (List.map (N.lxor 54) k ++ msg)).

(** ** Text encodings *)

Definition hex_char (n : N) : ascii := ascii_of_N (if n <? 10 then 48 + n else 87 + n)%N.

Fixpoint hex_EncodeToString (l : list N) : string :=
  match l with
  | [] => EmptyString
  | b :: r => String (hex_char (N.shiftr b 4)) (String (hex_char (N.land b 15)) (hex_EncodeToString r))
  end.

Definition base64_char (url : bool) (n : N) : ascii :=
  ascii_of_N (if n <? 26 then 65 + n
              else if n <? 52 then 71 + n
              else if n <? 62 then n - 4
              else if n =? 62 then if url then 45 else 43
              else if url then 95 else 47)%N.

(** [StdEncoding] pads; [RawURLEncoding] has its own last two characters and
    does not. *)
Fixpoint base64 (url : bool) (l : list N) : string :=
  let ch := base64_char url in
  let padding (n : nat) := if url then EmptyString else string_of_bytes (repeat 61%N n) in
  match l with
  | [] => EmptyString
  | [a] => String (ch (N.shiftr a 2)) (String (ch (N.shiftl (N.land a 3) 4)) (padding 2%nat))
  | [a; b] =>
      String (ch (N.shiftr a 2)) (String (ch (N.lor (N.shiftl (N.land a 3) 4) (N.shiftr b 4)))
        (String (ch (N.shiftl (N.land b 15) 2)) (padding 1%nat)))
  | a :: b :: c :: r =>
      String (ch (N.shiftr a 2)) (String (ch (N.lor (N.shiftl (N.land a 3) 4) (N.shiftr b 4)))
        (String (ch (N.lor (N.shiftl (N.land b 15) 2) (N.shiftr c 6))) (String (ch (N.land c 63)) (base64 url r))))
  end.

(** ** Test vectors *)

Example sha256_abc : hex_EncodeToString (Sum256 (bytes_of "abc")) =
  "ba7816bf8f01cfea414140de5dae2223b00361a396177a9cb410ff61f20015ad".
Proof. vm_compute. reflexivity. Qed.
Example sha256_two_blocks :
  hex_EncodeToString (Sum256 (bytes_of "abcdbcdecdefdefgefghfghighijhijkijkljklmklmnlmnomnopnopq")) =
  "248d6a61d20638b8e5c026930c3e6039a33ce45964ff2167f6ecedd419db06c1".
Proof. vm_compute. reflexivity. Qed.
Example hmac_jefe : hex_EncodeToString (hmac_sha256 (bytes_of "Jefe") (bytes_of "what do ya want for nothing?")) =
  "5bdcc146bf60754e6a042426089575c75a003f089d2739839dec58b964ec3843".
Proof. vm_compute. reflexivity. Qed.
Example base64_rfc4648 : List.map (fun s => base64 false (bytes_of s)) ["f"; "fo"; "foo"; "foob"; "fooba"; "foobar"]
  = ["Zg=="; "Zm8="; "Zm9v"; "Zm9vYg=="; "Zm9vYmE="; "Zm9vYmFy"].
Proof. vm_compute. reflexivity. Qed.

(** ** Lengths *)

Lemma hex_length l : String.length (hex_EncodeToString l) = (2 * length l)%nat.
Proof. induction l as [|b l IH]; cbn; [done|]. rewrite IH. lia. Qed.

Lemma sha_round_length st kw : length (sha_round st kw) = length st.
Proof. by do 9 (destruct st as [|? st]; [done|]). Qed.

Lemma sha_rounds_length l st : length (fold_left sha_round l st) = length st.
Proof. revert st. induction l as [|kw l IH]; intros st; cbn; [done|]. by rewrite IH, sha_round_length. Qed.

Lemma sha_blocks_length n l st : length (sha_blocks n l st) = length st.
Proof.
  revert l st. induction n as [|n IH]; intros l st; cbn; [done|]. rewrite IH.
  unfold sha_block. rewrite length_zip_with, sha_rounds_length. lia.
Qed.

Lemma Sum256_length l : length (Sum256 l) = 32%nat.
Proof.
  unfold Sum256. set (ws := sha_blocks _ _ _).
  assert (length ws = 8%nat) as H by apply sha_blocks_length. clearbody ws.
  assert (forall k, length (concat (List.map be_bytes k)) = (4 * length k)%nat) as E.
  { induction k as [|w k IH]; cbn; [done|]. rewrite IH. lia. }
  rewrite E. lia.
Qed.

Lemma land_byte n : (N.land n 255 < 256)%N.
Proof. change 255%N with (N.ones 8). rewrite N.land_ones. by apply N.mod_lt. Qed.

Lemma Sum256_bytes l : Forall (fun b => b < 256)%N (Sum256 l).
Proof.
  unfold Sum256. generalize (sha_blocks (length (sha_pad l) / 64) (sha_pad l) sha_init). intros ws.
  induction ws as [|w ws IH]; [constructor|]. cbn [List.map concat]. apply Forall_app. split; [|done].
  repeat constructor; apply land_byte.
Qed.

(** Every character of a digest is a hexadecimal digit. *)
Lemma hex_char_digit n : (n < 16)%N -> hex_val (hex_char n) = Some n.
Proof.
  intros H. assert (Forall (fun k => hex_val (hex_char (N.of_nat k)) = Some (N.of_nat k)) (seq 0 16)) as Hf.
  { cbn [seq]. repeat constructor. }
  rewrite Forall_forall in Hf. specialize (Hf (N.to_nat n)). rewrite N2Nat.id in Hf. apply Hf. apply elem_of_seq. lia.
Qed.

Lemma hex_digits l : Forall (fun b => b < 256)%N l ->
  forall c, string_mem c (hex_EncodeToString l) = true -> exists n, hex_val c = Some n.
Proof.
  induction 1 as [|b l Hb _ IH]; intros c Hc; [done|]. cbn in Hc. rewrite !orb_true_iff in Hc.
  destruct Hc as [Hc|[Hc|Hc]]; [..|by apply IH]; apply Ascii.eqb_eq in Hc as ->; eexists; apply hex_char_digit.
  - rewrite N.shiftr_div_pow2. change (2 ^ 4)%N with 16%N. by apply N.Div0.div_lt_upper_bound.
  - change 15%N with (N.ones 4). rewrite N.land_ones. by apply N.mod_lt.
Qed.
