(* ===== verification/Url.v ===== *)
(** * URLs and IP addresses ([net/url], [net/netip] as of Go 1.25)

    [ParseRequestURI] with what the code reads of its result, [Hostname], and
    [net.ParseIP(...).IsLoopback()]. *)

From S2P Require Import Prelude Json.

(** ** Splitting *)

Definition char_in (chars : string) (c : ascii) : bool := string_mem c chars.

(** [strings.Cut] by one byte. *)
Fixpoint cut (sep : ascii) (s : string) : string * string * bool :=
  match s with
  | EmptyString => (EmptyString, EmptyString, false)
  | String c r =>
      if Ascii.eqb c sep then (EmptyString, r, true)
      else let '(a, b, ok) := cut sep r in (String c a, b, ok)
  end.

(** The text before and after the last occurrence of a byte. *)
Definition cut_last (sep : ascii) (s : string) : option (string * string) :=
  let '(a, b, ok) := cut sep (string_rev s) in
  if ok then Some (string_rev b, string_rev a) else None.

Fixpoint string_count (c : ascii) (s : string) : nat :=
  match s with
  | EmptyString => 0
  | String d r => (if Ascii.eqb c d then 1 else 0) + string_count c r
  end.

Fixpoint string_forall (p : ascii -> bool) (s : string) : bool :=
  match s with EmptyString => true | String c r => p c && string_forall p r end.

Definition is_letter (c : ascii) : bool := in_range 65 90 c || in_range 97 122 c.
Definition is_alnum (c : ascii) : bool := is_letter c || digit c.

(** ** Escapes *)

Inductive encoding := encodePath | encodeUserPassword | encodeHost | encodeZone.

(** [shouldEscape(c, encodeHost)], the same for a zone. *)
Definition host_escape (c : ascii) : bool :=
  negb (is_alnum c || char_in "!$&'()*+,;=:[]<>-_.~" c || Ascii.eqb c "034").

Definition hex_byte (a b : ascii) : option N :=
  match hex_val a, hex_val b with Some x, Some y => Some (16 * x + y)%N | _, _ => None end.

Definition escape_allowed (mode : encoding) (v : N) : bool :=
  let percent := (v =? 37)%N in
  match mode with
  | encodeHost => percent || (128 <=? v)%N
  | encodeZone => percent || (v =? 32)%N || negb (host_escape (ascii_of_N v))
  | _ => true
  end.

(** [unescape] outside queries; [None] is an [EscapeError] or an
    [InvalidHostError]. *)
Fixpoint unescape (mode : encoding) (s : string) : option string :=
  match s with
  | EmptyString => Some EmptyString
  | String "%" (String a (String b r)) =>
      match hex_byte a b with
      | Some v =>
          if escape_allowed mode v then
            match unescape mode r with Some t => Some (String (ascii_of_N v) t) | None => None end
          else None
      | None => None
      end
  | String "%" _ => None
  | String c r =>
      let bad := match mode with
                 | encodeHost | encodeZone => (byte_val c <? 128)%N && host_escape c
                 | _ => false
                 end in
      if bad then None else match unescape mode r with Some t => Some (String c t) | None => None end
  end.

(** ** The parser *)

Record URL := {
  Scheme : string;
  Opaque : string;
  HasUser : bool;
  Host : string;
  UPath : string;
  RawQuery : string;
  Fragment : string;
}.

(** [getScheme]: the scheme and the rest; [None] is "missing protocol scheme". *)
Fixpoint getScheme_go (acc s : string) : option (string * string) :=
  let none := Some (EmptyString, (string_rev acc +:+ s)%string) in
  match s with
  | EmptyString => none
  | String c r =>
      if is_letter c then getScheme_go (String c acc) r
      else if digit c || char_in "+-." c then
        if string_empty acc then none else getScheme_go (String c acc) r
      else if Ascii.eqb c ":" then
        if string_empty acc then None else Some (string_rev acc, r)
      else none
  end.
Definition getScheme : string -> option (string * string) := getScheme_go EmptyString.

Definition validOptionalPort (port : string) : bool :=
  match port with
  | EmptyString => true
  | String c r => Ascii.eqb c ":" && string_forall digit r
  end.

Definition validUserinfo : string -> bool :=
  string_forall (fun c => is_alnum c || char_in "-._:~!$&'()*+,;=%@" c).

(** Where the byte string [%25] starts. *)
Fixpoint cut_zone (s : string) : option (string * string) :=
  if strings_HasPrefix s "%25" then Some (EmptyString, s)
  else match s with
       | EmptyString => None
       | String c r => match cut_zone r with Some (a, b) => Some (String c a, b) | None => None end
       end.

Definition opt_app (l : list (option string)) : option string :=
  fold_right (fun o acc => match o, acc with Some a, Some b => Some (a +:+ b)%string | _, _ => None end) (Some EmptyString) l.

Definition parseHost (host : string) : option string :=
  if strings_HasPrefix host "[" then
    match cut_last "]" host with
    | None => None
    | Some (inside, colonPort) =>
        if negb (validOptionalPort colonPort) then None
        else
          match cut_zone inside with
          | Some (address, zone) =>
              opt_app [unescape encodeHost address; unescape encodeZone zone; unescape encodeHost ("]" +:+ colonPort)%string]
          | None => unescape encodeHost host
          end
    end
  else
    match cut_last ":" host with
    | Some (_, port) =>
        if validOptionalPort (":" +:+ port)%string then unescape encodeHost host else None
    | None => unescape encodeHost host
    end.

(** [parseAuthority]: whether there is user info, and the host. *)
Definition parseAuthority (authority : string) : option (bool * string) :=
  match cut_last "@" authority with
  | None => match parseHost authority with Some h => Some (false, h) | None => None end
  | Some (userinfo, host) =>
      match parseHost host with
      | None => None
      | Some h =>
          if negb (validUserinfo userinfo) then None
          else
            let '(username, password, _) := cut ":" userinfo in
            match unescape encodeUserPassword username, unescape encodeUserPassword password with
            | Some _, Some _ => Some (true, h)
            | _, _ => None
            end
      end
  end.

Definition ctl_byte (c : ascii) : bool := (byte_val c <? 32)%N || (byte_val c =? 127)%N.

(** The query is cut at the first ["?"]; a single one at the end is
    [ForceQuery]. Both leave the same [RawQuery]. *)
Definition with_path (scheme : string) (user : bool) (host rest query : string) : option URL :=
  match unescape encodePath rest with
  | Some p => Some {| Scheme := scheme; Opaque := EmptyString; HasUser := user; Host := host; UPath := p;
                      RawQuery := query; Fragment := EmptyString |}
  | None => None
  end.

(** [parse(rawURL, viaRequest)]; [None] is any error. *)
Definition url_parse (viaRequest : bool) (rawURL : string) : option URL :=
  if negb (string_forall (fun c => negb (ctl_byte c)) rawURL) then None
  else if string_empty rawURL && viaRequest then None
  else if String.eqb rawURL "*" then
    Some {| Scheme := EmptyString; Opaque := EmptyString; HasUser := false; Host := EmptyString; UPath := "*";
            RawQuery := EmptyString; Fragment := EmptyString |}
  else
    match getScheme rawURL with
    | None => None
    | Some (scheme0, rest0) =>
        let scheme := strings_ToLower scheme0 in
        let '(rest, query, _) := cut "?" rest0 in
        let rootless := negb (strings_HasPrefix rest "/") in
        if rootless && negb (string_empty scheme) then
          Some {| Scheme := scheme; Opaque := rest; HasUser := false; Host := EmptyString; UPath := EmptyString;
                  RawQuery := query; Fragment := EmptyString |}
        else if rootless && viaRequest then None
        else if rootless && string_mem ":" (cut "/" rest).1.1 then None
        else if (negb (string_empty scheme) || negb viaRequest && negb (strings_HasPrefix rest "///")) &&
                strings_HasPrefix rest "//" then
          let after := strings_TrimPrefix rest "//" in
          let '(authority, path, slash) := cut "/" after in
          match parseAuthority authority with
          | None => None
          | Some (user, host) => with_path scheme user host (if slash then String "/" path else EmptyString) query
          end
        else with_path scheme false EmptyString rest query
    end.

(** [url.ParseRequestURI] does not split off a fragment. *)
Definition ParseRequestURI : string -> option URL := url_parse true.

(** [url.Parse] does. *)
Definition Parse (rawURL : string) : option URL :=
  let '(u, frag, _) := cut "#" rawURL in
  match url_parse false u, unescape encodePath frag with
  | Some url, Some f =>
      Some {| Scheme := Scheme url; Opaque := Opaque url; HasUser := HasUser url; Host := Host url; UPath := UPath url;
              RawQuery := RawQuery url; Fragment := f |}
  | _, _ => None
  end.

(** [u.Hostname()]. *)
Definition strip_brackets (host : string) : string :=
  if strings_HasPrefix host "[" && strings_HasSuffix host "]" && (2 <=? String.length host)%nat
  then substring 1 (String.length host - 2) host else host.

Definition Hostname (u : URL) : string :=
  let host :=
    match cut_last ":" (Host u) with
    | Some (h, port) => if validOptionalPort (":" +:+ port)%string then h else Host u
    | None => Host u
    end in
  strip_brackets host.

(** ** IP addresses *)

(** One dotted field: decimal without leading zeros, at most 255. *)
Definition ipv4_octet (s : string) : option N :=
  match s with
  | EmptyString => None
  | String "0" (String _ _) => None
  | _ =>
      if (String.length s <=? 3)%nat && string_forall digit s then
        let v := fold_left (fun acc c => 10 * acc + (byte_val c - 48))%N (list_ascii_of_string s) 0%N in
        if (v <=? 255)%N then Some v else None
      else None
  end.

Definition parseIPv4 (s : string) : option (list N) :=
  match List.map ipv4_octet (split_on "." s) with
  | [Some a; Some b; Some c; Some d] => Some [a; b; c; d]
  | _ => None
  end.

(** The leading hex digits and the rest. *)
Fixpoint hex_run (s : string) (acc : N) (n : nat) : N * nat * string :=
  match s with
  | String c r => match hex_val c with
                  | Some d => hex_run r (16 * acc + d)%N (S n)
                  | None => (acc, n, s)
                  end
  | EmptyString => (acc, n, s)
  end.

(** [parseIPv6]'s loop: the bytes read so far and where the ellipsis was.
    Every round reads a group, so eight rounds fill the address. *)
Fixpoint ipv6_groups (fuel : nat) (s : string) (ip : list N) (ellipsis : option nat) : option (list N * option nat) :=
  match fuel with
  | O => if string_empty s then Some (ip, ellipsis) else None
  | S f =>
      let '(acc, n, rest) := hex_run s 0%N 0%nat in
      if ((n =? 0) || (4 <? n))%nat then None
      else
        match rest with
        | String "." _ =>
            match ellipsis with
            | None => if negb (length ip =? 12)%nat then None
                      else match parseIPv4 s with Some v4 => Some (ip ++ v4, ellipsis) | None => None end
            | Some _ => if (16 <? length ip + 4)%nat then None
                        else match parseIPv4 s with Some v4 => Some (ip ++ v4, ellipsis) | None => None end
            end
        | EmptyString => Some (ip ++ [(acc / 256)%N; (acc mod 256)%N], ellipsis)
        | String ":" EmptyString => None
        | String ":" r =>
            let ip' := ip ++ [(acc / 256)%N; (acc mod 256)%N] in
            match r with
            | String ":" r' =>
                match ellipsis with
                | Some _ => None
                | None => if string_empty r' then Some (ip', Some (length ip')) else ipv6_groups f r' ip' (Some (length ip'))
                end
            | _ => ipv6_groups f r ip' ellipsis
            end
        | _ => None
        end
  end.

Definition expand_ellipsis (r : list N * option nat) : option (list N) :=
  let '(ip, ellipsis) := r in
  match ellipsis with
  | None => if (length ip =? 16)%nat then Some ip else None
  | Some k => if (length ip <? 16)%nat then Some (take k ip ++ repeat 0%N (16 - length ip) ++ drop k ip) else None
  end.

(** Addresses with a zone are not IPs for [net.ParseIP]. *)
Definition parseIPv6 (s : string) : option (list N) :=
  if string_mem "%" s then None
  else
    match strip_prefix "::" s with
    | Some EmptyString => Some (repeat 0%N 16)
    | Some r => match ipv6_groups 8 r [] (Some 0%nat) with Some x => expand_ellipsis x | None => None end
    | None => match ipv6_groups 8 s [] None with Some x => expand_ellipsis x | None => None end
    end.

(** The first of ["."], [":"], ["%"] decides the family. *)
Fixpoint ip_family (s : string) : option ascii :=
  match s with
  | EmptyString => None
  | String c r => if char_in ".:%" c then Some c else ip_family r
  end.

Definition ParseIP (s : string) : option (list N) :=
  match ip_family s with
  | Some "."%char => match parseIPv4 s with Some v4 => Some (repeat 0%N 10 ++ [255%N; 255%N] ++ v4) | None => None end
  | Some ":"%char => parseIPv6 s
  | _ => None
  end.

(** [ip.IsLoopback()]: [127.0.0.0/8], also as a mapped address, and [::1]. *)
Definition IsLoopback (ip : list N) : bool :=
  if bool_decide (take 12 ip = repeat 0%N 10 ++ [255%N; 255%N]) then bool_decide (nth 12 ip 0%N = 127%N)
  else bool_decide (ip = repeat 0%N 15 ++ [1%N]).

Example url_examples :
  option_map (fun u => (Scheme u, HasUser u, Host u, UPath u, RawQuery u)) (ParseRequestURI "HTTPS://u:p@h.example:8443/a%20b?x=1#f")
    = Some ("https"%string, true, "h.example:8443"%string, "/a b"%string, "x=1#f"%string) /\
  option_map Hostname (ParseRequestURI "http://[::1]:80/") = Some "::1"%string /\
  ParseRequestURI "http://h:8x/" = None /\ ParseRequestURI "h/p" = None /\ ParseRequestURI "http://a b/" = None /\
  option_map Host (ParseRequestURI "mailto:x") = Some EmptyString.
Proof. vm_compute. repeat split. Qed.

Example ip_examples :
  option_map IsLoopback (ParseIP "127.9.9.9") = Some true /\ option_map IsLoopback (ParseIP "::1") = Some true /\
  option_map IsLoopback (ParseIP "::ffff:127.0.0.1") = Some true /\ option_map IsLoopback (ParseIP "10.0.0.1") = Some false /\
  ParseIP "127.0.0.01" = None /\ ParseIP "1:2:3:4:5:6:7:8:9" = None /\ ParseIP "fe80::1%eth0" = None /\
  option_map IsLoopback (ParseIP "0:0:0:0:0:0:0:1") = Some true /\ ParseIP "1::2::3" = None /\ ParseIP "localhost" = None.
Proof. vm_compute. repeat split. Qed.

Example parse_examples :
  option_map Fragment (Parse "https://h/p#x%20y") = Some "x y"%string /\ Parse " https://h/" = None /\
  option_map Host (Parse "//h/p") = Some "h"%string /\ option_map UPath (Parse EmptyString) = Some EmptyString.
Proof. vm_compute. repeat split. Qed.

(** A request URI never has a fragment. *)
Lemma ParseRequestURI_fragment raw u : ParseRequestURI raw = Some u -> Fragment u = EmptyString.
Proof.
  unfold ParseRequestURI, url_parse, with_path. intros H. repeat case_match; by simplify_eq/=.
Qed.
