(* ===== verification/Domain.v ===== *)
(** * The event row and its result documents ([internal/domain])

    [Event] mirrors one row of [notification_event]; the three
    [LastResult...] structs are the documents [last_result] can hold, with
    the JSON object [json.Marshal] makes of each. *)

From S2P Require Import Prelude Json.

(** [uuid.UUID]: only its equality is used. *)
Abbreviation UUID := N.

(** The status column.  The zero value of the Go string type is the status of
    an event that was never stored. *)
Inductive Status :=
| StatusUnset | StatusPending | StatusProcessing | StatusSucceeded | StatusFailed | StatusUnknown.

#[export] Instance Status_eq_dec : EqDecision Status.
Proof. solve_decision. Defined.

Definition Status_string (s : Status) : string :=
  match s with
  | StatusUnset => EmptyString
  | StatusPending => "PENDING"
  | StatusProcessing => "PROCESSING"
  | StatusSucceeded => "SUCCEEDED"
  | StatusFailed => "FAILED"
  | StatusUnknown => "UNKNOWN"
  end.

(** Instants are nanoseconds since the epoch.  [Payload] is the text of the
    document; [LastResult] and [ProviderResponse] are the documents themselves,
    [None] for a nil [json.RawMessage] and a NULL column. *)
Record Event := mkEvent {
  ID : UUID;
  SourceSystem : string;
  SourceRequestID : string;
  ProviderCode : string;
  ProviderAction : string;
  Payload : string;
  EvStatus : Status;
  AttemptCount : Z;
  NextAttemptAt : Z;
  EnqueuedAt : option Z;
  LeaseToken : option UUID;
  LeaseUntil : option Z;
  LastResult : option json;
  ProviderResponse : option json;
  CreatedAt : Z;
  UpdatedAt : Z;
}.

Definition PhaseClaimed : string := "CLAIMED".
Definition PhaseRequesting : string := "REQUESTING".

Record LastResultClaimed := { Claimed_Phase : string; ClaimedAt : Z }.
Record LastResultRequesting := { Requesting_Phase : string; StartedAt : Z }.

Definition OutcomeRequeueRequested : string := "REQUEUE_REQUESTED".
Definition OutcomeSucceeded : string := "SUCCEEDED".
Definition OutcomeFailed : string := "FAILED".

Record LastResultFinished := mkFinished {
  Outcome : string;
  HTTPStatus : Z;
  ErrorClass : string;
  Message : string;
  RequestMayHaveBeenSent : bool;
  Retryable : bool;
  Finished_NextAttemptAt : option Z;
  LatencyMs : Z;
  AttemptNumber : Z;
  FinishedAt : Z;
}.

(** The zero value, from which the composite literals set some fields. *)
Definition zero_finished : LastResultFinished :=
  {| Outcome := EmptyString; HTTPStatus := 0; ErrorClass := EmptyString; Message := EmptyString;
     RequestMayHaveBeenSent := false; Retryable := false; Finished_NextAttemptAt := None;
     LatencyMs := 0; AttemptNumber := 0; FinishedAt := 0 |}.


Definition marshal_claimed (r : LastResultClaimed) : json :=
  JObj (field "phase" (JStr (Claimed_Phase r)) ++ field "claimed_at" (JTime (ClaimedAt r))).

Definition marshal_requesting (r : LastResultRequesting) : json :=
  JObj (field "phase" (JStr (Requesting_Phase r)) ++ field "started_at" (JTime (StartedAt r))).

Definition marshal_finished (r : LastResultFinished) : json :=
  JObj (field "outcome" (JStr (Outcome r)) ++
        field_omitempty "http_status" (HTTPStatus r =? 0) (JInt (HTTPStatus r)) ++
        field_omitempty "error_class" (string_empty (ErrorClass r)) (JStr (ErrorClass r)) ++
        field_omitempty "message" (string_empty (Message r)) (JStr (Message r)) ++
        field_omitempty "request_may_have_been_sent" (negb (RequestMayHaveBeenSent r)) (JBool (RequestMayHaveBeenSent r)) ++
        field_omitempty "retryable" (negb (Retryable r)) (JBool (Retryable r)) ++
        field_omitempty "next_attempt_at" (match Finished_NextAttemptAt r with None => true | Some _ => false end)
          (match Finished_NextAttemptAt r with Some t => JTime t | None => JNull end) ++
        field_omitempty "latency_ms" (LatencyMs r =? 0) (JInt (LatencyMs r)) ++
        field "attempt_number" (JInt (AttemptNumber r)) ++
        field "finished_at" (JTime (FinishedAt r))).

(** The sanitized vendor response stored in [provider_response]. *)
Record ProviderResponseDoc := {
  PR_HTTPStatus : Z;
  PR_ContentType : string;
  PR_Headers : list (string * string);
  PR_Body : option json;
  PR_ContentLength : Z;
  PR_BodyDigest : string;
  PR_ReceivedAt : Z;
  PR_Truncated : bool;
}.

Definition marshal_provider_response (r : ProviderResponseDoc) : json :=
  JObj (field "http_status" (JInt (PR_HTTPStatus r)) ++
        field_omitempty "content_type" (string_empty (PR_ContentType r)) (JStr (PR_ContentType r)) ++
        field_omitempty "headers" (match PR_Headers r with [] => true | _ => false end)
          (JObj (map_of_members (List.map (fun kv => (kv.1, JStr kv.2)) (PR_Headers r)))) ++
        field_omitempty "body" (match PR_Body r with None => true | Some _ => false end) (default JNull (PR_Body r)) ++
        field_omitempty "content_length" (PR_ContentLength r =? 0) (JInt (PR_ContentLength r)) ++
        field_omitempty "body_digest" (string_empty (PR_BodyDigest r)) (JStr (PR_BodyDigest r)) ++
        field "received_at" (JTime (PR_ReceivedAt r)) ++
        field "truncated" (JBool (PR_Truncated r))).

(** ** What readers of [last_result] see *)

Ltac assoc_skip :=
  repeat (rewrite assoc_last_app || rewrite assoc_last_omitempty by discriminate).

Lemma finished_outcome r : json_get "outcome" (marshal_finished r) = Some (JStr (Outcome r)).
Proof.
  unfold marshal_finished, json_get. rewrite assoc_last_app.
  by assoc_skip.
Qed.

Lemma finished_phase r : json_get "phase" (marshal_finished r) = None.
Proof. unfold marshal_finished, json_get. rewrite assoc_last_app. by assoc_skip. Qed.

Lemma claimed_phase r : json_get "phase" (marshal_claimed r) = Some (JStr (Claimed_Phase r)).
Proof. reflexivity. Qed.

Lemma requesting_phase r : json_get "phase" (marshal_requesting r) = Some (JStr (Requesting_Phase r)).
Proof. reflexivity. Qed.

Lemma claimed_outcome r : json_get "outcome" (marshal_claimed r) = None.
Proof. reflexivity. Qed.

Lemma requesting_outcome r : json_get "outcome" (marshal_requesting r) = None.
Proof. reflexivity. Qed.

#[export] Hint Rewrite finished_outcome finished_phase claimed_phase requesting_phase
  claimed_outcome requesting_outcome : gp.
