(* ===== verification/Mq.v ===== *)
(** * The message-queue boundary ([internal/mq/mq.go])

    The delivery record, the requeue-delay policy shared by the three
    backends, the typed requeue error, and the checks the constructors run on
    the requeue configuration. *)

From S2P Require Import Prelude Errors Json JsonText JsonSpec Domain.

Record PublishResult := { Durable : bool }.

Record Delivery := mkDelivery {
  EventID : UUID;
  Attempts : Z;
  MaxAttempts : Z;
  RequeueDelay : Z;
  defaultRequeueDelay : Z;
  maxRequeueDelay : Z;
}.

Record RequeueConfig := {
  DefaultRequeueDelay : Z;
  MaxRequeueDelay : Z;
  CfgMaxAttempts : Z;
}.

(** [time.Duration] is [int64] and Go's [/] truncates. *)
Definition linearRequeueDelay (attempts defaultDelay maxDelay : Z) : Z :=
  let attempts := if attempts =? 0 then 1 else attempts in
  if defaultDelay <=? 0 then 0
  else if (0 <? maxDelay) && (Z.quot maxDelay defaultDelay <? attempts) then maxDelay
  else
    let delay := int64 (defaultDelay * attempts) in
    if (0 <? maxDelay) && (maxDelay <? delay) then maxDelay else delay.

Definition RequeueDelayFor (d : Delivery) (attempt : Z) : Z :=
  if 0 <? defaultRequeueDelay d
  then linearRequeueDelay attempt (defaultRequeueDelay d) (maxRequeueDelay d)
  else RequeueDelay d.

Definition RequestRequeue (cause : option error) (delay : Z) (backoff : bool) : error :=
  ERequeue cause (if delay <? 0 then 0 else delay) backoff.

(** (delay, backoff, explicitly requested) *)
Definition requestedRequeue (err : error) (fallback : Z) : Z * bool * bool :=
  match errors_As_Requeue err with
  | Some (delay, backoff) => (delay, backoff, true)
  | None => (fallback, true, false)
  end.

Definition validateRequeueConfig (driver : string) (cfg : RequeueConfig) : option error :=
  if DefaultRequeueDelay cfg <=? 0 then
    Some (EString ("mq: " +:+ driver +:+ " default_requeue_delay must be greater than zero")%string)
  else if MaxRequeueDelay cfg <? DefaultRequeueDelay cfg then
    Some (EString ("mq: " +:+ driver +:+ " max_requeue_delay must be greater than or equal to default_requeue_delay")%string)
  else if 32767 <? CfgMaxAttempts cfg then
    Some (EString ("mq: " +:+ driver +:+ " max_attempts must not exceed notification_event.attempt_count limit 32767")%string)
  else None.

(** ** The message body

    Only the event id travels.  [uuid_string] and [uuid_parse] are the
    [google/uuid] functions. *)
Section envelope.
Context (uuid_string : UUID -> string) (uuid_parse : string -> option UUID).

Definition encode (id : UUID) : string :=
  print (JObj (field "event_id" (JStr (uuid_string id)))).

Definition decode (body : string) : res UUID :=
  match json_unmarshal body with
  | None => Err (EWrap "decode mq envelope: " (EString "invalid JSON") EmptyString)
  | Some j =>
      let event_id :=
        match j with
        | JObj m => into_string EmptyString (members_of ["event_id"] "event_id" m)
        | JNull => Some EmptyString
        | _ => None
        end in
      match event_id with
      | None => Err (EWrap "decode mq envelope: " (EString "cannot unmarshal into envelope") EmptyString)
      | Some s =>
          match uuid_parse s with
          | None => Err (EWrap "decode mq envelope event_id: " (EString "invalid UUID") EmptyString)
          | Some id => Ok id
          end
      end
  end.
End envelope.

(** C35: A published message body is decoded to the event it was published
    for: the worker claims the row the publisher wrote. *)
Theorem envelope_roundtrip (uuid_string : UUID -> string) (uuid_parse : string -> option UUID) id :
  utf8 (uuid_string id) -> uuid_parse (uuid_string id) = Some id ->
  decode uuid_parse (encode uuid_string id) = Ok id.
Proof.
  intros Hu Hp. unfold decode, encode. rewrite json_unmarshal_print.
  - change (members_of _ _ _) with [JStr (uuid_string id)]. cbn [into_string]. by rewrite Hp.
  - apply (wf_obj (pred max_depth)). by repeat constructor.
Qed.

(** The delivery a backend builds from its configuration for a message on its
    [attempts]-th transport. *)
Definition make_delivery (cfg : RequeueConfig) (id : UUID) (attempts : Z) : Delivery :=
  {| EventID := id; Attempts := attempts; MaxAttempts := CfgMaxAttempts cfg;
     RequeueDelay := linearRequeueDelay attempts (DefaultRequeueDelay cfg) (MaxRequeueDelay cfg);
     defaultRequeueDelay := DefaultRequeueDelay cfg; maxRequeueDelay := MaxRequeueDelay cfg |}.

(** ** Properties of the delay policy *)

Section delay.
Context (attempts dflt mx : Z).
Hypothesis Ha : 0 <= attempts < 2 ^ 32.
Hypothesis Hd : 0 < dflt.
Hypothesis Hm : dflt <= mx <= max_int64.

(** The comparison made before the multiplication is the exact one. *)
Lemma delay_cap_test : (Z.quot mx dflt <? Z.max 1 attempts) = (mx <? dflt * Z.max 1 attempts).
Proof using All.
  rewrite Z.quot_div_nonneg by lia.
  pose proof (Z.div_mod mx dflt ltac:(lia)) as E.
  pose proof (Z.mod_pos_bound mx dflt Hd).
  destruct (Z.ltb_spec (mx / dflt) (Z.max 1 attempts)), (Z.ltb_spec mx (dflt * Z.max 1 attempts));
    try reflexivity; nia.
Qed.

Lemma linearRequeueDelay_min :
  linearRequeueDelay attempts dflt mx = Z.min (dflt * Z.max 1 attempts) mx.
Proof using All.
  unfold linearRequeueDelay.
  replace (if attempts =? 0 then 1 else attempts) with (Z.max 1 attempts)
    by (destruct (Z.eqb_spec attempts 0); lia).
  replace (dflt <=? 0) with false by lia. replace (0 <? mx) with true by lia.
  rewrite !andb_true_l, delay_cap_test.
  destruct (Z.ltb_spec mx (dflt * Z.max 1 attempts)); [lia|].
  rewrite int64_small by (unfold min_int64, max_int64 in *; nia).
  destruct (Z.ltb_spec mx (dflt * Z.max 1 attempts)); lia.
Qed.
End delay.
#[export] Hint Rewrite linearRequeueDelay_min using lia : gp.

Lemma validateRequeueConfig_None driver cfg :
  validateRequeueConfig driver cfg = None <->
  0 < DefaultRequeueDelay cfg <= MaxRequeueDelay cfg /\ CfgMaxAttempts cfg <= 32767.
Proof.
  unfold validateRequeueConfig.
  destruct (Z.leb_spec (DefaultRequeueDelay cfg) 0); [split; [done|lia]|].
  destruct (Z.ltb_spec (MaxRequeueDelay cfg) (DefaultRequeueDelay cfg)); [split; [done|lia]|].
  destruct (Z.ltb_spec 32767 (CfgMaxAttempts cfg)); split; (done || lia).
Qed.

Lemma RequestRequeue_roundtrip cause delay backoff fallback :
  requestedRequeue (RequestRequeue cause delay backoff) fallback = (Z.max 0 delay, backoff, true).
Proof.
  unfold requestedRequeue, RequestRequeue; cbn.
  destruct (Z.ltb_spec delay 0); repeat f_equal; lia.
Qed.
#[export] Hint Rewrite RequestRequeue_roundtrip : gp.

(** C34: Under a configuration the constructors accept, the delay before the next
    attempt is the default times the attempt number, capped at the maximum:
    no [int64] overflow distorts it, it is at least the default and at most
    the maximum, and it never decreases from one attempt to the next. *)
Theorem requeue_delay_policy driver cfg id n attempt :
  validateRequeueConfig driver cfg = None -> MaxRequeueDelay cfg <= max_int64 -> 0 <= attempt < 2 ^ 32 - 1 ->
  let delay k := RequeueDelayFor (make_delivery cfg id n) k in
  delay attempt = Z.min (DefaultRequeueDelay cfg * Z.max 1 attempt) (MaxRequeueDelay cfg) /\
  DefaultRequeueDelay cfg <= delay attempt <= MaxRequeueDelay cfg /\
  delay attempt <= delay (attempt + 1).
Proof.
  intros Hv Hm Ha. apply validateRequeueConfig_None in Hv as [Hd _].
  unfold RequeueDelayFor, make_delivery. cbn [defaultRequeueDelay maxRequeueDelay].
  replace (0 <? DefaultRequeueDelay cfg) with true by lia. rewrite !linearRequeueDelay_min by lia. nia.
Qed.
