(* ===== verification/Memory.v ===== *)
(** * The in-process queue ([internal/mq/memory.go])

    A buffered channel of wake-ups, a fixed pool of consumer goroutines and
    one timer goroutine per requeue. Every method body that touches the
    broker's fields holds its mutex, so it is one transition of the state;
    the handler runs between transitions. *)

From S2P Require Import Prelude Errors Domain Mq.

Record memoryMessage := mkMessage { eventID : UUID; attempts : Z }.

Record MemoryBroker := mkBroker {
  jobs_cap : Z;
  jobs : list memoryMessage;
  mb_defaultRequeueDelay : Z;
  mb_maxRequeueDelay : Z;
  mb_maxAttempts : Z;
  started : bool;
  closed : bool;
  mb_done : bool; (* the channel [done] is closed *)
}.

Definition set_jobs (b : MemoryBroker) (l : list memoryMessage) : MemoryBroker :=
  mkBroker (jobs_cap b) l (mb_defaultRequeueDelay b) (mb_maxRequeueDelay b) (mb_maxAttempts b) (started b) (closed b) (mb_done b).
Definition set_started (b : MemoryBroker) : MemoryBroker :=
  mkBroker (jobs_cap b) (jobs b) (mb_defaultRequeueDelay b) (mb_maxRequeueDelay b) (mb_maxAttempts b) true (closed b) (mb_done b).
Definition set_closed (b : MemoryBroker) : MemoryBroker :=
  mkBroker (jobs_cap b) (jobs b) (mb_defaultRequeueDelay b) (mb_maxRequeueDelay b) (mb_maxAttempts b) (started b) true (mb_done b).
Definition close_done (b : MemoryBroker) : MemoryBroker :=
  mkBroker (jobs_cap b) (jobs b) (mb_defaultRequeueDelay b) (mb_maxRequeueDelay b) (mb_maxAttempts b) (started b) (closed b) true.

Definition NewMemoryBroker (bufferSize : Z) (cfg : RequeueConfig) : res MemoryBroker :=
  if bufferSize <=? 0 then Err (EString "mq: memory buffer_size must be greater than zero")
  else
    match validateRequeueConfig "memory" cfg with
    | Some e => Err e
    | None => Ok (mkBroker bufferSize [] (DefaultRequeueDelay cfg) (MaxRequeueDelay cfg) (CfgMaxAttempts cfg) false false false)
    end.

(** [publishMessage]; [ctx_done] is the context's error when the [select]
    took that branch, which it may whenever the context is done. *)
Definition publishMessage (ctx_done : option error) (message : memoryMessage) (b : MemoryBroker) : res PublishResult * MemoryBroker :=
  if closed b then (Err (ESentinel ErrMemoryClosed), b)
  else
    match ctx_done with
    | Some e => (Err e, b)
    | None =>
        if Z.of_nat (length (jobs b)) <? jobs_cap b
        then (Ok {| Durable := false |}, set_jobs b (jobs b ++ [message]))
        else (Err (ESentinel ErrMemoryQueueFull), b)
    end.

Definition Publish (ctx_done : option error) (id : UUID) (b : MemoryBroker) : res PublishResult * MemoryBroker :=
  publishMessage ctx_done (mkMessage id 1) b.

(** [Start]: the error, the broker, and how many consumers were launched. *)
Definition Start (handler_nil : bool) (concurrency : Z) (b : MemoryBroker) : option error * MemoryBroker * Z :=
  if handler_nil then (Some (EString "mq: memory handler must not be nil"), b, 0)
  else
    let concurrency := if concurrency <? 1 then 1 else concurrency in
    if closed b then (Some (ESentinel ErrMemoryClosed), b, 0)
    else if started b then (Some (EString "mq: memory consumer already started"), b, 0)
    else (None, set_started b, concurrency).

(** The delivery [consume] hands to the handler. *)
Definition delivery_of (b : MemoryBroker) (message : memoryMessage) : Delivery :=
  make_delivery {| DefaultRequeueDelay := mb_defaultRequeueDelay b; MaxRequeueDelay := mb_maxRequeueDelay b;
                   CfgMaxAttempts := mb_maxAttempts b |} (eventID message) (attempts message).

(** What [consume] does with the handler's result: [None] acknowledges,
    otherwise the message is requeued after the delay. *)
Definition after_handler (b : MemoryBroker) (message : memoryMessage) (err : option error) : option Z :=
  match err with
  | None => None
  | Some e =>
      let delay := linearRequeueDelay (attempts message) (mb_defaultRequeueDelay b) (mb_maxRequeueDelay b) in
      Some (requestedRequeue e delay).1.1
  end.

(** [attempts + 1] that stays at the largest [uint32]. *)
Definition next_attempts (attempts : Z) : Z :=
  let n := uint32 (attempts + 1) in if n =? 0 then attempts else n.

(** [requeueAfter] once its timer fired. *)
Definition requeueAfter (ctx_done : option error) (message : memoryMessage) (b : MemoryBroker) : res PublishResult * MemoryBroker :=
  publishMessage ctx_done (mkMessage (eventID message) (next_attempts (attempts message))) b.

Definition Ready (b : MemoryBroker) : option error :=
  if closed b then Some (ESentinel ErrMemoryClosed)
  else if negb (started b) then Some (EString "mq: memory consumer has not started")
  else None.

(** What [Close] does under the mutex; then it waits for the consumers, and
    for the requeues ([closing] below). *)
Definition Close (b : MemoryBroker) : MemoryBroker := close_done (set_closed b).

(** ** The broker with its goroutines

    [idle] consumers wait for a message, [busy] ones run the handler on one,
    [timers] are the requeue goroutines; [ctx_done] is the context [Start]
    was given, which they watch too. [acked] and [dropped] record what left:
    acknowledged, or refused by [publishMessage] or a stop. *)
Inductive closing := Open | WaitWorkers | WaitRequeues | Returned.

Record msys := mkMsys {
  ms_broker : MemoryBroker;
  ms_ctx_done : bool;
  ms_closing : closing;
  ms_pool : Z;
  ms_idle : nat;
  ms_busy : list memoryMessage;
  ms_timers : list memoryMessage;
  ms_accepted : list UUID;
  ms_acked : list UUID;
  ms_dropped : list UUID;
}.

(** [ctx.Done] or [b.done] is closed. *)
Definition stopping (b : MemoryBroker) (cd : bool) : bool := cd || mb_done b.

(** What callers do: [Publish], [Start], cancelling its context, and the call
    of [Close] that [closeOnce] lets in; any other waits for that one. *)
Inductive ecall : msys -> msys -> Prop :=
| m_publish b cd c p i bu t ac ak dr ctx id r b' :
    Publish ctx id b = (r, b') ->
    ecall (mkMsys b cd c p i bu t ac ak dr)
          (mkMsys b' cd c p i bu t (match r with Ok _ => id :: ac | Err _ => ac end) ak dr)
| m_start b cd c p i bu t ac ak dr h n0 b' n :
    Start h n0 b = (None, b', n) ->
    ecall (mkMsys b cd c p i bu t ac ak dr) (mkMsys b' cd c n (i + Z.to_nat n) bu t ac ak dr)
| m_cancel b cd c p i bu t ac ak dr :
    ecall (mkMsys b cd c p i bu t ac ak dr) (mkMsys b true c p i bu t ac ak dr)
| m_close b cd p i bu t ac ak dr :
    ecall (mkMsys b cd Open p i bu t ac ak dr) (mkMsys (Close b) cd WaitWorkers p i bu t ac ak dr).

(** What the broker's goroutines and a waiting [Close] do. *)
Inductive gstep : msys -> msys -> Prop :=
| m_dequeue b cd c p i bu t ac ak dr m l :
    jobs b = m :: l -> gstep (mkMsys b cd c p (S i) bu t ac ak dr) (mkMsys (set_jobs b l) cd c p i (m :: bu) t ac ak dr)
| m_handled_ack b cd c p i bu1 bu2 t ac ak dr m :
    after_handler b m None = None ->
    gstep (mkMsys b cd c p i (bu1 ++ m :: bu2) t ac ak dr) (mkMsys b cd c p (S i) (bu1 ++ bu2) t ac (eventID m :: ak) dr)
| m_handled_requeue b cd c p i bu1 bu2 t ac ak dr m e delay :
    after_handler b m (Some e) = Some delay -> closed b = false ->
    gstep (mkMsys b cd c p i (bu1 ++ m :: bu2) t ac ak dr) (mkMsys b cd c p (S i) (bu1 ++ bu2) (m :: t) ac ak dr)
| m_handled_closed b cd c p i bu1 bu2 t ac ak dr m e delay :
    after_handler b m (Some e) = Some delay -> closed b = true ->
    gstep (mkMsys b cd c p i (bu1 ++ m :: bu2) t ac ak dr) (mkMsys b cd c p (S i) (bu1 ++ bu2) t ac ak (eventID m :: dr))
| m_timer b cd c p i bu t1 t2 ac ak dr m ctx r b' :
    (ctx <> None -> cd = true) -> requeueAfter ctx m b = (r, b') ->
    gstep (mkMsys b cd c p i bu (t1 ++ m :: t2) ac ak dr)
          (mkMsys b' cd c p i bu (t1 ++ t2) ac ak (match r with Ok _ => dr | Err _ => eventID m :: dr end))
| m_timer_stop b cd c p i bu t1 t2 ac ak dr m :
    stopping b cd = true ->
    gstep (mkMsys b cd c p i bu (t1 ++ m :: t2) ac ak dr) (mkMsys b cd c p i bu (t1 ++ t2) ac ak (eventID m :: dr))
| m_consumer_stop b cd c p i bu t ac ak dr :
    stopping b cd = true -> gstep (mkMsys b cd c p (S i) bu t ac ak dr) (mkMsys b cd c p i bu t ac ak dr)
| m_workers_done b cd p t ac ak dr :
    gstep (mkMsys b cd WaitWorkers p 0 [] t ac ak dr) (mkMsys b cd WaitRequeues p 0 [] t ac ak dr)
| m_requeues_done b cd p i bu ac ak dr :
    gstep (mkMsys b cd WaitRequeues p i bu [] ac ak dr) (mkMsys b cd Returned p i bu [] ac ak dr).

Definition mstep (s s' : msys) : Prop := ecall s s' \/ gstep s s'.

Definition fresh_msys (b : MemoryBroker) : msys := mkMsys b false Open 0 0 [] [] [] [] [].
