(* ===== verification/Rabbit.v ===== *)
(** * The RabbitMQ backend ([internal/mq/rabbitmq.go])

    The AMQP library is the [amqp] effects: each call of a connection,
    channel or delivery, with any answer the library can give. *)

From S2P Require Import Prelude Prog Errors Json Domain Mq.

(** ** Configuration and messages *)

Record RabbitMQConfig := {
  URL : string;
  Exchange : string;
  ExchangeType : string;
  Queue : string;
  RoutingKey : string;
  CfgDurable : bool;
  PrefetchCount : Z;
  ReconnectDelay : Z;
  Requeue : RequeueConfig;
}.

(** The value types [amqp.Table] can hold that the code tells apart. *)
Inductive amqp_value :=
| VInt8 (z : Z) | VInt16 (z : Z) | VInt32 (z : Z) | VInt64 (z : Z)
| VUint8 (z : Z) | VUint16 (z : Z) | VUint32 (z : Z)
| VOther (s : string).

Abbreviation Table := (gmap string amqp_value).

Definition rabbitAttemptsHeader : string := "x-notification-delivery-attempts".

(** [amqp.Delivery] and [amqp.Publishing]: the fields the code copies. A nil
    header table is [None]. *)
Record amqp_delivery := {
  d_Headers : option Table;
  d_ContentType : string; d_ContentEncoding : string;
  d_Priority : Z; d_CorrelationId : string; d_ReplyTo : string; d_Timestamp : Z;
  d_Type : string; d_UserId : string; d_AppId : string; d_Body : string;
}.

Record publishing := {
  p_Headers : Table;
  p_ContentType : string; p_ContentEncoding : string; p_Persistent : bool;
  p_Priority : Z; p_CorrelationId : string; p_ReplyTo : string; p_MessageId : string; p_Timestamp : Z;
  p_Type : string; p_UserId : string; p_AppId : string; p_Body : string;
}.

Definition rabbitDeliveryAttempts (headers : option Table) : Z :=
  match headers with
  | None => 1
  | Some t =>
      match t !! rabbitAttemptsHeader with
      | Some (VInt8 v) | Some (VInt16 v) | Some (VInt32 v) => if 0 <? v then uint32 v else 1
      | Some (VInt64 v) => if (0 <? v) && (v <=? 4294967295) then uint32 v else 1
      | Some (VUint8 v) | Some (VUint16 v) => uint32 v
      | Some (VUint32 v) => if 0 <? v then v else 1
      | _ => 1
      end
  end.

(** Ranging over a nil map visits nothing. *)
Definition cloneAMQPTable (source : option Table) : Table := default ∅ source.

(** ** Calls of the library *)

Inductive chan := MainCh | RetryCh.

Inductive amqp : Type -> Type :=
| ADial (url : string) : amqp (option error)
| AChannel (c : chan) : amqp (option error)
| AConfirm (c : chan) : amqp (option error)
| AExchangeDeclare (name kind : string) (durable : bool) : amqp (option error)
| AQueueDeclare (name : string) (durable : bool) : amqp (option error)
| AQueueBind (queue key exchange : string) : amqp (option error)
| AQos (prefetch : Z) : amqp (option error)
| ACloseConn : amqp (option error)
| ACloseCh (c : chan) : amqp (option error)
| APublish (exchange key : string) (m : publishing) : amqp (option error)
| AWaitConfirm : amqp (res bool)
| AHandler (d : Delivery) : amqp (option error)
| AAck : amqp (option error)
| ANack (requeue : bool) : amqp (option error)
| ATimer (delay : Z) : amqp bool
| ARetryChannel : amqp bool.

Abbreviation prog := (Prog.prog amqp).

Definition wrap_error (pre : string) (e : error) : error := EWrap pre e EmptyString.

(** [if err := call; err != nil { return wrapped }]. *)
Definition checked {A} (call : amqp (option error)) (fail : error -> prog A) (k : prog A) : prog A :=
  (err <- trigger call ;; match err with Some e => fail e | None => k end)%prog.

(** ** Topology *)

Section topology.
Context (cfg : RabbitMQConfig).

Definition exchange_type : string := if String.eqb (ExchangeType cfg) EmptyString then "direct" else ExchangeType cfg.

Definition declare_queue (named : bool) : prog (option error) :=
  checked (AQueueDeclare (Queue cfg) (CfgDurable cfg)) (fun e => Ret (Some (wrap_error "rabbitmq queue declare: " e)))
    (if named then
       checked (AQueueBind (Queue cfg) (RoutingKey cfg) (Exchange cfg))
         (fun e => Ret (Some (wrap_error "rabbitmq queue bind: " e))) (Ret None)
     else Ret None).

Definition declareTopology : prog (option error) :=
  let named := negb (String.eqb (Exchange cfg) EmptyString) in
  if named then
    checked (AExchangeDeclare (Exchange cfg) exchange_type (CfgDurable cfg))
      (fun e => Ret (Some (wrap_error "rabbitmq exchange declare: " e))) (declare_queue true)
  else declare_queue false.

Definition exchange : string := Exchange cfg.
Definition routingKey : string := if String.eqb (Exchange cfg) EmptyString then Queue cfg else RoutingKey cfg.

(** ** Connections *)

(** Closing some of what was opened, then the error. *)
Fixpoint close_channels (l : list chan) : prog unit :=
  match l with
  | [] => Ret tt
  | c :: r => (trigger (ACloseCh c) ;;; close_channels r)%prog
  end.

Definition abandon (l : list chan) (e : error) : prog (option error) :=
  (close_channels l ;;; trigger ACloseConn ;;; Ret (Some e))%prog.

Definition newRabbitMQPublisher : prog (option error) :=
  checked (ADial (URL cfg)) (fun e => Ret (Some (wrap_error "rabbitmq dial: " e)))
    (checked (AChannel MainCh) (fun e => abandon [] (wrap_error "rabbitmq channel: " e))
      (checked (AConfirm MainCh) (fun e => abandon [] (wrap_error "rabbitmq confirm mode: " e))
        (err <- declareTopology ;;
         match err with Some e => abandon [] e | None => Ret None end)%prog)).

Definition prefetch_count (concurrency : Z) : Z :=
  let p := PrefetchCount cfg in
  let p := if p <? concurrency then concurrency else p in
  if p <=? 0 then 1 else p.

Definition connect (concurrency : Z) : prog (option error) :=
  checked (ADial (URL cfg)) (fun e => Ret (Some (wrap_error "rabbitmq dial: " e)))
    (checked (AChannel MainCh) (fun e => abandon [] (wrap_error "rabbitmq channel: " e))
      (err <- declareTopology ;;
       match err with
       | Some e => abandon [MainCh] e
       | None =>
           checked (AChannel RetryCh) (fun e => abandon [MainCh] (wrap_error "rabbitmq retry channel: " e))
             (checked (AConfirm RetryCh) (fun e => abandon [RetryCh; MainCh] (wrap_error "rabbitmq retry confirm mode: " e))
               (checked (AQos (prefetch_count concurrency)) (fun e => abandon [RetryCh; MainCh] (wrap_error "rabbitmq qos: " e))
                 (Ret None)))
       end)%prog).

Definition newRabbitMQConsumer : option error := validateRequeueConfig "rabbitmq" (Requeue cfg).

(** The concurrency and reconnect delay [Start] settles on. *)
Definition start_params (concurrency : Z) : Z * Z :=
  (if concurrency <? 1 then 1 else concurrency,
   if ReconnectDelay cfg <=? 0 then 5 * time_Second else ReconnectDelay cfg).

(** [Close] of the publisher: channel, then connection. *)
Definition publisher_Close (has_ch has_conn : bool) : prog (option error) :=
  ((if has_ch then trigger (ACloseCh MainCh) ;;; Ret tt else Ret tt) ;;;
   (if has_conn then trigger ACloseConn else Ret None))%prog.

(** [Close] of the consumer: retry channel, channel, connection. *)
Definition consumer_Close (has_retry has_ch has_conn : bool) : prog (option error) :=
  ((if has_retry then trigger (ACloseCh RetryCh) ;;; Ret tt else Ret tt) ;;;
   (if has_ch then trigger (ACloseCh MainCh) ;;; Ret tt else Ret tt) ;;;
   (if has_conn then trigger ACloseConn else Ret None))%prog.

(** ** Publishing *)

Context (uuid_string : UUID -> string) (uuid_parse : string -> option UUID).

Definition first_message (id : UUID) : publishing :=
  {| p_Headers := {[ rabbitAttemptsHeader := VInt64 1 ]}; p_ContentType := "application/json";
     p_ContentEncoding := EmptyString; p_Persistent := true; p_Priority := 0; p_CorrelationId := EmptyString;
     p_ReplyTo := EmptyString; p_MessageId := uuid_string id; p_Timestamp := 0; p_Type := EmptyString;
     p_UserId := EmptyString; p_AppId := EmptyString; p_Body := encode uuid_string id |}.

Definition Publish (id : UUID) : prog (res PublishResult) :=
  (err <- trigger (APublish exchange routingKey (first_message id)) ;;
   match err with
   | Some e => Ret (Err (wrap_error "rabbitmq publish: " e))
   | None =>
       ok <- trigger AWaitConfirm ;;
       match ok with
       | Err e => Ret (Err (wrap_error "rabbitmq publish confirm: " e))
       | Ok false => Ret (Err (EString "rabbitmq publish: broker nacked delivery"))
       | Ok true => Ret (Ok {| Durable := true |})
       end
   end)%prog.

(** ** Consuming one delivery *)

Definition retry_message (d : amqp_delivery) (id : UUID) (attempts : Z) : publishing :=
  {| p_Headers := <[rabbitAttemptsHeader := VInt64 attempts]> (cloneAMQPTable (d_Headers d));
     p_ContentType := d_ContentType d; p_ContentEncoding := d_ContentEncoding d; p_Persistent := true;
     p_Priority := d_Priority d; p_CorrelationId := d_CorrelationId d; p_ReplyTo := d_ReplyTo d;
     p_MessageId := uuid_string id; p_Timestamp := d_Timestamp d; p_Type := d_Type d;
     p_UserId := d_UserId d; p_AppId := d_AppId d; p_Body := d_Body d |}.

Definition publishRetry (d : amqp_delivery) (id : UUID) (attempts : Z) : prog (option error) :=
  (available <- trigger ARetryChannel ;;
   if negb available then Ret (Some (EString "rabbitmq retry channel is unavailable"))
   else
     err <- trigger (APublish exchange routingKey (retry_message d id attempts)) ;;
     match err with
     | Some e => Ret (Some (wrap_error "publish retry: " e))
     | None =>
         ok <- trigger AWaitConfirm ;;
         match ok with
         | Err e => Ret (Some (wrap_error "confirm retry: " e))
         | Ok false => Ret (Some (EString "broker nacked retry publish"))
         | Ok true => Ret None
         end
     end)%prog.

(** [attempts + 1] that stays at the largest [uint32]. *)
Definition next_attempts (attempts : Z) : Z :=
  let n := uint32 (attempts + 1) in if n =? 0 then attempts else n.

(** [ATimer] answers [false] when the context was done first. *)
Definition requeueAfter (d : amqp_delivery) (id : UUID) (attempts delay : Z) : prog unit :=
  (fired <- trigger (ATimer delay) ;;
   if negb fired then Ret tt
   else
     err <- publishRetry d id (next_attempts attempts) ;;
     match err with
     | Some _ => trigger (ANack true) ;;; Ret tt
     | None => trigger AAck ;;; Ret tt
     end)%prog.

(** [handleDelivery]; a requeue goroutine it starts runs after it, with the
    concurrency slot already given back. *)
Definition handleDelivery (d : amqp_delivery) : prog unit :=
  (match decode uuid_parse (d_Body d) with
   | Err _ => trigger AAck ;;; Ret tt
   | Ok id =>
       let attempts := rabbitDeliveryAttempts (d_Headers d) in
       let delay := linearRequeueDelay attempts (DefaultRequeueDelay (Requeue cfg)) (MaxRequeueDelay (Requeue cfg)) in
       err <- trigger (AHandler (make_delivery (Requeue cfg) id attempts)) ;;
       match err with
       | Some e => requeueAfter d id attempts (requestedRequeue e delay).1.1
       | None => trigger AAck ;;; Ret tt
       end
   end)%prog.
End topology.

(** ** The consumer loop

    [runLoop], [waitAndReconnect] and [consumeUntilClosed] as one state
    machine on what their [select]s receive. [Waiting d]: a delivery was
    received and all [concurrency] slots are taken. *)
Inductive loop_state :=
| Consume (inflight : Z)
| Consuming (inflight : Z)
| Waiting (inflight : Z) (d : amqp_delivery)
| Reconnecting (inflight : Z)
| Dialing (inflight : Z)
| Stopped.

Inductive loop_event :=
| EvContextDone
| EvConsume (err : option error)
| EvConnClosed
| EvDelivery (d : amqp_delivery)
| EvDeliveriesClosed
| EvHandlerDone
| EvTick
| EvConnect (err : option error).

(** The next state, and the delivery whose handler goroutine starts. Events
    a state does not select on leave it as it is; a dial in progress does not
    look at the context. Handlers still running carry over a reconnect. *)
Definition loop_step (concurrency : Z) (s : loop_state) (e : loop_event) : loop_state * option amqp_delivery :=
  match s, e with
  | Stopped, _ => (Stopped, None)
  | Consume n, EvConsume None => (Consuming n, None)
  | Consume n, EvConsume (Some _) => (Reconnecting n, None)
  | Consume n, EvHandlerDone => (Consume (n - 1), None)
  | Consume n, EvContextDone | Consuming n, EvContextDone | Waiting n _, EvContextDone | Reconnecting n, EvContextDone => (Stopped, None)
  | Consuming n, EvConnClosed | Consuming n, EvDeliveriesClosed => (Reconnecting n, None)
  | Consuming n, EvDelivery d => if n <? concurrency then (Consuming (n + 1), Some d) else (Waiting n d, None)
  | Consuming n, EvHandlerDone => (Consuming (n - 1), None)
  | Waiting n d, EvHandlerDone => (Consuming n, Some d)
  | Reconnecting n, EvHandlerDone => (Reconnecting (n - 1), None)
  | Reconnecting n, EvTick => (Dialing n, None)
  | Dialing n, EvConnect (Some _) => (Reconnecting n, None)
  | Dialing n, EvConnect None => (Consume n, None)
  | Dialing n, EvHandlerDone => (Dialing (n - 1), None)
  | _, _ => (s, None)
  end.

Fixpoint loop_run (concurrency : Z) (s : loop_state) (es : list loop_event) : loop_state * list amqp_delivery :=
  match es with
  | [] => (s, [])
  | e :: r =>
      let '(s', d) := loop_step concurrency s e in
      let '(s'', ds) := loop_run concurrency s' r in
      (s'', match d with Some d => d :: ds | None => ds end)
  end.

(** ** The connections of the loop

    [connect] stores a new connection over the fields of the consumer, and
    does not close the one it replaces. [lk_current]: the field holds a live
    connection; [lk_abandoned]: the live connections no field refers to. *)
Record links := mkLinks { lk_current : bool; lk_abandoned : Z }.

Definition links_step (s : loop_state) (e : loop_event) (l : links) : links :=
  match s, e with
  | Consuming _, EvConnClosed => mkLinks false (lk_abandoned l)
  | Dialing _, EvConnect None => mkLinks true (if lk_current l then lk_abandoned l + 1 else lk_abandoned l)
  | _, _ => l
  end.

Fixpoint links_run (concurrency : Z) (s : loop_state) (es : list loop_event) (l : links) : links :=
  match es with
  | [] => l
  | e :: r => links_run concurrency (loop_step concurrency s e).1 r (links_step s e l)
  end.
