(* ===== verification/RabbitSpec.v ===== *)
(** * What the RabbitMQ backend guarantees *)

From S2P Require Import Prelude Prog Errors Json Domain Mq Rabbit.

(** ** Attempt headers *)

Definition value_ok (v : amqp_value) : Prop :=
  match v with
  | VInt8 z => - 2 ^ 7 <= z < 2 ^ 7 | VInt16 z => - 2 ^ 15 <= z < 2 ^ 15
  | VInt32 z => - 2 ^ 31 <= z < 2 ^ 31 | VInt64 z => - 2 ^ 63 <= z < 2 ^ 63
  | VUint8 z => 0 <= z < 2 ^ 8 | VUint16 z => 0 <= z < 2 ^ 16 | VUint32 z => 0 <= z < 2 ^ 32
  | VOther _ => True
  end.

Lemma rabbit_next_attempts a : 0 <= a < 2 ^ 32 -> next_attempts a = Z.min (a + 1) (2 ^ 32 - 1).
Proof.
  intros H. unfold next_attempts. destruct (decide (a = 2 ^ 32 - 1)) as [->|]; [reflexivity|].
  rewrite uint32_small by lia. destruct (Z.eqb_spec (a + 1) 0); lia.
Qed.

(** The attempt counter in the message header: whatever type and value a
    foreign publisher put there is read as a [uint32]; and the counter the
    consumer writes into a retry, with all other headers kept, is the one it
    reads back, one more than before and never past the largest [uint32]. *)
Theorem attempts_header_roundtrip t :
  (forall v, t !! rabbitAttemptsHeader = Some v -> value_ok v) ->
  0 <= rabbitDeliveryAttempts (Some t) < 2 ^ 32 /\
  forall d id us, d_Headers d = Some t -> 0 < rabbitDeliveryAttempts (Some t) ->
    let m := retry_message us d id (next_attempts (rabbitDeliveryAttempts (Some t))) in
    rabbitDeliveryAttempts (Some (p_Headers m)) = Z.min (rabbitDeliveryAttempts (Some t) + 1) (2 ^ 32 - 1) /\
    p_Body m = d_Body d /\ forall k, k <> rabbitAttemptsHeader -> p_Headers m !! k = t !! k.
Proof.
  intros Hv. assert (0 <= rabbitDeliveryAttempts (Some t) < 2 ^ 32) as Hb.
  { cbn. destruct (t !! rabbitAttemptsHeader) as [v|]; [|lia]. specialize (Hv v eq_refl).
    destruct v as [z|z|z|z|z|z|z|s]; cbn in Hv; try lia; try apply (wrap_unsigned_range 32); try lia.
    all: repeat case_match; try lia; apply (wrap_unsigned_range 32); lia. }
  split; [done|]. intros d id us Hd Hpos. set (a := rabbitDeliveryAttempts (Some t)) in *. cbn -[a].
  rewrite Hd. cbn [cloneAMQPTable default]. rewrite rabbit_next_attempts by done.
  split; [|split; [done|]].
  - rewrite lookup_insert_eq. replace (0 <? Z.min (a + 1) (2 ^ 32 - 1)) with true by lia.
    replace (Z.min (a + 1) (2 ^ 32 - 1) <=? 4294967295) with true by lia. apply uint32_small. lia.
  - intros k Hk. by rewrite lookup_insert_ne.
Qed.

(** ** Settling a delivery *)

Inductive settling := Received | Malformed | Handled | Rejected | RetrySent | RetryConfirmed | Settled.

(** When a delivery may be acknowledged or returned. [Rejected]: the handler
    asked for a requeue. *)
Definition settlement (d : amqp_delivery) : protocol amqp settling := fun X e g =>
  match e in amqp X return X -> option settling with
  | AHandler _ => fun r =>
      match g with Received => Some (match r with None => Handled | Some _ => Rejected end) | _ => None end
  | APublish _ _ m => fun r =>
      match g with
      | Rejected => if decide (p_Body m = d_Body d /\ p_Persistent m = true)
                    then Some (match r with None => RetrySent | Some _ => Rejected end) else None
      | _ => None
      end
  | AWaitConfirm => fun r =>
      match g with RetrySent => Some (match r with Ok true => RetryConfirmed | _ => Rejected end) | _ => None end
  | AAck => fun _ => match g with Malformed | Handled | RetryConfirmed => Some Settled | _ => None end
  | ANack requeue => fun _ => match g with Rejected => if requeue then Some Settled else None | _ => None end
  | ATimer _ | ARetryChannel => fun _ => Some g
  | _ => fun _ => None
  end.

Definition arrival (uuid_parse : string -> option UUID) (d : amqp_delivery) : settling :=
  match decode uuid_parse (d_Body d) with Err _ => Malformed | Ok _ => Received end.

(** C13: No wake-up is lost by the RabbitMQ consumer, whatever the broker and
    the handler answer: a delivery is acknowledged only when its body is
    malformed, its handler accepted it, or a persistent copy was published
    and confirmed; otherwise it is returned to the queue, or left unsettled
    when the worker is shutting down; and it is settled at most once. *)
Theorem delivery_settlement cfg uuid_string uuid_parse d :
  obeys (settlement d) (arrival uuid_parse d) (handleDelivery cfg uuid_string uuid_parse d)
    (fun _ g => g = Settled \/ g = Rejected).
Proof.
  unfold handleDelivery, arrival. destruct (decode uuid_parse (d_Body d)) as [id|e].
  2: { intros x. exists Settled. split; [done|]. by left. }
  cbn zeta. intros [e|]; cbn [settlement].
  2: { exists Handled. split; [done|]. intros y. exists Settled. split; [done|]. by left. }
  exists Rejected. split; [done|]. cbn [Prog.bind]. intros fired. exists Rejected. split; [done|].
  destruct fired; cbn [Prog.bind negb]; [|by right].
  apply obeys_bind. intros available. exists Rejected. split; [done|]. cbn [Prog.bind].
  assert (forall e' : error, obeys (settlement d) Rejected (trigger (ANack true) ;;; Ret tt)%prog
            (fun (_ : unit) g => g = Settled \/ g = Rejected)) as Hnack.
  { intros _ y. exists Settled. split; [done|]. by left. }
  destruct available; cbn [negb]; [|apply (Hnack e)].
  intros perr. cbn [settlement]. rewrite decide_True by done. destruct perr as [pe|]; eexists; (split; [reflexivity|]); cbn [Prog.bind].
  { apply (Hnack e). }
  intros confirm. cbn [settlement]. eexists. split; [reflexivity|]. destruct confirm as [[|]|ce]; cbn [Prog.bind obeys].
  - intros y. exists Settled. split; [done|]. by left.
  - apply (Hnack e).
  - apply (Hnack e).
Qed.

(** ** Publishing *)

Inductive receipt := Unsent | Unconfirmed | Confirmed | Refused.

Definition receipts : protocol amqp receipt := fun X e g =>
  match e in amqp X return X -> option receipt with
  | APublish _ _ m => fun r =>
      match g with Unsent => if p_Persistent m then Some (match r with None => Unconfirmed | Some _ => Refused end) else None
      | _ => None end
  | AWaitConfirm => fun r =>
      match g with Unconfirmed => Some (match r with Ok true => Confirmed | _ => Refused end) | _ => None end
  | _ => fun _ => None
  end.

(** A RabbitMQ publish reports a durable receipt exactly when the broker
    confirmed the persistent message, and an error otherwise. *)
Theorem rabbit_receipt_confirmed cfg uuid_string id :
  obeys receipts Unsent (Publish cfg uuid_string id) (fun x g =>
    match x with Ok r => Durable r = true /\ g = Confirmed | Err _ => g = Refused end).
Proof.
  intros [e|]; cbn.
  - by exists Refused.
  - exists Unconfirmed. split; [done|]. intros [[|]|e]; eexists; by split.
Qed.

(** ** Connections *)

Record resources := mkRes { conn_open : bool; main_open : bool; retry_open : bool }.
Definition all_closed : resources := mkRes false false false.

Definition ch_open (c : chan) (g : resources) : bool := match c with MainCh => main_open g | RetryCh => retry_open g end.
Definition set_ch (c : chan) (b : bool) (g : resources) : resources :=
  match c with MainCh => mkRes (conn_open g) b (retry_open g) | RetryCh => mkRes (conn_open g) (main_open g) b end.

(** Closing a connection closes its channels. *)
Definition opening : protocol amqp resources := fun X e g =>
  match e in amqp X return X -> option resources with
  | ADial _ => fun r => if conn_open g then None else Some (match r with None => mkRes true false false | Some _ => g end)
  | AChannel c => fun r =>
      if conn_open g && negb (ch_open c g) then Some (match r with None => set_ch c true g | Some _ => g end) else None
  | AConfirm c => fun _ => if ch_open c g then Some g else None
  | AExchangeDeclare _ _ _ | AQueueDeclare _ _ | AQueueBind _ _ _ | AQos _ => fun _ => if main_open g then Some g else None
  | ACloseCh c => fun _ => if ch_open c g then Some (set_ch c false g) else None
  | ACloseConn => fun _ => if conn_open g then Some all_closed else None
  | _ => fun _ => None
  end.

Lemma declareTopology_keeps cfg g : main_open g = true ->
  obeys opening g (declareTopology cfg) (fun _ g' => g' = g).
Proof.
  intros Hm. assert (forall named, obeys opening g (declare_queue cfg named) (fun _ g' => g' = g)) as Hq.
  { intros named x. exists g. cbn. rewrite Hm. split; [done|]. destruct x; [done|]. destruct named; [|done].
    intros y. exists g. cbn. rewrite Hm. split; [done|]. by destruct y. }
  unfold declareTopology. cbn zeta. destruct (negb _); [|apply Hq].
  intros x. exists g. cbn [opening]. rewrite Hm. split; [done|]. destruct x; [done|]. apply Hq.
Qed.

Lemma checked_obeys {A G} (P : protocol amqp G) g (call : amqp (option error)) (fail : error -> prog A) (k : prog A) gf gk Q :
  (forall e, P _ call g (Some e) = Some gf /\ obeys P gf (fail e) Q) ->
  P _ call g None = Some gk -> obeys P gk k Q -> obeys P g (checked call fail k) Q.
Proof. intros Hf Hk Ho [e|]; [exists gf; apply Hf|exists gk; by split]. Qed.

Ltac open_step gf gk := eapply (checked_obeys opening _ _ _ _ gf gk); [|reflexivity|].
Ltac closes := intros ?e; split; [reflexivity|]; unfold abandon; cbn; intros; repeat (eexists; split; [reflexivity|]; cbn; intros); try done.

(** Opening a consumer connection either succeeds with the connection and
    both channels open, or reports an error with everything it opened closed
    again; no call is made on a channel that is not open. *)
Theorem connect_all_or_nothing cfg concurrency :
  obeys opening all_closed (connect cfg concurrency) (fun err g =>
    match err with None => g = mkRes true true true | Some _ => g = all_closed end).
Proof.
  unfold connect. open_step all_closed (mkRes true false false); [closes|].
  open_step (mkRes true false false) (mkRes true true false); [closes|].
  apply obeys_bind. eapply obeys_mono; [by apply declareTopology_keeps|]. intros [e|] ? ->.
  { unfold abandon. cbn. intros. repeat (eexists; split; [reflexivity|]; cbn; intros). done. }
  open_step (mkRes true true false) (mkRes true true true); [closes|].
  open_step (mkRes true true true) (mkRes true true true); [closes|].
  open_step (mkRes true true true) (mkRes true true true); [closes|]. done.
Qed.

(** The same for the publisher's connection. *)
Theorem publisher_all_or_nothing cfg :
  obeys opening all_closed (newRabbitMQPublisher cfg) (fun err g =>
    match err with None => g = mkRes true true false | Some _ => g = all_closed end).
Proof.
  unfold newRabbitMQPublisher. open_step all_closed (mkRes true false false); [closes|].
  open_step (mkRes true false false) (mkRes true true false); [closes|].
  open_step (mkRes true true false) (mkRes true true false); [closes|].
  apply obeys_bind. eapply obeys_mono; [by apply declareTopology_keeps|]. intros [e|] ? ->; [|done].
  unfold abandon. cbn. intros. repeat (eexists; split; [reflexivity|]; cbn; intros). done.
Qed.

(** ** The consumer loop *)

Definition inflight (s : loop_state) : Z :=
  match s with Consume n | Consuming n | Waiting n _ | Reconnecting n | Dialing n => n | Stopped => 0 end.

(** The handlers that run after the events [es]: one for each delivery the
    loop handed over, less those that ended. *)
Definition is_done (e : loop_event) : bool := match e with EvHandlerDone => true | _ => false end.

Definition running (concurrency : Z) (es : list loop_event) : Z :=
  Z.of_nat (length (loop_run concurrency (Consume 0) es).2) - Z.of_nat (length (List.filter is_done es)).

(** A handler only ends while one runs. *)
Definition feasible (concurrency : Z) (es : list loop_event) : Prop :=
  forall before after, es = before ++ EvHandlerDone :: after -> 0 < running concurrency before.

Lemma loop_run_app concurrency es1 es2 : forall s,
  loop_run concurrency s (es1 ++ es2) =
    ((loop_run concurrency (loop_run concurrency s es1).1 es2).1,
     (loop_run concurrency s es1).2 ++ (loop_run concurrency (loop_run concurrency s es1).1 es2).2).
Proof.
  induction es1 as [|e es1 IH]; intros s; cbn; [by destruct (loop_run concurrency s es2)|].
  destruct (loop_step concurrency s e) as [s1 d]. rewrite IH. destruct (loop_run concurrency s1 es1) as [s2 ds]. cbn.
  by destruct d.
Qed.

Lemma running_snoc concurrency es e :
  running concurrency (es ++ [e]) = running concurrency es +
    Z.of_nat (length (option_list (loop_step concurrency (loop_run concurrency (Consume 0) es).1 e).2)) - (if is_done e then 1 else 0).
Proof.
  unfold running. rewrite loop_run_app, List.filter_app, !length_app. cbn [fst snd loop_run].
  destruct (loop_run concurrency (Consume 0) es) as [s ds]. cbn [fst snd].
  destruct (loop_step concurrency s e) as [s1 [d|]], e; rewrite ?length_app; cbn; lia.
Qed.

(** The deliveries the loop takes from the channel. *)
Definition receives (s : loop_state) (e : loop_event) : list amqp_delivery :=
  match s, e with Consuming _, EvDelivery d => [d] | _, _ => [] end.

Fixpoint received (concurrency : Z) (s : loop_state) (es : list loop_event) : list amqp_delivery :=
  match es with
  | [] => []
  | e :: r => receives s e ++ received concurrency (loop_step concurrency s e).1 r
  end.

(** A delivery that waits for a slot. *)
Definition waiting (s : loop_state) : list amqp_delivery := match s with Waiting _ d => [d] | _ => [] end.

Lemma loop_step_counts concurrency s e s' d :
  0 <= inflight s <= concurrency -> loop_step concurrency s e = (s', d) -> s' <> Stopped ->
  inflight s' = inflight s + Z.of_nat (length (option_list d)) - (if is_done e then 1 else 0) /\ (inflight s' <= concurrency).
Proof.
  intros Hn Hs Hs'. destruct s, e; cbn in *; try destruct err; repeat case_match; simplify_eq/=; lia.
Qed.

Lemma loop_step_stops concurrency s e d : loop_step concurrency s e = (Stopped, d) -> d = None /\ (s <> Stopped -> is_done e = false).
Proof. intros Hs. destruct s, e; cbn in *; try destruct err; repeat case_match; by simplify_eq/=. Qed.

Lemma loop_step_takes concurrency s e s' d : loop_step concurrency s e = (s', d) ->
  waiting s ++ receives s e = option_list d ++ waiting s' \/ s' = Stopped /\ d = None /\ receives s e = [].
Proof.
  intros Hs. destruct s, e; cbn in *; try destruct err; repeat case_match; simplify_eq/=; first [by left|by right].
Qed.

(** The loop's own count is right as long as it runs. *)
Lemma running_inflight concurrency es : 0 <= concurrency -> feasible concurrency es ->
  0 <= running concurrency es <= concurrency /\
  ((loop_run concurrency (Consume 0) es).1 <> Stopped -> inflight (loop_run concurrency (Consume 0) es).1 = running concurrency es).
Proof.
  intros Hc. induction es as [|e es IH] using rev_ind; intros Hf; [by split; [|done]|].
  destruct IH as [Hr Hi].
  { intros before after ->. apply (Hf before (after ++ [e])). by rewrite <- app_assoc. }
  assert (is_done e = true -> 0 < running concurrency es) as Hd by (destruct e; try done; intros _; by apply (Hf es [])).
  rewrite running_snoc, loop_run_app. cbn [fst loop_run]. set (s := (loop_run concurrency (Consume 0) es).1) in *.
  destruct (loop_step concurrency s e) as [s' d] eqn:Es. cbn [fst snd].
  assert (0 <= (if is_done e then 1 else 0) <= running concurrency es) as He by (destruct (is_done e); [specialize (Hd eq_refl)|]; lia).
  assert (s' = Stopped \/ s' <> Stopped) as [->|Hs'] by (destruct s'; by (left + right)).
  - destruct (loop_step_stops _ _ _ _ Es) as [-> _]. cbn. split; [lia|done].
  - assert (s <> Stopped) as Hs by (intros Hs; rewrite Hs in Es; cbn in Es; by simplify_eq).
    specialize (Hi Hs). destruct (loop_step_counts concurrency s e s' d) as [Hn Hb]; [lia|done|done|]. split; [lia|]. intros _. lia.
Qed.

Lemma loop_stopped concurrency es :
  loop_run concurrency Stopped es = (Stopped, []) /\ received concurrency Stopped es = [].
Proof. induction es as [|e es [IH1 IH2]]; cbn; [done|]. by rewrite IH1, IH2. Qed.

Lemma loop_run_takes concurrency es : forall s s' ds, loop_run concurrency s es = (s', ds) ->
  exists left, waiting s ++ received concurrency s es = ds ++ left /\ (left = waiting s' \/ s' = Stopped /\ (length left <= 1)%nat).
Proof.
  induction es as [|e es IH]; intros s s' ds Hr; cbn in *.
  { simplify_eq. exists (waiting s'). rewrite app_nil_r. auto. }
  destruct (loop_step concurrency s e) as [s1 d] eqn:Es.
  destruct (loop_run concurrency s1 es) as [s2 ds2] eqn:Er. simplify_eq. cbn [fst] in *.
  destruct (loop_step_takes _ _ _ _ _ Es) as [Hw|(-> & -> & Hw)].
  - destruct (IH _ _ _ Er) as (left & Hl & Ho). exists left. split; [|done].
    rewrite app_assoc, Hw, <- app_assoc, Hl, app_assoc. by destruct d.
  - destruct (loop_stopped concurrency es) as [E1 E2]. rewrite E1 in Er. simplify_eq. rewrite Hw, E2. cbn.
    exists (waiting s). rewrite app_nil_r. split; [done|]. right. split; [done|]. destruct s; cbn; lia.
Qed.


(** ** The connections it leaves behind *)

(** As long as a lost connection is the only reason to dial again, the loop
    holds one connection. *)
Lemma connection_replaced concurrency es :
  Forall (fun e => e <> EvDeliveriesClosed /\ forall x, e <> EvConsume (Some x)) es ->
  lk_abandoned (links_run concurrency (Consume 0) es (mkLinks true 0)) = 0.
Proof.
  intros Hes. assert (forall s l, lk_abandoned l = 0 -> (match s with Reconnecting _ | Dialing _ => lk_current l = false | _ => True end) ->
    lk_abandoned (links_run concurrency s es l) = 0) as H; [|by apply H].
  induction Hes as [|e es [He1 He2] _ IH]; intros s l Ha Hs; [done|]. cbn [links_run].
  apply IH; destruct s, e as [|[x|]| | | | | |[x|]]; cbn in *; try done; try (by exfalso; eapply He2); try (rewrite Hs; done);
    repeat case_match; simplify_eq/=; done.
Qed.

(** When consuming fails, or the channel is closed and the connection is not,
    every round leaves one more open connection behind. *)
Lemma connections_leak concurrency e k :
  links_run concurrency (Consume 0) (concat (repeat [EvConsume (Some e); EvTick; EvConnect None] k)) (mkLinks true 0) = mkLinks true (Z.of_nat k).
Proof.
  assert (forall n, links_run concurrency (Consume 0) (concat (repeat [EvConsume (Some e); EvTick; EvConnect None] k)) (mkLinks true n)
    = mkLinks true (n + Z.of_nat k)) as H; [|by rewrite H].
  induction k as [|k IH]; intros n; [by rewrite Z.add_0_r|]. cbn [repeat concat]. cbn. rewrite IH. f_equal. lia.
Qed.
