(* ===== verification/Nsq.v ===== *)
(** * The NSQ backend and the choice of a backend ([internal/mq/nsq.go],
      [internal/mq/mq.go])

    [go-nsq] calls the handler for each message; what the handler returns and
    the response it gives the message decide its fate. *)

From S2P Require Import Prelude Errors Json JsonRaw Domain Mq.

(** What a message was told: nothing, or a requeue with or without backoff. *)
Inductive nsq_response := NoResponse | NsqRequeue (delay : Z) | NsqRequeueWithoutBackoff (delay : Z).

(** What becomes of the message once [HandleMessage] returned: go-nsq
    finishes it on nil, requeues it by its own policy on an error, and
    respects an explicit response. *)
Inductive nsq_fate := Finished | DefaultRequeue | Requeued (delay : Z) (backoff : bool).

Definition nsq_settle (resp : nsq_response) (err : option error) : nsq_fate :=
  match resp, err with
  | NsqRequeue d, _ => Requeued d true
  | NsqRequeueWithoutBackoff d, _ => Requeued d false
  | NoResponse, None => Finished
  | NoResponse, Some _ => DefaultRequeue
  end.

Section nsq.
Context (uuid_string : UUID -> string) (uuid_parse : string -> option UUID) (cfg : RequeueConfig).

(** [m.Attempts] is a [uint16]. *)
Definition HandleMessage (handler : Delivery -> option error) (body : string) (attempts : Z) : nsq_response * option error :=
  match decode uuid_parse body with
  | Err _ => (NoResponse, None)
  | Ok eventID =>
      let fallbackDelay := linearRequeueDelay (uint32 attempts) (DefaultRequeueDelay cfg) (MaxRequeueDelay cfg) in
      match handler (make_delivery cfg eventID (uint32 attempts)) with
      | None => (NoResponse, None)
      | Some err =>
          let '(delay, backoff, explicit) := requestedRequeue err fallbackDelay in
          if negb explicit then (NoResponse, Some err)
          else if backoff then (NsqRequeue delay, None)
          else (NsqRequeueWithoutBackoff delay, None)
      end
  end.

(** [Publish]: the topic and body given to the producer, and the receipt;
    [producer_err] is what nsqd answered. *)
Definition nsq_Publish (topic : string) (id : UUID) (producer_err : option error) : (string * string) * res PublishResult :=
  ((topic, encode uuid_string id),
   match producer_err with
   | Some e => Err (EWrap "nsq publish: " e EmptyString)
   | None => Ok {| Durable := true |}
   end).

(** The library's own limit is switched off; the delays are the service's. *)
Definition newNSQConsumer (library_err : option error) : res (RequeueConfig * Z) :=
  match validateRequeueConfig "nsq" cfg with
  | Some e => Err e
  | None =>
      match library_err with
      | Some e => Err (EWrap "nsq consumer: " e EmptyString)
      | None => Ok (cfg, 0)
      end
  end.

Definition newNSQPublisher (library_err : option error) : option error :=
  match library_err with Some e => Some (EWrap "nsq producer: " e EmptyString) | None => None end.

(** How many concurrent handlers [Start] registers. *)
Definition nsq_handlers (concurrency : Z) : Z := if 1 <? concurrency then concurrency else 1.
End nsq.

(** ** Backends by configured driver *)

Inductive driver := DriverNSQ | DriverRabbitMQ.

Definition memory_driver_error : error := EString "mq: memory driver requires one shared MemoryBroker in cmd/server".

(** [NewPublisher] and [NewConsumer] dispatch on the same names. *)
Definition select_driver {Wd : Wording} (name : string) : res driver :=
  if String.eqb name "nsq" then Ok DriverNSQ
  else if String.eqb name "rabbitmq" then Ok DriverRabbitMQ
  else if String.eqb name "memory" then Err memory_driver_error
  else Err (EString ("mq: unknown driver " +:+ quote_q name +:+ " (want " +:+ quote "memory" +:+ ", " +:+ quote "nsq" +:+
              " or " +:+ quote "rabbitmq" +:+ ")")%string).

(** ** Properties *)

(** How a handler's result reaches nsqd: a malformed body and a nil
    result finish the message; an explicit requeue, however deeply wrapped,
    is passed on with exactly its delay and backoff choice; any other error
    falls back to the library's requeue. *)
Theorem nsq_fate_of_result uuid_parse cfg handler body attempts :
  let '(resp, err) := HandleMessage uuid_parse cfg handler body attempts in
  nsq_settle resp err =
    match decode uuid_parse body with
    | Err _ => Finished
    | Ok id =>
        match handler (make_delivery cfg id (uint32 attempts)) with
        | None => Finished
        | Some e => match errors_As_Requeue e with
                    | Some (delay, backoff) => Requeued delay backoff
                    | None => DefaultRequeue
                    end
        end
    end.
Proof.
  unfold HandleMessage. destruct (decode uuid_parse body) as [id|e]; [|done].
  destruct (handler _) as [e|]; [|done]. unfold requestedRequeue.
  destruct (errors_As_Requeue e) as [[delay [|]]|]; done.
Qed.
