(* ===== verification/MemorySpec.v ===== *)
(** * What the in-process queue guarantees *)

From S2P Require Import Prelude Prog Errors Domain Mq Memory.

(** The wake-ups still in the process. *)
Definition held (s : msys) : list UUID :=
  List.map eventID (jobs (ms_broker s)) ++ List.map eventID (ms_busy s) ++ List.map eventID (ms_timers s).

Record minv (cap : Z) (s : msys) : Prop := {
  mi_cap : jobs_cap (ms_broker s) = cap;
  mi_room : Z.of_nat (length (jobs (ms_broker s))) <= cap;
  mi_workers : Z.of_nat (ms_idle s + length (ms_busy s)) <= ms_pool s;
  mi_started : started (ms_broker s) = false -> ms_pool s = 0;
  mi_account : ms_accepted s ≡ₚ held s ++ ms_acked s ++ ms_dropped s;
}.

Lemma publishMessage_cases ctx m b r b' : publishMessage ctx m b = (r, b') ->
  (exists e, r = Err e /\ b' = b) \/
  (r = Ok {| Durable := false |} /\ closed b = false /\ Z.of_nat (length (jobs b)) < jobs_cap b /\
   b' = set_jobs b (jobs b ++ [m])).
Proof. unfold publishMessage. intros H. repeat case_match; simplify_eq; bool_to_prop; eauto 10. Qed.

Lemma memory_next_attempts a : 0 <= a < 2 ^ 32 -> next_attempts a = Z.min (a + 1) (2 ^ 32 - 1).
Proof.
  intros H. unfold next_attempts. destruct (decide (a = 2 ^ 32 - 1)) as [->|]; [reflexivity|].
  rewrite uint32_small by lia. destruct (Z.eqb_spec (a + 1) 0); lia.
Qed.

Lemma minv_step cap s s' : minv cap s -> mstep s s' -> minv cap s'.
Proof.
  intros [Hc Hr Hw Hs Ha] Hst. unfold held in *.
  destruct Hst as [Hst|Hst];
    [destruct Hst as [b cd cl p i bu t ac ak dr ctx id r b' E|b cd cl p i bu t ac ak dr h n0 b' n E|b cd cl p i bu t ac ak dr|b cd p i bu t ac ak dr]
    |destruct Hst as [b cd cl p i bu t ac ak dr m l E|b cd cl p i bu1 bu2 t ac ak dr m _|b cd cl p i bu1 bu2 t ac ak dr m e delay _ E
     |b cd cl p i bu1 bu2 t ac ak dr m e delay _ E|b cd cl p i bu t1 t2 ac ak dr m ctx r b' _ E|b cd cl p i bu t1 t2 ac ak dr m _
     |b cd cl p i bu t ac ak dr _|b cd p t ac ak dr|b cd p i bu ac ak dr]]; cbn in *.
  - apply publishMessage_cases in E as [(e & -> & ->)|(-> & _ & Hroom & ->)]; [by split|].
    split; unfold held; cbn; try done; [rewrite length_app; cbn; lia|].
    rewrite List.map_app, Ha. cbn. solve_Permutation.
  - unfold Start in E. destruct h; [done|]. destruct (closed b); [done|]. destruct (started b) eqn:Es; [done|].
    simplify_eq. specialize (Hs eq_refl). subst p. split; unfold held; cbn; try done.
    destruct (Z.ltb_spec n0 1); lia.
  - by split.
  - by split.
  - rewrite E in *. cbn in *. split; unfold held; cbn; try done; [lia..|].
    rewrite Ha. solve_Permutation.
  - rewrite length_app in Hw. cbn in Hw. split; unfold held; cbn; try done; [rewrite length_app; lia|].
    rewrite Ha, !List.map_app. cbn. solve_Permutation.
  - rewrite length_app in Hw. cbn in Hw. split; unfold held; cbn; try done; [rewrite length_app; lia|].
    rewrite Ha, !List.map_app. cbn. solve_Permutation.
  - rewrite length_app in Hw. cbn in Hw. split; unfold held; cbn; try done; [rewrite length_app; lia|].
    rewrite Ha, !List.map_app. cbn. solve_Permutation.
  - apply publishMessage_cases in E as [(e & -> & ->)|(-> & _ & Hroom & ->)]; split; unfold held; cbn; try done.
    + rewrite Ha, !List.map_app. cbn. solve_Permutation.
    + rewrite length_app. cbn. lia.
    + rewrite Ha, !List.map_app. cbn. solve_Permutation.
  - split; unfold held; cbn; try done. rewrite Ha, !List.map_app. cbn. solve_Permutation.
  - split; unfold held; cbn; try done. lia.
  - by split.
  - by split.
Qed.

(** C36: The in-process queue under any concurrent use: it never holds more
    messages than its buffer, never runs more handlers at once than the pool
    [Start] launched, no receipt it gives is durable, and every wake-up it
    accepted is accounted for: still queued, being handled, waiting for its
    requeue, acknowledged, or dropped. *)
Theorem memory_queue_safe cap cfg b s :
  NewMemoryBroker cap cfg = Ok b -> star mstep (fresh_msys b) s ->
  Z.of_nat (length (jobs (ms_broker s))) <= cap /\
  Z.of_nat (length (ms_busy s)) <= ms_pool s /\
  (forall ctx id r b', Publish ctx id (ms_broker s) = (Ok r, b') -> Durable r = false) /\
  ms_accepted s ≡ₚ held s ++ ms_acked s ++ ms_dropped s.
Proof.
  intros Hb Hs. assert (minv cap s) as [Hc Hr Hw _ Ha].
  { eapply (star_invariant mstep); [|clear Hs|exact Hs]; [intros ? ?; apply minv_step|].
    unfold NewMemoryBroker in Hb. destruct (Z.leb_spec cap 0); [done|].
    destruct (validateRequeueConfig _ _); [done|]. simplify_eq. split; cbn; try done; lia. }
  split; [done|]. split; [lia|]. split; [|done].
  intros ctx id r b' E. by apply publishMessage_cases in E as [(e & ? & _)|(E & _)]; simplify_eq.
Qed.

(** After [Close] nothing is accepted or reported ready any more, and a
    message whose handler asks for a requeue is left to the database scans. *)
Theorem closed_queue_refuses ctx id b :
  Publish ctx id (Close b) = (Err (ESentinel ErrMemoryClosed), Close b) /\
  Ready (Close b) = Some (ESentinel ErrMemoryClosed) /\
  (forall h c e b' n, Start h c (Close b) = (e, b', n) -> e <> None /\ n = 0) /\
  forall m, requeueAfter ctx m (Close b) = (Err (ESentinel ErrMemoryClosed), Close b).
Proof.
  split; [done|]. split; [done|]. split; [|done].
  intros h c e b' n. unfold Start. cbn. destruct h; intros; by simplify_eq.
Qed.

(** ** Closing

    What can still happen once [Close] was called: a queued message may still
    be taken by an idle consumer and handled. *)
Definition phases_left (c : closing) : nat := match c with Open => 3 | WaitWorkers => 2 | WaitRequeues => 1 | Returned => 0 end.

Definition remaining (s : msys) : nat :=
  2 * length (jobs (ms_broker s)) + 2 * length (ms_busy s) + ms_idle s + length (ms_timers s) +
  phases_left (ms_closing s) + (if ms_ctx_done s then 0 else 1).

(** A step that does something; a refused [Publish] does not. *)
Definition moves (s s' : msys) : Prop := mstep s s' /\ s' <> s.

(** [Close] was called. *)
Definition close_began (s : msys) : Prop := ms_closing s <> Open.

Lemma closed_publish ctx m b : closed b = true -> publishMessage ctx m b = (Err (ESentinel ErrMemoryClosed), b).
Proof. intros H. unfold publishMessage. by rewrite H. Qed.

(** What [Close] has seen by the phase it is in. *)
Definition close_inv (s : msys) : Prop :=
  match ms_closing s with
  | Open => True
  | WaitWorkers => closed (ms_broker s) = true /\ mb_done (ms_broker s) = true
  | WaitRequeues => closed (ms_broker s) = true /\ mb_done (ms_broker s) = true /\ ms_idle s = 0%nat /\ ms_busy s = []
  | Returned => closed (ms_broker s) = true /\ mb_done (ms_broker s) = true /\ ms_idle s = 0%nat /\ ms_busy s = [] /\ ms_timers s = []
  end.

Lemma close_ecall s s' : close_inv s -> ecall s s' ->
  close_inv s' /\ (close_began s -> close_began s' /\ (s' = s \/ (remaining s' < remaining s)%nat)).
Proof.
  unfold close_inv, close_began, remaining. intros Hi Hst.
  destruct Hst as [b cd cl p i bu t ac ak dr ctx id r b' E|b cd cl p i bu t ac ak dr h n0 b' n E|b cd cl p i bu t ac ak dr|b cd p i bu t ac ak dr];
    cbn [ms_broker ms_busy ms_idle ms_timers ms_closing ms_ctx_done Close close_done set_closed closed mb_done] in *.
  - destruct cl; [by split; [|done]|..];
      (unfold Publish in E; rewrite closed_publish in E by apply Hi; simplify_eq; split; [done|]; intros _; split; [done|by left]).
  - unfold Start in E. destruct h; [done|]. destruct cl; [by split; [|done]|..]; destruct Hi as [Hi _]; by rewrite Hi in E.
  - split; [done|]. intros Hb. split; [done|]. destruct cd; [by left|right; lia].
  - by split.
Qed.

Lemma close_gstep s s' : close_inv s -> gstep s s' ->
  close_inv s' /\ (close_began s -> close_began s' /\ (remaining s' < remaining s)%nat).
Proof.
  unfold close_inv, close_began, remaining. intros Hi Hst.
  destruct Hst as [b cd cl p i bu t ac ak dr m l E|b cd cl p i bu1 bu2 t ac ak dr m _|b cd cl p i bu1 bu2 t ac ak dr m e delay _ E
     |b cd cl p i bu1 bu2 t ac ak dr m e delay _ E|b cd cl p i bu t1 t2 ac ak dr m ctx r b' _ E|b cd cl p i bu t1 t2 ac ak dr m _
     |b cd cl p i bu t ac ak dr _|b cd p t ac ak dr|b cd p i bu ac ak dr];
    cbn [ms_broker ms_busy ms_idle ms_timers ms_closing ms_ctx_done] in *.
  - split; [by destruct cl; naive_solver|]. intros Hb. split; [done|]. rewrite E. cbn. lia.
  - split; [destruct cl; try done; destruct_and!; by destruct bu1|]. intros Hb. split; [done|]. rewrite !length_app. cbn. lia.
  - destruct cl; [by split; [|done]|..]; destruct Hi as [Hi _]; congruence.
  - split; [destruct cl; try done; destruct_and!; by destruct bu1|]. intros Hb. split; [done|]. rewrite !length_app. cbn. lia.
  - unfold requeueAfter in E. destruct cl; [by split; [|done]|..];
      (rewrite closed_publish in E by apply Hi; simplify_eq; split; [|intros _; split; [done|rewrite !length_app; cbn; lia]]);
      [done..|]. destruct_and!. by destruct t1.
  - split; [destruct cl; try done; destruct_and!; by destruct t1|]. intros Hb. split; [done|]. rewrite !length_app. cbn. lia.
  - split; [destruct cl; try done; destruct_and!; done|]. intros Hb. split; [done|]. lia.
  - destruct_and!. split; [done|]. intros _. split; [done|]. cbn. lia.
  - destruct_and!. split; [done|]. intros _. split; [done|]. cbn. lia.
Qed.

Lemma close_step s s' : close_inv s -> mstep s s' ->
  close_inv s' /\ (close_began s -> close_began s' /\ (s' = s \/ (remaining s' < remaining s)%nat)).
Proof.
  intros Hi [Hst|Hst]; [by apply close_ecall|]. destruct (close_gstep _ _ Hi Hst) as [H1 H2]. split; [done|].
  intros Hb. destruct (H2 Hb). auto.
Qed.

(** The broker's own goroutines go on until [Close] returned. *)
Lemma close_progress s : close_inv s -> close_began s -> ms_closing s = Returned \/ exists s', gstep s s'.
Proof.
  destruct s as [b cd cl p i bu t ac ak dr]. unfold close_inv, close_began. cbn. intros Hi Hb.
  assert (mb_done b = true -> stopping b cd = true) as Hstop by (unfold stopping; intros ->; apply orb_true_r).
  destruct cl; [done| | |by left]; right; destruct_and!.
  - destruct i as [|i]; [|eexists; by apply m_consumer_stop, Hstop].
    destruct bu as [|m bu]; [eexists; apply m_workers_done|]. eexists. by apply (m_handled_ack b cd WaitWorkers p 0 [] bu).
  - destruct t as [|m t]; [eexists; apply m_requeues_done|]. eexists. by apply (m_timer_stop b cd WaitRequeues p i bu [] t), Hstop.
Qed.

(** C37: Closing the in-process queue terminates. From any reachable state in
    which [Close] was called, whatever else calls [Publish], [Start] or
    [Close] or cancels the context meanwhile: at most [remaining] steps change
    anything, in any interleaving; until [Close] has returned the broker's
    goroutines or the wait itself can make another step, without any help
    from a caller (the consumers and the timers see the closed [done]); so
    [Close] returns, and when it has, no consumer, handler or timer is left.
    A handler that runs is assumed to return. *)
Theorem memory_close_terminates b s :
  star mstep (fresh_msys b) s -> close_began s ->
  (forall n s', nsteps moves n s s' -> (n <= remaining s)%nat) /\
  (forall s', star mstep s s' -> ms_closing s' = Returned \/ exists s'', gstep s' s'') /\
  (exists n s', nsteps gstep n s s' /\ ms_closing s' = Returned) /\
  (forall s', star mstep s s' -> ms_closing s' = Returned -> ms_idle s' = 0%nat /\ ms_busy s' = [] /\ ms_timers s' = []).
Proof.
  intros Hr Hb.
  assert (forall s1 s2, close_inv s1 -> star mstep s1 s2 -> close_inv s2) as Hinv.
  { intros s1 s2 H1 Hst. eapply (star_invariant mstep close_inv); [|exact H1|exact Hst]. intros x y Hx Hxy. by apply (close_step x y). }
  assert (close_inv s) as Hs by by eapply (Hinv (fresh_msys b)).
  assert (forall s', star mstep s s' -> close_began s') as Hbegan.
  { intros s' H. assert (close_inv s' /\ close_began s') as [_ ?]; [|done].
    eapply (star_invariant mstep (fun s => close_inv s /\ close_began s)); [|by split|exact H].
    intros x y [Hx Hbx] Hxy. destruct (close_step x y Hx Hxy) as [Hy Hby]. split; [done|by apply Hby]. }
  split; [|split; [|split]].
  - intros n s' H. clear Hr Hbegan. induction H as [s|n s1 s2 s3 [Hst Hne] _ IH]; [lia|].
    destruct (close_step _ _ Hs Hst) as [Hs2 Hb2]. destruct (Hb2 Hb) as [Hb3 [->|Hlt]]; [done|]. specialize (IH Hb3 Hs2). lia.
  - intros s' H. apply close_progress; [by eapply Hinv|by apply Hbegan].
  - clear Hr Hbegan. remember (remaining s) as k eqn:Ek. revert s Hb Hs Ek. induction k as [k IH] using lt_wf_ind. intros s Hb Hs ->.
    destruct (close_progress s Hs Hb) as [Hq|(s1 & Hst)]; [by exists 0%nat, s; split; [constructor|]|].
    destruct (close_gstep _ _ Hs Hst) as [Hs1 Hb1]. destruct (Hb1 Hb) as [Hb2 Hlt].
    destruct (IH _ Hlt s1 Hb2 Hs1 eq_refl) as (n & s' & Hn & Hq). exists (S n), s'. split; [|done]. by econstructor.
  - intros s' H Hret. specialize (Hinv _ _ Hs H). unfold close_inv in Hinv. rewrite Hret in Hinv. by destruct_and!.
Qed.
