(* ===== verification/Provider.v ===== *)
(** * Provider adapters as the runtime sees them ([internal/provider])

    The result of one delivery attempt, the action context, the [Adapter]
    interface, and the registry that resolves [provider_code/provider_action].
    The five adapters are in [Webhook], [LarkBot], [Loadtest], [Firebase] and
    [Smtp]. *)

From S2P Require Import Prelude Float Errors Json JsonRaw Domain.

Record Result := mkResult {
  Success : bool;
  AvailabilityFailure : bool;
  Res_HTTPStatus : Z;
  Res_ErrorClass : string;
  Res_Message : string;
  Res_ProviderResponse : option json;
}.

Definition zero_result : Result :=
  {| Success := false; AvailabilityFailure := false; Res_HTTPStatus := 0;
     Res_ErrorClass := EmptyString; Res_Message := EmptyString; Res_ProviderResponse := None |}.

Record ActionContext := mkAC {
  AC_ProviderCode : string;
  AC_ProviderAction : string;
  BaseURL : string;
  AC_Path : string;
  AC_Method : string;
  Credential : string;
  AC_TimeoutMs : Z;
  AC_SourceSystem : string;
  AC_SourceRequestID : string;
  HasHTTPClient : bool;
  AllowedRespHeaders : list string;
}.

Record CircuitBreakerConfig := { FailureThreshold : Z; OpenDuration : Z }.

Record ActionConfig := {
  Description : string;
  Cfg_BaseURL : string;
  Cfg_Path : string;
  Cfg_Method : string;
  Cfg_TimeoutMs : Z;
  Cfg_RequestsPerSecond : float64;
  Cfg_MaxConcurrency : Z;
  CircuitBreaker : option CircuitBreakerConfig;
}.

Record Config := { CredentialRef : string; Actions : list (string * ActionConfig) }.

(** The [Adapter] interface without [SendActionRequest], which is an effect of
    the worker's programs and is told apart by the adapter's [ProviderCode].
    [N] stands for a raw YAML node. *)
Record Adapter (N : Type) := {
  Ad_ProviderCode : string;
  Ad_Config : N -> res Config;
  Ad_Validate : string -> string -> option error;
}.
Arguments Ad_ProviderCode {N} _.
Arguments Ad_Config {N} _ _.
Arguments Ad_Validate {N} _ _ _.

Record ResolvedAction (N : Type) := {
  RA_Adapter : Adapter N;
  RA_Context : ActionContext;
  RA_Description : string;
  RA_TimeoutMs : Z;
  RA_RequestsPerSecond : float64;
  RA_MaxConcurrency : Z;
  RA_CircuitBreaker : option CircuitBreakerConfig;
}.
Arguments RA_Adapter {N} _.
Arguments RA_Context {N} _.
Arguments RA_Description {N} _.
Arguments RA_TimeoutMs {N} _.
Arguments RA_RequestsPerSecond {N} _.
Arguments RA_MaxConcurrency {N} _.
Arguments RA_CircuitBreaker {N} _.

Definition key (providerCode providerAction : string) : string :=
  (providerCode +:+ "/" +:+ providerAction)%string.

(** ** The registry *)

Section registry.
Context {Wd : Wording} {N : Type}.

Record Registry := mkRegistry {
  R_Providers : list (string * N);
  R_adapters : gmap string (Adapter N);
  R_hasHTTPClient : bool;
  R_allowedRespHeaders : list string;
  R_resolved : gmap string (ResolvedAction N);
}.

Definition NewRegistry (cfg : list (string * N)) (httpClient : bool) (allowed : list string) : Registry :=
  {| R_Providers := cfg; R_adapters := ∅; R_hasHTTPClient := httpClient;
     R_allowedRespHeaders := allowed; R_resolved := ∅ |}.

Definition RegisterAdapter (r : Registry) (a : Adapter N) : Registry :=
  {| R_Providers := R_Providers r; R_adapters := <[Ad_ProviderCode a := a]> (R_adapters r);
     R_hasHTTPClient := R_hasHTTPClient r; R_allowedRespHeaders := R_allowedRespHeaders r;
     R_resolved := R_resolved r |}.

Definition resolve_action (r : Registry) (adapter : Adapter N) (providerCode credential : string)
    (na : string * ActionConfig) : ResolvedAction N :=
  let ac := na.2 in
  {| RA_Adapter := adapter;
     RA_Context :=
       {| AC_ProviderCode := providerCode; AC_ProviderAction := na.1;
          BaseURL := Cfg_BaseURL ac; AC_Path := Cfg_Path ac; AC_Method := Cfg_Method ac;
          Credential := credential; AC_TimeoutMs := Cfg_TimeoutMs ac;
          AC_SourceSystem := EmptyString; AC_SourceRequestID := EmptyString;
          HasHTTPClient := R_hasHTTPClient r; AllowedRespHeaders := R_allowedRespHeaders r |};
     RA_Description := Description ac;
     RA_TimeoutMs := Cfg_TimeoutMs ac;
     RA_RequestsPerSecond := Cfg_RequestsPerSecond ac;
     RA_MaxConcurrency := Cfg_MaxConcurrency ac;
     RA_CircuitBreaker := CircuitBreaker ac |}.

Definition set_resolved (r : Registry) (m : gmap string (ResolvedAction N)) : Registry :=
  {| R_Providers := R_Providers r; R_adapters := R_adapters r;
     R_hasHTTPClient := R_hasHTTPClient r; R_allowedRespHeaders := R_allowedRespHeaders r;
     R_resolved := m |}.

(** One iteration of [Build]'s loop; a failure stops the loop. *)
Definition build_provider (resolver : string -> res string) (r : Registry) (pc : string * N) : res Registry :=
  let '(providerCode, raw) := pc in
  match R_adapters r !! providerCode with
  | None => Err (EString ("provider " +:+ providerCode +:+ ": no adapter registered for this provider_code")%string)
  | Some adapter =>
      match Ad_Config adapter raw with
      | Err e => Err (EWrap ("provider " +:+ providerCode +:+ ": invalid adapter config: ")%string e EmptyString)
      | Ok c =>
          match Actions c with
          | [] => Err (EString ("provider " +:+ providerCode +:+ ": adapter config enables no actions")%string)
          | _ =>
              match resolver (CredentialRef c) with
              | Err e => Err (EWrap ("provider " +:+ providerCode +:+ ": resolve credential_ref " +:+ quote_q (CredentialRef c) +:+ ": ")%string e EmptyString)
              | Ok credential =>
                  Ok (set_resolved r
                        (fold_left (fun m na => <[key providerCode na.1 := resolve_action r adapter providerCode credential na]> m)
                           (Actions c) (R_resolved r)))
              end
          end
      end
  end.

Fixpoint build_all (resolver : string -> res string) (l : list (string * N)) (r : Registry) : res Registry :=
  match l with
  | [] => Ok r
  | pc :: rest =>
      match build_provider resolver r pc with
      | Err e => Err e
      | Ok r' => build_all resolver rest r'
      end
  end.

(** [Build]; the map of provider blocks is visited in some order. *)
Definition Build (resolver : string -> res string) (r : Registry) : res Registry :=
  build_all resolver (R_Providers r) r.

Definition Lookup (r : Registry) (providerCode providerAction : string) : option (ResolvedAction N) :=
  R_resolved r !! key providerCode providerAction.

Definition All (r : Registry) : gmap string (ResolvedAction N) := R_resolved r.
End registry.
Arguments Registry : clear implicits.
