(* ===== verification/Http.v ===== *)
(** * Calls to vendors ([internal/httpclient], [internal/provider/send.go],
      [provider_response.go], [credential.go])

    What an adapter's [SendActionRequest] asks of the outside world, the
    bounded HTTP client every HTTP adapter goes through, and the sanitizing of
    what a vendor answered. *)

From S2P Require Import Prelude Prog Errors Json JsonRaw Domain Crypto Url Provider.

(** ** Headers *)

Definition token_byte (c : ascii) : bool := is_alnum c || char_in "!#$%&'*+-.^_`|~" c.

Fixpoint canonical_go (upper : bool) (s : string) : string :=
  match s with
  | EmptyString => EmptyString
  | String c r => String (if upper then upper_byte c else lower_byte c) (canonical_go (Ascii.eqb c "-") r)
  end.

(** [textproto.CanonicalMIMEHeaderKey]. *)
Definition CanonicalMIMEHeaderKey (s : string) : string :=
  if negb (string_empty s) && string_forall token_byte s then canonical_go true s else s.

Abbreviation Header := (gmap string (list string)).

(** [h.Get(key)]: the first value. *)
Definition Header_Get (h : Header) (key : string) : string :=
  match h !! CanonicalMIMEHeaderKey key with Some (v :: _) => v | _ => EmptyString end.

(** Setting every entry of a [map[string]string]; its keys stay distinct in
    canonical form in all the code's maps. *)
Definition set_headers (l : list (string * string)) : Header :=
  fold_left (fun h kv => <[CanonicalMIMEHeaderKey kv.1 := [kv.2]]> h) l ∅.

(** ** The calls *)

Record Request := {
  Rq_Method : string;
  Rq_URL : string;
  Rq_Headers : list (string * string);
  Rq_Body : string;
  Rq_Timeout : Z;
  RejectRedirects : bool;
}.

(** What goes on the wire: the [http.Request] and the client's policies. *)
Record Wire := {
  W_Method : string;
  W_URL : string;
  W_Header : Header;
  W_Body : string;
  W_Timeout : Z;
  W_RejectRedirects : bool;
}.

Inductive http : Type -> Type :=
| HNow : http Z
| HCause : http (option error)
| HRoundTrip (rq : Wire) : http (res (Z * Header))
| HReadBody (limit : Z) : http (res string).

Abbreviation prog := (Prog.prog http).

(** ** [httpclient] *)

Record Response := {
  StatusCode : Z;
  Resp_Header : Header;
  Body : string;
  Truncated : bool;
}.

Definition default_max_response_bytes : Z := 1048576.

(** [New]: the bound the client is built with. *)
Definition httpclient_New (maxResponseBytes : Z) : Z :=
  if maxResponseBytes <=? 0 then default_max_response_bytes else maxResponseBytes.

Section client.
Context {Wd : Wording} (maxResponseBytes : Z).

(** [http.NewRequestWithContext]: an empty method is GET; the method must be
    a token and the URL must parse. *)
Definition NewRequest (req : Request) (timeout : Z) : res Wire :=
  let m := if string_empty (Rq_Method req) then "GET" else Rq_Method req in
  if negb (string_forall token_byte m) then Err (EString ("net/http: invalid method " +:+ quote_q m)%string)
  else
    match Parse (Rq_URL req) with
    | None => Err (EString (json_error (Rq_URL req)))
    | Some _ =>
        Ok {| W_Method := m; W_URL := Rq_URL req; W_Header := set_headers (Rq_Headers req); W_Body := Rq_Body req;
              W_Timeout := timeout; W_RejectRedirects := RejectRedirects req |}
    end.

(** [Do]: reads one byte more than it keeps, to know whether it truncates;
    the sum is an [int64]. *)
Definition Do (req : Request) : prog (res Response) :=
  (let timeout := if Rq_Timeout req <=? 0 then 10 * time_Second else Rq_Timeout req in
   match NewRequest req timeout with
   | Err e => Ret (Err e)
   | Ok wire =>
       resp <- trigger (HRoundTrip wire) ;;
       match resp with
       | Err e => Ret (Err e)
       | Ok (status, header) =>
           data <- trigger (HReadBody (int64 (maxResponseBytes + 1))) ;;
           match data with
           | Err e => Ret (Err e)
           | Ok data =>
               let truncated := maxResponseBytes <? Z.of_nat (String.length data) in
               Ret (Ok {| StatusCode := status; Resp_Header := header;
                          Body := if truncated then take_bytes (Z.to_nat maxResponseBytes) data else data;
                          Truncated := truncated |})
           end
       end
   end)%prog.

Definition PreSendFailure (err : error) : bool :=
  match errors_As_Op err with
  | Some op => String.eqb op "dial"
  | None => false
  end.

(** ** Sanitizing *)

Definition isJSONContentType (ct : string) : bool := strings_Contains (strings_ToLower ct) "json".

Definition isTextualContentType (ct : string) : bool :=
  if string_empty ct then true
  else
    let ct := strings_ToLower ct in
    strings_HasPrefix ct "text/" || strings_Contains ct "json" || strings_Contains ct "xml" || strings_Contains ct "urlencoded".

(** The nil map and an empty one print the same. *)
Definition filterHeaders (h : Header) (allowed : list string) : list (string * string) :=
  List.filter (fun kv => negb (string_empty kv.2)) (List.map (fun name => (name, Header_Get h name)) allowed).

Definition body_digest (body : string) : string :=
  ("sha256:" +:+ hex_EncodeToString (Sum256 (bytes_of body)))%string.

(** [buildProviderResponse] of a response that is not nil; a text body is
    re-encoded as UTF-8 by [json.Marshal]. *)
Definition provider_response_doc (resp : Response) (allowedHeaders : list string) (now : Z) : ProviderResponseDoc :=
  let contentType := Header_Get (Resp_Header resp) "Content-Type" in
  let doc body len digest :=
    {| PR_HTTPStatus := StatusCode resp; PR_ContentType := contentType;
       PR_Headers := filterHeaders (Resp_Header resp) allowedHeaders; PR_Body := body;
       PR_ContentLength := len; PR_BodyDigest := digest; PR_ReceivedAt := now; PR_Truncated := Truncated resp |} in
  match (if isJSONContentType contentType then json_unmarshal (Body resp) else None) with
  | Some j => doc (Some j) 0 EmptyString
  | None =>
      if isTextualContentType contentType then doc (Some (JStr (Body resp))) 0 EmptyString
      else doc None (Z.of_nat (String.length (Body resp))) (body_digest (Body resp))
  end.

Definition buildProviderResponse (resp : Response) (allowedHeaders : list string) : prog json :=
  (now <- trigger HNow ;;
   Ret (marshal_provider_response (provider_response_doc resp allowedHeaders now)))%prog.

(** [Send]: the response, its record, the error. *)
Definition Send (ac : ActionContext) (req : Request) : prog (option Response * option json * option error) :=
  (if negb (HasHTTPClient ac) then Ret (None, None, Some (EString "provider HTTP client is nil"))
   else
     let req :=
       if Rq_Timeout req <=? 0 then
         {| Rq_Method := Rq_Method req; Rq_URL := Rq_URL req; Rq_Headers := Rq_Headers req; Rq_Body := Rq_Body req;
            Rq_Timeout := int64 (AC_TimeoutMs ac * time_Millisecond); RejectRedirects := RejectRedirects req |}
       else req in
     resp <- Do req ;;
     match resp with
     | Err e => Ret (None, None, Some e)
     | Ok resp =>
         pr <- buildProviderResponse resp (AllowedRespHeaders ac) ;;
         Ret (Some resp, Some pr, None)
     end)%prog.
End client.

(** ** Credentials *)

Section credentials.
Context {Wd : Wording} (LookupEnv : string -> option string).

(** [nonAlnum.ReplaceAllString(s, "_")]: every run of other bytes becomes
    one underscore. *)
Fixpoint collapse (in_run : bool) (s : string) : string :=
  match s with
  | EmptyString => EmptyString
  | String c r =>
      if is_alnum c then String c (collapse false r)
      else if in_run then collapse true r else String "_" (collapse true r)
  end.

Definition envNameFor (ref : string) : string :=
  let stripped := match after_index "://" ref with Some r => r | None => ref end in
  ("NOTIF_CRED_" +:+ strings_ToUpper (collapse false stripped))%string.

(** [EnvCredentialResolver.Resolve]. *)
Definition Resolve (ref : string) : res string :=
  if string_empty ref then Ok EmptyString
  else
    match LookupEnv (envNameFor ref) with
    | Some v => Ok v
    | None => Err (EString ("no environment variable " +:+ envNameFor ref +:+ " set for credential_ref " +:+ quote_q ref)%string)
    end.
End credentials.

Example env_name : envNameFor "vault://notification/lark-bot" = "NOTIF_CRED_NOTIFICATION_LARK_BOT".
Proof. vm_compute. reflexivity. Qed.

Example canonical_keys : List.map CanonicalMIMEHeaderKey ["content-type"; "x-REQUEST-id"; "bad key"; EmptyString]
  = ["Content-Type"; "X-Request-Id"; "bad key"; EmptyString].
Proof. vm_compute. reflexivity. Qed.
