(* ===== verification/Adapter.v ===== *)
(** * What the HTTP adapters share ([internal/provider/adapters/config.go] and
      the helpers of [smtp_email.go] and of the three HTTP adapters) *)

From S2P Require Import Prelude Float Prog Errors Json JsonRaw Url Provider Http.

(** [provider.DecodeConfig]: the raw block is printed and read back into the
    adapter's own type, unknown fields refused; the YAML library is a
    parameter. *)
Definition DecodeConfig {N A} (yaml_Marshal : N -> res string) (yaml_DecodeKnown : string -> res A) (raw : N) : res A :=
  match yaml_Marshal raw with
  | Err e => Err (EWrap "encode provider config: " e EmptyString)
  | Ok encoded =>
      match yaml_DecodeKnown encoded with
      | Err e => Err (EWrap "decode provider config: " e EmptyString)
      | Ok cfg => Ok cfg
      end
  end.

(** A numeric YAML field and its private configuration types. *)
Record adapterCircuitBreakerConfig := { CB_FailureThreshold : Z; CB_OpenDuration : Z }.

Definition validateDeliveryLimits (timeoutMs : Z) (requestsPerSecond : float64) (maxConcurrency : Z) : option error :=
  if timeoutMs <=? 0 then Some (EString "timeout_ms must be greater than zero")
  else if float_leb requestsPerSecond (float_of_Z 0) then Some (EString "requests_per_second must be greater than zero")
  else if maxConcurrency <=? 0 then Some (EString "max_concurrency must be greater than zero")
  else None.

Definition normalizeCircuitBreaker (cfg : option adapterCircuitBreakerConfig) : res (option CircuitBreakerConfig) :=
  match cfg with
  | None => Ok None
  | Some c =>
      if CB_FailureThreshold c =? 0 then Err (EString "failure_threshold must be greater than zero")
      else if CB_OpenDuration c <=? 0 then Err (EString "open_duration must be greater than zero")
      else Ok (Some {| FailureThreshold := CB_FailureThreshold c; OpenDuration := CB_OpenDuration c |})
  end.

Definition isLoopbackHost (host : string) : bool :=
  if strings_EqualFold host "localhost" then true
  else match ParseIP (strings_Trim host "[]") with Some ip => IsLoopback ip | None => false end.

Definition loopback_name (host : string) : bool :=
  String.eqb host "127.0.0.1" || String.eqb host "localhost" || String.eqb host "::1".

Definition has_credentials_or_query (u : URL) : bool :=
  HasUser u || negb (string_empty (RawQuery u)) || negb (string_empty (Fragment u)).

(** What [SendActionRequest] returns. *)
Abbreviation answer := (option Result * option error)%type.

Definition is_some {A} (o : option A) : bool := match o with Some _ => true | None => false end.

(** [Send] failed: an error of the worker when a response had arrived or the
    delivery's context is done, otherwise the vendor could not be reached. *)
Definition send_failed (resp : option Response) (err : error) (wrap noResponse preSend : string) : prog answer :=
  (cause <- match resp with Some _ => Ret (Some err) | None => trigger HCause end ;;
   if is_some cause then Ret (None, Some (EWrap wrap err EmptyString))
   else
     Ret (Some {| Success := false; AvailabilityFailure := true; Res_HTTPStatus := 0;
                  Res_ErrorClass := if PreSendFailure err then preSend else noResponse;
                  Res_Message := Error err; Res_ProviderResponse := None |}, None))%prog.

Definition set_provider_response (r : Result) (pr : option json) : Result :=
  {| Success := Success r; AvailabilityFailure := AvailabilityFailure r; Res_HTTPStatus := Res_HTTPStatus r;
     Res_ErrorClass := Res_ErrorClass r; Res_Message := Res_Message r; Res_ProviderResponse := pr |}.

(** The statuses that say the vendor, not the request, is the problem. *)
Definition unavailable_status (st : Z) : bool := (st =? 408) || (st =? 429) || (500 <=? st).
Definition success_status (st : Z) : bool := (200 <=? st) && (st <? 300).

Definition unsupported {Wd : Wording} (prefix action : string) : error :=
  EString (prefix +:+ ": unsupported action " +:+ quote_q action)%string.

Example loopback_hosts : List.map isLoopbackHost ["LOCALHOST"; "[::1]"; "127.1.2.3"; "example.com"; "10.0.0.1"]
  = [true; true; true; false; false].
Proof. vm_compute. reflexivity. Qed.
