(* ===== verification/Webhook.v ===== *)
(** * The webhook adapter ([internal/provider/adapters/webhook.go]) *)

From S2P Require Import Prelude Float Prog Errors Json JsonRaw Crypto Url Provider Http Adapter.

Definition webhookMaxPayloadBytes : Z := 262144.

Record webhookDeliverConfig := {
  WD_EndpointURL : string;
  WD_Authentication : string;
  WD_TimeoutMs : Z;
  WD_RequestsPerSecond : float64;
  WD_MaxConcurrency : Z;
  WD_CircuitBreaker : option adapterCircuitBreakerConfig;
}.

Record webhookConfig := { WC_CredentialRef : string; WC_Deliver : webhookDeliverConfig }.

Definition validateFixedWebhookURL (raw : string) : option error :=
  match ParseRequestURI (strings_TrimSpace raw) with
  | None => Some (EString "must be an absolute URL")
  | Some u =>
      if string_empty (Host u) then Some (EString "must be an absolute URL")
      else if negb (String.eqb (Scheme u) "https") &&
              (negb (String.eqb (Scheme u) "http") || negb (isLoopbackHost (Hostname u)))
      then Some (EString "must use HTTPS (HTTP is allowed only for a loopback test endpoint)")
      else if has_credentials_or_query u
      then Some (EString "must not contain user info, query parameters, or a fragment")
      else None
  end.

Definition normalized_authentication (raw : string) : string :=
  let authentication := strings_ToLower (strings_TrimSpace raw) in
  if string_empty authentication then "none" else authentication.

(** The switch over the authentication kinds. *)
Definition check_authentication (authentication credentialRef : string) : option error :=
  if String.eqb authentication "none" then
    if negb (string_empty credentialRef) then Some (EString "credential_ref must be empty when authentication is none") else None
  else if String.eqb authentication "bearer" || String.eqb authentication "hmac_sha256" then
    if string_empty credentialRef
    then Some (EString ("credential_ref is required when authentication is " +:+ authentication)%string) else None
  else Some (EString "actions.deliver.authentication must be none, bearer, or hmac_sha256").

Section webhook.
Context {Wd : Wording} {Y : Type} (DecodeConfig : Y -> res webhookConfig) (maxResponseBytes : Z).

(** [Config]: the runtime configuration, and the adapter's new
    [authentication] field. *)
Definition Webhook_Config (raw : Y) : res (Config * string) :=
  match DecodeConfig raw with
  | Err e => Err e
  | Ok cfg =>
      let action := WC_Deliver cfg in
      match validateFixedWebhookURL (WD_EndpointURL action) with
      | Some e => Err (EWrap "actions.deliver.endpoint_url: " e EmptyString)
      | None =>
          match validateDeliveryLimits (WD_TimeoutMs action) (WD_RequestsPerSecond action) (WD_MaxConcurrency action) with
          | Some e => Err (EWrap "actions.deliver: " e EmptyString)
          | None =>
              let authentication := normalized_authentication (WD_Authentication action) in
              let credentialRef := strings_TrimSpace (WC_CredentialRef cfg) in
              match check_authentication authentication credentialRef with
              | Some e => Err e
              | None =>
                  match normalizeCircuitBreaker (WD_CircuitBreaker action) with
                  | Err e => Err (EWrap "actions.deliver.circuit_breaker: " e EmptyString)
                  | Ok breaker =>
                      Ok ({| CredentialRef := credentialRef;
                             Actions := [("deliver",
                               {| Description := "将 JSON 对象投递到配置中固定的 Webhook 端点；支持 Bearer 或 HMAC-SHA256 认证，禁止重定向";
                                  Cfg_BaseURL := EmptyString; Cfg_Path := WD_EndpointURL action; Cfg_Method := "POST";
                                  Cfg_TimeoutMs := WD_TimeoutMs action; Cfg_RequestsPerSecond := WD_RequestsPerSecond action;
                                  Cfg_MaxConcurrency := WD_MaxConcurrency action; CircuitBreaker := breaker |})] |},
                          authentication)
                  end
              end
          end
      end
  end.

Definition validateWebhookPayload (payload : string) : option error :=
  let n := Z.of_nat (String.length payload) in
  if webhookMaxPayloadBytes <? n then
    Some (EString ("payload is " +:+ strconv_Itoa n +:+ " bytes; maximum is " +:+ strconv_Itoa webhookMaxPayloadBytes +:+ " bytes")%string)
  else
    match json_unmarshal payload with
    | Some (JObj _) => None
    | _ => Some (EString "payload must be a JSON object")
    end.

Definition Webhook_Validate (action payload : string) : option error :=
  if negb (String.eqb action "deliver") then Some (unsupported "webhook" action)
  else
    match validateWebhookPayload payload with
    | Some e => Some (EValidation [Error e])
    | None => None
    end.

(** The seed of the key separates its parts with NUL bytes. *)
Definition idempotency_seed (providerCode sourceSystem sourceRequestID : string) : string :=
  (providerCode +:+ String "000" (sourceSystem +:+ String "000" sourceRequestID))%string.

Definition webhookIdempotencyKey (providerCode sourceSystem sourceRequestID : string) : string :=
  hex_EncodeToString (Sum256 (bytes_of (idempotency_seed providerCode sourceSystem sourceRequestID))).

Definition signWebhook (secret timestamp payload : string) : string :=
  ("sha256=" +:+ hex_EncodeToString (hmac_sha256 (bytes_of secret) (bytes_of (timestamp +:+ "." +:+ payload))))%string.

Definition interpretWebhookResponse (resp : Response) : Result :=
  let st := StatusCode resp in
  let rejected avail class msg :=
    {| Success := false; AvailabilityFailure := avail; Res_HTTPStatus := st; Res_ErrorClass := class;
       Res_Message := (msg +:+ strconv_Itoa st)%string; Res_ProviderResponse := None |} in
  if success_status st then
    {| Success := true; AvailabilityFailure := false; Res_HTTPStatus := st; Res_ErrorClass := EmptyString;
       Res_Message := "webhook endpoint explicitly accepted the request"; Res_ProviderResponse := None |}
  else if (300 <=? st) && (st <? 400) then
    rejected false "WEBHOOK_REDIRECT_REJECTED" "webhook endpoint returned redirect status "
  else if unavailable_status st then rejected true "WEBHOOK_HTTP_ERROR" "webhook endpoint returned HTTP status "
  else rejected false "WEBHOOK_HTTP_ERROR" "webhook endpoint returned HTTP status ".

(** The headers an authentication kind adds; [Err] ends the call. *)
Definition auth_headers (authentication credential payload : string) : prog (res (list (string * string))) :=
  (if String.eqb authentication "bearer" then Ret (Ok [("Authorization", ("Bearer " +:+ credential)%string)])
   else if String.eqb authentication "hmac_sha256" then
     now <- trigger HNow ;;
     let timestamp := strconv_Itoa (now / time_Second) in
     Ret (Ok [("X-Webhook-Timestamp", timestamp); ("X-Webhook-Signature", signWebhook credential timestamp payload)])
   else if String.eqb authentication "none" then Ret (Ok [])
   else Ret (Err (EString ("webhook: unsupported normalized authentication " +:+ quote_q authentication)%string)))%prog.

(** [SendActionRequest] of an adapter whose [authentication] field is the
    first argument. *)
Definition Webhook_Send (authentication : string) (ac : ActionContext) (action payload : string) : prog answer :=
  (if negb (String.eqb action "deliver") then Ret (None, Some (unsupported "webhook" action))
   else
     match validateWebhookPayload payload with
     | Some e => Ret (None, Some (EWrap "validate webhook payload: " e EmptyString))
     | None =>
         if negb (HasHTTPClient ac) then Ret (None, Some (EString "provider HTTP client is nil"))
         else if string_empty authentication then Ret (None, Some (EString "webhook: adapter config was not initialized"))
         else if negb (String.eqb authentication "none") && string_empty (Credential ac) then
           Ret (None, Some (EString "webhook: resolved credential is empty"))
         else
           auth <- auth_headers authentication (Credential ac) payload ;;
           match auth with
           | Err e => Ret (None, Some e)
           | Ok auth =>
               x <- Send maxResponseBytes ac
                 {| Rq_Method := AC_Method ac; Rq_URL := AC_Path ac;
                    Rq_Headers :=
                      ("Content-Type", "application/json; charset=utf-8") ::
                      ("Idempotency-Key", webhookIdempotencyKey (AC_ProviderCode ac) (AC_SourceSystem ac) (AC_SourceRequestID ac)) ::
                      auth;
                    Rq_Body := payload; Rq_Timeout := 0; RejectRedirects := true |} ;;
               match x with
               | (resp, _, Some err) =>
                   send_failed resp err "process provider response: " "TRANSPORT_ERROR_NO_RESPONSE" "PRE_SEND_CONNECT_FAILURE"
               | (Some resp, pr, None) => Ret (Some (set_provider_response (interpretWebhookResponse resp) pr), None)
               | (None, _, None) => Ret (None, None) (* [Send] never returns this *)
               end
           end
     end)%prog.
End webhook.
