(* ===== verification/Loadtest.v ===== *)
(** * The load-test adapter ([internal/provider/adapters/loadtest_http.go]) *)

From S2P Require Import Prelude Float Prog Errors Json JsonRaw Url Provider Http Adapter.

Record loadtestHTTPRequestConfig := { LT_EndpointURL : string; LT_TimeoutMs : Z; LT_MaxConcurrency : Z }.

Definition validateLoadtestEndpoint (raw : string) : option error :=
  match ParseRequestURI raw with
  | None => Some (EString "must be an absolute URL")
  | Some u =>
      if string_empty (Host u) then Some (EString "must be an absolute URL")
      else if negb (String.eqb (Scheme u) "http") || negb (loopback_name (Hostname u))
      then Some (EString "must use HTTP on a loopback host")
      else if has_credentials_or_query u
      then Some (EString "must not contain user info, query parameters, or a fragment")
      else None
  end.

Section loadtest.
Context {Wd : Wording} {Y : Type} (DecodeConfig : Y -> res loadtestHTTPRequestConfig) (maxResponseBytes : Z).

Definition Loadtest_Config (raw : Y) : res Config :=
  match DecodeConfig raw with
  | Err e => Err e
  | Ok action =>
      match validateLoadtestEndpoint (LT_EndpointURL action) with
      | Some e => Err (EWrap "actions.request.endpoint_url: " e EmptyString)
      | None =>
          if LT_TimeoutMs action <=? 0 then Err (EString "actions.request.timeout_ms must be greater than zero")
          else if LT_MaxConcurrency action <=? 0 then Err (EString "actions.request.max_concurrency must be greater than zero")
          else
            Ok {| CredentialRef := EmptyString;
                  Actions := [("request",
                    {| Description := "压测专用：向本机 HTTP 模拟后端发送 JSON 请求，以 HTTP 2xx 作为成功";
                       Cfg_BaseURL := EmptyString; Cfg_Path := LT_EndpointURL action; Cfg_Method := "POST";
                       Cfg_TimeoutMs := LT_TimeoutMs action; Cfg_RequestsPerSecond := float_of_Z 0;
                       Cfg_MaxConcurrency := LT_MaxConcurrency action; CircuitBreaker := None |})] |}
      end
  end.

Definition Loadtest_Validate (action payload : string) : option error :=
  if negb (String.eqb action "request") then Some (unsupported "loadtest_http" action)
  else if negb (json_valid payload) then Some (EValidation ["payload must be valid JSON"])
  else None.

Definition loadtest_result (resp : Response) (pr : option json) : Result :=
  let st := StatusCode resp in
  let ok := success_status st in
  {| Success := ok; AvailabilityFailure := negb ok && unavailable_status st; Res_HTTPStatus := st;
     Res_ErrorClass := if ok then EmptyString else "LOADTEST_HTTP_STATUS";
     Res_Message := if ok then EmptyString else ("loadtest endpoint returned HTTP " +:+ strconv_Itoa st)%string;
     Res_ProviderResponse := pr |}.

Definition Loadtest_Send (ac : ActionContext) (action payload : string) : prog answer :=
  (if negb (String.eqb action "request") then Ret (None, Some (unsupported "loadtest_http" action))
   else
     x <- Send maxResponseBytes ac
       {| Rq_Method := AC_Method ac; Rq_URL := AC_Path ac; Rq_Headers := [("Content-Type", "application/json")];
          Rq_Body := payload; Rq_Timeout := 0; RejectRedirects := false |} ;;
     match x with
     | (resp, _, Some err) =>
         send_failed resp err "process loadtest response: " "LOADTEST_TRANSPORT_ERROR" "LOADTEST_PRE_SEND_CONNECT_FAILURE"
     | (Some resp, pr, None) => Ret (Some (loadtest_result resp pr), None)
     | (None, _, None) => Ret (None, None) (* [Send] never returns this *)
     end)%prog.
End loadtest.
