(* ===== verification/LarkBot.v ===== *)
(** * The Lark bot adapter ([internal/provider/adapters/lark_bot.go]) *)

From S2P Require Import Prelude Float Prog Errors Json JsonRaw Crypto Url Provider Http Adapter.

Definition larkMaxRequestBytes : Z := 20480.

Record larkSendConfig := {
  LS_WebhookURL : string;
  LS_TimeoutMs : Z;
  LS_RequestsPerSecond : float64;
  LS_MaxConcurrency : Z;
  LS_CircuitBreaker : option adapterCircuitBreakerConfig;
}.

Record larkBotConfig := { SigningSecretRef : string; LB_Send : larkSendConfig }.

Definition lark_webhookPath : string := "/open-apis/bot/v2/hook/".

Definition validateLarkWebhookURL (raw : string) : option error :=
  match ParseRequestURI raw with
  | None => Some (EString "must be an absolute URL")
  | Some u =>
      if string_empty (Host u) then Some (EString "must be an absolute URL")
      else if negb (String.eqb (Scheme u) "https") &&
              (negb (String.eqb (Scheme u) "http") || negb (loopback_name (Hostname u)))
      then Some (EString "must use HTTPS (HTTP is allowed only for a loopback test endpoint)")
      else if has_credentials_or_query u
      then Some (EString "must not contain user info, query parameters, or a fragment")
      else if negb (strings_HasPrefix (UPath u) lark_webhookPath) ||
              string_empty (strings_TrimPrefix (UPath u) lark_webhookPath)
      then Some (EString ("path must match " +:+ lark_webhookPath +:+ "<webhook-id>")%string)
      else None
  end.

(** The body sent to Lark; [Content] and [Card] are raw JSON, empty when nil. *)
Record larkWebhookRequest := {
  LR_Timestamp : string;
  LR_Sign : string;
  LR_MsgType : string;
  LR_Content : string;
  LR_Card : string;
}.

Record larkPayloadEnvelope := { LP_MsgType : string; LP_Content : string; LP_Card : string; LP_Text : string }.

Section larkbot.
Context {Wd : Wording} {Y : Type} (DecodeConfig : Y -> res larkBotConfig) (maxResponseBytes : Z).

Definition Lark_Config (raw : Y) : res Config :=
  match DecodeConfig raw with
  | Err e => Err e
  | Ok cfg =>
      let action := LB_Send cfg in
      match validateLarkWebhookURL (LS_WebhookURL action) with
      | Some e => Err (EWrap "actions.send.webhook_url: " e EmptyString)
      | None =>
          match validateDeliveryLimits (LS_TimeoutMs action) (LS_RequestsPerSecond action) (LS_MaxConcurrency action) with
          | Some e => Err (EWrap "actions.send: " e EmptyString)
          | None =>
              if float_ltb (float_of_Z 5) (LS_RequestsPerSecond action) then
                Err (EString "actions.send.requests_per_second must not exceed Lark's documented 5 requests/second limit")
              else
                match normalizeCircuitBreaker (LS_CircuitBreaker action) with
                | Err e => Err (EWrap "actions.send.circuit_breaker: " e EmptyString)
                | Ok breaker =>
                    Ok {| CredentialRef := SigningSecretRef cfg;
                          Actions := [("send",
                            {| Description := "向机器人所在群会话发送文本、富文本、图片、群名片或消息卡片；非幂等";
                               Cfg_BaseURL := EmptyString; Cfg_Path := LS_WebhookURL action; Cfg_Method := "POST";
                               Cfg_TimeoutMs := LS_TimeoutMs action; Cfg_RequestsPerSecond := LS_RequestsPerSecond action;
                               Cfg_MaxConcurrency := LS_MaxConcurrency action; CircuitBreaker := breaker |})] |}
                end
          end
      end
  end.

(** ** The message *)

(** [decodeLarkObject] *)
Definition decodeLarkObject (raw name : string) : res (gmap string string) :=
  match raw_object raw with
  | Some object => Ok object
  | None => Err (EString ("payload." +:+ name +:+ " must be an object")%string)
  end.

(** [requireLarkString]; a missing member is empty input for the decoder, and
    [null] leaves the string empty. *)
Definition requireLarkString (raw objectName field : string) : option error :=
  match decodeLarkObject raw objectName with
  | Err e => Some e
  | Ok object =>
      let value :=
        match object !! field with
        | Some text => match json_unmarshal text with Some j => into_string EmptyString [j] | None => None end
        | None => None
        end in
      match value with
      | Some v => if string_empty (strings_TrimSpace v)
                  then Some (EString ("payload." +:+ objectName +:+ "." +:+ field +:+ " must be a non-empty string")%string) else None
      | None => Some (EString ("payload." +:+ objectName +:+ "." +:+ field +:+ " must be a non-empty string")%string)
      end
  end.

Definition envelope_fields : list string := ["msg_type"; "content"; "card"; "text"].

(** [json.Unmarshal] into the envelope. *)
Definition unmarshal_envelope (payload : string) : option larkPayloadEnvelope :=
  match json_unmarshal payload with
  | Some JNull => Some {| LP_MsgType := EmptyString; LP_Content := EmptyString; LP_Card := EmptyString; LP_Text := EmptyString |}
  | Some (JObj _) =>
      match raw_members payload with
      | Some l =>
          let at_ f := raw_field envelope_fields f l in
          match into_string EmptyString (parsed (at_ "msg_type")), into_string EmptyString (parsed (at_ "text")) with
          | Some msgType, Some text =>
              Some {| LP_MsgType := msgType; LP_Content := into_raw (at_ "content"); LP_Card := into_raw (at_ "card"); LP_Text := text |}
          | _, _ => None
          end
      | None => None
      end
  | _ => None
  end.

(** The original [{"text": ...}] contract, rewritten to a text message. *)
Definition upgrade_text (e : larkPayloadEnvelope) : larkPayloadEnvelope :=
  if string_empty (LP_MsgType e) && negb (string_empty (strings_TrimSpace (LP_Text e))) then
    {| LP_MsgType := "text"; LP_Content := marshal_fields [("text", quote (LP_Text e))]; LP_Card := LP_Card e; LP_Text := LP_Text e |}
  else e.

Definition has_key (m : gmap string string) (k : string) : bool := is_some (m !! k).

(** The switch over [msg_type]. *)
Definition check_message (e : larkPayloadEnvelope) : option error :=
  let t := LP_MsgType e in
  if String.eqb t "text" then requireLarkString (LP_Content e) "content" "text"
  else if String.eqb t "image" then requireLarkString (LP_Content e) "content" "image_key"
  else if String.eqb t "share_chat" then requireLarkString (LP_Content e) "content" "share_chat_id"
  else if String.eqb t "post" then
    match decodeLarkObject (LP_Content e) "content" with
    | Err er => Some er
    | Ok content =>
        match content !! "post" with
        | None => Some (EString "payload.content.post is required for msg_type post")
        | Some post =>
            match decodeLarkObject post "content.post" with
            | Err er => Some er
            | Ok locales =>
                if has_key locales "zh_cn" || has_key locales "en_us" then None
                else Some (EString "payload.content.post must contain zh_cn or en_us")
            end
        end
    end
  else if String.eqb t "interactive" then
    match decodeLarkObject (LP_Card e) "card" with
    | Err er => Some er
    | Ok card => if decide (card = ∅) then Some (EString "payload.card must not be empty for msg_type interactive") else None
    end
  else Some (EString "payload.msg_type must be one of text, post, image, share_chat, interactive").

Definition normalizeLarkMessage (payload : string) : res larkWebhookRequest :=
  let n := Z.of_nat (String.length payload) in
  if larkMaxRequestBytes <? n then
    Err (EString ("payload is " +:+ strconv_Itoa n +:+ " bytes; Lark's maximum request body is " +:+
                  strconv_Itoa larkMaxRequestBytes +:+ " bytes")%string)
  else
    match unmarshal_envelope payload with
    | None => Err (EWrap "payload must be a JSON object: " (EString (json_error payload)) EmptyString)
    | Some envelope =>
        let envelope := upgrade_text envelope in
        match check_message envelope with
        | Some e => Err e
        | None =>
            Ok {| LR_Timestamp := EmptyString; LR_Sign := EmptyString; LR_MsgType := LP_MsgType envelope;
                  LR_Content := LP_Content envelope; LR_Card := LP_Card envelope |}
        end
    end.

Definition Lark_Validate (action payload : string) : option error :=
  if String.eqb action "send" then
    match normalizeLarkMessage payload with
    | Err e => Some (EValidation [Error e])
    | Ok _ => None
    end
  else Some (unsupported "lark_bot" action).

(** The timestamp is signed with itself in the key and an empty message. *)
Definition signLarkRequest (secret : string) (timestamp : Z) : string :=
  base64 false (hmac_sha256 (bytes_of (strconv_Itoa timestamp +:+ String "010" secret)%string) []).

(** [json.Marshal] of the request. *)
Definition marshal_lark (r : larkWebhookRequest) : string :=
  let opt k empty v := if string_empty empty then [] else [(k, v)] in
  marshal_fields
    (opt "timestamp" (LR_Timestamp r) (quote (LR_Timestamp r)) ++
     opt "sign" (LR_Sign r) (quote (LR_Sign r)) ++
     [("msg_type", quote (LR_MsgType r))] ++
     opt "content" (LR_Content r) (compact (LR_Content r)) ++
     opt "card" (LR_Card r) (compact (LR_Card r))).

Definition sign_message (r : larkWebhookRequest) (signingSecret : string) (now : Z) : larkWebhookRequest :=
  if string_empty signingSecret then r
  else
    let timestamp := now / time_Second in
    {| LR_Timestamp := strconv_Itoa timestamp; LR_Sign := signLarkRequest signingSecret timestamp;
       LR_MsgType := LR_MsgType r; LR_Content := LR_Content r; LR_Card := LR_Card r |}.

Definition buildLarkRequestBody (payload signingSecret : string) (now : Z) : res string :=
  match normalizeLarkMessage payload with
  | Err e => Err e
  | Ok message =>
      let body := marshal_lark (sign_message message signingSecret now) in
      let n := Z.of_nat (String.length body) in
      if larkMaxRequestBytes <? n then
        Err (EString ("Lark webhook request body is " +:+ strconv_Itoa n +:+ " bytes; maximum is " +:+
                      strconv_Itoa larkMaxRequestBytes +:+ " bytes")%string)
      else Ok body
  end.

(** ** The answer *)

(** [larkWebhookResponse]: [None] is an unmarshalling error. *)
Definition unmarshal_lark_response (body : string) : option (option Z * string) :=
  match json_unmarshal body with
  | Some JNull => Some (None, EmptyString)
  | Some (JObj m) =>
      match into_int_ptr None (members_of ["code"; "msg"] "code" m), into_string EmptyString (members_of ["code"; "msg"] "msg" m) with
      | Some code, Some msg => Some (code, msg)
      | _, _ => None
      end
  | _ => None
  end.

Definition interpretLarkResponse (resp : Response) : Result :=
  let st := StatusCode resp in
  let failed avail class msg :=
    {| Success := false; AvailabilityFailure := avail; Res_HTTPStatus := st; Res_ErrorClass := class;
       Res_Message := msg; Res_ProviderResponse := None |} in
  if negb (st =? 200) then
    failed (unavailable_status st) "LARK_HTTP_ERROR" ("lark webhook returned status " +:+ strconv_Itoa st)%string
  else
    match unmarshal_lark_response (Body resp) with
    | None => failed true "UNEXPECTED_VENDOR_BODY" "lark webhook returned a non-JSON or unexpected body"
    | Some (None, _) => failed true "UNEXPECTED_VENDOR_BODY" "lark webhook response did not contain code"
    | Some (Some code, msg) =>
        if code =? 0 then
          {| Success := true; AvailabilityFailure := false; Res_HTTPStatus := st; Res_ErrorClass := EmptyString;
             Res_Message := EmptyString; Res_ProviderResponse := None |}
        else failed (code =? 11232) ("LARK_CODE_" +:+ strconv_Itoa code)%string msg
    end.

Definition sendMessage (ac : ActionContext) (payload : string) : prog answer :=
  (now <- trigger HNow ;;
   match buildLarkRequestBody payload (Credential ac) now with
   | Err e => Ret (None, Some (EWrap "build request body: " e EmptyString))
   | Ok bodyJSON =>
       if negb (HasHTTPClient ac) then Ret (None, Some (EString "provider HTTP client is nil"))
       else
         x <- Send maxResponseBytes ac
           {| Rq_Method := AC_Method ac; Rq_URL := AC_Path ac;
              Rq_Headers := [("Content-Type", "application/json; charset=utf-8")];
              Rq_Body := bodyJSON; Rq_Timeout := 0; RejectRedirects := false |} ;;
         match x with
         | (resp, _, Some err) =>
             send_failed resp err "process provider response: " "TRANSPORT_ERROR_NO_RESPONSE" "PRE_SEND_CONNECT_FAILURE"
         | (Some resp, pr, None) => Ret (Some (set_provider_response (interpretLarkResponse resp) pr), None)
         | (None, _, None) => Ret (None, None) (* [Send] never returns this *)
         end
   end)%prog.

Definition Lark_Send (ac : ActionContext) (action payload : string) : prog answer :=
  if String.eqb action "send" then sendMessage ac payload else Ret (None, Some (unsupported "lark_bot" action)).
End larkbot.
