(* ===== verification/Firebase.v ===== *)
(** * The Firebase push adapter ([internal/provider/adapters/firebase_push.go])

    The Firebase SDK is a parameter: its constructors and its send are
    effects, its error predicates are the class [FirebaseSDK].  The cached
    messaging client is shared by all deliveries of the adapter. *)

From S2P Require Import Prelude Float Prog Errors Json JsonRaw Url Provider Http Adapter.

Definition firebasePushMaxPayload : Z := 4096.

(** [errorutils] and [messaging]: what the SDK says of an error. *)
Class FirebaseSDK := {
  errorutils_HTTPResponse : error -> option Z;
  errorutils_IsDeadlineExceeded : error -> bool;
  errorutils_IsCancelled : error -> bool;
  errorutils_IsInvalidArgument : error -> bool;
  errorutils_IsResourceExhausted : error -> bool;
  errorutils_IsUnavailable : error -> bool;
  errorutils_IsInternal : error -> bool;
  errorutils_IsUnauthenticated : error -> bool;
  errorutils_IsPermissionDenied : error -> bool;
  messaging_IsUnregistered : error -> bool;
  messaging_IsThirdPartyAuthError : error -> bool;
  messaging_IsSenderIDMismatch : error -> bool;
  messaging_IsInvalidArgument : error -> bool;
  messaging_IsQuotaExceeded : error -> bool;
  messaging_IsUnavailable : error -> bool;
  messaging_IsInternal : error -> bool;
}.

(** ** Configuration *)

Record firebasePushSendConfig := {
  FS_TimeoutMs : Z;
  FS_RequestsPerSecond : float64;
  FS_MaxConcurrency : Z;
  FS_CircuitBreaker : option adapterCircuitBreakerConfig;
}.

Record firebasePushConfig := { FB_ProjectID : string; FB_CredentialsRef : string; FB_Send : firebasePushSendConfig }.

(** What [Config] stores in the adapter, besides clearing the cached client. *)
Record FirebasePush := { projectID : string; credentialsRequired : bool; initialized : bool }.

Definition NewFirebasePush : FirebasePush := {| projectID := EmptyString; credentialsRequired := false; initialized := false |}.

Definition project_delimiters : string := ("/\?#@ " +:+ string_of_bytes [9; 13; 10]%N)%string.

Definition validateFirebaseProjectID (projectID : string) : option error :=
  if string_empty projectID then Some (EString "must not be empty")
  else if (128 <? String.length projectID)%nat then Some (EString "must not exceed 128 characters")
  else if strings_ContainsAny projectID project_delimiters
  then Some (EString "must not contain whitespace, URL delimiters, or credentials")
  else None.

Definition validateHTTPSURL (raw : string) : option error :=
  match ParseRequestURI raw with
  | Some u =>
      if negb (String.eqb (Scheme u) "https") || string_empty (Host u) || HasUser u || negb (string_empty (Fragment u))
      then Some (EString "must be an absolute HTTPS URL without credentials or fragment") else None
  | None => Some (EString "must be an absolute HTTPS URL without credentials or fragment")
  end.

Definition Firebase_Config {Y} (DecodeConfig : Y -> res firebasePushConfig) (raw : Y) : res (Config * FirebasePush) :=
  match DecodeConfig raw with
  | Err e => Err e
  | Ok cfg =>
      let project := strings_TrimSpace (FB_ProjectID cfg) in
      match validateFirebaseProjectID project with
      | Some e => Err (EWrap "project_id: " e EmptyString)
      | None =>
          let action := FB_Send cfg in
          match validateDeliveryLimits (FS_TimeoutMs action) (FS_RequestsPerSecond action) (FS_MaxConcurrency action) with
          | Some e => Err (EWrap "actions.send: " e EmptyString)
          | None =>
              match normalizeCircuitBreaker (FS_CircuitBreaker action) with
              | Err e => Err (EWrap "actions.send.circuit_breaker: " e EmptyString)
              | Ok breaker =>
                  let credentialsRef := strings_TrimSpace (FB_CredentialsRef cfg) in
                  Ok ({| CredentialRef := credentialsRef;
                         Actions := [("send",
                           {| Description := "通过 Firebase Cloud Messaging 向单个 iOS 或 Android 设备发送推送；成功仅表示 FCM 已接受";
                              Cfg_BaseURL := EmptyString; Cfg_Path := EmptyString; Cfg_Method := "FCM";
                              Cfg_TimeoutMs := FS_TimeoutMs action; Cfg_RequestsPerSecond := FS_RequestsPerSecond action;
                              Cfg_MaxConcurrency := FS_MaxConcurrency action; CircuitBreaker := breaker |})] |},
                      {| projectID := project; credentialsRequired := negb (string_empty credentialsRef); initialized := true |})
              end
          end
      end
  end.

(** ** The payload *)

Record firebaseNotification := { FN_Title : string; FN_Body : string; FN_ImageURL : string }.
Record firebaseAndroidOverrides := { FA_Priority : string; FA_ChannelID : string; FA_Sound : string }.
Record firebaseIOSOverrides := { FI_Sound : string; FI_Badge : option Z; FI_ContentAvailable : bool }.

Record firebasePushPayload := {
  FID : string;
  Token : string;
  FP_Notification : option firebaseNotification;
  FP_Data : gmap string string;
  FP_Android : option firebaseAndroidOverrides;
  FP_IOS : option firebaseIOSOverrides;
}.

(** The decoder with unknown fields disallowed, level by level. *)
Definition notification_members (n : firebaseNotification) (m : list (string * json)) : option firebaseNotification :=
  let names := ["title"; "body"; "image_url"] in
  if unknown_member names m then None
  else
    match into_string (FN_Title n) (members_of names "title" m), into_string (FN_Body n) (members_of names "body" m),
          into_string (FN_ImageURL n) (members_of names "image_url" m) with
    | Some t, Some b, Some i => Some {| FN_Title := t; FN_Body := b; FN_ImageURL := i |}
    | _, _, _ => None
    end.

Definition android_members (a : firebaseAndroidOverrides) (m : list (string * json)) : option firebaseAndroidOverrides :=
  let names := ["priority"; "channel_id"; "sound"] in
  if unknown_member names m then None
  else
    match into_string (FA_Priority a) (members_of names "priority" m), into_string (FA_ChannelID a) (members_of names "channel_id" m),
          into_string (FA_Sound a) (members_of names "sound" m) with
    | Some p, Some c, Some s => Some {| FA_Priority := p; FA_ChannelID := c; FA_Sound := s |}
    | _, _, _ => None
    end.

Definition ios_members (i : firebaseIOSOverrides) (m : list (string * json)) : option firebaseIOSOverrides :=
  let names := ["sound"; "badge"; "content_available"] in
  if unknown_member names m then None
  else
    match into_string (FI_Sound i) (members_of names "sound" m), into_int_ptr (FI_Badge i) (members_of names "badge" m),
          into_bool (FI_ContentAvailable i) (members_of names "content_available" m) with
    | Some s, Some b, Some c => Some {| FI_Sound := s; FI_Badge := b; FI_ContentAvailable := c |}
    | _, _, _ => None
    end.

Definition zero_notification : firebaseNotification := {| FN_Title := EmptyString; FN_Body := EmptyString; FN_ImageURL := EmptyString |}.
Definition zero_android : firebaseAndroidOverrides := {| FA_Priority := EmptyString; FA_ChannelID := EmptyString; FA_Sound := EmptyString |}.
Definition zero_ios : firebaseIOSOverrides := {| FI_Sound := EmptyString; FI_Badge := None; FI_ContentAvailable := false |}.
Definition zero_push : firebasePushPayload :=
  {| FID := EmptyString; Token := EmptyString; FP_Notification := None; FP_Data := ∅; FP_Android := None; FP_IOS := None |}.

Definition decode_push (j : json) : option firebasePushPayload :=
  let names := ["fid"; "token"; "notification"; "data"; "android"; "ios"] in
  match j with
  | JNull => Some zero_push
  | JObj m =>
      if unknown_member names m then None
      else
        match into_string EmptyString (members_of names "fid" m), into_string EmptyString (members_of names "token" m),
              into_struct zero_notification notification_members None (members_of names "notification" m),
              into_string_map ∅ (members_of names "data" m),
              into_struct zero_android android_members None (members_of names "android" m),
              into_struct zero_ios ios_members None (members_of names "ios" m) with
        | Some f, Some t, Some n, Some d, Some a, Some i =>
            Some {| FID := f; Token := t; FP_Notification := n; FP_Data := d; FP_Android := a; FP_IOS := i |}
        | _, _, _, _, _, _ => None
        end
  | _ => None
  end.

(** [ensureJSONEOF], on what follows the first value. *)
Definition ensureJSONEOF {Wd : Wording} (rest : string) : option error :=
  if all_space rest then None
  else
    match json_decode rest with
    | Some _ => Some (EString "payload must contain exactly one JSON value")
    | None => Some (EWrap "payload contains trailing invalid JSON: " (EString (json_error rest)) EmptyString)
    end.

(** Non-empty and nothing but white space. *)
Definition blank_text (s : string) : bool := string_empty (strings_TrimSpace s) && negb (string_empty s).

Definition reserved_key (key : string) : bool :=
  let lower := strings_ToLower key in
  String.eqb lower "from" || String.eqb lower "message_type" || strings_HasPrefix lower "google." || strings_HasPrefix lower "gcm.".

Section payload.
Context {Wd : Wording} (range_keys : gmap string string -> list string).

(** The first bad key in the order the map is ranged over. *)
Fixpoint check_data_keys (keys : list string) : option error :=
  match keys with
  | [] => None
  | key :: r =>
      if string_empty (strings_TrimSpace key) then Some (EString "payload.data keys must be non-empty")
      else if reserved_key key then Some (EString ("payload.data key " +:+ quote_q key +:+ " is reserved by FCM")%string)
      else check_data_keys r
  end.

Definition check_notification (n : option firebaseNotification) : option error :=
  match n with
  | None => None
  | Some n =>
      if string_empty (strings_TrimSpace (FN_Title n)) && string_empty (strings_TrimSpace (FN_Body n))
      then Some (EString "payload.notification.title or payload.notification.body must be non-empty")
      else if string_empty (FN_ImageURL n) then None
      else match validateHTTPSURL (FN_ImageURL n) with
           | Some e => Some (EWrap "payload.notification.image_url: " e EmptyString)
           | None => None
           end
  end.

(** The override with its priority normalized. *)
Definition normalize_android (a : option firebaseAndroidOverrides) : res (option firebaseAndroidOverrides) :=
  match a with
  | None => Ok None
  | Some a =>
      let priority := strings_ToLower (strings_TrimSpace (FA_Priority a)) in
      if negb (string_empty priority) && negb (String.eqb priority "normal") && negb (String.eqb priority "high")
      then Err (EString "payload.android.priority must be normal or high")
      else if blank_text (FA_ChannelID a) then Err (EString "payload.android.channel_id must not contain only whitespace")
      else if blank_text (FA_Sound a) then Err (EString "payload.android.sound must not contain only whitespace")
      else Ok (Some {| FA_Priority := priority; FA_ChannelID := FA_ChannelID a; FA_Sound := FA_Sound a |})
  end.

Definition check_ios (i : option firebaseIOSOverrides) : option error :=
  match i with
  | None => None
  | Some i =>
      if match FI_Badge i with Some b => b <? 0 | None => false end
      then Some (EString "payload.ios.badge must be zero or greater")
      else if blank_text (FI_Sound i) then Some (EString "payload.ios.sound must not contain only whitespace")
      else None
  end.

Definition payload_too_large (payload : string) (limit : Z) : option error :=
  let n := Z.of_nat (String.length payload) in
  if limit <? n
  then Some (EString ("payload is " +:+ strconv_Itoa n +:+ " bytes; maximum is " +:+ strconv_Itoa limit +:+ " bytes")%string)
  else None.

(** The checks after decoding. *)
Definition check_push (v : firebasePushPayload) : res firebasePushPayload :=
  let fid := strings_TrimSpace (FID v) in
  let token := strings_TrimSpace (Token v) in
  if Bool.eqb (string_empty fid) (string_empty token)
  then Err (EString "payload must specify exactly one non-empty fid or token")
  else if negb (is_some (FP_Notification v)) && bool_decide (FP_Data v = ∅)
  then Err (EString "payload.notification or payload.data must be provided")
  else
    match check_notification (FP_Notification v) with
    | Some e => Err e
    | None =>
        match check_data_keys (range_keys (FP_Data v)) with
        | Some e => Err e
        | None =>
            match normalize_android (FP_Android v) with
            | Err e => Err e
            | Ok android =>
                match check_ios (FP_IOS v) with
                | Some e => Err e
                | None =>
                    Ok {| FID := fid; Token := token; FP_Notification := FP_Notification v; FP_Data := FP_Data v;
                          FP_Android := android; FP_IOS := FP_IOS v |}
                end
            end
        end
    end.

Definition normalizeFirebasePushPayload (payload : string) : res firebasePushPayload :=
  match payload_too_large payload firebasePushMaxPayload with
  | Some e => Err e
  | None =>
      match json_decode payload with
      | Some (j, rest) =>
          match decode_push j with
          | Some value => match ensureJSONEOF rest with Some e => Err e | None => check_push value end
          | None => Err (EWrap "payload must be a JSON object using only the documented Firebase push fields: " (EString (json_error payload)) EmptyString)
          end
      | None => Err (EWrap "payload must be a JSON object using only the documented Firebase push fields: " (EString (json_error payload)) EmptyString)
      end
  end.

Definition Firebase_Validate (action payload : string) : option error :=
  if String.eqb action "send" then
    match normalizeFirebasePushPayload payload with
    | Err e => Some (EValidation [Error e])
    | Ok _ => None
    end
  else Some (unsupported "firebase_push" action).

(** ** The message *)

Record AndroidConfig := { An_Priority : string; An_Notification : option (string * string) }.
Record Aps := { Aps_Sound : string; Aps_Badge : option Z; Aps_ContentAvailable : bool; Aps_MutableContent : bool }.
Record APNSConfig := { Apns_Aps : Aps; Apns_ImageURL : option string }.

(** The fields of [messaging.Message] the code sets; an Android notification
    is its channel and its sound. *)
Record Message := {
  M_Fid : string;
  M_Token : string;
  M_Data : gmap string string;
  M_Notification : option firebaseNotification;
  M_Android : option AndroidConfig;
  M_APNS : option APNSConfig;
}.

Definition android_config (a : firebaseAndroidOverrides) : AndroidConfig :=
  {| An_Priority := FA_Priority a;
     An_Notification :=
       if string_empty (FA_ChannelID a) && string_empty (FA_Sound a) then None else Some (FA_ChannelID a, FA_Sound a) |}.

Definition apns_config (ios : option firebaseIOSOverrides) (imageURL : string) : option APNSConfig :=
  if is_some ios || negb (string_empty imageURL) then
    let i := default zero_ios ios in
    Some {| Apns_Aps := {| Aps_Sound := FI_Sound i; Aps_Badge := FI_Badge i; Aps_ContentAvailable := FI_ContentAvailable i;
                           Aps_MutableContent := negb (string_empty imageURL) |};
            Apns_ImageURL := if string_empty imageURL then None else Some imageURL |}
  else None.

Definition message_of (v : firebasePushPayload) : Message :=
  {| M_Fid := FID v; M_Token := Token v; M_Data := FP_Data v; M_Notification := FP_Notification v;
     M_Android := option_map android_config (FP_Android v);
     M_APNS := apns_config (FP_IOS v) (match FP_Notification v with Some n => FN_ImageURL n | None => EmptyString end) |}.

Definition buildFirebaseMessage (payload : string) : res Message :=
  match normalizeFirebasePushPayload payload with
  | Err e => Err e
  | Ok value => Ok (message_of value)
  end.
End payload.

(** ** Failures *)

Section failures.
Context {SDK : FirebaseSDK}.

(** The class, the message and whether Firebase is at fault; [cause] is the
    context's. *)
Definition firebase_failure (cause : option error) (err : error) (phase : string) : string * string * bool :=
  let cause_is s := match cause with Some c => errors_Is c s | None => false end in
  if cause_is CtxDeadlineExceeded || errors_Is err CtxDeadlineExceeded || errorutils_IsDeadlineExceeded err
  then ("FCM_TIMEOUT", "Firebase Cloud Messaging request timed out", true)
  else if cause_is CtxCanceled || errors_Is err CtxCanceled || errorutils_IsCancelled err
  then ("FCM_CONTEXT_CANCELED", "Firebase Cloud Messaging request was canceled", false)
  else if messaging_IsUnregistered err
  then ("FCM_TARGET_UNREGISTERED", "the Firebase installation ID or registration token is no longer registered", false)
  else if messaging_IsThirdPartyAuthError err
  then ("FCM_APNS_AUTH_ERROR", "Firebase rejected the configured APNs credentials", false)
  else if messaging_IsSenderIDMismatch err
  then ("FCM_SENDER_ID_MISMATCH", "the target does not belong to the configured Firebase sender", false)
  else if messaging_IsInvalidArgument err || errorutils_IsInvalidArgument err
  then ("FCM_INVALID_ARGUMENT", "Firebase rejected the message as invalid", false)
  else if messaging_IsQuotaExceeded err || errorutils_IsResourceExhausted err
  then ("FCM_QUOTA_EXCEEDED", "Firebase Cloud Messaging quota or rate limit was exceeded", true)
  else if messaging_IsUnavailable err || errorutils_IsUnavailable err
  then ("FCM_UNAVAILABLE", "Firebase Cloud Messaging is temporarily unavailable", true)
  else if messaging_IsInternal err || errorutils_IsInternal err
  then ("FCM_INTERNAL_ERROR", "Firebase Cloud Messaging returned an internal error", true)
  else if errorutils_IsUnauthenticated err
  then ("FCM_UNAUTHENTICATED", "Firebase rejected the configured credential", false)
  else if errorutils_IsPermissionDenied err
  then ("FCM_PERMISSION_DENIED", "the configured credential cannot send Firebase Cloud Messaging messages", false)
  else
    match errors_As_Net err with
    | Some _ => ("FCM_TRANSPORT_ERROR", "Firebase Cloud Messaging could not be reached", true)
    | None =>
        if String.eqb phase "client_init"
        then ("FCM_CLIENT_INIT_ERROR", "the Firebase messaging client could not be initialized", false)
        else ("FCM_SEND_ERROR", "Firebase Cloud Messaging rejected or could not process the message", false)
    end.

(** [json.Marshal] of a map prints its keys in order. *)
Definition classifyFirebasePushFailure (cause : option error) (err : error) (phase : string) : Result :=
  let status := default 0 (errorutils_HTTPResponse err) in
  let '(class, message, unavailable) := firebase_failure cause err phase in
  {| Success := false; AvailabilityFailure := unavailable; Res_HTTPStatus := status; Res_ErrorClass := class; Res_Message := message;
     Res_ProviderResponse :=
       if status =? 0 then None else Some (JObj [("error_class", JStr class); ("http_status", JInt status)]) |}.
End failures.

(** ** The client and the delivery

    A client of the SDK is a handle.  The lock is [clientMu]; the load before
    it is made under its read side, which only keeps the field's value
    whole. *)

Abbreviation client := N.

Inductive fcm : Type -> Type :=
| FLoad : fcm (option client)
| FLock : fcm unit
| FStore (c : client) : fcm unit
| FUnlock : fcm unit
| FNewApp (projectID : string) (credential : option string) : fcm (res client)
| FMessaging (app : client) : fcm (res client)
| FSend (c : client) (m : Message) : fcm (res string)
| FCause : fcm (option error).

Abbreviation fprog := (Prog.prog fcm).

(** [header.Type] of the service-account key. *)
Definition credential_type (credential : string) : option string :=
  match json_unmarshal credential with
  | Some JNull => Some EmptyString
  | Some (JObj m) => into_string EmptyString (members_of ["type"] "type" m)
  | _ => None
  end.

Section delivery.
Context {Wd : Wording} {SDK : FirebaseSDK} (range_keys : gmap string string -> list string) (a : FirebasePush).

Definition newFirebaseMessagingClient (project credential : string) : fprog (res client) :=
  (let credential_option :=
     if string_empty (strings_TrimSpace credential) then Ok None
     else
       match credential_type credential with
       | None => Err (EWrap "decode Firebase service-account credential: " (EString (json_error credential)) EmptyString)
       | Some t => if String.eqb t "service_account" then Ok (Some credential)
                   else Err (EString "Firebase credential type must be service_account")
       end in
   match credential_option with
   | Err e => Ret (Err e)
   | Ok clientOptions =>
       app <- trigger (FNewApp project clientOptions) ;;
       match app with
       | Err e => Ret (Err (EWrap "initialize Firebase app: " e EmptyString))
       | Ok app =>
           c <- trigger (FMessaging app) ;;
           match c with
           | Err e => Ret (Err (EWrap "initialize Firebase messaging client: " e EmptyString))
           | Ok c => Ret (Ok c)
           end
       end
   end)%prog.

Definition messagingClient (credential : string) : fprog (res client) :=
  (cached <- trigger FLoad ;;
   match cached with
   | Some c => Ret (Ok c)
   | None =>
       trigger FLock ;;;
       again <- trigger FLoad ;;
       match again with
       | Some c => trigger FUnlock ;;; Ret (Ok c)
       | None =>
           created <- newFirebaseMessagingClient (projectID a) credential ;;
           match created with
           | Err e => trigger FUnlock ;;; Ret (Err e)
           | Ok c => trigger (FStore c) ;;; trigger FUnlock ;;; Ret (Ok c)
           end
       end
   end)%prog.

Definition fcm_failed (err : error) (phase : string) : fprog answer :=
  (cause <- trigger FCause ;; Ret (Some (classifyFirebasePushFailure cause err phase), None))%prog.

Definition fcm_accepted (messageID : string) : Result :=
  {| Success := true; AvailabilityFailure := false; Res_HTTPStatus := 0; Res_ErrorClass := EmptyString;
     Res_Message := "FCM accepted the message";
     Res_ProviderResponse := Some (JObj [("accepted", JBool true); ("message_id", JStr messageID)]) |}.

Definition fcm_refused (availability : bool) (class message : string) : Result :=
  {| Success := false; AvailabilityFailure := availability; Res_HTTPStatus := 0; Res_ErrorClass := class; Res_Message := message;
     Res_ProviderResponse := None |}.

Definition Firebase_Send (ac : ActionContext) (action payload : string) : fprog answer :=
  (if negb (String.eqb action "send") then Ret (None, Some (unsupported "firebase_push" action))
   else
     match buildFirebaseMessage range_keys payload with
     | Err e => Ret (None, Some (EWrap "build Firebase message: " e EmptyString))
     | Ok message =>
         if negb (initialized a) then Ret (None, Some (EString "firebase_push: adapter config was not initialized"))
         else if credentialsRequired a && string_empty (strings_TrimSpace (Credential ac)) then
           Ret (Some (fcm_refused false "FCM_CREDENTIAL_EMPTY" "the configured Firebase service-account credential resolved to an empty value"), None)
         else if int64 (AC_TimeoutMs ac * time_Millisecond) <=? 0 then
           Ret (None, Some (EString "firebase_push: timeout_ms must be greater than zero"))
         else
           c <- messagingClient (Credential ac) ;;
           match c with
           | Err e => fcm_failed e "client_init"
           | Ok c =>
               messageID <- trigger (FSend c message) ;;
               match messageID with
               | Err e => fcm_failed e "send"
               | Ok messageID =>
                   if string_empty (strings_TrimSpace messageID) then
                     Ret (Some (fcm_refused true "FCM_PROTOCOL_ERROR" "FCM returned success without a message ID"), None)
                   else Ret (Some (fcm_accepted messageID), None)
               end
           end
     end)%prog.
End delivery.

(** ** Deliveries in parallel

    The cached client and the lock are shared; [fs_made] are the clients the
    SDK has built, [fs_used] those a message was sent with. *)
Record fsys := mkFsys {
  fs_client : option client;
  fs_lock : option nat;
  fs_made : list client;
  fs_used : list client;
  fs_threads : list (fprog answer);
}.

(** One call of thread [i]: what it may answer, and the shared state after. *)
Definition feffect (i : nat) (s : fsys) : forall X, fcm X -> X -> fsys -> Prop := fun X e =>
  match e in fcm X return X -> fsys -> Prop with
  | FLoad => fun x s' => x = fs_client s /\ s' = s
  | FLock => fun _ s' => fs_lock s = None /\ s' = mkFsys (fs_client s) (Some i) (fs_made s) (fs_used s) (fs_threads s)
  | FUnlock => fun _ s' => s' = mkFsys (fs_client s) None (fs_made s) (fs_used s) (fs_threads s)
  | FStore c => fun _ s' => s' = mkFsys (Some c) (fs_lock s) (fs_made s) (fs_used s) (fs_threads s)
  | FMessaging _ => fun x s' =>
      s' = mkFsys (fs_client s) (fs_lock s) (match x with Ok c => c :: fs_made s | Err _ => fs_made s end) (fs_used s) (fs_threads s)
  | FSend c _ => fun _ s' => s' = mkFsys (fs_client s) (fs_lock s) (fs_made s) (c :: fs_used s) (fs_threads s)
  | FNewApp _ _ | FCause => fun _ s' => s' = s
  end.

Definition set_fthreads (s : fsys) (ths : list (fprog answer)) : fsys :=
  mkFsys (fs_client s) (fs_lock s) (fs_made s) (fs_used s) ths.

(** Any thread makes its next call, or a new delivery starts. *)
Inductive fstep (start : fprog answer -> Prop) : fsys -> fsys -> Prop :=
| fs_call i X (e : fcm X) k x s s' :
    fs_threads s !! i = Some (Vis e k) -> feffect i s X e x s' ->
    fstep start s (set_fthreads s' (<[i := k x]> (fs_threads s)))
| fs_start p s : start p -> fstep start s (set_fthreads s (fs_threads s ++ [p])).
