(* ===== verification/Smtp.v ===== *)
(** * The SMTP adapter ([internal/provider/adapters/smtp_email.go])

    A delivery is a session of SMTP commands, each an effect that may fail;
    parsing and printing of addresses, the encodings of [mime] and the date
    format are the class [MailLib]. *)

From S2P Require Import Prelude Float Prog Errors Json JsonRaw Crypto Url Provider Http Adapter Firebase.

Definition smtpMaxPayloadBytes : Z := 262144.
Definition smtpMaxRecipients : nat := 100.

Record Address := mkAddress { Addr_Name : string; Addr_Address : string }.

(** [mail.ParseAddress], the [String] method of an address, [mime.QEncoding.Encode]
    for UTF-8, a quoted-printable writer's output for a whole text, and
    [time.Time.Format(time.RFC1123Z)] of a UTC instant. *)
Class MailLib := {
  mail_ParseAddress : string -> option Address;
  Address_String : Address -> string;
  QEncode : string -> string;
  quotedprintable : string -> string;
  rfc1123z : Z -> string;
}.

Definition crlf : string := string_of_bytes [13; 10]%N.
Definition no_crlf (s : string) : bool := negb (strings_ContainsAny s crlf).

(** ** Configuration *)

Record smtpSendConfig := {
  SC_Host : string;
  SC_Port : Z;
  SC_TLSMode : string;
  SC_Username : string;
  SC_FromAddress : string;
  SC_FromName : string;
  SC_TimeoutMs : Z;
  SC_RequestsPerSecond : float64;
  SC_MaxConcurrency : Z;
  SC_CircuitBreaker : option adapterCircuitBreakerConfig;
}.

Record smtpEmailConfig := { SE_PasswordRef : string; SE_Send : smtpSendConfig }.

Record smtpSendRuntimeConfig := {
  RC_Host : string;
  RC_Address : string;
  RC_TLSMode : string;
  RC_Username : string;
  RC_From : Address;
  RC_Initialized : bool;
}.

Definition NewSMTPEmail : smtpSendRuntimeConfig :=
  {| RC_Host := EmptyString; RC_Address := EmptyString; RC_TLSMode := EmptyString; RC_Username := EmptyString;
     RC_From := mkAddress EmptyString EmptyString; RC_Initialized := false |}.

Definition validateSMTPHost (host : string) : option error :=
  if string_empty host then Some (EString "must not be empty")
  else if strings_ContainsAny host ("/@?# " +:+ string_of_bytes [9; 13; 10]%N)%string
  then Some (EString "must be a hostname or IP address without scheme, path, credentials, or whitespace")
  else None.

(** [net.JoinHostPort]. *)
Definition JoinHostPort (host port : string) : string :=
  if string_mem ":" host then ("[" +:+ host +:+ "]:" +:+ port)%string else (host +:+ ":" +:+ port)%string.

(** The mode, or why it is refused for the host. *)
Definition resolve_tls_mode (host raw : string) : res string :=
  let m := strings_ToLower (strings_TrimSpace raw) in
  let tlsMode := if string_empty m then "starttls" else m in
  if String.eqb tlsMode "starttls" || String.eqb tlsMode "implicit_tls" then Ok tlsMode
  else if String.eqb tlsMode "disabled" then
    if isLoopbackHost host then Ok tlsMode
    else Err (EString "actions.send.tls_mode disabled is allowed only for a loopback test server")
  else Err (EString "actions.send.tls_mode must be starttls, implicit_tls, or disabled").

(** ** Commands

    The timeout of the dial bounds the whole session: at its end, or at the
    end of the delivery's context, the connection is closed and the next
    command answers an error. *)
Inductive smtp : Type -> Type :=
| SNow : smtp Z
| SBoundary : smtp string
| SCause : smtp (option error)
| SDial (implicitTLS : bool) (serverName address : string) (timeout : Z) : smtp (option error)
| SSetDeadline : smtp (option error)
| SNewClient (host : string) : smtp (option error)
| SExtension (name : string) : smtp bool
| SStartTLS (serverName : string) : smtp (option error)
| SAuth (username password host : string) : smtp (option error)
| SMail (from : string) : smtp (option error)
| SRcpt (to : string) : smtp (option error)
| SData : smtp (option error)
| SWrite (message : string) : smtp (option error)
| SDataClose : smtp (option error)
| SQuit : smtp (option error)
| SClientClose : smtp unit
| SConnClose : smtp unit.

Abbreviation sprog := (Prog.prog smtp).

(** The stage reached and the error. *)
Abbreviation outcome := (string * option error)%type.

Section smtp.
Context {Wd : Wording} {ML : MailLib}.

Definition parseSingleAddress (raw field : string) : res Address :=
  if negb (no_crlf raw) then Err (EString (field +:+ " must not contain CR or LF")%string)
  else
    match mail_ParseAddress (strings_TrimSpace raw) with
    | Some address =>
        if string_empty (strings_TrimSpace (Addr_Address address))
        then Err (EString (field +:+ " must be one valid email address")%string) else Ok address
    | None => Err (EString (field +:+ " must be one valid email address")%string)
    end.

Definition smtp_action_config (action : smtpSendConfig) (breaker : option CircuitBreakerConfig) : ActionConfig :=
  {| Description := "通过 SMTP 发送纯文本或 HTML 邮件；成功仅表示 SMTP 服务器已接受，不代表最终送达";
     Cfg_BaseURL := EmptyString; Cfg_Path := EmptyString; Cfg_Method := "SMTP";
     Cfg_TimeoutMs := SC_TimeoutMs action; Cfg_RequestsPerSecond := SC_RequestsPerSecond action;
     Cfg_MaxConcurrency := SC_MaxConcurrency action; CircuitBreaker := breaker |}.

(** The settings checked before the credentials. *)
Definition check_smtp_server (action : smtpSendConfig) : res (string * string) :=
  match validateDeliveryLimits (SC_TimeoutMs action) (SC_RequestsPerSecond action) (SC_MaxConcurrency action) with
  | Some e => Err (EWrap "actions.send: " e EmptyString)
  | None =>
      let host := strings_TrimSpace (SC_Host action) in
      match validateSMTPHost host with
      | Some e => Err (EWrap "actions.send.host: " e EmptyString)
      | None =>
          if (SC_Port action <? 1) || (65535 <? SC_Port action)
          then Err (EString "actions.send.port must be between 1 and 65535")
          else match resolve_tls_mode host (SC_TLSMode action) with Err e => Err e | Ok tlsMode => Ok (host, tlsMode) end
      end
  end.

Definition Smtp_Config {Y} (DecodeConfig : Y -> res smtpEmailConfig) (raw : Y) : res (Config * smtpSendRuntimeConfig) :=
  match DecodeConfig raw with
  | Err e => Err e
  | Ok cfg =>
      let action := SE_Send cfg in
      match check_smtp_server action with
      | Err e => Err e
      | Ok (host, tlsMode) =>
          let username := strings_TrimSpace (SC_Username action) in
          let passwordRef := strings_TrimSpace (SE_PasswordRef cfg) in
          if negb (Bool.eqb (string_empty username) (string_empty passwordRef))
          then Err (EString "username and password_ref must either both be configured or both be empty")
          else
            match parseSingleAddress (SC_FromAddress action) "from_address" with
            | Err e => Err (EWrap "actions.send." e EmptyString)
            | Ok from =>
                match normalizeCircuitBreaker (SC_CircuitBreaker action) with
                | Err e => Err (EWrap "actions.send.circuit_breaker: " e EmptyString)
                | Ok breaker =>
                    Ok ({| CredentialRef := passwordRef; Actions := [("send", smtp_action_config action breaker)] |},
                        {| RC_Host := host; RC_Address := JoinHostPort host (strconv_Itoa (SC_Port action));
                           RC_TLSMode := tlsMode; RC_Username := username;
                           RC_From := mkAddress (strings_TrimSpace (SC_FromName action)) (Addr_Address from);
                           RC_Initialized := true |})
                end
            end
      end
  end.

(** ** The payload *)

Record smtpPayload := { SP_To : list string; SP_Subject : string; SP_Text : string; SP_HTML : string }.

Record normalizedSMTPPayload := { Recipients : list Address; NS_Subject : string; NS_Text : string; NS_HTML : string }.

Definition decode_smtp (j : json) : option smtpPayload :=
  let names := ["to"; "subject"; "text"; "html"] in
  match j with
  | JNull => Some {| SP_To := []; SP_Subject := EmptyString; SP_Text := EmptyString; SP_HTML := EmptyString |}
  | JObj m =>
      if unknown_member names m then None
      else
        match into_strings [] 0 (members_of names "to" m), into_string EmptyString (members_of names "subject" m),
              into_string EmptyString (members_of names "text" m), into_string EmptyString (members_of names "html" m) with
        | Some t, Some s, Some x, Some h => Some {| SP_To := t; SP_Subject := s; SP_Text := x; SP_HTML := h |}
        | _, _, _, _ => None
        end
  | _ => None
  end.

(** The loop over the recipients, from index [i]. *)
Fixpoint parse_recipients (i : Z) (l : list string) : res (list Address) :=
  match l with
  | [] => Ok []
  | raw :: r =>
      match parseSingleAddress raw ("to[" +:+ strconv_Itoa i +:+ "]")%string with
      | Err e => Err e
      | Ok a => match parse_recipients (i + 1) r with Err e => Err e | Ok l => Ok (a :: l) end
      end
  end.

Definition check_smtp (v : smtpPayload) : res normalizedSMTPPayload :=
  let n := length (SP_To v) in
  if (n =? 0)%nat then Err (EString "payload.to must contain at least one recipient")
  else if (smtpMaxRecipients <? n)%nat then
    Err (EString ("payload.to contains " +:+ strconv_Itoa (Z.of_nat n) +:+ " recipients; maximum is " +:+
                  strconv_Itoa (Z.of_nat smtpMaxRecipients))%string)
  else if string_empty (strings_TrimSpace (SP_Subject v)) then Err (EString "payload.subject must be a non-empty string")
  else if negb (no_crlf (SP_Subject v)) then Err (EString "payload.subject must not contain CR or LF")
  else if string_empty (SP_Text v) && string_empty (SP_HTML v) then Err (EString "payload.text or payload.html must be non-empty")
  else
    match parse_recipients 0 (SP_To v) with
    | Err e => Err e
    | Ok rs => Ok {| Recipients := rs; NS_Subject := SP_Subject v; NS_Text := SP_Text v; NS_HTML := SP_HTML v |}
    end.

(** Only the first JSON value is read. *)
Definition normalizeSMTPPayload (payload : string) : res normalizedSMTPPayload :=
  match payload_too_large payload smtpMaxPayloadBytes with
  | Some e => Err e
  | None =>
      match (match json_decode payload with Some (j, _) => decode_smtp j | None => None end) with
      | Some value => check_smtp value
      | None => Err (EWrap "payload must be a JSON object with only to, subject, text, and html: " (EString (json_error payload)) EmptyString)
      end
  end.

Definition Smtp_Validate (action payload : string) : option error :=
  if String.eqb action "send" then
    match normalizeSMTPPayload payload with
    | Err e => Some (EValidation [Error e])
    | Ok _ => None
    end
  else Some (unsupported "smtp_email" action).

(** ** The message *)

Definition message_seed (sourceSystem sourceRequestID payload : string) : string :=
  if string_empty sourceSystem && string_empty sourceRequestID then payload
  else (sourceSystem +:+ String "000" sourceRequestID)%string.

Definition message_domain (fromAddress : string) : string :=
  match cut_last "@" fromAddress with
  | Some (_, d) => if string_empty d then "notification-delivery.local" else d
  | None => "notification-delivery.local"
  end.

Definition stableMessageID (sourceSystem sourceRequestID fromAddress payload : string) : string :=
  ("<" +:+ hex_EncodeToString (take 16 (Sum256 (bytes_of (message_seed sourceSystem sourceRequestID payload)))) +:+
   "@" +:+ message_domain fromAddress +:+ ">")%string.

Definition header_line (name value : string) : string := (name +:+ ": " +:+ value)%string.

(** Lines, each ended by CRLF. *)
Fixpoint lines (l : list string) : string :=
  match l with
  | [] => EmptyString
  | s :: r => (s +:+ crlf +:+ lines r)%string
  end.

(** [writeMIMEPart]: [CreatePart] writes the delimiter, after a line break
    unless the part is the first, and the header with its keys in order. *)
Definition writeMIMEPart (first : bool) (boundary contentType body : string) : string :=
  ((if first then EmptyString else crlf) +:+
   lines [("--" +:+ boundary)%string; header_line "Content-Transfer-Encoding" "quoted-printable"; header_line "Content-Type" contentType; EmptyString] +:+
   quotedprintable body)%string.

Definition both_bodies (m : normalizedSMTPPayload) : bool := negb (string_empty (NS_Text m)) && negb (string_empty (NS_HTML m)).

Definition common_headers (m : normalizedSMTPPayload) (from : Address) (messageID : string) (now : Z) : list string :=
  [header_line "Date" (rfc1123z now);
   header_line "From" (Address_String from);
   header_line "To" (strings_Join (List.map Address_String (Recipients m)) ", ");
   header_line "Subject" (QEncode (NS_Subject m));
   header_line "Message-ID" messageID;
   header_line "MIME-Version" "1.0"].

(** The headers that depend on the body, and the body. *)
Definition body_headers (m : normalizedSMTPPayload) (boundary : string) : list string :=
  if both_bodies m then [header_line "Content-Type" ("multipart/alternative; boundary=" +:+ dquote +:+ boundary +:+ dquote)%string]
  else
    [header_line "Content-Type" (if string_empty (NS_Text m) then "text/html; charset=UTF-8" else "text/plain; charset=UTF-8");
     header_line "Content-Transfer-Encoding" "quoted-printable"].

Definition message_body (m : normalizedSMTPPayload) (boundary : string) : string :=
  if both_bodies m then
    (writeMIMEPart true boundary "text/plain; charset=UTF-8" (NS_Text m) +:+
     writeMIMEPart false boundary "text/html; charset=UTF-8" (NS_HTML m) +:+
     crlf +:+ "--" +:+ boundary +:+ "--" +:+ crlf)%string
  else quotedprintable (if string_empty (NS_Text m) then NS_HTML m else NS_Text m).

(** [buildSMTPMessage]; writing to a buffer does not fail. [boundary] is the
    multipart writer's random one, hexadecimal. *)
Definition buildSMTPMessage (payload : string) (from : Address) (sourceSystem sourceRequestID : string) (now : Z) (boundary : string) : res string :=
  match normalizeSMTPPayload payload with
  | Err e => Err e
  | Ok m =>
      let messageID := stableMessageID sourceSystem sourceRequestID (Addr_Address from) payload in
      Ok (lines (common_headers m from messageID now ++ body_headers m boundary ++ [EmptyString]) +:+ message_body m boundary)%string
  end.

(** ** The session *)

(** A command of a stage: an error ends the session there. *)
Definition attempt (stage : string) (e : smtp (option error)) (k : sprog outcome) : sprog outcome :=
  (r <- trigger e ;; match r with Some err => Ret (stage, Some err) | None => k end)%prog.

Fixpoint rcpt_all (recipients : list string) (k : sprog outcome) : sprog outcome :=
  match recipients with
  | [] => k
  | r :: rest => attempt "recipient" (SRcpt r) (rcpt_all rest k)
  end.

Definition send_data (message : string) : sprog outcome :=
  attempt "data_open" SData
    (w <- trigger (SWrite message) ;;
     match w with
     | Some err => trigger SDataClose ;;; Ret ("data_write", Some err)
     | None => attempt "data_commit" SDataClose (trigger SQuit ;;; Ret ("accepted", None))
     end)%prog.

Definition start_tls (cfg : smtpSendRuntimeConfig) (k : sprog outcome) : sprog outcome :=
  (if String.eqb (RC_TLSMode cfg) "starttls" then
     ok <- trigger (SExtension "STARTTLS") ;;
     if negb ok then Ret ("starttls", Some (EString "SMTP server does not advertise STARTTLS"))
     else attempt "starttls" (SStartTLS (RC_Host cfg)) k
   else k)%prog.

Definition authenticate (cfg : smtpSendRuntimeConfig) (password : string) (k : sprog outcome) : sprog outcome :=
  if string_empty (RC_Username cfg) then k
  else attempt "auth" (SAuth (RC_Username cfg) password (RC_Host cfg)) k.

(** From the greeting on, with the client open. *)
Definition smtp_session (cfg : smtpSendRuntimeConfig) (password : string) (recipients : list string) (message : string) : sprog outcome :=
  start_tls cfg (authenticate cfg password
    (attempt "mail_from" (SMail (Addr_Address (RC_From cfg))) (rcpt_all recipients (send_data message)))).

Definition sendSMTP (timeoutMs : Z) (cfg : smtpSendRuntimeConfig) (password : string) (recipients : list string) (message : string) : sprog outcome :=
  (let t := int64 (timeoutMs * time_Millisecond) in
   let timeout := if t <=? 0 then 10 * time_Second else t in
   attempt "connect" (SDial (String.eqb (RC_TLSMode cfg) "implicit_tls") (RC_Host cfg) (RC_Address cfg) timeout)
     (r <- attempt "connection_deadline" SSetDeadline
             (attempt "greeting" (SNewClient (RC_Host cfg))
               (r <- smtp_session cfg password recipients message ;; trigger SClientClose ;;; Ret r)) ;;
      trigger SConnClose ;;; Ret r))%prog.

(** ** Failures *)

Definition classifySMTPFailure (ctx_cause : option error) (stage : string) (err : error) : Result :=
  let result class unavailable message :=
    {| Success := false; AvailabilityFailure := unavailable; Res_HTTPStatus := 0; Res_ErrorClass := class; Res_Message := message;
       Res_ProviderResponse := None |} in
  match ctx_cause with
  | Some cause => result "SMTP_CONTEXT_CANCELED" false (Error cause)
  | None =>
      match errors_As_Protocol err with
      | Some code =>
          if (400 <=? code) && (code <? 500) then result "SMTP_TEMPORARY_REJECTION" true (Error err)
          else result "SMTP_PERMANENT_REJECTION" false (Error err)
      | None =>
          let class :=
            match errors_As_Net err with
            | Some true => "SMTP_TIMEOUT"
            | _ =>
                if String.eqb stage "connect" || String.eqb stage "greeting" || String.eqb stage "starttls" then "SMTP_CONNECTION_FAILURE"
                else if String.eqb stage "data_write" || String.eqb stage "data_commit" then "SMTP_ACCEPTANCE_UNCONFIRMED"
                else "SMTP_PROTOCOL_ERROR"
            end in
          result class true (Error err)
      end
  end.

Definition smtp_accepted : Result :=
  {| Success := true; AvailabilityFailure := false; Res_HTTPStatus := 0; Res_ErrorClass := EmptyString;
     Res_Message := "SMTP server accepted the message";
     Res_ProviderResponse := Some (JObj [("accepted", JBool true); ("stage", JStr "smtp_data_accepted")]) |}.

Definition Smtp_Send (send : smtpSendRuntimeConfig) (ac : ActionContext) (action payload : string) : sprog answer :=
  (if negb (String.eqb action "send") then Ret (None, Some (unsupported "smtp_email" action))
   else if negb (RC_Initialized send) then Ret (None, Some (EString "smtp_email: adapter config was not initialized"))
   else
     match normalizeSMTPPayload payload with
     | Err e => Ret (None, Some (EWrap "normalize SMTP payload: " e EmptyString))
     | Ok normalized =>
         now <- trigger SNow ;;
         boundary <- (if both_bodies normalized then trigger SBoundary else Ret EmptyString) ;;
         match buildSMTPMessage payload (RC_From send) (AC_SourceSystem ac) (AC_SourceRequestID ac) now boundary with
         | Err e => Ret (None, Some (EWrap "build SMTP message: " e EmptyString))
         | Ok message =>
             if negb (string_empty (RC_Username send)) && string_empty (Credential ac) then
               Ret (None, Some (EString "smtp_email: resolved SMTP password is empty"))
             else
               r <- sendSMTP (AC_TimeoutMs ac) send (Credential ac) (List.map Addr_Address (Recipients normalized)) message ;;
               match r with
               | (stage, Some err) => cause <- trigger SCause ;; Ret (Some (classifySMTPFailure cause stage err), None)
               | (_, None) => Ret (Some smtp_accepted, None)
               end
         end
     end)%prog.
End smtp.
