(* ===== verification/AdapterSpec.v ===== *)
(** * What the HTTP adapters guarantee

    About every branch of [SendActionRequest], whatever the network, the
    clock, the context and the vendor answer. *)

From S2P Require Import Prelude Float Prog Errors Json JsonRaw Body Domain Crypto Url Provider Http Adapter.
From S2P Require Import Webhook Loadtest LarkBot.

(** ** The environment *)

(** What was put on the wire, newest first, and the last status received. *)
Record net := mkNet { n_sent : list Wire; n_status : option Z; n_body : string }.

Definition quiet : net := mkNet [] None EmptyString.

(** Anything may be answered; a read returns no more than it was allowed. *)
Definition anything : handler http net := fun X e =>
  match e in http X return net -> X -> net -> Prop with
  | HNow => fun s _ s' => s' = s
  | HCause => fun s _ s' => s' = s
  | HRoundTrip rq => fun s x s' =>
      s' = mkNet (rq :: n_sent s) (match x with Ok (st, _) => Some st | Err _ => n_status s end) (n_body s)
  | HReadBody limit => fun s x s' =>
      match x with
      | Ok data => Z.of_nat (String.length data) <= Z.max 0 limit /\ s' = mkNet (n_sent s) (n_status s) data
      | Err _ => s' = s
      end
  end.

(** ** The client *)

Section client.
Context {Wd : Wording} (mx : Z).

(** The part of a body the client keeps. *)
Definition kept (data : string) : string :=
  if mx <? Z.of_nat (String.length data) then take_bytes (Z.to_nat mx) data else data.

(** [r] is what the vendor answered last, its body cut to the bound. *)
Definition received (r : Response) (s : net) : Prop :=
  n_status s = Some (StatusCode r) /\ Body r = kept (n_body s) /\
  (Truncated r = true <-> mx < Z.of_nat (String.length (n_body s))).

Lemma kept_length data : 0 <= mx -> Z.of_nat (String.length (kept data)) <= mx.
Proof.
  intros H0. unfold kept. destruct (Z.ltb_spec mx (Z.of_nat (String.length data))); [|lia].
  pose proof (take_bytes_length (Z.to_nat mx) data). lia.
Qed.

(** [Do] sends at most the one request it was given; a response it returns
    is the one received. *)
Lemma Do_spec req s (Q : res Response -> net -> Prop) :
  (forall e s', (s' = s \/ exists w t, NewRequest req t = Ok w /\ n_sent s' = w :: n_sent s) -> Q (Err e) s') ->
  (forall r w t s', NewRequest req t = Ok w -> n_sent s' = w :: n_sent s -> received r s' -> Q (Ok r) s') ->
  wp anything (Do mx req) s Q.
Proof.
  intros He Ho. unfold Do. set (t := if Rq_Timeout req <=? 0 then _ else _).
  destruct (NewRequest req t) as [w|e] eqn:E; [|by apply He; left].
  apply wp_bind. intros x s1 ->. destruct x as [[st h]|e]; cbn [wp].
  - intros y s2 H2. destruct y as [data|e]; cbn in H2 |- *.
    + destruct H2 as [Hlen ->].
      apply (Ho _ w t); [done|done|]. repeat split; cbn; lia.
    + subst s2. apply He. right. by exists w, t.
  - apply He. right. by exists w, t.
Qed.

(** The request [Send] makes of [req]: the action's timeout unless it has
    its own. *)
Definition timed (ac : ActionContext) (req : Request) : Request :=
  if Rq_Timeout req <=? 0 then
    {| Rq_Method := Rq_Method req; Rq_URL := Rq_URL req; Rq_Headers := Rq_Headers req; Rq_Body := Rq_Body req;
       Rq_Timeout := int64 (AC_TimeoutMs ac * time_Millisecond); RejectRedirects := RejectRedirects req |}
  else req.

Lemma NewRequest_fields req t w : NewRequest req t = Ok w ->
  W_URL w = Rq_URL req /\ W_Header w = set_headers (Rq_Headers req) /\ W_Body w = Rq_Body req /\
  W_RejectRedirects w = RejectRedirects req /\ (Rq_Method req <> EmptyString -> W_Method w = Rq_Method req).
Proof.
  unfold NewRequest. intros H. repeat case_match; simplify_eq/=; repeat split.
  intros Hm. by destruct (Rq_Method req).
Qed.

(** The wire request made of [req] when it is sent. *)
Definition carries (req : Request) (w : Wire) : Prop :=
  W_URL w = Rq_URL req /\ W_Header w = set_headers (Rq_Headers req) /\ W_Body w = Rq_Body req /\
  W_RejectRedirects w = RejectRedirects req /\ (Rq_Method req <> EmptyString -> W_Method w = Rq_Method req).

Lemma timed_carries ac req t w : NewRequest (timed ac req) t = Ok w -> carries req w.
Proof. intros H. apply NewRequest_fields in H. unfold timed in H. by destruct (Rq_Timeout req <=? 0). Qed.

(** Nothing was sent, or one request carrying [req]. *)
Definition sent_once (req : Request) (s s' : net) : Prop :=
  n_sent s' = n_sent s \/ exists w, n_sent s' = w :: n_sent s /\ carries req w.

Lemma Send_spec ac req s (Q : option Response * option json * option error -> net -> Prop) :
  (forall e s', sent_once req s s' -> Q (None, None, Some e) s') ->
  (forall r pr s', (exists w, n_sent s' = w :: n_sent s /\ carries req w) -> received r s' -> Q (Some r, Some pr, None) s') ->
  wp anything (Send mx ac req) s Q.
Proof.
  intros He Ho. unfold Send. destruct (HasHTTPClient ac); cbn [negb]; [|by apply He; left].
  apply wp_bind. apply Do_spec.
  - intros e s' [->|(w & t & Hn & Hs)]; cbn; apply He; [by left|].
    right. exists w. split; [done|]. by eapply timed_carries.
  - intros r w t s' Hn Hs Hr. apply wp_bind. intros now s2 ->. cbn.
    apply Ho; [|done]. exists w. split; [done|]. by eapply timed_carries.
Qed.

(** ** The adapter contract *)

(** What the worker requires: exactly one of a result and an error; a result
    that reports success is not an availability failure. *)
Definition keeps_contract (x : answer) : Prop :=
  match x with
  | (Some r, None) => Success r = true -> AvailabilityFailure r = false /\ Res_ErrorClass r = EmptyString
  | (None, Some _) => True
  | _ => False
  end.

Definition succeeded (x : answer) : bool := match x with (Some r, None) => Success r | _ => false end.

Lemma send_failed_spec resp e s wrap c1 c2 (Q : answer -> net -> Prop) :
  (forall x, keeps_contract x -> succeeded x = false -> Q x s) ->
  wp anything (send_failed resp e wrap c1 c2) s Q.
Proof.
  intros HQ. unfold send_failed. apply wp_bind. destruct resp; cbn [wp trigger].
  - by apply HQ.
  - intros c s' ->. destruct c; cbn; by apply HQ.
Qed.

(** An adapter that sends one request and interprets the response. *)
Lemma send_and_interpret ac req s wrap c1 c2 (interpret : Response -> option json -> Result) (ok : Response -> bool)
    (Q : answer -> net -> Prop) :
  (forall r pr, Success (interpret r pr) = ok r) ->
  (forall r pr, ok r = true -> AvailabilityFailure (interpret r pr) = false /\ Res_ErrorClass (interpret r pr) = EmptyString) ->
  (forall x s', keeps_contract x -> sent_once req s s' ->
     (succeeded x = true -> exists r, ok r = true /\ received r s') -> Q x s') ->
  wp anything
    (x <- Send mx ac req ;;
     match x with
     | (resp, _, Some err) => send_failed resp err wrap c1 c2
     | (Some resp, pr, None) => Ret (Some (interpret resp pr), None)
     | (None, _, None) => Ret (None, None)
     end)%prog s Q.
Proof.
  intros Hok Hcon HQ. apply wp_bind, Send_spec.
  - intros e s' Hs. apply send_failed_spec. intros x Hk Hf. apply HQ; [done|done|]. by rewrite Hf.
  - intros r pr s' Hw Hr. cbn. apply HQ.
    + cbn. rewrite Hok. apply Hcon.
    + right. exact Hw.
    + cbn. rewrite Hok. intros H. by exists r.
Qed.

(** ** The adapters *)

Definition webhook_request (ac : ActionContext) (payload : string) (auth : list (string * string)) : Request :=
  {| Rq_Method := AC_Method ac; Rq_URL := AC_Path ac;
     Rq_Headers :=
       ("Content-Type", "application/json; charset=utf-8") ::
       ("Idempotency-Key", webhookIdempotencyKey (AC_ProviderCode ac) (AC_SourceSystem ac) (AC_SourceRequestID ac)) :: auth;
     Rq_Body := payload; Rq_Timeout := 0; RejectRedirects := true |}.

(** The headers of each kind of authentication, at the time [now]. *)
Definition auth_for (authentication credential payload : string) (now : Z) : option (list (string * string)) :=
  if String.eqb authentication "bearer" then Some [("Authorization", ("Bearer " +:+ credential)%string)]
  else if String.eqb authentication "hmac_sha256" then
    let timestamp := strconv_Itoa (now / time_Second) in
    Some [("X-Webhook-Timestamp", timestamp); ("X-Webhook-Signature", signWebhook credential timestamp payload)]
  else if String.eqb authentication "none" then Some []
  else None.

Lemma auth_headers_spec authentication credential payload s (Q : res (list (string * string)) -> net -> Prop) :
  (forall e, Q (Err e) s) ->
  (forall now l, auth_for authentication credential payload now = Some l -> Q (Ok l) s) ->
  wp anything (auth_headers authentication credential payload) s Q.
Proof.
  intros He Ho. unfold auth_headers, auth_for in *.
  destruct (String.eqb authentication "bearer"); [by apply (Ho 0)|].
  destruct (String.eqb authentication "hmac_sha256"); [intros now s' ->; by apply (Ho now)|].
  destruct (String.eqb authentication "none"); [by apply (Ho 0)|]. apply He.
Qed.

(** C24: Whatever happens, the webhook adapter answers as the worker's contract
    says; it sends at most one request, a POST of exactly the payload to the
    URL of the configuration that follows no redirect, under the idempotency
    key of the submission and the headers of the configured authentication;
    and it reports success only for a 2xx status it received. *)
Theorem webhook_delivery authentication ac action payload :
  wp anything (Webhook_Send mx authentication ac action payload) quiet (fun x s =>
    keeps_contract x /\
    (n_sent s = [] \/ exists now auth w, n_sent s = [w] /\ carries (webhook_request ac payload auth) w /\
       auth_for authentication (Credential ac) payload now = Some auth) /\
    (succeeded x = true -> exists st, n_status s = Some st /\ 200 <= st < 300)).
Proof.
  unfold Webhook_Send. repeat (case_match; [by split; [|split; [left|]]|]).
  apply wp_bind, auth_headers_spec; [by split; [|split; [left|]]|]. intros now auth Hauth.
  apply (send_and_interpret ac (webhook_request ac payload auth) quiet _ _ _
    (fun r pr => set_provider_response (interpretWebhookResponse r) pr) (fun r => success_status (StatusCode r))).
  - intros r pr. cbn. unfold interpretWebhookResponse. by repeat case_match.
  - intros r pr H'. unfold interpretWebhookResponse. by rewrite H'.
  - intros x s' Hk Hs Hx. split; [done|]. split.
    + destruct Hs as [Hs|(w & Hs & Hw)]; [by left|right]. by exists now, auth, w.
    + intros Hsu. destruct (Hx Hsu) as (r & Hr & Hst & _). exists (StatusCode r). split; [done|].
      unfold success_status in Hr. bool_to_prop. lia.
Qed.

(** The load-test adapter likewise. *)
Theorem loadtest_delivery ac action payload :
  wp anything (Loadtest_Send mx ac action payload) quiet (fun x s =>
    keeps_contract x /\ (length (n_sent s) <= 1)%nat /\
    (succeeded x = true -> exists st, n_status s = Some st /\ 200 <= st < 300)).
Proof.
  unfold Loadtest_Send. case_match; [by split; [|split; [cbn; lia|]]|].
  apply (send_and_interpret ac _ quiet _ _ _ loadtest_result (fun r => success_status (StatusCode r))).
  - done.
  - intros r pr Hr. unfold loadtest_result. cbn. by rewrite Hr.
  - intros x s' Hk Hs Hx. split; [done|]. split.
    + destruct Hs as [->|(w & -> & _)]; cbn; lia.
    + intros Hsu. destruct (Hx Hsu) as (r & Hr & Hst & _). exists (StatusCode r). split; [done|].
      unfold success_status in Hr. bool_to_prop. lia.
Qed.

(** The vendor said [code = 0] in a 200 response. *)
Definition lark_accepted (r : Response) : bool :=
  (StatusCode r =? 200) && match unmarshal_lark_response (Body r) with Some (Some 0, _) => true | _ => false end.

Lemma interpretLark_success r : Success (interpretLarkResponse r) = lark_accepted r.
Proof.
  unfold interpretLarkResponse, lark_accepted. destruct (StatusCode r =? 200); cbn; [|done].
  destruct (unmarshal_lark_response (Body r)) as [[[c|] m]|]; [|done..]. cbn. by destruct c.
Qed.

Definition lark_request (ac : ActionContext) (body : string) : Request :=
  {| Rq_Method := AC_Method ac; Rq_URL := AC_Path ac; Rq_Headers := [("Content-Type", "application/json; charset=utf-8")];
     Rq_Body := body; Rq_Timeout := 0; RejectRedirects := false |}.

(** C25: Whatever happens, the Lark adapter answers as the worker's contract says;
    it sends at most one request, whose body is the normalized (and, with a
    secret, signed) message of at most 20 KiB; and it reports success only
    when the received status was 200 and the received envelope says
    [code = 0]. *)
Theorem lark_delivery ac action payload :
  wp anything (Lark_Send mx ac action payload) quiet (fun x s =>
    keeps_contract x /\
    (n_sent s = [] \/ exists now body w, n_sent s = [w] /\ carries (lark_request ac body) w /\
       buildLarkRequestBody payload (Credential ac) now = Ok body /\
       Z.of_nat (String.length body) <= larkMaxRequestBytes) /\
    (succeeded x = true -> n_status s = Some 200 /\
       exists msg, unmarshal_lark_response (kept (n_body s)) = Some (Some 0, msg))).
Proof.
  unfold Lark_Send, sendMessage. case_match; [|by split; [|split; [left|]]].
  apply wp_bind. intros now s1 ->. cbn [wp].
  destruct (buildLarkRequestBody payload (Credential ac) now) as [body|e] eqn:Eb; [|by split; [|split; [left|]]].
  destruct (HasHTTPClient ac); cbn [negb]; [|by split; [|split; [left|]]].
  apply (send_and_interpret ac (lark_request ac body) quiet _ _ _
    (fun r pr => set_provider_response (interpretLarkResponse r) pr) lark_accepted).
  - intros r pr. cbn. apply interpretLark_success.
  - intros r pr Hr. cbn. unfold lark_accepted in Hr. unfold interpretLarkResponse.
    destruct (StatusCode r =? 200); [|done]. cbn in Hr |- *.
    destruct (unmarshal_lark_response (Body r)) as [[[c|] m]|]; [|done..]. by destruct c.
  - intros x s' Hk Hs Hx. split; [done|]. split.
    + destruct Hs as [Hs|(w & Hs & Hw)]; [by left|right]. exists now, body, w. split; [done|]. split; [done|]. split; [done|].
      unfold buildLarkRequestBody in Eb. repeat case_match; simplify_eq/=. bool_to_prop. lia.
    + intros Hsu. destruct (Hx Hsu) as (r & Hr & Hst & Hb & _). unfold lark_accepted in Hr. bool_to_prop.
      split; [congruence|]. rewrite <- Hb.
      destruct (unmarshal_lark_response (Body r)) as [[[c|] m]|]; [|done..]. exists m. by destruct c.
Qed.
End client.

(** ** Accepted configurations *)

(** The destination is fixed and protected: an absolute URL without
    credentials or query, over TLS unless [local] says the host is loopback. *)
Definition safe_endpoint (local : string -> bool) (raw : string) : Prop :=
  exists u, ParseRequestURI raw = Some u /\ Host u <> EmptyString /\ HasUser u = false /\ RawQuery u = EmptyString /\
    (Scheme u = "https" \/ Scheme u = "http" /\ local (Hostname u) = true).

Definition sane_limits (a : ActionConfig) : Prop :=
  0 < Cfg_TimeoutMs a /\ 0 < Cfg_MaxConcurrency a /\ Cfg_Method a = "POST" /\
  forall b, CircuitBreaker a = Some b -> FailureThreshold b <> 0 /\ 0 < OpenDuration b.

(** The rate is positive, or not a number, which the check does not refuse. *)
Definition rate_checked (r : float64) : Prop := float_ltb (float_of_Z 0) r = true \/ r = SpecFloat.S754_nan.

Lemma rate_ok r : float_leb r (float_of_Z 0) = false -> rate_checked r.
Proof. destruct r as [s|s| |s m e]; [done|destruct s; [done|by left]|by right|destruct s; [done|by left]]. Qed.

Lemma endpoint_checks {A} (e1 e2 : A) u (http_ok : bool) :
  (if negb (String.eqb (Scheme u) "https") && (negb (String.eqb (Scheme u) "http") || negb http_ok) then Some e1
   else if has_credentials_or_query u then Some e2 else None) = None ->
  HasUser u = false /\ RawQuery u = EmptyString /\ (Scheme u = "https" \/ Scheme u = "http" /\ http_ok = true).
Proof.
  unfold has_credentials_or_query. destruct (String.eqb_spec (Scheme u) "https"); cbn;
    [|destruct (String.eqb_spec (Scheme u) "http"), http_ok; cbn; try done];
    intros H; destruct (HasUser u), (RawQuery u); cbn in H; try done; auto 10.
Qed.

Lemma webhook_endpoint raw : validateFixedWebhookURL raw = None -> safe_endpoint isLoopbackHost (strings_TrimSpace raw).
Proof.
  unfold validateFixedWebhookURL. destruct (ParseRequestURI (strings_TrimSpace raw)) as [u|] eqn:E; [|done].
  destruct (string_empty (Host u)) eqn:Eh; [done|]. intros H. apply endpoint_checks in H as (H1 & H2 & H3).
  exists u. repeat split; try done. intros E'. by rewrite E' in Eh.
Qed.

Lemma limits_ok t r m : validateDeliveryLimits t r m = None -> 0 < t /\ rate_checked r /\ 0 < m.
Proof.
  unfold validateDeliveryLimits. intros H. repeat case_match; simplify_eq. bool_to_prop. split; [lia|]. split; [by apply rate_ok|lia].
Qed.

Lemma breaker_ok c b : normalizeCircuitBreaker c = Ok (Some b) -> FailureThreshold b <> 0 /\ 0 < OpenDuration b.
Proof. unfold normalizeCircuitBreaker. intros H. repeat case_match; simplify_eq/=. bool_to_prop. lia. Qed.

Lemma lark_endpoint raw : validateLarkWebhookURL raw = None -> safe_endpoint loopback_name raw /\
  exists u, ParseRequestURI raw = Some u /\ exists id, id <> EmptyString /\ UPath u = (lark_webhookPath +:+ id)%string.
Proof.
  unfold validateLarkWebhookURL. destruct (ParseRequestURI raw) as [u|] eqn:E; [|done].
  destruct (string_empty (Host u)) eqn:Eh; [done|]. intros H.
  destruct (negb (strings_HasPrefix (UPath u) lark_webhookPath) || _) eqn:Ep in H.
  { exfalso. repeat case_match; simplify_eq. }
  apply endpoint_checks in H as (H1 & H2 & H3). split.
  - exists u. repeat split; try done. intros E'. by rewrite E' in Eh.
  - exists u. split; [done|]. bool_to_prop. apply HasPrefix_true in H as [id Hid].
    exists id. split; [|done]. intros ->. unfold strings_TrimPrefix in H0. by rewrite Hid, strip_prefix_app in H0.
Qed.

Lemma loadtest_endpoint raw : validateLoadtestEndpoint raw = None ->
  exists u, ParseRequestURI raw = Some u /\ Host u <> EmptyString /\ HasUser u = false /\ RawQuery u = EmptyString /\
    Scheme u = "http" /\ loopback_name (Hostname u) = true.
Proof.
  unfold validateLoadtestEndpoint. destruct (ParseRequestURI raw) as [u|] eqn:E; [|done].
  destruct (string_empty (Host u)) eqn:Eh; [done|]. unfold has_credentials_or_query. intros H.
  destruct (String.eqb_spec (Scheme u) "http") as [Es|]; [|done]. destruct (loopback_name (Hostname u)) eqn:El; [|done]. cbn in H.
  exists u. destruct (HasUser u), (RawQuery u) eqn:?; cbn in H; try done. repeat split; try done. intros E'. by rewrite E' in Eh.
Qed.

Lemma limits_sane d p t r m cb b : 0 < t -> 0 < m -> normalizeCircuitBreaker cb = Ok b ->
  sane_limits {| Description := d; Cfg_BaseURL := EmptyString; Cfg_Path := p; Cfg_Method := "POST"; Cfg_TimeoutMs := t;
                 Cfg_RequestsPerSecond := r; Cfg_MaxConcurrency := m; CircuitBreaker := b |}.
Proof. intros Ht Hm Hb. split; [done|]. split; [done|]. split; [done|]. cbn. intros x ->. by eapply breaker_ok. Qed.

Lemma authentication_ok a r : check_authentication a r = None ->
  a ∈ ["none"; "bearer"; "hmac_sha256"] /\ (a = "none" <-> r = EmptyString).
Proof.
  unfold check_authentication. intros H.
  destruct (String.eqb_spec a "none"), (String.eqb_spec a "bearer"), (String.eqb_spec a "hmac_sha256"); subst; try done;
    destruct r; cbn in H; try done; split; try set_solver; by split.
Qed.

(** C27: What the three HTTP adapters accept as configuration: the destination
    of every action is fixed, carries no credentials and no query and is
    reached over TLS, except on the local host ([http] only; the load-test
    adapter only there); a Lark hook has the documented path; the timeout, the
    concurrency and the breaker are positive; the rate of a webhook and of a
    Lark hook is positive or not a number, that of a load test is 0,
    unlimited, and it has no breaker; and the authentication of a webhook is a
    known one, with a credential exactly when it needs one. A webhook's URL is
    checked without the white space around it, and used as it is
    configured. *)
Theorem http_configs_safe {Y} (dw : Y -> res webhookConfig) (dl : Y -> res larkBotConfig) (dt : Y -> res loadtestHTTPRequestConfig) raw :
  (forall c auth, Webhook_Config dw raw = Ok (c, auth) ->
     auth ∈ ["none"; "bearer"; "hmac_sha256"] /\ (auth = "none" <-> CredentialRef c = EmptyString) /\
     exists a, Actions c = [("deliver", a)] /\ sane_limits a /\ rate_checked (Cfg_RequestsPerSecond a) /\
       safe_endpoint isLoopbackHost (strings_TrimSpace (Cfg_Path a))) /\
  (forall c, Lark_Config dl raw = Ok c ->
     exists a u id, Actions c = [("send", a)] /\ sane_limits a /\ rate_checked (Cfg_RequestsPerSecond a) /\
       safe_endpoint loopback_name (Cfg_Path a) /\
       ParseRequestURI (Cfg_Path a) = Some u /\ UPath u = (lark_webhookPath +:+ id)%string /\ id <> EmptyString) /\
  (forall c, Loadtest_Config dt raw = Ok c ->
     exists a u, Actions c = [("request", a)] /\ sane_limits a /\ Cfg_RequestsPerSecond a = float_of_Z 0 /\ CircuitBreaker a = None /\
       ParseRequestURI (Cfg_Path a) = Some u /\ Scheme u = "http" /\ loopback_name (Hostname u) = true /\
       HasUser u = false /\ RawQuery u = EmptyString).
Proof.
  split; [|split].
  - intros c auth H. unfold Webhook_Config in H. repeat case_match; simplify_eq/=.
    match goal with H : validateFixedWebhookURL _ = None |- _ => apply webhook_endpoint in H end.
    match goal with H : validateDeliveryLimits _ _ _ = None |- _ => apply limits_ok in H as (? & ? & ?) end.
    match goal with H : check_authentication _ _ = None |- _ => apply authentication_ok in H as [? ?] end.
    split; [done|]. split; [done|]. eexists. split; [reflexivity|]. split; [by eapply limits_sane|]. by split.
  - intros c H. unfold Lark_Config in H. repeat case_match; simplify_eq/=.
    match goal with H : validateLarkWebhookURL _ = None |- _ => apply lark_endpoint in H as (? & u & Hu & id & ? & ?) end.
    match goal with H : validateDeliveryLimits _ _ _ = None |- _ => apply limits_ok in H as (? & ? & ?) end.
    eexists _, u, id. split; [reflexivity|]. split; [by eapply limits_sane|]. by split.
  - intros c H. unfold Loadtest_Config in H. repeat case_match; simplify_eq/=. bool_to_prop.
    match goal with H : validateLoadtestEndpoint _ = None |- _ => apply loadtest_endpoint in H as (u & ? & ? & ? & ? & ? & ?) end.
    eexists _, u. split; [reflexivity|]. split; [by apply (limits_sane _ _ _ _ _ None None)|]. by do 5 (split; [done|]).
Qed.

(** ** The idempotency key *)

Lemma seed_inj a b a' b' : string_mem "000" a = false -> string_mem "000" a' = false ->
  (a +:+ String "000" b)%string = (a' +:+ String "000" b')%string -> a = a' /\ b = b'.
Proof.
  revert a'. induction a as [|c a IH]; intros [|c' a'] H H' E; cbn in E.
  - by injection E.
  - injection E as <- _. discriminate.
  - injection E as -> _. discriminate.
  - injection E as -> E. apply orb_false_iff in H as [_ H]. apply orb_false_iff in H' as [_ H'].
    destruct (IH a' H H' E) as [-> ->]. done.
Qed.

Lemma bytes_of_inj s t : bytes_of s = bytes_of t -> s = t.
Proof.
  unfold bytes_of. intros H. rewrite <- (string_of_list_ascii_of_string s), <- (string_of_list_ascii_of_string t). f_equal.
  revert H. generalize (list_ascii_of_string t). induction (list_ascii_of_string s) as [|c l IH]; intros [|d k] H; cbn in H; try done.
  injection H as Hc H. f_equal; [|by apply IH]. unfold byte_val in Hc.
  by rewrite <- (ascii_N_embedding c), <- (ascii_N_embedding d), Hc.
Qed.

(** The [Idempotency-Key] a webhook sends is a function of the submission
    alone, the same for every attempt, and identifies it: two submissions
    whose provider codes and source systems contain no NUL byte (PostgreSQL
    stores none) share a key only if they are the same submission, or SHA-256
    collides on their seeds. *)
Theorem idempotency_key_identifies pc ss rid pc' ss' rid' :
  Forall (fun s => string_mem "000" s = false) [pc; ss; pc'; ss'] ->
  webhookIdempotencyKey pc ss rid = webhookIdempotencyKey pc' ss' rid' ->
  (pc, ss, rid) = (pc', ss', rid') \/
  exists x y, x <> y /\ hex_EncodeToString (Sum256 (bytes_of x)) = hex_EncodeToString (Sum256 (bytes_of y)).
Proof.
  intros Hf Hk. apply Forall_cons in Hf as [H1 Hf]. apply Forall_cons in Hf as [H2 Hf].
  apply Forall_cons in Hf as [H3 Hf]. apply Forall_cons in Hf as [H4 _].
  unfold webhookIdempotencyKey in Hk.
  destruct (decide (idempotency_seed pc ss rid = idempotency_seed pc' ss' rid')) as [E|]; [|right; eauto].
  left. unfold idempotency_seed in E. apply seed_inj in E as [-> E]; [|done..]. apply seed_inj in E as [-> ->]; done.
Qed.

(** ** Accepted, and yet *)

(** A rate that is not a number passes every check, Lark's documented limit
    included, and leaves the action without a rate limiter. *)
Theorem nan_rate_unlimited timeoutMs maxConcurrency :
  0 < timeoutMs -> 0 < maxConcurrency ->
  validateDeliveryLimits timeoutMs S754_nan maxConcurrency = None /\ float_ltb (float_of_Z 5) S754_nan = false /\
  float_ltb (float_of_Z 0) S754_nan = false.
Proof.
  intros H1 H2. unfold validateDeliveryLimits. replace (timeoutMs <=? 0) with false by lia.
  replace (maxConcurrency <=? 0) with false by lia. by repeat split.
Qed.

Lemma lark_never_sends {Wd : Wording} mx ac payload :
  (forall now, exists e, buildLarkRequestBody payload (Credential ac) now = Err e) ->
  wp anything (Lark_Send mx ac "send" payload) quiet (fun x s => n_sent s = [] /\ succeeded x = false).
Proof.
  intros Hb. apply wp_bind. intros now s ->. cbn [wp]. destruct (Hb now) as [e ->]. by split.
Qed.

(** A text of 4000 [<]: 4 KB as submitted, 24 KB as sent. *)
Definition expanding_payload : string :=
  marshal_fields [("text", (dquote +:+ string_of_bytes (repeat 60%N 4000) +:+ dquote)%string)].

(** Lark's limit is checked against the submitted payload by [Validate] and
    against the body sent, whose text is escaped for HTML, by every attempt:
    this payload is accepted, and no attempt ever sends it. *)
Theorem lark_accepts_unsendable {Wd : Wording} mx ac :
  Credential ac = EmptyString ->
  Lark_Validate "send" expanding_payload = None /\
  wp anything (Lark_Send mx ac "send" expanding_payload) quiet (fun x s => n_sent s = [] /\ succeeded x = false).
Proof.
  intros Hc. split; [vm_compute; reflexivity|].
  apply lark_never_sends. intros now. rewrite Hc. eexists. vm_compute. reflexivity.
Qed.

Lemma NewRequest_bad {Wd : Wording} req t : Parse (Rq_URL req) = None -> exists e, NewRequest req t = Err e.
Proof. intros H. unfold NewRequest. rewrite H. case_match; eauto. Qed.

Definition padded_url : string := " https://hooks.example/notify".

(** The endpoint is validated without its surrounding white space and used
    with it: this configuration is accepted, and no attempt ever sends. *)
Theorem webhook_accepts_unsendable {Wd : Wording} mx authentication ac action payload :
  AC_Path ac = padded_url ->
  validateFixedWebhookURL padded_url = None /\
  wp anything (Webhook_Send mx authentication ac action payload) quiet (fun x s => n_sent s = [] /\ succeeded x = false).
Proof.
  intros Hp. split; [vm_compute; reflexivity|].
  unfold Webhook_Send. repeat (case_match; [by split|]).
  apply wp_bind, auth_headers_spec; [by split|]. intros now auth _. apply wp_bind.
  unfold Send. rewrite Hp. destruct (HasHTTPClient ac); cbn [negb];
    [|apply send_failed_spec; by intros].
  apply wp_bind. unfold Do.
  match goal with |- context [NewRequest ?r ?t] => destruct (NewRequest_bad r t) as [e ->]; [vm_compute; reflexivity|] end.
  apply send_failed_spec. by intros.
Qed.
