(* ===== verification/FirebaseSpec.v ===== *)
(** * What the Firebase adapter guarantees

    The messages it accepts, every branch of a delivery, and the messaging
    client its deliveries share. *)

From S2P Require Import Prelude Float Prog Errors Json JsonRaw Url Provider Http Adapter AdapterSpec Firebase.

(** ** Messages *)

Section messages.
Context {Wd : Wording} (range_keys : gmap string string -> list string).

(** Every key of a map is visited when it is ranged over. *)
Definition ranges : Prop := forall (m : gmap string string) k, k ∈ range_keys m <-> exists v, m !! k = Some v.

Lemma check_data_keys_ok keys : check_data_keys keys = None ->
  Forall (fun k => strings_TrimSpace k <> EmptyString /\ reserved_key k = false) keys.
Proof.
  induction keys as [|k r IH]; cbn; intros H; [constructor|].
  destruct (string_empty (strings_TrimSpace k)) eqn:E1; [done|]. destruct (reserved_key k) eqn:E2; [done|].
  constructor; [|by apply IH]. split; [|done]. intros E. by rewrite E in E1.
Qed.

Lemma https_image raw : validateHTTPSURL raw = None ->
  exists u, ParseRequestURI raw = Some u /\ Scheme u = "https" /\ Host u <> EmptyString /\ HasUser u = false.
Proof.
  unfold validateHTTPSURL. destruct (ParseRequestURI raw) as [u|]; [|done]. exists u. split; [done|].
  destruct (String.eqb_spec (Scheme u) "https"); [|done]. destruct (Host u), (HasUser u); by cbn in *.
Qed.

(** What FCM is asked to deliver. *)
Definition well_formed (m : Message) : Prop :=
  (M_Fid m = EmptyString <-> M_Token m <> EmptyString) /\
  (M_Notification m <> None \/ M_Data m <> ∅) /\
  (forall k v, M_Data m !! k = Some v -> strings_TrimSpace k <> EmptyString /\ reserved_key k = false) /\
  (forall n, M_Notification m = Some n ->
     (strings_TrimSpace (FN_Title n) <> EmptyString \/ strings_TrimSpace (FN_Body n) <> EmptyString) /\
     (FN_ImageURL n <> EmptyString ->
        (exists u, ParseRequestURI (FN_ImageURL n) = Some u /\ Scheme u = "https" /\ Host u <> EmptyString /\ HasUser u = false) /\
        exists c, M_APNS m = Some c /\ Aps_MutableContent (Apns_Aps c) = true /\ Apns_ImageURL c = Some (FN_ImageURL n))) /\
  (forall a, M_Android m = Some a -> An_Priority a ∈ [EmptyString; "normal"; "high"]) /\
  (forall c b, M_APNS m = Some c -> Aps_Badge (Apns_Aps c) = Some b -> 0 <= b).

Lemma string_empty_iff s : string_empty s = true <-> s = EmptyString.
Proof. by destruct s. Qed.

Lemma string_empty_false s : string_empty s = false <-> s <> EmptyString.
Proof. by destruct s. Qed.

Lemma target_ok f t : Bool.eqb (string_empty f) (string_empty t) = false -> (f = EmptyString <-> t <> EmptyString).
Proof. by destruct f, t. Qed.

Lemma check_push_ok v p : ranges -> check_push range_keys v = Ok p ->
  well_formed (message_of p) /\ FP_Notification p = FP_Notification v /\ FP_Data p = FP_Data v /\
  FID p = strings_TrimSpace (FID v) /\ Token p = strings_TrimSpace (Token v).
Proof using Type.
  intros Hr. unfold check_push.
  destruct (Bool.eqb _ _) eqn:Et; [done|]. destruct (negb _ && _) eqn:En; [done|].
  destruct (check_notification _) eqn:Ec; [done|]. destruct (check_data_keys _) eqn:Ed; [done|].
  destruct (normalize_android _) as [an|] eqn:Ea; [|done]. destruct (check_ios _) eqn:Ei; [done|].
  intros [= <-]. split; [|done]. apply target_ok in Et. apply check_data_keys_ok in Ed. rewrite Forall_forall in Ed.
  split; [done|]. split; [|split; [|split; [|split]]]; cbn [message_of M_Notification M_Data M_Android M_APNS FP_Notification FP_Data FP_Android FP_IOS FID Token].
  - destruct (FP_Notification v); [by left|right]. by apply bool_decide_eq_false in En.
  - intros k w Hk. apply Ed, Hr. by exists w.
  - intros n Hn. rewrite Hn in Ec |- *. unfold check_notification in Ec. split.
    { destruct (string_empty (strings_TrimSpace (FN_Title n))) eqn:E1; [|left; by apply string_empty_false].
      destruct (string_empty (strings_TrimSpace (FN_Body n))) eqn:E2; [done|right; by apply string_empty_false]. }
    intros Hi. apply string_empty_false in Hi. destruct (string_empty (strings_TrimSpace (FN_Title n)) && _); [discriminate Ec|]. rewrite Hi in Ec.
    destruct (validateHTTPSURL (FN_ImageURL n)) as [e|] eqn:Eu; [discriminate Ec|]. split; [by apply https_image|].
    unfold apns_config. rewrite Hi. rewrite orb_true_r. eexists. by split.
  - intros a Ha. destruct an as [an|]; [|done]. cbn in Ha. injection Ha as <-. cbn.
    unfold normalize_android in Ea. destruct (FP_Android v) as [b|]; [|done].
    set (pr := strings_ToLower _) in *. destruct (negb (string_empty pr) && _ && _) eqn:Ep; [done|].
    destruct (blank_text _); [done|]. destruct (blank_text _); [done|]. injection Ea as <-. cbn.
    destruct (string_empty pr) eqn:E0; [apply string_empty_iff in E0; rewrite E0; by left|].
    destruct (String.eqb_spec pr "normal") as [->|]; [by right; left|].
    destruct (String.eqb_spec pr "high") as [->|]; [by right; right; left|]. done.
  - intros c b. unfold apns_config. destruct (is_some (FP_IOS v) || _); [|done]. intros [= <-]. cbn.
    unfold check_ios in Ei. destruct (FP_IOS v) as [i|]; [|done]. cbn. intros Hb. rewrite Hb in Ei.
    destruct (Z.ltb_spec b 0); [done|lia].
Qed.
End messages.

(** ** A delivery *)

(** What the SDK was asked to send, newest first, and its last answer. *)
Record fnet := mkFnet { f_sends : list (client * Message); f_answer : option (res string) }.

Definition fcm_any : handler fcm fnet := fun X e =>
  match e in fcm X return fnet -> X -> fnet -> Prop with
  | FSend c m => fun s x s' => s' = mkFnet ((c, m) :: f_sends s) (Some x)
  | _ => fun s _ s' => s' = s
  end.

Section delivery.
Context {Wd : Wording} {SDK : FirebaseSDK} (range_keys : gmap string string -> list string) (a : FirebasePush).

Lemma newFirebaseMessagingClient_quiet project credential s (Q : res client -> fnet -> Prop) :
  (forall x, Q x s) -> wp fcm_any (newFirebaseMessagingClient project credential) s Q.
Proof using Type.
  intros HQ. unfold newFirebaseMessagingClient. destruct (if string_empty _ then _ else _) as [opts|e]; [|apply HQ].
  intros x s1 ->. destruct x as [app|e]; [|apply HQ]. intros y s2 ->. destruct y; apply HQ.
Qed.

Lemma messagingClient_quiet credential s (Q : res client -> fnet -> Prop) :
  (forall x, Q x s) -> wp fcm_any (messagingClient a credential) s Q.
Proof using Type.
  intros HQ. unfold messagingClient. intros x s1 ->. destruct x; [apply HQ|].
  intros [] s2 ->. intros y s3 ->. destruct y; [intros [] s4 ->; apply HQ|].
  cbn [Prog.bind]. apply wp_bind, newFirebaseMessagingClient_quiet. intros [c|e].
  - intros [] s4 ->. intros [] s5 ->. apply HQ.
  - intros [] s4 ->. apply HQ.
Qed.

(** C30: Whatever the Firebase SDK answers, the adapter keeps the worker's
    contract; it asks for at most one send, of exactly the message built from
    the payload; and it reports success only when the send returned a
    message id that is not blank. *)
Theorem firebase_delivery ac action payload :
  wp fcm_any (Firebase_Send range_keys a ac action payload) (mkFnet [] None) (fun x s =>
    keeps_contract x /\
    (f_sends s = [] \/ exists c m, f_sends s = [(c, m)] /\ buildFirebaseMessage range_keys payload = Ok m) /\
    (succeeded x = true <-> exists id, f_answer s = Some (Ok id) /\ strings_TrimSpace id <> EmptyString)).
Proof using Type.
  assert (forall e c p r, r = classifyFirebasePushFailure c e p -> Success r = false) as Hcl.
  { intros e c p r ->. unfold classifyFirebasePushFailure. by destruct (firebase_failure c e p) as [[? ?] ?]. }
  assert (forall x, keeps_contract x -> succeeded x = false ->
    keeps_contract x /\ (@nil (client * Message) = [] \/ exists c m, @nil (client * Message) = [(c, m)] /\ buildFirebaseMessage range_keys payload = Ok m) /\
    (succeeded x = true <-> exists id, @None (res string) = Some (Ok id) /\ strings_TrimSpace id <> EmptyString)) as Hq.
  { intros x Hk Hs. split; [done|]. split; [by left|]. rewrite Hs. split; [done|]. by intros (id & ? & _). }
  unfold Firebase_Send. destruct (negb (String.eqb action "send")); [by apply Hq|].
  destruct (buildFirebaseMessage range_keys payload) as [m|e]; [|by apply Hq].
  destruct (negb (initialized a)); [by apply Hq|]. destruct (_ && _); [by apply Hq|]. destruct (_ <=? 0); [by apply Hq|].
  apply wp_bind, messagingClient_quiet. intros [c|e].
  - intros x s ->. cbn [Prog.bind f_sends f_answer].
    destruct x as [id|e].
    + destruct (string_empty (strings_TrimSpace id)) eqn:E; cbn [wp].
      * split; [done|]. split; [right; by exists c, m|]. split; [done|]. intros (id' & [= <-] & Hn).
        apply string_empty_iff in E. by rewrite E in Hn.
      * split; [by split|]. split; [right; by exists c, m|]. split; [|done]. intros _. exists id. split; [done|]. by apply string_empty_false.
    + intros cause s ->. cbn [Prog.bind wp]. specialize (Hcl e cause "send" _ eq_refl).
      split; [cbn; congruence|]. split; [right; by exists c, m|]. cbn [succeeded]. rewrite Hcl. split; [done|]. by intros (id & ? & _).
  - intros cause s ->. cbn [Prog.bind wp]. specialize (Hcl e cause "client_init" _ eq_refl).
    apply Hq; [cbn; congruence|done].
Qed.
End delivery.

(** ** The shared client *)

(** What a delivery knows: outside of the lock, a client it has seen cached;
    inside, that it has not looked, that none is cached, the one it has built
    and not yet cached, or the one that is cached. *)
Inductive fts := Free (seen : option client) | Held | Vacant | Made (c : client) | Kept (c : client).

Definition fproto : protocol fcm fts := fun X e g =>
  match e in fcm X return X -> option fts with
  | FLoad => fun x =>
      match g with
      | Free _ => Some (Free x)
      | Held => Some (match x with Some c => Kept c | None => Vacant end)
      | _ => None
      end
  | FLock => fun _ => match g with Free _ => Some Held | _ => None end
  | FNewApp _ _ => fun _ => match g with Vacant => Some Vacant | _ => None end
  | FMessaging _ => fun x => match g with Vacant => Some (match x with Ok c => Made c | Err _ => Vacant end) | _ => None end
  | FStore c => fun _ => match g with Made c' => if decide (c = c') then Some (Kept c) else None | _ => None end
  | FUnlock => fun _ => match g with Held | Vacant => Some (Free None) | Kept c => Some (Free (Some c)) | _ => None end
  | FSend c _ => fun _ => match g with Free (Some c') => if decide (c = c') then Some (Free (Some c)) else None | _ => None end
  | FCause => fun _ => match g with Free k => Some (Free k) | _ => None end
  end.

Section follows.
Context {Wd : Wording} {SDK : FirebaseSDK} (range_keys : gmap string string -> list string) (a : FirebasePush).

Lemma newFirebaseMessagingClient_follows project credential :
  obeys fproto Vacant (newFirebaseMessagingClient project credential)
    (fun r g => g = match r with Ok c => Made c | Err _ => Vacant end).
Proof using Type.
  unfold newFirebaseMessagingClient. destruct (if string_empty _ then _ else _) as [opts|e]; [|done].
  intros x. exists Vacant. split; [done|]. destruct x as [app|e]; [|done].
  intros y. eexists. split; [done|]. by destruct y.
Qed.

Lemma messagingClient_follows credential :
  obeys fproto (Free None) (messagingClient a credential)
    (fun r g => match r with Ok c => g = Free (Some c) | Err _ => exists k, g = Free k end).
Proof using Type.
  intros x. exists (Free x). split; [done|]. destruct x as [c|]; [done|].
  intros []. exists Held. split; [done|]. intros y. eexists. split; [done|]. destruct y as [c|].
  { intros []. eexists. split; done. }
  cbn [Prog.bind]. apply obeys_bind. eapply obeys_mono; [apply newFirebaseMessagingClient_follows|].
  intros [c|e] g ->.
  - intros []. exists (Kept c). split; [cbn; by rewrite decide_True|]. intros []. by exists (Free (Some c)).
  - intros []. exists (Free None). split; [done|]. by eexists.
Qed.

Lemma Firebase_Send_follows ac action payload : follows fproto (Free None) (Firebase_Send range_keys a ac action payload).
Proof using Type.
  unfold Firebase_Send. destruct (negb (String.eqb action "send")); [done|].
  destruct (buildFirebaseMessage range_keys payload) as [m|e]; [|done].
  destruct (negb (initialized a)); [done|]. destruct (_ && _); [done|]. destruct (_ <=? 0); [done|].
  apply obeys_bind. eapply obeys_mono; [apply messagingClient_follows|]. intros [c|e] g H.
  - subst g. intros x. exists (Free (Some c)). split; [cbn; by rewrite decide_True|].
    cbn [Prog.bind].
    destruct x as [id|e]; [by destruct (string_empty (strings_TrimSpace id))|]. intros y. by eexists.
  - destruct H as [k ->]. intros y. by eexists.
Qed.
End follows.

(** What typestate [g] of thread [i] says of the shared state. *)
Definition fgood (s : fsys) (i : nat) (g : fts) : Prop :=
  match g with
  | Free None => fs_lock s <> Some i
  | Free (Some c) => fs_lock s <> Some i /\ fs_client s = Some c
  | Held => fs_lock s = Some i
  | Vacant => fs_lock s = Some i /\ fs_client s = None /\ fs_made s = []
  | Made c => fs_lock s = Some i /\ fs_client s = None /\ fs_made s = [c]
  | Kept c => fs_lock s = Some i /\ fs_client s = Some c
  end.

(** A call takes the lock for its own thread or leaves it. *)
Lemma feffect_lock i s X (e : fcm X) x s' j :
  feffect i s X e x s' -> fs_lock s' = Some j -> j = i \/ fs_lock s = Some j.
Proof. destruct e; cbn; intros H Hl; naive_solver. Qed.

(** The clients built, up to the one that is being cached. *)
Definition made_ok (s : fsys) (gs : list fts) : Prop :=
  (fs_made s = option_list (fs_client s)) \/ exists i c, gs !! i = Some (Made c).

Record finv (s : fsys) (gs : list fts) : Prop := {
  fi_follows : Forall2 (fun p g => follows fproto g p) (fs_threads s) gs;
  fi_good : forall i g, gs !! i = Some g -> fgood s i g;
  fi_made : made_ok s gs;
  fi_lock : forall i, fs_lock s = Some i -> exists g, gs !! i = Some g;
  fi_used : forall c, c ∈ fs_used s -> fs_client s = Some c;
}.

Lemma made_elsewhere s gs i g : finv s gs -> fs_lock s = Some i -> gs !! i = Some g -> (forall c, g <> Made c) ->
  fs_made s = option_list (fs_client s).
Proof.
  intros Hi Hl Hg Hn. destruct (fi_made _ _ Hi) as [|(j & c & Hj)]; [done|].
  destruct (fi_good _ _ Hi _ _ Hj) as (Hl' & _ & _). assert (j = i) as -> by congruence. by destruct (Hn c); congruence.
Qed.

Lemma made_ok_insert s s' gs i g g' :
  made_ok s gs -> gs !! i = Some g -> (forall c, g <> Made c) -> fs_made s' = fs_made s -> fs_client s' = fs_client s ->
  made_ok s' (<[i := g']> gs).
Proof.
  intros [H|(j & c & Hj)] Hg Hn E1 E2; [left; congruence|right].
  exists j, c. rewrite list_lookup_insert_ne; [done|]. intros ->. by destruct (Hn c); congruence.
Qed.

(** The other threads are not concerned by a call that keeps the client and
    the clients made, or that the holder of the lock makes. *)
Lemma others_good s s' gs i : finv s gs ->
  (fs_client s' = fs_client s \/ fs_client s = None) ->
  (fs_made s' = fs_made s \/ fs_lock s = Some i) -> (fs_client s' = fs_client s \/ fs_lock s = Some i) ->
  (fs_lock s' = fs_lock s \/ fs_lock s = None /\ fs_lock s' = Some i \/ fs_lock s = Some i /\ fs_lock s' = None) ->
  forall j h, j <> i -> gs !! j = Some h -> fgood s' j h.
Proof.
  intros Hi Hc Hm Hc' Hl j h Hne Hj. pose proof (fi_good _ _ Hi _ _ Hj) as Hg.
  destruct h as [[c|]| | |c|c]; cbn in *.
  - destruct Hg as [Hg1 Hg2]. split; [destruct Hl as [->|[[_ ->]|[_ ->]]]; congruence|]. destruct Hc; congruence.
  - destruct Hl as [->|[[_ ->]|[_ ->]]]; congruence.
  - destruct Hl as [->|[[? _]|[? _]]]; congruence.
  - destruct Hg as (G1 & G2 & G3). destruct Hl as [->|[[? _]|[? _]]]; [|congruence..].
    destruct Hm as [->|]; [|congruence]. destruct Hc' as [->|]; [done|congruence].
  - destruct Hg as (G1 & G2 & G3). destruct Hl as [->|[[? _]|[? _]]]; [|congruence..].
    destruct Hm as [->|]; [|congruence]. destruct Hc' as [->|]; [done|congruence].
  - destruct Hg as (G1 & G2). destruct Hl as [->|[[? _]|[? _]]]; [|congruence..].
    destruct Hc' as [->|]; [done|congruence].
Qed.

Lemma fcall_keeps i s X (e : fcm X) x s' gs g g' :
  finv s gs -> gs !! i = Some g -> feffect i s X e x s' -> fproto X e g x = Some g' ->
  fgood s' i g' /\ (forall j h, j <> i -> gs !! j = Some h -> fgood s' j h) /\ made_ok s' (<[i := g']> gs) /\
  (forall c, c ∈ fs_used s' -> fs_client s' = Some c).
Proof.
  intros Hi Hg He Hp. pose proof (fi_good _ _ Hi _ _ Hg) as Hgood. pose proof (fi_used _ _ Hi) as Hused.
  pose proof (fi_made _ _ Hi) as Hmade.
  destruct e as [| |c| |project credential|app|c m|]; cbn in He, Hp.
  - destruct He as [-> ->]. split; [|split; [by eapply others_good; eauto 6|split; [|done]]].
    + destruct g as [k| | | |]; try done; injection Hp as <-.
      * destruct (fs_client s) eqn:E; cbn; [split; [|done]|]; by (destruct k; [destruct Hgood|]).
      * cbn in Hgood. destruct (fs_client s) eqn:E; cbn; [done|]. split; [done|]. split; [done|].
        by rewrite (made_elsewhere _ _ _ _ Hi Hgood Hg), E.
    + eapply made_ok_insert; try done. by destruct g.
  - destruct He as [Hl ->]. destruct g as [k| | | |]; try done. injection Hp as <-. split; [done|].
    split; [eapply others_good; eauto 6|]. split; [|done]. by eapply made_ok_insert.
  - subst s'. destruct g as [| | |c'|]; try done. case_decide; [|done]. subst c'. injection Hp as <-.
    destruct Hgood as (G1 & G2 & G3). split; [done|]. split; [eapply others_good; eauto 6|]. split; [by left|].
    intros c' Hc'. specialize (Hused _ Hc'). congruence.
  - subst s'. split; [|split; [|split; [|done]]].
    + destruct g as [| | | |c]; try done; injection Hp as <-; cbn; [done|done|]. by destruct Hgood.
    + destruct g as [| | | |c]; try done; cbn in Hgood; eapply others_good; try done; cbn; try tauto; right; right; tauto.
    + eapply made_ok_insert; try done. by destruct g.
  - subst s'. destruct g; try done. injection Hp as <-. split; [done|]. split; [by eapply others_good; eauto 6|]. split; [|done].
    by eapply made_ok_insert.
  - subst s'. destruct g; try done. injection Hp as <-. destruct Hgood as (G1 & G2 & G3).
    split; [destruct x; cbn; by rewrite G3 || done|]. split; [eapply others_good; eauto 6|]. split; [|done].
    destruct x as [c|e]; [right; exists i, c; by rewrite list_lookup_insert_eq by by eapply lookup_lt_Some|].
    by eapply made_ok_insert.
  - subst s'. destruct g as [[c'|]| | | |]; try done. case_decide; [|done]. subst c'. injection Hp as <-. destruct Hgood as [G1 G2].
    split; [done|]. split; [eapply others_good; eauto 6|]. split; [by eapply made_ok_insert|].
    intros c' [->|Hc']%elem_of_cons; [done|]. by apply Hused.
  - subst s'. destruct g as [k| | | |]; try done. injection Hp as <-. split; [done|]. split; [by eapply others_good; eauto 6|].
    split; [by eapply made_ok_insert|done].
Qed.

Lemma finv_step start s s' gs :
  (forall p, start p -> follows fproto (Free None) p) -> finv s gs -> fstep start s s' -> exists gs', finv s' gs'.
Proof.
  intros Hst Hi Hs. destruct Hs as [i X e k x s s' Hth He|p s Hp].
  - destruct (Forall2_lookup_l _ _ _ _ _ (fi_follows _ _ Hi) Hth) as (g & Hg & Hf).
    cbn in Hf. destruct (Hf x) as (g' & Hpr & Hk).
    destruct (fcall_keeps _ _ _ _ _ _ _ _ _ Hi Hg He Hpr) as (H1 & H2 & H3 & H4).
    exists (<[i := g']> gs). split; [|intros j h Hj|exact H3| |exact H4].
    + apply Forall2_insert; [apply (fi_follows _ _ Hi)|exact Hk].
    + destruct (decide (j = i)) as [->|Hne].
      * rewrite list_lookup_insert_eq in Hj by by eapply lookup_lt_Some. by injection Hj as <-.
      * rewrite list_lookup_insert_ne in Hj by done. exact (H2 _ _ Hne Hj).
    + intros j Hl. destruct (decide (j = i)) as [->|Hne].
      * exists g'. by rewrite list_lookup_insert_eq by by eapply lookup_lt_Some.
      * destruct (feffect_lock _ _ _ _ _ _ _ He Hl) as [->|Hl']; [done|].
        destruct (fi_lock _ _ Hi _ Hl') as [h Hh]. exists h. by rewrite list_lookup_insert_ne.
  - exists (gs ++ [Free None]). assert (length gs = length (fs_threads s)) as Hlen by (symmetry; eapply Forall2_length, fi_follows; eauto).
    split; [|intros j h Hj| |intros j Hl|exact (fi_used _ _ Hi)].
    + apply Forall2_app; [apply (fi_follows _ _ Hi)|]. constructor; [by apply Hst|constructor].
    + apply lookup_app_Some in Hj as [Hj|[Hlt Hj]]; [exact (fi_good _ _ Hi _ _ Hj)|].
      apply list_lookup_singleton_Some in Hj as [Hj <-]. cbn. intros Hl.
      destruct (fi_lock _ _ Hi _ Hl) as [h Hh]. apply lookup_lt_Some in Hh. lia.
    + destruct (fi_made _ _ Hi) as [H|(j & c & Hj)]; [by left|right]. exists j, c. by apply lookup_app_l_Some.
    + destruct (fi_lock _ _ Hi _ Hl) as [h Hh]. exists h. by apply lookup_app_l_Some.
Qed.

(** The adapter after [Config]: no client, and no delivery yet. *)
Definition fs_init : fsys := mkFsys None None [] [] [].

(** C23: However the deliveries of a Firebase adapter are interleaved, at most
    one messaging client is ever cached and every message is sent with that
    client; the SDK builds at most one client, however many deliveries find
    the cache empty at once; and the lock is never waited for by a delivery
    that holds it. *)
Theorem firebase_single_client {Wd : Wording} {SDK : FirebaseSDK} (range_keys : gmap string string -> list string) (a : FirebasePush) s :
  star (fstep (fun p => exists ac action payload, p = Firebase_Send range_keys a ac action payload)) fs_init s ->
  (length (fs_made s) <= 1)%nat /\
  (forall c, c ∈ fs_used s -> fs_made s = [c] /\ fs_client s = Some c) /\
  (forall i k, fs_lock s = Some i -> fs_threads s !! i <> Some (Vis FLock k)).
Proof.
  intros Hs.
  assert (exists gs, finv s gs) as [gs Hi].
  { eapply (star_invariant _ (fun s => exists gs, finv s gs)); [| |exact Hs].
    - intros s1 s2 [gs Hi] H. eapply finv_step; [|exact Hi|exact H].
      intros p (ac & action & payload & ->). apply Firebase_Send_follows.
    - exists []. split; [constructor|done|by left|done|]. by intros c ?%elem_of_nil. }
  assert (made_ok s gs) as Hm by apply (fi_made _ _ Hi). split; [|split].
  - destruct Hm as [-> |(i & c & Hg)]; [destruct (fs_client s); cbn; lia|].
    destruct (fi_good _ _ Hi _ _ Hg) as (_ & _ & ->). cbn. lia.
  - intros c Hc. pose proof (fi_used _ _ Hi _ Hc) as Hcl. split; [|done].
    destruct Hm as [->|(i & c' & Hg)]; [by rewrite Hcl|]. destruct (fi_good _ _ Hi _ _ Hg) as (_ & ? & _). congruence.
  - intros i k Hl Hth. destruct (Forall2_lookup_l _ _ _ _ _ (fi_follows _ _ Hi) Hth) as (g & Hg & Hf).
    destruct (Hf tt) as (g' & Hp & _). pose proof (fi_good _ _ Hi _ _ Hg) as Hgood.
    destruct g as [[c|]| | | |]; try done. by destruct Hgood.
Qed.

(** What the Firebase adapter accepts it can send, whatever the order in
    which Go ranges over the data: a payload that [Validate] accepts is at
    most 4 KiB and builds a message with exactly one target, with a
    notification or data, whose data keys are not blank and not reserved by
    FCM, whose notification has a title or a body, whose image is reached over
    HTTPS and is given to both platforms, whose Android priority is a known
    one and whose badge is not negative. *)
Theorem firebase_accepted_wellformed {Wd : Wording} range_keys action payload :
  ranges range_keys -> Firebase_Validate range_keys action payload = None ->
  action = "send" /\ Z.of_nat (String.length payload) <= firebasePushMaxPayload /\
  exists m, buildFirebaseMessage range_keys payload = Ok m /\ well_formed m.
Proof.
  intros Hr H. unfold Firebase_Validate in H. destruct (String.eqb_spec action "send"); [|done]. split; [done|].
  unfold buildFirebaseMessage. destruct (normalizeFirebasePushPayload range_keys payload) as [p|er] eqn:E; [|done].
  unfold normalizeFirebasePushPayload, payload_too_large in E.
  destruct (Z.ltb_spec firebasePushMaxPayload (Z.of_nat (String.length payload))); [done|]. split; [done|].
  exists (message_of p). split; [done|]. destruct (json_decode payload) as [[j rest]|]; [|done].
  destruct (decode_push j) as [v|]; [|done]. destruct (ensureJSONEOF rest); [done|].
  by apply (check_push_ok range_keys v p Hr).
Qed.
