(* ===== verification/SmtpSpec.v ===== *)
(** * What the SMTP adapter guarantees

    A session is a prefix of one script, determined by the configuration and
    the message; success is exactly its completion; and what must be
    protected is. *)

From S2P Require Import Prelude Float Prog Errors Json JsonRaw Crypto Url Provider Http Adapter AdapterSpec Firebase FirebaseSpec Smtp.

(** ** The script *)

Inductive cmd :=
| CDial (implicitTLS : bool) | CDeadline | CGreeting | CExtension | CStartTLS
| CAuth (username password : string) | CMail (from : string) | CRcpt (to : string) | CData | CWrite (message : string) | CCommit.

Definition stage_of (c : cmd) : string :=
  match c with
  | CDial _ => "connect" | CDeadline => "connection_deadline" | CGreeting => "greeting" | CExtension | CStartTLS => "starttls"
  | CAuth _ _ => "auth" | CMail _ => "mail_from" | CRcpt _ => "recipient" | CData => "data_open" | CWrite _ => "data_write"
  | CCommit => "data_commit"
  end.

Definition tls_script (cfg : smtpSendRuntimeConfig) : list cmd :=
  if String.eqb (RC_TLSMode cfg) "starttls" then [CExtension; CStartTLS] else [].

Definition auth_script (cfg : smtpSendRuntimeConfig) (password : string) : list cmd :=
  if string_empty (RC_Username cfg) then [] else [CAuth (RC_Username cfg) password].

Definition mail_script (cfg : smtpSendRuntimeConfig) (recipients : list string) (message : string) : list cmd :=
  CMail (Addr_Address (RC_From cfg)) :: List.map CRcpt recipients ++ [CData; CWrite message; CCommit].

Definition script (cfg : smtpSendRuntimeConfig) (password : string) (recipients : list string) (message : string) : list cmd :=
  [CDial (String.eqb (RC_TLSMode cfg) "implicit_tls"); CDeadline; CGreeting] ++ tls_script cfg ++ auth_script cfg password ++
  mail_script cfg recipients message.

(** ** The environment *)

(** The commands that succeeded, newest first, and the first that failed,
    after which none counts. *)
Record snet := mkSnet { s_done : list cmd; s_failed : option (cmd * error) }.

Definition record (c : cmd) (x : option error) (s : snet) : snet :=
  match s_failed s, x with
  | Some _, _ => s
  | None, None => mkSnet (c :: s_done s) None
  | None, Some e => mkSnet (s_done s) (Some (c, e))
  end.

Definition no_starttls : error := EString "SMTP server does not advertise STARTTLS".

Definition smtp_any : handler smtp snet := fun X e =>
  match e in smtp X return snet -> X -> snet -> Prop with
  | SDial b _ _ _ => fun s x s' => s' = record (CDial b) x s
  | SSetDeadline => fun s x s' => s' = record CDeadline x s
  | SNewClient _ => fun s x s' => s' = record CGreeting x s
  | SExtension _ => fun s x s' => s' = record CExtension (if x then None else Some no_starttls) s
  | SStartTLS _ => fun s x s' => s' = record CStartTLS x s
  | SAuth u p _ => fun s x s' => s' = record (CAuth u p) x s
  | SMail f => fun s x s' => s' = record (CMail f) x s
  | SRcpt t => fun s x s' => s' = record (CRcpt t) x s
  | SData => fun s x s' => s' = record CData x s
  | SWrite m => fun s x s' => s' = record (CWrite m) x s
  | SDataClose => fun s x s' => s' = record CCommit x s
  | SNow | SBoundary | SCause | SQuit | SClientClose | SConnClose => fun s _ s' => s' = s
  end.

(** After [done], the commands [l] were to follow: all succeeded, or one
    failed after those before it. *)
Definition ran (l done : list cmd) (r : outcome) (s : snet) : Prop :=
  (r = ("accepted", None) /\ s = mkSnet (rev l ++ done) None) \/
  exists l1 c e l2, l = l1 ++ c :: l2 /\ r = (stage_of c, Some e) /\ s = mkSnet (rev l1 ++ done) (Some (c, e)).

Definition plays (p : sprog outcome) (l : list cmd) : Prop := forall done, wp smtp_any p (mkSnet done None) (ran l done).

Lemma ran_cons c l done r s : ran l (c :: done) r s -> ran (c :: l) done r s.
Proof.
  intros [[-> ->]|(l1 & c1 & e & l2 & -> & -> & ->)].
  - left. cbn. by rewrite <- app_assoc.
  - right. exists (c :: l1), c1, e, l2. cbn. by rewrite <- app_assoc.
Qed.

Lemma ran_failed c e l done : ran (c :: l) done (stage_of c, Some e) (mkSnet done (Some (c, e))).
Proof. right. by exists [], c, e, l. Qed.

(** A command that is recorded as [c]. *)
Lemma plays_attempt (e : smtp (option error)) c k l :
  (forall s x s', smtp_any _ e s x s' -> s' = record c x s) ->
  plays k l -> plays (attempt (stage_of c) e k) (c :: l).
Proof.
  intros He Hk done x s' Hx. apply He in Hx as ->. destruct x as [er|]; cbn [Prog.bind wp record s_failed s_done].
  - apply ran_failed.
  - eapply wp_mono; [apply Hk|]. intros r s. apply ran_cons.
Qed.

Lemma plays_end (p : sprog outcome) (l : list cmd) (e : smtp unit) :
  (forall s x s', smtp_any _ e s x s' -> s' = s) -> plays p l -> plays (r <- p ;; trigger e ;;; Ret r)%prog l.
Proof.
  intros He Hp done. apply wp_bind. eapply wp_mono; [apply Hp|]. intros r s Hr x s' Hx. apply He in Hx as ->. exact Hr.
Qed.

Lemma plays_rcpt rs k l : plays k l -> plays (rcpt_all rs k) (List.map CRcpt rs ++ l).
Proof.
  intros Hk. induction rs as [|r rs IH]; [done|]. cbn [rcpt_all List.map app].
  by apply (plays_attempt (SRcpt r) (CRcpt r)).
Qed.

Lemma plays_data message : plays (send_data message) [CData; CWrite message; CCommit].
Proof.
  apply (plays_attempt SData CData); [done|]. intros done x s' ->. destruct x as [e|]; cbn [Prog.bind record s_failed s_done].
  - intros y s'' ->. apply ran_failed.
  - eapply wp_mono; [apply (plays_attempt SDataClose CCommit _ []); [done|]|intros r s; apply ran_cons].
    intros d y s'' ->. by left.
Qed.

Lemma plays_starttls cfg k l : plays k l -> plays (start_tls cfg k) (tls_script cfg ++ l).
Proof.
  intros Hk. unfold start_tls, tls_script. destruct (String.eqb (RC_TLSMode cfg) "starttls"); [|done].
  intros done x s' ->. destruct x; cbn [Prog.bind negb record s_failed s_done].
  - eapply wp_mono; [apply (plays_attempt (SStartTLS (RC_Host cfg)) CStartTLS _ l); [done|exact Hk]|intros r s; apply ran_cons].
  - apply ran_failed.
Qed.

Lemma plays_auth cfg password k l : plays k l -> plays (authenticate cfg password k) (auth_script cfg password ++ l).
Proof.
  intros Hk. unfold authenticate, auth_script. destruct (string_empty (RC_Username cfg)); [done|].
  by apply (plays_attempt (SAuth _ _ _) (CAuth _ _)).
Qed.

Lemma plays_sendSMTP timeoutMs cfg password recipients message :
  plays (sendSMTP timeoutMs cfg password recipients message) (script cfg password recipients message).
Proof.
  apply (plays_attempt (SDial _ _ _ _) (CDial _)); [done|]. apply plays_end; [by intros|].
  apply (plays_attempt SSetDeadline CDeadline); [done|]. apply (plays_attempt (SNewClient _) CGreeting); [done|].
  apply plays_end; [by intros|]. apply plays_starttls, plays_auth.
  apply (plays_attempt (SMail _) (CMail _)); [done|]. apply plays_rcpt, plays_data.
Qed.

(** ** What is protected *)

(** The commands that reveal the credential, the correspondents or the
    message. *)
Definition sensitive (c : cmd) : Prop :=
  match c with CAuth _ _ | CMail _ | CRcpt _ | CWrite _ => True | _ => False end.

Definition attempted (c : cmd) (s : snet) : Prop := c ∈ s_done s \/ exists e, s_failed s = Some (c, e).

(** The connection is under TLS, or the configuration disables it. *)
Definition protected (cfg : smtpSendRuntimeConfig) (s : snet) : Prop :=
  (RC_TLSMode cfg = "implicit_tls" /\ CDial true ∈ s_done s) \/ (RC_TLSMode cfg = "starttls" /\ CStartTLS ∈ s_done s) \/
  (RC_TLSMode cfg <> "implicit_tls" /\ RC_TLSMode cfg <> "starttls").

Lemma prefix_without {A} (l1 P all : list A) c :
  l1 `prefix_of` all -> P `prefix_of` all -> c ∈ l1 -> c ∉ P -> P `prefix_of` l1.
Proof.
  intros H1 H2 Hc Hn. destruct (prefix_weak_total _ _ _ H1 H2) as [[k ->]|H]; [|done].
  exfalso. apply Hn, elem_of_app. by left.
Qed.

Definition opening (cfg : smtpSendRuntimeConfig) : list cmd :=
  [CDial (String.eqb (RC_TLSMode cfg) "implicit_tls"); CDeadline; CGreeting] ++ tls_script cfg.

Lemma opening_insensitive cfg c : sensitive c -> c ∉ opening cfg.
Proof.
  unfold opening, tls_script. intros Hs Hc. destruct (String.eqb (RC_TLSMode cfg) "starttls"); cbn in Hc;
    rewrite ?elem_of_cons, elem_of_nil in Hc; repeat (destruct Hc as [->|Hc]; [done|]); done.
Qed.

Lemma rev_in {A} (x : A) l : x ∈ rev l <-> x ∈ l.
Proof. by rewrite !list_elem_of_In, <- in_rev. Qed.

(** What was attempted is a prefix of the script, and a sensitive command is
    attempted only after the whole opening. *)
Lemma ran_opening cfg password rs m r s c : ran (script cfg password rs m) [] r s -> sensitive c -> attempted c s ->
  forall d, d ∈ opening cfg -> d ∈ s_done s.
Proof.
  intros Hr Hs Hc d Hd. pose proof (opening_insensitive cfg c Hs) as Hn.
  assert (opening cfg `prefix_of` script cfg password rs m) as Hp by (unfold script, opening; eexists; by rewrite <- app_assoc).
  assert (forall l, l `prefix_of` script cfg password rs m -> c ∈ l -> d ∈ l) as Hin.
  { intros l Hl Hcl. destruct (prefix_without _ _ _ _ Hl Hp Hcl Hn) as [k ->]. apply elem_of_app. by left. }
  destruct Hr as [[_ ->]|(l1 & c1 & e & l2 & El & _ & ->)]; rewrite app_nil_r in Hc |- *; cbn [s_done s_failed] in Hc |- *; apply (proj2 (rev_in _ _)).
  - destruct Hc as [Hc%(proj1 (rev_in _ _))|[e Hc]]; [|done]. by apply (Hin _ (reflexivity _)).
  - destruct Hc as [Hc%(proj1 (rev_in _ _))|[e' Hc]].
    + apply Hin; [by exists (c1 :: l2)|done].
    + injection Hc as -> _. assert (d ∈ l1 ++ [c]) as [H|H%list_elem_of_singleton]%elem_of_app.
      { apply Hin; [exists l2; by rewrite <- app_assoc|]. apply elem_of_app. right. by left. }
      * done.
      * by subst d.
Qed.

(** The commit is the last command of the script, and is there once. *)
Definition script_body (cfg : smtpSendRuntimeConfig) (password : string) (recipients : list string) (message : string) : list cmd :=
  opening cfg ++ auth_script cfg password ++ [CMail (Addr_Address (RC_From cfg))] ++ List.map CRcpt recipients ++ [CData; CWrite message].

Lemma script_snoc cfg password rs m : script cfg password rs m = script_body cfg password rs m ++ [CCommit].
Proof. unfold script, script_body, opening, mail_script. by rewrite <- !app_assoc. Qed.

Lemma commit_not_body cfg password rs m : CCommit ∉ script_body cfg password rs m.
Proof.
  unfold script_body, opening, tls_script, auth_script. rewrite !elem_of_app.
  intros [[H|H]|[H|[H|[H|H]]]].
  - by rewrite !elem_of_cons, elem_of_nil in H; naive_solver.
  - destruct (String.eqb _ _); rewrite ?elem_of_cons, elem_of_nil in H; naive_solver.
  - destruct (string_empty _); rewrite ?elem_of_cons, elem_of_nil in H; naive_solver.
  - by apply list_elem_of_singleton in H.
  - by apply list_elem_of_In, List.in_map_iff in H as (x & H & _).
  - rewrite !elem_of_cons, elem_of_nil in H. naive_solver.
Qed.

Lemma commit_last cfg password rs m l1 c l2 : script cfg password rs m = l1 ++ c :: l2 -> CCommit ∉ l1.
Proof.
  rewrite script_snoc. intros E Hc. destruct (prefix_weak_total l1 (script_body cfg password rs m) (script_body cfg password rs m ++ [CCommit])) as [[k Hk]|[k Hk]].
  - by exists (c :: l2).
  - by eexists.
  - apply (commit_not_body cfg password rs m). rewrite Hk. apply elem_of_app. by left.
  - rewrite Hk, <- app_assoc in E. apply app_inv_head in E. destruct k as [|x k]; [|by destruct k].
    rewrite app_nil_r in Hk. rewrite Hk in Hc. by apply (commit_not_body cfg password rs m).
Qed.

Definition smtp_quiet : snet := mkSnet [] None.

(** C22: Whatever the SMTP server, the network and the clock answer, the
    adapter keeps the worker's contract.  The session is one script: connect,
    greeting, STARTTLS where configured, authentication where configured, the
    sender, every recipient in order, the message once; it stops at the first
    command that fails, and reports the stage of that command.  Success is
    exactly an accepted message, and what follows cannot turn it into a
    failure.  The credential, the addresses and the message are sent only
    over TLS, unless the configuration disables it. *)
Theorem smtp_delivery {Wd : Wording} {ML : MailLib} send ac action payload :
  wp smtp_any (Smtp_Send send ac action payload) smtp_quiet (fun x s =>
    keeps_contract x /\
    (s = smtp_quiet \/ exists m now boundary message r,
       normalizeSMTPPayload payload = Ok m /\
       buildSMTPMessage payload (RC_From send) (AC_SourceSystem ac) (AC_SourceRequestID ac) now boundary = Ok message /\
       ran (script send (Credential ac) (List.map Addr_Address (Recipients m)) message) [] r s) /\
    (succeeded x = true <-> CCommit ∈ s_done s) /\
    (forall c, sensitive c -> attempted c s -> protected send s)).
Proof.
  assert (forall x, keeps_contract x -> succeeded x = false ->
    keeps_contract x /\ (smtp_quiet = smtp_quiet \/ exists m now boundary message r,
       normalizeSMTPPayload payload = Ok m /\
       buildSMTPMessage payload (RC_From send) (AC_SourceSystem ac) (AC_SourceRequestID ac) now boundary = Ok message /\
       ran (script send (Credential ac) (List.map Addr_Address (Recipients m)) message) [] r smtp_quiet) /\
    (succeeded x = true <-> CCommit ∈ s_done smtp_quiet) /\
    (forall c, sensitive c -> attempted c smtp_quiet -> protected send smtp_quiet)) as Hq.
  { intros x Hk Hs. rewrite Hs. split; [done|]. split; [by left|]. split; [split; [done|by intros ?%elem_of_nil]|].
    intros c _ [Hc|[e Hc]]; [by apply elem_of_nil in Hc|done]. }
  unfold Smtp_Send. destruct (negb (String.eqb action "send")); [by apply Hq|].
  destruct (negb (RC_Initialized send)); [by apply Hq|].
  destruct (normalizeSMTPPayload payload) as [m|e] eqn:En; [|by apply Hq].
  intros now s ->. cbn [Prog.bind]. apply wp_bind.
  assert (forall (p : sprog string) (Q : string -> snet -> Prop), p = trigger SBoundary \/ p = Ret EmptyString ->
    (forall b, Q b smtp_quiet) -> wp smtp_any p smtp_quiet Q) as Hb.
  { intros p Q [->| ->] HQ; [intros b s ->; apply HQ|apply HQ]. }
  apply Hb; [destruct (both_bodies m); auto|]. intros boundary.
  destruct (buildSMTPMessage _ _ _ _ _ _) as [message|e] eqn:Eb; [|by apply Hq].
  destruct (_ && _); [by apply Hq|]. apply wp_bind. eapply wp_mono; [apply plays_sendSMTP|]. intros r s Hr.
  assert (forall c, sensitive c -> attempted c s -> protected send s) as Hp.
  { intros c Hs Hc. pose proof (ran_opening _ _ _ _ _ _ _ Hr Hs Hc) as Ho. unfold opening, tls_script in Ho.
    destruct (String.eqb_spec (RC_TLSMode send) "implicit_tls") as [E|E].
    - left. split; [done|]. apply Ho. by left.
    - destruct (String.eqb_spec (RC_TLSMode send) "starttls") as [E'|E']; [|by right; right].
      right. left. split; [done|]. apply Ho. rewrite elem_of_app. right. by right; left. }
  destruct Hr as [[-> ->]|(l1 & c & e & l2 & El & -> & ->)]; cbn [wp].
  - split; [done|]. split; [right; exists m, now, boundary, message, ("accepted", None); split; [done|]; split; [done|by left]|].
    split; [|done]. split; [|done]. intros _. cbn [s_done]. rewrite app_nil_r. apply (proj2 (rev_in _ _)).
    rewrite script_snoc. apply elem_of_app. right. by left.
  - intros cause s' ->. cbn [Prog.bind wp].
    assert (Success (classifySMTPFailure cause (stage_of c) e) = false) as Hf.
    { unfold classifySMTPFailure. by repeat case_match. }
    split; [cbn; congruence|]. split.
    { right. exists m, now, boundary, message, (stage_of c, Some e). split; [done|]. split; [done|]. right. by exists l1, c, e, l2. }
    split; [|done]. cbn [succeeded]. rewrite Hf. split; [done|]. cbn [s_done]. rewrite app_nil_r. intros Hc%(proj1 (rev_in _ _)).
    by apply (commit_last _ _ _ _ _ _ _ El) in Hc.
Qed.

(** ** Header lines *)

Lemma no_crlf_mem s : no_crlf s = true <-> forall c, string_mem c s = true -> string_mem c crlf = false.
Proof.
  unfold no_crlf. rewrite negb_true_iff. induction s as [|d s IH].
  - by split.
  - cbn [strings_ContainsAny string_mem]. rewrite orb_false_iff, IH. split.
    + intros [H1 H2] c Hc. apply orb_true_iff in Hc as [Hc|Hc]; [|by apply H2]. apply Ascii.eqb_eq in Hc. by subst.
    + intros H. split; [apply H; by rewrite Ascii.eqb_refl|]. intros c Hc. apply H. rewrite Hc. apply orb_true_r.
Qed.

(** Every byte of [s] is one of [t]. *)
Definition bytes_from (s t : string) : Prop := forall c, string_mem c s = true -> string_mem c t = true.

Lemma no_crlf_from s t : bytes_from s t -> no_crlf t = true -> no_crlf s = true.
Proof. rewrite !no_crlf_mem. intros H Ht c Hc. apply Ht, H, Hc. Qed.

Lemma mem_app c s t : string_mem c (s +:+ t)%string = string_mem c s || string_mem c t.
Proof. induction s as [|d s IH]; [done|]. rewrite string_app_cons. cbn. by rewrite IH, orb_assoc. Qed.

Lemma no_crlf_app s t : no_crlf s = true -> no_crlf t = true -> no_crlf (s +:+ t)%string = true.
Proof. rewrite !no_crlf_mem. intros H1 H2 c. rewrite mem_app, orb_true_iff. intros [?|?]; auto. Qed.

Lemma mem_rev c s : string_mem c (string_rev s) = string_mem c s.
Proof.
  unfold string_rev. enough (forall acc, string_mem c (string_rev_app s acc) = string_mem c s || string_mem c acc) as -> by apply orb_false_r.
  induction s as [|d s IH]; intros acc; [done|]. cbn. rewrite IH. cbn. destruct (Ascii.eqb c d), (string_mem c s); done.
Qed.

Lemma strip_any_from ps s r : strip_any ps s = Some r -> bytes_from r s.
Proof.
  induction ps as [|p ps IH]; [done|]. cbn. destruct (strip_prefix p s) eqn:E; [|done].
  intros [= <-] c Hc. apply strip_prefix_Some in E as ->. rewrite mem_app, Hc. apply orb_true_r.
Qed.

Lemma trim_left_from ps n s : bytes_from (trim_left_with ps n s) s.
Proof.
  revert s. induction n as [|n IH]; intros s; [by intros c|]. cbn. destruct (strip_any ps s) as [r|] eqn:E; [|by intros c].
  intros c Hc. apply (strip_any_from _ _ _ E). by apply IH.
Qed.

Lemma TrimSpace_from s : bytes_from (strings_TrimSpace s) s.
Proof.
  intros c Hc. unfold strings_TrimSpace in Hc. rewrite mem_rev in Hc. apply trim_left_from in Hc. rewrite mem_rev in Hc.
  by apply trim_left_from in Hc.
Qed.

Lemma cut_from sep s a b ok : cut sep s = (a, b, ok) -> bytes_from a s /\ bytes_from b s.
Proof.
  revert a b ok. induction s as [|d s IH]; intros a b ok; cbn [cut].
  - intros [= <- <- <-]. by split.
  - destruct (Ascii.eqb d sep).
    + intros [= <- <- <-]. split; [by intros c|]. intros c Hc. cbn. rewrite Hc. apply orb_true_r.
    + destruct (cut sep s) as [[a' b'] ok'] eqn:E. intros [= <- <- <-]. destruct (IH _ _ _ eq_refl) as [H1 H2].
      split; intros c Hc; cbn in *; [|by rewrite H2, orb_true_r].
      apply orb_true_iff in Hc as [->|Hc]; [done|]. by rewrite H1, orb_true_r.
Qed.

Lemma message_domain_clean a : no_crlf a = true -> no_crlf (message_domain a) = true.
Proof.
  intros Ha. unfold message_domain, cut_last. destruct (cut "@" (string_rev a)) as [[x y] ok] eqn:E. destruct ok; [|done].
  destruct (string_empty (string_rev x)); [done|]. apply (no_crlf_from _ a); [|done].
  intros c Hc. rewrite mem_rev in Hc. apply (cut_from _ _ _ _ _ E) in Hc. by rewrite mem_rev in Hc.
Qed.

Lemma hex_clean l : Forall (fun b => b < 256)%N l -> no_crlf (hex_EncodeToString l) = true.
Proof.
  intros Hl. apply no_crlf_mem. intros c Hc. destruct (hex_digits _ Hl _ Hc) as [n Hn].
  destruct (string_mem c crlf) eqn:E; [|done]. exfalso. cbn in E. rewrite !orb_true_iff in E.
  destruct E as [E|[E|E]]; [..|done]; apply Ascii.eqb_eq in E; by subst.
Qed.

Lemma message_id_clean ss rid a payload : no_crlf a = true -> no_crlf (stableMessageID ss rid a payload) = true.
Proof.
  intros Ha. unfold stableMessageID. repeat apply no_crlf_app; try done; [|by apply message_domain_clean].
  apply hex_clean, Forall_take, Sum256_bytes.
Qed.

Lemma join_clean l sep : Forall (fun s => no_crlf s = true) l -> no_crlf sep = true -> no_crlf (strings_Join l sep) = true.
Proof.
  intros Hl Hs. induction Hl as [|s l H1 _ IH]; [done|]. destruct l as [|t l]; [done|].
  change (strings_Join (s :: t :: l) sep) with (s +:+ sep +:+ strings_Join (t :: l) sep)%string.
  by repeat apply no_crlf_app.
Qed.

(** What is assumed of [net/mail], [mime] and [time]: an address parsed from
    one line is printed on one line, under any name; so are an encoded word
    of one line, and a date. *)
Class MailLaws `{MailLib} := {
  address_line raw a : no_crlf raw = true -> mail_ParseAddress raw = Some a -> no_crlf (Addr_Address a) = true;
  address_String_line raw a n : no_crlf raw = true -> mail_ParseAddress raw = Some a ->
    no_crlf (Address_String (mkAddress n (Addr_Address a))) = true;
  QEncode_line s : no_crlf s = true -> no_crlf (QEncode s) = true;
  rfc1123z_line t : no_crlf (rfc1123z t) = true;
}.

Section headers.
Context {Wd : Wording} `{MailLaws}.

(** An address that came out of the parser. *)
Definition parsed_address (a : string) : Prop :=
  exists raw b, no_crlf raw = true /\ mail_ParseAddress raw = Some b /\ Addr_Address b = a.

Lemma parseSingleAddress_parsed raw field a : parseSingleAddress raw field = Ok a -> parsed_address (Addr_Address a).
Proof using Type.
  unfold parseSingleAddress. destruct (negb (no_crlf raw)) eqn:E; [done|].
  destruct (mail_ParseAddress (strings_TrimSpace raw)) as [b|] eqn:Ep; [|done].
  destruct (string_empty _); [done|]. intros [= <-]. exists (strings_TrimSpace raw), b. split; [|done].
  apply (no_crlf_from _ raw); [apply TrimSpace_from|]. by apply negb_false_iff.
Qed.

Lemma parsed_line a n : parsed_address a -> no_crlf a = true /\ no_crlf (Address_String (mkAddress n a)) = true.
Proof using Type*. intros (raw & b & H1 & H2 & <-). split; [by eapply address_line|by eapply address_String_line]. Qed.

Lemma parse_recipients_parsed l i rs : parse_recipients i l = Ok rs -> Forall (fun a => parsed_address (Addr_Address a)) rs.
Proof using Type.
  revert i rs. induction l as [|raw l IH]; intros i rs Hp; cbn in Hp; [by injection Hp as <-|].
  destruct (parseSingleAddress _ _) as [a|] eqn:E; [|done]. destruct (parse_recipients _ l) as [rs'|] eqn:E'; [|done].
  injection Hp as <-. constructor; [by eapply parseSingleAddress_parsed|by eapply IH].
Qed.

Lemma normalize_smtp_ok payload m : normalizeSMTPPayload payload = Ok m ->
  Forall (fun a => parsed_address (Addr_Address a)) (Recipients m) /\ no_crlf (NS_Subject m) = true /\
  (0 < length (Recipients m) <= smtpMaxRecipients)%nat /\ (NS_Text m <> EmptyString \/ NS_HTML m <> EmptyString).
Proof using Type.
  unfold normalizeSMTPPayload. destruct (payload_too_large _ _); [done|]. destruct (match json_decode payload with Some _ => _ | None => _ end) as [v|]; [|done].
  unfold check_smtp. destruct (_ =? 0)%nat eqn:E0; [done|]. destruct (_ <? _)%nat eqn:E1; [done|]. destruct (string_empty (strings_TrimSpace _)); [done|].
  destruct (negb _) eqn:E2; [done|]. destruct (string_empty (SP_Text v) && _) eqn:E3; [done|].
  destruct (parse_recipients 0 (SP_To v)) as [rs|] eqn:Er; [|done]. intros [= <-]. cbn.
  split; [by eapply parse_recipients_parsed|]. split; [by apply negb_false_iff|]. split.
  - assert (forall l i rs, parse_recipients i l = Ok rs -> length rs = length l) as Hlen.
    { clear. induction l as [|raw l IH]; intros i rs Hp; cbn in Hp; [by injection Hp as <-|].
      destruct (parseSingleAddress _ _); [|done]. destruct (parse_recipients _ l) eqn:E; [|done]. injection Hp as <-. cbn. f_equal. by eapply IH. }
    rewrite (Hlen _ _ _ Er). apply Nat.eqb_neq in E0. apply Nat.ltb_ge in E1. lia.
  - destruct (SP_Text v), (SP_HTML v); try done; [by right|by left..].
Qed.

(** C29: No header injection: a message built from an accepted payload under an
    accepted configuration starts with its header lines, each a single line
    whatever the subject, the names and the addresses contain, then an empty
    line and the body; it goes to between one and a hundred recipients and
    has a text or an HTML body. *)
Theorem smtp_message_lines {Y} (decode : Y -> res smtpEmailConfig) raw c send payload ss rid now boundary message :
  Smtp_Config decode raw = Ok (c, send) -> no_crlf boundary = true ->
  buildSMTPMessage payload (RC_From send) ss rid now boundary = Ok message ->
  exists m headers, normalizeSMTPPayload payload = Ok m /\
    message = (lines (headers ++ [EmptyString]) +:+ message_body m boundary)%string /\
    Forall (fun h => no_crlf h = true) headers /\
    headers = common_headers m (RC_From send) (stableMessageID ss rid (Addr_Address (RC_From send)) payload) now ++ body_headers m boundary /\
    (1 <= length (Recipients m) <= 100)%nat /\ (NS_Text m <> EmptyString \/ NS_HTML m <> EmptyString).
Proof using Type*.
  intros Hc Hb Hm. unfold buildSMTPMessage in Hm. destruct (normalizeSMTPPayload payload) as [m|] eqn:En; [|done]. injection Hm as <-.
  assert (parsed_address (Addr_Address (RC_From send))) as Hfrom.
  { unfold Smtp_Config in Hc. repeat case_match; simplify_eq/=. by eapply parseSingleAddress_parsed. }
  destruct (normalize_smtp_ok _ _ En) as (Hr & Hs & Hn & Hx).
  exists m, (common_headers m (RC_From send) (stableMessageID ss rid (Addr_Address (RC_From send)) payload) now ++ body_headers m boundary).
  split; [done|]. split; [by rewrite <- app_assoc|]. split; [|by split; [|split; [unfold smtpMaxRecipients in Hn; lia|]]].
  destruct (parsed_line _ (Addr_Name (RC_From send)) Hfrom) as [Hf1 Hf2].
  assert (RC_From send = mkAddress (Addr_Name (RC_From send)) (Addr_Address (RC_From send))) as Ef by by destruct (RC_From send).
  rewrite <- Ef in Hf2. pose proof (message_id_clean ss rid _ payload Hf1) as Hid. revert Hid. generalize (stableMessageID ss rid (Addr_Address (RC_From send)) payload).
  intros messageID Hid. apply Forall_app. split.
  - unfold common_headers, header_line. repeat constructor; repeat apply no_crlf_app; try done.
    + apply rfc1123z_line.
    + apply join_clean; [|done]. apply Forall_forall. intros s Hin. apply list_elem_of_In, List.in_map_iff in Hin as ([n a] & <- & Hin).
      apply list_elem_of_In in Hin. rewrite Forall_forall in Hr. by apply parsed_line, (Hr _ Hin).
    + by apply QEncode_line.
  - unfold body_headers, header_line. destruct (both_bodies m); repeat constructor; repeat apply no_crlf_app; try done.
    by destruct (string_empty (NS_Text m)).
Qed.
End headers.

(** ** Accepted configurations *)

(** An SMTP configuration that is accepted has a port and positive
    limits, disables TLS only for a loopback host, and names a password
    exactly when it names a user. *)
Theorem smtp_config_safe {Wd : Wording} {ML : MailLib} {Y} (decode : Y -> res smtpEmailConfig) raw c send :
  Smtp_Config decode raw = Ok (c, send) ->
  RC_TLSMode send ∈ ["starttls"; "implicit_tls"; "disabled"] /\
  (RC_TLSMode send = "disabled" -> isLoopbackHost (RC_Host send) = true) /\
  (RC_Username send = EmptyString <-> CredentialRef c = EmptyString) /\
  RC_Initialized send = true /\
  exists a port, Actions c = [("send", a)] /\ 0 < Cfg_TimeoutMs a /\ 0 < Cfg_MaxConcurrency a /\
    1 <= port <= 65535 /\ RC_Address send = JoinHostPort (RC_Host send) (strconv_Itoa port) /\
    forall b, CircuitBreaker a = Some b -> FailureThreshold b <> 0 /\ 0 < OpenDuration b.
Proof.
  intros H. unfold Smtp_Config in H. destruct (decode raw) as [cfg|]; [|done].
  destruct (check_smtp_server (SE_Send cfg)) as [[host mode]|] eqn:Es; [|done].
  destruct (negb _) eqn:Eu; [done|]. destruct (parseSingleAddress _ _) as [from|]; [|done].
  destruct (normalizeCircuitBreaker _) as [b|] eqn:Eb; [|done]. injection H as <- <-.
  unfold check_smtp_server in Es. destruct (validateDeliveryLimits _ _ _) eqn:El; [done|].
  destruct (validateSMTPHost _); [done|]. destruct (_ || _) eqn:Ep; [done|].
  destruct (resolve_tls_mode _ _) as [m|] eqn:Et; [|done]. injection Es as <- <-.
  apply limits_ok in El as (L1 & _ & L2). bool_to_prop.
  cbn [RC_TLSMode RC_Host RC_Username RC_Initialized RC_Address CredentialRef Actions].
  unfold resolve_tls_mode in Et. revert Et. generalize (if string_empty (strings_ToLower (strings_TrimSpace (SC_TLSMode (SE_Send cfg)))) then "starttls" else strings_ToLower (strings_TrimSpace (SC_TLSMode (SE_Send cfg)))). intros mode0 Et.
  split; [|split; [|split; [|split; [done|]]]].
  - destruct (String.eqb_spec mode0 "starttls") as [E|]; [injection Et as <-; rewrite E; by left|].
    destruct (String.eqb_spec mode0 "implicit_tls") as [E|]; [injection Et as <-; rewrite E; by right; left|].
    destruct (String.eqb_spec mode0 "disabled") as [E|]; [|done]. destruct (isLoopbackHost _); [|done].
    injection Et as <-. rewrite E. by right; right; left.
  - intros Em. destruct (String.eqb mode0 "starttls" || String.eqb mode0 "implicit_tls") eqn:Eo.
    { injection Et as <-. by rewrite Em in Eo. }
    destruct (String.eqb_spec mode0 "disabled"); [|done]. by destruct (isLoopbackHost _).
  - by destruct (strings_TrimSpace (SC_Username _)), (strings_TrimSpace (SE_PasswordRef _)).
  - eexists _, (SC_Port (SE_Send cfg)). split; [reflexivity|]. cbn. split; [done|]. split; [done|]. split; [lia|]. split; [done|].
    intros b' ->. by eapply breaker_ok.
Qed.
