(* ===== verification/Config.v ===== *)
(** * Start-up configuration

    [internal/config] (environment references, bearer tokens),
    [internal/authn], [internal/logging], the driver check of
    [internal/store/postgres.go] and the checks [cmd/server] and [cmd/worker]
    make before they serve. Reading YAML is a library's. *)

From S2P Require Import Prelude Errors Json JsonRaw Crypto Url.

(** ** [expandEnv] *)

Definition name_start (c : ascii) : bool := is_letter c || Ascii.eqb c "_".
Definition name_byte (c : ascii) : bool := is_alnum c || Ascii.eqb c "_".

(** The longest prefix of bytes [p] and the rest. *)
Fixpoint span (p : ascii -> bool) (s : string) : string * string :=
  match s with
  | String c r => if p c then let '(a, b) := span p r in (String c a, b) else (EmptyString, s)
  | EmptyString => (EmptyString, EmptyString)
  end.

(** A match of [envRef] after its [${]: the name, the default of
    [${NAME:-default}], and the text after the match. *)
Definition env_ref (s : string) : option (string * option string * string) :=
  match s with
  | String c _ =>
      if name_start c then
        let '(name, r) := span name_byte s in
        match r with
        | String "}" rest => Some (name, None, rest)
        | String ":" (String "-" r') =>
            let '(def, r'') := span (fun d => negb (Ascii.eqb d "}")) r' in
            match r'' with
            | String "}" rest => Some (name, Some def, rest)
            | _ => None
            end
        | _ => None
        end
      else None
  | EmptyString => None
  end.

Section env.
Context (LookupEnv : string -> option string).

Definition env_value (name : string) (def : option string) : string :=
  match LookupEnv name with
  | Some v => v
  | None => default EmptyString def
  end.

(** Matches are replaced from the left; what replaces them is not scanned
    again. Every round consumes a byte, so the length is enough fuel. *)
Fixpoint expand_go (fuel : nat) (s : string) : string :=
  match fuel with
  | O => s
  | S f =>
      match s with
      | EmptyString => EmptyString
      | String "$" (String "{" r) =>
          match env_ref r with
          | Some (name, def, rest) => (env_value name def +:+ expand_go f rest)%string
          | None => String "$" (expand_go f (String "{" r))
          end
      | String c r => String c (expand_go f r)
      end
  end.

Definition expandEnv (s : string) : string := expand_go (String.length s) s.

(** [loadYAML]: [readFile] and [unmarshal] answer for the file system and the
    YAML library. *)
Definition loadYAML {A} (readFile : string -> res string) (unmarshal : string -> res A) (path : string) : res A :=
  match readFile path with
  | Err e => Err (EWrap ("read config " +:+ path +:+ ": ")%string e EmptyString)
  | Ok raw =>
      match unmarshal (expandEnv raw) with
      | Err e => Err (EWrap ("parse config " +:+ path +:+ ": ")%string e EmptyString)
      | Ok v => Ok v
      end
  end.
End env.

(** ** Bearer tokens *)

Fixpoint collect_tokens (configured : list string) (seen : gset string) : list string :=
  match configured with
  | [] => []
  | configuredToken :: rest =>
      let token := strings_TrimSpace configuredToken in
      if string_empty token then collect_tokens rest seen
      else if decide (token ∈ seen) then collect_tokens rest seen
      else token :: collect_tokens rest ({[token]} ∪ seen)
  end.

(** [ResolveAuthTokens]: the tokens and the generated one; [random] is what
    [rand.Read] put into 32 bytes. *)
Definition ResolveAuthTokens (configured : list string) (random : res (list N)) : res (list string * string) :=
  match collect_tokens configured ∅ with
  | t :: ts => Ok (t :: ts, EmptyString)
  | [] =>
      match random with
      | Err e => Err (EWrap "generate auth token: " e EmptyString)
      | Ok bytes => let generatedToken := base64 true bytes in Ok ([generatedToken], generatedToken)
      end
  end.

(** [authn.Verifier]; [None] is a nil one. *)
Record Verifier := { accepted : gset string }.

Definition NewVerifier (tokens : list string) : Verifier :=
  {| accepted := list_to_set (List.filter (fun t => negb (string_empty t)) tokens) |}.

Definition Verify (v : option Verifier) (token : string) : option error :=
  match v with
  | None => Some (ESentinel ErrInvalidToken)
  | Some v => if decide (token ∈ accepted v) then None else Some (ESentinel ErrInvalidToken)
  end.

(** ** Log level *)

Inductive Level := LevelDebug | LevelInfo | LevelWarn | LevelError.

Definition parseLevel (raw : string) : Level :=
  let l := strings_ToLower (strings_TrimSpace raw) in
  if String.eqb l "debug" then LevelDebug
  else if String.eqb l "warn" || String.eqb l "warning" then LevelWarn
  else if String.eqb l "error" then LevelError
  else LevelInfo.

(** [NewJSON]: the least level the process's logger writes; [getenv] is
    [os.Getenv]. *)
Definition NewJSON (getenv : string -> string) : Level := parseLevel (getenv "LOG_LEVEL").

(** ** Checks before serving *)

Definition validatePostgresDriver `{Wording} (driver : string) : option error :=
  let d := strings_ToLower (strings_TrimSpace driver) in
  if string_empty d || String.eqb d "postgres" || String.eqb d "postgresql" || String.eqb d "pg" then None
  else Some (EString ("unsupported database driver " +:+ quote_q driver +:+ ": only PostgreSQL is supported")%string).

Definition validateMCPPath (path : string) : option error :=
  if string_empty path || String.eqb path "/" || negb (strings_HasPrefix path "/") ||
     strings_HasSuffix path "/" || strings_ContainsAny path ("{} " +:+ string_of_bytes [9; 13; 10]%N)%string
  then Some (EString "mcp.path must be a non-root exact HTTP path such as /mcp")
  else None.

Definition normalizedShutdownTimeout (timeout : Z) : Z :=
  if timeout <=? 0 then 15 * time_Second else timeout.

(** The number of handlers both commands run. *)
Definition worker_concurrency (configured : Z) : Z := if configured <=? 0 then 1 else configured.

(** What [cmd/server] requires of the embedded worker's lease, and
    [cmd/worker] of the driver. *)
Definition server_lease_check (driver : string) (lease : Z) : option error :=
  if String.eqb driver "memory" && (lease <=? 0)
  then Some (EString ("worker.lease.duration must be greater than zero for mq driver " +:+ quote "memory")%string)
  else None.

Definition worker_driver_check (driver : string) : option error :=
  if String.eqb driver "memory"
  then Some (EString ("mq driver " +:+ quote "memory" +:+ " is in-process only; run cmd/server with its embedded worker")%string)
  else None.

(** ** Properties *)

Lemma span_forall p a b : string_forall p a = true -> (forall c r, b = String c r -> p c = false) -> span p (a +:+ b)%string = (a, b).
Proof.
  intros Ha Hb. induction a as [|c a IH].
  - change (EmptyString +:+ b)%string with b. destruct b as [|d b]; [done|]. cbn. by rewrite (Hb d b eq_refl).
  - cbn in Ha. bool_to_prop. rewrite string_app_cons. cbn. by rewrite H, IH.
Qed.

Lemma expand_go_step env f c s : Ascii.eqb "$" c = false ->
  expand_go env (S f) (String c s) = String c (expand_go env f s).
Proof. intros H. cbn [expand_go]. destruct c as [[] [] [] [] [] [] [] []]; done. Qed.

Lemma expand_go_ref env f r : expand_go env (S f) (String "$" (String "{" r)) =
  match env_ref r with
  | Some (name, def, rest) => (env_value env name def +:+ expand_go env f rest)%string
  | None => String "$" (expand_go env f (String "{" r))
  end.
Proof. reflexivity. Qed.

Lemma expand_go_plain env f s : string_mem "$" s = false -> (String.length s <= f)%nat -> expand_go env f s = s.
Proof.
  revert f. induction s as [|c s IH]; intros [|f] Hm Hf; try done. cbn [string_mem] in Hm. cbn [String.length] in Hf.
  apply orb_false_iff in Hm as [Hc Hm]. rewrite expand_go_step by done. f_equal. apply IH; [done|lia].
Qed.

Lemma expand_go_prefix env pre s : string_mem "$" pre = false -> forall f,
  (String.length pre + String.length s <= f)%nat ->
  exists f', (String.length s <= f')%nat /\ expand_go env f (pre +:+ s)%string = (pre +:+ expand_go env f' s)%string.
Proof.
  induction pre as [|c pre IH]; intros Hm f Hf.
  - exists f. split; [cbn in Hf; lia|done].
  - cbn [string_mem] in Hm. apply orb_false_iff in Hm as [Hc Hm]. cbn [String.length] in Hf. destruct f as [|f]; [lia|].
    destruct (IH Hm f) as (f' & Hf' & E); [lia|]. exists f'. split; [done|].
    by rewrite !string_app_cons, <- E, expand_go_step.
Qed.

(** More fuel than the text is long changes nothing. *)
Lemma env_ref_shorter s n d r : env_ref s = Some (n, d, r) -> (String.length r < String.length s)%nat.
Proof.
  assert (forall p t a b, span p t = (a, b) -> (String.length b <= String.length t)%nat) as Hs.
  { intros p t. induction t as [|c t IH]; intros a b H; cbn in H; [by simplify_eq|].
    destruct (p c); [|by simplify_eq]. destruct (span p t) as [x y] eqn:E. simplify_eq. specialize (IH _ _ eq_refl). cbn. lia. }
  unfold env_ref. destruct s as [|c s]; [done|]. destruct (name_start c); [|done].
  destruct (span name_byte (String c s)) as [nm r1] eqn:E1. apply Hs in E1. intros H.
  destruct r1 as [|c1 r1]; [done|]. cbn [String.length] in E1.
  repeat case_match; simplify_eq; cbn [String.length] in *; try lia.
  all: match goal with E : span _ _ = _ |- _ => apply Hs in E; cbn [String.length] in E; lia end.
Qed.

Lemma expand_go_fuel env s : forall f g, (String.length s <= f)%nat -> (String.length s <= g)%nat ->
  expand_go env f s = expand_go env g s.
Proof.
  induction s as [s IH] using (induction_ltof1 _ String.length). unfold ltof in IH. intros f g Hf Hg.
  destruct s as [|c s]; [by destruct f, g|]. destruct f as [|f]; [cbn in Hf; lia|]. destruct g as [|g]; [cbn in Hg; lia|].
  destruct (Ascii.eqb "$" c) eqn:Ec.
  - apply Ascii.eqb_eq in Ec. subst c. cbn [String.length] in *. destruct s as [|d s]; [by destruct f, g|].
    assert (forall r, (String.length r < S (String.length (String d s)))%nat -> expand_go env f r = expand_go env g r) as IH'.
    { intros r Hr. apply IH; cbn [String.length] in *; lia. }
    pose proof (IH' (String d s) ltac:(lia)) as Hds.
    destruct (Ascii.eqb d "{") eqn:Ed.
    + apply Ascii.eqb_eq in Ed. subst d. cbn [expand_go]. destruct (env_ref s) as [[[n df] r]|] eqn:E; [|by f_equal].
      apply env_ref_shorter in E. f_equal. apply IH'. cbn [String.length]. lia.
    + assert (forall h, expand_go env (S h) (String "$" (String d s)) = String "$" (expand_go env h (String d s))) as H.
      { intros h. cbn [expand_go]. destruct d as [[] [] [] [] [] [] [] []]; done. }
      rewrite !H. by f_equal.
  - rewrite !expand_go_step by done. f_equal. apply IH; cbn [String.length] in *; lia.
Qed.

Lemma expand_prefix env pre s : string_mem "$" pre = false -> expandEnv env (pre +:+ s)%string = (pre +:+ expandEnv env s)%string.
Proof.
  intros Hp. unfold expandEnv.
  assert (String.length (pre +:+ s)%string = String.length pre + String.length s)%nat as El.
  { clear. induction pre as [|c pre IH]; [done|]. rewrite string_app_cons. cbn. by rewrite IH. }
  destruct (expand_go_prefix env pre s Hp (String.length (pre +:+ s)%string)) as (f & Hf & ->); [lia|].
  f_equal. by apply expand_go_fuel.
Qed.

Lemma expand_ref env body n d rest :
  env_ref body = Some (n, d, rest) ->
  expandEnv env (String "$" (String "{" body)) = (env_value env n d +:+ expandEnv env rest)%string.
Proof.
  intros H. unfold expandEnv. change (String.length (String "$" (String "{" body))) with (S (S (String.length body))).
  rewrite expand_go_ref, H. f_equal. apply env_ref_shorter in H. apply expand_go_fuel; lia.
Qed.

(** A reference in a configuration file is replaced by the variable's value
    when it is set, even to the empty text, by its default otherwise; what
    replaces it is not expanded again, the text before the first dollar sign
    is kept, and the text after the reference is expanded in the same way. A
    file without a dollar sign is kept as it is. *)
Theorem expandEnv_reference env pre name def post :
  string_mem "$" pre = false -> name <> EmptyString ->
  (forall c r, name = String c r -> name_start c = true) -> string_forall name_byte name = true ->
  (forall d, def = Some d -> string_mem "}" d = false) ->
  let ref := match def with None => (name +:+ "}")%string | Some d => (name +:+ ":-" +:+ d +:+ "}")%string end in
  expandEnv env (pre +:+ "${" +:+ ref +:+ post)%string =
    (pre +:+ match env name with Some v => v | None => default EmptyString def end +:+ expandEnv env post)%string /\
  expandEnv env pre = pre.
Proof.
  intros Hp Hne Hstart Hname Hdef ref. split; [|by apply expand_go_plain].
  rewrite expand_prefix by done. f_equal.
  change ("${" +:+ ref +:+ post)%string with (String "$" (String "{" (ref +:+ post)%string)).
  apply (expand_ref env _ name def post). unfold env_ref.
  assert (forall tl, (forall c r, tl = String c r -> name_byte c = false) ->
    match (name +:+ tl)%string with String c _ => name_start c | _ => false end = true /\
    span name_byte (name +:+ tl)%string = (name, tl)) as Hn.
  { intros tl Ht. split; [|by apply span_forall]. destruct name as [|c r]; [done|]. rewrite string_app_cons. by apply (Hstart c r). }
  destruct def as [d|]; subst ref.
  - rewrite string_app_assoc. destruct (Hn ((":-" +:+ d +:+ "}") +:+ post)%string) as [H1 H2]; [by intros c r [= <- _]|].
    rewrite H2. destruct (name +:+ _)%string; [done|]. rewrite H1.
    change ((":-" +:+ d +:+ "}") +:+ post)%string with (String ":" (String "-" ((d +:+ "}") +:+ post)%string)).
    cbv beta iota zeta. rewrite string_app_assoc, span_forall; [done| |by intros c r [= <- _]].
    specialize (Hdef d eq_refl). clear -Hdef. induction d as [|c d IH]; [done|]. cbn [string_mem] in Hdef.
    apply orb_false_iff in Hdef as [Hc Hd]. cbn [string_forall]. by rewrite Ascii.eqb_sym, Hc, IH.
  - rewrite string_app_assoc. destruct (Hn ("}" +:+ post)%string) as [H1 H2]; [by intros c r [= <- _]|].
    rewrite H2. destruct (name +:+ _)%string; [done|]. by rewrite H1.
Qed.

(** ** Tokens *)

Lemma collect_tokens_spec configured : forall seen,
  NoDup (collect_tokens configured seen) /\
  forall t, t ∈ collect_tokens configured seen <-> t <> EmptyString /\ t ∉ seen /\ exists c, c ∈ configured /\ t = strings_TrimSpace c.
Proof.
  induction configured as [|c cs IH]; intros seen; cbn.
  - split; [constructor|]. intros t. split; [by intros ?%elem_of_nil|]. intros (_ & _ & x & Hx & _). by apply elem_of_nil in Hx.
  - set (tok := strings_TrimSpace c).
    assert (forall t, (exists x, x ∈ c :: cs /\ t = strings_TrimSpace x) <-> t = tok \/ exists x, x ∈ cs /\ t = strings_TrimSpace x) as Hex.
    { intros t. split; [intros (x & [->|H]%elem_of_cons & ->); eauto|].
      intros [->|(x & H & ->)]; [exists c|exists x]; (split; [|done]); rewrite elem_of_cons; auto. }
    setoid_rewrite Hex. destruct (string_empty tok) eqn:Ee.
    { destruct (IH seen) as [H1 H2]. split; [done|]. intros t. rewrite H2. split; [naive_solver|].
      intros (H & H' & [->|H'']); [by destruct tok|auto]. }
    case_decide as Hs.
    { destruct (IH seen) as [H1 H2]. split; [done|]. intros t. rewrite H2. split; [naive_solver|].
      intros (H & H' & [->|H'']); [done|auto]. }
    destruct (IH ({[tok]} ∪ seen)) as [H1 H2]. split.
    { constructor; [|done]. rewrite H2. set_solver. }
    intros t. rewrite elem_of_cons, H2. split.
    + intros [->|(Ht & Hn & Hx)]; [|split; [done|]; split; [set_solver|auto]].
      split; [by destruct tok|]. split; [done|]. by left.
    + intros (Ht & Hn & [->|Hx]); [by left|]. destruct (decide (t = tok)) as [->|]; [by left|]. right. set_solver.
Qed.

(** C31: The tokens the server accepts: never none, never an empty one, no
    duplicates; exactly the configured ones without their surrounding white
    space when any is not blank, and otherwise one generated token, which is
    reported; and the verifier built from them accepts exactly these, and a
    verifier that was never built accepts nothing. *)
Theorem auth_tokens_effective configured bytes tokens generated :
  length bytes = 32%nat -> ResolveAuthTokens configured (Ok bytes) = Ok (tokens, generated) ->
  tokens <> [] /\ NoDup tokens /\ EmptyString ∉ tokens /\
  (forall t, Verify (Some (NewVerifier tokens)) t = None <-> t ∈ tokens) /\ (forall t, Verify None t <> None) /\
  ((exists c, c ∈ configured /\ strings_TrimSpace c <> EmptyString) ->
     generated = EmptyString /\ forall t, t ∈ tokens <-> t <> EmptyString /\ exists c, c ∈ configured /\ t = strings_TrimSpace c) /\
  ((forall c, c ∈ configured -> strings_TrimSpace c = EmptyString) -> generated = base64 true bytes /\ tokens = [generated]).
Proof.
  intros Hlen H. unfold ResolveAuthTokens in H. destruct (collect_tokens_spec configured ∅) as [Hn Hc].
  assert (base64 true bytes <> EmptyString) as Hb by (destruct bytes as [|x [|y [|z bs]]]; done).
  assert (tokens <> [] /\ NoDup tokens /\ EmptyString ∉ tokens) as (H1 & H2 & H3).
  { destruct (collect_tokens configured ∅) as [|t ts] eqn:E; simplify_eq.
    - split; [done|]. split; [apply NoDup_singleton|]. by rewrite list_elem_of_singleton.
    - split; [done|]. split; [done|]. intros Hin. by apply Hc in Hin as [? _]. }
  do 3 (split; [done|]). split; [|split; [done|split]].
  - intros t. unfold Verify, NewVerifier. cbn [accepted]. case_decide as Hd; rewrite elem_of_list_to_set, list_elem_of_In, List.filter_In, <- list_elem_of_In in Hd.
    + destruct Hd as [Hd _]. by split.
    + split; [done|]. intros Hin. exfalso. apply Hd. split; [done|]. destruct t; [by apply H3 in Hin|done].
  - intros (c & Hin & Ht). destruct (collect_tokens configured ∅) as [|t ts]; simplify_eq.
    + exfalso. assert (strings_TrimSpace c ∈ @nil string) as []%elem_of_nil. apply Hc. split; [done|]. split; [set_solver|eauto].
    + split; [done|]. intros u. rewrite Hc. set_solver.
  - intros Hall. destruct (collect_tokens configured ∅) as [|t ts]; simplify_eq; [done|].
    exfalso. destruct (proj1 (Hc t)) as (Ht & _ & c & Hin & ->); [by left|]. by apply Ht, Hall.
Qed.

Example expand_examples :
  let env n := if String.eqb n "HOST" then Some "db" else if String.eqb n "EMPTY" then Some EmptyString else None in
  expandEnv env "a=${HOST}:${PORT:-5432} ${EMPTY:-x}${NONE} ${1BAD} $${HOST}" = "a=db:5432  ${1BAD} $db".
Proof. vm_compute. reflexivity. Qed.
