(* ===== verification/ProviderSpec.v ===== *)
(** * What the registry guarantees ([internal/provider/registry.go]) *)

From S2P Require Import Prelude Errors Json JsonRaw Domain Provider.

(** ** Keys *)

Lemma key_inj c a c' a' :
  string_mem "/" c = false -> string_mem "/" c' = false -> key c a = key c' a' -> c = c' /\ a = a'.
Proof.
  unfold key. revert c'. induction c as [|x c IH]; intros c' H1 H2 E.
  - destruct c' as [|y c']; [cbn in E; by simplify_eq|].
    exfalso. rewrite string_app_cons in E. cbn in E. injection E as <- _. cbn in H2. discriminate.
  - destruct c' as [|y c'].
    + exfalso. rewrite string_app_cons in E. cbn in E. injection E as -> _. cbn in H1. discriminate.
    + rewrite !string_app_cons in E. injection E as <- E. cbn in H1, H2. bool_to_prop.
      destruct (IH c') as [-> ->]; try done; by apply orb_false_iff in H1 as [? ?].
Qed.

Section build.
Context {Wd : Wording} {N : Type} (resolver : string -> res string).
Implicit Types r : Registry N.

(** Every resolved entry is stored under its own codes. *)
Definition keyed_registry r : Prop :=
  forall k ra, R_resolved r !! k = Some ra -> k = key (AC_ProviderCode (RA_Context ra)) (AC_ProviderAction (RA_Context ra)).

Definition fold_actions r adapter pc cred (acts : list (string * ActionConfig))
    (m : gmap string (ResolvedAction N)) : gmap string (ResolvedAction N) :=
  fold_left (fun m na => <[key pc na.1 := resolve_action r adapter pc cred na]> m) acts m.

Lemma fold_actions_keyed r adapter pc cred acts m :
  (forall k ra, m !! k = Some ra -> k = key (AC_ProviderCode (RA_Context ra)) (AC_ProviderAction (RA_Context ra))) ->
  forall k ra, fold_actions r adapter pc cred acts m !! k = Some ra ->
    k = key (AC_ProviderCode (RA_Context ra)) (AC_ProviderAction (RA_Context ra)).
Proof using Type.
  unfold fold_actions. revert m. induction acts as [|na acts IH]; intros m Hm; [done|]. cbn. apply IH.
  intros k ra. rewrite lookup_insert. case_decide; [intros [= <-]; by subst|by apply Hm].
Qed.

(** An entry of the fold is an old one or comes from the list. *)
Lemma fold_actions_other r adapter pc cred acts m k :
  (forall na, na ∈ acts -> key pc na.1 <> k) -> fold_actions r adapter pc cred acts m !! k = m !! k.
Proof using Type.
  unfold fold_actions. revert m. induction acts as [|na acts IH]; intros m Hk; [done|]. cbn.
  rewrite IH by (intros na' Hin; apply Hk; by right). apply lookup_insert_ne. apply Hk. by left.
Qed.

Lemma fold_actions_in r adapter pc cred acts m na :
  string_mem "/" pc = false -> NoDup (acts.*1) -> na ∈ acts ->
  fold_actions r adapter pc cred acts m !! key pc na.1 = Some (resolve_action r adapter pc cred na).
Proof using Type.
  intros Hs. unfold fold_actions. revert m. induction acts as [|na' acts IH]; intros m Hn Hin; [by apply elem_of_nil in Hin|].
  cbn in Hn. apply NoDup_cons in Hn as [Hnin Hn]. cbn.
  apply elem_of_cons in Hin as [->|Hin]; [|by apply IH].
  change (fold_left _ acts ?m') with (fold_actions r adapter pc cred acts m').
  rewrite fold_actions_other; [apply lookup_insert_eq|].
  intros na Hin E. apply key_inj in E as [_ E]; [|done..]. apply Hnin. rewrite <- E. by apply list_elem_of_fmap_2.
Qed.

(** One provider block: what it needed, and what it added. *)
Lemma build_provider_ok r pc raw r' :
  build_provider resolver r (pc, raw) = Ok r' ->
  exists adapter c cred, R_adapters r !! pc = Some adapter /\ Ad_Config adapter raw = Ok c /\ Actions c <> [] /\
    resolver (CredentialRef c) = Ok cred /\
    r' = set_resolved r (fold_actions r adapter pc cred (Actions c) (R_resolved r)).
Proof using Type.
  unfold build_provider. destruct (R_adapters r !! pc) as [adapter|] eqn:Ea; [|done].
  destruct (Ad_Config adapter raw) as [c|e] eqn:Ec; [|done].
  destruct (Actions c) as [|na acts] eqn:Eact; [done|].
  destruct (resolver (CredentialRef c)) as [cred|e] eqn:Er; [|done].
  intros [= <-]. exists adapter, c, cred. rewrite Eact. by repeat split.
Qed.

(** What building never changes. *)
Definition same_setup r r' : Prop :=
  R_Providers r' = R_Providers r /\ R_adapters r' = R_adapters r /\
  R_hasHTTPClient r' = R_hasHTTPClient r /\ R_allowedRespHeaders r' = R_allowedRespHeaders r.

Lemma build_provider_setup r p r' : build_provider resolver r p = Ok r' -> same_setup r r'.
Proof using Type. destruct p as [pc raw]. intros (a & c & cr & _ & _ & _ & _ & ->)%build_provider_ok. by repeat split. Qed.

Lemma build_all_keyed l r r' : keyed_registry r -> build_all resolver l r = Ok r' -> keyed_registry r'.
Proof using Type.
  revert r. induction l as [|[pc raw] l IH]; intros r Hk; cbn -[build_provider]; [by intros [= <-]|].
  destruct (build_provider resolver r (pc, raw)) as [r1|e] eqn:E; [|done]. apply IH.
  apply build_provider_ok in E as (a & c & cr & _ & _ & _ & _ & ->). intros k ra.
  by apply fold_actions_keyed.
Qed.

Lemma build_all_other l r r' pc a :
  string_mem "/" pc = false -> Forall (fun p => string_mem "/" p.1 = false) l -> pc ∉ l.*1 ->
  build_all resolver l r = Ok r' -> Lookup r' pc a = Lookup r pc a.
Proof using Type.
  intros Hs. revert r. induction l as [|[pc' raw] l IH]; intros r Hf Hn; cbn -[build_provider]; [by intros [= <-]|].
  apply Forall_cons in Hf as [Hs' Hf]. cbn in Hn, Hs'. apply not_elem_of_cons in Hn as [Hne Hn].
  destruct (build_provider resolver r (pc', raw)) as [r1|e] eqn:E; [|done]. intros H.
  rewrite (IH r1 Hf Hn H). apply build_provider_ok in E as (ad & c & cr & _ & _ & _ & _ & ->).
  unfold Lookup. cbn. apply fold_actions_other. intros na _ E. apply key_inj in E as [E _]; congruence.
Qed.

Lemma build_all_in l r r' pc raw :
  Forall (fun p => string_mem "/" p.1 = false) l -> NoDup (l.*1) -> (pc, raw) ∈ l ->
  build_all resolver l r = Ok r' ->
  exists adapter c cred, R_adapters r !! pc = Some adapter /\ Ad_Config adapter raw = Ok c /\ Actions c <> [] /\
    resolver (CredentialRef c) = Ok cred /\
    forall na, NoDup ((Actions c).*1) -> na ∈ Actions c ->
      Lookup r' pc na.1 = Some (resolve_action r adapter pc cred na).
Proof using Type.
  revert r. induction l as [|[pc' raw'] l IH]; intros r Hf Hn Hin; [by apply elem_of_nil in Hin|].
  cbn -[build_provider]. apply Forall_cons in Hf as [Hs Hf]. cbn in Hn, Hs. apply NoDup_cons in Hn as [Hnin Hn].
  destruct (build_provider resolver r (pc', raw')) as [r1|e] eqn:E; [|done]. intros H.
  apply elem_of_cons in Hin as [[= <- <-]|Hin].
  - apply build_provider_ok in E as (ad & c & cr & H1 & H2 & H3 & H4 & ->). exists ad, c, cr.
    split; [done|]. split; [done|]. split; [done|]. split; [done|]. intros na Hnd Hna.
    rewrite (build_all_other _ _ _ _ _ Hs Hf Hnin H). unfold Lookup. cbn. by apply fold_actions_in.
  - destruct (build_provider_setup _ _ _ E) as (_ & Had & Hh & Hal).
    destruct (IH r1 Hf Hn Hin H) as (ad & c & cr & H1 & H2 & H3 & H4 & H5). exists ad, c, cr.
    split; [congruence|]. split; [done|]. split; [done|]. split; [done|]. intros na Hnd Hna.
    rewrite (H5 na Hnd Hna). unfold resolve_action. by rewrite Hh, Hal.
Qed.
End build.

(** C39: A registry that builds is complete and exact: every configured
    provider has a registered adapter that accepted its block, a resolved
    credential and at least one action, and each of its actions is found by
    [Lookup] with that adapter, credential and configuration, for every
    order in which the provider blocks are visited. Provider codes have no
    slash and the blocks' keys are distinct, as the keys of a YAML map are. *)
Theorem Build_complete `{Wording} {N} (resolver : string -> res string) (r r' : Registry N) pc raw :
  Forall (fun p => string_mem "/" p.1 = false) (R_Providers r) -> NoDup ((R_Providers r).*1) ->
  Build resolver r = Ok r' -> (pc, raw) ∈ R_Providers r ->
  exists adapter c cred, R_adapters r !! pc = Some adapter /\ Ad_Config adapter raw = Ok c /\ Actions c <> [] /\
    resolver (CredentialRef c) = Ok cred /\
    forall na, NoDup ((Actions c).*1) -> na ∈ Actions c ->
      Lookup r' pc na.1 = Some (resolve_action r adapter pc cred na).
Proof. intros Hf Hn Hb Hin. by eapply build_all_in. Qed.
