(* ===== verification/Breaker.v ===== *)
(** * Circuit breakers ([internal/worker/breaker.go])

    One breaker per configured provider action, process-local.  Each method
    holds the breaker's mutex for its whole body, so it is one transition of
    the breaker's state; [now] is the clock reading taken inside. *)

From S2P Require Import Prelude Provider.

Inductive breakerState := breakerClosed | breakerOpen | breakerHalfOpen.

#[export] Instance breakerState_eq_dec : EqDecision breakerState.
Proof. solve_decision. Defined.

Inductive BreakerObservation := BreakerIgnore | BreakerReachable | BreakerUnavailable.

(** A permit names its breaker by key; [None] is the nil breaker. *)
Record BreakerPermit := mkPermit {
  permit_breaker : option string;
  permit_generation : Z;
  permit_halfOpen : bool;
}.

Definition zero_permit : BreakerPermit :=
  {| permit_breaker := None; permit_generation := 0; permit_halfOpen := false |}.

Record BreakerDecision := mkDecision {
  Allowed : bool;
  Permit : BreakerPermit;
  RetryAfter : Z;
}.

(** [openUntil] is [None] for the zero [time.Time]. *)
Record actionBreaker := mkBreaker {
  b_key : string;
  failureThreshold : Z;
  openDuration : Z;
  b_state : breakerState;
  consecutiveFailure : Z;
  generation : Z;
  openUntil : option Z;
  halfOpenInFlight : bool;
}.

(** [time.Time.Sub] saturates at the [Duration] range. *)
Definition time_Sub (t u : Z) : Z := Z.max min_int64 (Z.min max_int64 (t - u)).

Definition set_state (b : actionBreaker) (next : breakerState) : actionBreaker :=
  {| b_key := b_key b; failureThreshold := failureThreshold b; openDuration := openDuration b;
     b_state := next; consecutiveFailure := consecutiveFailure b; generation := generation b;
     openUntil := openUntil b; halfOpenInFlight := halfOpenInFlight b |}.

Definition set_inflight (b : actionBreaker) (f : bool) : actionBreaker :=
  {| b_key := b_key b; failureThreshold := failureThreshold b; openDuration := openDuration b;
     b_state := b_state b; consecutiveFailure := consecutiveFailure b; generation := generation b;
     openUntil := openUntil b; halfOpenInFlight := f |}.

Definition set_failures (b : actionBreaker) (n : Z) : actionBreaker :=
  {| b_key := b_key b; failureThreshold := failureThreshold b; openDuration := openDuration b;
     b_state := b_state b; consecutiveFailure := n; generation := generation b;
     openUntil := openUntil b; halfOpenInFlight := halfOpenInFlight b |}.

(** [b.generation++; b.openUntil = until]. *)
Definition next_generation (b : actionBreaker) (until : option Z) : actionBreaker :=
  {| b_key := b_key b; failureThreshold := failureThreshold b; openDuration := openDuration b;
     b_state := b_state b; consecutiveFailure := consecutiveFailure b;
     generation := uint64 (generation b + 1);
     openUntil := until; halfOpenInFlight := halfOpenInFlight b |}.

(** [transitionLocked]: logging aside, it sets the state. *)
Definition transitionLocked (b : actionBreaker) (next : breakerState) : actionBreaker :=
  if decide (b_state b = next) then b else set_state b next.

Definition openLocked (now : Z) (b : actionBreaker) : actionBreaker :=
  transitionLocked (set_inflight (next_generation b (Some (now + openDuration b))) false) breakerOpen.

(** [now.Before(b.openUntil)]; the zero time is before every instant used. *)
Definition before_open_until (now : Z) (b : actionBreaker) : bool :=
  match openUntil b with Some u => now <? u | None => false end.

Definition half_open_permit (b : actionBreaker) : BreakerPermit :=
  {| permit_breaker := Some (b_key b); permit_generation := generation b; permit_halfOpen := true |}.

Definition closed_permit (b : actionBreaker) : BreakerPermit :=
  {| permit_breaker := Some (b_key b); permit_generation := generation b; permit_halfOpen := false |}.

Definition allow (now : Z) (b : actionBreaker) : BreakerDecision * actionBreaker :=
  match b_state b with
  | breakerOpen =>
      if before_open_until now b
      then ({| Allowed := false; Permit := zero_permit;
               RetryAfter := time_Sub (default 0 (openUntil b)) now |}, b)
      else
        let b' := set_inflight (transitionLocked b breakerHalfOpen) true in
        ({| Allowed := true; Permit := half_open_permit b'; RetryAfter := 0 |}, b')
  | breakerHalfOpen =>
      if halfOpenInFlight b
      then ({| Allowed := false; Permit := zero_permit; RetryAfter := 0 |}, b)
      else
        let b' := set_inflight b true in
        ({| Allowed := true; Permit := half_open_permit b'; RetryAfter := 0 |}, b')
  | breakerClosed =>
      ({| Allowed := true; Permit := closed_permit b; RetryAfter := 0 |}, b)
  end.

Definition observe (now : Z) (permit : BreakerPermit) (obs : BreakerObservation)
    (b : actionBreaker) : actionBreaker :=
  if negb (permit_generation permit =? generation b) then b
  else
    let b := if permit_halfOpen permit then set_inflight b false else b in
    match obs with
    | BreakerIgnore => b
    | BreakerReachable =>
        let b := set_failures b 0 in
        if decide (b_state b = breakerHalfOpen)
        then transitionLocked (next_generation b None) breakerClosed
        else b
    | BreakerUnavailable =>
        if decide (b_state b = breakerHalfOpen) then openLocked now b
        else if decide (b_state b <> breakerClosed) then b
        else
          let b := set_failures b (uint32 (consecutiveFailure b + 1)) in
          if failureThreshold b <=? consecutiveFailure b then openLocked now b else b
    end.

Definition abort (permit : BreakerPermit) (b : actionBreaker) : actionBreaker :=
  if (permit_generation permit =? generation b) && permit_halfOpen permit
  then set_inflight b false else b.

(** ** The registry of breakers *)

Abbreviation Breakers := (gmap string actionBreaker).

Definition NewBreakers : Breakers := ∅.

Definition Register (m : Breakers) (key : string) (cfg : option CircuitBreakerConfig) : Breakers :=
  match cfg with
  | None => m
  | Some c =>
      <[key := {| b_key := key; failureThreshold := FailureThreshold c; openDuration := OpenDuration c;
                  b_state := breakerClosed; consecutiveFailure := 0; generation := 0;
                  openUntil := None; halfOpenInFlight := false |}]> m
  end.

Definition Allow (now : Z) (m : Breakers) (key : string) : BreakerDecision * Breakers :=
  match m !! key with
  | None => ({| Allowed := true; Permit := zero_permit; RetryAfter := 0 |}, m)
  | Some b => let '(d, b') := allow now b in (d, <[key := b']> m)
  end.

Definition Observe (now : Z) (m : Breakers) (permit : BreakerPermit) (obs : BreakerObservation) : Breakers :=
  match permit_breaker permit with
  | None => m
  | Some k => alter (observe now permit obs) k m
  end.

Definition Abort (m : Breakers) (permit : BreakerPermit) : Breakers :=
  match permit_breaker permit with
  | None => m
  | Some k => alter (abort permit) k m
  end.

(** ** One breaker under concurrent callers

    [reach n s]: [s] is a state of one breaker and the permits handed out and
    not yet observed or aborted, after [n] method calls of any callers, in any
    order, at any clock readings. *)

Record bsys := mkBsys { bs_breaker : actionBreaker; bs_permits : list BreakerPermit }.

Definition registered (key : string) (cfg : CircuitBreakerConfig) : actionBreaker :=
  {| b_key := key; failureThreshold := FailureThreshold cfg; openDuration := OpenDuration cfg;
     b_state := breakerClosed; consecutiveFailure := 0; generation := 0;
     openUntil := None; halfOpenInFlight := false |}.

Inductive bstep : bsys -> bsys -> Prop :=
| bstep_allow now b ps d b' :
    allow now b = (d, b') ->
    bstep (mkBsys b ps) (mkBsys b' (if Allowed d then Permit d :: ps else ps))
| bstep_observe now obs b ps p ps' :
    ps ≡ₚ p :: ps' -> bstep (mkBsys b ps) (mkBsys (observe now p obs b) ps')
| bstep_abort b ps p ps' :
    ps ≡ₚ p :: ps' -> bstep (mkBsys b ps) (mkBsys (abort p b) ps').

Inductive breach (key : string) (cfg : CircuitBreakerConfig) : nat -> bsys -> Prop :=
| breach_init : breach key cfg 0 (mkBsys (registered key cfg) [])
| breach_step n s s' : breach key cfg n s -> bstep s s' -> breach key cfg (S n) s'.

(** Outstanding permits of the breaker's current generation. *)
Definition current (g : Z) (ps : list BreakerPermit) : list BreakerPermit :=
  List.filter (fun p => permit_generation p =? g) ps.

Lemma current_perm g ps ps' : ps ≡ₚ ps' -> current g ps ≡ₚ current g ps'.
Proof.
  induction 1 as [|p l l' _ IH|p q l|l l' l'' _ IH1 _ IH2]; cbn; try done.
  - destruct (_ =? _); [by apply perm_skip|done].
  - destruct (permit_generation p =? g), (permit_generation q =? g); try done. apply perm_swap.
  - by etrans.
Qed.

Lemma current_none g ps : Forall (fun p => permit_generation p < g) ps -> current g ps = [].
Proof.
  induction 1 as [|p ps Hp _ IH]; cbn; [done|].
  by replace (permit_generation p =? g) with false by lia.
Qed.

Lemma current_cons_eq g p ps : permit_generation p = g -> current g (p :: ps) = p :: current g ps.
Proof. intros <-. cbn. by rewrite Z.eqb_refl. Qed.

Lemma current_cons_ne g p ps : permit_generation p <> g -> current g (p :: ps) = current g ps.
Proof. intros H. cbn. by replace (permit_generation p =? g) with false by lia. Qed.

(** What holds of a breaker and its outstanding permits between calls. *)
Definition phase_inv (b : actionBreaker) (cur : list BreakerPermit) : Prop :=
  match b_state b with
  | breakerClosed =>
      halfOpenInFlight b = false /\ 0 <= consecutiveFailure b < failureThreshold b /\
      Forall (fun p => permit_halfOpen p = false) cur
  | breakerOpen => halfOpenInFlight b = false /\ cur = [] /\ is_Some (openUntil b)
  | breakerHalfOpen =>
      is_Some (openUntil b) /\
      if halfOpenInFlight b then exists p, cur = [p] /\ permit_halfOpen p = true else cur = []
  end.

Record breaker_inv (key : string) (cfg : CircuitBreakerConfig) (n : nat) (s : bsys) : Prop := {
  bi_key : b_key (bs_breaker s) = key;
  bi_threshold : failureThreshold (bs_breaker s) = FailureThreshold cfg;
  bi_duration : openDuration (bs_breaker s) = OpenDuration cfg;
  bi_gen : 0 <= generation (bs_breaker s) <= Z.of_nat n;
  bi_old : Forall (fun p => permit_generation p <= generation (bs_breaker s)) (bs_permits s);
  bi_phase : phase_inv (bs_breaker s) (current (generation (bs_breaker s)) (bs_permits s));
}.

Section invariant.
Context (key : string) (cfg : CircuitBreakerConfig).
Hypothesis Hcfg : 1 <= FailureThreshold cfg < 2 ^ 32.

Lemma inv_allow n now b ps d b' :
  breaker_inv key cfg n (mkBsys b ps) -> allow now b = (d, b') ->
  breaker_inv key cfg n (mkBsys b' (if Allowed d then Permit d :: ps else ps)).
Proof using Type.
  intros [Hk Ht Hd Hg Ho Hp] Ha. cbn in *. unfold allow, phase_inv in *.
  destruct b as [bk th du st cf g ou fl]; cbn in *; subst.
  destruct st; cbn in *.
  - simplify_eq/=. destruct Hp as (? & ? & ?).
    split; cbn; auto with lia; try (constructor; [cbn; lia|done]).
    rewrite Z.eqb_refl. repeat split; try lia; [done|by constructor].
  - destruct Hp as (-> & Hc & u & ->). cbn in *. destruct (now <? u) eqn:E.
    + simplify_eq/=. split; cbn; auto with lia; by repeat split.
    + unfold transitionLocked in Ha; cbn in Ha. rewrite decide_False in Ha by done.
      simplify_eq/=. split; cbn; auto with lia; try (constructor; [cbn; lia|done]).
      rewrite Z.eqb_refl, Hc. split; [done|]. by eexists.
  - destruct fl; simplify_eq/=; split; cbn; auto with lia; try (constructor; [cbn; lia|done]).
    rewrite Z.eqb_refl. destruct Hp as [Hs ->]. split; [done|]. by eexists.
Qed.

Lemma old_lt g g' ps :
  Forall (fun p => permit_generation p <= g) ps -> g < g' -> Forall (fun p => permit_generation p <= g') ps.
Proof. intros H Hlt. eapply Forall_impl; [done|]. cbn. lia. Qed.

Lemma current_next g ps : Forall (fun p => permit_generation p <= g) ps -> current (g + 1) ps = [].
Proof. intros H. apply current_none. eapply Forall_impl; [done|]. cbn. lia. Qed.

#[local] Arguments current : simpl never.

(** A call with a permit of an older generation changes nothing. *)
Lemma observe_stale now p obs b :
  permit_generation p <> generation b -> observe now p obs b = b.
Proof using Type. intros H. unfold observe. by replace (permit_generation p =? generation b) with false by lia. Qed.

Lemma abort_stale p b : permit_generation p <> generation b -> abort p b = b.
Proof using Type. intros H. unfold abort. by replace (permit_generation p =? generation b) with false by lia. Qed.

(** Opening: the state after [openLocked], whatever the permits. *)
Lemma inv_open n now b ps :
  b_key b = key -> failureThreshold b = FailureThreshold cfg -> openDuration b = OpenDuration cfg ->
  0 <= generation b <= Z.of_nat n -> Z.of_nat n + 1 < 2 ^ 64 ->
  Forall (fun p => permit_generation p <= generation b) ps -> b_state b <> breakerOpen ->
  breaker_inv key cfg (S n) (mkBsys (openLocked now b) ps).
Proof using Type.
  intros Hk Ht Hd Hg Hn Ho Hs. unfold openLocked, transitionLocked. cbn.
  rewrite decide_False by done.
  assert (uint64 (generation b + 1) = generation b + 1) as E by (apply wrap_unsigned_small; lia).
  split; cbn; rewrite ?E; try done; [lia|eapply old_lt; [done|lia]|].
  rewrite current_next by done. by repeat split.
Qed.

Lemma inv_close n b ps :
  b_key b = key -> failureThreshold b = FailureThreshold cfg -> openDuration b = OpenDuration cfg ->
  0 <= generation b <= Z.of_nat n -> Z.of_nat n + 1 < 2 ^ 64 ->
  Forall (fun p => permit_generation p <= generation b) ps -> b_state b = breakerHalfOpen ->
  consecutiveFailure b = 0 -> halfOpenInFlight b = false ->
  breaker_inv key cfg (S n) (mkBsys (transitionLocked (next_generation b None) breakerClosed) ps).
Proof using Hcfg.
  intros Hk Ht Hd Hg Hn Ho Hs Hc Hf. unfold transitionLocked. cbn.
  rewrite decide_False by congruence.
  assert (uint64 (generation b + 1) = generation b + 1) as E by (apply wrap_unsigned_small; lia).
  split; cbn; rewrite ?E; try done; [lia|eapply old_lt; [done|lia]|].
  rewrite current_next by done. unfold phase_inv. cbn. rewrite Hc, Hf, Ht.
  repeat split; [lia..|by constructor].
Qed.

(** Spending a permit that is not the current generation's. *)
Lemma inv_spend n b ps p ps' :
  breaker_inv key cfg n (mkBsys b ps) -> ps ≡ₚ p :: ps' -> permit_generation p <> generation b ->
  breaker_inv key cfg n (mkBsys b ps').
Proof using Type.
  intros [Hk Ht Hd Hg Ho Hp] Hps Hne. cbn in *.
  rewrite Hps in Ho. apply Forall_cons in Ho as [_ Ho].
  split; cbn; try done.
  pose proof (current_perm (generation b) _ _ Hps) as Hc.
  rewrite current_cons_ne in Hc by done.
  unfold phase_inv in *. destruct (b_state b).
  - destruct Hp as (? & ? & HF). repeat split; try done; try lia. by rewrite <- Hc.
  - destruct Hp as (? & E & ?). rewrite E in Hc. apply Permutation_nil_l in Hc. by repeat split.
  - destruct Hp as [? Hp]. split; [done|]. destruct (halfOpenInFlight b).
    + destruct Hp as (q & E & ?). rewrite E in Hc. apply Permutation_singleton_l in Hc. by eexists.
    + rewrite Hp in Hc. by apply Permutation_nil_l in Hc.
Qed.

(** Spending a current permit: what is left of the phase. *)
Lemma spend_current n b ps p ps' :
  breaker_inv key cfg n (mkBsys b ps) -> ps ≡ₚ p :: ps' -> permit_generation p = generation b ->
  Forall (fun p => permit_generation p <= generation b) ps' /\
  match b_state b with
  | breakerClosed =>
      permit_halfOpen p = false /\ halfOpenInFlight b = false /\
      0 <= consecutiveFailure b < failureThreshold b /\
      Forall (fun p => permit_halfOpen p = false) (current (generation b) ps')
  | breakerOpen => False
  | breakerHalfOpen =>
      permit_halfOpen p = true /\ is_Some (openUntil b) /\ current (generation b) ps' = []
  end.
Proof using Type.
  intros [Hk Ht Hd Hg Ho Hp] Hps Heq. cbn in *.
  rewrite Hps in Ho. apply Forall_cons in Ho as [_ Ho]. split; [done|].
  pose proof (current_perm (generation b) _ _ Hps) as Hc.
  rewrite current_cons_eq in Hc by done.
  unfold phase_inv in Hp. destruct (b_state b).
  - destruct Hp as (? & ? & HF). rewrite Hc in HF. apply Forall_cons in HF as [? ?]. done.
  - destruct Hp as (? & E & ?). rewrite E in Hc. apply Permutation_nil_l in Hc. done.
  - destruct Hp as [? Hp]. destruct (halfOpenInFlight b).
    + destruct Hp as (q & E & ?). rewrite E in Hc. apply Permutation_singleton_l in Hc.
      by simplify_eq.
    + rewrite Hp in Hc. by apply Permutation_nil_l in Hc.
Qed.

Lemma inv_mono n b ps : breaker_inv key cfg n (mkBsys b ps) -> breaker_inv key cfg (S n) (mkBsys b ps).
Proof using Type. intros [? ? ? ? ? ?]. split; try done. lia. Qed.

Lemma inv_observe n now obs b ps p ps' :
  Z.of_nat n + 1 < 2 ^ 64 ->
  breaker_inv key cfg n (mkBsys b ps) -> ps ≡ₚ p :: ps' ->
  breaker_inv key cfg (S n) (mkBsys (observe now p obs b) ps').
Proof using Hcfg.
  intros Hn Hinv Hps. destruct (Z.eq_dec (permit_generation p) (generation b)) as [Heq|Hne];
    [|rewrite observe_stale by done; by eapply inv_mono, inv_spend].
  destruct (spend_current _ _ _ _ _ Hinv Hps Heq) as [Ho Hph].
  destruct Hinv as [Hk Ht Hd Hg _ _]. unfold observe. cbn in Hk, Ht, Hd, Hg.
  rewrite Heq, Z.eqb_refl. cbn [negb].
  destruct (b_state b) eqn:Es; [..|destruct Hph as (Hh & ? & Hcur); rewrite Hh].
  - destruct Hph as (Hh & Hf & Hc & HF). rewrite Hh. destruct obs; cbn; rewrite ?Es.
    + split; cbn; try done; [lia|]. unfold phase_inv. rewrite Es. done.
    + rewrite decide_False by done. split; cbn; try done; [lia|].
      unfold phase_inv. cbn. rewrite Es. repeat split; try done; lia.
    + rewrite decide_False by done. rewrite decide_False by naive_solver.
      rewrite (uint32_small (consecutiveFailure b + 1)) by lia.
      destruct (Z.leb_spec (failureThreshold b) (consecutiveFailure b + 1)).
      * apply inv_open; cbn; try done. by rewrite Es.
      * split; cbn; try done; [lia|]. unfold phase_inv. cbn. rewrite Es. repeat split; try done; lia.
  - done.
  - destruct obs; cbn; rewrite ?Es.
    + split; cbn; try done; [lia|]. unfold phase_inv. cbn. rewrite Es. done.
    + rewrite decide_True by done. by apply inv_close.
    + rewrite decide_True by done. apply inv_open; cbn; try done. by rewrite Es.
Qed.

Lemma inv_abort n b ps p ps' :
  breaker_inv key cfg n (mkBsys b ps) -> ps ≡ₚ p :: ps' ->
  breaker_inv key cfg (S n) (mkBsys (abort p b) ps').
Proof using Type.
  intros Hinv Hps. destruct (Z.eq_dec (permit_generation p) (generation b)) as [Heq|Hne];
    [|rewrite abort_stale by done; by eapply inv_mono, inv_spend].
  destruct (spend_current _ _ _ _ _ Hinv Hps Heq) as [Ho Hph].
  destruct Hinv as [Hk Ht Hd Hg _ _]. unfold abort. cbn in Hk, Ht, Hd, Hg.
  rewrite Heq, Z.eqb_refl. cbn [andb].
  destruct (b_state b) eqn:Es; [|done|].
  - destruct Hph as (-> & Hf & Hc & HF).
    split; cbn; try done; [lia|]. unfold phase_inv. by rewrite Es.
  - destruct Hph as (-> & ? & ?).
    split; cbn; try done; [lia|]. unfold phase_inv. cbn. by rewrite Es.
Qed.

(** Every reachable state satisfies the invariant. *)
Lemma breach_inv n s : Z.of_nat n < 2 ^ 64 -> breach key cfg n s -> breaker_inv key cfg n s.
Proof using Hcfg.
  intros Hn H. induction H as [|n s s' H IH Hs].
  - split; cbn; try done. repeat split; try done; try lia; by constructor.
  - specialize (IH ltac:(lia)). destruct Hs.
    + eapply inv_mono, inv_allow; eauto.
    + eapply inv_observe; eauto. lia.
    + eapply inv_abort; eauto.
Qed.
End invariant.

(** ** What the breaker guarantees *)

(** C12: While a breaker is half-open at most one call holds a permit of its
    current generation, that permit is the probe's, and as long as it is out
    every other caller is refused: whatever the callers do and in whatever
    order, an action whose circuit is recovering sees one probe at a time. *)
Theorem breaker_single_probe key cfg n s :
  1 <= FailureThreshold cfg < 2 ^ 32 -> Z.of_nat n < 2 ^ 64 ->
  breach key cfg n s -> b_state (bs_breaker s) = breakerHalfOpen ->
  (length (current (generation (bs_breaker s)) (bs_permits s)) <= 1)%nat /\
  Forall (fun p => permit_halfOpen p = true) (current (generation (bs_breaker s)) (bs_permits s)) /\
  (current (generation (bs_breaker s)) (bs_permits s) <> [] ->
   forall now, Allowed (allow now (bs_breaker s)).1 = false).
Proof.
  intros Hcfg Hn H Hs. pose proof (breach_inv key cfg Hcfg n s Hn H) as [_ _ _ _ _ Hp].
  unfold phase_inv in Hp. rewrite Hs in Hp. destruct Hp as [_ Hp].
  destruct (halfOpenInFlight (bs_breaker s)) eqn:Ef.
  - destruct Hp as (p & -> & Hh). repeat split; cbn; [lia|by constructor|].
    intros _ now. unfold allow. by rewrite Hs, Ef.
  - rewrite Hp. repeat split; cbn; [lia|by constructor|done].
Qed.

(** A run of availability failures reported by holders of one permit. *)
Definition unavailable_all (p : BreakerPermit) (nows : list Z) (b : actionBreaker) : actionBreaker :=
  fold_left (fun b now => observe now p BreakerUnavailable b) nows b.

Lemma observe_unavailable_closed now p b :
  b_state b = breakerClosed -> permit_generation p = generation b -> permit_halfOpen p = false ->
  0 <= consecutiveFailure b < 2 ^ 32 - 1 ->
  observe now p BreakerUnavailable b =
  let b' := set_failures b (consecutiveFailure b + 1) in
  if failureThreshold b <=? consecutiveFailure b + 1 then openLocked now b' else b'.
Proof.
  intros Hs Hg Hh Hc. unfold observe. rewrite Hg, Z.eqb_refl, Hh. cbn [negb].
  rewrite decide_False by congruence. rewrite decide_False by naive_solver.
  by rewrite (uint32_small (consecutiveFailure b + 1)) by lia.
Qed.

(** A closed breaker with [c] consecutive failures stays closed under
    fewer than [threshold - c] further availability failures, and the failure
    that makes the count reach the threshold opens it, until that failure's
    time plus [open_duration]; the count never wraps. *)
Theorem breaker_trips_at_threshold p nows t b :
  b_state b = breakerClosed -> permit_generation p = generation b -> permit_halfOpen p = false ->
  0 <= consecutiveFailure b -> failureThreshold b < 2 ^ 32 ->
  consecutiveFailure b + Z.of_nat (length nows) + 1 = failureThreshold b ->
  let b' := unavailable_all p nows b in
  b_state b' = breakerClosed /\ consecutiveFailure b' = failureThreshold b - 1 /\
  b_state (observe t p BreakerUnavailable b') = breakerOpen /\
  openUntil (observe t p BreakerUnavailable b') = Some (t + openDuration b).
Proof.
  intros Hs Hg Hh Hc Ht. revert b Hs Hg Hc Ht. unfold unavailable_all.
  induction nows as [|now nows IH]; intros b Hs Hg Hc Ht E; cbn [fold_left].
  - cbn in E. rewrite observe_unavailable_closed by (done || lia). cbn zeta.
    replace (failureThreshold b <=? consecutiveFailure b + 1) with true by lia.
    unfold openLocked, transitionLocked. cbn. rewrite decide_False by congruence.
    cbn. repeat split; [done|lia].
  - rewrite length_cons in E. rewrite observe_unavailable_closed by (done || lia). cbn zeta.
    replace (failureThreshold b <=? consecutiveFailure b + 1) with false by lia.
    apply (IH (set_failures b (consecutiveFailure b + 1))); cbn; try done; lia.
Qed.

Lemma allow_refusal now b : Allowed (allow now b).1 = false -> (allow now b).2 = b.
Proof. unfold allow. by repeat case_match. Qed.

(** [allow] on every state: a closed breaker always admits; an open one
    refuses strictly before [openUntil], naming the remaining time, and from
    then on admits one half-open probe; a half-open one admits exactly when no
    probe is out. A refusal changes nothing. *)
Theorem allow_spec now b :
  let '(d, b') := allow now b in
  match b_state b with
  | breakerClosed => Allowed d = true /\ permit_halfOpen (Permit d) = false /\ b' = b
  | breakerOpen =>
      match openUntil b with
      | Some u => if now <? u
                  then Allowed d = false /\ RetryAfter d = time_Sub u now /\ b' = b
                  else Allowed d = true /\ permit_halfOpen (Permit d) = true /\
                       b_state b' = breakerHalfOpen /\ halfOpenInFlight b' = true
      | None => Allowed d = true /\ permit_halfOpen (Permit d) = true /\
                b_state b' = breakerHalfOpen /\ halfOpenInFlight b' = true
      end
  | breakerHalfOpen =>
      Allowed d = negb (halfOpenInFlight b) /\
      (Allowed d = false -> RetryAfter d = 0 /\ b' = b) /\
      (Allowed d = true -> permit_halfOpen (Permit d) = true /\ halfOpenInFlight b' = true)
  end /\
  (Allowed d = true -> permit_generation (Permit d) = generation b').
Proof.
  unfold allow, before_open_until, transitionLocked.
  destruct (b_state b) eqn:Es.
  - done.
  - destruct (openUntil b) as [u|] eqn:Eu; [destruct (now <? u)|]; cbn; rewrite ?decide_False by done; done.
  - destruct (halfOpenInFlight b); done.
Qed.
