(* ===== verification/Store.v ===== *)
(** * The notification_event table ([internal/store/event_repo.go])

    The table and one definition per SQL statement.  A statement is atomic;
    [now] is the database's [now()] for it.  What PostgreSQL does with a value
    on its way into a column is not the repository's code: it is the class
    [Postgres]. *)

From S2P Require Import Prelude Errors Json Domain.

(** [varchar n s]: the text stored in a [VARCHAR(n)] column, or the error for
    too long or badly encoded input.  [jsonb_text s]: the text read back from
    a [jsonb] column written with [s], or the error for invalid input.
    [heap_order]: the order in which a scan meets the rows, on which only the
    order of rows with equal sort keys depends. *)
Class Postgres := {
  varchar : Z -> string -> res string;
  jsonb_text : string -> res string;
  heap_order : list Event -> list Event;
  heap_order_perm : forall l, heap_order l ≡ₚ l;
}.

Abbreviation table := (gmap UUID Event).

(** ** Row updates *)

Definition update_event (st : Status) (ac : Z) (tok : option UUID) (until : option Z)
    (lr pr : option json) (upd : Z) (r : Event) : Event :=
  {| ID := ID r; SourceSystem := SourceSystem r; SourceRequestID := SourceRequestID r;
     ProviderCode := ProviderCode r; ProviderAction := ProviderAction r; Payload := Payload r;
     EvStatus := st; AttemptCount := ac; NextAttemptAt := NextAttemptAt r;
     EnqueuedAt := EnqueuedAt r; LeaseToken := tok; LeaseUntil := until;
     LastResult := lr; ProviderResponse := pr; CreatedAt := CreatedAt r; UpdatedAt := upd |}.

Definition set_enqueued (at_ upd : Z) (r : Event) : Event :=
  {| ID := ID r; SourceSystem := SourceSystem r; SourceRequestID := SourceRequestID r;
     ProviderCode := ProviderCode r; ProviderAction := ProviderAction r; Payload := Payload r;
     EvStatus := EvStatus r; AttemptCount := AttemptCount r; NextAttemptAt := NextAttemptAt r;
     EnqueuedAt := Some at_; LeaseToken := LeaseToken r; LeaseUntil := LeaseUntil r;
     LastResult := LastResult r; ProviderResponse := ProviderResponse r;
     CreatedAt := CreatedAt r; UpdatedAt := upd |}.

(** [UPDATE ... WHERE id = $1 AND cond]: rows affected and the new table. *)
Definition update_where (db : table) (id : UUID) (cond : Event -> bool) (f : Event -> Event) : Z * table :=
  match db !! id with
  | Some r => if cond r then (1, <[id := f r]> db) else (0, db)
  | None => (0, db)
  end.

(** [if tx.RowsAffected == 0 { return ErrNotClaimed }]. *)
Definition claimed_or_error (n : Z * table) : res unit * table :=
  (if n.1 =? 0 then Err (ESentinel ErrNotClaimed) else Ok tt, n.2).

(** [status = 'PROCESSING' AND lease_token = $2]. *)
Definition holds_lease (tok : UUID) (r : Event) : bool :=
  bool_decide (EvStatus r = StatusProcessing) && bool_decide (LeaseToken r = Some tok).

(** [last_result->>'outcome' = 'REQUEUE_REQUESTED']; NULL is not true. *)
Definition outcome_is_requeue (r : Event) : bool :=
  match LastResult r with
  | Some j => match json_get "outcome" j with
              | Some (JStr s) => String.eqb s OutcomeRequeueRequested
              | _ => false
              end
  | None => false
  end.

(** A timestamp comparison with a nullable column. *)
Definition before_now (t : option Z) (now : Z) : bool :=
  match t with Some u => u <? now | None => false end.

(** [ORDER BY] an instant column. *)
Definition by_instant (f : Event -> Z) (a b : Event) : Prop := f a <= f b.
#[export] Instance by_instant_dec f a b : Decision (by_instant f a b).
Proof. unfold by_instant. apply _. Defined.

Definition greatest0 (z : Z) : Z := Z.max z 0.

Section statements.
Context {P : Postgres}.

(** *** Accepting and finding events *)

Definition isDuplicateSourceRequestError (e : error) : bool :=
  match errors_As_PgCode e with Some code => String.eqb code "23505" | None => false end.

(** The row [INSERT] builds, or the error of a column's input. *)
Definition insert_row (now : Z) (ev : Event) : res Event :=
  match varchar 64 (SourceSystem ev) with Err e => Err e | Ok ss =>
  match varchar 128 (SourceRequestID ev) with Err e => Err e | Ok rid =>
  match varchar 64 (ProviderCode ev) with Err e => Err e | Ok pc =>
  match varchar 64 (ProviderAction ev) with Err e => Err e | Ok pa =>
  match jsonb_text (Payload ev) with Err e => Err e | Ok pl =>
      Ok {| ID := ID ev; SourceSystem := ss; SourceRequestID := rid; ProviderCode := pc;
            ProviderAction := pa; Payload := pl; EvStatus := StatusPending; AttemptCount := 0;
            NextAttemptAt := now; EnqueuedAt := None; LeaseToken := None; LeaseUntil := None;
            LastResult := None; ProviderResponse := None; CreatedAt := now; UpdatedAt := now |}
  end end end end end.

Definition same_source (ss rid : string) (r : Event) : bool :=
  String.eqb (SourceSystem r) ss && String.eqb (SourceRequestID r) rid.

(** Rows matching a condition, in scan order. *)
Definition rows_where (db : table) (cond : Event -> bool) : list Event :=
  heap_order (List.filter cond (List.map snd (map_to_list db))).

(** The two unique constraints: the primary key and the source key. *)
Definition unique_violation (db : table) (r : Event) : bool :=
  match db !! ID r with Some _ => true | None => false end ||
  existsb (same_source (SourceSystem r) (SourceRequestID r)) (List.map snd (map_to_list db)).

(** [Insert]; on success the caller's event gets the row's timestamps and
    the PENDING status. *)
Definition Insert (now : Z) (ev : Event) (db : table) : res (Z * Z) * table :=
  let failed (e : error) :=
    if isDuplicateSourceRequestError e then ESentinel ErrDuplicateSourceRequest else e in
  match insert_row now ev with
  | Err e => (Err (failed e), db)
  | Ok r =>
      if unique_violation db r
      then (Err (failed (EPg "23505" "duplicate key value violates unique constraint")), db)
      else (Ok (CreatedAt r, UpdatedAt r), <[ID r := r]> db)
  end.

Definition FindBySourceRequest (sourceSystem sourceRequestID : string) (db : table) : res Event :=
  match rows_where db (same_source sourceSystem sourceRequestID) with
  | r :: _ => Ok r
  | [] => Err (ESentinel StoreErrNotFound)
  end.

Definition GetByID (id : UUID) (db : table) : res Event :=
  match db !! id with Some r => Ok r | None => Err (ESentinel StoreErrNotFound) end.

(** *** Publishing *)

Definition pending_to_publish (now : Z) (r : Event) : bool :=
  bool_decide (EvStatus r = StatusPending) && (NextAttemptAt r <=? now) &&
  match EnqueuedAt r with None => true | Some _ => false end.

Definition SelectPendingToPublish (now limit : Z) (db : table) : list UUID :=
  List.map ID (take (Z.to_nat limit)
    (merge_sort (by_instant NextAttemptAt) (rows_where db (pending_to_publish now)))).

Definition MarkEnqueued (now : Z) (id : UUID) (db : table) : table :=
  (update_where db id (fun r => bool_decide (EvStatus r = StatusPending)) (set_enqueued now now)).2.

(** *** The lease *)

Definition claimable (now : Z) (r : Event) : bool :=
  (bool_decide (EvStatus r = StatusPending) && (NextAttemptAt r <=? now)) ||
  (bool_decide (EvStatus r = StatusProcessing) &&
   match LeaseToken r with None => true | Some _ => false end && outcome_is_requeue r).

Definition claim_update (now : Z) (tok : UUID) (dur : Z) (lr : json) (r : Event) : Event :=
  update_event StatusProcessing (AttemptCount r + 1) (Some tok) (Some (now + dur)) (Some lr) None now r.

(** The column is a [SMALLINT]: an increment past 32767 is an error of the
    statement, not a wrap. *)
Definition Claim (now : Z) (id tok : UUID) (dur : Z) (claimedJSON : json) (db : table) : res Event * table :=
  match db !! id with
  | Some r =>
      if claimable now r then
        if 32767 <? AttemptCount r + 1 then (Err (EPg "22003" "smallint out of range"), db)
        else
          let r' := claim_update now tok dur claimedJSON r in (Ok r', <[id := r']> db)
      else (Err (ESentinel ErrNotClaimed), db)
  | None => (Err (ESentinel ErrNotClaimed), db)
  end.

Definition RenewLease (now : Z) (id tok : UUID) (extendBy : Z) (db : table) : res unit * table :=
  claimed_or_error (update_where db id (holds_lease tok)
    (fun r => update_event (EvStatus r) (AttemptCount r) (LeaseToken r) (Some (now + extendBy))
                (LastResult r) (ProviderResponse r) now r)).

Definition MarkRequesting (now : Z) (id tok : UUID) (body : json) (db : table) : res unit * table :=
  claimed_or_error (update_where db id (holds_lease tok)
    (fun r => update_event (EvStatus r) (AttemptCount r) (LeaseToken r) (LeaseUntil r)
                (Some body) (ProviderResponse r) now r)).

(** *** Ending an attempt *)

Definition transition (db : table) (id tok : UUID) (f : Event -> Event) : res unit * table :=
  claimed_or_error (update_where db id (holds_lease tok) f).

Definition MarkSucceeded (now : Z) (id tok : UUID) (result : json) (pr : option json) (db : table) : res unit * table :=
  transition db id tok
    (fun r => update_event StatusSucceeded (AttemptCount r) None None (Some result) pr now r).

Definition MarkWaitingForRequeue (now : Z) (id tok : UUID) (leaseUntil : Z) (result : json)
    (pr : option json) (db : table) : res unit * table :=
  transition db id tok
    (fun r => update_event (EvStatus r) (AttemptCount r) None (Some leaseUntil) (Some result) pr now r).

Definition MarkCircuitOpenWaitingForRequeue (now : Z) (id tok : UUID) (leaseUntil : Z) (result : json)
    (db : table) : res unit * table :=
  transition db id tok
    (fun r => update_event (EvStatus r) (greatest0 (AttemptCount r - 1)) None (Some leaseUntil)
                (Some result) None now r).

Definition MarkFailed (now : Z) (id tok : UUID) (result : json) (pr : option json) (db : table) : res unit * table :=
  transition db id tok
    (fun r => update_event StatusFailed (AttemptCount r) None None (Some result) pr now r).

Definition MarkFailedWithoutProviderAttempt (now : Z) (id tok : UUID) (result : json) (db : table) : res unit * table :=
  transition db id tok
    (fun r => update_event StatusFailed (greatest0 (AttemptCount r - 1)) None None (Some result) None now r).

(** *** Recovery *)

Definition ReserveExpiredRequeue (now : Z) (id : UUID) (extendBy : Z) (db : table) : res unit * table :=
  claimed_or_error (update_where db id
    (fun r => bool_decide (EvStatus r = StatusProcessing) &&
              match LeaseToken r with None => true | Some _ => false end &&
              before_now (LeaseUntil r) now && outcome_is_requeue r)
    (fun r => update_event (EvStatus r) (AttemptCount r) (LeaseToken r) (Some (now + extendBy))
                (LastResult r) (ProviderResponse r) now r)).

Definition expired (now : Z) (r : Event) : bool :=
  bool_decide (EvStatus r = StatusProcessing) && before_now (LeaseUntil r) now.

Definition SelectExpiredLeases (now limit : Z) (db : table) : list Event :=
  take (Z.to_nat limit)
    (merge_sort (by_instant (fun r => default 0 (LeaseUntil r))) (rows_where db (expired now))).

Definition RecoverExpiredToRequeue (now : Z) (id tok : UUID) (recoveryDeadline : Z) (result : json)
    (db : table) : res unit * table :=
  claimed_or_error (update_where db id
    (fun r => holds_lease tok r && before_now (LeaseUntil r) now)
    (fun r => update_event (EvStatus r) (AttemptCount r) None (Some recoveryDeadline) (Some result) None now r)).
End statements.

(** ** The statements as one type

    [stmt A] names a statement and its parameters; [A] is what it returns
    when it does not fail. *)
Inductive stmt : Type -> Type :=
| SInsert (ev : Event) : stmt (Z * Z)
| SFindBySourceRequest (ss rid : string) : stmt Event
| SGetByID (id : UUID) : stmt Event
| SSelectPendingToPublish (limit : Z) : stmt (list UUID)
| SMarkEnqueued (id : UUID) : stmt unit
| SClaim (id tok : UUID) (dur : Z) (claimedJSON : json) : stmt Event
| SRenewLease (id tok : UUID) (extendBy : Z) : stmt unit
| SMarkRequesting (id tok : UUID) (body : json) : stmt unit
| SMarkSucceeded (id tok : UUID) (result : json) (pr : option json) : stmt unit
| SMarkWaitingForRequeue (id tok : UUID) (leaseUntil : Z) (result : json) (pr : option json) : stmt unit
| SMarkCircuitOpenWaitingForRequeue (id tok : UUID) (leaseUntil : Z) (result : json) : stmt unit
| SMarkFailed (id tok : UUID) (result : json) (pr : option json) : stmt unit
| SMarkFailedWithoutProviderAttempt (id tok : UUID) (result : json) : stmt unit
| SReserveExpiredRequeue (id : UUID) (extendBy : Z) : stmt unit
| SSelectExpiredLeases (limit : Z) : stmt (list Event)
| SRecoverExpiredToRequeue (id tok : UUID) (recoveryDeadline : Z) (result : json) : stmt unit.

Definition exec_stmt {P : Postgres} {A} (s : stmt A) (now : Z) (db : table) : res A * table :=
  match s with
  | SInsert ev => Insert now ev db
  | SFindBySourceRequest ss rid => (FindBySourceRequest ss rid db, db)
  | SGetByID id => (GetByID id db, db)
  | SSelectPendingToPublish limit => (Ok (SelectPendingToPublish now limit db), db)
  | SMarkEnqueued id => (Ok tt, MarkEnqueued now id db)
  | SClaim id tok dur lr => Claim now id tok dur lr db
  | SRenewLease id tok d => RenewLease now id tok d db
  | SMarkRequesting id tok body => MarkRequesting now id tok body db
  | SMarkSucceeded id tok res pr => MarkSucceeded now id tok res pr db
  | SMarkWaitingForRequeue id tok u res pr => MarkWaitingForRequeue now id tok u res pr db
  | SMarkCircuitOpenWaitingForRequeue id tok u res => MarkCircuitOpenWaitingForRequeue now id tok u res db
  | SMarkFailed id tok res pr => MarkFailed now id tok res pr db
  | SMarkFailedWithoutProviderAttempt id tok res => MarkFailedWithoutProviderAttempt now id tok res db
  | SReserveExpiredRequeue id d => ReserveExpiredRequeue now id d db
  | SSelectExpiredLeases limit => (Ok (SelectExpiredLeases now limit db), db)
  | SRecoverExpiredToRequeue id tok u res => RecoverExpiredToRequeue now id tok u res db
  end.
