(* ===== verification/Lifecycle.v ===== *)
(** * The lifecycle of an event

    What every SQL statement can do to the table, as one small relation on
    rows ([row_step]); the table invariant it keeps; and the abstract
    lifecycle (pending, leased to one token, waiting for redelivery,
    succeeded, failed) the table refines. *)

From S2P Require Import Prelude Errors Json Domain Store.

(** ** What a statement may write

    The documents a caller passes when it releases an event carry the
    [REQUEUE_REQUESTED] outcome. *)
Definition requeue_doc (j : json) : Prop := json_get "outcome" j = Some (JStr OutcomeRequeueRequested).

Definition stmt_ok {A} (s : stmt A) : Prop :=
  match s with
  | SMarkWaitingForRequeue _ _ _ res _ => requeue_doc res
  | SMarkCircuitOpenWaitingForRequeue _ _ _ res => requeue_doc res
  | SRecoverExpiredToRequeue _ _ _ res => requeue_doc res
  | _ => True
  end.

(** The row a statement can touch. *)
Definition stmt_row {A} (s : stmt A) : option UUID :=
  match s with
  | SInsert ev => Some (ID ev)
  | SMarkEnqueued id | SClaim id _ _ _ | SRenewLease id _ _ | SMarkRequesting id _ _
  | SMarkSucceeded id _ _ _ | SMarkWaitingForRequeue id _ _ _ _
  | SMarkCircuitOpenWaitingForRequeue id _ _ _ | SMarkFailed id _ _ _
  | SMarkFailedWithoutProviderAttempt id _ _ | SReserveExpiredRequeue id _
  | SRecoverExpiredToRequeue id _ _ _ => Some id
  | _ => None
  end.

(** ** Row steps *)

Inductive row_step (now : Z) : Event -> Event -> Prop :=
| rs_enqueued r : EvStatus r = StatusPending -> row_step now r (set_enqueued now now r)
| rs_claim r tok dur lr :
    claimable now r = true -> AttemptCount r + 1 <= 32767 ->
    row_step now r (claim_update now tok dur lr r)
| rs_hold r tok until lr :
    holds_lease tok r = true -> until = LeaseUntil r \/ is_Some until ->
    row_step now r (update_event (EvStatus r) (AttemptCount r) (LeaseToken r) until lr (ProviderResponse r) now r)
| rs_reserve r until :
    EvStatus r = StatusProcessing -> LeaseToken r = None -> outcome_is_requeue r = true ->
    row_step now r (update_event (EvStatus r) (AttemptCount r) (LeaseToken r) (Some until)
                      (LastResult r) (ProviderResponse r) now r)
| rs_release r tok ac until lr pr :
    holds_lease tok r = true -> ac = AttemptCount r \/ ac = greatest0 (AttemptCount r - 1) -> requeue_doc lr ->
    row_step now r (update_event (EvStatus r) ac None (Some until) (Some lr) pr now r)
| rs_finish r tok st ac lr pr :
    holds_lease tok r = true -> ac = AttemptCount r \/ ac = greatest0 (AttemptCount r - 1) ->
    st = StatusSucceeded \/ st = StatusFailed ->
    row_step now r (update_event st ac None None (Some lr) pr now r).

Definition fresh_row (now : Z) (db : table) (r : Event) : Prop :=
  db !! ID r = None /\
  (forall id r', db !! id = Some r' -> same_source (SourceSystem r) (SourceRequestID r) r' = false) /\
  EvStatus r = StatusPending /\ AttemptCount r = 0 /\ LeaseToken r = None /\ LeaseUntil r = None /\
  NextAttemptAt r = now.

Inductive table_step (now : Z) (db : table) : table -> Prop :=
| ts_same : table_step now db db
| ts_row id r r' : db !! id = Some r -> row_step now r r' -> table_step now db (<[id := r']> db)
| ts_insert r : fresh_row now db r -> table_step now db (<[ID r := r]> db).

Lemma holds_lease_spec tok r :
  holds_lease tok r = true <-> EvStatus r = StatusProcessing /\ LeaseToken r = Some tok.
Proof. unfold holds_lease. rewrite andb_true_iff, !bool_decide_eq_true. done. Qed.

Lemma claimable_spec now r :
  claimable now r = true <->
  (EvStatus r = StatusPending /\ NextAttemptAt r <= now) \/
  (EvStatus r = StatusProcessing /\ LeaseToken r = None /\ outcome_is_requeue r = true).
Proof.
  unfold claimable. rewrite orb_true_iff, !andb_true_iff, !bool_decide_eq_true, Z.leb_le.
  destruct (LeaseToken r); naive_solver.
Qed.

Lemma requeue_doc_outcome r j :
  LastResult r = Some j -> requeue_doc j -> outcome_is_requeue r = true.
Proof. intros E H. unfold outcome_is_requeue. by rewrite E, H, String.eqb_refl. Qed.

Lemma update_where_step now db id cond f :
  (forall r, db !! id = Some r -> cond r = true -> row_step now r (f r)) ->
  table_step now db (update_where db id cond f).2.
Proof.
  intros H. unfold update_where. destruct (db !! id) as [r|] eqn:E; [|constructor].
  destruct (cond r) eqn:Ec; [|constructor]. by eapply ts_row; [|apply H].
Qed.

(** Same-source rows, through the scan order. *)
Lemma rows_where_spec `{Postgres} db cond r :
  r ∈ rows_where db cond <-> cond r = true /\ exists id, db !! id = Some r.
Proof.
  unfold rows_where. rewrite heap_order_perm, !list_elem_of_In, List.filter_In, List.in_map_iff.
  split.
  - intros [([id r'] & Er & Hin) Hc]. cbn in Er. subst. split; [done|]. exists id.
    by apply elem_of_map_to_list, list_elem_of_In.
  - intros (Hc & id & Hid). split; [|done]. exists (id, r). split; [done|].
    by apply list_elem_of_In, elem_of_map_to_list.
Qed.

Lemma unique_violation_false db r :
  unique_violation db r = false ->
  db !! ID r = None /\
  forall id r', db !! id = Some r' -> same_source (SourceSystem r) (SourceRequestID r) r' = false.
Proof.
  unfold unique_violation. rewrite orb_false_iff. intros [H1 H2]. split; [by destruct (db !! ID r)|].
  intros id r' Hr'. destruct (same_source _ _ r') eqn:E; [|done].
  rewrite <- H2. symmetry. apply existsb_exists. exists r'. split; [|done].
  apply in_map_iff. exists (id, r'). split; [done|]. by apply list_elem_of_In, elem_of_map_to_list.
Qed.

Lemma insert_row_ok `{Postgres} now ev r : insert_row now ev = Ok r ->
  EvStatus r = StatusPending /\ AttemptCount r = 0 /\ LeaseToken r = None /\ LeaseUntil r = None /\
  NextAttemptAt r = now /\ ID r = ID ev /\ CreatedAt r = now /\ EnqueuedAt r = None.
Proof. unfold insert_row. intros E. repeat case_match; by simplify_eq/=. Qed.

(** Every statement whose documents are as required is a table step. *)
Lemma exec_stmt_step `{Postgres} {A} (s : stmt A) now db :
  stmt_ok s -> table_step now db (exec_stmt s now db).2.
Proof.
  intros Hok. destruct s; cbn in *; try constructor.
  - unfold Insert. destruct (insert_row now ev) as [r|e] eqn:E; [|constructor].
    destruct (unique_violation db r) eqn:Eu; [constructor|]. cbn.
    apply insert_row_ok in E. apply unique_violation_false in Eu. apply ts_insert.
    unfold fresh_row. naive_solver.
  - unfold MarkEnqueued. apply update_where_step. intros r _ Hc.
    apply rs_enqueued. by apply bool_decide_eq_true in Hc.
  - unfold Claim. destruct (db !! id) as [r|] eqn:E; [|constructor].
    destruct (claimable now r) eqn:Ec; [|constructor].
    destruct (32767 <? AttemptCount r + 1) eqn:El; [constructor|]. cbn.
    eapply ts_row; [done|]. apply rs_claim; [done|lia].
  - apply update_where_step. intros r _ Hc. by eapply rs_hold; [|right; eexists].
  - apply update_where_step. intros r _ Hc. by eapply rs_hold; [|left].
  - apply update_where_step. intros r _ Hc. by eapply rs_finish; [|left|left].
  - apply update_where_step. intros r _ Hc. by eapply rs_release; [|left|].
  - apply update_where_step. intros r _ Hc. by eapply rs_release; [|right|].
  - apply update_where_step. intros r _ Hc. by eapply rs_finish; [|left|right].
  - apply update_where_step. intros r _ Hc. by eapply rs_finish; [|right|right].
  - apply update_where_step. intros r _ Hc. bool_to_prop.
    apply rs_reserve; [done| |done]. by destruct (LeaseToken r).
  - apply update_where_step. intros r _ Hc. bool_to_prop. by eapply rs_release; [|left|].
Qed.

(** ** The table invariant *)

Definition row_wf (r : Event) : Prop :=
  0 <= AttemptCount r <= 32767 /\
  match EvStatus r with
  | StatusPending => AttemptCount r = 0 /\ LeaseToken r = None /\ LeaseUntil r = None
  | StatusProcessing =>
      is_Some (LeaseUntil r) /\
      match LeaseToken r with
      | Some _ => 1 <= AttemptCount r
      | None => outcome_is_requeue r = true
      end
  | StatusSucceeded | StatusFailed => LeaseToken r = None /\ LeaseUntil r = None
  | StatusUnset | StatusUnknown => False
  end.

Record table_wf (db : table) : Prop := {
  wf_id : forall id r, db !! id = Some r -> ID r = id;
  wf_row : forall id r, db !! id = Some r -> row_wf r;
  wf_source : forall id1 id2 r1 r2, db !! id1 = Some r1 -> db !! id2 = Some r2 ->
    SourceSystem r1 = SourceSystem r2 -> SourceRequestID r1 = SourceRequestID r2 -> id1 = id2;
}.

(** What no statement changes once a row is inserted. *)
Definition same_identity (r r' : Event) : Prop :=
  ID r' = ID r /\ SourceSystem r' = SourceSystem r /\ SourceRequestID r' = SourceRequestID r /\
  ProviderCode r' = ProviderCode r /\ ProviderAction r' = ProviderAction r /\
  Payload r' = Payload r /\ NextAttemptAt r' = NextAttemptAt r /\ CreatedAt r' = CreatedAt r.

#[export] Instance same_identity_preorder : PreOrder same_identity.
Proof.
  split; [intros r; repeat split|].
  intros a b c H1 H2. unfold same_identity in *. destruct_and!. repeat split; congruence.
Qed.

Lemma row_step_identity now r r' : row_step now r r' -> same_identity r r'.
Proof. by destruct 1. Qed.

Ltac row_facts :=
  repeat match goal with
  | H : holds_lease _ _ = true |- _ => apply holds_lease_spec in H as [Hproc Htok]
  | H : claimable _ _ = true |- _ => apply claimable_spec in H
  end.

Lemma row_step_wf now r r' : row_step now r r' -> row_wf r -> row_wf r'.
Proof.
  intros Hs [Ha Hw].
  destruct Hs as [r Hp|r tok dur lr Hc Hm|r tok until lr Hl Hu|r until Hp Ht Ho
                 |r tok ac until lr pr Hl Hac Hd|r tok st ac lr pr Hl Hac Hst];
    row_facts; unfold row_wf, outcome_is_requeue in *; cbn in *.
  - by rewrite Hp in *.
  - split; [|split; [by eexists|]]; lia.
  - rewrite Hproc, Htok in *. split; [done|]. destruct Hw as [Hu' ?]. split; [|done].
    by destruct Hu as [->|].
  - rewrite Hp, Ht in *. split; [done|]. split; [by eexists|]. done.
  - rewrite Hproc, Htok in *. split; [unfold greatest0 in *; lia|]. split; [by eexists|].
    unfold requeue_doc in Hd. by rewrite Hd, String.eqb_refl.
  - rewrite Hproc, Htok in *. split; [unfold greatest0 in *; lia|]. by destruct Hst as [-> | ->].
Qed.

Lemma same_source_spec ss rid r :
  same_source ss rid r = true <-> SourceSystem r = ss /\ SourceRequestID r = rid.
Proof. unfold same_source. by rewrite andb_true_iff, !String.eqb_eq. Qed.

Lemma table_step_wf now db db' : table_step now db db' -> table_wf db -> table_wf db'.
Proof.
  intros Hs Hw. destruct Hs as [|id r r' E Hr|r Hf]; [done| |].
  - pose proof (row_step_identity _ _ _ Hr) as Hi.
    assert (forall i q, <[id:=r']> db !! i = Some q ->
              exists q0, db !! i = Some q0 /\ same_identity q0 q /\ (row_wf q0 -> row_wf q)) as HL.
    { intros i q Hq. destruct (decide (i = id)) as [->|].
      - rewrite lookup_insert_eq in Hq. simplify_eq. exists r.
        split; [done|]. split; [done|]. by eapply row_step_wf.
      - rewrite lookup_insert_ne in Hq by done. by exists q. }
    split.
    + intros i q Hq. destruct (HL _ _ Hq) as (q0 & H0 & Hid & _).
      rewrite <- (wf_id _ Hw _ _ H0). apply Hid.
    + intros i q Hq. destruct (HL _ _ Hq) as (q0 & H0 & _ & Hwf). apply Hwf. by eapply wf_row.
    + intros i1 i2 q1 q2 H1 H2 E1 E2. destruct (HL _ _ H1) as (p1 & P1 & I1 & _).
      destruct (HL _ _ H2) as (p2 & P2 & I2 & _). unfold same_identity in I1, I2. destruct_and!.
      eapply (wf_source _ Hw _ _ p1 p2); congruence.
  - destruct Hf as (Hn & Hsrc & Hst & Hac & Htok & Hun & _). split.
    + intros i q Hq. rewrite lookup_insert in Hq. case_decide; [by simplify_eq|by eapply wf_id].
    + intros i q Hq. rewrite lookup_insert in Hq. case_decide; [|by eapply wf_row].
      simplify_eq. unfold row_wf. rewrite Hst, Hac. repeat split; (done || lia).
    + intros i1 i2 q1 q2 H1 H2 E1 E2. rewrite lookup_insert in H1, H2.
      repeat case_decide; simplify_eq; try done; [exfalso..|by eapply (wf_source _ Hw)];
        match goal with H : db !! _ = Some _ |- _ => specialize (Hsrc _ _ H) end;
        apply not_true_iff_false in Hsrc; apply Hsrc, same_source_spec; by split.
Qed.

(** ** Refinement of the abstract lifecycle *)

Inductive phase :=
| PhPending | PhLeased (tok : UUID) | PhWaiting | PhSucceeded | PhFailed.

(** The lifecycle the design promises. *)
Inductive life_step : phase -> phase -> Prop :=
| life_claim tok : life_step PhPending (PhLeased tok)
| life_reclaim tok : life_step PhWaiting (PhLeased tok)
| life_release tok : life_step (PhLeased tok) PhWaiting
| life_succeed tok : life_step (PhLeased tok) PhSucceeded
| life_fail tok : life_step (PhLeased tok) PhFailed.

Definition row_phase (r : Event) : option phase :=
  match EvStatus r, LeaseToken r with
  | StatusPending, _ => Some PhPending
  | StatusProcessing, Some tok => Some (PhLeased tok)
  | StatusProcessing, None => Some PhWaiting
  | StatusSucceeded, _ => Some PhSucceeded
  | StatusFailed, _ => Some PhFailed
  | _, _ => None
  end.

Definition phase_at (db : table) (id : UUID) : option phase := db !! id ≫= row_phase.

Inductive life_move : option phase -> option phase -> Prop :=
| lm_stay p : life_move p p
| lm_accept : life_move None (Some PhPending)
| lm_step p q : life_step p q -> life_move (Some p) (Some q).

Lemma row_step_phase now r r' : row_step now r r' -> row_wf r -> life_move (row_phase r) (row_phase r').
Proof.
  intros Hs [Ha Hw].
  destruct Hs as [r Hp|r tok dur lr Hc Hm|r tok until lr Hl Hu|r until Hp Ht Ho
                 |r tok ac until lr pr Hl Hac Hd|r tok st ac lr pr Hl Hac Hst];
    row_facts; unfold row_phase; cbn.
  - rewrite Hp. constructor.
  - destruct Hc as [(-> & _)|(-> & -> & _)]; repeat constructor.
  - rewrite Hproc, Htok. constructor.
  - rewrite Hp, Ht. constructor.
  - rewrite Hproc, Htok. repeat constructor.
  - rewrite Hproc, Htok. destruct Hst as [-> | ->]; repeat constructor.
Qed.

Definition terminal (r : Event) : Prop := EvStatus r = StatusSucceeded \/ EvStatus r = StatusFailed.

Lemma row_step_not_terminal now r r' : row_step now r r' -> ~ terminal r.
Proof.
  destruct 1; row_facts; intros [Ht|Ht]; congruence || naive_solver congruence.
Qed.

(** What a table step does to the row [id], seen from that row. *)
Lemma table_step_row now db db' id r :
  table_step now db db' -> db !! id = Some r ->
  exists r', db' !! id = Some r' /\ (r' = r \/ row_step now r r').
Proof.
  intros Hs Hr. destruct Hs as [|i q q' Hq Hs|q (Hn & _)]; [eauto| |].
  - rewrite lookup_insert. case_decide; [|eauto]. simplify_eq. eauto.
  - rewrite lookup_insert. case_decide; [congruence|eauto].
Qed.

Lemma table_step_new now db db' id r' :
  table_step now db db' -> db !! id = None -> db' !! id = Some r' ->
  EvStatus r' = StatusPending /\ NextAttemptAt r' = now.
Proof.
  intros Hs Hr Hr'. destruct Hs as [|i q q' Hq Hs|q Hf]; [congruence|..];
    rewrite lookup_insert in Hr'; case_decide; simplify_eq; try congruence.
  unfold fresh_row in Hf. naive_solver.
Qed.
