(* ===== verification/StoreSpec.v ===== *)
(** * What the repository promises its callers

    Theorems about the SQL statements of [Store]: the refinement of the
    lifecycle, the exclusivity of a lease, every branch of the claim, and the
    completeness of the two recovery scans. *)

From S2P Require Import Prelude Errors Json Domain Store Lifecycle.

(** The token a guarded statement carries; [Claim] carries a new one and is
    not guarded by it. *)
Definition stmt_token {A} (s : stmt A) : option UUID :=
  match s with
  | SRenewLease _ tok _ | SMarkRequesting _ tok _ | SMarkSucceeded _ tok _ _
  | SMarkWaitingForRequeue _ tok _ _ _ | SMarkCircuitOpenWaitingForRequeue _ tok _ _
  | SMarkFailed _ tok _ _ | SMarkFailedWithoutProviderAttempt _ tok _
  | SRecoverExpiredToRequeue _ tok _ _ => Some tok
  | _ => None
  end.

(** C8: From a well-formed table every statement leads to a well-formed table,
    and for every row what happened is a move of the abstract lifecycle: the
    row is where it was, or was just accepted, or was claimed from pending or
    waiting, or its holder released, completed or failed it. *)
Theorem store_refines_lifecycle `{Postgres} {A} (s : stmt A) now db :
  stmt_ok s -> table_wf db ->
  let db' := (exec_stmt s now db).2 in
  table_wf db' /\ forall id, life_move (phase_at db id) (phase_at db' id).
Proof.
  intros Hok Hw db'. pose proof (exec_stmt_step s now db Hok) as Hs.
  split; [by eapply table_step_wf|]. intros id. unfold phase_at.
  destruct (db !! id) as [r|] eqn:Er.
  - destruct (table_step_row _ _ _ _ _ Hs Er) as (r' & Er' & Hr). fold db' in Er'. rewrite Er'. cbn.
    destruct Hr as [->|Hr]; [constructor|]. by eapply row_step_phase, wf_row.
  - destruct (db' !! id) as [r'|] eqn:Er'; cbn; [|constructor].
    destruct (table_step_new _ _ _ _ _ Hs Er Er') as [Hp _]. unfold row_phase. rewrite Hp. constructor.
Qed.

Lemma update_where_other db id cond f i :
  i <> id -> (update_where db id cond f).2 !! i = db !! i.
Proof.
  intros H. unfold update_where. repeat case_match; try done. cbn. by rewrite lookup_insert_ne.
Qed.

Lemma update_where_false db id cond f r :
  db !! id = Some r -> cond r = false -> update_where db id cond f = (0, db).
Proof. intros E Hc. unfold update_where. by rewrite E, Hc. Qed.

Lemma holds_lease_other tok tok' r :
  LeaseToken r = Some tok -> tok' <> tok -> holds_lease tok' r = false.
Proof.
  intros E Hne. unfold holds_lease. rewrite E. apply andb_false_iff. right.
  apply bool_decide_eq_false. congruence.
Qed.

Lemma leased_not_claimable now r tok :
  EvStatus r = StatusProcessing -> LeaseToken r = Some tok -> claimable now r = false.
Proof. intros E1 E2. unfold claimable. rewrite E1, E2. by cbn. Qed.

Lemma leased_processing db id r tok : table_wf db -> db !! id = Some r -> LeaseToken r = Some tok -> EvStatus r = StatusProcessing.
Proof. intros Hw Er Et. destruct (wf_row _ Hw _ _ Er) as [_ Hr]. rewrite Et in Hr. destruct (EvStatus r); naive_solver. Qed.

(** A leased row is left alone by every statement that does not carry its token. *)
Lemma leased_unchanged `{Postgres} {A} (s : stmt A) now db id r tok :
  db !! id = Some r -> EvStatus r = StatusProcessing -> LeaseToken r = Some tok ->
  stmt_token s <> Some tok -> (exec_stmt s now db).2 !! id = Some r.
Proof.
  intros Er Es Et Hne.
  assert (forall i cond f, (i = id -> cond r = false) -> (update_where db i cond f).2 !! id = Some r) as HU.
  { intros i cond f Hc. destruct (decide (id = i)) as [<-|]; [|by rewrite update_where_other].
    by rewrite (update_where_false _ _ _ _ _ Er) by auto. }
  destruct s as [ev| | | |i|i t d lr|i t d|i t b|i t res pr|i t u res pr|i t u res|i t res pr|i t res|i d| |i t u res];
    cbn in *; try done;
    try (apply HU; intros _; apply (holds_lease_other tok); [done|congruence]).
  - unfold Insert. destruct (insert_row now ev) as [q|e]; [|done].
    destruct (unique_violation db q) eqn:Eu; [done|]. cbn.
    apply unique_violation_false in Eu as [Hn _]. rewrite lookup_insert_ne; [done|congruence].
  - apply HU. intros _. by rewrite Es.
  - unfold Claim. destruct (decide (i = id)) as [->|Hi].
    + by rewrite Er, (leased_not_claimable now r tok).
    + repeat case_match; try done. cbn. by rewrite lookup_insert_ne.
  - apply HU. intros _. rewrite Et. by destruct (bool_decide _).
  - apply HU. intros _. rewrite (holds_lease_other tok); [done|done|congruence].
Qed.

(** C9: While a row is leased to [tok] it is changed by no statement that does
    not carry [tok]: another worker's claim, a stale worker's marks, a
    recovery aimed at another lease and a concurrent insert all leave it as it
    is; and the guarded ones and the claim tell their caller so with
    [ErrNotClaimed]. *)
Theorem lease_exclusive `{Postgres} {A} (s : stmt A) now db id r tok :
  db !! id = Some r -> EvStatus r = StatusProcessing -> LeaseToken r = Some tok ->
  stmt_token s <> Some tok ->
  (exec_stmt s now db).2 !! id = Some r /\
  (stmt_row s = Some id ->
   match s with SInsert _ | SMarkEnqueued _ => True | _ => (exec_stmt s now db).1 = Err (ESentinel ErrNotClaimed) end).
Proof.
  intros Er Es Et Hne. split; [by eapply leased_unchanged|].
  destruct s; cbn in *; intros Hid; try done; simplify_eq;
    try (unfold RenewLease, MarkRequesting, MarkSucceeded, MarkWaitingForRequeue, MarkCircuitOpenWaitingForRequeue,
           MarkFailed, MarkFailedWithoutProviderAttempt, RecoverExpiredToRequeue, transition;
         rewrite (update_where_false _ _ _ _ _ Er); [done|];
         rewrite ?(holds_lease_other tok) by (done || congruence); done).
  - unfold Claim. by rewrite Er, (leased_not_claimable now r tok).
  - unfold ReserveExpiredRequeue. rewrite (update_where_false _ _ _ _ _ Er); [done|].
    rewrite Et. by destruct (bool_decide _).
Qed.

(** Every branch of [Claim]: on a claimable row below the column's limit it
    counts the attempt, hands the row to the new token until [now + dur],
    clears the previous response, and returns the stored row; a claimable row
    at the limit is a database error that changes nothing; anything else is
    [ErrNotClaimed] and changes nothing. *)
Theorem claim_spec now id tok dur doc (db : table) :
  match db !! id with
  | Some r =>
      if claimable now r then
        if AttemptCount r <? 32767 then
          exists r', Claim now id tok dur doc db = (Ok r', <[id := r']> db) /\
            EvStatus r' = StatusProcessing /\ LeaseToken r' = Some tok /\
            LeaseUntil r' = Some (now + dur) /\ AttemptCount r' = AttemptCount r + 1 /\
            LastResult r' = Some doc /\ ProviderResponse r' = None /\ same_identity r r'
        else Claim now id tok dur doc db = (Err (EPg "22003" "smallint out of range"), db)
      else Claim now id tok dur doc db = (Err (ESentinel ErrNotClaimed), db)
  | None => Claim now id tok dur doc db = (Err (ESentinel ErrNotClaimed), db)
  end.
Proof.
  unfold Claim. destruct (db !! id) as [r|]; [|done].
  destruct (claimable now r); [|done].
  destruct (Z.ltb_spec (AttemptCount r) 32767), (Z.ltb_spec 32767 (AttemptCount r + 1)); try lia; [|done].
  eexists. split; [done|]. by repeat split.
Qed.

(** An event waiting for redelivery with 32767 counted attempts can never
    be claimed again: every later claim, whoever makes it and whenever, is a
    database error, so the event neither runs nor reaches FAILED. *)
Theorem claim_saturated now id tok dur doc (db : table) r :
  db !! id = Some r -> EvStatus r = StatusProcessing -> LeaseToken r = None ->
  outcome_is_requeue r = true -> AttemptCount r = 32767 ->
  Claim now id tok dur doc db = (Err (EPg "22003" "smallint out of range"), db).
Proof.
  intros Er Es Et Ho Ha. unfold Claim. rewrite Er, Ha.
  replace (claimable now r) with true; [done|].
  symmetry. apply claimable_spec. by right.
Qed.

(** ** The recovery scans *)

#[export] Instance by_instant_total f : Total (by_instant f).
Proof. intros a b. unfold by_instant. lia. Qed.
#[export] Instance by_instant_trans f : Transitive (by_instant f).
Proof. intros a b c. unfold by_instant. lia. Qed.

(** [ORDER BY f LIMIT n]: what is returned is in order and among the rows, and
    a row left out means the limit was reached by rows no later than it. *)
Lemma order_limit_spec (f : Event -> Z) (n : nat) (l : list Event) :
  let out := take n (merge_sort (by_instant f) l) in
  StronglySorted (by_instant f) out /\
  (forall r, r ∈ out -> r ∈ l) /\
  (forall r, r ∈ l -> r ∉ out -> length out = n /\ forall q, q ∈ out -> f q <= f r).
Proof.
  cbn zeta. set (s := merge_sort (by_instant f) l).
  assert (s ≡ₚ l) as Hp by apply merge_sort_Permutation.
  assert (StronglySorted (by_instant f) s) as Hs by apply (StronglySorted_merge_sort _).
  rewrite <- (take_drop n s) in Hs. apply StronglySorted_app in Hs as (Hcross & Hs1 & _).
  split; [done|]. split.
  - intros r Hr. rewrite <- Hp, <- (take_drop n s). apply elem_of_app. by left.
  - intros r Hr Hn. rewrite <- Hp, <- (take_drop n s) in Hr.
    apply elem_of_app in Hr as [Hr|Hr]; [done|]. split.
    + rewrite length_take. apply list_elem_of_lookup in Hr as [i Hi]. rewrite lookup_drop in Hi.
      apply lookup_lt_Some in Hi. lia.
    + intros q Hq. exact (Hcross q r Hq Hr).
Qed.

Lemma expired_spec now r :
  expired now r = true <-> EvStatus r = StatusProcessing /\ exists u, LeaseUntil r = Some u /\ u < now.
Proof.
  unfold expired, before_now. rewrite andb_true_iff, bool_decide_eq_true.
  destruct (LeaseUntil r) as [u|]; [rewrite Z.ltb_lt|]; naive_solver.
Qed.

(** The expired-lease scan returns, oldest deadline first, only PROCESSING
    rows whose deadline has passed, whatever their lease state; and it misses
    such a row only when the batch is full of rows at least as old. *)
Theorem SelectExpiredLeases_spec `{Postgres} now limit db :
  let out := SelectExpiredLeases now limit db in
  StronglySorted (by_instant (fun r => default 0 (LeaseUntil r))) out /\
  (forall r, r ∈ out -> expired now r = true /\ exists id, db !! id = Some r) /\
  (forall id r, db !! id = Some r -> expired now r = true -> r ∉ out ->
     length out = Z.to_nat limit /\ forall q, q ∈ out -> default 0 (LeaseUntil q) <= default 0 (LeaseUntil r)).
Proof.
  unfold SelectExpiredLeases. pose proof (order_limit_spec (fun r => default 0 (LeaseUntil r))
    (Z.to_nat limit) (rows_where db (expired now))) as (H1 & H2 & H3).
  split; [done|]. split.
  - intros r Hr. by apply rows_where_spec, H2.
  - intros id r Hid He. apply H3. apply rows_where_spec. eauto.
Qed.

(** The publish scan returns only ids of PENDING rows that are due and have
    no broker receipt, and misses such a row only when the batch is full. *)
Theorem SelectPendingToPublish_spec `{Postgres} now limit db :
  table_wf db ->
  let out := SelectPendingToPublish now limit db in
  (forall id, id ∈ out -> exists r, db !! id = Some r /\ pending_to_publish now r = true) /\
  (forall id r, db !! id = Some r -> pending_to_publish now r = true -> id ∉ out ->
     length out = Z.to_nat limit).
Proof.
  intros Hw. unfold SelectPendingToPublish. pose proof (order_limit_spec NextAttemptAt
    (Z.to_nat limit) (rows_where db (pending_to_publish now))) as (_ & H2 & H3).
  split.
  - intros id Hid. apply list_elem_of_fmap in Hid as (r & -> & Hr).
    apply H2, rows_where_spec in Hr as (Hc & i & Hi). exists r. split; [|done].
    by rewrite (wf_id _ Hw _ _ Hi).
  - intros id r Hr Hc Hn. rewrite List.length_map. apply (H3 r).
    + apply rows_where_spec. eauto.
    + intros Hin. apply Hn. apply list_elem_of_fmap. exists r. split; [|done].
      symmetry. by eapply wf_id.
Qed.
