(* ===== verification/Scan.v ===== *)
(** * Reading rows ([scanEvent] and the row loops of
      [internal/store/event_repo.go])

    What the driver hands to [Scan] are columns: texts of UUIDs and of the
    status, timestamps, and documents that may be NULL. [Store] returns the
    rows themselves; here every query is shown to return what scanning the
    columns of its rows gives. *)

From S2P Require Import Prelude Errors Json Domain Store Lifecycle.

(** The columns of [eventColumns], in its order. A [jsonb] column is its
    document. *)
Record columns := {
  c_id : string;
  c_source_system : string;
  c_source_request_id : string;
  c_provider_code : string;
  c_provider_action : string;
  c_payload : string;
  c_status : string;
  c_attempt_count : Z;
  c_next_attempt_at : Z;
  c_enqueued_at : option Z;
  c_lease_token : option string;
  c_lease_until : option Z;
  c_last_result : option json;
  c_provider_response : option json;
  c_created_at : Z;
  c_updated_at : Z;
}.

(** [domain.Status(status)]; the column's [CHECK] admits only these texts. *)
Definition Status_of (s : string) : Status :=
  if String.eqb s "PENDING" then StatusPending
  else if String.eqb s "PROCESSING" then StatusProcessing
  else if String.eqb s "SUCCEEDED" then StatusSucceeded
  else if String.eqb s "FAILED" then StatusFailed
  else if String.eqb s "UNKNOWN" then StatusUnknown
  else StatusUnset.

Lemma Status_of_string s : Status_of (Status_string s) = s.
Proof. by destruct s. Qed.

Section scan.
Context (uuid_string : UUID -> string) (uuid_parse : string -> res UUID).

(** [scanEvent]; the argument is what [Scan] did: its error
    ([sql.ErrNoRows] among them) or the columns. *)
Definition scanEvent (scanner : res columns) : res Event :=
  match scanner with
  | Err e => Err e
  | Ok c =>
      match uuid_parse (c_id c) with
      | Err e => Err e
      | Ok id =>
          let ev token :=
            {| ID := id; SourceSystem := c_source_system c; SourceRequestID := c_source_request_id c;
               ProviderCode := c_provider_code c; ProviderAction := c_provider_action c; Payload := c_payload c;
               EvStatus := Status_of (c_status c); AttemptCount := c_attempt_count c; NextAttemptAt := c_next_attempt_at c;
               EnqueuedAt := c_enqueued_at c; LeaseToken := token; LeaseUntil := c_lease_until c;
               LastResult := c_last_result c; ProviderResponse := c_provider_response c;
               CreatedAt := c_created_at c; UpdatedAt := c_updated_at c |} in
          match c_lease_token c with
          | None => Ok (ev None)
          | Some leaseToken =>
              match uuid_parse leaseToken with
              | Err e => Err e
              | Ok lt => Ok (ev (Some lt))
              end
          end
      end
  end.

(** [for rows.Next()] with an early return; [err] is [rows.Err()]. *)
Fixpoint scan_rows {R A} (scan : R -> res A) (rows : list R) (err : option error) : res (list A) :=
  match rows with
  | [] => match err with Some e => Err e | None => Ok [] end
  | r :: rest =>
      match scan r with
      | Err e => Err e
      | Ok a => match scan_rows scan rest err with Ok l => Ok (a :: l) | Err e => Err e end
      end
  end.

(** The loops of [SelectExpiredLeases] and [SelectPendingToPublish]. *)
Definition scan_events (rows : list (res columns)) (err : option error) : res (list Event) := scan_rows scanEvent rows err.
Definition scan_ids (rows : list (res string)) (err : option error) : res (list UUID) :=
  scan_rows (fun s => match s with Ok s => uuid_parse s | Err e => Err e end) rows err.

(** [FindBySourceRequest], [GetByID] and [Claim] end in one of these. *)
Definition scan_one (missing : sentinel) (no_rows : error -> bool) (row : res columns) : res Event :=
  match scanEvent row with
  | Err e => if no_rows e then Err (ESentinel missing) else Err e
  | Ok ev => Ok ev
  end.

(** ** Against the rows *)

(** The columns PostgreSQL returns for a row. *)
Definition row_columns (r : Event) : columns :=
  {| c_id := uuid_string (ID r); c_source_system := SourceSystem r; c_source_request_id := SourceRequestID r;
     c_provider_code := ProviderCode r; c_provider_action := ProviderAction r; c_payload := Payload r;
     c_status := Status_string (EvStatus r); c_attempt_count := AttemptCount r; c_next_attempt_at := NextAttemptAt r;
     c_enqueued_at := EnqueuedAt r; c_lease_token := option_map uuid_string (LeaseToken r); c_lease_until := LeaseUntil r;
     c_last_result := LastResult r; c_provider_response := ProviderResponse r; c_created_at := CreatedAt r; c_updated_at := UpdatedAt r |}.

(** The UUID library parses what it prints. *)
Hypothesis uuid_parse_string : forall id, uuid_parse (uuid_string id) = Ok id.

Lemma scanEvent_row r : scanEvent (Ok (row_columns r)) = Ok r.
Proof using uuid_parse_string.
  destruct r as [i ss rid pc pa pl st ac na enq [t|] lu lr pr ca ua]; unfold scanEvent, row_columns; cbn;
    rewrite ?uuid_parse_string, ?Status_of_string; reflexivity.
Qed.

Lemma scan_rows_map {R A} (scan : R -> res A) (column : A -> R) l :
  (forall a, scan (column a) = Ok a) -> scan_rows scan (List.map column l) None = Ok l.
Proof using Type. intros H. induction l as [|a l IH]; cbn; [done|]. by rewrite H, IH. Qed.

(** The row a query returns: the columns of a row, or [sql.ErrNoRows]. *)
Definition returned (no_rows : error) (r : option Event) : res columns :=
  match r with Some r => Ok (row_columns r) | None => Err no_rows end.

(** Reading rows loses nothing: each query returns, as the caller sees it,
    exactly the rows [Store] selects, with every column and in order; a
    missing row is the sentinel of the query; and the first row that cannot
    be read, or a connection that breaks off, is an error instead of a
    shorter list. *)
Theorem queries_scan_rows `{Postgres} no_rows is_no_rows db now :
  is_no_rows no_rows = true ->
  (forall ss rid, scan_one StoreErrNotFound is_no_rows (returned no_rows (head (rows_where db (same_source ss rid)))) = FindBySourceRequest ss rid db) /\
  (forall id, scan_one StoreErrNotFound is_no_rows (returned no_rows (db !! id)) = GetByID id db) /\
  (forall id tok dur doc r, db !! id = Some r -> AttemptCount r < 32767 ->
     scan_one ErrNotClaimed is_no_rows
       (returned no_rows (if claimable now r then Some (claim_update now tok dur doc r) else None)) = (Claim now id tok dur doc db).1) /\
  (forall limit, scan_events (List.map (fun r => Ok (row_columns r)) (SelectExpiredLeases now limit db)) None = Ok (SelectExpiredLeases now limit db)) /\
  (forall limit, scan_ids (List.map (fun id => Ok (uuid_string id)) (SelectPendingToPublish now limit db)) None = Ok (SelectPendingToPublish now limit db)) /\
  (forall rows e l, scan_events rows (Some e) <> Ok l).
Proof using uuid_parse_string.
  intros Hno. unfold scan_one.
  assert (forall missing o, (match scanEvent (returned no_rows o) with
            | Err e => if is_no_rows e then Err (ESentinel missing) else Err e | Ok ev => Ok ev end)
          = match o with Some r => Ok r | None => Err (ESentinel missing) end) as Hone.
  { intros missing [r|]; unfold returned; [by rewrite scanEvent_row|]. cbn. by rewrite Hno. }
  split; [|split; [|split; [|split; [|split]]]].
  - intros ss rid. rewrite Hone. unfold FindBySourceRequest. by destruct (rows_where _ _).
  - intros id. rewrite Hone. unfold GetByID. by destruct (db !! id).
  - intros id tok dur doc r Hr Hc. rewrite Hone. unfold Claim. rewrite Hr. destruct (claimable now r); [|done].
    by replace (32767 <? AttemptCount r + 1) with false by lia.
  - intros limit. apply (scan_rows_map scanEvent (fun r => Ok (row_columns r))). apply scanEvent_row.
  - intros limit. by apply (scan_rows_map _ (fun id => Ok (uuid_string id))).
  - unfold scan_events. induction rows as [|row rows IH]; intros e l; cbn; [done|]. destruct (scanEvent row); [|done].
    destruct (scan_rows scanEvent rows (Some e)) eqn:E; [by exfalso; eapply IH|done].
Qed.
End scan.
