(* ===== verification/Limiter.v ===== *)
(** * Limiters ([internal/worker/limiter.go])

    One limiter per configured provider action, process-local.  The token
    bucket is [golang.org/x/time/rate], whose [Wait] is a parameter of
    [Acquire]; the concurrency semaphore is the buffered channel, modelled by
    the number of values in it. *)

From S2P Require Import Prelude Float Errors.

(** What [rate.NewLimiter] is called with. *)
Record rate_Limiter := { rl_limit : float64; rl_burst : Z }.

(** [sem_cap] and [sem_len]: capacity and length of the channel [sem]. *)
Record actionLimiter := mkLimiter {
  limiter : option rate_Limiter;
  sem_cap : option Z;
  sem_len : Z;
}.

Abbreviation Limiters := (gmap string actionLimiter).

Definition NewLimiters : Limiters := ∅.

Definition Limiters_Register (l : Limiters) (key : string) (rps : float64) (maxConcurrency : Z) : Limiters :=
  let burst := float_to_int rps in
  <[key := {| limiter := if float_ltb (float_of_Z 0) rps
                         then Some {| rl_limit := rps; rl_burst := if burst <? 1 then 1 else burst |} else None;
              sem_cap := if 0 <? maxConcurrency then Some maxConcurrency else None;
              sem_len := 0 |}]> l.

Definition set_sem (al : actionLimiter) (n : Z) : actionLimiter :=
  {| limiter := limiter al; sem_cap := sem_cap al; sem_len := n |}.

(** [Acquire]: [wait] is what [limiter.Wait] answered, [done] the context's
    error if the [select] took that branch.  [None] means the call is still
    blocked: the channel is full and the context is not done. *)
Definition Acquire (l : Limiters) (key : string) (wait done : option error) : option (option error * Limiters) :=
  match l !! key with
  | None => Some (None, l)
  | Some al =>
      match limiter al, wait with
      | Some _, Some e => Some (Some e, l)
      | _, _ =>
          match sem_cap al with
          | None => Some (None, l)
          | Some cap =>
              match done with
              | Some e => Some (Some e, l)
              | None => if sem_len al <? cap then Some (None, <[key := set_sem al (sem_len al + 1)]> l) else None
              end
          end
      end
  end.

(** The function [Acquire] returns: [<-al.sem] when there is a semaphore. *)
Definition Release (l : Limiters) (key : string) : Limiters :=
  alter (fun al => match sem_cap al with Some _ => set_sem al (sem_len al - 1) | None => al end) key l.

(** A limiter whose channel holds [n] values. *)
Definition sem_holds (l : Limiters) (key : string) (n : Z) : Prop :=
  match l !! key with
  | Some al => match sem_cap al with Some cap => sem_len al = n /\ n <= cap | None => True end
  | None => True
  end.

Lemma Acquire_holds l key wait done l' n :
  Acquire l key wait done = Some (None, l') -> sem_holds l key n -> sem_holds l' key (n + 1).
Proof.
  unfold Acquire, sem_holds. intros H. destruct (l !! key) as [al|] eqn:El; [|by simplify_eq; rewrite El].
  destruct al as [[b|] [cap|] len]; cbn in *; repeat case_match; simplify_eq; rewrite ?El, ?lookup_insert_eq in *;
    simplify_eq/=; try done; lia.
Qed.

Lemma Acquire_refused l key wait done e l' : Acquire l key wait done = Some (Some e, l') -> l' = l.
Proof. unfold Acquire. intros H. by repeat case_match; simplify_eq. Qed.

Lemma Acquire_error l key wait done e l' :
  Acquire l key wait done = Some (Some e, l') -> wait = Some e \/ done = Some e.
Proof. unfold Acquire. intros H. repeat case_match; simplify_eq; auto. Qed.

Lemma Acquire_other l key wait done r l' k : Acquire l key wait done = Some (r, l') -> k <> key -> l' !! k = l !! k.
Proof. unfold Acquire. intros H Hk. repeat case_match; simplify_eq; by rewrite ?lookup_insert_ne by done. Qed.

Lemma Release_holds l key n : sem_holds l key n -> sem_holds (Release l key) key (n - 1).
Proof.
  unfold sem_holds, Release. rewrite lookup_alter_eq. destruct (l !! key) as [al|]; cbn; [|done].
  destruct (sem_cap al) eqn:E; cbn; rewrite ?E; [lia|done].
Qed.

Lemma Release_other l key k : k <> key -> Release l key !! k = l !! k.
Proof. intros H. unfold Release. by rewrite lookup_alter_ne. Qed.

(** A caller is never blocked for ever once its context is done. *)
Lemma Acquire_done l key wait e : exists r, Acquire l key wait (Some e) = Some (r, l).
Proof. unfold Acquire. repeat case_match; eauto. Qed.

Lemma Limiters_Register_holds l key rps maxConcurrency :
  sem_holds (Limiters_Register l key rps maxConcurrency) key 0.
Proof.
  unfold sem_holds, Limiters_Register. rewrite lookup_insert_eq. cbn.
  destruct (Z.ltb_spec 0 maxConcurrency); [lia|done].
Qed.
