(* ===== verification/Effects.v ===== *)
(** * What the handlers call ([worker.Processor], [worker.Compensator],
      [publish.Service], [notification.Service])

    One effect per call that leaves the handler: the clock, [uuid.New], a SQL
    statement, the broker, the process's breakers and limiters, and the
    provider adapter.  [local] says what each call may answer and do. *)

From S2P Require Import Prelude Prog Errors Json Domain Mq Provider Breaker Limiter Store.

Inductive eff : Type -> Type :=
| ENow : eff Z
| ENewUUID : eff UUID
| ERepo {A} (s : stmt A) : eff (res A)
| EPublish (id : UUID) : eff (res PublishResult)
| EAllow (key : string) : eff BreakerDecision
| EObserve (p : BreakerPermit) (o : BreakerObservation) : eff unit
| EAbort (p : BreakerPermit) : eff unit
| EAcquire (key : string) : eff (option error)
| ERelease (key : string) : eff unit
| ESend (adapter : string) (ac : ActionContext) (action payload : string) : eff (option Result * option error).

Abbreviation prog := (Prog.prog eff).

(** A call to a provider: the adapter, its arguments and what it returned. *)
Record call := mkCall {
  call_adapter : string;
  call_ac : ActionContext;
  call_action : string;
  call_payload : string;
  call_answer : option Result * option error;
}.

(** The table, the ids handed to the broker and the provider calls made are
    global; breakers and limiters are the process's. [w_uuids] are the values
    [uuid.New] has returned. *)
Record world := mkWorld {
  w_db : table;
  w_uuids : gset UUID;
  w_breakers : Breakers;
  w_limiters : Limiters;
  w_calls : list call;
  w_published : list UUID;
}.

Definition set_db (w : world) (db : table) : world :=
  mkWorld db (w_uuids w) (w_breakers w) (w_limiters w) (w_calls w) (w_published w).
Definition set_uuids (w : world) (u : gset UUID) : world :=
  mkWorld (w_db w) u (w_breakers w) (w_limiters w) (w_calls w) (w_published w).
Definition set_breakers (w : world) (b : Breakers) : world :=
  mkWorld (w_db w) (w_uuids w) b (w_limiters w) (w_calls w) (w_published w).
Definition set_limiters (w : world) (l : Limiters) : world :=
  mkWorld (w_db w) (w_uuids w) (w_breakers w) l (w_calls w) (w_published w).
Definition add_call (w : world) (c : call) : world :=
  mkWorld (w_db w) (w_uuids w) (w_breakers w) (w_limiters w) (c :: w_calls w) (w_published w).
Definition add_published (w : world) (id : UUID) : world :=
  mkWorld (w_db w) (w_uuids w) (w_breakers w) (w_limiters w) (w_calls w) (id :: w_published w).

(** An error that comes from the connection, the context or the rate limiter
    and not from the repository's own packages: none of its sentinels, not a
    requeue request. *)
Definition foreign_error (e : error) : Prop :=
  errors_Is e ErrNotClaimed = false /\ errors_Is e StoreErrNotFound = false /\
  errors_Is e ErrDuplicateSourceRequest = false /\ errors_As_Requeue e = None.

(** A statement is executed at the database's own time and its answer
    arrives; or it fails before; or it is committed and its answer is lost. *)
Inductive stmt_answer {P : Postgres} {A} (s : stmt A) (db : table) : res A -> table -> Prop :=
| sa_done now : stmt_answer s db (exec_stmt s now db).1 (exec_stmt s now db).2
| sa_refused e : foreign_error e -> stmt_answer s db (Err e) db
| sa_lost now e : foreign_error e -> stmt_answer s db (Err e) (exec_stmt s now db).2.

Definition local {P : Postgres} : handler eff world := fun X e =>
  match e in eff X return world -> X -> world -> Prop with
  | ENow => fun w t w' => w' = w
  | ENewUUID => fun w u w' => u ∉ w_uuids w /\ w' = set_uuids w ({[u]} ∪ w_uuids w)
  | ERepo s => fun w x w' => exists db', stmt_answer s (w_db w) x db' /\ w' = set_db w db'
  | EPublish id => fun w x w' => w' = add_published w id
  | EAllow key => fun w d w' =>
      exists now, d = (Allow now (w_breakers w) key).1 /\ w' = set_breakers w (Allow now (w_breakers w) key).2
  | EObserve p o => fun w _ w' => exists now, w' = set_breakers w (Observe now (w_breakers w) p o)
  | EAbort p => fun w _ w' => w' = set_breakers w (Abort (w_breakers w) p)
  | EAcquire key => fun w x w' =>
      exists wait done l,
        (forall e, wait = Some e \/ done = Some e -> foreign_error e) /\
        Acquire (w_limiters w) key wait done = Some (x, l) /\ w' = set_limiters w l
  | ERelease key => fun w _ w' => w' = set_limiters w (Release (w_limiters w) key)
  | ESend adapter ac action payload => fun w x w' => w' = add_call w (mkCall adapter ac action payload x)
  end.

(** Every call has some answer: [wp local] is never vacuous. *)
Lemma local_total {P : Postgres} X (e : eff X) w : exists x w', local X e w x w'.
Proof.
  destruct e as [| |A s|id|k|p o|p|k|k|ad ac action payload]; cbn.
  - exists 0. eauto.
  - exists (fresh (w_uuids w)). eexists. split; [apply is_fresh|done].
  - exists (exec_stmt s 0 (w_db w)).1, (set_db w (exec_stmt s 0 (w_db w)).2), (exec_stmt s 0 (w_db w)).2.
    split; [apply (sa_done _ _ 0)|done].
  - exists (Err (EString EmptyString)). eauto.
  - exists (Allow 0 (w_breakers w) k).1, (set_breakers w (Allow 0 (w_breakers w) k).2), 0. by split.
  - exists tt, (set_breakers w (Observe 0 (w_breakers w) p o)). by exists 0.
  - exists tt. eauto.
  - destruct (Acquire_done (w_limiters w) k None (ESentinel CtxCanceled)) as [r Hr].
    exists r, (set_limiters w (w_limiters w)), None, (Some (ESentinel CtxCanceled)), (w_limiters w).
    split; [|by split]. intros e [|[= <-]]; [done|]. by repeat split.
  - exists tt. eauto.
  - exists (None, None). eauto.
Qed.

(** ** [error] results *)

Definition err_of {A} (r : res A) : option error := match r with Ok _ => None | Err e => Some e end.

Definition is_err (o : option error) (s : sentinel) : bool :=
  match o with Some e => errors_Is e s | None => false end.

(** ** The repository's methods

    [Claim] and [MarkRequesting] read the process clock for the document they
    write; every other method is its statement. *)

Definition Repo_Claim (id tok : UUID) (dur : Z) : prog (res Event) :=
  (now <- trigger ENow ;;
   trigger (ERepo (SClaim id tok dur (marshal_claimed {| Claimed_Phase := PhaseClaimed; ClaimedAt := now |}))))%prog.

Definition Repo_MarkRequesting (id tok : UUID) : prog (option error) :=
  (now <- trigger ENow ;;
   r <- trigger (ERepo (SMarkRequesting id tok
     (marshal_requesting {| Requesting_Phase := PhaseRequesting; StartedAt := now |}))) ;;
   Ret (err_of r))%prog.

(** A method that only reports an error. *)
Definition Repo_exec {A} (s : stmt A) : prog (option error) :=
  (r <- trigger (ERepo s) ;; Ret (err_of r))%prog.

(** ** Rules for the calls *)

Section rules.
Context {P : Postgres}.
Implicit Types w : world.

Lemma wp_trigger {X} (e : eff X) w (Q : X -> world -> Prop) :
  (forall x w', local X e w x w' -> Q x w') -> wp local (trigger e) w Q.
Proof using Type. intros H. exact H. Qed.

Lemma wp_now w (Q : Z -> world -> Prop) : (forall t, Q t w) -> wp local (trigger ENow) w Q.
Proof using Type. intros H. apply wp_trigger. intros t w' ->. apply H. Qed.

Lemma wp_repo {A} (s : stmt A) w (Q : res A -> world -> Prop) :
  (forall x db', stmt_answer s (w_db w) x db' -> Q x (set_db w db')) -> wp local (trigger (ERepo s)) w Q.
Proof using Type. intros H. apply wp_trigger. intros x w' (db' & Ha & ->). by apply H. Qed.

(** A statement that is sure to succeed when the database answers. *)
Lemma wp_exec (s : stmt unit) (f : Z -> table) w (Q : option error -> world -> Prop) :
  (forall now, exec_stmt s now (w_db w) = (Ok tt, f now)) ->
  (forall now, Q None (set_db w (f now))) ->
  (forall e db', foreign_error e -> Q (Some e) (set_db w db')) ->
  wp local (Repo_exec s) w Q.
Proof using Type.
  intros He H1 H2. apply wp_bind, wp_repo. intros x db' Ha. cbn.
  destruct Ha as [now|e Hf|now e Hf]; [rewrite He; apply H1|by apply H2..].
Qed.

Lemma foreign_not_claimed e : foreign_error e -> is_err (Some e) ErrNotClaimed = false.
Proof using Type. by intros (H & _). Qed.

Lemma foreign_not_requeue e : foreign_error e -> errors_As_Requeue e = None.
Proof using Type. by intros (_ & _ & _ & H). Qed.
End rules.

(** ** A database that answers

    [local] without faults: every statement is executed at [now], which is
    also what the clock reads; the broker may still refuse. *)
Definition reliable {P : Postgres} (now : Z) : handler eff world := fun X e =>
  match e in eff X return world -> X -> world -> Prop with
  | ENow => fun w t w' => t = now /\ w' = w
  | ERepo s => fun w x w' => x = (exec_stmt s now (w_db w)).1 /\ w' = set_db w (exec_stmt s now (w_db w)).2
  | e => local _ e
  end.

Lemma reliable_local {P : Postgres} now X (e : eff X) w x w' : reliable now X e w x w' -> local X e w x w'.
Proof.
  destruct e; cbn; try done; [by intros [_ ->]|].
  intros [-> ->]. eexists. split; [apply sa_done|done].
Qed.

Lemma reliable_total {P : Postgres} now X (e : eff X) w : exists x w', reliable now X e w x w'.
Proof.
  destruct e; try apply (local_total _ _ w); cbn; [by exists now, w|by eexists _, _].
Qed.
