(* ===== verification/Among.v ===== *)
(** * A handler among other processes

    Any number of other processes act on the table between any two calls of a
    handler. [rely] is what they may do there: any statement of theirs, but
    none with an id this handler drew from [uuid.New]. [among] runs a
    handler's calls with such steps after each of them; [Interference] proves
    that every other thread of the system keeps to it. *)

From S2P Require Import Prelude Prog Errors Json Domain Mq Provider Breaker Limiter Store Lifecycle Effects.

(** ** The table as it evolves *)

Definition evolves : table -> table -> Prop := star (fun db db' => exists now, table_step now db db').

#[export] Instance evolves_preorder : PreOrder evolves.
Proof. split; [exact (star_refl _)|exact (star_trans _)]. Qed.

Lemma evolves_step now db db' : table_step now db db' -> evolves db db'.
Proof. intros H. eapply star_snoc; [apply star_refl|by exists now]. Qed.

Lemma table_step_keeps now db db' id r :
  table_step now db db' -> db !! id = Some r ->
  exists r', db' !! id = Some r' /\ same_identity r r' /\ (terminal r -> r' = r).
Proof.
  intros Hs Hr. destruct (table_step_row _ _ _ _ _ Hs Hr) as (r' & Hr' & [->|Hst]).
  - by exists r.
  - exists r'. split; [done|]. split; [by eapply row_step_identity|]. intros Ht. by destruct (row_step_not_terminal _ _ _ Hst).
Qed.

Lemma evolves_keeps db db' : table_wf db -> evolves db db' ->
  table_wf db' /\ forall id r, db !! id = Some r ->
    exists r', db' !! id = Some r' /\ same_identity r r' /\ (terminal r -> r' = r).
Proof.
  intros Hw. apply (star_invariant_rel _ table_wf
    (fun a b => forall id r, a !! id = Some r -> exists r', b !! id = Some r' /\ same_identity r r' /\ (terminal r -> r' = r))).
  - intros s id r Hr. by exists r.
  - intros a b c H1 H2 id r Hr. destruct (H1 _ _ Hr) as (r1 & Hr1 & I1 & T1). destruct (H2 _ _ Hr1) as (r2 & Hr2 & I2 & T2).
    exists r2. split; [done|]. split; [by etrans|]. intros Ht. specialize (T1 Ht). subst. by apply T2.
  - intros a b Ha (now & Hs). split; [by eapply table_step_wf|]. intros id r. by eapply table_step_keeps.
  - done.
Qed.

Lemma evolves_wf db db' : table_wf db -> evolves db db' -> table_wf db'.
Proof. intros Hw He. by apply (evolves_keeps _ _ Hw He). Qed.

(** *** The attempts that are settled

    The count of a leased row includes the attempt of its holder, which the
    holder may take back. What is counted without it never decreases. *)
Definition settled_attempts (r : Event) : Z := AttemptCount r - match LeaseToken r with Some _ => 1 | None => 0 end.

Lemma row_step_settled now r r' : row_step now r r' -> row_wf r -> settled_attempts r <= settled_attempts r'.
Proof.
  intros Hs [Ha Hw]. unfold settled_attempts.
  destruct Hs as [r Hp|r tok dur lr Hc Hm|r tok until lr Hl Hu|r until Hp Ht Ho
                 |r tok ac until lr pr Hl Hac Hd|r tok st ac lr pr Hl Hac Hst]; row_facts; cbn.
  - lia.
  - destruct Hc as [[Hp _]|(_ & Ht & _)]; [rewrite Hp in Hw; destruct Hw as (_ & -> & _)|rewrite Ht]; lia.
  - lia.
  - lia.
  - rewrite Htok, Hproc in *. unfold greatest0 in *. lia.
  - rewrite Htok, Hproc in *. unfold greatest0 in *. lia.
Qed.

Lemma evolves_settled db db' id r : table_wf db -> evolves db db' -> db !! id = Some r ->
  exists r', db' !! id = Some r' /\ settled_attempts r <= settled_attempts r'.
Proof.
  intros Hw He. revert id r.
  assert (table_wf db' /\ forall id r, db !! id = Some r -> exists r', db' !! id = Some r' /\ settled_attempts r <= settled_attempts r') as [_ H]; [|exact H].
  apply (star_invariant_rel (fun a b => exists now, table_step now a b) table_wf
    (fun a b => forall id r, a !! id = Some r -> exists r', b !! id = Some r' /\ settled_attempts r <= settled_attempts r')); [..|done|done].
  - intros s id r Hr. by exists r.
  - intros a b c H1 H2 id r Hr. destruct (H1 _ _ Hr) as (r1 & Hr1 & I1). destruct (H2 _ _ Hr1) as (r2 & Hr2 & I2).
    exists r2. split; [done|lia].
  - intros a b Ha (now & Hs). split; [by eapply table_step_wf|]. intros id r Hr.
    destruct (table_step_row _ _ _ _ _ Hs Hr) as (r' & Hr' & [->|Hst]); [by exists r|]. exists r'. split; [done|].
    eapply row_step_settled; [done|by eapply wf_row].
Qed.

(** ** What others may do *)

(** The recovery scan took the row from its holder: the attempt stays
    counted and the event waits for its redelivery. *)
Definition recovered (r r' : Event) : Prop :=
  EvStatus r' = StatusProcessing /\ LeaseToken r' = None /\ outcome_is_requeue r' = true /\
  AttemptCount r' = AttemptCount r /\ same_identity r r'.

(** No row is added under one of these ids or leased to one; a row leased to
    one is left alone or recovered. *)
Definition spares (mine : gset UUID) (db db' : table) : Prop :=
  forall id r', db' !! id = Some r' ->
    match db !! id with
    | Some r =>
        (forall tok, tok ∈ mine -> LeaseToken r' = Some tok -> LeaseToken r = Some tok) /\
        (forall tok, tok ∈ mine -> LeaseToken r = Some tok -> r' = r \/ recovered r r')
    | None => id ∉ mine /\ forall tok, tok ∈ mine -> LeaseToken r' <> Some tok
    end.

Definition rely (mine : gset UUID) : table -> table -> Prop :=
  star (fun db db' => (exists now, table_step now db db') /\ spares mine db db').

Lemma rely_evolves mine db db' : rely mine db db' -> evolves db db'.
Proof. induction 1 as [s|s1 s2 s3 _ IH [H _]]; [done|]. by eapply star_snoc. Qed.

(** The process's breakers and limiters are shared with its other threads;
    the ids drawn, the provider calls and the ids handed to the broker are
    this handler's own. *)
Definition others (mine : gset UUID) (w w' : world) : Prop :=
  rely mine (w_db w) (w_db w') /\ w_uuids w' = w_uuids w /\ w_calls w' = w_calls w /\ w_published w' = w_published w.

(** The database: every statement is executed, at an instant not before
    [clock]; or, with faults, it fails before, or its answer is lost. *)
Definition database {P : Postgres} (faults : bool) (clock : Z) : handler eff world := fun X e =>
  match e in eff X return world -> X -> world -> Prop with
  | ERepo s => fun w x w' =>
      (exists now, clock <= now /\ x = (exec_stmt s now (w_db w)).1 /\ w' = set_db w (exec_stmt s now (w_db w)).2) \/
      (faults = true /\ exists e now, x = Err e /\ foreign_error e /\ (w' = w \/ clock <= now /\ w' = set_db w (exec_stmt s now (w_db w)).2))
  | e => local _ e
  end.

(** What [uuid.New] returns is in no row. *)
Definition unused (u : UUID) (db : table) : Prop := db !! u = None /\ forall id r, db !! id = Some r -> LeaseToken r <> Some u.

Definition new_id {X} (e : eff X) (db : table) : X -> Prop :=
  match e in eff X return X -> Prop with ENewUUID => fun u => unused u db | _ => fun _ => True end.

(** A call, and then whatever the others do before the next one. [before]:
    the ids drawn before the handler began. *)
Definition among {P : Postgres} (faults : bool) (clock : Z) (before : gset UUID) : handler eff world := fun X e w x w' =>
  exists w1, database faults clock X e w x w1 /\ new_id e (w_db w) x /\ others (w_uuids w1 ∖ before) w1 w'.

(** *** What a delivery was told

    The answer of its last statement, or of its wait for a slot. *)
Inductive said := Quiet | Refused | Ended | Released | Errored (e : error).

Definition statement_said {A} (s : stmt A) (x : res A) : said :=
  match x with
  | Err e => if errors_Is e ErrNotClaimed then Refused else Errored e
  | Ok _ =>
      match s with
      | SMarkSucceeded _ _ _ _ | SMarkFailed _ _ _ _ | SMarkFailedWithoutProviderAttempt _ _ _ => Ended
      | SMarkWaitingForRequeue _ _ _ _ _ | SMarkCircuitOpenWaitingForRequeue _ _ _ _ => Released
      | _ => Quiet
      end
  end.

Definition note {X} (e : eff X) : X -> said -> said :=
  match e in eff X return X -> said -> said with
  | ENewUUID => fun _ _ => Quiet
  | ERepo s => fun x _ => statement_said s x
  | EAcquire _ => fun x g => match x with Some e => Errored e | None => g end
  | _ => fun _ g => g
  end.

Definition noted (H : handler eff world) : handler eff (world * said) := fun X e s x s' =>
  H X e s.1 x s'.1 /\ s'.2 = note e x s.2.

Section rules.
Context {P : Postgres}.

Lemma database_local faults clock X (e : eff X) w x w' : database faults clock X e w x w' -> local X e w x w'.
Proof using Type.
  destruct e; cbn; try done. intros [(now & _ & -> & ->)|(_ & e & now & -> & Hf & [->|(_ & ->)])]; eexists.
  - split; [apply sa_done|done].
  - split; [by apply sa_refused|]. by destruct w.
  - split; [by apply (sa_lost _ _ now)|done].
Qed.

Lemma others_refl mine w : others mine w w.
Proof using Type. repeat split. apply star_refl. Qed.

Lemma wp_among {X A} faults clock before (e : eff X) (k : X -> prog A) w (Q : A -> world -> Prop) :
  (forall x w1 w', database faults clock X e w x w1 -> new_id e (w_db w) x -> others (w_uuids w1 ∖ before) w1 w' ->
     wp (among faults clock before) (k x) w' Q) ->
  wp (among faults clock before) (Prog.bind (trigger e) k) w Q.
Proof using Type. intros H x w' (w1 & H1 & H2 & H3). by eapply H. Qed.

Lemma wp_noted {X A} faults clock before (e : eff X) (k : X -> prog A) w g (Q : A -> world * said -> Prop) :
  (forall x w1 w', database faults clock X e w x w1 -> new_id e (w_db w) x -> others (w_uuids w1 ∖ before) w1 w' ->
     wp (noted (among faults clock before)) (k x) (w', note e x g) Q) ->
  wp (noted (among faults clock before)) (Prog.bind (trigger e) k) (w, g) Q.
Proof using Type. intros H x [w' g'] [(w1 & H1 & H2 & H3) Hg]. cbn in *. subst. by eapply H. Qed.

(** Each call has some answer: [wp] among others is never vacuous. *)
Lemma among_total faults clock before X (e : eff X) w : exists x w', among faults clock before X e w x w'.
Proof using Type.
  destruct e as [| |A s|id|k|p o|p|k|k|ad ac action payload].
  2: { set (u := fresh (w_uuids w ∪ dom (w_db w) ∪ list_to_set (omap LeaseToken (map_to_list (w_db w)).*2))).
    pose proof (is_fresh (w_uuids w ∪ dom (w_db w) ∪ list_to_set (omap LeaseToken (map_to_list (w_db w)).*2))) as Hf. fold u in Hf.
    exists u, (set_uuids w ({[u]} ∪ w_uuids w)), (set_uuids w ({[u]} ∪ w_uuids w)). split; [|split; [|apply others_refl]].
    - split; [set_solver|done].
    - split; [apply not_elem_of_dom; set_solver|]. intros id r Hr E. apply Hf.
      apply elem_of_union_r, elem_of_list_to_set, list_elem_of_omap. exists r. split; [|done].
      apply list_elem_of_fmap. exists (id, r). split; [done|by apply elem_of_map_to_list]. }
  2: { exists (exec_stmt s clock (w_db w)).1, (set_db w (exec_stmt s clock (w_db w)).2), (set_db w (exec_stmt s clock (w_db w)).2).
    split; [|split; [done|apply others_refl]]. left. by exists clock. }
  all: match goal with |- exists x w', among _ _ _ _ ?e _ x w' => destruct (local_total _ e w) as (x & w' & Hl) end;
    exists x, w', w'; (split; [done|split; [done|apply others_refl]]).
Qed.
End rules.
