(* ===== verification/Publish.v ===== *)
(** * Publishing ([internal/publish/publish.go]) *)

From S2P Require Import Prelude Prog Errors Mq Store Effects.

(** [PublishAndMark]: the id goes to the broker; [enqueued_at] is set only
    after a durable receipt.  [uuid_string] prints an id in the messages. *)
Definition PublishAndMark (uuid_string : N -> string) (id : N) : prog (option error) :=
  (result <- trigger (EPublish id) ;;
   match result with
   | Err e => Ret (Some (EWrap ("publish " +:+ uuid_string id +:+ ": ")%string e EmptyString))
   | Ok r =>
       if negb (Durable r) then Ret None
       else
         err <- Repo_exec (SMarkEnqueued id) ;;
         match err with
         | Some e => Ret (Some (EWrap ("mark enqueued " +:+ uuid_string id +:+ ": ")%string e EmptyString))
         | None => Ret None
         end
   end)%prog.
