(* ===== verification/Processor.v ===== *)
(** * The delivery worker's processor ([internal/worker/processor.go],
      [internal/worker/request_log.go])

    One delivery from the broker through claim, provider call and final
    transition.  A handler's [error] result is what the broker backend sees:
    [None] acknowledges, a [RequeueError] asks for a delayed redelivery, any
    other error leaves the decision to the backend's default. *)

From S2P Require Import Prelude Prog Errors Json Domain Mq Provider Breaker Limiter Store Effects.

(** ** The request log *)

Definition failureReason (result : Result) : string :=
  let reason := Res_ErrorClass result in
  if string_empty reason then "PROVIDER_ERROR" else reason.

Definition providerRequestStatus (result : Result) : string * string :=
  if Success result then ("SUCCESS", EmptyString) else ("RETRYABLE_FAILURE", failureReason result).

(** [logProviderRequest]: the attributes of the one line per provider call;
    [uuid_string] prints the id, a nil logger logs nothing. *)
Definition logProviderRequest (logger : bool) (uuid_string : UUID -> string) (ev : Event) (ac : ActionContext)
    (result : Result) (latency : Z) : option (list (string * json)) :=
  if negb logger then None
  else
    let '(status, failureReason) := providerRequestStatus result in
    Some ([("event_id", JStr (uuid_string (ID ev))); ("source_system", JStr (SourceSystem ev));
           ("source_request_id", JStr (SourceRequestID ev)); ("attempt_number", JInt (AttemptCount ev));
           ("provider_code", JStr (ProviderCode ev)); ("provider_action", JStr (ProviderAction ev));
           ("timeout_ms", JInt (AC_TimeoutMs ac)); ("payload_bytes", JInt (Z.of_nat (String.length (Payload ev))));
           ("status", JStr status); ("latency_ms", JInt (Z.quot latency time_Millisecond));
           ("provider_response_bytes",
             JInt (match Res_ProviderResponse result with Some doc => Z.of_nat (String.length (print doc)) | None => 0 end))] ++
          (if string_empty failureReason then [] else [("failure_reason", JStr failureReason)])).

(** ** Results the worker makes itself *)

Definition unsupported_action : Result :=
  {| Success := false; AvailabilityFailure := false; Res_HTTPStatus := 0;
     Res_ErrorClass := "UNSUPPORTED_PROVIDER_ACTION";
     Res_Message := "provider action is no longer configured"; Res_ProviderResponse := None |}.

(** What [process] makes of an adapter's answer: the result it goes on with
    and what it tells the breaker. *)
Definition classify (result : option Result) (sendErr : option error) : Result * BreakerObservation :=
  match sendErr, result with
  | Some e, _ =>
      ({| Success := false; AvailabilityFailure := false; Res_HTTPStatus := 0;
          Res_ErrorClass := "ADAPTER_ERROR"; Res_Message := Error e; Res_ProviderResponse := None |}, BreakerIgnore)
  | None, None =>
      ({| Success := false; AvailabilityFailure := false; Res_HTTPStatus := 0;
          Res_ErrorClass := "ADAPTER_CONTRACT_VIOLATION"; Res_Message := "adapter returned a nil result";
          Res_ProviderResponse := None |}, BreakerIgnore)
  | None, Some r => (r, if AvailabilityFailure r then BreakerUnavailable else BreakerReachable)
  end.

(** ** Attempt arithmetic: [AttemptCount] is an [int16] *)

Definition int16 : Z -> Z := wrap_signed 16.

Definition real_attempts (ev : Event) : Z :=
  let n := int16 (AttemptCount ev - 1) in if n <? 0 then 0 else n.

(** [delivery.MaxAttempts > 0 && ev.AttemptCount > 0 && uint32(ev.AttemptCount) > delivery.MaxAttempts]. *)
Definition claimed_past_budget (d : Delivery) (ev : Event) : bool :=
  (0 <? MaxAttempts d) && (0 <? AttemptCount ev) && (MaxAttempts d <? uint32 (AttemptCount ev)).

Definition persistedAttemptsExhausted (d : Delivery) (ev : Event) : bool :=
  (0 <? MaxAttempts d) && (0 <? AttemptCount ev) && (MaxAttempts d <=? uint32 (AttemptCount ev)).

(** [d.Milliseconds()]. *)
Definition Milliseconds (d : Z) : Z := Z.quot d time_Millisecond.

(** ** Settling an attempt *)

Definition settle (err : option error) : option error :=
  if is_err err ErrNotClaimed then None else err.

Definition set_source (ac : ActionContext) (ss rid : string) : ActionContext :=
  {| AC_ProviderCode := AC_ProviderCode ac; AC_ProviderAction := AC_ProviderAction ac;
     BaseURL := BaseURL ac; AC_Path := AC_Path ac; AC_Method := AC_Method ac;
     Credential := Credential ac; AC_TimeoutMs := AC_TimeoutMs ac;
     AC_SourceSystem := ss; AC_SourceRequestID := rid;
     HasHTTPClient := HasHTTPClient ac; AllowedRespHeaders := AllowedRespHeaders ac |}.

Section processor.
Context {N : Type} (lookup : string -> string -> option (ResolvedAction N)) (LeaseDuration : Z).

Definition finishExhaustedBeforeProvider (ev : Event) (leaseToken : UUID) (maxAttempts : Z) : prog (option error) :=
  (let realAttempts := real_attempts ev in
   now <- trigger ENow ;;
   let lastResult := marshal_finished
     {| Outcome := OutcomeFailed; HTTPStatus := 0; ErrorClass := "MAX_PROVIDER_ATTEMPTS_EXHAUSTED";
        Message := ("maximum provider attempts (" +:+ strconv_Itoa maxAttempts +:+
                    ") were already exhausted before recovered delivery")%string;
        RequestMayHaveBeenSent := false; Retryable := false; Finished_NextAttemptAt := None;
        LatencyMs := 0; AttemptNumber := realAttempts; FinishedAt := now |} in
   err <- Repo_exec (SMarkFailedWithoutProviderAttempt (ID ev) leaseToken lastResult) ;;
   Ret (settle err))%prog.

Definition deferForOpenCircuit (ev : Event) (leaseToken : UUID) (d : Delivery) (retryAfter : Z) : prog (option error) :=
  (let realAttempts := real_attempts ev in
   let baseAttempt := if uint32 realAttempts =? 0 then 1 else uint32 realAttempts in
   let delay := RequeueDelayFor d baseAttempt in
   let delay := if delay <? retryAfter then retryAfter else delay in
   let delay := if delay <? 0 then 0 else delay in
   now <- trigger ENow ;;
   let nextAttemptAt := now + delay in
   let lastResult := marshal_finished
     {| Outcome := OutcomeRequeueRequested; HTTPStatus := 0; ErrorClass := "CIRCUIT_OPEN";
        Message := "provider action circuit is open"; RequestMayHaveBeenSent := false; Retryable := true;
        Finished_NextAttemptAt := Some nextAttemptAt; LatencyMs := 0;
        AttemptNumber := realAttempts; FinishedAt := now |} in
   let recoveryDeadline := nextAttemptAt + LeaseDuration in
   err <- Repo_exec (SMarkCircuitOpenWaitingForRequeue (ID ev) leaseToken recoveryDeadline lastResult) ;;
   match err with
   | Some _ => Ret (settle err)
   | None => Ret (Some (RequestRequeue (Some (EString "provider circuit is open")) delay false))
   end)%prog.

Definition releaseForRequeue (ev : Event) (leaseToken : UUID) (d : Delivery) (result : Result) (latency : Z) : prog (option error) :=
  (now <- trigger ENow ;;
   let requeueDelay := RequeueDelayFor d (uint32 (AttemptCount ev)) in
   let requeueDelay := if requeueDelay <? 0 then 0 else requeueDelay in
   let nextAttemptAt := now + requeueDelay in
   let lastResult := marshal_finished
     {| Outcome := OutcomeRequeueRequested; HTTPStatus := Res_HTTPStatus result;
        ErrorClass := Res_ErrorClass result; Message := Res_Message result;
        RequestMayHaveBeenSent := false; Retryable := true; Finished_NextAttemptAt := Some nextAttemptAt;
        LatencyMs := Milliseconds latency; AttemptNumber := AttemptCount ev; FinishedAt := now |} in
   let recoveryDeadline := nextAttemptAt + LeaseDuration in
   err <- Repo_exec (SMarkWaitingForRequeue (ID ev) leaseToken recoveryDeadline lastResult (Res_ProviderResponse result)) ;;
   match err with
   | Some _ => Ret (settle err)
   | None =>
       Ret (Some (RequestRequeue (Some (EString ("provider failure: " +:+ Res_ErrorClass result)%string)) requeueDelay true))
   end)%prog.

Definition retryOrFail (ev : Event) (leaseToken : UUID) (d : Delivery) (result : Result) (latency : Z) : prog (option error) :=
  (if persistedAttemptsExhausted d ev then
     now <- trigger ENow ;;
     let lastResult := marshal_finished
       {| Outcome := OutcomeFailed; HTTPStatus := Res_HTTPStatus result;
          ErrorClass := "MAX_PROVIDER_ATTEMPTS_EXHAUSTED";
          Message := ("maximum provider attempts (" +:+ strconv_Itoa (MaxAttempts d) +:+ ") exhausted after " +:+
                      Res_ErrorClass result +:+ ": " +:+ Res_Message result)%string;
          RequestMayHaveBeenSent := false; Retryable := false; Finished_NextAttemptAt := None;
          LatencyMs := Milliseconds latency; AttemptNumber := AttemptCount ev; FinishedAt := now |} in
     err <- Repo_exec (SMarkFailed (ID ev) leaseToken lastResult (Res_ProviderResponse result)) ;;
     Ret (settle err)
   else releaseForRequeue ev leaseToken d result latency)%prog.

(** The part of [process] after the provider answered. *)
Definition after_send (ev : Event) (leaseToken : UUID) (d : Delivery) (permit : BreakerPermit)
    (answer : option Result * option error) (latency : Z) : prog (option error) :=
  (let '(result, observation) := classify answer.1 answer.2 in
   trigger (EObserve permit observation) ;;;
   if Success result then
     now <- trigger ENow ;;
     let lastResult := marshal_finished
       {| Outcome := OutcomeSucceeded; HTTPStatus := Res_HTTPStatus result;
          ErrorClass := EmptyString; Message := EmptyString;
          RequestMayHaveBeenSent := false; Retryable := false; Finished_NextAttemptAt := None;
          LatencyMs := Milliseconds latency; AttemptNumber := AttemptCount ev; FinishedAt := now |} in
     err <- Repo_exec (SMarkSucceeded (ID ev) leaseToken lastResult (Res_ProviderResponse result)) ;;
     Ret (settle err)
   else retryOrFail ev leaseToken d result latency)%prog.

(** The part of [process] that runs with the concurrency slot held. *)
Definition with_slot (ev : Event) (leaseToken : UUID) (d : Delivery) (resolved : ResolvedAction N)
    (permit : BreakerPermit) : prog (option error) :=
  (err <- Repo_MarkRequesting (ID ev) leaseToken ;;
   match err with
   | Some _ => trigger (EAbort permit) ;;; Ret (settle err)
   | None =>
       err <- Repo_exec (SRenewLease (ID ev) leaseToken LeaseDuration) ;;
       match err with
       | Some _ => trigger (EAbort permit) ;;; Ret (settle err)
       | None =>
           let ac := set_source (RA_Context resolved) (SourceSystem ev) (SourceRequestID ev) in
           start <- trigger ENow ;;
           answer <- trigger (ESend (Ad_ProviderCode (RA_Adapter resolved)) ac (ProviderAction ev) (Payload ev)) ;;
           stop <- trigger ENow ;;
           after_send ev leaseToken d permit answer (time_Sub stop start)
       end
   end)%prog.

Definition process (ev : Event) (leaseToken : UUID) (d : Delivery) : prog (option error) :=
  (if claimed_past_budget d ev then finishExhaustedBeforeProvider ev leaseToken (MaxAttempts d)
   else
     match lookup (ProviderCode ev) (ProviderAction ev) with
     | None => retryOrFail ev leaseToken d unsupported_action 0
     | Some resolved =>
         let actionKey := key (ProviderCode ev) (ProviderAction ev) in
         decision <- trigger (EAllow actionKey) ;;
         if negb (Allowed decision) then deferForOpenCircuit ev leaseToken d (RetryAfter decision)
         else
           let permit := Permit decision in
           err <- trigger (EAcquire actionKey) ;;
           match err with
           | Some e => trigger (EAbort permit) ;;; Ret (Some e)
           | None =>
               r <- with_slot ev leaseToken d resolved permit ;;
               trigger (ERelease actionKey) ;;; Ret r
           end
     end)%prog.

Definition HandleDelivery (d : Delivery) : prog (option error) :=
  (leaseToken <- trigger ENewUUID ;;
   r <- Repo_Claim (EventID d) leaseToken LeaseDuration ;;
   match r with
   | Err e => if errors_Is e ErrNotClaimed then Ret None else Ret (Some e)
   | Ok ev => process ev leaseToken d
   end)%prog.
End processor.
