(* ===== verification/ProcessorSpec.v ===== *)
(** * What one delivery takes and gives back

    Theorems about the breakers, the slots and the attempt count of
    [HandleDelivery], against every answer the database (failures and lost
    replies included), the broker, the limiters and the provider can give.
    What its answer means while others act on the table is in
    [DeliverySpec]. *)

From S2P Require Import Prelude Prog Errors Json Domain Mq Provider Breaker Limiter Store Lifecycle Effects Processor.

#[local] Opaque marshal_finished marshal_claimed marshal_requesting.
#[local] Arguments outcome_is_requeue : simpl never.

(** ** The state of an attempt *)

Section attempt.
Context {P : Postgres}.

(** [ev] is what the claim returned and [r] the row now: ours, with the same
    count and identity. *)
Record attempt (w : world) (ev : Event) (tok : UUID) (r : Event) : Prop := {
  at_row : w_db w !! ID ev = Some r;
  at_lease : holds_lease tok r = true;
  at_count : AttemptCount r = AttemptCount ev;
  at_identity : same_identity ev r;
  at_range : 1 <= AttemptCount ev <= 32767;
}.

Lemma attempt_same_db w w' ev tok r : attempt w ev tok r -> w_db w' = w_db w -> attempt w' ev tok r.
Proof using Type. intros [] E. split; congruence || done. Qed.

Lemma transition_held db id tok f r :
  db !! id = Some r -> holds_lease tok r = true -> transition db id tok f = (Ok tt, <[id := f r]> db).
Proof using Type. intros E Hl. unfold transition, update_where. by rewrite E, Hl. Qed.

(** A statement guarded by the lease, run by its holder. *)
Lemma wp_transition (s : stmt unit) (f : Z -> Event -> Event) w ev tok r (Q : option error -> world -> Prop) :
  attempt w ev tok r ->
  (forall now, exec_stmt s now (w_db w) = transition (w_db w) (ID ev) tok (f now)) ->
  (forall now, Q None (set_db w (<[ID ev := f now r]> (w_db w)))) ->
  (forall e db', foreign_error e -> Q (Some e) (set_db w db')) ->
  wp local (Repo_exec s) w Q.
Proof using Type.
  intros [Hr Hl _ _ _] He H1 H2. apply (wp_exec _ (fun now => <[ID ev := f now r]> (w_db w))); [|done|done].
  intros now. rewrite He. by apply transition_held.
Qed.

Lemma uint32_count ev : 1 <= AttemptCount ev <= 32767 -> uint32 (AttemptCount ev) = AttemptCount ev.
Proof using Type. intros H. apply uint32_small. lia. Qed.

Lemma real_attempts_count ev : 1 <= AttemptCount ev <= 32767 -> real_attempts ev = AttemptCount ev - 1.
Proof using Type.
  intros H. unfold real_attempts, int16. rewrite wrap_signed_small by lia.
  by replace (AttemptCount ev - 1 <? 0) with false by lia.
Qed.
End attempt.

(** ** What an attempt ends with *)

Section outcome.
Context {P : Postgres} (LeaseDuration : Z).

Definition call_for (c : call) (row : Event) : Prop :=
  call_payload c = Payload row /\ call_action c = ProviderAction row /\
  AC_SourceSystem (call_ac c) = SourceSystem row /\ AC_SourceRequestID (call_ac c) = SourceRequestID row.

Definition reported_success (c : call) : Prop :=
  exists res, call_answer c = (Some res, None) /\ Success res = true.

(** The row waits for its redelivery [delay] from now. *)
Definition waiting_for (delay : Z) (row : Event) : Prop :=
  0 <= delay /\ EvStatus row = StatusProcessing /\ LeaseToken row = None /\ outcome_is_requeue row = true /\
  exists now, LeaseUntil row = Some (now + delay + LeaseDuration).

Lemma clamp_nonneg z : 0 <= (if z <? 0 then 0 else z).
Proof using Type. destruct (Z.ltb_spec z 0); lia. Qed.

Lemma As_RequestRequeue c delay b : 0 <= delay -> errors_As_Requeue (RequestRequeue c delay b) = Some (delay, b).
Proof using Type. intros H. cbn. by replace (delay <? 0) with false by lia. Qed.

Lemma exhausted_spec d ev : 1 <= AttemptCount ev <= 32767 ->
  persistedAttemptsExhausted d ev = true <-> 0 < MaxAttempts d <= AttemptCount ev.
Proof using Type.
  intros Hr. unfold persistedAttemptsExhausted. rewrite uint32_count by done.
  rewrite !andb_true_iff, !Z.ltb_lt, Z.leb_le. lia.
Qed.

Lemma past_budget_spec d ev : 1 <= AttemptCount ev <= 32767 ->
  claimed_past_budget d ev = true <-> 0 < MaxAttempts d < AttemptCount ev.
Proof using Type.
  intros Hr. unfold claimed_past_budget. rewrite uint32_count by done.
  rewrite !andb_true_iff, !Z.ltb_lt. lia.
Qed.

Lemma classify_success result err : Success (classify result err).1 = true -> exists res, result = Some res /\ err = None /\ (classify result err).1 = res.
Proof using Type. destruct err, result; cbn; naive_solver. Qed.
End outcome.

(** ** The claim *)

Section claim.
Context {P : Postgres}.

(** What a handler goes on with after [Claim]. *)
Definition claimed (id tok : UUID) (w : world) (x : res Event) (w' : world) : Prop :=
  match x with
  | Ok ev => ID ev = id /\ attempt w' ev tok ev /\ LastResult ev <> None /\
             exists db r, w' = set_db w db /\ w_db w !! id = Some r /\
               AttemptCount ev = AttemptCount r + 1 /\ same_identity r ev
  | Err e => errors_Is e ErrNotClaimed = true \/ errors_As_Requeue e = None
  end.

Lemma Claim_claimed id tok dur w :
  table_wf (w_db w) -> wp local (Repo_Claim id tok dur) w (claimed id tok w).
Proof using Type.
  intros Hw. apply wp_now. intros t. apply wp_repo. intros x db' Hx.
  destruct Hx as [now|e Hf|now e Hf].
  - cbn. unfold Claim. destruct (w_db w !! id) as [r|] eqn:Er; [|by left].
    destruct (claimable now r) eqn:Ec; [|by left].
    destruct (Z.ltb_spec 32767 (AttemptCount r + 1)); cbn; [by right|].
    destruct (wf_row _ Hw _ _ Er) as [Hr _]. pose proof (wf_id _ Hw _ _ Er) as Hid. subst.
    split; [done|]. split; [|split; [done|by eexists _, r]].
    split; cbn; try done; [apply lookup_insert_eq| |lia].
    by apply holds_lease_spec.
  - right. by apply Hf.
  - right. by apply Hf.
Qed.
End claim.

(** ** The table stays well formed *)

Definition writes_ok X (e : eff X) : Prop := match e with ERepo s => stmt_ok s | _ => True end.

Lemma wp_writes_ok `{Postgres} {A} (p : prog A) w : only writes_ok p -> table_wf (w_db w) -> wp local p w (fun _ w' => table_wf (w_db w')).
Proof.
  intros Hp Hw. apply (wp_only local writes_ok (fun w => table_wf (w_db w))); [|done|done].
  intros X e s x s' He Hs Hl. destruct e as [| |A' st|id|k|pm o|pm|k|k|ad ac action payload]; cbn in Hl.
  3: { destruct Hl as (db' & [now|e' _|now e' _] & ->); [|done|];
       (eapply table_step_wf; [by apply (exec_stmt_step _ now)|done]). }
  all: by naive_solver.
Qed.

Ltac ok_leaf :=
  idtac; match goal with
  | |- writes_ok _ _ => first [exact I | cbn [writes_ok stmt_ok]; first [exact I | apply finished_outcome]]
  | |- only _ (Repo_exec _) => unfold Repo_exec
  end.

Lemma retryOrFail_writes_ok LeaseDuration ev tok d result latency : only writes_ok (retryOrFail LeaseDuration ev tok d result latency).
Proof. unfold retryOrFail, releaseForRequeue. only_steps ok_leaf. Qed.

Lemma with_slot_writes_ok {N} LeaseDuration ev tok d (resolved : ResolvedAction N) permit :
  only writes_ok (with_slot LeaseDuration ev tok d resolved permit).
Proof.
  unfold with_slot, Repo_MarkRequesting. only_steps ok_leaf.
  unfold after_send. destruct (classify _ _). only_steps ok_leaf. apply retryOrFail_writes_ok.
Qed.

Lemma HandleDelivery_writes_ok {N} (lookup : string -> string -> option (ResolvedAction N)) LeaseDuration d :
  only writes_ok (HandleDelivery lookup LeaseDuration d).
Proof.
  unfold HandleDelivery, Repo_Claim, process, finishExhaustedBeforeProvider, deferForOpenCircuit.
  only_steps ok_leaf; first [apply retryOrFail_writes_ok|apply with_slot_writes_ok].
Qed.

(** ** Resources *)

(** No half-open probe is out at any of the process's breakers. *)
Definition no_probe (m : Breakers) : Prop := forall k b, m !! k = Some b -> halfOpenInFlight b = false.

(** Only the permit's own breaker is away from rest, and the permit can put
    it back. *)
Definition probe_of (p : BreakerPermit) (m : Breakers) : Prop :=
  forall k b, m !! k = Some b ->
    halfOpenInFlight b = true ->
    permit_breaker p = Some k /\ permit_halfOpen p = true /\ permit_generation p = generation b.

(** Breakers are stored under their own keys. *)
Definition keyed (m : Breakers) : Prop := forall k b, m !! k = Some b -> b_key b = k.

Lemma transitionLocked_fields b st :
  generation (transitionLocked b st) = generation b /\ b_key (transitionLocked b st) = b_key b /\
  halfOpenInFlight (transitionLocked b st) = halfOpenInFlight b.
Proof. unfold transitionLocked. by case_decide. Qed.

Lemma probe_insert p k b m :
  no_probe m ->
  (halfOpenInFlight b = true ->
   permit_breaker p = Some k /\ permit_halfOpen p = true /\ permit_generation p = generation b) ->
  probe_of p (<[k := b]> m).
Proof.
  intros Hn Hb k' b'. rewrite lookup_insert. case_decide; intros; simplify_eq; [auto|].
  match goal with H : m !! _ = Some _ |- _ => by rewrite (Hn _ _ H) in * end.
Qed.

Lemma Allow_probe now m k : keyed m -> no_probe m ->
  let '(d, m') := Allow now m k in
  keyed m' /\ if Allowed d then probe_of (Permit d) m' else m' = m.
Proof.
  intros Hk Hn. unfold Allow.
  destruct (m !! k) as [b|] eqn:E; [|split; [done|intros k' b' Hb Hf; by rewrite (Hn _ _ Hb) in Hf]].
  pose proof (Hk _ _ E) as Hkb.
  assert (forall b', b_key b' = k -> keyed (<[k := b']> m)) as Hki.
  { intros b' ? k' b''. rewrite lookup_insert. case_decide; intros; simplify_eq; eauto. }
  destruct (transitionLocked_fields b breakerHalfOpen) as (Hg & Hkk & _).
  unfold allow. rewrite (Hn _ _ E). destruct (b_state b); cbn.
  - split; [by apply Hki|]. apply probe_insert; [done|]. by rewrite (Hn _ _ E).
  - destruct (before_open_until now b); cbn; [split; [by apply Hki|by rewrite insert_id]|].
    split; [by apply Hki; cbn; rewrite Hkk|]. apply probe_insert; [done|]. cbn. by rewrite Hkk, Hkb.
  - split; [by apply Hki|]. apply probe_insert; [done|]. cbn. by rewrite Hkb.
Qed.

Lemma alter_probe p k f m :
  (forall b, b_key (f b) = b_key b) ->
  (forall b, halfOpenInFlight b = false -> halfOpenInFlight (f b) = false) ->
  (forall b, permit_halfOpen p = true -> permit_generation p = generation b -> halfOpenInFlight (f b) = false) ->
  permit_breaker p = Some k -> keyed m -> probe_of p m ->
  keyed (alter f k m) /\ no_probe (alter f k m).
Proof.
  intros Hkf Hf1 Hf2 Hpk Hk Hp. split; intros k' b' Hb; rewrite lookup_alter in Hb; case_decide; subst.
  - apply fmap_Some in Hb as (b & Hb & ->). rewrite Hkf. by apply Hk.
  - by apply Hk.
  - apply fmap_Some in Hb as (b & Hb & ->). destruct (halfOpenInFlight b) eqn:Ef; [|auto].
    destruct (Hp _ _ Hb Ef) as (_ & ? & ?). auto.
  - apply not_true_iff_false. intros Ef. destruct (Hp _ _ Hb Ef) as (? & _). congruence.
Qed.

Lemma no_permit_probe p m : permit_breaker p = None -> probe_of p m -> no_probe m.
Proof.
  intros Hp Hm k b Hb. apply not_true_iff_false. intros Hf.
  destruct (Hm _ _ Hb Hf) as (? & _). congruence.
Qed.

Lemma openLocked_fields now b : b_key (openLocked now b) = b_key b /\ halfOpenInFlight (openLocked now b) = false.
Proof.
  unfold openLocked. destruct (transitionLocked_fields (set_inflight (next_generation b (Some (now + openDuration b))) false) breakerOpen)
    as (_ & -> & ->). by cbn.
Qed.

Lemma observe_key now p obs b : b_key (observe now p obs b) = b_key b.
Proof.
  unfold observe. repeat case_match; try done;
    rewrite ?(proj1 (openLocked_fields _ _)), ?(proj1 (proj2 (transitionLocked_fields _ _))); done.
Qed.

Lemma observe_rest now p obs b : halfOpenInFlight b = false -> halfOpenInFlight (observe now p obs b) = false.
Proof.
  intros H. unfold observe. repeat case_match; try done;
    rewrite ?(proj2 (openLocked_fields _ _)), ?(proj2 (proj2 (transitionLocked_fields _ _))); done.
Qed.

Lemma observe_probe now p obs b : permit_halfOpen p = true -> permit_generation p = generation b ->
  halfOpenInFlight (observe now p obs b) = false.
Proof.
  intros Hh Hg. unfold observe. rewrite Hg, Z.eqb_refl, Hh. cbn [negb].
  repeat case_match; try done;
    rewrite ?(proj2 (openLocked_fields _ _)), ?(proj2 (proj2 (transitionLocked_fields _ _))); done.
Qed.

Lemma Observe_no_probe now m p obs : keyed m -> probe_of p m ->
  keyed (Observe now m p obs) /\ no_probe (Observe now m p obs).
Proof.
  intros Hk Hp. unfold Observe. destruct (permit_breaker p) as [k|] eqn:E; [|by eauto using no_permit_probe].
  apply (alter_probe p); try done; [apply observe_key|apply observe_rest|apply observe_probe].
Qed.

Lemma Abort_no_probe m p : keyed m -> probe_of p m -> keyed (Abort m p) /\ no_probe (Abort m p).
Proof.
  intros Hk Hp. unfold Abort. destruct (permit_breaker p) as [k|] eqn:E; [|by eauto using no_permit_probe].
  apply (alter_probe p); try done; intros b; unfold abort.
  - by case_match.
  - by case_match.
  - intros -> ->. by rewrite Z.eqb_refl.
Qed.

(** Programs that only read the clock and talk to the database. *)
Definition db_only : protocol eff unit := fun X e _ _ =>
  match e with ENow | ERepo _ => Some tt | _ => None end.

Lemma wp_db_only `{Postgres} {A} (p : prog A) w :
  follows db_only tt p -> wp local p w (fun _ w' => exists db, w' = set_db w db).
Proof.
  revert w. induction p as [a|X e k IH]; intros w Hp; cbn in *; [by exists (w_db w); destruct w|].
  intros x w1 Hx. destruct (Hp x) as ([] & He & Ho).
  destruct e; cbn in *; simplify_eq.
  - by apply IH.
  - destruct Hx as (db' & _ & ->). eapply wp_mono; [by apply IH|]. by intros ? ? [db ->]; exists db.
Qed.

Ltac solve_db_only := cbn; intros; repeat (eexists; split; [reflexivity|]; cbn; intros); repeat case_match; try done.

Section resources.
Context {P : Postgres} {N : Type} (lookup : string -> string -> option (ResolvedAction N)) (LeaseDuration : Z).

Lemma settle_db_only (s : stmt unit) (k : option error -> prog (option error)) :
  (forall e, follows db_only tt (k e)) -> follows db_only tt (Prog.bind (Repo_exec s) k).
Proof using Type. intros Hk x. exists tt. split; [done|]. cbn. apply Hk. Qed.

Lemma retry_db_only ev tok d result latency :
  follows db_only tt (retryOrFail LeaseDuration ev tok d result latency).
Proof using Type.
  unfold retryOrFail, releaseForRequeue. case_match; intros t; exists tt; (split; [done|]);
    apply settle_db_only; intros e; by repeat case_match.
Qed.

Lemma defer_db_only ev tok d after : follows db_only tt (deferForOpenCircuit LeaseDuration ev tok d after).
Proof using Type.
  intros t; exists tt; (split; [done|]); apply settle_db_only; intros e; by repeat case_match.
Qed.

Lemma finish_db_only ev tok mx : follows db_only tt (finishExhaustedBeforeProvider ev tok mx).
Proof using Type. intros t; exists tt; (split; [done|]); by apply settle_db_only. Qed.

Lemma MarkRequesting_db_only id tok : follows db_only tt (Repo_MarkRequesting id tok).
Proof using Type. intros t. exists tt. split; [done|]. intros x. by exists tt. Qed.

Lemma RenewLease_db_only id tok d : follows db_only tt (Repo_exec (SRenewLease id tok d)).
Proof using Type. intros t. by exists tt. Qed.

(** At rest: no probe out, and the concurrency slots in use are [n]. *)
Definition at_rest (n : string -> Z) (w : world) : Prop :=
  keyed (w_breakers w) /\ no_probe (w_breakers w) /\ forall k, sem_holds (w_limiters w) k (n k).

Definition busy (p : BreakerPermit) (n : string -> Z) (w : world) : Prop :=
  keyed (w_breakers w) /\ probe_of p (w_breakers w) /\ forall k, sem_holds (w_limiters w) k (n k).

Lemma busy_rest p n w obs t : busy p n w -> at_rest n (set_breakers w (Observe t (w_breakers w) p obs)).
Proof using Type. intros (H1 & H2 & H3). destruct (Observe_no_probe t _ _ obs H1 H2). by repeat split. Qed.

Lemma busy_abort p n w : busy p n w -> at_rest n (set_breakers w (Abort (w_breakers w) p)).
Proof using Type. intros (H1 & H2 & H3). destruct (Abort_no_probe _ _ H1 H2). by repeat split. Qed.

Lemma with_slot_rest ev tok d (resolved : ResolvedAction N) permit n w :
  busy permit n w -> wp local (with_slot LeaseDuration ev tok d resolved permit) w (fun _ w' => at_rest n w').
Proof using Type.
  intros Hb. unfold with_slot. apply wp_bind.
  eapply wp_mono; [apply wp_db_only, MarkRequesting_db_only|]. intros [e|] ? [db1 ->].
  { intros [] w2 ->. by apply (busy_abort _ _ (set_db w db1)). }
  apply wp_bind. eapply wp_mono; [apply wp_db_only, RenewLease_db_only|]. intros [e|] ? [db2 ->].
  { intros [] w2 ->. by apply (busy_abort _ _ (set_db w db2)). }
  apply wp_now. intros start. apply wp_bind, wp_trigger. intros answer ? ->. apply wp_now. intros stop.
  unfold after_send. destruct (classify answer.1 answer.2) as [result obs].
  intros [] ? (t & ->). cbn [Prog.bind].
  eapply wp_mono; [apply wp_db_only|intros ? ? [db ->]; by apply (busy_rest permit n (set_db w db) obs t)].
  destruct (Success result); [|apply retry_db_only].
  intros t'. exists tt. split; [done|]. by apply settle_db_only.
Qed.

Lemma process_rest ev tok d n w :
  at_rest n w -> wp local (process lookup LeaseDuration ev tok d) w (fun _ w' => at_rest n w').
Proof using Type.
  intros Hr. assert (forall p : prog (option error), follows db_only tt p -> wp local p w (fun _ w' => at_rest n w')) as Hdb.
  { intros p Hp. eapply wp_mono; [by apply wp_db_only|]. by intros ? ? [db ->]. }
  unfold process. destruct (claimed_past_budget d ev); [by apply Hdb, finish_db_only|].
  destruct (lookup _ _) as [resolved|]; [|by apply Hdb, retry_db_only].
  apply wp_bind, wp_trigger. intros decision ? (t & -> & ->).
  set (ak := key _ _). destruct Hr as (H1 & H2 & H3).
  pose proof (Allow_probe t _ ak H1 H2) as Ha. destruct (Allow t (w_breakers w) ak) as [dec m]. cbn [fst snd].
  cbv beta iota in Ha. destruct Ha as [Hk Ha]. destruct (Allowed dec) eqn:Ea; cbn [negb].
  - apply wp_bind, wp_trigger. intros err ? (wait & done & l & Hf & Hacq & ->). destruct err as [e|].
    + apply Acquire_refused in Hacq. subst l. intros [] ? ->.
      by apply (busy_abort _ n (set_breakers w m)).
    + apply wp_bind. eapply wp_mono.
      * apply (with_slot_rest _ _ _ _ _ (fun k => if decide (k = ak) then n k + 1 else n k)).
        split; [done|]. split; [done|]. intros k. cbn. case_decide.
        -- subst. by eapply Acquire_holds.
        -- unfold sem_holds. rewrite (Acquire_other _ _ _ _ _ _ _ Hacq) by done. apply H3.
      * intros res w3 (G1 & G2 & G3) [] ? ->. repeat split; [done..|]. intros k. cbn.
        specialize (G3 k). case_decide.
        -- subst. replace (n ak) with (n ak + 1 - 1) by lia. by apply Release_holds.
        -- unfold sem_holds. by rewrite Release_other.
  - subst. eapply wp_mono; [apply wp_db_only, defer_db_only|]. by intros ? ? [db ->].
Qed.
End resources.

(** C7: A delivery gives back what it takes, on every path, whatever fails:
    a half-open probe it was admitted as is observed or aborted, and the
    concurrency slot it acquired is released. *)
Theorem HandleDelivery_releases `{Postgres} {N} (lookup : string -> string -> option (ResolvedAction N)) LeaseDuration d n w :
  at_rest n w -> wp local (HandleDelivery lookup LeaseDuration d) w (fun _ w' => at_rest n w').
Proof.
  intros Hr. apply wp_bind, wp_trigger. intros tok ? (_ & ->). apply wp_bind.
  eapply wp_mono.
  - apply wp_db_only. intros t. exists tt. split; [done|]. intros x. by exists tt.
  - intros [ev|e] ? [db ->]; [by apply process_rest|]. by destruct (errors_Is e _).
Qed.

Lemma Claim_db_only id tok dur : follows db_only tt (Repo_Claim id tok dur).
Proof. intros t. exists tt. split; [done|]. intros x. by exists tt. Qed.

Lemma Allow_refused now m k : Allowed (Allow now m k).1 = false -> (Allow now m k).2 = m.
Proof.
  unfold Allow. destruct (m !! k) as [b|] eqn:E; cbn; [|done].
  pose proof (allow_refusal now b) as Hr. destruct (allow now b) as [d b']. cbn in *.
  intros Ha. rewrite (Hr Ha). by apply insert_id.
Qed.

Lemma defer_free `{Postgres} LeaseDuration ev tok r d after w :
  attempt w ev tok r ->
  wp local (deferForOpenCircuit LeaseDuration ev tok d after) w (fun err w' =>
    (exists db, w' = set_db w db) /\
    forall e delay backoff, err = Some e -> errors_As_Requeue e = Some (delay, backoff) ->
      backoff = false /\ delay = Z.max 0 (Z.max (RequeueDelayFor d (Z.max 1 (AttemptCount ev - 1))) after) /\
      exists r', w_db w' !! ID ev = Some r' /\ AttemptCount r' = AttemptCount ev - 1 /\ ProviderResponse r' = None).
Proof.
  intros Ha. pose proof (at_range _ _ _ _ Ha) as Hg.
  apply wp_now. intros t. cbn zeta. apply wp_bind.
  eapply wp_transition; [done|done|..].
  - intros now. cbn [wp]. split; [by eexists|]. intros e delay backoff [= <-].
    rewrite As_RequestRequeue by apply clamp_nonneg. intros [= <- <-].
    rewrite real_attempts_count, uint32_small by lia.
    split; [done|]. split.
    + replace (if AttemptCount ev - 1 =? 0 then 1 else AttemptCount ev - 1) with (Z.max 1 (AttemptCount ev - 1))
        by (destruct (Z.eqb_spec (AttemptCount ev - 1) 0); lia).
      repeat case_match; bool_to_prop; lia.
    + eexists. split; [apply lookup_insert_eq|]. cbn. rewrite (at_count _ _ _ _ Ha). unfold greatest0. split; [lia|done].
  - intros e db' Hf. split; [by eexists|]. intros e' delay backoff. unfold settle.
    rewrite (foreign_not_claimed _ Hf). intros [= <-]. by rewrite (foreign_not_requeue _ Hf).
Qed.

(** The breaker refuses at [now] for [rest] longer: the circuit is open, or
    half open with its probe out. *)
Definition circuit_refuses (now : Z) (b : actionBreaker) (rest : Z) : Prop :=
  (b_state b = breakerOpen /\ exists until, openUntil b = Some until /\ now < until /\ rest = Z.min max_int64 (until - now)) \/
  (b_state b = breakerHalfOpen /\ halfOpenInFlight b = true /\ rest = 0).

Lemma Allow_refuses now m k : Allowed (Allow now m k).1 = false ->
  exists b, m !! k = Some b /\ circuit_refuses now b (RetryAfter (Allow now m k).1).
Proof.
  unfold Allow. destruct (m !! k) as [b|]; [|done]. unfold allow, before_open_until, circuit_refuses. intros Ha. exists b. split; [done|].
  destruct (b_state b); [done| |].
  - destruct (openUntil b) as [t|]; [|done]. destruct (Z.ltb_spec now t); [|done]. left. split; [done|]. exists t. cbn.
    split; [done|]. split; [done|]. unfold time_Sub. pose proof (eq_refl : min_int64 <? 0 = true) as Hm. unfold min_int64, max_int64 in *. lia.
  - destruct (halfOpenInFlight b); [|done]. by right.
Qed.

(** The runs in which the breaker [k], when it is asked, refuses. *)
Definition refusing `{Postgres} (k : string) : handler eff world := fun X e w x w' =>
  local X e w x w' /\ match e in eff X return X -> Prop with EAllow k' => fun d => k' = k -> Allowed d = false | _ => fun _ => True end x.

Lemma wp_refusing `{Postgres} {A} k (p : prog A) w Q : wp local p w Q -> wp (refusing k) p w Q.
Proof. apply wp_smaller. by intros X e s x s' [Hl _]. Qed.

(** C26: A breaker that is open until some instant refuses at exactly the
    instants before it. A delivery whose action's breaker refuses when it is
    asked calls no provider, changes no breaker and no limiter and costs the
    event no attempt: when it asks for a redelivery the stored count is what
    it was before the claim, and the delay is the linear delay of the real
    attempts, or the time the circuit stays open where that is longer. *)
Theorem open_circuit_is_free `{Postgres} {N} (lookup : string -> string -> option (ResolvedAction N)) LeaseDuration d w r resolved :
  table_wf (w_db w) -> w_db w !! EventID d = Some r ->
  (MaxAttempts d = 0 \/ AttemptCount r < MaxAttempts d) ->
  lookup (ProviderCode r) (ProviderAction r) = Some resolved ->
  let k := key (ProviderCode r) (ProviderAction r) in
  (forall b until now, w_breakers w !! k = Some b -> b_state b = breakerOpen -> openUntil b = Some until ->
     Allowed (Allow now (w_breakers w) k).1 = (until <=? now)) /\
  wp (refusing k) (HandleDelivery lookup LeaseDuration d) w (fun err w' =>
    w_calls w' = w_calls w /\ w_breakers w' = w_breakers w /\ w_limiters w' = w_limiters w /\
    forall e delay backoff, err = Some e -> errors_As_Requeue e = Some (delay, backoff) ->
      backoff = false /\
      (exists now b rest, w_breakers w !! k = Some b /\ circuit_refuses now b rest /\
         delay = Z.max 0 (Z.max (RequeueDelayFor d (Z.max 1 (AttemptCount r))) rest)) /\
      exists r', w_db w' !! EventID d = Some r' /\ AttemptCount r' = AttemptCount r /\ ProviderResponse r' = None).
Proof.
  intros Hw Hr Hmax Hl k. split.
  { intros b until now Hb Hst Hu. unfold Allow. rewrite Hb. unfold allow, before_open_until. rewrite Hst, Hu.
    destruct (Z.ltb_spec now until), (Z.leb_spec until now); (done || lia). }
  apply wp_bind. intros tok w1 [(_ & ->) _]. apply wp_bind.
  eapply wp_mono; [apply wp_refusing, wp_conj; [by apply Claim_claimed|apply wp_db_only, Claim_db_only]|].
  intros [ev|e] ? [Hc [db ->]]; cbn in Hc.
  - destruct Hc as (Hid & Ha & _ & db0 & r0 & _ & E0 & Hcnt & Hsame). cbn in E0. rewrite Hr in E0. simplify_eq.
    destruct (wf_row _ Hw _ _ Hr) as [Hrange _]. destruct Hsame as (_ & _ & _ & Hpc & Hpa & _).
    unfold process. destruct (claimed_past_budget d ev) eqn:Ep.
    { apply past_budget_spec in Ep; [|apply Ha]. lia. }
    rewrite Hpc, Hpa, Hl. apply wp_bind. intros decision ? [(t & -> & ->) Hno]. cbn [w_breakers set_db set_uuids].
    specialize (Hno eq_refl). cbn in Hno. rewrite (Allow_refused _ _ _ Hno). cbn [wp]. rewrite Hno. cbn [negb].
    destruct (Allow_refuses _ _ _ Hno) as (b & Hb & Hrest).
    apply wp_refusing. eapply wp_mono; [eapply defer_free; by eapply attempt_same_db|].
    intros err w' ([db' ->] & He). split; [done|split; [done|split; [done|]]]. intros e2 delay backoff -> Hq.
    destruct (He _ _ _ eq_refl Hq) as (-> & -> & r' & Hr' & Hc' & Hp'). split; [done|]. split.
    + exists t, b. eexists. split; [done|]. split; [done|]. by rewrite Hcnt, Z.add_simpl_r.
    + exists r'. rewrite <- Hid. split; [done|]. split; [lia|done].
  - assert (w_calls (set_db (set_uuids w ({[tok]} ∪ w_uuids w)) db) = w_calls w) as Hcalls by done.
    destruct (errors_Is e ErrNotClaimed) eqn:En; cbn; (split; [done|split; [done|split; [done|]]]); [done|].
    intros e' delay backoff [= <-]. destruct Hc as [?|Hc]; congruence.
Qed.
