(* ===== verification/DeliverySpec.v ===== *)
(** * What one delivery guarantees

    [HandleDelivery] among any other processes ([Among]): whatever they do to
    the table between two of its calls, whatever the broker, the limiters,
    the breakers and the provider answer, and with or without database
    failures and lost replies. *)

From S2P Require Import Prelude Prog Errors Json Domain Mq Provider Breaker Limiter Store Lifecycle Effects Among Processor ProcessorSpec.

#[local] Opaque marshal_finished marshal_claimed marshal_requesting.
#[local] Arguments outcome_is_requeue : simpl never.

(** ** What the broker's answer means *)

(** A claim of event [id] among others that began with [db0]: the row [r0] it
    took in [db], unleased and not yet ended. *)
Definition claimed_row (id : UUID) (db0 db : table) (r0 : Event) : Prop :=
  evolves db0 db /\ db !! id = Some r0 /\ LeaseToken r0 = None /\ ~ terminal r0.

(** At some instant since the delivery began there was nothing to claim: no
    row, or one that is not due, has ended, or is leased, and not to a token
    of this delivery. *)
Definition claim_refused (clock : Z) (id : UUID) (w w' : world) : Prop :=
  exists db now, clock <= now /\ evolves (w_db w) db /\ evolves db (w_db w') /\
    match db !! id with
    | Some r => claimable now r = false /\ forall tok, LeaseToken r = Some tok -> tok ∉ w_uuids w' ∖ w_uuids w
    | None => True
    end.

(** The delivery's lease expired while it worked: the recovery scan released
    the event, with this attempt counted, for another delivery. *)
Definition taken_over (id : UUID) (db0 db' : table) : Prop :=
  exists dbc r0 db r, claimed_row id db0 dbc r0 /\ evolves dbc db /\ evolves db db' /\
    db !! id = Some r /\ EvStatus r = StatusProcessing /\ LeaseToken r = None /\ outcome_is_requeue r = true /\
    AttemptCount r = AttemptCount r0 + 1.

(** The attempt counter of the event is full and the claim an error. *)
Definition counter_full (id : UUID) (db0 : table) (e : error) : Prop :=
  errors_As_PgCode e = Some "22003"%string /\
  exists db r, evolves db0 db /\ db !! id = Some r /\ AttemptCount r = 32767.

(** The event has ended, by this delivery. *)
Definition ended_by (d : Delivery) (w w' : world) : Prop :=
  exists row, w_db w' !! EventID d = Some row /\
    ((EvStatus row = StatusSucceeded /\ exists c, w_calls w' = c :: w_calls w /\ call_for c row /\ reported_success c) \/
     (EvStatus row = StatusFailed /\ 0 < MaxAttempts d <= AttemptCount row)).

(** This delivery released the event for a redelivery after [delay]. *)
Definition released_by (LeaseDuration : Z) (d : Delivery) (delay : Z) (backoff : bool) (w w' : world) : Prop :=
  exists dbc r0 db row, claimed_row (EventID d) (w_db w) dbc r0 /\ evolves dbc db /\ evolves db (w_db w') /\
    db !! EventID d = Some row /\ waiting_for LeaseDuration delay row /\
    if backoff then AttemptCount row = AttemptCount r0 + 1 /\ (0 < MaxAttempts d -> AttemptCount row < MaxAttempts d)
    else AttemptCount row = AttemptCount r0.

(** What the backend may conclude from the handler's result, given what the
    delivery was told last. *)
Definition handled (LeaseDuration : Z) (faults : bool) (clock : Z) (d : Delivery) (w : world) (err : option error) (s : world * said) : Prop :=
  let '(w', g) := s in
  match err with
  | None =>
      (g = Refused /\ claim_refused clock (EventID d) w w' /\ w_calls w' = w_calls w) \/
      (g = Refused /\ taken_over (EventID d) (w_db w) (w_db w')) \/
      (g = Ended /\ ended_by d w w')
  | Some e =>
      match errors_As_Requeue e with
      | Some (delay, backoff) => g = Released /\ released_by LeaseDuration d delay backoff w w'
      | None =>
          g = Errored e /\ errors_Is e ErrNotClaimed = false /\
          (faults = false -> (foreign_error e /\ w_calls w' = w_calls w) \/ counter_full (EventID d) (w_db w) e)
      end
  end.

Lemma local_evolves `{Postgres} X (e : eff X) w x w' : writes_ok X e -> local X e w x w' -> evolves (w_db w) (w_db w').
Proof.
  intros He Hl. destruct e as [| |A' st|id|k|pm o|pm|k|k|ad ac action payload]; cbn in Hl.
  3: { destruct Hl as (db' & [now|e' _|now e' _] & ->); [|done|]; (eapply evolves_step; by apply (exec_stmt_step _ now)). }
  all: by (destruct_and?; repeat match goal with H : exists _, _ |- _ => destruct H; destruct_and? end; subst w').
Qed.

(** Every call of a handler, and what follows it, is a step of the table. *)
Lemma noted_evolves `{Postgres} {A} faults clock before (p : prog A) w g :
  only writes_ok p -> wp (noted (among faults clock before)) p (w, g) (fun _ s' => evolves (w_db w) (w_db s'.1)).
Proof.
  intros Hp. apply (wp_only (noted (among faults clock before)) writes_ok (fun s' => evolves (w_db w) (w_db s'.1))); [|done|done].
  intros X e s x s' He Hs [(w1 & Hl%database_local & _ & Ho & _) _]. etrans; [exact Hs|]. etrans; [|by eapply rely_evolves].
  by eapply local_evolves.
Qed.

(** The ids drawn stay drawn. *)
Lemma noted_draws `{Postgres} {A} before faults clock (p : prog A) w g :
  wp (noted (among faults clock before)) p (w, g) (fun _ s' => w_uuids w ⊆ w_uuids s'.1).
Proof.
  apply (wp_invariant (noted (among faults clock before)) (fun s' => w_uuids w ⊆ w_uuids s'.1)); [|done].
  intros X e s x s' Hs [(w1 & Hl%database_local & _ & (_ & Hu & _)) _]. rewrite Hu. etrans; [exact Hs|].
  destruct e; cbn in Hl; destruct_and?; repeat match goal with H : exists _, _ |- _ => destruct H; destruct_and? end;
    match goal with H : w1 = _ |- _ => rewrite H end; cbn; set_solver.
Qed.

Section delivery.
Context {P : Postgres} (LeaseDuration : Z).
Context (faults : bool) (clock : Z) (before : gset UUID) (d : Delivery) (w0 : world) (Hw0 : table_wf (w_db w0)).

Abbreviation H := (noted (among faults clock before)).
Abbreviation db0 := (w_db w0).
Abbreviation post := (handled LeaseDuration faults clock d w0).

(** ** The state of an attempt

    [ev] is what the claim returned, [r0] the row it took. Its lease is held,
    or was taken over. *)
Definition held (ev : Event) (tok : UUID) (db : table) : Prop :=
  exists r, db !! ID ev = Some r /\ holds_lease tok r = true /\ AttemptCount r = AttemptCount ev /\ same_identity ev r.

Definition lost (ev : Event) (tok : UUID) (dbc db : table) : Prop :=
  (exists db1 r1, evolves dbc db1 /\ evolves db1 db /\ db1 !! ID ev = Some r1 /\ recovered ev r1) /\
  forall r, db !! ID ev = Some r -> LeaseToken r <> Some tok.

Record attempting (ev : Event) (tok : UUID) (dbc : table) (r0 : Event) (cs : list call) (w : world) : Prop := {
  an_claim : claimed_row (EventID d) db0 dbc r0;
  an_id : ID ev = EventID d;
  an_count : AttemptCount ev = AttemptCount r0 + 1;
  an_range : 1 <= AttemptCount ev <= 32767;
  an_tok : tok ∈ w_uuids w ∖ before;
  an_calls : w_calls w = cs;
  an_evolves : evolves dbc (w_db w);
  an_row : held ev tok (w_db w) \/ lost ev tok dbc (w_db w);
}.

Lemma lost_rely mine ev tok dbc db db' : tok ∈ mine -> lost ev tok dbc db -> rely mine db db' -> lost ev tok dbc db'.
Proof using Type.
  intros Hm Hl Hs. induction Hs as [s|s1 s2 s3 _ IH [(now & Hst) Hsp]]; [done|].
  destruct (IH Hl) as ((db1 & r1 & E1 & E2 & E3 & E4) & Hn). split.
  - exists db1, r1. split; [done|]. split; [|done]. etrans; [exact E2|by eapply evolves_step].
  - intros r' Er' Ht. specialize (Hsp _ _ Er'). destruct (s2 !! ID ev) as [r|] eqn:Er.
    + by apply (Hn r eq_refl), (proj1 Hsp).
    + by apply (proj2 Hsp _ Hm).
Qed.

Lemma held_rely mine ev tok dbc db db' : tok ∈ mine -> evolves dbc db -> held ev tok db -> rely mine db db' ->
  held ev tok db' \/ lost ev tok dbc db'.
Proof using Type.
  intros Hm He Hh Hs. assert (evolves dbc db' /\ (held ev tok db' \/ lost ev tok dbc db')) as [_ ?]; [|done].
  induction Hs as [s|s1 s2 s3 Hs IH Hst]; [by split; [|left]|].
  destruct (IH He Hh) as [He2 Hrow]. clear IH. pose proof Hst as [(now & Hts) Hsp].
  assert (evolves dbc s3) as He3 by (etrans; [done|by eapply evolves_step]). split; [done|].
  destruct Hrow as [(r & Er & Hl & Hc & Hi)|Hn].
  - destruct (table_step_keeps _ _ _ _ _ Hts Er) as (r' & Er' & _). specialize (Hsp _ _ Er'). rewrite Er in Hsp.
    apply holds_lease_spec in Hl as Hl'. destruct Hl' as [Hp Ht].
    destruct (proj2 Hsp _ Hm Ht) as [->|(Q1 & Q2 & Q3 & Q4 & Q5)]; [left; by exists r|right].
    split; [|intros q Hq; by simplify_eq; rewrite Q2]. exists s3, r'. split; [done|]. split; [done|]. split; [done|].
    split; [done|]. split; [done|]. split; [done|]. split; [congruence|by etrans].
  - right. apply (lost_rely mine _ _ _ s2); [done..|]. eapply star_snoc; [apply star_refl|done].
Qed.

Lemma attempting_wf ev tok dbc r0 cs w : attempting ev tok dbc r0 cs w -> table_wf dbc /\ table_wf (w_db w).
Proof using Hw0. intros [(Hc & _) _ _ _ _ _ He _]. assert (table_wf dbc) by by eapply evolves_wf. split; [done|by eapply evolves_wf]. Qed.

(** Others leave an attempt an attempt. *)
Lemma attempting_others ev tok dbc r0 cs w w' :
  attempting ev tok dbc r0 cs w -> others (w_uuids w ∖ before) w w' -> attempting ev tok dbc r0 cs w'.
Proof using Hw0.
  intros Ha (Hr & Hu & Hc & _). destruct (attempting_wf _ _ _ _ _ _ Ha) as [_ Hw]. destruct Ha as [H1 H2 H3 H4 H5 H6 H7 H8].
  split; try done; [by rewrite Hu|congruence|etrans; [done|by eapply rely_evolves]|].
  destruct H8 as [Hh|Hl]; [by eapply held_rely|right; by eapply lost_rely].
Qed.

(** Calls that leave the table and the calls made alone. *)
Definition aside {X} (e : eff X) : Prop :=
  match e with ENow | EAllow _ | EObserve _ _ | EAbort _ | EAcquire _ | ERelease _ => True | _ => False end.

Lemma aside_local {X} (e : eff X) w x w1 : aside e -> local X e w x w1 ->
  w_db w1 = w_db w /\ w_uuids w1 = w_uuids w /\ w_calls w1 = w_calls w.
Proof using Type. destruct e; cbn; try done; intros _ Hl; clear LeaseDuration faults clock before d w0 Hw0; naive_solver. Qed.

Lemma attempting_same ev tok dbc r0 cs w w' : attempting ev tok dbc r0 cs w ->
  w_db w' = w_db w -> w_uuids w' = w_uuids w -> w_calls w' = w_calls w -> attempting ev tok dbc r0 cs w'.
Proof using Type. intros [H1 H2 H3 H4 H5 H6 H7 H8] E1 E2 E3. by split; rewrite ?E1, ?E2, ?E3. Qed.

Lemma wp_aside {X A} (e : eff X) (k : X -> prog A) ev tok dbc r0 cs w g Q :
  aside e -> attempting ev tok dbc r0 cs w ->
  (forall x w1 w', local X e w x w1 -> attempting ev tok dbc r0 cs w' -> wp H (k x) (w', note e x g) Q) ->
  wp H (Prog.bind (trigger e) k) (w, g) Q.
Proof using Hw0.
  intros He Ha Hk. apply wp_noted. intros x w1 w' Hl%database_local _ Ho. apply (Hk x w1); [done|].
  destruct (aside_local e w x w1 He Hl) as (E1 & E2 & E3). eapply attempting_others; [|done]. by eapply attempting_same.
Qed.

(** *** Statements guarded by the lease *)

Lemma transition_lost db id tok f :
  (forall r, db !! id = Some r -> LeaseToken r <> Some tok) -> transition db id tok f = (Err (ESentinel ErrNotClaimed), db).
Proof using Type.
  intros Hn. unfold transition, update_where. destruct (db !! id) as [r|] eqn:E; [|done].
  destruct (holds_lease tok r) eqn:Hl; [|done]. apply holds_lease_spec in Hl as [_ Ht]. by destruct (Hn r eq_refl).
Qed.

(** The statement is executed with the lease held, or finds it taken over, or
    the database fails. *)
Lemma wp_guarded {A} (s : stmt unit) (f : Z -> Event -> Event) (k : option error -> prog A) ev tok dbc r0 cs w g Q :
  attempting ev tok dbc r0 cs w -> stmt_ok s ->
  (forall now db, exec_stmt s now db = transition db (ID ev) tok (f now)) ->
  (forall now r w', w_db w !! ID ev = Some r -> holds_lease tok r = true -> AttemptCount r = AttemptCount ev -> same_identity ev r ->
     evolves (w_db w) (<[ID ev := f now r]> (w_db w)) -> others (w_uuids w ∖ before) (set_db w (<[ID ev := f now r]> (w_db w))) w' ->
     wp H (k None) (w', statement_said s (Ok tt)) Q) ->
  (forall w', attempting ev tok dbc r0 cs w' -> lost ev tok dbc (w_db w') -> wp H (k (Some (ESentinel ErrNotClaimed))) (w', Refused) Q) ->
  (forall e w', faults = true -> foreign_error e -> wp H (k (Some e)) (w', Errored e) Q) ->
  wp H (Prog.bind (Repo_exec s) k) (w, g) Q.
Proof using Hw0.
  intros Ha Hok He Hyes Hno Hf. unfold Repo_exec. apply wp_bind, wp_noted. intros x w1 w' Hd _ Ho. cbn [wp note].
  destruct Hd as [(now & _ & -> & ->)|(Hft & e & now & -> & Hfe & _)].
  2: { cbn. pose proof Hfe as (Hnc & _). rewrite Hnc. by apply Hf. }
  rewrite He. destruct (an_row _ _ _ _ _ _ Ha) as [(r & Er & Hl & Hc & Hi)|Hn].
  - rewrite (transition_held _ _ _ _ _ Er Hl). cbn. eapply (Hyes now r); try done.
    + eapply evolves_step. pose proof (exec_stmt_step s now (w_db w) Hok) as Hst.
      by rewrite He, (transition_held _ _ _ _ _ Er Hl) in Hst.
    + by rewrite He, (transition_held _ _ _ _ _ Er Hl) in Ho.
  - rewrite (transition_lost _ _ _ _ (proj2 Hn)). cbn. rewrite He, (transition_lost _ _ _ _ (proj2 Hn)) in Ho. cbn in Ho.
    assert (attempting ev tok dbc r0 cs w') as Ha' by (eapply attempting_others; [eapply attempting_same|]; done).
    apply Hno; [done|]. exact (lost_rely _ _ _ _ _ _ (an_tok _ _ _ _ _ _ Ha) Hn (proj1 Ho)).
Qed.

(** *** How a handler ends *)

Lemma post_fault e w : faults = true -> foreign_error e -> post (settle (Some e)) (w, Errored e).
Proof using Type.
  intros Hf He. unfold settle. rewrite (foreign_not_claimed _ He). cbn. rewrite (foreign_not_requeue _ He).
  split; [done|]. split; [apply He|by rewrite Hf].
Qed.

Lemma post_lost ev tok dbc r0 cs w : attempting ev tok dbc r0 cs w -> lost ev tok dbc (w_db w) ->
  post (settle (Some (ESentinel ErrNotClaimed))) (w, Refused).
Proof using Type.
  intros [Hc Hid Hcnt _ _ _ _ _] [(db1 & r1 & E1 & E2 & E3 & Q1 & Q2 & Q3 & Q4 & _) _]. cbn. right; left.
  split; [done|]. exists dbc, r0, db1, r1. rewrite Hid in E3. repeat split; try done; try apply Hc. congruence.
Qed.

(** The statement that ends the event: nothing changes it any more. *)
Lemma wp_ends (s : stmt unit) (f : Z -> Event -> Event) ev tok dbc r0 cs w g :
  attempting ev tok dbc r0 cs w -> stmt_ok s -> statement_said s (Ok tt) = Ended ->
  (forall now db, exec_stmt s now db = transition db (ID ev) tok (f now)) ->
  (forall now r, AttemptCount r = AttemptCount ev -> same_identity ev r ->
     (EvStatus (f now r) = StatusSucceeded /\ exists c, cs = c :: w_calls w0 /\ call_for c (f now r) /\ reported_success c) \/
     (EvStatus (f now r) = StatusFailed /\ 0 < MaxAttempts d <= AttemptCount (f now r))) ->
  wp H (Prog.bind (Repo_exec s) (fun err => Ret (settle err))) (w, g) post.
Proof using Hw0.
  intros Ha Hok Hsaid He Hend. eapply wp_guarded; [done..| | |].
  - intros now r w' Er Hl Hc Hi Hev (Hr & _ & Hcs & _). cbn [wp settle]. rewrite Hsaid. cbn [w_db w_calls set_db] in *.
    destruct (attempting_wf _ _ _ _ _ _ Ha) as [_ Hw]. specialize (Hend now r Hc Hi).
    assert (terminal (f now r)) as Ht by (destruct Hend as [[E _]|[E _]]; [by left|by right]).
    destruct (evolves_keeps _ _ (evolves_wf _ _ Hw Hev) (rely_evolves _ _ _ Hr)) as [_ Hk].
    destruct (Hk (ID ev) (f now r)) as (r' & Er' & _ & Heq); [apply lookup_insert_eq|]. rewrite (Heq Ht) in Er'.
    right; right. split; [done|]. exists (f now r). rewrite <- (an_id _ _ _ _ _ _ Ha). split; [done|].
    destruct Hend as [[E (c & Ec & Hc')]|Hend]; [left; split; [done|]|by right].
    exists c. split; [|done]. by rewrite Hcs, (an_calls _ _ _ _ _ _ Ha).
  - intros w' Ha' Hlost. by eapply post_lost.
  - intros e w' Hf Hfe. by apply post_fault.
Qed.

(** The statement that releases the event, and the redelivery asked for. *)
Lemma wp_releases (s : stmt unit) (f : Z -> Event -> Event) cause delay backoff ev tok dbc r0 cs w g :
  attempting ev tok dbc r0 cs w -> stmt_ok s -> statement_said s (Ok tt) = Released -> 0 <= delay ->
  (forall now db, exec_stmt s now db = transition db (ID ev) tok (f now)) ->
  (forall now r, holds_lease tok r = true -> AttemptCount r = AttemptCount ev -> waiting_for LeaseDuration delay (f now r) /\
     if backoff : bool then AttemptCount (f now r) = AttemptCount ev /\ (0 < MaxAttempts d -> AttemptCount ev < MaxAttempts d)
     else AttemptCount (f now r) = AttemptCount ev - 1) ->
  wp H (Prog.bind (Repo_exec s) (fun err => match err with Some _ => Ret (settle err) | None => Ret (Some (RequestRequeue cause delay backoff)) end)) (w, g) post.
Proof using Hw0.
  intros Ha Hok Hsaid Hd He Hrel. eapply wp_guarded; [done..| | |].
  - intros now r w' Er Hl Hc Hi Hev (Hr & _). destruct (Hrel now r Hl Hc) as [Hwait Hcnt].
    pose proof (an_count _ _ _ _ _ _ Ha) as Hn. unfold handled. cbn [wp]. rewrite As_RequestRequeue by done. split; [done|].
    exists dbc, r0, (<[ID ev := f now r]> (w_db w)), (f now r). split; [apply Ha|].
    split; [etrans; [apply Ha|done]|]. split; [by eapply rely_evolves|]. rewrite <- (an_id _ _ _ _ _ _ Ha).
    split; [apply lookup_insert_eq|]. split; [done|]. destruct backoff; [|lia]. destruct Hcnt as [Hcnt Hmx]. split; [lia|].
    intros Hm. specialize (Hmx Hm). lia.
  - intros w' Ha' Hlost. by eapply post_lost.
  - intros e w' Hf Hfe. by apply post_fault.
Qed.

(** ** The parts of [process] *)

Lemma requeue_outcome r f : LastResult r = Some (marshal_finished f) -> Outcome f = OutcomeRequeueRequested ->
  outcome_is_requeue r = true.
Proof using Type. intros E Ho. unfold outcome_is_requeue. by rewrite E, finished_outcome, Ho. Qed.

Lemma requeue_doc_finished f : Outcome f = OutcomeRequeueRequested -> requeue_doc (marshal_finished f).
Proof using Type. intros Ho. unfold requeue_doc. by rewrite finished_outcome, Ho. Qed.

Lemma release_spec ev tok dbc r0 cs w g result latency :
  attempting ev tok dbc r0 cs w -> persistedAttemptsExhausted d ev = false ->
  wp H (releaseForRequeue LeaseDuration ev tok d result latency) (w, g) post.
Proof using Hw0.
  intros Ha Hx. unfold releaseForRequeue. eapply (wp_aside ENow); [done..|]. intros now w1 w' _ Ha'. cbn zeta.
  eapply wp_releases; [done|by apply requeue_doc_finished|done|apply clamp_nonneg|done|].
  intros now' r Hl Hc. apply holds_lease_spec in Hl as [Hp _]. split.
  - split; [apply clamp_nonneg|]. split; [done|]. split; [done|]. split; [by eapply requeue_outcome|]. by eexists.
  - split; [done|]. intros Hm. pose proof (proj2 (exhausted_spec d ev (an_range _ _ _ _ _ _ Ha))) as He.
    destruct (Z.lt_ge_cases (AttemptCount ev) (MaxAttempts d)); [done|]. by rewrite He in Hx.
Qed.

Lemma retryOrFail_spec ev tok dbc r0 cs w g result latency :
  attempting ev tok dbc r0 cs w -> wp H (retryOrFail LeaseDuration ev tok d result latency) (w, g) post.
Proof using Hw0.
  intros Ha. unfold retryOrFail. destruct (persistedAttemptsExhausted d ev) eqn:Ex; [|by eapply release_spec].
  apply exhausted_spec in Ex; [|apply Ha]. eapply (wp_aside ENow); [done..|]. intros now w1 w' _ Ha'. cbn zeta.
  eapply wp_ends; [done..|]. intros now' r Hc Hi. right. cbn. split; [done|]. by rewrite Hc.
Qed.

Lemma defer_spec ev tok dbc r0 cs w g after :
  attempting ev tok dbc r0 cs w -> wp H (deferForOpenCircuit LeaseDuration ev tok d after) (w, g) post.
Proof using Hw0.
  intros Ha. unfold deferForOpenCircuit. eapply (wp_aside ENow); [done..|]. intros now w1 w' _ Ha'. cbn zeta.
  eapply wp_releases; [done|by apply requeue_doc_finished|done|apply clamp_nonneg|done|].
  intros now' r Hl Hc. apply holds_lease_spec in Hl as [Hp _]. pose proof (an_range _ _ _ _ _ _ Ha) as Hg. split.
  - split; [apply clamp_nonneg|]. split; [done|]. split; [done|]. split; [by eapply requeue_outcome|]. by eexists.
  - cbn. rewrite Hc. unfold greatest0. lia.
Qed.

Lemma finish_spec ev tok dbc r0 cs w g :
  attempting ev tok dbc r0 cs w -> claimed_past_budget d ev = true ->
  wp H (finishExhaustedBeforeProvider ev tok (MaxAttempts d)) (w, g) post.
Proof using Hw0.
  intros Ha Hp. apply past_budget_spec in Hp; [|apply Ha]. unfold finishExhaustedBeforeProvider.
  eapply (wp_aside ENow); [done..|]. intros now w1 w' _ Ha'. cbn zeta.
  eapply wp_ends; [done..|]. intros now' r Hc Hi. right. cbn. split; [done|]. rewrite Hc. unfold greatest0. lia.
Qed.

Lemma after_send_spec ev tok dbc r0 w g permit adapter ac answer latency :
  attempting ev tok dbc r0 (mkCall adapter (set_source ac (SourceSystem ev) (SourceRequestID ev)) (ProviderAction ev) (Payload ev) answer :: w_calls w0) w ->
  wp H (after_send LeaseDuration ev tok d permit answer latency) (w, g) post.
Proof using Hw0.
  intros Ha. unfold after_send. pose proof (classify_success answer.1 answer.2) as Hs.
  destruct (classify answer.1 answer.2) as [result obs]. eapply (wp_aside (EObserve _ _)); [done..|]. intros [] w1 w2 _ Ha2.
  destruct (Success result) eqn:Es; [|by eapply retryOrFail_spec].
  eapply (wp_aside ENow); [done..|]. intros now w3 w4 _ Ha4. cbn zeta.
  eapply wp_ends; [done..|]. intros now' r Hc Hi. left. cbn. split; [done|].
  eexists. split; [done|]. destruct Hi as (? & ? & ? & ? & ? & ? & ?). split; [by unfold call_for|].
  destruct answer as [a e]. destruct (Hs Es) as (res & ? & ? & ?). cbn in *. subst. by eexists.
Qed.

(** The two statements before the call: the attempt goes on, or is broken
    off. *)
Definition broken_off ev tok dbc r0 cs (e : error) (s : world * said) : Prop :=
  (attempting ev tok dbc r0 cs s.1 /\ lost ev tok dbc (w_db s.1) /\ e = ESentinel ErrNotClaimed /\ s.2 = Refused) \/
  (faults = true /\ foreign_error e /\ s.2 = Errored e).

Lemma wp_holds {A} (s : stmt unit) (f : Z -> Event -> Event) (k : option error -> prog A) ev tok dbc r0 cs w g Q :
  attempting ev tok dbc r0 cs w -> stmt_ok s ->
  (forall now db, exec_stmt s now db = transition db (ID ev) tok (f now)) ->
  (forall now r, holds_lease tok (f now r) = holds_lease tok r /\ AttemptCount (f now r) = AttemptCount r /\ same_identity r (f now r)) ->
  (forall w', attempting ev tok dbc r0 cs w' -> wp H (k None) (w', statement_said s (Ok tt)) Q) ->
  (forall e g' w', broken_off ev tok dbc r0 cs e (w', g') -> wp H (k (Some e)) (w', g') Q) ->
  wp H (Prog.bind (Repo_exec s) k) (w, g) Q.
Proof using Hw0.
  intros Ha Hok He Hkeep Hyes Hno. eapply wp_guarded; [done..| | |].
  - intros now r w' Er Hl Hc Hi Hev Ho. apply Hyes. destruct (Hkeep now r) as (K1 & K2 & K3).
    apply (attempting_others _ _ _ _ _ (set_db w (<[ID ev := f now r]> (w_db w)))); [|exact Ho].
    destruct Ha as [H1 H2 H3 H4 H5 H6 H7 H8]. split; try done; cbn; [by etrans|].
    left. exists (f now r). split; [apply lookup_insert_eq|]. split; [by rewrite K1|]. split; [congruence|by etrans].
  - intros w' Ha' Hl. apply Hno. by left.
  - intros e w' Hf Hfe. apply Hno. by right.
Qed.

(** A call that keeps everything but the breakers, on the way out. *)
Lemma wp_abort_out permit e s ev tok dbc r0 cs :
  broken_off ev tok dbc r0 cs e s -> wp H (trigger (EAbort permit) ;;; Ret (settle (Some e)))%prog s post.
Proof using Hw0.
  destruct s as [w g]. intros Hc. apply wp_noted. intros [] w1 w' Hl%database_local _ Ho. cbn in Hl. subst w1. cbn [wp note].
  destruct Hc as [(Ha & Hlost & -> & Hg)|(Hf & He & Hg)]; cbn in *; subst g; [|by apply post_fault].
  eapply post_lost; [eapply attempting_others; [eapply attempting_same; done|exact Ho]|].
  exact (lost_rely _ _ _ _ _ _ (an_tok _ _ _ _ _ _ Ha) Hlost (proj1 Ho)).
Qed.

(** What was true when the handler returned stays true. *)
Lemma handled_others err w w' g mine : table_wf (w_db w) -> post err (w, g) -> others mine w w' -> post err (w', g).
Proof using Type.
  intros Hw Hp (Hr%rely_evolves & Hu & Hc & _). unfold handled in *. destruct err as [e|].
  - destruct (errors_As_Requeue e) as [[delay backoff]|].
    + destruct Hp as (Hg & dbc & r0 & db & row & H1 & H2 & H3 & H4). split; [done|]. exists dbc, r0, db, row.
      split; [done|]. split; [done|]. split; [by etrans|done].
    + rewrite Hc. exact Hp.
  - destruct Hp as [(Hg & (db & now & H1 & H2 & H3 & H4) & H5)|[(Hg & dbc & r0 & db & r & H1 & H2 & H3 & H4)|(Hg & row & H1 & H2)]].
    + left. split; [done|]. split; [|congruence]. exists db, now. split; [done|]. split; [done|]. split; [by etrans|]. by rewrite Hu.
    + right; left. split; [done|]. exists dbc, r0, db, r. split; [done|]. split; [done|]. split; [by etrans|done].
    + right; right. split; [done|]. destruct (evolves_keeps _ _ Hw Hr) as [_ Hk]. destruct (Hk _ _ H1) as (row' & H1' & _ & Heq).
      rewrite Heq in H1' by (destruct H2 as [[E _]|[E _]]; [by left|by right]). exists row. split; [done|]. by rewrite Hc.
Qed.

Context {N : Type} (lookup : string -> string -> option (ResolvedAction N)).

Lemma with_slot_spec ev tok dbc r0 w g (resolved : ResolvedAction N) permit :
  attempting ev tok dbc r0 (w_calls w0) w -> wp H (with_slot LeaseDuration ev tok d resolved permit) (w, g) post.
Proof using Hw0.
  intros Ha. unfold with_slot.
  set (doc := fun now => marshal_requesting {| Requesting_Phase := PhaseRequesting; StartedAt := now |}).
  apply (wp_aside ENow (fun now => Prog.bind (Repo_exec (SMarkRequesting (ID ev) tok (doc now))) _) _ _ _ _ _ _ _ _ I Ha).
  intros now w1 w2 _ Ha2. eapply (wp_holds (SMarkRequesting (ID ev) tok (doc now))); [exact Ha2|done|intros now' db; exact eq_refl|..].
  { intros now' r. by repeat split. }
  2: { intros e g' w' Hc. by eapply wp_abort_out. }
  intros w3 Ha3. eapply (wp_holds (SRenewLease (ID ev) tok LeaseDuration)); [exact Ha3|done|intros now' db; exact eq_refl|..].
  { intros now' r. by repeat split. }
  2: { intros e g' w' Hc. by eapply wp_abort_out. }
  intros w4 Ha4. cbn zeta. eapply (wp_aside ENow); [done..|]. intros start w5 w6 _ Ha6.
  apply wp_noted. intros answer w7 w8 Hl%database_local _ Ho. cbn in Hl. subst w7.
  set (c := mkCall _ _ _ _ answer) in Ho.
  assert (attempting ev tok dbc r0 (c :: w_calls w0) w8) as Ha8.
  { apply (attempting_others _ _ _ _ _ (add_call w6 c)); [|exact Ho]. destruct Ha6 as [H1 H2 H3 H4 H5 H6 H7 H8].
    split; try done. cbn. by rewrite H6. }
  eapply (wp_aside ENow); [done..|]. intros stop w9 w10 _ Ha10. by eapply after_send_spec.
Qed.

Lemma process_spec ev tok dbc r0 w g :
  attempting ev tok dbc r0 (w_calls w0) w -> wp H (process lookup LeaseDuration ev tok d) (w, g) post.
Proof using Hw0.
  intros Ha. unfold process. destruct (claimed_past_budget d ev) eqn:Ep; [by eapply finish_spec|].
  destruct (lookup _ _) as [resolved|]; [|by eapply retryOrFail_spec].
  eapply (wp_aside (EAllow _)); [done..|]. intros decision w1 w2 _ Ha2.
  destruct (Allowed _); cbn [negb]; [|by eapply defer_spec].
  eapply (wp_aside (EAcquire _)); [done..|]. intros err w3 w4 Hacq Ha4. destruct err as [e|]; cbn [note].
  - destruct Hacq as (wait & done & l & Hf & Hacq & _). apply Acquire_error in Hacq. specialize (Hf _ Hacq).
    eapply (wp_aside (EAbort _)); [done..|]. intros [] w5 w6 _ Ha6. cbn. rewrite (foreign_not_requeue _ Hf).
    split; [done|]. split; [apply Hf|]. intros _. left. split; [done|]. by rewrite (an_calls _ _ _ _ _ _ Ha6).
  - destruct (attempting_wf _ _ _ _ _ _ Ha4) as [_ Hw4]. apply wp_bind.
    eapply wp_mono; [apply wp_conj; [by eapply with_slot_spec|apply noted_evolves, with_slot_writes_ok]|]. intros res [w5 g5] [Hp He5].
    apply wp_noted. intros [] w6 w7 Hl%database_local _ Ho. cbn in Hl. subst w6. cbn [wp].
    eapply handled_others; [|exact Hp|exact Ho]. by eapply evolves_wf.
Qed.

(** No row carries the token just drawn. *)
Definition unleased (tok : UUID) (db : table) : Prop := forall id r, db !! id = Some r -> LeaseToken r <> Some tok.

Lemma unleased_rely mine tok db db' : tok ∈ mine -> unleased tok db -> rely mine db db' -> unleased tok db'.
Proof using Type.
  intros Hm Hn Hs. induction Hs as [s|s1 s2 s3 _ IH [_ Hsp]]; [done|]. intros id r' Er' Ht. specialize (Hsp _ _ Er').
  destruct (s2 !! id) as [r|] eqn:Er; [|by apply (proj2 Hsp _ Hm)]. by apply (IH Hn id r Er), (proj1 Hsp).
Qed.

Lemma HandleDelivery_spec g : before ⊆ w_uuids w0 -> wp H (HandleDelivery lookup LeaseDuration d) (w0, g) post.
Proof using Hw0.
  intros Hb. unfold HandleDelivery. apply wp_noted. intros tok w1 w2 Hl%database_local [_ Hfree] (Hr1 & Hu1 & Hc1 & _).
  destruct Hl as [Hfresh ->]. cbn [w_uuids w_calls w_db set_uuids] in *.
  assert (tok ∈ w_uuids w2 ∖ before) as Htok by (rewrite Hu1; set_solver).
  apply (unleased_rely _ tok) in Hr1 as Hfree2; [|by rewrite <- Hu1|exact Hfree]. apply rely_evolves in Hr1.
  unfold Repo_Claim. apply wp_bind. apply wp_noted. intros now w3 w4 Hl%database_local _ (Hr2 & Hu2 & Hc2 & _).
  cbn in Hl. subst w3. apply (unleased_rely _ tok) in Hr2 as Hfree4; [|done|done]. rewrite <- Hu2 in Htok. apply rely_evolves in Hr2.
  assert (evolves db0 (w_db w4)) as He4 by (by etrans). assert (w_calls w4 = w_calls w0) as Hc4 by congruence.
  assert (w_uuids w4 = {[tok]} ∪ w_uuids w0) as Hu4 by congruence.
  assert (table_wf (w_db w4)) as Hw4 by by eapply evolves_wf.
  apply wp_noted. intros x w5 w6 Hd _ (Hr3 & Hu3 & Hc3 & Hp3). cbn [wp note].
  destruct Hd as [(now' & Hclk & -> & ->)|(Hft & e & now' & -> & Hfe & _)].
  2: { destruct Hfe as (F1 & F2 & F3 & F4). cbn. rewrite F1. cbn. rewrite F4. split; [done|]. split; [done|by rewrite Hft]. }
  cbn [w_db w_calls w_uuids set_db] in *. cbn [exec_stmt]. cbn [exec_stmt] in Hr3.
  assert ((match w_db w4 !! EventID d with Some r => claimable now' r = false | None => True end) -> rely (w_uuids w4 ∖ before) (w_db w4) (w_db w6) ->
    post None (w6, Refused)) as Hrefused.
  { intros Hcl Hr. left. split; [done|]. split; [|congruence]. exists (w_db w4), now'. split; [done|]. split; [done|].
    split; [by eapply rely_evolves|]. destruct (w_db w4 !! EventID d) as [r|] eqn:Er; [|done]. split; [done|].
    intros t Ht Hin. rewrite Hu3, Hu4 in Hin. assert (t = tok) as -> by set_solver. by apply (Hfree4 _ _ Er). }
  unfold Claim in *. destruct (w_db w4 !! EventID d) as [r|] eqn:Er; cbn [fst snd] in *; [|by apply Hrefused].
  destruct (claimable now' r) eqn:Ecl; [|by apply Hrefused].
  destruct (Z.ltb_spec 32767 (AttemptCount r + 1)) as [Hfull|Hroom]; cbn [fst snd] in *.
  { destruct (wf_row _ Hw4 _ _ Er) as [Hrg _]. split; [done|]. split; [done|]. intros _. right. split; [done|]. exists (w_db w4), r. split; [done|]. split; [done|lia]. }
  destruct (wf_row _ Hw4 _ _ Er) as [Hrg Hst]. set (doc := marshal_claimed _) in *. set (ev := claim_update now' tok LeaseDuration doc r) in *.
  pose proof (wf_id _ Hw4 _ _ Er) as Hid. change (ID r) with (ID ev) in Hid.
  assert (LeaseToken r = None /\ ~ terminal r) as [Hnt Hnter].
  { apply claimable_spec in Ecl as [[Hp _]|(Hp & Ht & _)]; rewrite Hp in Hst; (split; [naive_solver|]); intros [E|E]; congruence. }
  eapply process_spec. apply (attempting_others _ _ _ _ _ (set_db w4 (<[EventID d := ev]> (w_db w4)))); [|exact (conj Hr3 (conj Hu3 (conj Hc3 Hp3)))].
  split; cbn; try done; [lia|eapply evolves_step, (ts_row now' _ _ r); [done|by apply rs_claim; [|lia]]|].
  left. exists ev. rewrite Hid. split; [apply lookup_insert_eq|]. split; [by apply holds_lease_spec|done].
Qed.
End delivery.

(** C6: What the handler tells the broker is true of the table, among any
    other processes. It acknowledges a message only when its last statement
    ended the event, SUCCEEDED by a provider call of this delivery that
    reported success for this event's payload or FAILED with its attempts at
    the maximum; or when its last statement was refused, because at some
    instant meanwhile the event could not be claimed, or because the lease
    expired while the delivery worked and the recovery scan released the
    event, with the attempt counted, for another one. A lost lease is never
    an error. It asks for a redelivery only when its last statement released
    the event, claimable at once, and recoverable by the scan
    [LeaseDuration] after the requested delay; with backoff only when the
    attempt is counted and another one is left, without backoff only when the
    count is what it was before the claim. Any other error is the one the
    database or the wait for a slot returned; when the database answers
    ([faults = false]) the wait, before any call, or the error of a claim
    whose event's counter is full. *)
Theorem HandleDelivery_truthful `{Postgres} {N} (lookup : string -> string -> option (ResolvedAction N)) LeaseDuration faults clock d w :
  table_wf (w_db w) ->
  wp (noted (among faults clock (w_uuids w))) (HandleDelivery lookup LeaseDuration d) (w, Quiet)
    (handled LeaseDuration faults clock d w).
Proof. intros Hw. by apply HandleDelivery_spec. Qed.
