(* ===== verification/Backend.v ===== *)
(** * What the three backends promise the worker ([internal/mq])

    The interface between a backend and the handler it calls: which delivery
    a message gives the handler, what becomes of the message once the handler
    answered, and how it may arrive again. The in-process queue, RabbitMQ and
    NSQ implement it, and the worker is verified against it. *)

From S2P Require Import Prelude Prog Errors Json Domain Mq Memory Rabbit Nsq.
From S2P Require Import Provider Breaker Limiter Store Lifecycle Effects Among Processor ProcessorSpec DeliverySpec.

#[local] Opaque marshal_finished marshal_claimed marshal_requesting.

(** [ScheduledAfter]: a redelivery is scheduled; when the delay has passed
    RabbitMQ publishes the retry or returns the original, and the in-process
    queue enqueues the message unless it is full or closed by then.
    [OwnPolicy]: redelivered after a delay the backend's library chooses.
    [Dropped]: the message is gone and the event left to the recovery scan. *)
Inductive fate := Acknowledged | ScheduledAfter (delay : Z) | OwnPolicy | Dropped.

(** [accepts]: the delivery the handler is called with; [None] is a malformed
    message, which is acknowledged without a call. [arrives_as m m']: after a
    redelivery [m] may arrive as [m']. *)
Class Backend (M : Type) := {
  accepts : M -> option Delivery;
  settles : M -> option error -> fate;
  arrives_as : M -> M -> Prop;
}.

(** The deliveries carry the configured policy; a message is acknowledged
    exactly when the handler returned nil; a requeue request is honoured with
    its delay unless the backend is closing; and a redelivered message is for
    the same event. *)
Class BackendLaws (cfg : RequeueConfig) (M : Type) `{Backend M} := {
  accepts_policy m d : accepts m = Some d -> d = make_delivery cfg (EventID d) (Attempts d);
  settles_nil m d err : accepts m = Some d -> (settles m err = Acknowledged <-> err = None);
  settles_request m d e delay backoff : accepts m = Some d -> errors_As_Requeue e = Some (delay, backoff) ->
    settles m (Some e) = ScheduledAfter delay \/ settles m (Some e) = Dropped;
  arrives_same m m' d : accepts m = Some d -> arrives_as m m' -> exists d', accepts m' = Some d' /\ EventID d' = EventID d;
}.

(** ** The in-process queue *)

Definition memory_config (b : MemoryBroker) : RequeueConfig :=
  {| DefaultRequeueDelay := mb_defaultRequeueDelay b; MaxRequeueDelay := mb_maxRequeueDelay b; CfgMaxAttempts := mb_maxAttempts b |}.

#[export] Instance memory_backend (b : MemoryBroker) : Backend memoryMessage := {
  accepts m := Some (delivery_of b m);
  settles m err :=
    match after_handler b m err with
    | None => Acknowledged
    | Some delay => if closed b then Dropped else ScheduledAfter delay
    end;
  arrives_as m m' := m' = mkMessage (eventID m) (Memory.next_attempts (attempts m));
}.

#[export] Instance memory_laws b : BackendLaws (memory_config b) memoryMessage (H := memory_backend b).
Proof.
  split; cbn.
  - intros m d [= <-]. reflexivity.
  - intros m d [e|] _; [|by split]. cbn. by destruct (closed b).
  - intros m d e delay backoff _ He. cbn. unfold requestedRequeue. rewrite He. destruct (closed b); [by right|by left].
  - intros m m' d [= <-] ->. by eexists.
Qed.

(** ** RabbitMQ

    The delivery and the fate are read off the calls [handleDelivery] makes:
    the argument of the handler, and the first call after its answer. *)

Definition rabbit_accepts cfg us up (m : amqp_delivery) : option Delivery :=
  match handleDelivery cfg us up m with
  | Vis (AHandler d) _ => Some d
  | _ => None
  end.

Definition first_fate {A} (p : Rabbit.prog A) : fate :=
  match p with
  | Vis AAck _ => Acknowledged
  | Vis (ATimer delay) _ => ScheduledAfter delay
  | _ => Dropped
  end.

Definition rabbit_settles cfg us up (m : amqp_delivery) (err : option error) : fate :=
  match handleDelivery cfg us up m with
  | Ret _ => Dropped
  | Vis e k =>
      match e in amqp X return (X -> Rabbit.prog unit) -> fate with
      | AHandler _ => fun k => first_fate (k err)
      | _ => fun _ => Acknowledged
      end k
  end.

(** The broker delivers a published message with the fields it was published
    with. *)
Definition published_copy (p : publishing) : amqp_delivery :=
  {| d_Headers := Some (p_Headers p); d_ContentType := p_ContentType p; d_ContentEncoding := p_ContentEncoding p;
     d_Priority := p_Priority p; d_CorrelationId := p_CorrelationId p; d_ReplyTo := p_ReplyTo p; d_Timestamp := p_Timestamp p;
     d_Type := p_Type p; d_UserId := p_UserId p; d_AppId := p_AppId p; d_Body := p_Body p |}.

(** The retry that was confirmed, or the original returned to the queue. *)
Definition rabbit_arrives us (m m' : amqp_delivery) : Prop :=
  m' = m \/ exists id, m' = published_copy (retry_message us m id (Rabbit.next_attempts (rabbitDeliveryAttempts (d_Headers m)))).

#[export] Instance rabbit_backend cfg us up : Backend amqp_delivery := {
  accepts := rabbit_accepts cfg us up;
  settles := rabbit_settles cfg us up;
  arrives_as := rabbit_arrives us;
}.

Lemma rabbit_accepts_decode cfg us up m :
  rabbit_accepts cfg us up m =
    match decode up (d_Body m) with
    | Ok id => Some (make_delivery (Requeue cfg) id (rabbitDeliveryAttempts (d_Headers m)))
    | Err _ => None
    end.
Proof. unfold rabbit_accepts, handleDelivery. by destruct (decode up (d_Body m)). Qed.

#[export] Instance rabbit_laws cfg us up : BackendLaws (Requeue cfg) amqp_delivery (H := rabbit_backend cfg us up).
Proof.
  split; cbn [accepts settles arrives_as rabbit_backend].
  - intros m d. rewrite rabbit_accepts_decode. destruct (decode up (d_Body m)); [|done]. by intros [= <-].
  - intros m d err. rewrite rabbit_accepts_decode. unfold rabbit_settles, handleDelivery.
    destruct (decode up (d_Body m)); [|done]. intros _. by destruct err.
  - intros m d e delay backoff. rewrite rabbit_accepts_decode. unfold rabbit_settles, handleDelivery.
    destruct (decode up (d_Body m)); [|done]. intros _ He. cbn. unfold requestedRequeue. rewrite He. by left.
  - intros m m' d. rewrite !rabbit_accepts_decode. destruct (decode up (d_Body m)) as [id|] eqn:E; [|done].
    intros [= <-] [->|(id' & ->)]; cbn [d_Body published_copy retry_message p_Body]; rewrite E; by eexists.
Qed.

(** ** NSQ

    A message is its body and its attempt count, which nsqd increments. *)

Definition nsq_accepts up cfg (m : string * Z) : option Delivery :=
  match decode up m.1 with Ok id => Some (make_delivery cfg id (uint32 m.2)) | Err _ => None end.

Definition nsq_settles up cfg (m : string * Z) (err : option error) : fate :=
  let '(resp, err') := HandleMessage up cfg (fun _ => err) m.1 m.2 in
  match nsq_settle resp err' with
  | Finished => Acknowledged
  | DefaultRequeue => OwnPolicy
  | Requeued delay _ => ScheduledAfter delay
  end.

#[export] Instance nsq_backend cfg up : Backend (string * Z) := {
  accepts := nsq_accepts up cfg;
  settles := nsq_settles up cfg;
  arrives_as m m' := m'.1 = m.1;
}.

(** [HandleMessage] calls its handler on exactly the accepted delivery. *)
Lemma nsq_calls up cfg handler m d :
  nsq_accepts up cfg m = Some d -> HandleMessage up cfg handler m.1 m.2 = HandleMessage up cfg (fun _ => handler d) m.1 m.2.
Proof. unfold nsq_accepts, HandleMessage. destruct (decode up m.1); [|done]. by intros [= <-]. Qed.

#[export] Instance nsq_laws cfg up : BackendLaws cfg (string * Z) (H := nsq_backend cfg up).
Proof.
  split; cbn [accepts settles arrives_as nsq_backend].
  - intros m d. unfold nsq_accepts. destruct (decode up m.1); [|done]. by intros [= <-].
  - intros m d err. unfold nsq_accepts, nsq_settles, HandleMessage. destruct (decode up m.1); [|done]. intros _.
    destruct err as [e|]; [|done]. destruct (requestedRequeue e _) as [[delay [|]] [|]]; done.
  - intros m d e delay backoff. unfold nsq_accepts, nsq_settles, HandleMessage. destruct (decode up m.1); [|done]. intros _ He.
    unfold requestedRequeue. rewrite He. left. by destruct backoff.
  - intros m m' d. unfold nsq_accepts. intros Ha ->. destruct (decode up m.1); [|done]. injection Ha as <-. by eexists.
Qed.

(** ** The worker on any backend *)

Section worker.
Context {P : Postgres} {N : Type} (lookup : string -> string -> option (ResolvedAction N)) (LeaseDuration : Z).
Context {M : Type} (cfg : RequeueConfig) `{L : BackendLaws cfg M}.
Context (faults : bool) (clock : Z).

(** One message: what the handler answered, and what becomes of it. *)
Definition receive (m : M) : prog (option error * fate) :=
  match accepts m with
  | None => Ret (None, Acknowledged)
  | Some d => (err <- HandleDelivery lookup LeaseDuration d ;; Ret (err, settles m err))%prog
  end.

Definition same_event (d : Delivery) (m' : M) : Prop :=
  exists d', accepts m' = Some d' /\ EventID d' = EventID d /\ MaxAttempts d' = MaxAttempts d.

(** What became of message [m], received in world [w]. *)
Definition settled (m : M) (w : world) (x : option error * fate) (s : world * said) : Prop :=
  let w' := s.1 in
  match accepts m with
  | None => x = (None, Acknowledged) /\ s = (w, Quiet)
  | Some d =>
      match x.1 with
      | None =>
          x.2 = Acknowledged /\
          (claim_refused clock (EventID d) w w' \/
           taken_over (EventID d) (w_db w) (w_db w') \/
           exists row, w_db w' !! EventID d = Some row /\ terminal row)
      | Some e =>
          x.2 <> Acknowledged /\
          (forall m', arrives_as m m' -> same_event d m') /\
          forall delay backoff, errors_As_Requeue e = Some (delay, backoff) ->
            (x.2 = ScheduledAfter delay \/ x.2 = Dropped) /\ released_by LeaseDuration d delay backoff w w'
      end
  end.

Lemma arrives_same_event m m' d : accepts m = Some d -> arrives_as m m' -> same_event d m'.
Proof using L.
  intros Ha Hm. destruct (arrives_same _ _ _ Ha Hm) as (d' & Ha' & Hid). exists d'. split; [done|]. split; [done|].
  by rewrite (accepts_policy _ _ Ha), (accepts_policy _ _ Ha').
Qed.

(** C15: Whatever backend carries the wake-ups, and whatever other processes do
    to the table meanwhile, none is given up while the event depends on it. A
    message is acknowledged only when it is malformed; or at some instant
    meanwhile its event could not be claimed: it is unknown, has ended, is
    leased, or is not yet due; or the event has ended; or the delivery's lease
    expired and the recovery scan released the event for a wake-up of its own.
    After every error the message is not acknowledged and can only come back
    for the same event under the same limit; when the worker asked for a
    redelivery it has released the event, claimable, and the message is
    either scheduled to come back after exactly that delay, or dropped and the
    event left to the recovery scan. *)
Theorem wakeups_settled m w :
  table_wf (w_db w) -> wp (noted (among faults clock (w_uuids w))) (receive m) (w, Quiet) (settled m w).
Proof using L.
  intros Hw. unfold receive, settled. destruct (accepts m) as [d|] eqn:Ea; [|by split].
  apply wp_bind. eapply wp_mono; [by apply HandleDelivery_spec|]. intros [e|] [w' g] Hh; cbn in *.
  - split; [by rewrite (settles_nil _ _ (Some e) Ea)|]. split; [by intros; eapply arrives_same_event|].
    intros delay backoff He. split; [by eapply settles_request|]. rewrite He in Hh. by apply Hh.
  - split; [by apply (settles_nil _ _ None Ea)|].
    destruct Hh as [(_ & Hc & _)|[(_ & Ht)|(_ & row & Hr & [[Hs _]|[Hs _]])]]; [by left|by right; left|right; right..]; exists row; (split; [done|]);
      [by left|by right].
Qed.

(** *** Redelivery after redelivery *)

(** How often a message came back with an attempt counted, how often without
    one, how often after another error, and whether the chain ended: the
    message was acknowledged or dropped. *)
Record history := mkHistory { backoffs : nat; deferrals : nat; failures : nat; ended : bool }.

(** One more answer of the handler. *)
Definition counted (e : error) (h : history) : history :=
  match errors_As_Requeue e with
  | Some (_, true) => mkHistory (S (backoffs h)) (deferrals h) (failures h) (ended h)
  | Some (_, false) => mkHistory (backoffs h) (S (deferrals h)) (failures h) (ended h)
  | None => mkHistory (backoffs h) (deferrals h) (S (failures h)) (ended h)
  end.

Fixpoint redeliveries (next : M -> M) (fuel : nat) (m : M) : prog history :=
  match fuel with
  | O => Ret (mkHistory 0 0 0 false)
  | S n =>
      (x <- receive m ;;
       match x.1 with
       | None => Ret (mkHistory 0 0 0 true)
       | Some e =>
           h <- match x.2 with
                | ScheduledAfter _ | OwnPolicy => redeliveries next n (next m)
                | _ => Ret (mkHistory 0 0 0 true)
                end ;;
           Ret (counted e h)
       end)%prog
  end.

(** The attempts settled at an event, 0 before it is stored. *)
Definition settled_count (id : UUID) (db : table) : Z := match db !! id with Some r => settled_attempts r | None => 0 end.

Lemma settled_row r : row_wf r -> 0 <= settled_attempts r.
Proof using Type.
  intros [Ha Hs]. unfold settled_attempts. destruct (EvStatus r); try done; destruct (LeaseToken r); naive_solver lia.
Qed.

Lemma settled_mono id db db' : table_wf db -> evolves db db' -> settled_count id db <= settled_count id db'.
Proof using Type.
  intros Hw He. unfold settled_count. destruct (db !! id) as [r|] eqn:Er.
  - destruct (evolves_settled _ _ _ _ Hw He Er) as (r' & -> & ?). done.
  - destruct (db' !! id) as [r'|] eqn:Er'; [|done]. eapply settled_row, wf_row; [by eapply evolves_wf|done].
Qed.

(** A delivery that asks for a redelivery settles one attempt more, or none,
    and leaves room for another. *)
Lemma released_settled d delay backoff w w' : table_wf (w_db w) -> released_by LeaseDuration d delay backoff w w' ->
  settled_count (EventID d) (w_db w) + (if backoff then 1 else 0) <= settled_count (EventID d) (w_db w') /\
  (backoff = true -> 0 < MaxAttempts d -> settled_count (EventID d) (w_db w) + 1 < MaxAttempts d).
Proof using Type.
  intros Hw (dbc & r0 & db & row & (He0 & Er0 & Ht0 & _) & He1 & He2 & Er & (_ & _ & Ht & _) & Hc).
  assert (table_wf dbc) as Hwc by by eapply evolves_wf. assert (table_wf db) as Hwd by by eapply evolves_wf.
  pose proof (settled_mono (EventID d) _ _ Hw He0) as M0. pose proof (settled_mono (EventID d) _ _ Hwd He2) as M2.
  assert (settled_count (EventID d) dbc = AttemptCount r0) as E0 by (unfold settled_count, settled_attempts; rewrite Er0, Ht0; lia).
  assert (settled_count (EventID d) db = AttemptCount row) as E2 by (unfold settled_count, settled_attempts; rewrite Er, Ht; lia).
  destruct backoff; [destruct Hc as [Hc Hlt]|]; (split; [lia|intros ?]); [|done]. intros Hm. specialize (Hlt Hm). lia.
Qed.

Lemma redeliveries_counted before next fuel : (forall m, arrives_as m (next m)) -> 0 < CfgMaxAttempts cfg ->
  forall m w g, table_wf (w_db w) -> before ⊆ w_uuids w ->
  wp (noted (among faults clock before)) (redeliveries next fuel m) (w, g) (fun h _ =>
    (backoffs h <> 0%nat -> exists d, accepts m = Some d /\
       settled_count (EventID d) (w_db w) + Z.of_nat (backoffs h) < CfgMaxAttempts cfg) /\
    (ended h = false -> (backoffs h + deferrals h + failures h)%nat = fuel)).
Proof using L.
  intros Hn Hm. induction fuel as [|n IH]; intros m w g Hw Hb; cbn [redeliveries wp]; [by split|].
  unfold receive. destruct (accepts m) as [d|] eqn:Ea; [|by split].
  assert (MaxAttempts d = CfgMaxAttempts cfg) as Hmx by by rewrite (accepts_policy _ _ Ea).
  apply wp_bind, wp_bind. eapply wp_mono; [apply wp_conj; [by apply HandleDelivery_spec|];
    apply wp_conj; [apply noted_evolves, HandleDelivery_writes_ok|apply (noted_draws before)]|].
  intros err [w' g'] (Hh & He & Hu). cbn [wp fst] in *. destruct err as [e|]; [|by split].
  assert (table_wf (w_db w')) as Hw' by by eapply evolves_wf.
  pose proof (settled_mono (EventID d) _ _ Hw He) as Hmono.
  assert (forall delay backoff, errors_As_Requeue e = Some (delay, backoff) -> released_by LeaseDuration d delay backoff w w') as Hrel.
  { intros delay backoff Ee. cbn in Hh. rewrite Ee in Hh. by apply Hh. }
  apply wp_bind. cbn [snd]. eapply (wp_mono _ _ _ (fun h _ =>
    (backoffs h <> 0%nat -> settled_count (EventID d) (w_db w') + Z.of_nat (backoffs h) < CfgMaxAttempts cfg) /\
    (ended h = false -> (backoffs h + deferrals h + failures h)%nat = n))).
  { assert (wp (noted (among faults clock before)) (redeliveries next n (next m)) (w', g') (fun h _ =>
      (backoffs h <> 0%nat -> settled_count (EventID d) (w_db w') + Z.of_nat (backoffs h) < CfgMaxAttempts cfg) /\
      (ended h = false -> (backoffs h + deferrals h + failures h)%nat = n))) as Hrest.
    { eapply wp_mono; [apply IH; [done|by etrans]|]. intros h _ [H1 H2]. split; [|done]. intros Hne. destruct (H1 Hne) as (d' & Ea' & Hlt).
      destruct (arrives_same _ _ _ Ea (Hn m)) as (d2 & Ea2 & Hid). assert (d2 = d') as -> by congruence. by rewrite <- Hid. }
    by destruct (settles m (Some e)). }
  intros h s1 [H1 H2]. cbn [wp]. unfold counted. destruct (errors_As_Requeue e) as [[delay [|]]|]; cbn [backoffs deferrals failures ended].
  - destruct (released_settled _ _ _ _ _ Hw (Hrel _ _ eq_refl)) as [S1 S2]. rewrite Hmx in S2. specialize (S2 eq_refl Hm). split.
    + intros _. exists d. split; [done|]. destruct (decide (backoffs h = 0%nat)) as [->|H0]; [lia|]. specialize (H1 H0). lia.
    + intros Hen. specialize (H2 Hen). lia.
  - split; [|intros Hen; specialize (H2 Hen); lia]. intros Hne. exists d. split; [done|]. specialize (H1 Hne). lia.
  - split; [|intros Hen; specialize (H2 Hen); lia]. intros Hne. exists d. split; [done|]. specialize (H1 Hne). lia.
Qed.

(** C16: Retrying is bounded, on any backend and among any other processes:
    with a maximum configured, a message is asked back with a counted attempt
    less than that many times, however often it is delivered and whatever the
    database, the breakers and the provider answer. So a chain of
    redeliveries that has not ended after [fuel] of them, with the message
    acknowledged or dropped, came back all but at most [max_attempts - 1]
    times for another reason: a request that counted no attempt, which an
    open circuit makes, or an error the backend redelivers for. *)
Theorem retries_end next fuel m w :
  (forall m, arrives_as m (next m)) -> 0 < CfgMaxAttempts cfg -> table_wf (w_db w) ->
  wp (noted (among faults clock (w_uuids w))) (redeliveries next fuel m) (w, Quiet) (fun h _ =>
    Z.of_nat (backoffs h) < CfgMaxAttempts cfg /\
    (ended h = false -> Z.of_nat fuel - CfgMaxAttempts cfg < Z.of_nat (deferrals h + failures h))).
Proof using L.
  intros Hn Hm Hw. eapply wp_mono; [by apply redeliveries_counted|]. intros h w' [Hb He].
  assert (Z.of_nat (backoffs h) < CfgMaxAttempts cfg) as Hlt.
  { destruct (decide (backoffs h = 0%nat)) as [->|H0]; [lia|]. destruct (Hb H0) as (d & _ & Hlt).
    assert (0 <= settled_count (EventID d) (w_db w)); [|lia]. unfold settled_count.
    destruct (w_db w !! EventID d) as [r|] eqn:Er; [|done]. eapply settled_row. by eapply wf_row. }
  split; [done|]. intros Hen. specialize (He Hen). lia.
Qed.
End worker.
