(* ===== verification/Compensator.v ===== *)
(** * The compensator ([internal/worker/compensator.go])

    The two recovery scans every worker process runs. *)

From S2P Require Import Prelude Prog Errors Json Domain Mq Store Effects Publish.

(** The string member [name] of a result document, as [json.Unmarshal] into a
    struct with that one field reads it; [None] is the unmarshalling error.
    A nil document is empty input. *)
Definition string_member (name : string) (lastResult : option json) : option string :=
  match lastResult with
  | Some (JObj m) => into_string EmptyString (members_of [name] name m)
  | Some JNull => Some EmptyString
  | _ => None
  end.

Definition phaseOf (lastResult : option json) : string :=
  match lastResult with
  | None => PhaseClaimed
  | Some _ =>
      match string_member "phase" lastResult with
      | None => PhaseClaimed
      | Some p => if String.eqb p PhaseRequesting then PhaseRequesting else PhaseClaimed
      end
  end.

Definition outcomeOf (lastResult : option json) : string :=
  match string_member "outcome" lastResult with
  | None => EmptyString
  | Some o => o
  end.

(** [config.CompensatorConfig]. *)
Record CompensatorConfig := {
  PublishScanInterval : Z;
  PublishBatchSize : Z;
  LeaseScanInterval : Z;
  LeaseScanBatchSize : Z;
}.

Section compensator.
Context (uuid_string : UUID -> string) (Cfg : CompensatorConfig) (LeaseDuration : Z).

Definition scanPendingPublish : prog unit :=
  (let limit := if PublishBatchSize Cfg <=? 0 then 500 else PublishBatchSize Cfg in
   ids <- trigger (ERepo (SSelectPendingToPublish limit)) ;;
   match ids with
   | Err _ => Ret tt
   | Ok ids => for_each ids (fun id => PublishAndMark uuid_string id ;;; Ret tt)
   end)%prog.

Definition effective_lease : Z := if LeaseDuration <=? 0 then 60 * time_Second else LeaseDuration.

(** The document written over an expired worker lease. *)
Definition recovery_result (ev : Event) (now : Z) : json :=
  let requestMayHaveBeenSent := String.eqb (phaseOf (LastResult ev)) PhaseRequesting in
  marshal_finished
    {| Outcome := OutcomeRequeueRequested; HTTPStatus := 0;
       ErrorClass := if requestMayHaveBeenSent then "WORKER_LEASE_EXPIRED_DURING_REQUEST" else "WORKER_LEASE_EXPIRED";
       Message := if requestMayHaveBeenSent
                  then "worker lease expired while an outbound request may have been in flight"
                  else "worker lease expired before the provider request completed";
       RequestMayHaveBeenSent := requestMayHaveBeenSent; Retryable := true;
       Finished_NextAttemptAt := Some now; LatencyMs := 0;
       AttemptNumber := AttemptCount ev; FinishedAt := now |}.

Definition recoverOne (ev : Event) : prog unit :=
  (match LeaseToken ev with
   | None =>
       if String.eqb (outcomeOf (LastResult ev)) OutcomeRequeueRequested then
         err <- Repo_exec (SReserveExpiredRequeue (ID ev) effective_lease) ;;
         match err with
         | Some _ => Ret tt
         | None => PublishAndMark uuid_string (ID ev) ;;; Ret tt
         end
       else Ret tt
   | Some tok =>
       now <- trigger ENow ;;
       err <- Repo_exec (SRecoverExpiredToRequeue (ID ev) tok (now + effective_lease) (recovery_result ev now)) ;;
       match err with
       | Some _ => Ret tt
       | None => PublishAndMark uuid_string (ID ev) ;;; Ret tt
       end
   end)%prog.

Definition scanExpiredLeases : prog unit :=
  (let limit := if LeaseScanBatchSize Cfg <=? 0 then 200 else LeaseScanBatchSize Cfg in
   events <- trigger (ERepo (SSelectExpiredLeases limit)) ;;
   match events with
   | Err _ => Ret tt
   | Ok events => for_each events recoverOne
   end)%prog.

(** [Run]'s two loops: the scan once at the start, then once per tick, until
    the context is done. [ticks] says for each wake-up of the [select]
    whether it was the ticker ([true]) or the context. *)
Fixpoint loop_ticks (fn : prog unit) (ticks : list bool) : prog unit :=
  match ticks with
  | true :: rest => (fn ;;; loop_ticks fn rest)%prog
  | _ => Ret tt
  end.

Definition loop (fn : prog unit) (done_after_first : bool) (ticks : list bool) : prog unit :=
  (fn ;;; if done_after_first then Ret tt else loop_ticks fn ticks)%prog.

Definition loop_interval (interval : Z) : Z := if interval <=? 0 then 30 * time_Second else interval.
End compensator.
