(* ===== verification/Service.v ===== *)
(** * The notification use cases ([internal/application/notification])

    Accepting a notification with its idempotency rules, reading its status,
    and listing what can be delivered. *)

From S2P Require Import Prelude Prog Errors Json Domain Mq Provider Store Effects Publish.

Record SubmitCommand := {
  Cmd_SourceSystem : string;
  Cmd_SourceRequestID : string;
  Cmd_ProviderCode : string;
  Cmd_ProviderAction : string;
  Cmd_Payload : string;
}.

Record SubmitResult := {
  SR_EventID : string;
  SR_SourceSystem : string;
  SR_SourceRequestID : string;
  SR_Status : string;
  Duplicate : bool;
  AcceptedAt : Z;
}.

Record StatusQuery := { Q_SourceSystem : string; Q_SourceRequestID : string }.

Record ProviderActionCapability := { PAC_ProviderAction : string; PAC_Description : string }.
Record ProviderCapability := { PC_ProviderCode : string; PC_Actions : list ProviderActionCapability }.

(** ** Canonical comparison of payloads

    The first JSON value of the text, numbers as literals, keys sorted and
    de-duplicated, printed again. *)
Definition canonicalize (raw : string) : option string :=
  match json_decode raw with
  | Some (value, _) => Some (print (to_any value))
  | None => None
  end.

Definition canonicalEqual (a b : string) : bool :=
  match canonicalize a, canonicalize b with
  | Some ca, Some cb => String.eqb ca cb
  | _, _ => String.eqb a b
  end.

Section service.
Context {N : Type} (uuid_string : UUID -> string) (registry : Registry N).

Definition submitResult (event : Event) (duplicate : bool) : SubmitResult :=
  {| SR_EventID := uuid_string (ID event); SR_SourceSystem := SourceSystem event;
     SR_SourceRequestID := SourceRequestID event; SR_Status := Status_string (EvStatus event);
     Duplicate := duplicate; AcceptedAt := CreatedAt event |}.

(** [(result, found, err)]: [Ok None] is "not found", [Ok (Some r)] the
    stored duplicate. *)
Definition resolveExisting (cmd : SubmitCommand) : prog (res (option SubmitResult)) :=
  (existing <- trigger (ERepo (SFindBySourceRequest (Cmd_SourceSystem cmd) (Cmd_SourceRequestID cmd))) ;;
   match existing with
   | Err e =>
       if errors_Is e StoreErrNotFound then Ret (Ok None)
       else Ret (Err (EWrap EmptyString (ESentinel ErrStorageUnavailable) ": idempotency lookup"))
   | Ok existing =>
       if negb (String.eqb (ProviderCode existing) (Cmd_ProviderCode cmd)) ||
          negb (String.eqb (ProviderAction existing) (Cmd_ProviderAction cmd)) ||
          negb (canonicalEqual (Payload existing) (Cmd_Payload cmd))
       then Ret (Err (ESentinel ErrSourceRequestConflict))
       else Ret (Ok (Some (submitResult existing true)))
   end)%prog.

(** The event [Submit] builds; what it does not set is the zero value. *)
Definition new_event (id : UUID) (cmd : SubmitCommand) : Event :=
  {| ID := id; SourceSystem := Cmd_SourceSystem cmd; SourceRequestID := Cmd_SourceRequestID cmd;
     ProviderCode := Cmd_ProviderCode cmd; ProviderAction := Cmd_ProviderAction cmd;
     Payload := Cmd_Payload cmd; EvStatus := StatusUnset; AttemptCount := 0; NextAttemptAt := 0;
     EnqueuedAt := None; LeaseToken := None; LeaseUntil := None; LastResult := None;
     ProviderResponse := None; CreatedAt := 0; UpdatedAt := 0 |}.

(** [Insert] scans the timestamps and sets the status of its argument. *)
Definition scanned (ev : Event) (created updated : Z) : Event :=
  {| ID := ID ev; SourceSystem := SourceSystem ev; SourceRequestID := SourceRequestID ev;
     ProviderCode := ProviderCode ev; ProviderAction := ProviderAction ev; Payload := Payload ev;
     EvStatus := StatusPending; AttemptCount := AttemptCount ev; NextAttemptAt := NextAttemptAt ev;
     EnqueuedAt := EnqueuedAt ev; LeaseToken := LeaseToken ev; LeaseUntil := LeaseUntil ev;
     LastResult := LastResult ev; ProviderResponse := ProviderResponse ev;
     CreatedAt := created; UpdatedAt := updated |}.

Definition malformed (cmd : SubmitCommand) : bool :=
  string_empty (Cmd_SourceSystem cmd) || string_empty (Cmd_SourceRequestID cmd) ||
  string_empty (Cmd_ProviderCode cmd) || string_empty (Cmd_ProviderAction cmd) ||
  string_empty (Cmd_Payload cmd) || negb (json_valid (Cmd_Payload cmd)).

(** The checks made before anything leaves the process. *)
Definition validate_command (cmd : SubmitCommand) : option error :=
  if malformed cmd then Some (ESentinel ErrInvalidRequest)
  else
    match Lookup registry (Cmd_ProviderCode cmd) (Cmd_ProviderAction cmd) with
    | None => Some (ESentinel ErrUnsupportedProviderAction)
    | Some resolved =>
        match Ad_Validate (RA_Adapter resolved) (Cmd_ProviderAction cmd) (Cmd_Payload cmd) with
        | None => None
        | Some e =>
            match errors_As_Validation e with
            | Some problems => Some (EPayloadValidation problems)
            | None => Some (ESentinel ErrInvalidPayload)
            end
        end
    end.

Definition insert_failed : error := EWrap EmptyString (ESentinel ErrStorageUnavailable) ": insert notification".

Definition Submit (cmd : SubmitCommand) : prog (res SubmitResult) :=
  (match validate_command cmd with
   | Some e => Ret (Err e)
   | None =>
       found <- resolveExisting cmd ;;
       match found with
       | Err e => Ret (Err e)
       | Ok (Some result) => Ret (Ok result)
       | Ok None =>
           id <- trigger ENewUUID ;;
           let event := new_event id cmd in
           inserted <- trigger (ERepo (SInsert event)) ;;
           match inserted with
           | Err e =>
               if errors_Is e ErrDuplicateSourceRequest then
                 again <- resolveExisting cmd ;;
                 match again with
                 | Err e => Ret (Err e)
                 | Ok (Some result) => Ret (Ok result)
                 | Ok None => Ret (Err insert_failed)
                 end
               else Ret (Err insert_failed)
           | Ok (created, updated) =>
               PublishAndMark uuid_string id ;;;
               Ret (Ok (submitResult (scanned event created updated) false))
           end
       end
   end)%prog.

Definition GetStatus (query : StatusQuery) : prog (res Event) :=
  (if string_empty (Q_SourceSystem query) || string_empty (Q_SourceRequestID query)
   then Ret (Err (ESentinel ErrInvalidRequest))
   else
     event <- trigger (ERepo (SFindBySourceRequest (Q_SourceSystem query) (Q_SourceRequestID query))) ;;
     match event with
     | Err e =>
         if errors_Is e StoreErrNotFound then Ret (Err (ESentinel ErrNotFound))
         else Ret (Err (EWrap EmptyString (ESentinel ErrStorageUnavailable) ": get notification"))
     | Ok event => Ret (Ok event)
     end)%prog.

(** ** Capabilities *)

Definition by_action (a b : ProviderActionCapability) : Prop :=
  stdpp.strings.String.le (PAC_ProviderAction a) (PAC_ProviderAction b).
#[export] Instance by_action_dec a b : Decision (by_action a b).
Proof using Type. unfold by_action. apply _. Defined.

Definition capability (action : ResolvedAction N) : ProviderActionCapability :=
  {| PAC_ProviderAction := AC_ProviderAction (RA_Context action); PAC_Description := RA_Description action |}.

(** [grouped[code]], in the order the map was ranged over. *)
Definition actions_of (code : string) (l : list (ResolvedAction N)) : list ProviderActionCapability :=
  List.map capability (List.filter (fun a => String.eqb (AC_ProviderCode (RA_Context a)) code) l).

(** [ListCapabilities] when the registry is ranged over in the order [l]. *)
Definition capabilities_of (l : list (ResolvedAction N)) : list ProviderCapability :=
  let codes := merge_sort stdpp.strings.String.le
                 (remove_dups (List.map (fun a => AC_ProviderCode (RA_Context a)) l)) in
  List.map (fun code => {| PC_ProviderCode := code; PC_Actions := merge_sort by_action (actions_of code l) |}) codes.

Definition ListCapabilities : list ProviderCapability :=
  capabilities_of (List.map snd (map_to_list (All registry))).
End service.
