(* ===== verification/System.v ===== *)
(** * Many workers on one table

    Any number of processes, each running any number of deliveries, recovery
    scans and submissions at once over the shared table, interleaved at every
    call; messages delivered twice or never; statements failing or losing
    their answer; processes crashing at any point.  A typestate checked along
    the branches of each handler ([proto]) carries what the handler's own
    control flow guarantees into the interleaving. *)

From S2P Require Import Prelude Prog Errors Json Domain Mq Provider Breaker Limiter Store Lifecycle Effects.
From S2P Require Import Publish Processor Compensator Service.

Section system.
Context {P : Postgres} {N : Type} (registry : Registry N) (uuid_string : UUID -> string)
  (cfg : CompensatorConfig) (LeaseDuration : Z) (maxAttempts : Z)
  (breakers0 : Breakers) (limiters0 : Limiters).

(** ** The interleaving *)

Inductive task :=
| TDeliver (d : Delivery)
| TScanPending
| TScanExpired
| TSubmit (cmd : SubmitCommand)
| TStatus (q : StatusQuery).

Definition task_prog (t : task) : prog unit :=
  (match t with
   | TDeliver d => HandleDelivery (Lookup registry) LeaseDuration d ;;; Ret tt
   | TScanPending => scanPendingPublish uuid_string cfg
   | TScanExpired => scanExpiredLeases uuid_string cfg LeaseDuration
   | TSubmit cmd => Submit uuid_string registry cmd ;;; Ret tt
   | TStatus q => GetStatus q ;;; Ret tt
   end)%prog.

(** Every worker is deployed with the same [max_attempts]. *)
Definition task_ok (t : task) : Prop :=
  match t with TDeliver d => MaxAttempts d = maxAttempts | _ => True end.

Record thread := mkThread { th_proc : nat; th_prog : prog unit }.

Record sys := mkSys {
  sy_db : table;
  sy_uuids : gset UUID;
  sy_calls : list call;
  sy_published : list UUID;
  sy_breakers : nat -> Breakers;
  sy_limiters : nat -> Limiters;
  sy_threads : list thread;
}.

Definition empty_sys : sys :=
  mkSys ∅ ∅ [] [] (fun _ => breakers0) (fun _ => limiters0) [].

Definition upd {A} (f : nat -> A) (p : nat) (a : A) : nat -> A := fun q => if decide (q = p) then a else f q.

Definition world_of (s : sys) (p : nat) : world :=
  mkWorld (sy_db s) (sy_uuids s) (sy_breakers s p) (sy_limiters s p) (sy_calls s) (sy_published s).

Definition put (s : sys) (p : nat) (w : world) (ths : list thread) : sys :=
  mkSys (w_db w) (w_uuids w) (w_calls w) (w_published w)
    (upd (sy_breakers s) p (w_breakers w)) (upd (sy_limiters s) p (w_limiters w)) ths.

Definition set_threads (s : sys) (ths : list thread) : sys :=
  mkSys (sy_db s) (sy_uuids s) (sy_calls s) (sy_published s) (sy_breakers s) (sy_limiters s) ths.

Definition crashed (s : sys) (p : nat) : sys :=
  mkSys (sy_db s) (sy_uuids s) (sy_calls s) (sy_published s)
    (upd (sy_breakers s) p breakers0) (upd (sy_limiters s) p limiters0)
    (List.filter (fun th => negb (th_proc th =? p)%nat) (sy_threads s)).

Inductive sstep : sys -> sys -> Prop :=
| s_spawn s p t : task_ok t -> sstep s (set_threads s (mkThread p (task_prog t) :: sy_threads s))
| s_effect s p X (e : eff X) k x w' l1 l2 :
    sy_threads s = l1 ++ mkThread p (Vis e k) :: l2 ->
    local X e (world_of s p) x w' ->
    sstep s (put s p w' (l1 ++ mkThread p (k x) :: l2))
| s_exit s p l1 l2 :
    sy_threads s = l1 ++ mkThread p (Ret tt) :: l2 -> sstep s (set_threads s (l1 ++ l2))
| s_crash s p : sstep s (crashed s p).

(** ** The protocol *)

(** [Idle]: nothing claimed. [Fresh u]: a new id, not used yet. [Held tok
    ev]: [ev] was claimed with [tok] and no provider was called for it.
    [Sent tok ev ok]: one was, and [ok] if it reported success. [Off]: the
    database answered something it cannot answer. *)
Inductive ts := Idle | Fresh (u : UUID) | Held (tok : UUID) (ev : Event) | Sent (tok : UUID) (ev : Event) (ok : bool) | Off.

Definition eligible (n : Z) : bool := (maxAttempts <=? 0) || (n <=? maxAttempts).
Definition exhausted (n : Z) : bool := (0 <? maxAttempts) && (maxAttempts <=? n).
Definition past (n : Z) : bool := (0 <? maxAttempts) && (maxAttempts <? n).

Definition ours (id tok : UUID) (g : ts) : bool :=
  match g with
  | Held tok' ev | Sent tok' ev _ => bool_decide (tok = tok') && bool_decide (id = ID ev)
  | _ => false
  end.

Definition requeue_docb (j : json) : bool :=
  match json_get "outcome" j with Some (JStr s) => String.eqb s OutcomeRequeueRequested | _ => false end.

Definition answer_ok (x : option Result * option error) : bool :=
  match x with (Some r, None) => Success r | _ => false end.

Definition guard (b : bool) (g : ts) : option ts := if b then Some g else None.

Definition count_ok (ev : Event) : bool := (1 <=? AttemptCount ev) && (AttemptCount ev <=? 32767).

Definition stmt_proto {A} (s : stmt A) (g : ts) : res A -> option ts :=
  match s in stmt A return res A -> option ts with
  | SInsert ev => fun _ => match g with Fresh u => guard (bool_decide (ID ev = u)) Idle | _ => None end
  | SClaim id tok _ _ => fun x =>
      match g with
      | Fresh u =>
          guard (bool_decide (tok = u))
            match x with
            | Ok ev => if count_ok ev && bool_decide (ID ev = id) then Held tok ev else Off
            | Err _ => Idle
            end
      | _ => None
      end
  | SRenewLease id tok _ | SMarkRequesting id tok _ => fun _ => guard (ours id tok g) g
  | SMarkSucceeded id tok _ _ => fun _ =>
      match g with Sent _ _ true => guard (ours id tok g) Idle | _ => None end
  | SMarkWaitingForRequeue id tok _ res _ => fun _ => guard (ours id tok g && requeue_docb res) Idle
  | SMarkCircuitOpenWaitingForRequeue id tok _ res => fun _ =>
      match g with Held _ ev => guard (ours id tok g && requeue_docb res && eligible (AttemptCount ev)) Idle | _ => None end
  | SMarkFailed id tok _ _ => fun _ =>
      match g with
      | Held _ ev | Sent _ ev _ => guard (ours id tok g && exhausted (AttemptCount ev)) Idle
      | _ => None
      end
  | SMarkFailedWithoutProviderAttempt id tok _ => fun _ =>
      match g with Held _ ev => guard (ours id tok g && past (AttemptCount ev)) Idle | _ => None end
  | SRecoverExpiredToRequeue _ _ _ res => fun _ => guard (requeue_docb res) g
  | _ => fun _ => Some g
  end.

Definition send_ok (ac : ActionContext) (action payload : string) (ev : Event) : bool :=
  String.eqb (AC_SourceSystem ac) (SourceSystem ev) && String.eqb (AC_SourceRequestID ac) (SourceRequestID ev) &&
  String.eqb action (ProviderAction ev) && String.eqb payload (Payload ev) && eligible (AttemptCount ev).

Definition proto : protocol eff ts := fun X e g =>
  match g with
  | Off => fun _ => Some Off
  | _ =>
      match e in eff X return X -> option ts with
      | ENewUUID => fun u => match g with Idle => Some (Fresh u) | _ => None end
      | ERepo s => fun x => stmt_proto s g x
      | ESend _ ac action payload => fun x =>
          match g with
          | Held tok ev => guard (send_ok ac action payload ev) (Sent tok ev (answer_ok x))
          | _ => None
          end
      | _ => fun _ => Some g
      end
  end.

(** ** Every task follows the protocol *)

#[local] Opaque marshal_finished marshal_claimed marshal_requesting.

Lemma follows_off {A} (p : prog A) : follows proto Off p.
Proof using Type. by apply obeys_anything. Qed.

Lemma requeue_docb_finished f : Outcome f = OutcomeRequeueRequested -> requeue_docb (marshal_finished f) = true.
Proof using Type. intros H. unfold requeue_docb. by rewrite finished_outcome, H. Qed.

Lemma ours_held tok ev : ours (ID ev) tok (Held tok ev) = true.
Proof using Type. unfold ours. by rewrite !bool_decide_eq_true_2. Qed.

Lemma ours_sent tok ev ok : ours (ID ev) tok (Sent tok ev ok) = true.
Proof using Type. unfold ours. by rewrite !bool_decide_eq_true_2. Qed.

(** Calls that are allowed in every state and leave it. *)
Lemma follows_now {A} g (k : Z -> prog A) Q :
  (forall t, obeys proto g (k t) Q) -> obeys proto g (Prog.bind (trigger ENow) k) Q.
Proof using Type. intros H t. exists g. split; [by destruct g|apply H]. Qed.

Lemma follows_exec {A} (s : stmt unit) g g' (k : option error -> prog A) Q :
  (forall x, proto _ (ERepo s) g x = Some g') -> (forall e, obeys proto g' (k e) Q) ->
  obeys proto g (Prog.bind (Repo_exec s) k) Q.
Proof using Type. intros Hs Hk x. exists g'. split; [apply Hs|apply Hk]. Qed.

Lemma PublishAndMark_obeys g id : obeys proto g (PublishAndMark uuid_string id) (fun _ g' => g' = g).
Proof using Type.
  intros x. exists g. split; [by destruct g|]. destruct x as [r|e]; [|done]. cbn.
  destruct (Durable r); cbn; [|done]. intros y. exists g. split; [by destruct g|]. by destruct y.
Qed.

Section delivery.
Context (d : Delivery).
Hypothesis Hmax : MaxAttempts d = maxAttempts.

Lemma count_uint32 ev : count_ok ev = true -> uint32 (AttemptCount ev) = AttemptCount ev.
Proof using Type. unfold count_ok. intros H. bool_to_prop. apply uint32_small. lia. Qed.

Lemma exhausted_code ev : count_ok ev = true -> persistedAttemptsExhausted d ev = exhausted (AttemptCount ev).
Proof using Hmax.
  intros H. unfold persistedAttemptsExhausted, exhausted. rewrite count_uint32, Hmax by done.
  unfold count_ok in H. bool_to_prop. by replace (0 <? AttemptCount ev) with true by lia; rewrite andb_true_r.
Qed.

Lemma past_code ev : count_ok ev = true -> claimed_past_budget d ev = past (AttemptCount ev).
Proof using Hmax.
  intros H. unfold claimed_past_budget, past. rewrite count_uint32, Hmax by done.
  unfold count_ok in H. bool_to_prop. by replace (0 <? AttemptCount ev) with true by lia; rewrite andb_true_r.
Qed.

Lemma eligible_past n : past n = false -> eligible n = true.
Proof using Type. unfold past, eligible. lia. Qed.

Lemma release_follows g ev tok result latency :
  ours (ID ev) tok g = true -> follows proto g (releaseForRequeue LeaseDuration ev tok d result latency).
Proof using Type.
  intros Ho. apply follows_now. intros t. cbn zeta. eapply (follows_exec _ _ Idle).
  - intros x. destruct g; try done; cbn -[ours requeue_docb]; by rewrite Ho, requeue_docb_finished.
  - intros e. by destruct e.
Qed.

Lemma retry_follows g ev tok result latency :
  count_ok ev = true -> g = Held tok ev \/ (exists ok, g = Sent tok ev ok) ->
  follows proto g (retryOrFail LeaseDuration ev tok d result latency).
Proof using Hmax.
  intros Hc Hg. assert (ours (ID ev) tok g = true) as Ho.
  { destruct Hg as [->|[ok ->]]; [apply ours_held|apply ours_sent]. }
  unfold retryOrFail. rewrite exhausted_code by done.
  destruct (exhausted _) eqn:Ex; [|by apply release_follows].
  apply follows_now. intros t. cbn zeta. eapply (follows_exec _ _ Idle); [|done].
  intros x. destruct Hg as [->|[ok ->]]; cbn -[ours]; by rewrite Ho, Ex.
Qed.

Lemma defer_follows ev tok after :
  eligible (AttemptCount ev) = true -> follows proto (Held tok ev) (deferForOpenCircuit LeaseDuration ev tok d after).
Proof using Type.
  intros Hel. apply follows_now. intros t. cbn zeta. eapply (follows_exec _ _ Idle); [|by intros []].
  intros x. cbn -[ours requeue_docb]. by rewrite ours_held, requeue_docb_finished, Hel.
Qed.

Lemma finish_follows ev tok mx :
  past (AttemptCount ev) = true -> follows proto (Held tok ev) (finishExhaustedBeforeProvider ev tok mx).
Proof using Type.
  intros Hp. apply follows_now. intros t. cbn zeta. eapply (follows_exec _ _ Idle); [|done].
  intros x. cbn -[ours]. by rewrite ours_held, Hp.
Qed.

Lemma classify_ok answer : Success (classify answer.1 answer.2).1 = true -> answer_ok answer = true.
Proof using Type. destruct answer as [[r|] [e|]]; by cbn. Qed.

Lemma with_slot_follows ev tok (resolved : ResolvedAction N) permit :
  count_ok ev = true -> eligible (AttemptCount ev) = true ->
  follows proto (Held tok ev) (with_slot LeaseDuration ev tok d resolved permit).
Proof using Hmax.
  intros Hc Hel. unfold with_slot. apply obeys_bind.
  assert (forall e, follows proto (Held tok ev) (trigger (EAbort permit) ;;; Ret (settle e))%prog) as Hab.
  { intros e x. by exists (Held tok ev). }
  intros t1. exists (Held tok ev). split; [done|]. intros x1. exists (Held tok ev).
  split; [cbn -[ours]; by rewrite ours_held|]. cbn [obeys Prog.bind]. destruct (err_of x1) as [e|]; [apply Hab|].
  eapply (follows_exec _ _ (Held tok ev)); [intros x; cbn -[ours]; by rewrite ours_held|].
  intros [e|]; [apply Hab|]. cbn zeta. apply follows_now. intros start answer.
  exists (Sent tok ev (answer_ok answer)). split.
  { cbn. unfold send_ok. by rewrite !String.eqb_refl, Hel. }
  apply follows_now. intros stop. unfold after_send. pose proof (classify_ok answer) as Hs.
  destruct (classify answer.1 answer.2) as [result obs]. intros u.
  exists (Sent tok ev (answer_ok answer)). split; [done|]. cbn [Prog.bind].
  destruct (Success result) eqn:Es; [|by apply retry_follows; eauto].
  rewrite (Hs Es). apply follows_now. intros t. cbn zeta.
  eapply (follows_exec _ _ Idle); [|done]. intros x. cbn -[ours]. by rewrite ours_sent.
Qed.

Lemma process_follows ev tok :
  count_ok ev = true -> follows proto (Held tok ev) (process (Lookup registry) LeaseDuration ev tok d).
Proof using Hmax.
  intros Hc. unfold process. rewrite past_code by done.
  destruct (past _) eqn:Ep; [by apply finish_follows|]. apply eligible_past in Ep.
  destruct (Lookup _ _ _) as [resolved|]; [|by apply retry_follows; auto].
  intros decision. exists (Held tok ev). split; [done|]. cbn [Prog.bind].
  destruct (Allowed decision); cbn [negb]; [|by apply defer_follows].
  intros err. exists (Held tok ev). split; [done|]. cbn [Prog.bind]. destruct err as [e|].
  - intros u. by exists (Held tok ev).
  - apply obeys_bind. eapply obeys_mono; [by apply with_slot_follows|].
    intros r g' _ u. exists g'. split; [by destruct g'|done].
Qed.

Lemma HandleDelivery_follows : follows proto Idle (HandleDelivery (Lookup registry) LeaseDuration d).
Proof using Hmax.
  intros tok. exists (Fresh tok). split; [done|]. cbn [Prog.bind].
  apply obeys_bind. intros t. exists (Fresh tok). split; [done|]. intros r. cbn [obeys].
  eexists. split; [cbn; by rewrite bool_decide_eq_true_2|].
  destruct r as [ev|e]; [|by destruct (errors_Is e _)].
  destruct (count_ok ev && _) eqn:Hc; [|apply follows_off]. bool_to_prop. by apply process_follows.
Qed.
End delivery.

Lemma recoverOne_obeys ev : obeys proto Idle (recoverOne uuid_string LeaseDuration ev) (fun _ g' => g' = Idle).
Proof using Type.
  assert (obeys proto Idle (PublishAndMark uuid_string (ID ev) ;;; Ret tt)%prog (fun _ g' => g' = Idle)) as Hp.
  { apply obeys_bind. eapply obeys_mono; [apply PublishAndMark_obeys|]. by intros ? ? ->. }
  unfold recoverOne. destruct (LeaseToken ev) as [tok|].
  - apply follows_now. intros t. eapply (follows_exec _ _ Idle).
    + intros x. cbn. unfold recovery_result. by rewrite requeue_docb_finished.
    + by intros [e|].
  - destruct (String.eqb _ _); [|done]. eapply (follows_exec _ _ Idle); [done|]. by intros [e|].
Qed.

Lemma resolveExisting_obeys g cmd : obeys proto g (resolveExisting uuid_string cmd) (fun _ g' => g' = g).
Proof using Type.
  intros x. exists g. split; [by destruct g|]. cbn. destruct x as [ev|e]; by case_match.
Qed.

Lemma Submit_follows cmd : follows proto Idle (Submit uuid_string registry cmd).
Proof using Type.
  unfold Submit. destruct (validate_command registry cmd); [done|]. apply obeys_bind.
  eapply obeys_mono; [apply resolveExisting_obeys|]. intros [[r|]|e] ? ->; [done| |done].
  intros id. exists (Fresh id). split; [done|]. cbn [Prog.bind]. intros x. exists Idle.
  split; [cbn; by rewrite bool_decide_eq_true_2|]. cbn [Prog.bind]. destruct x as [[c u]|e].
  - apply obeys_bind. eapply obeys_mono; [apply PublishAndMark_obeys|]. by intros ? ? ->.
  - destruct (errors_Is e _); [|done]. apply obeys_bind.
    eapply obeys_mono; [apply resolveExisting_obeys|]. intros [[r|]|e'] ? ->; done.
Qed.

Lemma task_follows t : task_ok t -> follows proto Idle (task_prog t).
Proof using Type.
  destruct t as [d| | |cmd|q]; cbn [task_prog task_ok]; intros Hok.
  - apply obeys_bind. eapply obeys_mono; [by apply HandleDelivery_follows|done].
  - intros ids. exists Idle. split; [done|]. cbn [Prog.bind]. destruct ids as [ids|e]; [|done].
    apply obeys_for_each; [|done]. intros id. apply obeys_bind.
    eapply obeys_mono; [apply PublishAndMark_obeys|]. by intros ? ? ->.
  - intros evs. exists Idle. split; [done|]. cbn [Prog.bind]. destruct evs as [evs|e]; [|done].
    apply obeys_for_each; [|done]. intros ev. apply recoverOne_obeys.
  - apply obeys_bind. eapply obeys_mono; [apply Submit_follows|done].
  - unfold GetStatus. case_match; [done|]. intros x. exists Idle. split; [done|].
    cbn. destruct x as [ev|e]; [done|by case_match].
Qed.
End system.
