(* ===== verification/SystemSpec.v ===== *)
(** * What holds however the workers interleave

    The invariant of [System]'s interleaving: how often a provider is called
    for an event, what a terminal status means, and that nothing a worker, a
    scan, a redelivery or a crash does can undo either. *)

From S2P Require Import Prelude Prog Errors Json Domain Mq Provider Breaker Limiter Store Lifecycle Effects.
From S2P Require Import StoreSpec Among Publish Processor Compensator Service ProcessorSpec System.

(** ** Counting *)

Definition same_source_call (r : Event) (c : call) : bool :=
  String.eqb (AC_SourceSystem (call_ac c)) (SourceSystem r) &&
  String.eqb (AC_SourceRequestID (call_ac c)) (SourceRequestID r).

(** The provider calls made for the event. *)
Definition calls_of (r : Event) (calls : list call) : nat := length (List.filter (same_source_call r) calls).

Lemma calls_of_identity r r' calls : same_identity r r' -> calls_of r' calls = calls_of r calls.
Proof.
  intros (_ & H1 & H2 & _). unfold calls_of, same_source_call. f_equal.
  apply List.filter_ext. intros c. by rewrite H1, H2.
Qed.

Lemma call_for_identity c r r' : same_identity r r' -> call_for c r -> call_for c r'.
Proof. intros (? & ? & ? & ? & ? & ? & ?) (? & ? & ? & ?). unfold call_for. repeat split; congruence. Qed.

Section invariant.
Context (mx : Z).

(** A claimed attempt that may still call the provider. *)
Definition credit (id : UUID) (g : ts) : nat :=
  match g with Held _ ev => if bool_decide (ID ev = id) && eligible mx (AttemptCount ev) then 1 else 0 | _ => 0 end%nat.

#[local] Arguments credit : simpl never.

Definition credits (id : UUID) (gs : list ts) : nat := sum_list_with (credit id) gs.

Definition tok_of (g : ts) : list UUID :=
  match g with Fresh u => [u] | Held tok _ | Sent tok _ _ => [tok] | _ => [] end.

Definition toks (gs : list ts) : list UUID := List.concat (List.map tok_of gs).

Definition bound (n : Z) : Z := if mx <=? 0 then n else Z.min n mx.

Definition lease_ok (db : table) (tok : UUID) (ev : Event) : Prop :=
  (exists r, db !! ID ev = Some r /\ same_identity ev r /\
             (LeaseToken r = Some tok -> AttemptCount r = AttemptCount ev)) /\
  (forall id r, db !! id = Some r -> LeaseToken r = Some tok -> id = ID ev).

Definition thread_ok (db : table) (uuids : gset UUID) (calls : list call) (g : ts) : Prop :=
  match g with
  | Idle => True
  | Fresh u => u ∈ uuids /\ forall id r, db !! id = Some r -> LeaseToken r <> Some u
  | Held tok ev => tok ∈ uuids /\ lease_ok db tok ev
  | Sent tok ev ok =>
      tok ∈ uuids /\ lease_ok db tok ev /\
      (ok = true -> exists c, c ∈ calls /\ call_for c ev /\ reported_success c)
  | Off => False
  end.

Definition done_ok (calls : list call) (r : Event) : Prop :=
  (EvStatus r = StatusSucceeded -> exists c, c ∈ calls /\ call_for c r /\ reported_success c) /\
  (EvStatus r = StatusFailed -> 0 < mx <= AttemptCount r).

Record inv (db : table) (uuids : gset UUID) (calls : list call) (gs : list ts) : Prop := {
  i_wf : table_wf db;
  i_tok : forall id r tok, db !! id = Some r -> LeaseToken r = Some tok -> tok ∈ uuids;
  i_nodup : NoDup (toks gs);
  i_threads : forall g, g ∈ gs -> thread_ok db uuids calls g;
  i_count : forall id r, db !! id = Some r -> Z.of_nat (calls_of r calls + credits id gs) <= bound (AttemptCount r);
  i_calls : forall c, c ∈ calls -> exists id r, db !! id = Some r /\ call_for c r;
  i_done : forall id r, db !! id = Some r -> done_ok calls r;
}.

Lemma toks_mid gs1 g gs2 : toks (gs1 ++ g :: gs2) = toks gs1 ++ tok_of g ++ toks gs2.
Proof using Type. unfold toks. by rewrite List.map_app, List.concat_app. Qed.

Lemma credits_mid id gs1 g gs2 :
  credits id (gs1 ++ g :: gs2) = (credits id gs1 + (credit id g + credits id gs2))%nat.
Proof using Type. unfold credits. by rewrite sum_list_with_app. Qed.

Definition tok_sub (g g' : ts) : Prop := tok_of g' = tok_of g \/ tok_of g' = [].

Lemma toks_sub gs1 g g' gs2 : tok_sub g g' -> NoDup (toks (gs1 ++ g :: gs2)) -> NoDup (toks (gs1 ++ g' :: gs2)).
Proof using Type.
  rewrite !toks_mid. intros [->| ->] H; [done|]. cbn.
  apply NoDup_app in H as (H1 & H2 & H3). apply NoDup_app in H3 as (_ & _ & H4).
  apply NoDup_app. split; [done|]. split; [|done]. intros x Hx Hx2. apply (H2 x Hx), elem_of_app. by right.
Qed.

Lemma elem_mid (g g' : ts) gs1 gs2 : g' ∈ gs1 ++ g :: gs2 <-> g' = g \/ g' ∈ gs1 ++ gs2.
Proof using Type. rewrite !elem_of_app, elem_of_cons. tauto. Qed.

(** The other threads' tokens are not this one's. *)
Lemma other_tok gs1 g gs2 g0 tok :
  NoDup (toks (gs1 ++ g :: gs2)) -> g0 ∈ gs1 ++ gs2 -> tok ∈ tok_of g -> tok ∉ tok_of g0.
Proof using Type.
  rewrite toks_mid. intros H H0 Ht Ht0. apply NoDup_app in H as (_ & H2 & H3). apply NoDup_app in H3 as (_ & H4 & _).
  assert (forall gs, g0 ∈ gs -> tok ∈ toks gs) as Hin.
  { intros gs Hgs. unfold toks. apply list_elem_of_In, List.in_concat. exists (tok_of g0).
    split; [apply List.in_map|]; by apply list_elem_of_In. }
  apply elem_of_app in H0 as [H0|H0].
  - apply (H2 tok (Hin _ H0)), elem_of_app. by left.
  - by apply (H4 tok Ht), Hin.
Qed.

(** Nothing but the acting thread's state changes. *)
Lemma inv_neutral db uuids calls gs1 g g' gs2 :
  inv db uuids calls (gs1 ++ g :: gs2) -> tok_sub g g' -> thread_ok db uuids calls g' ->
  (forall id, credit id g' <= credit id g)%nat -> inv db uuids calls (gs1 ++ g' :: gs2).
Proof using Type.
  intros [Hw Ht Hn Hth Hc Hcs Hd] Hs Hg' Hcr. split; try done.
  - by eapply toks_sub.
  - intros g0. rewrite elem_mid. intros [->|H0]; [done|]. apply Hth, elem_mid. by right.
  - intros id r Hr. specialize (Hc _ _ Hr). specialize (Hcr id). rewrite credits_mid in *. lia.
Qed.

Lemma inv_idle db uuids calls gs1 g gs2 :
  inv db uuids calls (gs1 ++ g :: gs2) -> inv db uuids calls (gs1 ++ Idle :: gs2).
Proof using Type. intros H. eapply inv_neutral; [done|by right|done|]. intros id. unfold credit. lia. Qed.

(** Threads leave and start. *)
Lemma inv_sub db uuids calls gs gs' :
  inv db uuids calls gs -> gs' `sublist_of` gs -> inv db uuids calls gs'.
Proof using Type.
  intros [Hw Ht Hn Hth Hc Hcs Hd] Hs.
  assert (forall id, credits id gs' <= credits id gs)%nat as Hcr.
  { intros id. unfold credits. clear -Hs. induction Hs as [|x l1 l2 _ IH|x l1 l2 _ IH]; cbn; lia. }
  split; try done.
  - clear -Hs Hn. unfold toks in *.
    assert (List.concat (List.map tok_of gs') `sublist_of` List.concat (List.map tok_of gs)) as H.
    { clear Hn. induction Hs; cbn; [done|by apply sublist_app|by apply sublist_inserts_l]. }
    by eapply sublist_NoDup.
  - intros g Hg. apply Hth. by eapply elem_of_sublist.
  - intros id r Hr. specialize (Hc _ _ Hr). specialize (Hcr id). lia.
Qed.

Lemma inv_start db uuids calls gs : inv db uuids calls gs -> inv db uuids calls (Idle :: gs).
Proof using Type.
  intros [Hw Ht Hn Hth Hc Hcs Hd]. split; try done.
  intros g. rewrite elem_of_cons. intros [->|Hg]; [done|auto].
Qed.

Lemma inv_uuid db uuids calls gs1 gs2 u :
  u ∉ uuids -> inv db uuids calls (gs1 ++ Idle :: gs2) ->
  inv db ({[u]} ∪ uuids) calls (gs1 ++ Fresh u :: gs2).
Proof using Type.
  intros Hu [Hw Ht Hn Hth Hc Hcs Hd].
  assert (forall g, g ∈ gs1 ++ Idle :: gs2 -> u ∉ tok_of g) as Hnew.
  { intros g Hg Hin. specialize (Hth _ Hg).
    destruct g; cbn in *; try rewrite list_elem_of_singleton in Hin; subst; try by apply elem_of_nil in Hin.
    all: naive_solver. }
  assert (forall gs, (forall g, g ∈ gs -> u ∉ tok_of g) -> u ∉ toks gs) as Hnot.
  { intros gs Hgs Hin. apply list_elem_of_In, List.in_concat in Hin as (l & Hl & Hul).
    apply List.in_map_iff in Hl as (g & <- & Hg). apply (Hgs g); by apply list_elem_of_In. }
  split; try done.
  - intros id r tok Hr Htok. apply elem_of_union_r. by eapply Ht.
  - rewrite toks_mid in *. cbn in *. apply NoDup_app in Hn as (H1 & H2 & H3).
    apply NoDup_app. split; [done|]. split.
    + intros x Hx. rewrite elem_of_cons. intros [->|Hx2]; [|by apply (H2 x)].
      revert Hx. apply Hnot. intros g Hg. apply Hnew, elem_of_app. by left.
    + apply NoDup_cons. split; [|done]. apply Hnot. intros g Hg. apply Hnew, elem_of_app. right. by right.
  - intros g. rewrite elem_mid. intros [->|Hg].
    + split; [set_solver|]. intros id r Hr Htok. by apply Hu, (Ht id r).
    + assert (thread_ok db uuids calls g) as Hok by (apply Hth, elem_mid; by right).
      destruct g; cbn in *; try done; destruct Hok as [Hin Hok]; (split; [set_solver|done]).
  - intros id r Hr. specialize (Hc _ _ Hr). rewrite credits_mid in *. unfold credit in *. lia.
Qed.

(** A row changes under a thread that is not the one changing it. *)
Definition token_step (avoid : list UUID) (r r' : Event) : Prop :=
  LeaseToken r' = None \/
  (LeaseToken r' = LeaseToken r /\ AttemptCount r' = AttemptCount r) \/
  exists tok, LeaseToken r' = Some tok /\ tok ∉ avoid.

Lemma thread_ok_update db uuids calls g id r r' :
  thread_ok db uuids calls g -> db !! id = Some r -> ID r = id -> same_identity r r' -> token_step (tok_of g) r r' ->
  thread_ok (<[id := r']> db) uuids calls g.
Proof using Type.
  intros Hok Hr Hid Hsame Hstep.
  assert (forall tok, tok ∈ tok_of g -> LeaseToken r' = Some tok ->
            LeaseToken r = Some tok /\ AttemptCount r' = AttemptCount r) as Hkeep.
  { intros tok Hin E. destruct Hstep as [Hs|[[Hs1 Hs2]|(tok' & Hs1 & Hs2)]]; [congruence|by rewrite <- Hs1|].
    rewrite E in Hs1. simplify_eq. done. }
  assert (forall tok ev, tok ∈ tok_of g -> lease_ok db tok ev -> lease_ok (<[id := r']> db) tok ev) as Hlease.
  { intros tok ev Hin [(q & Hq & Hqs & Hqc) Huniq]. split.
    - rewrite lookup_insert. case_decide as Hi; [|by exists q]. subst.
      assert (q = r) as -> by congruence. exists r'. split; [done|]. split; [by etrans|].
      intros E. destruct (Hkeep _ Hin E) as [E1 E2]. rewrite E2. auto.
    - intros i q' . rewrite lookup_insert. case_decide; [|by apply Huniq].
      intros [= <-] E. destruct (Hkeep _ Hin E) as [E1 _]. subst. by apply (Huniq _ r). }
  destruct g as [|u|tok ev|tok ev ok|]; cbn in *; try done.
  - destruct Hok as [Hin Hok]. split; [done|]. intros i q. rewrite lookup_insert. case_decide; [|by apply Hok].
    intros [= <-] E. destruct (Hkeep u) as [E1 _]; [by left|done|]. by apply (Hok id r).
  - destruct Hok as [Hin Hok]. split; [done|]. apply Hlease; [by left|done].
  - destruct Hok as (Hin & Hok & Hs). split; [done|]. split; [apply Hlease; [by left|done]|done].
Qed.

Lemma inv_update now db uuids calls gs1 g g' gs2 id r r' :
  inv db uuids calls (gs1 ++ g :: gs2) -> db !! id = Some r -> row_step now r r' ->
  (LeaseToken r' = None \/ (LeaseToken r' = LeaseToken r /\ AttemptCount r' = AttemptCount r) \/
   (exists tok, g = Fresh tok /\ LeaseToken r' = Some tok)) ->
  (forall c, c + Z.of_nat (credit id g) <= bound (AttemptCount r) -> c + Z.of_nat (credit id g') <= bound (AttemptCount r')) ->
  (forall i, i <> id -> credit i g' <= credit i g)%nat ->
  tok_sub g g' -> thread_ok (<[id := r']> db) uuids calls g' -> done_ok calls r' ->
  inv (<[id := r']> db) uuids calls (gs1 ++ g' :: gs2).
Proof using Type.
  intros Hinv Hr Hstep Htok Hcnt Hcro Hsub Hg' Hdone. pose proof Hinv as [Hw Ht Hn Hth Hc Hcs Hd].
  pose proof (row_step_identity _ _ _ Hstep) as Hsame. pose proof (wf_id _ Hw _ _ Hr) as Hid.
  split.
  - eapply table_step_wf; [by eapply ts_row|done].
  - intros i q tok. rewrite lookup_insert. case_decide; [|by apply Ht]. intros [= <-] E.
    destruct Htok as [Hs|[[Hs _]|(u & -> & Hs)]]; [congruence|apply (Ht id r); congruence|].
    assert (u = tok) as -> by congruence.
    assert (thread_ok db uuids calls (Fresh tok)) as [? _] by (apply Hth, elem_mid; by left). done.
  - by eapply toks_sub.
  - intros g0. rewrite elem_mid. intros [->|H0]; [done|].
    eapply thread_ok_update; [apply Hth, elem_mid; by right|done..|].
    destruct Htok as [Hs|[Hs|(u & -> & Hs)]]; [by left|by right; left|]. right. right. exists u. split; [done|].
    eapply other_tok; [done|done|by left].
  - intros i q. rewrite lookup_insert. case_decide as Hi.
    + intros [= <-]. subst i. specialize (Hc _ _ Hr). rewrite credits_mid in *.
      rewrite (calls_of_identity _ _ _ Hsame).
      specialize (Hcnt (Z.of_nat (calls_of r calls + credits id gs1 + credits id gs2))). lia.
    + intros Hq. specialize (Hc _ _ Hq). specialize (Hcro i ltac:(congruence)). rewrite credits_mid in *. lia.
  - intros c Hcc. destruct (Hcs c Hcc) as (i & q & Hq & Hfor). destruct (decide (i = id)) as [->|Hi].
    + exists id, r'. rewrite lookup_insert_eq. split; [done|]. assert (q = r) as -> by congruence.
      by eapply call_for_identity.
    + exists i, q. by rewrite lookup_insert_ne by congruence.
  - intros i q. rewrite lookup_insert. case_decide; [by intros [= <-]|by apply Hd].
Qed.

Lemma inv_insert now db uuids calls gs r :
  inv db uuids calls gs -> fresh_row now db r -> inv (<[ID r := r]> db) uuids calls gs.
Proof using Type.
  intros Hinv Hf. pose proof Hinv as [Hw Ht Hn Hth Hc Hcs Hd]. pose proof Hf as (Hnone & Hsrc & Hst & Hac & Htok & _).
  assert (forall i q, db !! i = Some q -> <[ID r := r]> db !! i = Some q) as Hkeep.
  { intros i q Hq. rewrite lookup_insert_ne; [done|congruence]. }
  split.
  - eapply table_step_wf; [by apply (ts_insert now)|done].
  - intros i q tok. rewrite lookup_insert. case_decide; [|by apply Ht]. intros [= <-]. congruence.
  - done.
  - intros g Hg. specialize (Hth _ Hg).
    assert (forall tok ev, lease_ok db tok ev -> lease_ok (<[ID r := r]> db) tok ev) as Hlease.
    { intros tok ev [(q & Hq & H1) H2]. split; [exists q; by rewrite (Hkeep _ _ Hq)|].
      intros i q'. rewrite lookup_insert. case_decide; [intros [= <-]; congruence|by apply H2]. }
    destruct g as [|u|tok ev|tok ev ok|]; cbn in *; try done.
    + destruct Hth as [? Hu]. split; [done|]. intros i q. rewrite lookup_insert.
      case_decide; [intros [= <-]; congruence|by apply Hu].
    + destruct Hth as [? ?]. split; [done|by apply Hlease].
    + destruct Hth as (? & ? & ?). split; [done|]. split; [by apply Hlease|done].
  - intros i q. rewrite lookup_insert. case_decide as Hi; [|by apply Hc]. intros [= <-]. subst i.
    assert (calls_of r calls = 0)%nat as ->.
    { unfold calls_of. destruct (List.filter _ calls) as [|c l] eqn:E; [done|]. exfalso.
      assert (c ∈ List.filter (same_source_call r) calls) as Hin by (rewrite E; by left).
      apply list_elem_of_In, List.filter_In in Hin as [Hin Hs]. apply list_elem_of_In in Hin.
      destruct (Hcs c Hin) as (i & q & Hq & (_ & _ & F1 & F2)). specialize (Hsrc _ _ Hq).
      apply not_true_iff_false in Hsrc. apply Hsrc, same_source_spec.
      unfold same_source_call in Hs. bool_to_prop. apply String.eqb_eq in H, H0. split; congruence. }
    assert (credits (ID r) gs = 0)%nat as ->.
    { unfold credits. clear -Hth Hnone. induction gs as [|g gs IH]; [done|]. cbn.
      rewrite IH by (intros g0 Hg0; apply Hth; by right).
      assert (thread_ok db uuids calls g) as Hg by (apply Hth; by left).
      destruct g as [|u|tok ev|tok ev ok|]; try done. unfold credit.
      destruct Hg as (_ & (q & Hq & _) & _). rewrite bool_decide_eq_false_2; [done|]. congruence. }
    unfold bound. rewrite Hac. destruct (Z.leb_spec mx 0); lia.
  - intros c Hcc. destruct (Hcs c Hcc) as (i & q & Hq & Hfor). exists i, q. by rewrite (Hkeep _ _ Hq).
  - intros i q. rewrite lookup_insert. case_decide; [|by apply Hd]. intros [= <-].
    split; intros; congruence.
Qed.

Lemma send_ok_spec ac action payload ev adapter x :
  send_ok mx ac action payload ev = true ->
  call_for (mkCall adapter ac action payload x) ev /\ eligible mx (AttemptCount ev) = true.
Proof using Type.
  unfold send_ok, call_for. intros H. bool_to_prop.
  repeat match goal with E : String.eqb _ _ = true |- _ => apply String.eqb_eq in E end. by cbn.
Qed.

Lemma calls_of_cons r c calls :
  calls_of r (c :: calls) = ((if same_source_call r c then 1 else 0) + calls_of r calls)%nat.
Proof using Type. unfold calls_of. cbn. by destruct (same_source_call r c). Qed.

Lemma inv_send db uuids calls gs1 tok ev gs2 c :
  inv db uuids calls (gs1 ++ Held tok ev :: gs2) -> call_for c ev -> eligible mx (AttemptCount ev) = true ->
  inv db uuids (c :: calls) (gs1 ++ Sent tok ev (answer_ok (call_answer c)) :: gs2).
Proof using Type.
  intros [Hw Ht Hn Hth Hc Hcs Hd] Hfor Hel.
  assert (thread_ok db uuids calls (Held tok ev)) as Hheld by (apply Hth, elem_mid; by left).
  destruct Hheld as (Hin & Hlease). pose proof Hlease as [(r & Hr & Hsame & _) _].
  split; try done.
  - by rewrite toks_mid in *.
  - intros g. rewrite elem_mid. intros [->|Hg].
    + split; [done|]. split; [done|]. intros Hok. exists c. split; [by left|]. split; [done|].
      unfold reported_success, answer_ok in *. destruct (call_answer c) as [[res|] [e|]]; try done. by exists res.
    + assert (thread_ok db uuids calls g) as Hg' by (apply Hth, elem_mid; by right).
      destruct g as [| | |tok' ev' ok|]; try done. destruct Hg' as (? & ? & Hs). split; [done|]. split; [done|].
      intros Hok. destruct (Hs Hok) as (c' & ? & ?). exists c'. split; [by right|done].
  - intros i q Hq. specialize (Hc _ _ Hq). rewrite credits_mid in *. rewrite calls_of_cons.
    replace (credit i (Sent tok ev (answer_ok (call_answer c)))) with 0%nat by done. unfold credit in Hc. rewrite Hel, andb_true_r in Hc.
    destruct (same_source_call q c) eqn:Es; [|lia].
    assert (i = ID ev) as ->.
    { eapply (wf_source _ Hw); [done|exact Hr|..]; unfold same_source_call in Es; bool_to_prop;
        destruct Hsame as (_ & S1 & S2 & _); destruct Hfor as (_ & _ & F1 & F2);
        repeat match goal with E : String.eqb _ _ = true |- _ => apply String.eqb_eq in E end; congruence. }
    rewrite bool_decide_eq_true_2 in Hc by done. lia.
  - intros c'. rewrite elem_of_cons. intros [->|Hc']; [|by apply Hcs].
    exists (ID ev), r. split; [done|by eapply call_for_identity].
  - intros i q Hq. destruct (Hd _ _ Hq) as [H1 H2]. split; [|done]. intros Hs.
    destruct (H1 Hs) as (c' & ? & ?). exists c'. split; [by right|done].
Qed.

(** ** One statement of one thread *)

Lemma not_done calls r : EvStatus r = StatusPending \/ EvStatus r = StatusProcessing -> done_ok calls r.
Proof using Type. intros [E|E]; split; congruence. Qed.

Lemma update_where_cases db id cond f :
  (update_where db id cond f).2 = db \/
  exists r, db !! id = Some r /\ cond r = true /\ (update_where db id cond f).2 = <[id := f r]> db.
Proof using Type.
  unfold update_where. destruct (db !! id) as [r|]; [|by left]. destruct (cond r) eqn:E; [|by left].
  right. by exists r.
Qed.

(** A guarded update by a thread that goes to [g']: nothing, or a row step. *)
Lemma inv_update_where now db uuids calls gs1 g g' gs2 id cond f :
  inv db uuids calls (gs1 ++ g :: gs2) -> g' = g \/ g' = Idle ->
  (forall r, db !! id = Some r -> cond r = true ->
     row_step now r (f r) /\
     (LeaseToken (f r) = None \/ (LeaseToken (f r) = LeaseToken r /\ AttemptCount (f r) = AttemptCount r)) /\
     (forall c, c + Z.of_nat (credit id g) <= bound (AttemptCount r) ->
        c + Z.of_nat (credit id g') <= bound (AttemptCount (f r))) /\
     done_ok calls (f r)) ->
  inv (update_where db id cond f).2 uuids calls (gs1 ++ g' :: gs2).
Proof using Type.
  intros Hinv Hg Hrow. destruct (update_where_cases db id cond f) as [->|(r & Hr & Hc & ->)].
  - destruct Hg as [->| ->]; [done|by eapply inv_idle].
  - destruct (Hrow _ Hr Hc) as (Hs & Htok & Hcnt & Hd).
    eapply (inv_update now); try done.
    + destruct Htok as [?|?]; [by left|by right; left].
    + intros i _. destruct Hg as [->| ->]; [lia|unfold credit; lia].
    + destruct Hg as [->| ->]; [by left|by right].
    + destruct Hg as [->| ->]; [|done]. eapply thread_ok_update; try done.
      * eapply i_threads; [done|]. apply elem_mid. by left.
      * by eapply wf_id; [eapply i_wf|].
      * by eapply row_step_identity.
      * destruct Htok as [?|?]; [by left|by right; left].
Qed.

Lemma guard_Some b g g' : guard b g = Some g' -> b = true /\ g' = g.
Proof using Type. destruct b; naive_solver. Qed.

Lemma ours_spec id tok g : ours id tok g = true ->
  exists ev, id = ID ev /\ (g = Held tok ev \/ exists ok, g = Sent tok ev ok).
Proof using Type. destruct g as [| |tok' ev|tok' ev ok|]; cbn; intros H; try done; bool_to_prop; subst; eauto. Qed.

Lemma ours_count db uuids calls gs1 g gs2 id tok r :
  inv db uuids calls (gs1 ++ g :: gs2) -> ours id tok g = true -> db !! id = Some r -> holds_lease tok r = true ->
  exists ev, AttemptCount r = AttemptCount ev /\ same_identity ev r /\ id = ID ev /\
    (g = Held tok ev \/ exists ok, g = Sent tok ev ok).
Proof using Type.
  intros Hinv Ho Hr Hl. apply holds_lease_spec in Hl as [_ Hl]. destruct (ours_spec _ _ _ Ho) as (ev & -> & Hg).
  assert (thread_ok db uuids calls g) as Hok by (eapply i_threads; [done|]; apply elem_mid; by left).
  assert (lease_ok db tok ev) as [(q & Hq & Hs & Hcnt) _] by (destruct Hg as [->|[ok ->]]; apply Hok).
  exists ev. assert (q = r) as -> by congruence. auto.
Qed.

Lemma requeue_docb_spec j : requeue_docb j = true -> requeue_doc j.
Proof using Type.
  unfold requeue_docb, requeue_doc. destruct (json_get "outcome" j) as [[]|]; intros H; try done.
  by apply String.eqb_eq in H as ->.
Qed.

Lemma credit_idle id : credit id Idle = 0%nat.
Proof using Type. done. Qed.

(** A transition of the thread's own claim that ends it. *)
Lemma inv_transition now db uuids calls gs1 g gs2 id tok f :
  inv db uuids calls (gs1 ++ g :: gs2) -> ours id tok g = true ->
  (forall r ev, holds_lease tok r = true -> AttemptCount r = AttemptCount ev -> same_identity ev r ->
     g = Held tok ev \/ (exists ok, g = Sent tok ev ok) -> 1 <= AttemptCount r ->
     row_step now r (f r) /\ LeaseToken (f r) = None /\
     (forall c, c + Z.of_nat (credit id g) <= bound (AttemptCount r) -> c <= bound (AttemptCount (f r))) /\
     done_ok calls (f r)) ->
  inv (transition db id tok f).2 uuids calls (gs1 ++ Idle :: gs2).
Proof using Type.
  intros Hinv Ho Hrow. unfold transition, claimed_or_error. cbn [snd].
  eapply (inv_update_where now); [done|by right|]. intros r Hr Hl.
  destruct (ours_count _ _ _ _ _ _ _ _ _ Hinv Ho Hr Hl) as (ev & Hcnt & Hs & _ & Hg).
  assert (1 <= AttemptCount r) as H1.
  { destruct (wf_row _ (i_wf _ _ _ _ Hinv) _ _ Hr) as [_ Hw]. apply holds_lease_spec in Hl as [E1 E2].
    rewrite E1, E2 in Hw. apply Hw. }
  destruct (Hrow r ev Hl Hcnt Hs Hg H1) as (Hst & Htok & Hc & Hd).
  split; [done|]. split; [by left|]. split; [|done]. intros c Hle. rewrite credit_idle. cbn. rewrite Z.add_0_r. eauto.
Qed.

Lemma Insert_cases `{Postgres} now ev db :
  (Insert now ev db).2 = db \/ exists r, fresh_row now db r /\ (Insert now ev db).2 = <[ID r := r]> db.
Proof using Type.
  unfold Insert. destruct (insert_row now ev) as [r|e] eqn:E; [|by left].
  destruct (unique_violation db r) eqn:Eu; [by left|]. right. exists r. split; [|done].
  apply insert_row_ok in E. apply unique_violation_false in Eu. unfold fresh_row. naive_solver.
Qed.

Lemma Claim_cases now id tok dur doc db :
  (exists e, Claim now id tok dur doc db = (Err e, db)) \/
  exists r, db !! id = Some r /\ claimable now r = true /\ AttemptCount r + 1 <= 32767 /\
    Claim now id tok dur doc db = (Ok (claim_update now tok dur doc r), <[id := claim_update now tok dur doc r]> db).
Proof using Type.
  unfold Claim. destruct (db !! id) as [r|]; [|eauto]. destruct (claimable now r) eqn:Ec; [|eauto].
  destruct (Z.ltb_spec 32767 (AttemptCount r + 1)); [eauto|]. right. exists r. auto.
Qed.

Lemma inv_claim now db uuids calls gs1 gs2 id tok dur doc g' :
  inv db uuids calls (gs1 ++ Fresh tok :: gs2) ->
  (g' = Idle \/ exists r, (Claim now id tok dur doc db).1 = Ok r /\
                         g' = if count_ok r && bool_decide (ID r = id) then Held tok r else Off) ->
  inv (Claim now id tok dur doc db).2 uuids calls (gs1 ++ g' :: gs2).
Proof using Type.
  intros Hinv Hg. destruct (Claim_cases now id tok dur doc db) as [(e & E)|(r & Hr & Hc & Hcap & E)].
  - rewrite E in *. cbn [fst snd] in *. destruct Hg as [->|(r & ? & _)]; [by eapply inv_idle|done].
  - rewrite E in *. cbn [fst snd] in *. set (r' := claim_update now tok dur doc r) in *.
    pose proof (i_wf _ _ _ _ Hinv) as Hw.
    destruct (wf_row _ Hw _ _ Hr) as [Hrange _]. pose proof (wf_id _ Hw _ _ Hr) as Hid.
    assert (thread_ok db uuids calls (Fresh tok)) as [Htok Hfresh].
    { eapply i_threads; [done|]. apply elem_mid. by left. }
    assert (g' = Idle \/ g' = Held tok r') as Hg2.
    { destruct Hg as [->|(q & Hq & ->)]; [by left|right]. injection Hq as <-. unfold count_ok.
      rewrite bool_decide_eq_true_2 by done. cbn. rewrite andb_true_r.
      replace (1 <=? AttemptCount r + 1) with true by lia. by replace (AttemptCount r + 1 <=? 32767) with true by lia. }
    eapply (inv_update now); try done.
    + by apply rs_claim.
    + right. right. by exists tok.
    + intros c Hle. change (credit id (Fresh tok)) with 0%nat in Hle. cbn [AttemptCount r' claim_update update_event].
      unfold bound in *. destruct Hg2 as [->| ->]; unfold credit, eligible; cbn.
      * destruct (Z.leb_spec mx 0); lia.
      * rewrite bool_decide_eq_true_2 by done. cbn. destruct (Z.leb_spec mx 0); cbn; [lia|].
        destruct (Z.leb_spec (AttemptCount r + 1) mx); lia.
    + intros i Hi. destruct Hg2 as [->| ->]; unfold credit; [lia|]. rewrite bool_decide_eq_false_2; [cbn; lia|].
      cbn. congruence.
    + destruct Hg2 as [->| ->]; [by right|by left].
    + destruct Hg2 as [->| ->]; [done|]. split; [done|]. split.
      * exists r'. cbn. rewrite Hid, lookup_insert_eq. by repeat split.
      * intros i q. rewrite lookup_insert. case_decide; [intros _ _; cbn; congruence|].
        intros Hq Hqt. exfalso. by apply (Hfresh i q).
Qed.

Lemma bound_dec n c : 1 <= n -> eligible mx n = true -> c + 1 <= bound n -> c <= bound (n - 1).
Proof using Type. unfold bound, eligible. intros ? ? ?. destruct (Z.leb_spec mx 0); lia. Qed.

Lemma bound_past n c : past mx n = true -> c <= bound n -> c <= bound (n - 1).
Proof using Type. unfold bound, past. intros ? ?. destruct (Z.leb_spec mx 0); lia. Qed.

Lemma sys_exhausted_spec n : exhausted mx n = true -> 0 < mx <= n.
Proof using Type. unfold exhausted. lia. Qed.

(** What the answer can be: the statement's own, or an error. *)
Definition answer_of {A} (own : res A) (x : res A) : Prop := x = own \/ exists e, x = Err e.

Lemma inv_stmt `{Postgres} {A} (s : stmt A) now db uuids calls gs1 g gs2 g' x :
  inv db uuids calls (gs1 ++ g :: gs2) -> stmt_proto mx s g x = Some g' ->
  answer_of (exec_stmt s now db).1 x -> inv (exec_stmt s now db).2 uuids calls (gs1 ++ g' :: gs2).
Proof using Type.
  intros Hinv Hp Hx.
  destruct s as [ev|ss rid|id|limit|id|id tok dur doc|id tok ext|id tok body|id tok res pr|id tok u res pr
                |id tok u res|id tok res pr|id tok res|id ext|limit|id tok u res]; cbn -[ours] in Hp |- *;
    try (injection Hp as <-; exact Hinv).
  - destruct g as [|u| | |]; try done. apply guard_Some in Hp as [_ ->]. eapply inv_idle.
    destruct (Insert_cases now ev db) as [->|(r & Hf & ->)]; [done|]. by eapply inv_insert.
  - injection Hp as <-. eapply (inv_update_where now); [done|by left|]. intros r _ Hc. bool_to_prop.
    split; [by apply rs_enqueued|]. split; [by right|]. split; [done|]. apply not_done. by left.
  - destruct g as [|u| | |]; try done. apply guard_Some in Hp as [Hu ->]. bool_to_prop. subst u.
    apply inv_claim; [done|]. destruct Hx as [->|[e ->]]; [|by left]. cbn.
    destruct (Claim now id tok dur doc db).1 as [r|e]; [right; by exists r|by left].
  - apply guard_Some in Hp as [_ ->]. eapply (inv_update_where now); [done|by left|]. intros r _ Hc.
    split; [by eapply rs_hold; [|right; eexists]|]. split; [by right|]. split; [done|].
    apply not_done. right. by apply holds_lease_spec in Hc as [? _].
  - apply guard_Some in Hp as [_ ->]. eapply (inv_update_where now); [done|by left|]. intros r _ Hc.
    split; [by eapply rs_hold; [|left]|]. split; [by right|]. split; [done|].
    apply not_done. right. by apply holds_lease_spec in Hc as [? _].
  - destruct g as [| | |tok' ev ok|]; try done. destruct ok; [|done].
    apply guard_Some in Hp as [Ho ->]. eapply (inv_transition now); [done|done|].
    intros r ev' Hl Hcnt Hs Hg H1. split; [by eapply rs_finish; [|left|left]|]. split; [done|]. split; [cbn; lia|].
    destruct Hg as [?|[ok Hg]]; [done|]. injection Hg as -> <- _.
    assert (thread_ok db uuids calls (Sent tok ev true)) as (_ & _ & Hok) by (eapply i_threads; [done|apply elem_mid; by left]).
    destruct (Hok eq_refl) as (c & Hc & Hf & Hr). split; [|by cbn]. intros _. exists c. split; [done|]. split; [|done].
    eapply call_for_identity; [|done]. by etrans; [apply Hs|].
  - apply guard_Some in Hp as [Ho ->]. bool_to_prop. apply requeue_docb_spec in H1.
    eapply (inv_transition now); [done|done|].
    intros r ev' Hl Hcnt Hs Hg Hpos. split; [by eapply rs_release; [|left|]|]. split; [done|]. split; [cbn; lia|].
    apply not_done. right. by apply holds_lease_spec in Hl as [? _].
  - destruct g as [| |tok' ev| |]; try done. apply guard_Some in Hp as [Ho ->]. bool_to_prop. apply requeue_docb_spec in H2.
    eapply (inv_transition now); [done|done|].
    intros r ev' Hl Hcnt Hs Hg Hpos. split; [by eapply rs_release; [|right|]|]. split; [done|].
    destruct Hg as [Hg|[ok ?]]; [|done]. injection Hg as -> <-. split.
    + intros c Hle. cbn. unfold greatest0. rewrite Z.max_l by lia. apply bound_dec; [done|congruence|].
      destruct (ours_spec _ _ _ H0) as (ev2 & -> & [Hg|[? ?]]); [|done]. injection Hg as <-.
      unfold credit in Hle. rewrite bool_decide_eq_true_2, H1 in Hle by done. cbn in Hle. lia.
    + apply not_done. right. by apply holds_lease_spec in Hl as [? _].
  - assert (exists ev, ours id tok g && exhausted mx (AttemptCount ev) = true /\ g' = Idle /\
             (exists t, g = Held t ev \/ exists ok, g = Sent t ev ok)) as (ev & Ho & -> & t & Hg).
    { destruct g as [| |t ev|t ev ok|]; try done; apply guard_Some in Hp as [Ho ->];
        exists ev; (split; [done|]); (split; [done|]); exists t; [by left|right; by exists ok]. }
    bool_to_prop. eapply (inv_transition now); [done|done|].
    intros r ev' Hl Hcnt Hs Hg' Hpos. split; [by eapply rs_finish; [|left|right]|]. split; [done|]. split; [cbn; lia|].
    assert (ev' = ev) as -> by (destruct Hg as [->|[? ->]], Hg' as [E|[? E]]; congruence).
    split; [done|]. intros _. apply sys_exhausted_spec in H1. cbn. lia.
  - destruct g as [| |t ev| |]; try done. apply guard_Some in Hp as [Ho ->]. bool_to_prop.
    eapply (inv_transition now); [done|done|].
    intros r ev' Hl Hcnt Hs Hg Hpos. split; [by eapply rs_finish; [|right|right]|]. split; [done|].
    destruct Hg as [Hg|[? ?]]; [|done]. injection Hg as -> <-.
    assert (greatest0 (AttemptCount r - 1) = AttemptCount r - 1) as E by (unfold greatest0; lia).
    split; [|split; [done|]; cbn; rewrite E; unfold past in H1; lia].
    intros c Hle. cbn. rewrite E. apply bound_past; [congruence|lia].
  - injection Hp as <-. eapply (inv_update_where now); [done|by left|]. intros r _ Hc. bool_to_prop.
    split; [apply rs_reserve; [done| |done]; by destruct (LeaseToken r)|]. split; [by right|]. split; [done|].
    apply not_done. by right.
  - apply guard_Some in Hp as [Hd ->]. apply requeue_docb_spec in Hd.
    eapply (inv_update_where now); [done|by left|]. intros r _ Hc. apply andb_true_iff in Hc as [Hc _].
    split; [by eapply rs_release; [|left|]|]. split; [by left|]. split; [done|].
    apply not_done. right. by apply holds_lease_spec in Hc as [? _].
Qed.

(** An error answer only takes a thread back to rest. *)
Lemma stmt_proto_error {A} (s : stmt A) g g' e : stmt_proto mx s g (Err e) = Some g' -> g' = g \/ g' = Idle.
Proof using Type.
  intros H. destruct s; cbn -[ours] in H; repeat case_match; try done; try injection H as <-; auto;
    apply guard_Some in H as [_ ->]; auto.
Qed.

Lemma inv_answer `{Postgres} {A} (s : stmt A) db db' uuids calls gs1 g gs2 g' x :
  inv db uuids calls (gs1 ++ g :: gs2) -> stmt_proto mx s g x = Some g' ->
  stmt_answer s db x db' -> inv db' uuids calls (gs1 ++ g' :: gs2).
Proof using Type.
  intros Hinv Hp Hx. destruct Hx as [now|e _|now e _].
  - eapply inv_stmt; [done|done|by left].
  - destruct (stmt_proto_error _ _ _ _ Hp) as [->| ->]; [done|by eapply inv_idle].
  - eapply inv_stmt; [done|done|right; by eexists].
Qed.
End invariant.

(** ** The system *)

Section reach.
Context {P : Postgres} {N : Type} (registry : Registry N) (uuid_string : UUID -> string)
  (cfg : CompensatorConfig) (LeaseDuration mx : Z) (breakers0 : Breakers) (limiters0 : Limiters).

Abbreviation step := (sstep registry uuid_string cfg LeaseDuration mx breakers0 limiters0).
Abbreviation reachable := (star step (empty_sys breakers0 limiters0)).

Definition sys_inv (s : sys) : Prop :=
  exists gs, Forall2 (fun th g => follows (proto mx) g (th_prog th)) (sy_threads s) gs /\
             inv mx (sy_db s) (sy_uuids s) (sy_calls s) gs.

Lemma inv_not_off db uuids calls gs : inv mx db uuids calls gs -> Off ∉ gs.
Proof using Type. intros H Hin. by apply (i_threads _ _ _ _ _ H) in Hin. Qed.

Lemma stmt_proto_ok {A} (st : stmt A) g x g' : stmt_proto mx st g x = Some g' -> stmt_ok st.
Proof using Type.
  intros H. destruct st; cbn -[ours] in *; try done; apply requeue_docb_spec;
    repeat case_match; try done; apply guard_Some in H as [H _]; bool_to_prop; done.
Qed.

(** What an allowed call does to the invariant and to the table. *)
Lemma effect_inv X (e : eff X) w x w' gs1 g gs2 g' :
  local X e w x w' -> g <> Off -> proto mx X e g x = Some g' ->
  inv mx (w_db w) (w_uuids w) (w_calls w) (gs1 ++ g :: gs2) ->
  inv mx (w_db w') (w_uuids w') (w_calls w') (gs1 ++ g' :: gs2) /\
  exists now, table_step now (w_db w) (w_db w').
Proof using Type.
  intros Hl Hg Hp Hinv.
  assert (forall e' : eff X, (match e' with ENewUUID | ERepo _ | ESend _ _ _ _ => False | _ => True end) ->
            proto mx X e' g x = Some g' -> g' = g) as Hsame.
  { intros e' He Hp'. destruct g, e'; try done; by injection Hp' as <-. }
  destruct e as [| |A s|id|k|p o|p|k|k|ad ac action payload];
    try (assert (g' = g) as -> by (by refine (Hsame _ _ Hp); exact I); clear Hsame; cbn in Hl; destruct_and?;
         repeat match goal with H : exists _, _ |- _ => destruct H; destruct_and? end; subst w'; cbn;
         split; [exact Hinv|exists 0; constructor]); clear Hsame.
  - destruct Hl as [Hu ->]. cbn. split; [|exists 0; constructor].
    destruct g; try done. injection Hp as <-. by apply inv_uuid.
  - destruct Hl as (db' & Ha & ->). cbn. assert (stmt_proto mx s g x = Some g') as Hp' by (by destruct g).
    split; [by eapply inv_answer|]. apply stmt_proto_ok in Hp'.
    destruct Ha as [now|e _|now e _]; [exists now; by apply exec_stmt_step|exists 0; constructor|exists now; by apply exec_stmt_step].
  - cbn in Hl. subst w'. cbn. split; [|exists 0; constructor].
    destruct g as [| |tok ev| |]; try done. apply guard_Some in Hp as [Hok ->].
    destruct (send_ok_spec mx _ _ _ _ ad x Hok) as [Hf He].
    exact (inv_send mx _ _ _ _ tok ev _ (mkCall ad ac action payload x) Hinv Hf He).
Qed.

(** One step of the system. *)
Lemma step_inv s s' : sys_inv s -> step s s' -> sys_inv s' /\ exists now, table_step now (sy_db s) (sy_db s').
Proof using Type.
  intros (gs & Hobey & Hinv) Hstep. destruct Hstep as [s p t Ht|s p X e k x w' l1 l2 Hth Hl|s p l1 l2 Hth|s p].
  - split; [|exists 0; constructor]. exists (Idle :: gs). split; [|by apply inv_start].
    constructor; [by apply task_follows|done].
  - rewrite Hth in Hobey. apply Forall2_app_inv_l in Hobey as (gs1 & gs' & H1 & H2 & ->).
    inversion H2 as [|? g ? gs2 Hg H3]; subst. cbn in Hg. destruct (Hg x) as (g' & Hp & Hk).
    assert (g <> Off) as Hoff.
    { intros ->. apply (inv_not_off _ _ _ _ Hinv), elem_of_app. right. by left. }
    destruct (effect_inv _ _ _ _ _ _ _ _ _ Hl Hoff Hp Hinv) as [Hinv' Hstep]. split; [|done].
    exists (gs1 ++ g' :: gs2). split; [|done]. apply Forall2_app; [done|]. by constructor.
  - split; [|exists 0; constructor]. rewrite Hth in Hobey.
    apply Forall2_app_inv_l in Hobey as (gs1 & gs' & H1 & H2 & ->).
    inversion H2 as [|? g ? gs2 Hg H3]; subst. exists (gs1 ++ gs2). split; [by apply Forall2_app|].
    eapply inv_sub; [done|]. apply sublist_app; [done|]. by apply sublist_cons.
  - split; [|exists 0; constructor]. cbn. clear -Hobey Hinv.
    assert (exists gs', gs' `sublist_of` gs /\
      Forall2 (fun th g => follows (proto mx) g (th_prog th))
        (List.filter (fun th => negb (th_proc th =? p)%nat) (sy_threads s)) gs') as (gs' & Hsub & Hf).
    { clear Hinv. induction Hobey as [|th g ths gs Hg _ (gs' & Hs & Hf)]; [by exists []|]. cbn.
      destruct (negb _); [exists (g :: gs')|exists gs']; (split; [by constructor|]); [by constructor|done]. }
    exists gs'. split; [done|]. by eapply inv_sub.
Qed.

Lemma empty_inv : sys_inv (empty_sys breakers0 limiters0).
Proof using Type.
  exists []. split; [by constructor|]. split; cbn; try (intros *; by rewrite lookup_empty).
  - split; intros *; by rewrite lookup_empty.
  - constructor.
  - intros g Hg. by apply elem_of_nil in Hg.
  - intros c Hc. by apply elem_of_nil in Hc.
Qed.

Lemma reachable_inv s : reachable s -> sys_inv s.
Proof using Type.
  intros H. eapply star_invariant; [|apply empty_inv|exact H]. intros s1 s2 H1 H2. by apply (step_inv _ _ H1 H2).
Qed.
End reach.

(** ** Guarantees *)

Section guarantees.
Context {P : Postgres} {N : Type} (registry : Registry N) (uuid_string : UUID -> string)
  (cfg : CompensatorConfig) (LeaseDuration mx : Z) (breakers0 : Breakers) (limiters0 : Limiters).

Abbreviation step := (sstep registry uuid_string cfg LeaseDuration mx breakers0 limiters0).
Abbreviation reachable := (star step (empty_sys breakers0 limiters0)).

(** C1: In every reachable state, whatever was redelivered, recovered,
    lost or crashed: the provider calls made for an event are at most its
    stored [attempt_count], and at most the configured maximum where there
    is one; and every call ever made carried the payload, action and source
    of a stored event. *)
Theorem provider_calls_bounded s :
  reachable s ->
  (forall id r, sy_db s !! id = Some r ->
     Z.of_nat (calls_of r (sy_calls s)) <= AttemptCount r /\ (0 < mx -> Z.of_nat (calls_of r (sy_calls s)) <= mx)) /\
  (forall c, c ∈ sy_calls s -> exists id r, sy_db s !! id = Some r /\ call_for c r).
Proof using Type.
  intros Hr. apply reachable_inv in Hr as (gs & _ & Hinv). split; [|apply Hinv].
  intros id r Hid. pose proof (i_count _ _ _ _ _ Hinv _ _ Hid) as Hc. unfold bound in Hc.
  destruct (Z.leb_spec mx 0); lia.
Qed.

(** C2: A terminal status means what it says, in every reachable state: an
    event is SUCCEEDED only if a provider call made for it reported success,
    and FAILED only if there is a maximum and its counted attempts reached
    it. *)
Theorem terminal_justified s id r :
  reachable s -> sy_db s !! id = Some r ->
  (EvStatus r = StatusSucceeded -> exists c, c ∈ sy_calls s /\ call_for c r /\ reported_success c) /\
  (EvStatus r = StatusFailed -> 0 < mx <= AttemptCount r).
Proof using Type.
  intros Hr Hid. apply reachable_inv in Hr as (gs & _ & Hinv). by eapply (i_done mx).
Qed.

(** C4: Nothing is lost or reopened: from any reachable state on, every
    accepted event keeps its identity, source key, provider, payload and
    acceptance time, and one that has succeeded or failed never changes
    again, in any column. *)
Theorem accepted_events_persist s s' id r :
  reachable s -> star step s s' -> sy_db s !! id = Some r ->
  exists r', sy_db s' !! id = Some r' /\ same_identity r r' /\ (terminal r -> r' = r).
Proof using Type.
  intros Hr Hs. revert id r.
  assert (sys_inv mx s' /\ forall id r, sy_db s !! id = Some r ->
    exists r', sy_db s' !! id = Some r' /\ same_identity r r' /\ (terminal r -> r' = r)) as [_ H]; [|exact H].
  apply (star_invariant_rel step (sys_inv mx)
    (fun s s' => forall id r, sy_db s !! id = Some r ->
       exists r', sy_db s' !! id = Some r' /\ same_identity r r' /\ (terminal r -> r' = r)));
    [| | |by eapply reachable_inv|exact Hs].
  - intros s0 id r Hid. by exists r.
  - intros a b c Hab Hbc id r Hid. destruct (Hab _ _ Hid) as (r1 & H1 & I1 & T1).
    destruct (Hbc _ _ H1) as (r2 & H2 & I2 & T2). exists r2. split; [done|]. split; [by etrans|].
    intros Ht. specialize (T1 Ht). subst. by apply T2.
  - intros s1 s2 H1 H2. destruct (step_inv _ _ _ _ _ _ _ _ _ H1 H2) as (H3 & now & Ht). split; [done|].
    intros id r Hid. by eapply table_step_keeps.
Qed.

(** The row and lease a statement of a claim's owner acts under. *)
Definition lease_of {A} (st : stmt A) : option (UUID * UUID) :=
  match st with
  | SRenewLease id tok _ | SMarkRequesting id tok _ | SMarkSucceeded id tok _ _
  | SMarkWaitingForRequeue id tok _ _ _ | SMarkCircuitOpenWaitingForRequeue id tok _ _
  | SMarkFailed id tok _ _ | SMarkFailedWithoutProviderAttempt id tok _ => Some (id, tok)
  | _ => None
  end.

Lemma lease_of_tok {A} (st : stmt A) g x g' id tok :
  stmt_proto mx st g x = Some g' -> lease_of st = Some (id, tok) -> tok ∈ tok_of g.
Proof using Type.
  intros Hp Hl. assert (ours id tok g = true) as Ho.
  { destruct st; cbn -[ours] in *; simplify_eq; repeat case_match; try done;
      apply guard_Some in Hp as [Hp _]; bool_to_prop; done. }
  apply ours_spec in Ho as (ev & _ & [->|[ok ->]]); by left.
Qed.

Lemma toks_unique gs i j g1 g2 tok :
  NoDup (toks gs) -> gs !! i = Some g1 -> gs !! j = Some g2 -> tok ∈ tok_of g1 -> tok ∈ tok_of g2 -> i = j.
Proof using Type.
  intros Hn Hi Hj H1 H2. destruct (decide (i = j)) as [|Hij]; [done|]. exfalso.
  apply list_elem_of_split_length in Hi as (l1 & l2 & -> & Hlen).
  apply (other_tok l1 g1 l2 g2 tok Hn); [|done|done]. subst i.
  destruct (decide (j < length l1)%nat) as [Hlt|Hge].
  - rewrite lookup_app_l in Hj by done. apply elem_of_app. left. by eapply list_elem_of_lookup_2.
  - rewrite lookup_app_r in Hj by lia. destruct (j - length l1)%nat as [|k] eqn:E; [lia|].
    apply elem_of_app. right. by eapply list_elem_of_lookup_2.
Qed.

(** The row and lease the recovery scan takes back. *)
Definition recovery_of {A} (st : stmt A) : option (UUID * UUID) :=
  match st with SRecoverExpiredToRequeue id tok _ _ => Some (id, tok) | _ => None end.

(** A statement that changes a leased row is its holder's, or recovers it. *)
Lemma changes_leased {A} (st : stmt A) now db id r tok :
  db !! id = Some r -> EvStatus r = StatusProcessing -> LeaseToken r = Some tok ->
  (exec_stmt st now db).2 !! id = Some r \/ lease_of st = Some (id, tok) \/
  (recovery_of st = Some (id, tok) /\ before_now (LeaseUntil r) now = true).
Proof using Type.
  intros Er Es Et. destruct (decide (stmt_token st = Some tok)) as [Htok|Htok]; [|left; by eapply leased_unchanged].
  assert (forall i cond f, (i = id -> cond r = false) -> (update_where db i cond f).2 !! id = Some r) as HU.
  { intros i cond f Hc. destruct (decide (id = i)) as [<-|]; [|by rewrite update_where_other].
    by rewrite (update_where_false _ _ _ _ _ Er) by auto. }
  destruct st; cbn in Htok |- *; simplify_eq;
    match goal with |- context [Some (?i, _) = Some _] => destruct (decide (i = id)) as [->|Hi] end;
    try (by right; left); try (by left; apply HU).
  destruct (before_now (LeaseUntil r) now) eqn:Eb; [by right; right|]. left. apply HU. intros _. by rewrite Eb, andb_false_r.
Qed.

(** C3: A leased event has one owner, in every reachable state, whatever was
    redelivered, recovered, lost or crashed. While its row holds the lease
    [tok], whatever statement any thread executes next, at whatever instant,
    leaves the row as it is, unless it is a statement of the lease's holder,
    or it is the recovery scan's for that lease and the lease has expired;
    every claim of the event is refused; and at most one thread's next
    statement is one of the lease's holder. *)
Theorem single_lease_holder s id r tok :
  reachable s -> sy_db s !! id = Some r -> LeaseToken r = Some tok ->
  (forall i p A (st : stmt A) k now, sy_threads s !! i = Some (mkThread p (Vis (ERepo st) k)) ->
     (exec_stmt st now (sy_db s)).2 !! id = Some r \/ lease_of st = Some (id, tok) \/
     (recovery_of st = Some (id, tok) /\ before_now (LeaseUntil r) now = true)) /\
  (forall tok' dur doc now, exec_stmt (SClaim id tok' dur doc) now (sy_db s) = (Err (ESentinel ErrNotClaimed), sy_db s)) /\
  (forall i j p1 p2 A1 A2 (st1 : stmt A1) (st2 : stmt A2) k1 k2,
     sy_threads s !! i = Some (mkThread p1 (Vis (ERepo st1) k1)) ->
     sy_threads s !! j = Some (mkThread p2 (Vis (ERepo st2) k2)) ->
     lease_of st1 = Some (id, tok) -> lease_of st2 = Some (id, tok) -> i = j).
Proof using Type.
  intros Hr Er Et. apply reachable_inv in Hr as (gs & Hf & Hinv).
  assert (EvStatus r = StatusProcessing) as Es by (eapply leased_processing; [by eapply i_wf|done..]).
  split; [intros *; intros _; by apply changes_leased|]. split.
  { intros tok' dur doc now. cbn. unfold Claim. by rewrite Er, (leased_not_claimable now r tok). }
  intros i j p1 p2 A1 A2 st1 st2 k1 k2 Hi Hj H1 H2.
  assert (forall i p A (st : stmt A) k, sy_threads s !! i = Some (mkThread p (Vis (ERepo st) k)) ->
    lease_of st = Some (id, tok) -> exists g, gs !! i = Some g /\ tok ∈ tok_of g) as Hg.
  { intros i0 p A st k Hth Hl. destruct (Forall2_lookup_l _ _ _ _ _ Hf Hth) as (g & Hgi & Ho). exists g. split; [done|].
    destruct (Ho (Err (EString EmptyString))) as (g' & Hp & _).
    assert (g <> Off) as Hoff.
    { intros ->. apply (inv_not_off _ _ _ _ _ Hinv). by eapply list_elem_of_lookup_2. }
    eapply (lease_of_tok st); [|exact Hl]. by destruct g. }
  destruct (Hg _ _ _ _ _ Hi H1) as (g1 & Hg1 & Ht1). destruct (Hg _ _ _ _ _ Hj H2) as (g2 & Hg2 & Ht2).
  eapply toks_unique; [by eapply i_nodup|done..].
Qed.
End guarantees.
