(* ===== verification/Interference.v ===== *)
(** * The system's threads keep to the rely

    What [Among] lets the other processes do is what the threads of [System]
    do: a call of any thread, seen by a handler whose drawn ids are [mine],
    is one statement that adds and leases no row under an id of [mine], and
    leaves a row leased to one alone or recovers it. *)

From S2P Require Import Prelude Prog Errors Json Domain Mq Provider Breaker Limiter Store Lifecycle Effects.
From S2P Require Import StoreSpec Among Publish Processor Compensator Service ProcessorSpec System SystemSpec.

(** The id a statement puts into the table: that of the row it adds, or of
    the lease it takes or acts under. *)
Definition brings {A} (s : stmt A) : option UUID :=
  match s with
  | SInsert ev => Some (ID ev)
  | SClaim _ tok _ _ => Some tok
  | _ => option_map snd (lease_of s)
  end.

Lemma spares_refl mine db : spares mine db db.
Proof. intros id r Er. rewrite Er. split; [done|]. intros. by left. Qed.

Lemma spares_update mine db id r r' : db !! id = Some r ->
  (forall tok, tok ∈ mine -> LeaseToken r' = Some tok -> LeaseToken r = Some tok) ->
  (forall tok, tok ∈ mine -> LeaseToken r = Some tok -> r' = r \/ recovered r r') ->
  spares mine db (<[id := r']> db).
Proof.
  intros Er H1 H2 i q. rewrite lookup_insert. case_decide as Hi; [|by apply spares_refl].
  intros [= <-]. subst i. by rewrite Er.
Qed.

Lemma spares_where mine db id cond f :
  (forall r, db !! id = Some r -> cond r = true ->
     (forall tok, tok ∈ mine -> LeaseToken (f r) = Some tok -> LeaseToken r = Some tok) /\
     (forall tok, tok ∈ mine -> LeaseToken r = Some tok -> f r = r \/ recovered r (f r))) ->
  spares mine db (update_where db id cond f).2.
Proof.
  intros H. destruct (update_where_cases db id cond f) as [->|(r & Er & Hc & ->)]; [apply spares_refl|].
  destruct (H _ Er Hc). by eapply spares_update.
Qed.

(** Statements guarded by a lease that is not one of [mine]. *)
Lemma spares_held mine db id tok f :
  tok ∉ mine -> (forall r, LeaseToken (f r) = None \/ LeaseToken (f r) = LeaseToken r) -> spares mine db (transition db id tok f).2.
Proof.
  intros Hn Hf. apply spares_where. intros r _ Hl. apply holds_lease_spec in Hl as [_ Ht].
  split; intros t Hin E; [destruct (Hf r); congruence|]. exfalso. congruence.
Qed.

Lemma stmt_spares `{Postgres} {A} (s : stmt A) mine now db :
  table_wf db -> stmt_ok s -> (forall u, brings s = Some u -> u ∉ mine) -> spares mine db (exec_stmt s now db).2.
Proof.
  intros Hw Hok Hb.
  destruct s as [ev|ss rid|id|limit|id|id tok dur doc|id tok ext|id tok body|id tok res pr|id tok u res pr
                |id tok u res|id tok res pr|id tok res|id ext|limit|id tok u res]; cbn in Hb, Hok |- *; try apply spares_refl;
    try (apply spares_held; [by apply Hb|intros r; cbn; by auto]).
  - unfold Insert. destruct (insert_row now ev) as [r|e] eqn:E; [|apply spares_refl].
    destruct (unique_violation db r) eqn:Eu; [apply spares_refl|]. cbn.
    apply insert_row_ok in E as (_ & _ & Ht & _ & _ & Hid & _). apply unique_violation_false in Eu as [Hn _].
    intros i q. rewrite lookup_insert. case_decide as Hi; [|by apply spares_refl]. intros [= <-]. subst i. rewrite Hn, Hid.
    split; [by apply Hb|]. intros tok _. by rewrite Ht.
  - apply spares_where. intros r Er Hp. bool_to_prop. split; [done|]. intros tok _ Ht.
    destruct (wf_row _ Hw _ _ Er) as [_ Hwf]. rewrite Hp in Hwf. naive_solver.
  - destruct (Claim_cases now id tok dur doc db) as [(e & ->)|(r & Er & Hc & _ & ->)]; [apply spares_refl|].
    eapply spares_update; [done|..]; intros t Hin Ht.
    + cbn in Ht. injection Ht as <-. by destruct (Hb _ eq_refl).
    + by rewrite (leased_not_claimable now r t (leased_processing _ _ _ _ Hw Er Ht) Ht) in Hc.
  - apply spares_where. intros r Er Hc. bool_to_prop. split; [done|]. intros t _ Ht. by rewrite Ht in *.
  - apply spares_where. intros r Er Hc. bool_to_prop. split; [done|]. intros t _ Ht. right.
    apply holds_lease_spec in H0 as [Hp _]. repeat split; try done. cbn. unfold outcome_is_requeue, requeue_doc in *. by rewrite Hok.
Qed.

Section system.
Context {P : Postgres} {N : Type} (registry : Registry N) (uuid_string : UUID -> string)
  (cfg : CompensatorConfig) (LeaseDuration mx : Z) (breakers0 : Breakers) (limiters0 : Limiters).

Abbreviation step := (sstep registry uuid_string cfg LeaseDuration mx breakers0 limiters0).
Abbreviation reachable := (star step (empty_sys breakers0 limiters0)).

Lemma brings_tok {A} (s : stmt A) g x g' u : stmt_proto mx s g x = Some g' -> brings s = Some u -> u ∈ tok_of g.
Proof using Type.
  intros Hp Hb. destruct (lease_of s) as [[id tok]|] eqn:El.
  - assert (brings s = Some tok) as E by (destruct s; cbn in *; by simplify_eq). simplify_eq. by eapply (lease_of_tok mx s).
  - destruct s; cbn in *; try done; simplify_eq; destruct g as [|v| | |]; try done; apply guard_Some in Hp as [Hp _];
      bool_to_prop; subst; by left.
Qed.

(** In a reachable state the drawn ids of two threads are disjoint, and a
    call of one is a step of the other's [rely]. *)
Lemma other_threads_spare s th1 l1 l2 p X (e : eff X) k x w' :
  reachable s -> th1 ∈ l1 ++ l2 -> sy_threads s = l1 ++ mkThread p (Vis e k) :: l2 -> local X e (world_of s p) x w' ->
  exists g1, follows (proto mx) g1 (th_prog th1) /\
    (exists now, table_step now (sy_db s) (w_db w')) /\ spares (list_to_set (tok_of g1)) (sy_db s) (w_db w').
Proof using Type.
  intros Hr Hin Hth Hl. apply reachable_inv in Hr as (gs & Hf & Hinv). rewrite Hth in Hf.
  apply Forall2_app_inv_l in Hf as (gs1 & gs' & H1 & H2 & ->). inversion H2 as [|? g ? gs2 Hg H3]; subst. cbn in Hg.
  assert (exists g1, g1 ∈ gs1 ++ gs2 /\ follows (proto mx) g1 (th_prog th1)) as (g1 & Hg1 & Hfol).
  { apply list_elem_of_lookup in Hin as [i Hi]. destruct (Forall2_lookup_l _ _ _ _ _ (Forall2_app H1 H3) Hi) as (g1 & Hgi & Ho).
    exists g1. split; [by eapply list_elem_of_lookup_2|done]. }
  exists g1. split; [done|]. destruct (Hg x) as (g' & Hp & _).
  assert (g <> Off) as Hoff by (intros ->; apply (inv_not_off _ _ _ _ _ Hinv), elem_of_app; right; by left).
  split; [by destruct (effect_inv mx _ _ _ _ _ _ _ _ _ Hl Hoff Hp Hinv)|].
  pose proof (i_wf _ _ _ _ _ Hinv) as Hw.
  destruct e as [| |A st|id|kk|pm o|pm|kk|kk|ad ac action payload]; cbn in Hl;
    try (destruct_and?; repeat match goal with H : exists _, _ |- _ => destruct H; destruct_and? end; subst w'; apply spares_refl).
  destruct Hl as (db' & Ha & ->). assert (stmt_proto mx st g x = Some g') as Hp' by by destruct g.
  assert (forall now, spares (list_to_set (tok_of g1)) (sy_db s) (exec_stmt st now (sy_db s)).2) as Hs.
  { intros now. apply stmt_spares; [done|by eapply stmt_proto_ok|]. intros u Hb Hu. apply elem_of_list_to_set in Hu.
    apply (other_tok gs1 g gs2 g1 u (i_nodup _ _ _ _ _ Hinv)) in Hu; [done|done|]. by eapply brings_tok. }
  cbn. destruct Ha; [apply Hs|apply spares_refl|apply Hs].
Qed.
End system.
