(* ===== verification/CompensatorSpec.v ===== *)
(** * What the recovery scans guarantee ([internal/worker/compensator.go]) *)

From S2P Require Import Prelude Prog Errors Json Domain Mq Provider Breaker Limiter Store Lifecycle StoreSpec.
From S2P Require Import Effects Publish Compensator.

#[local] Arguments outcome_is_requeue : simpl never.

(** ** Reading result documents *)

Lemma members_of_app names f m1 m2 : members_of names f (m1 ++ m2) = members_of names f m1 ++ members_of names f m2.
Proof. unfold members_of. by rewrite List.filter_app, List.map_app. Qed.

Lemma members_of_skip names f k b v : field_of names k <> Some f -> members_of names f (field_omitempty k b v) = [].
Proof. intros H. destruct b; [done|]. unfold members_of. cbn. by rewrite bool_decide_eq_false_2. Qed.

Ltac members_skip := rewrite ?members_of_app, ?members_of_skip by (vm_compute; discriminate).

(** The scans read back what the handlers wrote. *)
Lemma outcomeOf_finished f : outcomeOf (Some (marshal_finished f)) = Outcome f.
Proof. unfold outcomeOf, string_member, marshal_finished. members_skip. by vm_compute. Qed.

Lemma phaseOf_finished f : phaseOf (Some (marshal_finished f)) = PhaseClaimed.
Proof. unfold phaseOf, string_member, marshal_finished. members_skip. by vm_compute. Qed.

Lemma phaseOf_claimed c : phaseOf (Some (marshal_claimed c)) = if String.eqb (Claimed_Phase c) PhaseRequesting then PhaseRequesting else PhaseClaimed.
Proof. reflexivity. Qed.

Lemma phaseOf_requesting c : Requesting_Phase c = PhaseRequesting -> phaseOf (Some (marshal_requesting c)) = PhaseRequesting.
Proof. intros H. unfold phaseOf, string_member. cbn. rewrite H. reflexivity. Qed.

#[local] Opaque marshal_finished.

(** Every waiting row's outcome reads the same in Go as in SQL. *)
Definition docs_readable (db : table) : Prop :=
  forall id r, db !! id = Some r -> outcome_is_requeue r = true -> outcomeOf (LastResult r) = OutcomeRequeueRequested.

Section scans.
Context {P : Postgres} (uuid_string : UUID -> string) (cfg : CompensatorConfig) (LeaseDuration : Z) (now : Z).

(** What recovery leaves: handed to the broker, claimable whenever the
    message arrives, not due for another recovery before the lease is over. *)
Definition recovered (ev : Event) (w' : world) : Prop :=
  ID ev ∈ w_published w' /\
  exists r', w_db w' !! ID ev = Some r' /\ (forall t, claimable t r' = true) /\
    AttemptCount r' = AttemptCount ev /\ same_identity ev r' /\
    LeaseUntil r' = Some (now + effective_lease LeaseDuration).

(** Everything else stays. *)
Definition framed (ids : list UUID) (w w' : world) : Prop :=
  (forall id, id ∉ ids -> w_db w' !! id = w_db w !! id) /\
  (forall id, id ∈ w_published w -> id ∈ w_published w').

Lemma waiting_claimable r : EvStatus r = StatusProcessing -> LeaseToken r = None -> outcome_is_requeue r = true ->
  forall t, claimable t r = true.
Proof using Type. intros H1 H2 H3 t. apply claimable_spec. by right. Qed.

(** Publishing an event that is not PENDING leaves the table alone. *)
Lemma publish_processing id r w :
  w_db w !! id = Some r -> EvStatus r = StatusProcessing ->
  wp (reliable now) (PublishAndMark uuid_string id) w
    (fun _ w' => w_db w' = w_db w /\ id ∈ w_published w' /\ forall i, i ∈ w_published w -> i ∈ w_published w').
Proof using Type.
  intros Hr Hp x w1 ->.
  assert (id ∈ id :: w_published w /\ forall i, i ∈ w_published w -> i ∈ id :: w_published w) as [H1 H2].
  { split; [by left|]. intros i Hi. by right. }
  destruct x as [b|e]; cbn [wp Prog.bind]; [|done]. destruct (Durable b); cbn [negb]; [|done].
  intros y w2 [-> ->]. cbn. unfold MarkEnqueued, update_where. cbn. rewrite Hr.
  by rewrite bool_decide_eq_false_2 by congruence.
Qed.

Lemma recovered_publish ev r' db w :
  w_db w !! ID ev = Some ev -> ID r' = ID ev -> db = <[ID ev := r']> (w_db w) -> EvStatus r' = StatusProcessing -> LeaseToken r' = None ->
  outcome_is_requeue r' = true -> AttemptCount r' = AttemptCount ev -> same_identity ev r' ->
  LeaseUntil r' = Some (now + effective_lease LeaseDuration) ->
  wp (reliable now) (PublishAndMark uuid_string (ID ev) ;;; Ret tt)%prog (set_db w db)
    (fun _ w' => recovered ev w' /\ framed [ID ev] w w').
Proof using Type.
  intros Hev Hid -> Hst Htok Ho Hc Hs Hu. apply wp_bind.
  eapply wp_mono; [eapply publish_processing; [apply lookup_insert_eq|done]|].
  intros _ w' (Hdb & Hp & Hkeep). cbn. unfold recovered, framed. rewrite Hdb. cbn. split; [split; [done|]|split; [|done]].
  - exists r'. split; [apply lookup_insert_eq|]. split; [by apply waiting_claimable|done].
  - intros id Hn. rewrite lookup_insert_ne; [done|]. intros E. apply Hn. rewrite E. by left.
Qed.

Lemma recoverOne_recovers ev w :
  w_db w !! ID ev = Some ev -> row_wf ev -> expired now ev = true ->
  (outcome_is_requeue ev = true -> outcomeOf (LastResult ev) = OutcomeRequeueRequested) ->
  wp (reliable now) (recoverOne uuid_string LeaseDuration ev) w
    (fun _ w' => recovered ev w' /\ framed [ID ev] w w').
Proof using Type.
  intros Hev [Hrange Hwf] Hexp Hread. unfold expired in Hexp. bool_to_prop. rewrite H in Hwf.
  unfold recoverOne. destruct (LeaseToken ev) as [tok|] eqn:Et.
  - intros t w1 [-> ->]. cbn [Prog.bind]. apply wp_bind, wp_bind. intros x w2 [-> ->]. cbn [wp exec_stmt].
    unfold RecoverExpiredToRequeue, claimed_or_error, update_where. rewrite Hev.
    replace (holds_lease tok ev) with true by (symmetry; by apply holds_lease_spec). rewrite H0. cbn [andb fst snd Z.eqb err_of].
    apply (recovered_publish _ (update_event (EvStatus ev) (AttemptCount ev) None (Some (now + effective_lease LeaseDuration))
      (Some (recovery_result ev now)) None now ev)); try done.
    unfold outcome_is_requeue. cbn. unfold recovery_result. by rewrite finished_outcome.
  - destruct Hwf as [_ Ho]. rewrite (Hread Ho), String.eqb_refl.
    apply wp_bind, wp_bind. intros x w2 [-> ->]. cbn [wp exec_stmt].
    unfold ReserveExpiredRequeue, claimed_or_error, update_where. rewrite Hev, H, Et, Ho, H0.
    rewrite bool_decide_eq_true_2 by done. cbn [andb fst snd Z.eqb err_of].
    apply (recovered_publish _ (update_event StatusProcessing (AttemptCount ev) None (Some (now + effective_lease LeaseDuration))
      (LastResult ev) (ProviderResponse ev) now ev)); try done.
Qed.

Lemma recover_all evs w :
  NoDup (List.map ID evs) ->
  (forall ev, ev ∈ evs -> w_db w !! ID ev = Some ev /\ row_wf ev /\ expired now ev = true /\
     (outcome_is_requeue ev = true -> outcomeOf (LastResult ev) = OutcomeRequeueRequested)) ->
  wp (reliable now) (for_each evs (recoverOne uuid_string LeaseDuration)) w
    (fun _ w' => (forall ev, ev ∈ evs -> recovered ev w') /\ framed (List.map ID evs) w w').
Proof using Type.
  revert w. induction evs as [|ev evs IH]; intros w Hn Hall; cbn.
  - split; [intros ev Hin; by apply elem_of_nil in Hin|by split].
  - apply NoDup_cons in Hn as [Hnin Hn]. destruct (Hall ev) as (H1 & H2 & H3 & H4); [by left|].
    apply wp_bind. eapply wp_mono; [by apply recoverOne_recovers|].
    intros [] w1 ((Hp & r' & Hr') & Hdb & Hpub).
    assert (forall i, i ∈ List.map ID evs -> i ∉ [ID ev]) as Hother.
    { intros i Hi Hin. apply list_elem_of_singleton in Hin. by subst. }
    eapply wp_mono.
    + apply IH; [done|]. intros ev' Hin. destruct (Hall ev') as (G1 & G2); [by right|].
      split; [|done]. rewrite Hdb; [done|]. apply Hother. apply list_elem_of_In, List.in_map. by apply list_elem_of_In.
    + intros _ w2 (Hrec & Hdb2 & Hpub2). split.
      * intros ev'. rewrite elem_of_cons. intros [->|Hin]; [|by apply Hrec].
        split; [by apply Hpub2|]. exists r'. by rewrite Hdb2.
      * split; [|eauto]. intros i. rewrite not_elem_of_cons. intros [? ?]. rewrite Hdb2 by done.
        apply Hdb. by rewrite list_elem_of_singleton.
Qed.
End scans.

(** ** The theorems *)

Section theorems.
Context {P : Postgres} (uuid_string : UUID -> string) (cfg : CompensatorConfig) (LeaseDuration : Z) (now : Z).

Lemma rows_where_nodup db cond : table_wf db -> NoDup (List.map ID (rows_where db cond)).
Proof using Type.
  intros Hw. unfold rows_where. rewrite heap_order_perm.
  assert (forall l : list (UUID * Event), (forall i r, (i, r) ∈ l -> ID r = i) -> NoDup l.*1 ->
    NoDup (List.map ID (List.filter cond (List.map snd l)))) as H.
  { induction l as [|[i r] l IH]; cbn; intros Hid Hn; [constructor|].
    apply NoDup_cons in Hn as [Hnin Hn]. assert (NoDup (List.map ID (List.filter cond (List.map snd l)))) as Hl.
    { apply IH; [|done]. intros. apply Hid. by right. }
    destruct (cond r); cbn; [|done]. apply NoDup_cons. split; [|done].
    rewrite (Hid i r) by by left. intros Hin. apply Hnin.
    apply list_elem_of_In, List.in_map_iff in Hin as (q & Hq & Hin).
    apply List.filter_In in Hin as [Hin _]. apply List.in_map_iff in Hin as ([j q'] & E & Hin). cbn in E. subst q'.
    apply list_elem_of_In in Hin. assert (ID q = j) as <- by (apply Hid; by right).
    rewrite Hq in Hin. change i with (i, q).1. by apply list_elem_of_fmap_2. }
  apply H; [|apply NoDup_fst_map_to_list]. intros i r Hin. apply elem_of_map_to_list in Hin. by eapply wf_id.
Qed.

Lemma NoDup_take {A} n (l : list A) : NoDup l -> NoDup (take n l).
Proof using Type. intros H. rewrite <- (take_drop n l) in H. by apply NoDup_app in H as [? _]. Qed.

Lemma SelectExpired_nodup limit db : table_wf db -> NoDup (List.map ID (SelectExpiredLeases now limit db)).
Proof using Type.
  intros Hw. unfold SelectExpiredLeases. rewrite <- firstn_map. apply NoDup_take.
  rewrite (Permutation_map ID (merge_sort_Permutation _ _)). by apply rows_where_nodup.
Qed.

(** One scan recovers its batch. *)
Lemma scan_recovers_batch w :
  table_wf (w_db w) -> docs_readable (w_db w) ->
  let limit := if LeaseScanBatchSize cfg <=? 0 then 200 else LeaseScanBatchSize cfg in
  let batch := SelectExpiredLeases now limit (w_db w) in
  wp (reliable now) (scanExpiredLeases uuid_string cfg LeaseDuration) w
    (fun _ w' => (forall ev, ev ∈ batch -> recovered LeaseDuration now ev w') /\ framed (List.map ID batch) w w').
Proof using Type.
  intros Hw Hd limit batch x w1 [-> ->]. cbn [Prog.bind exec_stmt fst snd].
  replace (set_db w (w_db w)) with w by by destruct w.
  apply recover_all; [by apply SelectExpired_nodup|].
  intros ev Hin. destruct (SelectExpiredLeases_spec now limit (w_db w)) as (_ & H & _).
  destruct (H ev Hin) as [He [id Hid]]. rewrite (wf_id _ Hw _ _ Hid).
  split; [done|]. split; [by eapply wf_row|]. split; [done|]. by eapply Hd.
Qed.

(** C10: With a database that answers, one expired-lease scan recovers its
    whole batch, worker leases and lost wake-ups alike: each row ends up
    claimable at any later instant with its attempts and identity unchanged
    and is handed to the broker once more, whatever the broker says; the
    rows outside the batch are untouched. *)
Theorem scanExpiredLeases_recovers w :
  table_wf (w_db w) -> docs_readable (w_db w) ->
  let limit := if LeaseScanBatchSize cfg <=? 0 then 200 else LeaseScanBatchSize cfg in
  let batch := SelectExpiredLeases now limit (w_db w) in
  wp (reliable now) (scanExpiredLeases uuid_string cfg LeaseDuration) w
    (fun _ w' => (forall ev, ev ∈ batch -> recovered LeaseDuration now ev w') /\ framed (List.map ID batch) w w').
Proof using Type. apply scan_recovers_batch. Qed.

(** After such a scan whose batch was not full, every row that was
    PROCESSING past its deadline is claimable again and on its way. *)
Theorem no_expired_left_behind w :
  table_wf (w_db w) -> docs_readable (w_db w) ->
  let limit := if LeaseScanBatchSize cfg <=? 0 then 200 else LeaseScanBatchSize cfg in
  (length (SelectExpiredLeases now limit (w_db w)) < Z.to_nat limit)%nat ->
  wp (reliable now) (scanExpiredLeases uuid_string cfg LeaseDuration) w
    (fun _ w' => forall id r, w_db w !! id = Some r -> expired now r = true -> recovered LeaseDuration now r w').
Proof using Type.
  intros Hw Hd limit Hlen x w1 [-> ->]. cbn [Prog.bind exec_stmt fst snd].
  replace (set_db w (w_db w)) with w by by destruct w.
  destruct (SelectExpiredLeases_spec now limit (w_db w)) as (_ & Hin & Hout). fold limit.
  eapply wp_mono.
  - apply recover_all; [by apply SelectExpired_nodup|].
    intros ev Hev. destruct (Hin ev Hev) as [He [id Hid]]. rewrite (wf_id _ Hw _ _ Hid).
    split; [done|]. split; [by eapply wf_row|]. split; [done|]. by eapply Hd.
  - intros [] w' [Hrec _] id r Hid He. apply Hrec.
    destruct (decide (ID r ∈ List.map ID (SelectExpiredLeases now limit (w_db w)))) as [Hm|Hm].
    + apply list_elem_of_In, List.in_map_iff in Hm as (q & Hq & Hqin). apply list_elem_of_In in Hqin.
      destruct (Hin q Hqin) as [_ [j Hj]]. pose proof (wf_id _ Hw _ _ Hj). pose proof (wf_id _ Hw _ _ Hid).
      assert (q = r) as -> by congruence. done.
    + exfalso. destruct (Hout id r Hid He) as [Hfull _]; [|lia].
      intros Hr. apply Hm, list_elem_of_In, List.in_map. by apply list_elem_of_In.
Qed.
End theorems.

(** ** Publishing *)

(** [local] with a broker that answers [b]. *)
Definition with_broker `{Postgres} (b : res PublishResult) : handler eff world := fun X e =>
  match e in eff X return world -> X -> world -> Prop with
  | EPublish id => fun w x w' => x = b /\ w' = add_published w id
  | e => local _ e
  end.

(** [PublishAndMark] records [enqueued_at] exactly on a durable receipt:
    a refused publish is an error and a wake-up that is not durable is a
    success, and both leave the table as it was; after a durable one the event
    is marked, unless it is no longer PENDING, and a database failure is
    reported. *)
Theorem PublishAndMark_durable `{Postgres} uuid_string id b w :
  wp (with_broker b) (PublishAndMark uuid_string id) w (fun err w' =>
    w_published w' = id :: w_published w /\
    match b with
    | Err e => err <> None /\ w_db w' = w_db w
    | Ok r =>
        if Durable r then
          match err with
          | None => exists now, w_db w' = MarkEnqueued now id (w_db w)
          | Some _ => True
          end
        else err = None /\ w_db w' = w_db w
    end).
Proof.
  intros x w1 [-> ->]. destruct b as [r|e]; cbn [Prog.bind wp]; [|done].
  destruct (Durable r); cbn [negb wp]; [|done].
  intros y w2 (db' & Ha & ->). destruct Ha as [now|e Hf|now e Hf]; cbn; [|done..].
  split; [done|]. by exists now.
Qed.
