(* ===== verification/ServiceSpec.v ===== *)
(** * What accepting a notification guarantees ([internal/application/notification]) *)

From S2P Require Import Prelude Prog Errors Json JsonRaw JsonSpec Domain Mq Provider Breaker Limiter Store Lifecycle StoreSpec.
From S2P Require Import Effects Among Publish CompensatorSpec Service ProviderSpec.

(** ** Canonical equality *)

#[export] Instance canonicalEqual_equiv : Equivalence (fun a b => canonicalEqual a b = true).
Proof.
  unfold canonicalEqual. split.
  - intros a. destruct (canonicalize a); apply String.eqb_refl.
  - intros a b. destruct (canonicalize a) eqn:Ea, (canonicalize b) eqn:Eb; rewrite ?String.eqb_eq; congruence.
  - intros a b c. destruct (canonicalize a) eqn:Ea, (canonicalize b) eqn:Eb, (canonicalize c) eqn:Ec;
      rewrite ?String.eqb_eq; congruence.
Qed.

(** C17: The comparison of a repeated submission's payload with the stored one
    ([canonicalEqual], which compares printed texts) decides exactly equality
    of JSON documents: numbers by their digits, strings by their characters,
    arrays element by element, objects by what each key maps to, whatever the
    order of members, white space and escapes; and when one of the two is not
    JSON it compares the bytes. *)
Theorem canonicalEqual_same_value a b :
  canonicalEqual a b = true <->
  match json_decode a, json_decode b with
  | Some (va, _), Some (vb, _) => same_value va vb
  | _, _ => a = b
  end.
Proof.
  unfold canonicalEqual, canonicalize.
  destruct (json_decode a) as [[va ra]|] eqn:Ea, (json_decode b) as [[vb rb]|] eqn:Eb; rewrite String.eqb_eq; [|done..].
  apply canonical_text; by eapply json_decode_wf.
Qed.

(** ** The lookup *)

Definition keyed_by (ss rid : string) (db : table) (r : Event) : Prop :=
  exists id, db !! id = Some r /\ SourceSystem r = ss /\ SourceRequestID r = rid.

Definition unkeyed (ss rid : string) (db : table) : Prop :=
  forall id r, db !! id = Some r -> same_source ss rid r = false.

Lemma FindBySourceRequest_spec `{Postgres} ss rid db :
  match FindBySourceRequest ss rid db with
  | Ok r => keyed_by ss rid db r
  | Err e => e = ESentinel StoreErrNotFound /\ unkeyed ss rid db
  end.
Proof.
  unfold FindBySourceRequest. destruct (rows_where db (same_source ss rid)) as [|r l] eqn:E.
  - split; [done|]. intros id r Hr. apply not_true_iff_false. intros Hs.
    assert (r ∈ rows_where db (same_source ss rid)) as Hin by (apply rows_where_spec; eauto).
    rewrite E in Hin. by apply elem_of_nil in Hin.
  - assert (r ∈ rows_where db (same_source ss rid)) as Hin by (rewrite E; by left).
    apply rows_where_spec in Hin as (Hs & id & Hid). apply same_source_spec in Hs as [? ?]. by exists id.
Qed.

Section submit.
Context {P : Postgres} {N : Type} (uuid_string : UUID -> string) (registry : Registry N).

(** The stored event the command is a repetition of. *)
Definition repeats (cmd : SubmitCommand) (r : Event) : Prop :=
  ProviderCode r = Cmd_ProviderCode cmd /\ ProviderAction r = Cmd_ProviderAction cmd /\
  canonicalEqual (Payload r) (Cmd_Payload cmd) = true.

Definition unavailable_error (e : error) : Prop :=
  exists what, e = EWrap EmptyString (ESentinel ErrStorageUnavailable) what.

Lemma unavailable_Is e : unavailable_error e -> errors_Is e ErrStorageUnavailable = true.
Proof using Type. by intros (what & ->). Qed.

Lemma insert_failed_unavailable : unavailable_error insert_failed.
Proof using Type. by eexists. Qed.

Definition resolved (cmd : SubmitCommand) (db : table) (x : res (option SubmitResult)) : Prop :=
  match x with
  | Ok None => unkeyed (Cmd_SourceSystem cmd) (Cmd_SourceRequestID cmd) db
  | Ok (Some sr) => exists r, keyed_by (Cmd_SourceSystem cmd) (Cmd_SourceRequestID cmd) db r /\
                              repeats cmd r /\ sr = submitResult uuid_string r true
  | Err e => (e = ESentinel ErrSourceRequestConflict /\
              exists r, keyed_by (Cmd_SourceSystem cmd) (Cmd_SourceRequestID cmd) db r /\ ~ repeats cmd r) \/
             unavailable_error e
  end.

Lemma resolveExisting_spec cmd w :
  wp local (resolveExisting uuid_string cmd) w (fun x w' => w' = w /\ resolved cmd (w_db w) x).
Proof using Type.
  intros x w' (db' & Ha & ->).
  assert (db' = w_db w) as -> by (by inversion Ha).
  replace (set_db w (w_db w)) with w by by destruct w.
  pose proof (FindBySourceRequest_spec (Cmd_SourceSystem cmd) (Cmd_SourceRequestID cmd) (w_db w)) as Hf.
  destruct Ha as [now|e (_ & Hn & _)|now e (_ & Hn & _)].
  - cbn [exec_stmt fst]. destruct (FindBySourceRequest _ _ _) as [r|e].
    + cbn [Prog.bind]. unfold resolved, repeats.
      destruct (String.eqb_spec (ProviderCode r) (Cmd_ProviderCode cmd)) as [E1|E1]; cbn [negb orb wp];
        [|split; [done|]; left; split; [done|]; exists r; naive_solver].
      destruct (String.eqb_spec (ProviderAction r) (Cmd_ProviderAction cmd)) as [E2|E2]; cbn [negb orb wp];
        [|split; [done|]; left; split; [done|]; exists r; naive_solver].
      destruct (canonicalEqual (Payload r) (Cmd_Payload cmd)) eqn:E3; cbn [negb wp]; split; try done.
      * by exists r.
      * left. split; [done|]. exists r. split; [done|]. intros (_ & _ & ?). congruence.
    + destruct Hf as [-> Hu]. by cbn.
  - cbn. rewrite Hn. split; [done|]. right. by eexists.
  - cbn. rewrite Hn. split; [done|]. right. by eexists.
Qed.

(** The row that stands for a command accepted at [at_], as its columns give
    it back: with no attempt made and no lease. *)
Definition accepted_row (cmd : SubmitCommand) (at_ : Z) (r : Event) : Prop :=
  varchar 64 (Cmd_SourceSystem cmd) = Ok (SourceSystem r) /\ varchar 128 (Cmd_SourceRequestID cmd) = Ok (SourceRequestID r) /\
  varchar 64 (Cmd_ProviderCode cmd) = Ok (ProviderCode r) /\ varchar 64 (Cmd_ProviderAction cmd) = Ok (ProviderAction r) /\
  jsonb_text (Cmd_Payload cmd) = Ok (Payload r) /\
  EvStatus r = StatusPending /\ AttemptCount r = 0 /\ LeaseToken r = None /\ LeaseUntil r = None /\
  LastResult r = None /\ ProviderResponse r = None /\ NextAttemptAt r = at_ /\ CreatedAt r = at_.

(** What is reported of a stored event, and of the command's new one. *)
Definition stored_answer (r : Event) : SubmitResult := {|
  SR_EventID := uuid_string (ID r); SR_SourceSystem := SourceSystem r; SR_SourceRequestID := SourceRequestID r;
  SR_Status := Status_string (EvStatus r); Duplicate := true; AcceptedAt := CreatedAt r |}.

Definition new_answer (cmd : SubmitCommand) (id : UUID) (at_ : Z) : SubmitResult := {|
  SR_EventID := uuid_string id; SR_SourceSystem := Cmd_SourceSystem cmd; SR_SourceRequestID := Cmd_SourceRequestID cmd;
  SR_Status := "PENDING"; Duplicate := false; AcceptedAt := at_ |}.

(** What [Submit] reports, and what it did. *)
Definition submitted (cmd : SubmitCommand) (w : world) (x : res SubmitResult) (w' : world) : Prop :=
  match x with
  | Ok sr =>
      validate_command registry cmd = None /\
      if Duplicate sr then
        w_db w' = w_db w /\ w_published w' = w_published w /\
        exists r, keyed_by (Cmd_SourceSystem cmd) (Cmd_SourceRequestID cmd) (w_db w) r /\
                  repeats cmd r /\ sr = stored_answer r
      else
        unkeyed (Cmd_SourceSystem cmd) (Cmd_SourceRequestID cmd) (w_db w) /\
        exists now r, w_db w !! ID r = None /\ w_db w' !! ID r = Some r /\ accepted_row cmd now r /\
          (forall i, i <> ID r -> w_db w' !! i = w_db w !! i) /\
          w_published w' = ID r :: w_published w /\ sr = new_answer cmd (ID r) now
  | Err e =>
      match validate_command registry cmd with
      | Some e' => e = e' /\ w' = w
      | None =>
          w_published w' = w_published w /\
          ((e = ESentinel ErrSourceRequestConflict /\ w_db w' = w_db w /\
            exists r, keyed_by (Cmd_SourceSystem cmd) (Cmd_SourceRequestID cmd) (w_db w) r /\ ~ repeats cmd r) \/
           (unavailable_error e /\
            (w_db w' = w_db w \/
             exists now r, w_db w !! ID r = None /\ accepted_row cmd now r /\ w_db w' = <[ID r := r]> (w_db w))))
      end
  end.

(** Publishing stamps the row, or leaves it. *)
Lemma publish_pending id r w :
  w_db w !! id = Some r -> EvStatus r = StatusPending ->
  wp local (PublishAndMark uuid_string id) w (fun _ w' =>
    w_published w' = id :: w_published w /\
    (exists r', w_db w' !! id = Some r' /\ (r' = r \/ exists t, r' = set_enqueued t t r)) /\
    (forall i, i <> id -> w_db w' !! i = w_db w !! i)).
Proof using Type.
  intros Hr Hp x w1 ->.
  assert (exists r', w_db w !! id = Some r' /\ (r' = r \/ exists t, r' = set_enqueued t t r)) as Hsame by (exists r; by auto).
  destruct x as [b|e]; cbn [Prog.bind wp]; [|done]. destruct (Durable b); cbn [negb wp]; [|done].
  assert (forall now, MarkEnqueued now id (w_db w) = <[id := set_enqueued now now r]> (w_db w)) as Hm.
  { intros now. unfold MarkEnqueued, update_where. rewrite Hr. by rewrite bool_decide_eq_true_2. }
  assert (forall now, exists r', <[id := set_enqueued now now r]> (w_db w) !! id = Some r' /\
            (r' = r \/ exists t, r' = set_enqueued t t r)) as Hset.
  { intros now. exists (set_enqueued now now r). split; [apply lookup_insert_eq|]. right. by exists now. }
  intros y w2 (db' & Ha & ->). destruct Ha as [now|e Hf|now e Hf]; cbn [Prog.bind wp err_of exec_stmt fst snd w_db w_published set_db add_published];
    rewrite ?Hm; (split; [done|]); (split; [done|]); intros i Hi; by rewrite ?lookup_insert_ne by done.
Qed.

Lemma resolved_submitted cmd w x sr :
  validate_command registry cmd = None ->
  resolved cmd (w_db w) (Ok (Some sr)) -> x = Ok sr -> submitted cmd w x w.
Proof using Type. intros Hv (r & Hk & Hr & ->) ->. cbn. split; [done|]. split; [done|]. split; [done|]. by exists r. Qed.

Lemma insert_refused now ev e db :
  (Insert now ev db).1 = Err e -> (Insert now ev db).2 = db.
Proof using Type. unfold Insert. by repeat case_match. Qed.

Lemma insert_row_fields now id cmd r : insert_row now (new_event id cmd) = Ok r -> ID r = id /\ accepted_row cmd now r.
Proof using Type. unfold insert_row, accepted_row. cbn. intros E. by repeat case_match; simplify_eq/=. Qed.

Lemma insert_accepted now id cmd c u db :
  (Insert now (new_event id cmd) db).1 = Ok (c, u) ->
  exists r, ID r = id /\ accepted_row cmd now r /\ db !! id = None /\ c = now /\ u = now /\
    unkeyed (SourceSystem r) (SourceRequestID r) db /\ (Insert now (new_event id cmd) db).2 = <[id := r]> db.
Proof using Type.
  unfold Insert. destruct (insert_row now (new_event id cmd)) as [r|e] eqn:Ei; [|done].
  destruct (unique_violation db r) eqn:Eu; [done|]. cbn. intros [= <- <-].
  apply unique_violation_false in Eu as [Hn Hs].
  assert (CreatedAt r = now /\ UpdatedAt r = now) as [Hc Hu].
  { unfold insert_row in Ei. by repeat case_match; simplify_eq/=. }
  destruct (insert_row_fields _ _ _ _ Ei) as [<- Ha]. exists r. by do 6 (split; [done|]).
Qed.

Lemma insert_cases now id cmd db :
  (Insert now (new_event id cmd) db).2 = db \/
  exists r, ID r = id /\ accepted_row cmd now r /\ db !! ID r = None /\ (Insert now (new_event id cmd) db).2 = <[ID r := r]> db.
Proof using Type.
  destruct (Insert now (new_event id cmd) db).1 as [[c u]|e] eqn:E; [right|left; by eapply insert_refused].
  destruct (insert_accepted _ _ _ _ _ _ E) as (r & <- & ? & ? & _ & _ & _ & ?). by exists r.
Qed.

Lemma Submit_submitted cmd w :
  wp local (Submit uuid_string registry cmd) w (submitted cmd w).
Proof using Type.
  unfold Submit. destruct (validate_command registry cmd) as [e|] eqn:Ev; [by cbn; rewrite Ev|].
  assert (forall e w', w_db w' = w_db w -> w_published w' = w_published w -> resolved cmd (w_db w) (Err e) -> submitted cmd w (Err e) w') as Hres.
  { intros e w' Hdb Hpub [[-> H]|H]; cbn; rewrite Ev; (split; [done|]); [left|right]; by auto. }
  apply wp_bind. eapply wp_mono; [apply resolveExisting_spec|]. intros [[sr|]|e] w1 [-> Hr]; [| |by apply Hres].
  { cbn [wp]. by eapply resolved_submitted. }
  intros id w1 (_ & ->). cbn [Prog.bind]. intros x w2 (db' & Ha & ->). cbn [Prog.bind].
  destruct x as [[c u]|e].
  - assert (exists now, (Insert now (new_event id cmd) (w_db w)).1 = Ok (c, u) /\
              db' = (Insert now (new_event id cmd) (w_db w)).2) as (now & Hi & ->).
    { inversion Ha as [now Hx|e Hf|now e Hf]; cbn in *; simplify_eq. by exists now. }
    destruct (insert_accepted _ _ _ _ _ _ Hi) as (r0 & <- & Hacc & H2 & -> & -> & _ & ->).
    apply wp_bind. eapply wp_mono; [apply (publish_pending (ID r0) r0); [apply lookup_insert_eq|apply Hacc]|].
    intros err w3 (Hp & (r' & Hr' & Hst) & Hoth). cbn [wp submitted submitResult Duplicate].
    assert (ID r' = ID r0 /\ accepted_row cmd now r') as [Hid Hacc'] by (by destruct Hst as [->|[t ->]]).
    split; [done|]. split; [done|]. exists now, r'. rewrite Hid. split; [done|]. split; [done|]. split; [done|]. split; [|done].
    intros i Hi'. rewrite Hoth by done. cbn. by rewrite lookup_insert_ne.
  - destruct (errors_Is e ErrDuplicateSourceRequest) eqn:Ed.
    + assert (db' = w_db w) as ->.
      { inversion Ha as [now Hx|e' Hf|now e' Hf]; cbn in *; simplify_eq; [|by destruct Hf as (_ & _ & ? & _); congruence..].
        eapply insert_refused. by symmetry. }
      apply wp_bind. eapply wp_mono; [apply resolveExisting_spec|]. cbn [w_db set_db set_uuids].
      intros [[sr|]|e'] w3 [-> Hr3]; cbn [wp]; [|apply Hres; [done..|right; apply insert_failed_unavailable]|by apply Hres].
      destruct Hr3 as (r & Hk & Hrep & ->). cbn. split; [done|]. split; [done|]. split; [done|]. by exists r.
    + cbn [wp submitted]. rewrite Ev. split; [done|]. right. split; [apply insert_failed_unavailable|]. cbn.
      assert (forall now, (Insert now (new_event id cmd) (w_db w)).2 = w_db w \/ exists now' r, w_db w !! ID r = None /\
        accepted_row cmd now' r /\ (Insert now (new_event id cmd) (w_db w)).2 = <[ID r:=r]> (w_db w)) as Hins.
      { intros now. destruct (insert_cases now id cmd (w_db w)) as [?|(r & _ & ? & ? & ?)]; [by left|right; by exists now, r]. }
      inversion Ha as [now Hx|e' Hf|now e' Hf]; cbn in *; subst; [apply Hins|by left|apply Hins].
Qed.

(** ** Among other writers *)

(** The text of the key is stored as another, or a column refuses the
    command. *)
Definition unfit (cmd : SubmitCommand) : Prop :=
  varchar 64 (Cmd_SourceSystem cmd) <> Ok (Cmd_SourceSystem cmd) \/ varchar 128 (Cmd_SourceRequestID cmd) <> Ok (Cmd_SourceRequestID cmd) \/
  (exists e, varchar 64 (Cmd_ProviderCode cmd) = Err e) \/ (exists e, varchar 64 (Cmd_ProviderAction cmd) = Err e) \/
  (exists e, jsonb_text (Cmd_Payload cmd) = Err e).

(** What [Submit] reports while others write: [db] is the table at the
    instant its answer is about. *)
Definition decided (faults : bool) (cmd : SubmitCommand) (w : world) (x : res SubmitResult) (w' : world) : Prop :=
  match validate_command registry cmd with
  | Some e => x = Err e /\ w' = w
  | None =>
      match x with
      | Ok sr => exists db r, evolves (w_db w) db /\ evolves db (w_db w') /\ db !! ID r = Some r /\
          if Duplicate sr then
            SourceSystem r = Cmd_SourceSystem cmd /\ SourceRequestID r = Cmd_SourceRequestID cmd /\ repeats cmd r /\
            sr = stored_answer r /\ w_published w' = w_published w
          else exists now, accepted_row cmd now r /\ sr = new_answer cmd (ID r) now /\ w_published w' = ID r :: w_published w
      | Err e =>
          w_published w' = w_published w /\
          ((e = ESentinel ErrSourceRequestConflict /\ exists db r, evolves (w_db w) db /\ evolves db (w_db w') /\
              keyed_by (Cmd_SourceSystem cmd) (Cmd_SourceRequestID cmd) db r /\ ~ repeats cmd r) \/
           (unavailable_error e /\ (faults = false -> unfit cmd)))
      end
  end.

Section among.
Context (faults : bool) (clock : Z) (before : gset UUID).
Abbreviation H := (among faults clock before).

(** The lookup, and then the others. *)
Lemma resolve_among {A} cmd w (k : res (option SubmitResult) -> prog A) Q : table_wf (w_db w) ->
  (forall x w', others (w_uuids w ∖ before) w w' ->
     match x with
     | Ok None => unkeyed (Cmd_SourceSystem cmd) (Cmd_SourceRequestID cmd) (w_db w)
     | Ok (Some sr) => exists r, w_db w !! ID r = Some r /\ SourceSystem r = Cmd_SourceSystem cmd /\
         SourceRequestID r = Cmd_SourceRequestID cmd /\ repeats cmd r /\ sr = stored_answer r
     | Err e => (e = ESentinel ErrSourceRequestConflict /\
                 exists r, keyed_by (Cmd_SourceSystem cmd) (Cmd_SourceRequestID cmd) (w_db w) r /\ ~ repeats cmd r) \/
                (unavailable_error e /\ faults = true)
     end -> wp H (k x) w' Q) ->
  wp H (Prog.bind (resolveExisting uuid_string cmd) k) w Q.
Proof using Type.
  intros Hw Hk. apply wp_bind. unfold resolveExisting. apply wp_among. intros x w1 w' Hd _ Ho.
  assert (exists w2, w1 = w2 /\ w2 = w) as (? & -> & ->).
  { exists w. split; [|done]. destruct Hd as [(now & _ & _ & ->)|(_ & e & now & _ & _ & [->|(_ & ->)])]; [by destruct w|done|by destruct w]. }
  destruct Hd as [(now & _ & -> & _)|(Hf & e & now & -> & (_ & Hn & _) & _)].
  - cbn [exec_stmt fst]. pose proof (FindBySourceRequest_spec (Cmd_SourceSystem cmd) (Cmd_SourceRequestID cmd) (w_db w)) as Hf.
    destruct (FindBySourceRequest _ _ _) as [r|e].
    + cbn [Prog.bind]. unfold repeats in Hk.
      destruct (String.eqb_spec (ProviderCode r) (Cmd_ProviderCode cmd)) as [E1|E1]; cbn [negb orb wp];
        [|apply Hk; [done|]; left; split; [done|]; exists r; naive_solver].
      destruct (String.eqb_spec (ProviderAction r) (Cmd_ProviderAction cmd)) as [E2|E2]; cbn [negb orb wp];
        [|apply Hk; [done|]; left; split; [done|]; exists r; naive_solver].
      destruct (canonicalEqual (Payload r) (Cmd_Payload cmd)) eqn:E3; cbn [negb wp]; (apply Hk; [done|]).
      * destruct Hf as (id & Hr & S1 & S2). exists r. by rewrite (wf_id _ Hw _ _ Hr).
      * left. split; [done|]. exists r. split; [done|]. intros (_ & _ & ?). congruence.
    + destruct Hf as [-> Hu]. cbn. by apply Hk.
  - cbn. rewrite Hn. apply Hk; [done|]. right. split; [by eexists|done].
Qed.

Lemma rely_absent mine u db db' : u ∈ mine -> db !! u = None -> rely mine db db' -> db' !! u = None.
Proof using Type.
  intros Hu Hn Hs. induction Hs as [s|s1 s2 s3 _ IH [_ Hsp]]; [done|]. specialize (IH Hn).
  destruct (s3 !! u) as [r|] eqn:E; [|done]. specialize (Hsp _ _ E). rewrite IH in Hsp. by destruct Hsp as [Hsp _].
Qed.

(** What a failed insertion of a fitting command found. *)
Lemma insert_fails now id cmd db e : db !! id = None -> (Insert now (new_event id cmd) db).1 = Err e ->
  unfit cmd \/ (errors_Is e ErrDuplicateSourceRequest = true /\ exists r, keyed_by (Cmd_SourceSystem cmd) (Cmd_SourceRequestID cmd) db r).
Proof using Type.
  intros Hn. unfold Insert. destruct (insert_row now (new_event id cmd)) as [r|e'] eqn:Ei.
  - destruct (insert_row_fields _ _ _ _ Ei) as (Hid & V1 & V2 & _).
    destruct (unique_violation db r) eqn:Eu; [|done]. cbn. intros [= <-].
    destruct (decide (SourceSystem r = Cmd_SourceSystem cmd)) as [E1|E1]; [|left; left; congruence].
    destruct (decide (SourceRequestID r = Cmd_SourceRequestID cmd)) as [E2|E2]; [|left; right; left; congruence].
    right. split; [done|]. unfold unique_violation in Eu. rewrite Hid, Hn, E1, E2 in Eu. cbn in Eu.
    apply existsb_exists in Eu as (q & Hin & Hs). apply in_map_iff in Hin as ([i q'] & <- & Hin). cbn in *.
    apply list_elem_of_In, elem_of_map_to_list in Hin. apply same_source_spec in Hs as [S1 S2]. exists q'. by exists i.
  - intros _. left. unfold insert_row in Ei. cbn in Ei. unfold unfit.
    destruct (varchar 64 (Cmd_SourceSystem cmd)); [|by left]. destruct (varchar 128 (Cmd_SourceRequestID cmd)); [|by right; left].
    do 2 right. destruct (varchar 64 (Cmd_ProviderCode cmd)); [|left; by eexists].
    destruct (varchar 64 (Cmd_ProviderAction cmd)); [|right; left; by eexists]. do 2 right.
    destruct (jsonb_text (Cmd_Payload cmd)); [done|by eexists].
Qed.

Lemma keyed_evolves ss rid db db' r : table_wf db -> evolves db db' -> keyed_by ss rid db r ->
  exists r', keyed_by ss rid db' r' /\ same_identity r r'.
Proof using Type.
  intros Hw He (id & Hr & S1 & S2). destruct (proj2 (evolves_keeps _ _ Hw He) _ _ Hr) as (r' & Hr' & Hi & _).
  exists r'. split; [|done]. exists id. split; [done|]. unfold same_identity in Hi. destruct_and!. split; congruence.
Qed.

Lemma publish_among id w :
  wp H (PublishAndMark uuid_string id) w (fun _ w' => evolves (w_db w) (w_db w') /\ w_published w' = id :: w_published w).
Proof using Type.
  unfold PublishAndMark. apply wp_among. intros x w1 w2 Hl%database_local _ (Hr2%rely_evolves & _ & _ & Hp2). cbn in Hl. subst w1. cbn in Hr2, Hp2.
  destruct x as [b|e]; [|done]. destruct (Durable b); cbn [negb]; [|done]. apply wp_among.
  intros y w3 w4 Hd _ (Hr4%rely_evolves & _ & _ & Hp4). cbn [wp].
  assert (forall now, evolves (w_db w2) (MarkEnqueued now id (w_db w2))) as Hm.
  { intros now. exact (evolves_step now _ _ (exec_stmt_step (SMarkEnqueued id) now _ I)). }
  assert (evolves (w_db w2) (w_db w3) /\ w_published w3 = w_published w2) as [He Hp].
  { destruct Hd as [(now & _ & _ & ->)|(_ & e & now & _ & _ & [->|(_ & ->)])]; (split; [|done]); (done || apply Hm). }
  assert (evolves (w_db w) (w_db w4)) as He4 by (etrans; [exact Hr2|]; by etrans).
  destruct y; cbn [wp Prog.bind err_of]; (split; [done|congruence]).
Qed.

Lemma Submit_decided cmd w : table_wf (w_db w) -> before = w_uuids w ->
  wp H (Submit uuid_string registry cmd) w (decided faults cmd w).
Proof using Type.
  intros Hw Hb. unfold Submit, decided. destruct (validate_command registry cmd) as [e|]; [done|].
  apply resolve_among; [done|]. intros x w1 (Hr1%rely_evolves & Hu1 & _ & Hp1) Hx.
  destruct x as [[sr|]|e]; cbn [wp].
  { destruct Hx as (r & Hr & S1 & S2 & Hrep & ->). exists (w_db w), r. cbn. by do 7 (split; [done|]). }
  2: { split; [done|]. destruct Hx as [(-> & r & Hk & Hn)|[Hx Hf]]; [left|right; split; [done|]; congruence].
    split; [done|]. by exists (w_db w), r. }
  clear Hx. assert (table_wf (w_db w1)) as Hw1 by by eapply evolves_wf.
  apply wp_among. intros id w2 w3 Hl%database_local [Hnone _] (Hr3 & Hu3 & _ & Hp3). destruct Hl as [Hfresh ->]. cbn in Hr3, Hu3, Hp3, Hnone.
  assert (w_db w3 !! id = None) as Hid.
  { eapply rely_absent; [|exact Hnone|exact Hr3]. rewrite Hb, <- Hu1. set_solver. }
  apply rely_evolves in Hr3. assert (evolves (w_db w) (w_db w3)) as He3 by by etrans.
  assert (table_wf (w_db w3)) as Hw3 by by eapply evolves_wf. assert (w_published w3 = w_published w) as Hpub by congruence.
  apply wp_among. intros x w4 w5 Hd _ (Hr5%rely_evolves & _ & _ & Hp5). destruct x as [[c u]|e].
  - destruct Hd as [(now & _ & Hi & ->)|(_ & e & now & ? & _)]; [|done]. cbn [exec_stmt] in *. symmetry in Hi.
    assert (evolves (w_db w3) (Insert now (new_event id cmd) (w_db w3)).2) as Hins by exact (evolves_step now _ _ (exec_stmt_step (SInsert _) now _ I)).
    destruct (insert_accepted _ _ _ _ _ _ Hi) as (r & <- & Hacc & _ & -> & -> & _ & E). rewrite E in *. cbn in Hr5, Hp5. clear E Hi.
    apply wp_bind. eapply wp_mono; [apply publish_among|]. intros err w6 [He6 Hp6]. cbn [wp].
    exists (<[ID r := r]> (w_db w3)), r. split; [by etrans|]. split; [by etrans|]. split; [apply lookup_insert_eq|].
    exists now. split; [done|]. split; [done|congruence].
  - assert (errors_Is e ErrDuplicateSourceRequest = false -> faults = false -> unfit cmd) as Hunfit.
    { intros He ->. destruct Hd as [(now & _ & Hi & _)|[? _]]; [|done]. cbn in Hi. symmetry in Hi.
      destruct (insert_fails _ _ _ _ _ Hid Hi) as [?|[? _]]; [done|congruence]. }
    destruct (errors_Is e ErrDuplicateSourceRequest) eqn:Ed.
    2: { cbn [wp]. split; [|right; split; [apply insert_failed_unavailable|by auto]].
      destruct Hd as [(now & _ & _ & ->)|(_ & e' & now & _ & _ & [->|(_ & ->)])]; cbn in Hp5; congruence. }
    destruct Hd as [(now & _ & Hi & ->)|(_ & e' & now & [= <-] & (_ & _ & Hf & _) & _)]; [|congruence].
    cbn [exec_stmt w_db set_db w_published] in *. symmetry in Hi. rewrite (insert_refused _ _ _ _ Hi) in Hr5.
    assert (table_wf (w_db w5)) as Hw5 by by eapply evolves_wf.
    apply resolve_among; [done|]. intros x w6 (Hr6%rely_evolves & _ & _ & Hp6) Hx.
    assert (evolves (w_db w) (w_db w5)) as He5 by by etrans. assert (w_published w6 = w_published w) as Hpub6 by congruence.
    destruct x as [[sr|]|e']; cbn [wp].
    + destruct Hx as (r & Hr & S1 & S2 & Hrep & ->). exists (w_db w5), r. cbn. by do 7 (split; [done|]).
    + split; [done|]. right. split; [apply insert_failed_unavailable|]. intros _.
      destruct (insert_fails _ _ _ _ _ Hid Hi) as [?|[_ (r & Hk)]]; [done|]. exfalso.
      destruct (keyed_evolves _ _ _ _ _ Hw3 Hr5 Hk) as (r' & (i & Hi' & S1 & S2) & _). specialize (Hx _ _ Hi').
      apply not_true_iff_false in Hx. by apply Hx, same_source_spec.
    + split; [done|]. destruct Hx as [(-> & r & Hk & Hn)|[Hx Hf]]; [left|right; split; [done|]; congruence].
      split; [done|]. by exists (w_db w5), r.
Qed.
End among.
End submit.

(** ** The theorems *)

(** C11: Every outcome of [Submit], whatever the database and the broker do.
    By itself: a rejected command touches nothing. A duplicate is reported
    only for a stored event with the same source key, provider, action and
    canonical payload; it is answered with that event's fields and changes
    and publishes nothing. A conflict is reported only when the key is stored
    for something else. A fresh acceptance means the key was unused, and one
    PENDING row with no attempts and the command's own text in every column
    was added, handed to the broker and answered for. Anything else is
    storage-unavailable: nothing is published, and at most the row of this
    command was added by an insertion whose answer was lost.
    Among other writers: the answer is true of the table at some instant of
    the call. While the database answers, the storage is unavailable only to
    a command that a column refuses or whose key a column stores as another
    text: a lost race for the key is answered as the duplicate or the
    conflict it is. *)
Theorem Submit_outcome `{Postgres} {N} (uuid_string : UUID -> string) (registry : Registry N) cmd w :
  wp local (Submit uuid_string registry cmd) w (submitted uuid_string registry cmd w) /\
  forall faults clock, table_wf (w_db w) ->
    wp (among faults clock (w_uuids w)) (Submit uuid_string registry cmd) w (decided uuid_string registry faults cmd w).
Proof. split; [apply Submit_submitted|]. intros faults clock Hw. by apply Submit_decided. Qed.

(** The columns give the key and the codes of the command back as they were
    (texts within their lengths are: only spaces beyond them are cut off), and
    its payload up to canonical equality. *)
Definition text_kept `{Postgres} (cmd : SubmitCommand) : Prop :=
  varchar 64 (Cmd_SourceSystem cmd) = Ok (Cmd_SourceSystem cmd) /\ varchar 128 (Cmd_SourceRequestID cmd) = Ok (Cmd_SourceRequestID cmd) /\
  varchar 64 (Cmd_ProviderCode cmd) = Ok (Cmd_ProviderCode cmd) /\ varchar 64 (Cmd_ProviderAction cmd) = Ok (Cmd_ProviderAction cmd).

Definition payload_kept `{Postgres} (cmd : SubmitCommand) : Prop :=
  forall p, jsonb_text (Cmd_Payload cmd) = Ok p -> canonicalEqual p (Cmd_Payload cmd) = true.

Lemma accepted_kept `{Postgres} cmd now r : text_kept cmd -> accepted_row cmd now r ->
  SourceSystem r = Cmd_SourceSystem cmd /\ SourceRequestID r = Cmd_SourceRequestID cmd /\
  ProviderCode r = Cmd_ProviderCode cmd /\ ProviderAction r = Cmd_ProviderAction cmd /\ jsonb_text (Cmd_Payload cmd) = Ok (Payload r).
Proof. intros (K1 & K2 & K3 & K4) (A1 & A2 & A3 & A4 & A5 & _). by rewrite K1, K2, K3, K4 in *; simplify_eq. Qed.

(** The event the source key stands for, after a successful submission. *)
Definition stands_for (cmd : SubmitCommand) (id : UUID) (db : table) : Prop :=
  forall r, keyed_by (Cmd_SourceSystem cmd) (Cmd_SourceRequestID cmd) db r -> ID r = id /\ repeats cmd r.

(** The row a fresh acceptance leaves, and that no other has its key. *)
Lemma submitted_fresh `{Postgres} {N} (uuid_string : UUID -> string) (registry : Registry N) cmd w sr w' :
  text_kept cmd -> submitted uuid_string registry cmd w (Ok sr) w' -> Duplicate sr = false ->
  exists r, SR_EventID sr = uuid_string (ID r) /\
    keyed_by (Cmd_SourceSystem cmd) (Cmd_SourceRequestID cmd) (w_db w') r /\
    ProviderCode r = Cmd_ProviderCode cmd /\ ProviderAction r = Cmd_ProviderAction cmd /\
    jsonb_text (Cmd_Payload cmd) = Ok (Payload r) /\
    forall r', keyed_by (Cmd_SourceSystem cmd) (Cmd_SourceRequestID cmd) (w_db w') r' -> r' = r.
Proof.
  intros Hk [_ H1] Hd. rewrite Hd in H1. destruct H1 as (Hun & now & r & Hn & Hr & Hacc & Hoth & _ & ->).
  destruct (accepted_kept _ _ _ Hk Hacc) as (S1 & S2 & S3 & S4 & S5).
  exists r. split; [done|]. split; [by exists (ID r)|]. split; [done|]. split; [done|]. split; [done|].
  intros r' (j & Hj & S6 & S7). destruct (decide (j = ID r)) as [->|Hne]; [congruence|].
  exfalso. rewrite Hoth in Hj by done. specialize (Hun _ _ Hj). apply not_true_iff_false in Hun.
  by apply Hun, same_source_spec.
Qed.

Lemma submitted_stands `{Postgres} {N} (uuid_string : UUID -> string) (registry : Registry N) cmd w sr w' :
  text_kept cmd -> payload_kept cmd ->
  table_wf (w_db w) -> submitted uuid_string registry cmd w (Ok sr) w' ->
  exists id r, SR_EventID sr = uuid_string id /\
    keyed_by (Cmd_SourceSystem cmd) (Cmd_SourceRequestID cmd) (w_db w') r /\ stands_for cmd id (w_db w').
Proof.
  intros Hvar Hjson Hw H1. destruct (Duplicate sr) eqn:Hd.
  - destruct H1 as [_ H1]. rewrite Hd in H1.
    destruct H1 as (-> & _ & r & (i & Hi & S1 & S2) & Hrep & ->). exists (ID r), r. split; [done|].
    split; [by exists i|]. intros r' (j & Hj & S3 & S4).
    assert (i = j) as <- by (eapply (wf_source _ Hw); [done|done|congruence..]).
    by assert (r' = r) as -> by congruence.
  - destruct (submitted_fresh _ _ _ _ _ _ Hvar H1 Hd) as (r & Hsr & Hk & Hpc & Hpa & Hp%Hjson & Huniq).
    exists (ID r), r. split; [done|]. split; [done|]. intros r' Hr'. rewrite (Huniq _ Hr'). by repeat split.
Qed.

(** Submitting the same command again is idempotent: if the first call
    accepted or found the event, the second reports the same event as a
    duplicate, or that the storage is unavailable; never a second event and
    never a conflict ([Concurrent] proves it among other writers). The
    columns must keep the command's texts, and its payload up to canonical
    equality. *)
Theorem Submit_idempotent `{Postgres} {N} (uuid_string : UUID -> string) (registry : Registry N) cmd w :
  text_kept cmd -> payload_kept cmd -> table_wf (w_db w) ->
  wp local (r1 <- Submit uuid_string registry cmd ;; r2 <- Submit uuid_string registry cmd ;; Ret (r1, r2))%prog w
    (fun rr _ => forall sr1, rr.1 = Ok sr1 ->
       match rr.2 with
       | Ok sr2 => Duplicate sr2 = true /\ SR_EventID sr2 = SR_EventID sr1
       | Err e => errors_Is e ErrStorageUnavailable = true
       end).
Proof.
  intros Hvar Hjson Hw. apply wp_bind. eapply wp_mono; [apply Submit_submitted|]. intros r1 w1 H1.
  apply wp_bind. eapply wp_mono; [apply Submit_submitted|]. intros r2 w2 H2. cbn [wp fst snd].
  intros sr1 ->. destruct (submitted_stands _ _ _ _ _ _ Hvar Hjson Hw H1) as (id & r & -> & Hr & Hst).
  destruct r2 as [sr2|e]; cbn in H2.
  - destruct H2 as [_ H2]. destruct (Duplicate sr2).
    + destruct H2 as (_ & _ & r' & Hk & _ & ->). split; [done|]. cbn. by destruct (Hst _ Hk) as [-> _].
    + destruct H2 as [Hun _]. destruct Hr as (i & Hi & S1 & S2). specialize (Hun _ _ Hi).
      apply not_true_iff_false in Hun. exfalso. by apply Hun, same_source_spec.
  - destruct H1 as [Hv _]. rewrite Hv in H2. destruct H2 as [_ [(_ & _ & r' & Hk & Hn)|[H2 _]]]; [|by apply unavailable_Is].
    exfalso. apply Hn. by apply Hst.
Qed.

(** A payload that the [jsonb] column does not give back up to canonical
    equality (numbers are compared as literals, and [jsonb] renormalises them,
    [1e2] to [100]) makes an identical second submission a conflict: it is
    never answered as the duplicate it is. *)
Theorem renormalised_payload_conflicts `{Postgres} {N} (uuid_string : UUID -> string) (registry : Registry N) cmd p' w :
  text_kept cmd -> jsonb_text (Cmd_Payload cmd) = Ok p' -> canonicalEqual p' (Cmd_Payload cmd) = false ->
  wp local (r1 <- Submit uuid_string registry cmd ;; r2 <- Submit uuid_string registry cmd ;; Ret (r1, r2))%prog w
    (fun rr _ => forall sr1, rr.1 = Ok sr1 -> Duplicate sr1 = false ->
       rr.2 = Err (ESentinel ErrSourceRequestConflict) \/ exists e, rr.2 = Err e /\ errors_Is e ErrStorageUnavailable = true).
Proof.
  intros Hvar Hjson Hneq. apply wp_bind. eapply wp_mono; [apply Submit_submitted|]. intros r1 w1 H1.
  apply wp_bind. eapply wp_mono; [apply Submit_submitted|]. intros r2 w2 H2. cbn [wp fst snd].
  intros sr1 -> Hd. destruct (submitted_fresh _ _ _ _ _ _ Hvar H1 Hd) as (r & _ & Hk & _ & _ & Hp & Huniq).
  assert (Payload r = p') as Hpay by congruence.
  destruct r2 as [sr2|e]; cbn in H2.
  - exfalso. destruct H2 as [_ H2]. destruct (Duplicate sr2).
    + destruct H2 as (_ & _ & r' & Hk' & (_ & _ & Heq) & _). rewrite (Huniq _ Hk'), Hpay in Heq. congruence.
    + destruct H2 as [Hun _]. destruct Hk as (i & Hi & S1 & S2). specialize (Hun _ _ Hi).
      apply not_true_iff_false in Hun. by apply Hun, same_source_spec.
  - destruct H1 as [Hv _]. rewrite Hv in H2. destruct H2 as [_ [(-> & _)|[H2 _]]]; [by left|right; exists e; split; [done|by apply unavailable_Is]].
Qed.

Lemma GetStatus_spec `{Postgres} q w :
  wp local (GetStatus q) w (fun x w' => w' = w /\
    match x with
    | Ok r => keyed_by (Q_SourceSystem q) (Q_SourceRequestID q) (w_db w) r
    | Err e =>
        (e = ESentinel ErrInvalidRequest /\ (Q_SourceSystem q = EmptyString \/ Q_SourceRequestID q = EmptyString)) \/
        (e = ESentinel ErrNotFound /\ unkeyed (Q_SourceSystem q) (Q_SourceRequestID q) (w_db w)) \/
        unavailable_error e
    end).
Proof.
  unfold GetStatus. destruct (string_empty (Q_SourceSystem q)) eqn:E1.
  { split; [done|]. left. split; [done|]. left. by destruct (Q_SourceSystem q). }
  destruct (string_empty (Q_SourceRequestID q)) eqn:E2.
  { split; [done|]. left. split; [done|]. right. by destruct (Q_SourceRequestID q). }
  intros x w' (db' & Ha & ->). assert (db' = w_db w) as -> by (by inversion Ha).
  replace (set_db w (w_db w)) with w by by destruct w.
  pose proof (FindBySourceRequest_spec (Q_SourceSystem q) (Q_SourceRequestID q) (w_db w)) as Hf.
  destruct Ha as [now|e (_ & Hn & _)|now e (_ & Hn & _)].
  - cbn [exec_stmt fst]. destruct (FindBySourceRequest _ _ _) as [r|e]; cbn [Prog.bind wp]; [done|].
    destruct Hf as [-> Hu]. cbn. split; [done|]. by right; left.
  - cbn. rewrite Hn. split; [done|]. right; right. by eexists.
  - cbn. rewrite Hn. split; [done|]. right; right. by eexists.
Qed.

(** [GetStatus] answers from the table: a stored event as it is, missing
    exactly when no row has the source key, and a query without a key is
    rejected before the database is asked. *)
Theorem GetStatus_outcome `{Postgres} q w :
  wp local (GetStatus q) w (fun x w' => w' = w /\
    match x with
    | Ok r => keyed_by (Q_SourceSystem q) (Q_SourceRequestID q) (w_db w) r
    | Err e =>
        (e = ESentinel ErrInvalidRequest /\ (Q_SourceSystem q = EmptyString \/ Q_SourceRequestID q = EmptyString)) \/
        (e = ESentinel ErrNotFound /\ unkeyed (Q_SourceSystem q) (Q_SourceRequestID q) (w_db w)) \/
        unavailable_error e
    end).
Proof. apply GetStatus_spec. Qed.

(** ** Capabilities *)

Section capabilities.
Context {N : Type}.
Implicit Types l : list (ResolvedAction N).

Lemma actions_of_perm code l l' : l ≡ₚ l' -> actions_of code l ≡ₚ actions_of code l'.
Proof using Type.
  intros H. unfold actions_of. apply Permutation_map.
  induction H as [|a l1 l2 _ IH|a b l1|l1 l2 l3 _ IH1 _ IH2]; cbn; [done| | |by etrans].
  - destruct (String.eqb _ code); [by apply perm_skip|done].
  - destruct (String.eqb (AC_ProviderCode (RA_Context a)) code), (String.eqb (AC_ProviderCode (RA_Context b)) code); try done.
    apply perm_swap.
Qed.

(** No two entries with the same codes. *)
Definition distinct_actions l : Prop :=
  forall a b, a ∈ l -> b ∈ l -> AC_ProviderCode (RA_Context a) = AC_ProviderCode (RA_Context b) ->
    AC_ProviderAction (RA_Context a) = AC_ProviderAction (RA_Context b) -> a = b.

Lemma actions_of_in code l x : x ∈ actions_of code l ->
  exists a, a ∈ l /\ AC_ProviderCode (RA_Context a) = code /\ x = capability a.
Proof using Type.
  unfold actions_of. intros H. apply list_elem_of_In, List.in_map_iff in H as (a & <- & H).
  apply List.filter_In in H as [H1 H2]. apply String.eqb_eq in H2. exists a. split; [by apply list_elem_of_In|done].
Qed.

#[export] Instance by_action_total : Total by_action.
Proof using Type. intros a b. unfold by_action. apply (total stdpp.strings.String.le). Qed.
#[local] Instance by_action_trans : Transitive by_action.
Proof using Type. intros a b c. unfold by_action. apply transitivity. Qed.

Lemma sorted_actions_perm code l l' : l ≡ₚ l' -> distinct_actions l ->
  merge_sort by_action (actions_of code l) = merge_sort by_action (actions_of code l').
Proof using Type.
  intros Hp Hd. apply (StronglySorted_unique_strong by_action).
  - intros x1 x2 H1 H2 H3 H4. rewrite merge_sort_Permutation in H1, H2.
    rewrite <- (actions_of_perm code l l' Hp) in H2.
    apply actions_of_in in H1 as (a & Ha & Ca & ->). apply actions_of_in in H2 as (b & Hb & Cb & ->).
    rewrite (Hd a b); try done; [congruence|]. by apply (anti_symm stdpp.strings.String.le).
  - apply (StronglySorted_merge_sort _).
  - apply (StronglySorted_merge_sort _).
  - rewrite !merge_sort_Permutation. by apply actions_of_perm.
Qed.

Lemma remove_dups_perm (l l' : list string) : l ≡ₚ l' -> remove_dups l ≡ₚ remove_dups l'.
Proof using Type.
  intros H. apply NoDup_Permutation; [apply NoDup_remove_dups..|].
  intros x. by rewrite !elem_of_remove_dups, H.
Qed.

Lemma capabilities_perm l l' : l ≡ₚ l' -> distinct_actions l -> capabilities_of l = capabilities_of l'.
Proof using Type.
  intros Hp Hd. unfold capabilities_of. cbn zeta.
  replace (merge_sort stdpp.strings.String.le (remove_dups (List.map (fun a => AC_ProviderCode (RA_Context a)) l')))
    with (merge_sort stdpp.strings.String.le (remove_dups (List.map (fun a => AC_ProviderCode (RA_Context a)) l))).
  - apply List.map_ext. intros code. f_equal. by apply sorted_actions_perm.
  - apply (Sorted_unique stdpp.strings.String.le); [apply (Sorted_merge_sort _)..|].
    rewrite !merge_sort_Permutation. by apply remove_dups_perm, Permutation_map.
Qed.

Lemma capabilities_codes l : List.map PC_ProviderCode (capabilities_of l) =
  merge_sort stdpp.strings.String.le (remove_dups (List.map (fun a => AC_ProviderCode (RA_Context a)) l)).
Proof using Type. unfold capabilities_of. by rewrite List.map_map, List.map_id. Qed.

Lemma registry_distinct (r : Registry N) : keyed_registry r -> distinct_actions (List.map snd (map_to_list (All r))).
Proof using Type.
  intros Hk a b Ha Hb E1 E2.
  apply list_elem_of_In, List.in_map_iff in Ha as ([k1 a'] & <- & Ha). apply list_elem_of_In, elem_of_map_to_list in Ha.
  apply list_elem_of_In, List.in_map_iff in Hb as ([k2 b'] & <- & Hb). apply list_elem_of_In, elem_of_map_to_list in Hb.
  cbn in *. pose proof (Hk _ _ Ha). pose proof (Hk _ _ Hb). unfold All in *. congruence.
Qed.
End capabilities.

(** [ListCapabilities] on a built registry does not depend on the order
    in which Go ranges over its maps, and lists exactly the resolved actions:
    provider codes in ascending order without repetition, each with its
    actions in ascending order. *)
Theorem ListCapabilities_deterministic `{Wording} {N} (resolver : string -> res string) (r0 r : Registry N) l :
  R_resolved r0 = ∅ -> Build resolver r0 = Ok r -> l ≡ₚ List.map snd (map_to_list (All r)) ->
  capabilities_of l = ListCapabilities r /\
  Sorted stdpp.strings.String.le (List.map PC_ProviderCode (ListCapabilities r)) /\
  NoDup (List.map PC_ProviderCode (ListCapabilities r)) /\
  (forall pc, pc ∈ ListCapabilities r -> Sorted by_action (PC_Actions pc)) /\
  forall code x, (exists acts, {| PC_ProviderCode := code; PC_Actions := acts |} ∈ ListCapabilities r /\ x ∈ acts) <->
    exists k ra, All r !! k = Some ra /\ AC_ProviderCode (RA_Context ra) = code /\ x = capability ra.
Proof.
  intros H0 Hb Hl.
  assert (keyed_registry r) as Hk.
  { eapply build_all_keyed; [|exact Hb]. intros k ra. by rewrite H0, lookup_empty. }
  split.
  - symmetry. apply capabilities_perm; [by symmetry|by apply registry_distinct].
  - unfold ListCapabilities. rewrite capabilities_codes. split; [apply (Sorted_merge_sort _)|].
    split; [rewrite merge_sort_Permutation; apply NoDup_remove_dups|]. split.
    { intros pc Hin. apply list_elem_of_In, List.in_map_iff in Hin as (c & <- & _).
      apply (Sorted_merge_sort _). }
    intros code x. unfold ListCapabilities, capabilities_of. cbn zeta. split.
    + intros (acts & Hin & Hx). apply list_elem_of_In, List.in_map_iff in Hin as (c & [= <- <-] & _).
      rewrite merge_sort_Permutation in Hx. apply actions_of_in in Hx as (a & Ha & <- & ->).
      apply list_elem_of_In, List.in_map_iff in Ha as ([k a'] & <- & Ha). apply list_elem_of_In, elem_of_map_to_list in Ha.
      by exists k, a'.
    + intros (k & ra & Hra & <- & ->).
      assert (ra ∈ List.map snd (map_to_list (All r))) as Hin.
      { apply list_elem_of_In, List.in_map_iff. exists (k, ra). split; [done|]. by apply list_elem_of_In, elem_of_map_to_list. }
      eexists. split.
      * apply list_elem_of_In, List.in_map_iff. eexists. split; [done|]. apply list_elem_of_In.
        rewrite merge_sort_Permutation. apply elem_of_remove_dups, list_elem_of_In, (List.in_map (fun a => AC_ProviderCode (RA_Context a))).
        by apply list_elem_of_In.
      * rewrite merge_sort_Permutation. unfold actions_of. apply list_elem_of_In, List.in_map, List.filter_In.
        split; [by apply list_elem_of_In|apply String.eqb_refl].
Qed.
