(* ===== verification/Concurrent.v ===== *)
(** * Submissions among other processes

    [ServiceSpec] says what one call of [Submit] does. Here two are compared,
    with any number of other servers and workers acting between any two of
    their calls: after each call the table may have changed as statements
    change it. Whatever they do, all processes agree on which event a source
    key stands for. *)

From S2P Require Import Prelude Prog Errors Json Domain Mq Provider Breaker Limiter Store Lifecycle StoreSpec Effects.
From S2P Require Import Among Publish Processor ProcessorSpec DeliverySpec Compensator Service System SystemSpec ServiceSpec.

(** ** What others may do to the table *)

(** Everything the processes of the system do to the table is of this kind,
    in any interleaving and with any crashes. *)
Lemma system_evolves `{P : Postgres} {N} (registry : Registry N) uuid_string cfg LeaseDuration mx breakers0 limiters0 s s' :
  star (sstep registry uuid_string cfg LeaseDuration mx breakers0 limiters0) (empty_sys breakers0 limiters0) s ->
  star (sstep registry uuid_string cfg LeaseDuration mx breakers0 limiters0) s s' -> evolves (sy_db s) (sy_db s').
Proof.
  intros Hs%reachable_inv.
  apply (star_invariant_rel _ (sys_inv mx) (fun a b => evolves (sy_db a) (sy_db b))); [done|intros; by etrans| |done].
  intros a b Ha Hab. destruct (step_inv _ _ _ _ _ _ _ _ _ Ha Hab) as [Hb (now & Hdb)].
  split; [done|by eapply evolves_step].
Qed.

(** A call, and then whatever the others do before the next one. *)
Definition interfering `{Postgres} : handler eff world := fun X e w x w' =>
  exists w1, local X e w x w1 /\ evolves (w_db w1) (w_db w').

Section interference.
Context {P : Postgres}.

Lemma interfering_evolves {A} (p : prog A) w :
  only writes_ok p -> wp interfering p w (fun _ w' => evolves (w_db w) (w_db w')).
Proof using Type.
  intros Hp. apply (wp_only interfering writes_ok (fun w' => evolves (w_db w) (w_db w'))); [|done|done].
  intros X e s x s' He Hs (w1 & Hl%local_evolves & H1); [|done]. etrans; [exact Hs|]. by etrans.
Qed.

(** A program of one call does what it does alone; the others act after it. *)
Definition once {A} (p : prog A) : Prop :=
  match p with Ret _ => True | Vis _ k => forall x, exists a, k x = Ret a end.

Lemma wp_once {A} (p : prog A) w Q : once p -> wp local p w Q ->
  wp interfering p w (fun a w' => exists w1, Q a w1 /\ evolves (w_db w1) (w_db w')).
Proof using Type.
  destruct p as [a|X e k]; cbn; intros Ho Hw; [by exists w|].
  intros x w' (w1 & Hl & He). specialize (Hw _ _ Hl). destruct (Ho x) as [a Ea]. rewrite Ea in *. by exists w1.
Qed.
End interference.

(** ** What a source key stands for *)

Definition same_key (cmd1 cmd2 : SubmitCommand) : Prop :=
  Cmd_SourceSystem cmd1 = Cmd_SourceSystem cmd2 /\ Cmd_SourceRequestID cmd1 = Cmd_SourceRequestID cmd2.

Definition same_codes (cmd1 cmd2 : SubmitCommand) : Prop :=
  Cmd_ProviderCode cmd1 = Cmd_ProviderCode cmd2 /\ Cmd_ProviderAction cmd1 = Cmd_ProviderAction cmd2.

(** [p] is what is stored for the command's payload: the text its column
    gave back for it, or one that is canonically equal to it. *)
Definition held `{Postgres} (cmd : SubmitCommand) (p : string) : Prop :=
  jsonb_text (Cmd_Payload cmd) = Ok p \/ canonicalEqual p (Cmd_Payload cmd) = true.

(** The event a command asks for is stored, under this id. *)
Definition recorded `{Postgres} (cmd : SubmitCommand) (id : UUID) (db : table) : Prop :=
  exists r, db !! id = Some r /\ SourceSystem r = Cmd_SourceSystem cmd /\ SourceRequestID r = Cmd_SourceRequestID cmd /\
    ProviderCode r = Cmd_ProviderCode cmd /\ ProviderAction r = Cmd_ProviderAction cmd /\ held cmd (Payload r).

(** The key is stored for something else. *)
Definition contested (cmd : SubmitCommand) (db : table) : Prop :=
  exists r, keyed_by (Cmd_SourceSystem cmd) (Cmd_SourceRequestID cmd) db r /\ ~ repeats cmd r.

Lemma repeats_identity cmd r r' : same_identity r r' -> repeats cmd r <-> repeats cmd r'.
Proof. unfold repeats. intros (_ & _ & _ & E1 & E2 & E3 & _). by rewrite E1, E2, E3. Qed.

Section persistence.
Context {P : Postgres} (db db' : table) (Hw : table_wf db) (He : evolves db db').

Lemma unkeyed_before ss rid : unkeyed ss rid db' -> unkeyed ss rid db.
Proof using All.
  intros Hu id r Hr. apply not_true_iff_false. intros [S1 S2]%same_source_spec.
  destruct (keyed_evolves ss rid db db' r) as (r' & (i & Hi & S3 & S4) & _); [done|done|by exists id|].
  specialize (Hu _ _ Hi). apply not_true_iff_false in Hu. by apply Hu, same_source_spec.
Qed.

Lemma recorded_persists cmd id : recorded cmd id db -> recorded cmd id db'.
Proof using All.
  intros (r & Hr & H1 & H2 & H3 & H4 & H5). destruct (proj2 (evolves_keeps _ _ Hw He) _ _ Hr) as (r' & Hr' & Hi & _).
  exists r'. unfold same_identity in Hi. destruct_and!. split; [done|]. do 4 (split; [congruence|]).
  by match goal with E : Payload r' = Payload r |- _ => rewrite E end.
Qed.

Lemma contested_persists cmd : contested cmd db -> contested cmd db'.
Proof using All.
  intros (r & Hk & Hn). destruct (keyed_evolves _ _ _ _ _ Hw He Hk) as (r' & Hk' & Hi). exists r'. split; [done|].
  by rewrite <- (repeats_identity cmd _ _ Hi).
Qed.
End persistence.

(** In one table, commands with one key find the same row. *)
Lemma same_row cmd1 cmd2 id1 id2 r1 r2 db : table_wf db -> same_key cmd1 cmd2 ->
  db !! id1 = Some r1 -> SourceSystem r1 = Cmd_SourceSystem cmd1 -> SourceRequestID r1 = Cmd_SourceRequestID cmd1 ->
  db !! id2 = Some r2 -> SourceSystem r2 = Cmd_SourceSystem cmd2 -> SourceRequestID r2 = Cmd_SourceRequestID cmd2 ->
  id1 = id2 /\ r1 = r2.
Proof.
  intros Hw [K1 K2] Hr1 S1 S2 Hr2 S3 S4.
  assert (id1 = id2) as <- by (eapply (wf_source _ Hw); [done|done|congruence..]). split; [done|congruence].
Qed.

(** Accepted for both: the same event, for the same codes, holding a document
    that is both commands' payload. *)
Definition same_delivery `{Postgres} (cmd1 cmd2 : SubmitCommand) : Prop :=
  same_codes cmd1 cmd2 /\ (exists p, held cmd1 p /\ held cmd2 p) /\
  (payload_kept cmd1 -> payload_kept cmd2 -> canonicalEqual (Cmd_Payload cmd1) (Cmd_Payload cmd2) = true).

(** Accepted for [cmd1], and not what [cmd2] asks for: other codes, or the
    document stored for [cmd1] is not [cmd2]'s payload. *)
Definition other_delivery `{Postgres} (cmd1 cmd2 : SubmitCommand) : Prop :=
  (exists p, held cmd1 p /\ ~ (same_codes cmd1 cmd2 /\ canonicalEqual p (Cmd_Payload cmd2) = true)) /\
  (payload_kept cmd1 -> ~ (same_codes cmd1 cmd2 /\ canonicalEqual (Cmd_Payload cmd1) (Cmd_Payload cmd2) = true)).

Lemma held_kept `{Postgres} cmd p : payload_kept cmd -> held cmd p -> canonicalEqual p (Cmd_Payload cmd) = true.
Proof. intros Hk [Hp|Hp]; [by apply Hk|done]. Qed.

Lemma recorded_agree `{Postgres} cmd1 cmd2 id1 id2 db : table_wf db -> same_key cmd1 cmd2 ->
  recorded cmd1 id1 db -> recorded cmd2 id2 db -> id1 = id2 /\ same_delivery cmd1 cmd2.
Proof.
  intros Hw Hk (r1 & Hr1 & S1 & S2 & C1 & C2 & P1) (r2 & Hr2 & S3 & S4 & C3 & C4 & P2).
  destruct (same_row _ _ _ _ _ _ _ Hw Hk Hr1 S1 S2 Hr2 S3 S4) as [-> ->]. split; [done|].
  split; [split; congruence|]. split; [by exists (Payload r2)|]. intros K1 K2.
  destruct canonicalEqual_equiv as [_ Hs Ht]. eapply Ht; [apply Hs|]; by apply held_kept.
Qed.

Lemma recorded_contested `{Postgres} cmd1 cmd2 id db : table_wf db -> same_key cmd1 cmd2 ->
  recorded cmd1 id db -> contested cmd2 db -> other_delivery cmd1 cmd2.
Proof.
  intros Hw Hk (r1 & Hr1 & S1 & S2 & C1 & C2 & P1) (r2 & (id2 & Hr2 & S3 & S4) & Hn).
  destruct (same_row _ _ _ _ _ _ _ Hw Hk Hr1 S1 S2 Hr2 S3 S4) as [_ ->]. split.
  - exists (Payload r2). split; [done|]. intros [[K1 K2] Hc]. apply Hn. split; [congruence|]. split; [congruence|done].
  - intros K [[K1 K2] Hc]. apply Hn. split; [congruence|]. split; [congruence|].
    destruct canonicalEqual_equiv as [_ _ Ht]. eapply Ht; [|exact Hc]. by apply held_kept.
Qed.

(** ** What an answer means, whoever else is writing *)

Section answers.
Context {P : Postgres} {N : Type} (uuid_string : UUID -> string) (registry : Registry N).

(** [db0] is the table the submission began in, [db] the one it ended in. *)
Definition answered (cmd : SubmitCommand) (db0 : table) (x : res SubmitResult) (db : table) : Prop :=
  match x with
  | Ok sr =>
      validate_command registry cmd = None /\
      (exists id, SR_EventID sr = uuid_string id /\ recorded cmd id db) /\
      (Duplicate sr = false -> unkeyed (Cmd_SourceSystem cmd) (Cmd_SourceRequestID cmd) db0)
  | Err e =>
      validate_command registry cmd = Some e \/ unavailable_error e \/
      (e = ESentinel ErrSourceRequestConflict /\ contested cmd db)
  end.

Lemma answered_persists cmd db0 x db db' : table_wf db -> evolves db db' ->
  answered cmd db0 x db -> answered cmd db0 x db'.
Proof using Type.
  intros Hw He. destruct x as [sr|e]; cbn.
  - intros (Hv & (id & Hid & Hr) & Hf). split; [done|]. split; [|done]. exists id. split; [done|]. by eapply recorded_persists.
  - intros [H|[H|[H Hc]]]; [by left|by right; left|]. right; right. split; [done|]. by eapply contested_persists.
Qed.

Lemma resolved_answered cmd db0 db x : table_wf db -> validate_command registry cmd = None ->
  resolved uuid_string cmd db x ->
  match x with
  | Ok None => True
  | Ok (Some sr) => answered cmd db0 (Ok sr) db
  | Err e => answered cmd db0 (Err e) db
  end.
Proof using Type.
  intros Hw Hv. destruct x as [[sr|]|e]; cbn; [|done|].
  - intros (r & (id & Hr & S1 & S2) & Hrep & ->). split; [done|]. split; [|done]. exists (ID r). split; [done|].
    exists r. rewrite (wf_id _ Hw _ _ Hr). destruct Hrep as (? & ? & ?). do 5 (split; [done|]). by right.
  - intros [[-> Hc]|Hu]; [|by right; left]. right; right. by split.
Qed.

Lemma resolve_answered cmd db0 w : table_wf (w_db w) -> validate_command registry cmd = None ->
  wp interfering (resolveExisting uuid_string cmd) w (fun x w' =>
    match x with
    | Ok None => True
    | Ok (Some sr) => answered cmd db0 (Ok sr) (w_db w')
    | Err e => answered cmd db0 (Err e) (w_db w')
    end).
Proof using Type.
  intros Hw Hv. eapply wp_mono; [eapply wp_once; [|apply resolveExisting_spec]|].
  - intros x. unfold resolveExisting. cbn. repeat case_match; by eexists.
  - intros x w' (w1 & [-> Hr] & He). pose proof (resolved_answered cmd db0 _ _ Hw Hv Hr) as Ha.
    destruct x as [[sr|]|e]; [|done|]; by eapply answered_persists.
Qed.

(** The statement that stores a new event finds its key unused and leaves it
    standing for the command. *)
Lemma insert_records now id cmd db c u : text_kept cmd ->
  (Insert now (new_event id cmd) db).1 = Ok (c, u) ->
  unkeyed (Cmd_SourceSystem cmd) (Cmd_SourceRequestID cmd) db /\ recorded cmd id (Insert now (new_event id cmd) db).2.
Proof using Type.
  intros Hk Hi. destruct (insert_accepted _ _ _ _ _ _ Hi) as (r & <- & Hacc & _ & _ & _ & Hu & ->).
  destruct (accepted_kept _ _ _ Hk Hacc) as (S1 & S2 & S3 & S4 & S5). rewrite S1, S2 in Hu. split; [exact Hu|].
  exists r. split; [apply lookup_insert_eq|]. do 4 (split; [done|]). by left.
Qed.

Lemma Submit_writes_ok cmd : only writes_ok (Submit uuid_string registry cmd).
Proof using Type. unfold Submit, resolveExisting, PublishAndMark. only_steps ok_leaf. Qed.

Lemma Submit_answered cmd w : text_kept cmd -> table_wf (w_db w) ->
  wp interfering (Submit uuid_string registry cmd) w (fun x w' => answered cmd (w_db w) x (w_db w')).
Proof using Type.
  intros Hkept Hw. unfold Submit. destruct (validate_command registry cmd) as [e|] eqn:Ev; [by left|].
  assert (only writes_ok (resolveExisting uuid_string cmd)) as Hro by (unfold resolveExisting; only_steps ok_leaf).
  apply wp_bind. eapply wp_mono; [exact (wp_conj _ _ _ _ _ (resolve_answered cmd (w_db w) w Hw Ev) (interfering_evolves _ w Hro))|].
  intros [[sr|]|e] w1 [Ha H1]; [exact Ha| |exact Ha]. clear Ha.
  intros id w2 (w2' & (_ & ->) & H2). cbn in H2. cbn [Prog.bind].
  assert (evolves (w_db w) (w_db w2)) as Hw2 by by etrans. clear H1 H2.
  destruct (evolves_keeps _ _ Hw Hw2) as [Hwf2 _].
  intros x w3 (w3' & Hl & H3). pose proof (local_evolves _ (ERepo (SInsert (new_event id cmd))) _ _ _ I Hl) as Hev.
  destruct Hl as (db' & Hans & ->). cbn in H3, Hev. cbn [Prog.bind].
  assert (evolves (w_db w) (w_db w3)) as Hw3 by (transitivity (w_db w2); [done|]; by transitivity db'). destruct (evolves_keeps _ _ Hw Hw3) as [Hwf3 _].
  destruct x as [[c u]|e].
  - assert (exists now, (Insert now (new_event id cmd) (w_db w2)).1 = Ok (c, u) /\
              db' = (Insert now (new_event id cmd) (w_db w2)).2) as (now & Hi & ->).
    { inversion Hans; cbn in *; simplify_eq. by eexists. }
    destruct (insert_records _ _ _ _ _ _ Hkept Hi) as [Hun Hreg].
    apply wp_bind. eapply wp_mono; [apply interfering_evolves; unfold PublishAndMark; only_steps ok_leaf|].
    intros err w4 H4. cbn [wp answered]. split; [done|]. split; [|intros _; exact (unkeyed_before _ _ Hw Hw2 _ _ Hun)].
    exists id. split; [done|]. eapply recorded_persists; [| |exact Hreg]; [by apply (evolves_keeps _ _ Hwf2)|by etrans].
  - destruct (errors_Is e ErrDuplicateSourceRequest); [|by right; left; apply insert_failed_unavailable].
    apply wp_bind. eapply wp_mono; [exact (resolve_answered cmd (w_db w) w3 Hwf3 Ev)|].
    intros [[sr|]|e'] w4 Ha; [exact Ha|by right; left; apply insert_failed_unavailable|exact Ha].
Qed.

(** What two answers for commands with one key have to say to each other. *)
Definition refusal (cmd1 cmd2 : SubmitCommand) (e : error) : Prop :=
  validate_command registry cmd2 = Some e \/ unavailable_error e \/
  (e = ESentinel ErrSourceRequestConflict /\ other_delivery cmd1 cmd2).

Definition agree (cmd1 cmd2 : SubmitCommand) (x1 x2 : res SubmitResult) : Prop :=
  match x1, x2 with
  | Ok sr1, Ok sr2 => SR_EventID sr1 = SR_EventID sr2 /\ same_delivery cmd1 cmd2
  | Ok _, Err e => refusal cmd1 cmd2 e
  | Err e, Ok _ => refusal cmd2 cmd1 e
  | Err _, Err _ => True
  end.

Lemma answered_agree cmd1 cmd2 a b x1 x2 db : table_wf db -> same_key cmd1 cmd2 ->
  answered cmd1 a x1 db -> answered cmd2 b x2 db -> agree cmd1 cmd2 x1 x2.
Proof using Type.
  intros Hw Hk. assert (same_key cmd2 cmd1) as Hk' by (by destruct Hk).
  assert (forall c1 c2 sr e y z, same_key c1 c2 -> answered c1 y (Ok sr) db -> answered c2 z (Err e) db -> refusal c1 c2 e) as Href.
  { intros c1 c2 sr e y z K (_ & (id & _ & Hr) & _) [H|[H|[H Hc]]]; [by left|by right; left|].
    right; right. split; [done|]. by eapply recorded_contested. }
  destruct x1 as [sr1|e1], x2 as [sr2|e2]; intros H1 H2; [|by eapply Href..|done].
  destruct H1 as (_ & (id1 & E1 & R1) & _), H2 as (_ & (id2 & E2 & R2) & _).
  destruct (recorded_agree _ _ _ _ _ Hw Hk R1 R2) as [-> Hc]. by split; [congruence|].
Qed.

(** C14: All servers agree on what a source key stands for. Two submissions
    with one key, each running among any other writers, the second ending no
    earlier than the first (it may have begun before it, or long after): if
    both are accepted they name the same event and the same provider and
    action, and the one document stored is the payload of both; if one is
    accepted and the other is refused, the refusal is a validation error, an
    unavailable storage, or a conflict because the codes differ or the
    document stored for the accepted one is not the other's payload. A
    submission begun after the key was accepted is at most a duplicate: never
    a second event. A stored document is a command's payload when it is
    canonically equal to it, or is what the [jsonb] column made of it: where
    the column keeps a payload up to canonical equality, both mean that the
    payloads themselves are equal or differ; where it does not ([1e2] becomes
    [100]) a repetition can be a conflict ([renormalised_payload_conflicts]).
    Assumed of each command: its text columns keep its key and codes, which
    they do unless these end in spaces beyond the column's length. *)
Theorem submissions_agree cmd1 cmd2 w1 w2 :
  same_key cmd1 cmd2 -> text_kept cmd1 -> text_kept cmd2 -> table_wf (w_db w1) -> table_wf (w_db w2) ->
  wp interfering (Submit uuid_string registry cmd1) w1 (fun x1 w1' =>
    wp interfering (Submit uuid_string registry cmd2) w2 (fun x2 w2' =>
      evolves (w_db w1') (w_db w2') ->
      agree cmd1 cmd2 x1 x2 /\
      forall sr1 sr2, x1 = Ok sr1 -> x2 = Ok sr2 -> evolves (w_db w1') (w_db w2) -> Duplicate sr2 = true)).
Proof using Type.
  intros Hk T1 T2 Hw1 Hw2.
  eapply wp_mono; [exact (wp_conj _ _ _ _ _ (Submit_answered cmd1 w1 T1 Hw1) (interfering_evolves _ w1 (Submit_writes_ok cmd1)))|].
  intros x1 w1' [H1 E1]. destruct (evolves_keeps _ _ Hw1 E1) as [Hw1' _].
  eapply wp_mono; [exact (Submit_answered cmd2 w2 T2 Hw2)|]. intros x2 w2' H2 He.
  destruct (evolves_keeps _ _ Hw1' He) as [Hw2' _]. split.
  - eapply answered_agree; [exact Hw2'|exact Hk| |exact H2]. exact (answered_persists _ _ _ _ _ Hw1' He H1).
  - intros sr1 sr2 -> -> He2. destruct (Duplicate sr2) eqn:Ed; [done|]. exfalso.
    destruct H2 as (_ & _ & Hf). specialize (Hf Ed).
    destruct H1 as (_ & (id & _ & r & Hr & S1 & S2 & _) & _), Hk as [K1 K2].
    pose proof (unkeyed_before _ _ Hw1' He2 _ _ Hf _ _ Hr) as Hn. apply not_true_iff_false in Hn.
    apply Hn, same_source_spec. split; congruence.
Qed.
End answers.
