(* ===== verification/Dto.v ===== *)
(** * The documents of the REST API ([internal/api/dto.go])

    The response structs as schemas: the members in the order [encoding/json]
    writes them, with the JSON type of each. [conforms] says when a document
    has a schema. *)

From S2P Require Import Prelude Json.

Inductive schema :=
| SString
| SInt
| SBool
| STime
| SRaw
| SArray (element : schema)
| SObject (fields : list (string * schema)).

Fixpoint conforms (s : schema) (j : json) : Prop :=
  match s with
  | SString => exists t, j = JStr t
  | SInt => exists z, j = JInt z
  | SBool => exists b, j = JBool b
  | STime => exists t, j = JTime t
  | SRaw => True
  | SArray e => exists l, j = JArr l /\ Forall (conforms e) l
  | SObject fs =>
      exists m, j = JObj m /\
      (fix members (fs : list (string * schema)) (m : list (string * json)) : Prop :=
         match fs, m with
         | [], [] => True
         | (k, s') :: fs', (k', v) :: m' => k = k' /\ conforms s' v /\ members fs' m'
         | _, _ => False
         end) fs m
  end.

(** ** Data *)

Definition emptyData_schema : schema := SObject [].

Definition readinessData_schema : schema := SObject [("ready", SBool)].

Definition createMessageResponse_schema : schema :=
  SObject [("event_id", SString); ("source_system", SString); ("source_request_id", SString); ("status", SString);
           ("duplicate", SBool); ("accepted_at", STime)].

Definition messageStatusResponse_schema : schema :=
  SObject [("event_id", SString); ("source_system", SString); ("source_request_id", SString);
           ("provider_code", SString); ("provider_action", SString); ("status", SString); ("attempt_count", SInt);
           ("last_result", SRaw); ("provider_response", SRaw); ("created_at", STime); ("updated_at", STime)].

Definition providerActionCapability_schema : schema := SObject [("provider_action", SString); ("description", SString)].

Definition providerCapability_schema : schema :=
  SObject [("provider_code", SString); ("actions", SArray providerActionCapability_schema)].

Definition providerCapabilitiesData_schema : schema := SObject [("providers", SArray providerCapability_schema)].

(** ** The envelope *)

Definition apiResponse_schema (data : schema) : schema :=
  SObject [("status", SInt); ("data", data); ("error_message", SString)].

Definition emptyAPIResponse : schema := apiResponse_schema emptyData_schema.
Definition readinessAPIResponse : schema := apiResponse_schema readinessData_schema.
Definition createMessageAPIResponse : schema := apiResponse_schema createMessageResponse_schema.
Definition messageStatusAPIResponse : schema := apiResponse_schema messageStatusResponse_schema.
Definition providerCapabilitiesAPIResponse : schema := apiResponse_schema providerCapabilitiesData_schema.
Definition errorResponse : schema := apiResponse_schema emptyData_schema.
