(* ===== verification/Api.v ===== *)
(** * The REST front end ([internal/api])

    Requests and responses, the localized errors, the bearer check, the
    handlers, the Swagger page, the routes and the middleware. [gin] matches routes and binds
    bodies, and a library serves the assets of the Swagger page: these are
    parameters. *)

From S2P Require Import Prelude Float Prog Errors Json JsonRaw Body Domain Config Provider Store Effects Service.

(** ** Error codes and messages *)

Inductive errorCode :=
| errInvalidRequest | errUnauthenticated | errUnsupportedProviderAction | errInvalidPayload
| errSourceRequestConflict | errMessageNotFound | errRouteNotFound | errMethodNotAllowed
| errStorageUnavailable | errDependencyUnavailable | errInternal.

Definition errorCode_Z (c : errorCode) : Z :=
  match c with
  | errInvalidRequest => 1001 | errUnauthenticated => 1002 | errUnsupportedProviderAction => 1004
  | errInvalidPayload => 1005 | errSourceRequestConflict => 1006 | errMessageNotFound => 1007
  | errRouteNotFound => 1008 | errMethodNotAllowed => 1009
  | errStorageUnavailable => 2001 | errDependencyUnavailable => 2002 | errInternal => 2003
  end.

(** The English and the Chinese text. *)
Definition errorMessages (c : errorCode) : string * string :=
  match c with
  | errInvalidRequest => ("The request body is invalid.", "请求体格式或参数无效。")
  | errUnauthenticated => ("Authentication failed. Check the bearer token.", "身份认证失败，请检查 Bearer Token。")
  | errUnsupportedProviderAction => ("The provider or provider action is not supported.", "不支持指定的供应商或供应商动作。")
  | errInvalidPayload => ("The payload does not meet the requirements of this provider action.", "Payload 不符合该供应商动作的要求。")
  | errSourceRequestConflict => ("The source request was previously accepted with different content.", "该来源请求已使用不同内容提交。")
  | errMessageNotFound => ("No message was found for the source request.", "未找到该来源请求对应的消息。")
  | errRouteNotFound => ("The requested API route does not exist.", "请求的 API 路径不存在。")
  | errMethodNotAllowed => ("The HTTP method is not allowed for this API route.", "该 API 路径不支持此 HTTP 方法。")
  | errStorageUnavailable => ("The storage service is temporarily unavailable.", "存储服务暂时不可用。")
  | errDependencyUnavailable => ("A required service dependency is unavailable.", "必要的服务依赖当前不可用。")
  | errInternal => ("An internal server error occurred.", "服务器内部发生错误。")
  end.

(** ** Language *)

(** The [q=] parameters of one item; a later one that parses replaces an
    earlier one. *)
Fixpoint item_quality (parameters : list string) (quality : float64) : float64 :=
  match parameters with
  | [] => quality
  | p :: rest =>
      let parameter := strings_TrimSpace p in
      if negb (strings_HasPrefix parameter "q=") then item_quality rest quality
      else
        match ParseFloat (strings_TrimPrefix parameter "q=") with
        | Some parsed => item_quality rest parsed
        | None => item_quality rest quality
        end
  end.

Definition is_language (tag prefix language : string) : bool :=
  String.eqb language tag || strings_HasPrefix language prefix.

Fixpoint best_language (items : list string) (bestLanguage : string) (bestQuality : float64) : string :=
  match items with
  | [] => bestLanguage
  | item :: rest =>
      let parts := split_on ";" item in
      let language := strings_ToLower (strings_TrimSpace (default EmptyString (head parts))) in
      let quality := item_quality (tail parts) (float_of_Z 1) in
      if float_leb quality bestQuality then best_language rest bestLanguage bestQuality
      else if is_language "zh" "zh-" language then best_language rest "zh" quality
      else if is_language "en" "en-" language || String.eqb language "*" then best_language rest "en" quality
      else best_language rest bestLanguage bestQuality
  end.

Definition preferredLanguage (header : string) : string := best_language (split_on "," header) "en" (float_of_Z (-1)).

(** ** Responses *)

Inductive body :=
| JSONBody (j : json)
| HTMLBody (page : string)
| RedirectTo (location : string)
| AssetBody (content : string).

Record http_response := mkResp { rs_status : Z; rs_body : body }.

Definition apiResponse (status : Z) (data : json) (error_message : string) : json :=
  JObj [("status", JInt status); ("data", data); ("error_message", JStr error_message)].

Definition emptyData : json := JObj [].

Definition localizedErrorMessage (acceptLanguage : string) (code : errorCode) : string :=
  let message := errorMessages code in
  if String.eqb (preferredLanguage acceptLanguage) "zh" then message.2 else message.1.

Definition writeSuccess (httpStatus : Z) (data : json) : http_response :=
  mkResp httpStatus (JSONBody (apiResponse 0 data EmptyString)).

Definition writeError (acceptLanguage : string) (httpStatus : Z) (code : errorCode) : http_response :=
  mkResp httpStatus (JSONBody (apiResponse (errorCode_Z code) emptyData (localizedErrorMessage acceptLanguage code))).

Definition writePayloadValidationError (acceptLanguage : string) (problems : list string) : http_response :=
  let errorMessage := localizedErrorMessage acceptLanguage errInvalidPayload in
  mkResp 422 (JSONBody (apiResponse (errorCode_Z errInvalidPayload) emptyData
    (match problems with [] => errorMessage | _ => (errorMessage +:+ " " +:+ strings_Join problems "; ")%string end))).

(** ** Handlers *)

(** What a handler reads of the request. *)
Record createMessageRequest := {
  CM_SourceSystem : string;
  CM_SourceRequestID : string;
  CM_ProviderCode : string;
  CM_ProviderAction : string;
  CM_Payload : string;
}.

Record api_request := {
  rq_method : string;
  rq_path : string;
  rq_authorization : string;
  rq_accept_language : string;
  rq_source_system : string;
  rq_source_request_id : string;
  rq_body : reader;
}.

Definition limit_body (limit : Z) (rq : api_request) : api_request :=
  {| rq_method := rq_method rq; rq_path := rq_path rq; rq_authorization := rq_authorization rq;
     rq_accept_language := rq_accept_language rq; rq_source_system := rq_source_system rq;
     rq_source_request_id := rq_source_request_id rq; rq_body := maxBodyBytes limit (rq_body rq) |}.

Definition writeSubmitError (lang : string) (err : error) : http_response :=
  if errors_Is err ErrInvalidRequest then writeError lang 400 errInvalidRequest
  else if errors_Is err ErrUnsupportedProviderAction then writeError lang 422 errUnsupportedProviderAction
  else
    match errors_As_Payload err with
    | Some problems => writePayloadValidationError lang problems
    | None =>
        if errors_Is err ErrInvalidPayload then writeError lang 422 errInvalidPayload
        else if errors_Is err ErrSourceRequestConflict then writeError lang 409 errSourceRequestConflict
        else if errors_Is err ErrStorageUnavailable then writeError lang 503 errStorageUnavailable
        else writeError lang 500 errInternal
    end.

Definition createMessageResponse (r : SubmitResult) : json :=
  JObj [("event_id", JStr (SR_EventID r)); ("source_system", JStr (SR_SourceSystem r));
        ("source_request_id", JStr (SR_SourceRequestID r)); ("status", JStr (SR_Status r));
        ("duplicate", JBool (Duplicate r)); ("accepted_at", JTime (AcceptedAt r))].

(** A nil [RawMessage] prints as [null]. *)
Definition messageStatusResponse (uuid_string : UUID -> string) (e : Event) : json :=
  JObj [("event_id", JStr (uuid_string (ID e))); ("source_system", JStr (SourceSystem e));
        ("source_request_id", JStr (SourceRequestID e)); ("provider_code", JStr (ProviderCode e));
        ("provider_action", JStr (ProviderAction e)); ("status", JStr (Status_string (EvStatus e)));
        ("attempt_count", JInt (AttemptCount e)); ("last_result", default JNull (LastResult e));
        ("provider_response", default JNull (ProviderResponse e)); ("created_at", JTime (CreatedAt e));
        ("updated_at", JTime (UpdatedAt e))].

Definition providerCapabilitiesData (l : list ProviderCapability) : json :=
  JObj [("providers", JArr (List.map (fun c =>
    JObj [("provider_code", JStr (PC_ProviderCode c));
          ("actions", JArr (List.map (fun a =>
             JObj [("provider_action", JStr (PAC_ProviderAction a)); ("description", JStr (PAC_Description a))]) (PC_Actions c)))]) l))].

(** [ShouldBindJSON] answers for [gin] on what can be read of the body. *)
Section handlers.
Context {N : Type} (uuid_string : UUID -> string) (registry : Registry N).
Context (ShouldBindJSON : reader -> option createMessageRequest).

Definition createMessage (rq : api_request) : prog http_response :=
  (match ShouldBindJSON (rq_body rq) with
   | None => Ret (writeError (rq_accept_language rq) 400 errInvalidRequest)
   | Some req =>
       result <- Submit uuid_string registry
         {| Cmd_SourceSystem := CM_SourceSystem req; Cmd_SourceRequestID := CM_SourceRequestID req;
            Cmd_ProviderCode := CM_ProviderCode req; Cmd_ProviderAction := CM_ProviderAction req; Cmd_Payload := CM_Payload req |} ;;
       match result with
       | Err e => Ret (writeSubmitError (rq_accept_language rq) e)
       | Ok r => Ret (writeSuccess 202 (createMessageResponse r))
       end
   end)%prog.

Definition writeStatusError (lang : string) (err : error) : http_response :=
  if errors_Is err ErrInvalidRequest then writeError lang 400 errInvalidRequest
  else if errors_Is err ErrNotFound then writeError lang 404 errMessageNotFound
  else if errors_Is err ErrStorageUnavailable then writeError lang 503 errStorageUnavailable
  else writeError lang 500 errInternal.

Definition getMessage (rq : api_request) : prog http_response :=
  (event <- GetStatus {| Q_SourceSystem := rq_source_system rq; Q_SourceRequestID := rq_source_request_id rq |} ;;
   match event with
   | Err e => Ret (writeStatusError (rq_accept_language rq) e)
   | Ok ev => Ret (writeSuccess 200 (messageStatusResponse uuid_string ev))
   end)%prog.

Definition listProviders : http_response := writeSuccess 200 (providerCapabilitiesData (ListCapabilities registry)).

Definition healthz : http_response := writeSuccess 200 emptyData.

(** [ready] is what the readiness function returned, nil without one. *)
Definition readyz (lang : string) (ready : option error) : http_response :=
  match ready with
  | Some _ => writeError lang 503 errDependencyUnavailable
  | None => writeSuccess 200 (JObj [("ready", JBool true)])
  end.

(** [bearerAuth]: whether the request may go on. *)
Definition bearerAuth (verifier : option Verifier) (rq : api_request) : bool :=
  let header := rq_authorization rq in
  strings_HasPrefix header "Bearer " &&
  match Verify verifier (strings_TrimPrefix header "Bearer ") with None => true | Some _ => false end.

(** ** The Swagger page

    [indexHTML] is the template with the first token as a JSON string. In the
    template below a back quote stands for a double quote. *)
Definition page_text : string -> string := string_map (fun c => if Ascii.eqb c "`" then "034"%char else c).

Definition swagger_head : string := page_text "<!DOCTYPE html>
<html lang=`en`>
<head>
  <meta charset=`UTF-8`>
  <meta name=`viewport` content=`width=device-width, initial-scale=1`>
  <title>Notification Delivery API</title>
  <link rel=`stylesheet` href=`./swagger-ui.css`>
</head>
<body>
<div id=`swagger-ui`></div>
<script src=`./swagger-ui-bundle.js`></script>
<script src=`./swagger-ui-standalone-preset.js`></script>
<script>
window.onload = function () {
  const defaultBearerToken = ".

Definition swagger_tail : string := page_text ";
  const ui = SwaggerUIBundle({
    url: `doc.json`,
    dom_id: `#swagger-ui`,
    validatorUrl: null,
    persistAuthorization: true,
    presets: [SwaggerUIBundle.presets.apis, SwaggerUIStandalonePreset],
    plugins: [SwaggerUIBundle.plugins.DownloadUrl],
    layout: `StandaloneLayout`,
    requestInterceptor: function (request) {
      const authorization = request.headers && request.headers.Authorization;
      if (authorization && !authorization.startsWith(`Bearer `)) {
        request.headers.Authorization = `Bearer ` + authorization;
      }
      return request;
    }
  });
  if (defaultBearerToken) {
    ui.preauthorizeApiKey(`BearerAuth`, defaultBearerToken);
  }
  window.ui = ui;
};
</script>
</body>
</html>".

Definition indexHTML (defaultBearerToken : string) : string :=
  (swagger_head +:+ print (JStr defaultBearerToken) +:+ swagger_tail)%string.

(** [any] is the path after [/docs]. *)
Definition swaggerHandler (assetHandler : string -> http_response) (defaultBearerToken any : string) : http_response :=
  if String.eqb any "/index.html" then mkResp 200 (HTMLBody (indexHTML defaultBearerToken))
  else assetHandler any.

Definition default_token (tokens : list string) : string := match tokens with t :: _ => t | [] => EmptyString end.

(** ** Routes *)

Inductive endpoint := EHealthz | EReadyz | EDocsRedirect | EDocs | EProviders | ECreateMessage | EGetMessage.

(** [NewRouter]'s table: method, pattern, whether it is in the authenticated
    group, handler. *)
Definition NewRouter (swaggerEnabled : bool) : list (string * string * bool * endpoint) :=
  [("GET", "/healthz", false, EHealthz); ("GET", "/readyz", false, EReadyz)] ++
  (if swaggerEnabled then [("GET", "/docs", false, EDocsRedirect); ("GET", "/docs/*any", false, EDocs)] else []) ++
  [("GET", "/v1/providers", true, EProviders); ("POST", "/v1/messages", true, ECreateMessage);
   ("GET", "/v1/messages/:source_request_id", true, EGetMessage)].

Inductive routing := Matched (i : nat) | NoMethod | NoRoute.

Context (gin_match : list (string * string) -> string -> string -> routing) (assetHandler : string -> http_response).

(** The parts of [Deps] besides the service. *)
Record Deps := {
  AuthVerifier : option Verifier;
  AuthTokens : list string;
  MaxBodyBytes : Z;
  SwaggerEnabled : bool;
}.

Definition endpoint_handler (d : Deps) (ready : option error) (e : endpoint) (rq : api_request) : prog http_response :=
  match e with
  | EHealthz => Ret healthz
  | EReadyz => Ret (readyz (rq_accept_language rq) ready)
  | EDocsRedirect => Ret (mkResp 307 (RedirectTo "/docs/index.html"))
  | EDocs => Ret (swaggerHandler assetHandler (default_token (AuthTokens d)) (strings_TrimPrefix (rq_path rq) "/docs"))
  | EProviders => Ret listProviders
  | ECreateMessage => createMessage rq
  | EGetMessage => getMessage rq
  end.

(** A request through the engine: the body limit, the route, its group's
    middleware, its handler. *)
Definition serve (d : Deps) (ready : option error) (request : api_request) : prog http_response :=
  let rq := limit_body (MaxBodyBytes d) request in
  let table := NewRouter (SwaggerEnabled d) in
  let lang := rq_accept_language rq in
  match gin_match (List.map (fun r => (r.1.1.1, r.1.1.2)) table) (rq_method rq) (rq_path rq) with
  | NoMethod => Ret (writeError lang 405 errMethodNotAllowed)
  | NoRoute => Ret (writeError lang 404 errRouteNotFound)
  | Matched i =>
      match table !! i with
      | None => Ret (writeError lang 404 errRouteNotFound)
      | Some (_, _, authenticated, e) =>
          if authenticated && negb (bearerAuth (AuthVerifier d) rq) then Ret (writeError lang 401 errUnauthenticated)
          else endpoint_handler d ready e rq
      end
  end.
End handlers.

(** ** The access log

    One line per request, after it was answered; [client_ip] is gin's. The
    time it took is left out. *)
Record http_line := { hl_method : string; hl_path : string; hl_status : Z; hl_client_ip : string }.

Definition accessLogger (logger : bool) (client_ip : api_request -> string) (next : api_request -> prog http_response)
    (rq : api_request) : prog (http_response * option http_line) :=
  (resp <- next rq ;;
   Ret (resp, if logger
              then Some {| hl_method := rq_method rq; hl_path := rq_path rq; hl_status := rs_status resp; hl_client_ip := client_ip rq |}
              else None))%prog.

(** ** The engine

    [gin.CustomRecovery]: a handler that panics before it wrote anything is
    answered as an internal error. *)
Inductive served := Responded (r : http_response) | HandlerPanicked.

Definition CustomRecovery (lang : string) (next : prog served) : prog http_response :=
  (o <- next ;;
   match o with
   | Responded r => Ret r
   | HandlerPanicked => Ret (writeError lang 500 errInternal)
   end)%prog.

(** The middleware every request goes through, in the order of [r.Use]. *)
Definition middleware (logger : bool) (client_ip : api_request -> string) (next : api_request -> prog served) :
    api_request -> prog (http_response * option http_line) :=
  accessLogger logger client_ip (fun rq => CustomRecovery (rq_accept_language rq) (next rq)).

(** A request through the router; none of its handlers panics. *)
Definition engine {N} (uuid_string : UUID -> string) (registry : Registry N) (ShouldBindJSON : reader -> option createMessageRequest)
    gin_match assetHandler (d : Deps) (ready : option error) (logger : bool) (client_ip : api_request -> string) :
    api_request -> prog (http_response * option http_line) :=
  middleware logger client_ip
    (fun rq => r <- serve uuid_string registry ShouldBindJSON gin_match assetHandler d ready rq ;; Ret (Responded r))%prog.

Example languages : List.map preferredLanguage
  ["zh-CN"; "en;q=0.8, zh;q=0.9"; "fr, zh;q=0.1"; EmptyString; "zh;q=0.5, *"; "zh;q=x"; "zh;q=0.5;q=0.1,en;q=0.2"]
  = ["zh"; "zh"; "zh"; "en"; "en"; "zh"; "en"].
Proof. vm_compute. reflexivity. Qed.
