(* ===== verification/Grpc.v ===== *)
(** * The gRPC front end ([internal/grpcapi])

    The three methods, the mapping of application errors to status codes, the
    interceptors every call goes through, with the lines they log, and the
    server they are put into. Requests and responses are the generated
    messages, as records. *)

From S2P Require Import Prelude Prog Errors Json Domain Config Provider Store Effects Service.

(** ** Status *)

Inductive code := InvalidArgument | AlreadyExists | CodeNotFound | Unavailable | Internal | Unauthenticated.

Record grpc_error := mkStatus { st_code : code; st_message : string }.

Abbreviation rpc := (result grpc_error).

Inductive NotificationStatus := SUnspecified | SPending | SProcessing | SSucceeded | SFailed | SUnknown.

Definition applicationError (err : error) : grpc_error :=
  if errors_Is err ErrInvalidRequest then mkStatus InvalidArgument "invalid notification request"
  else if errors_Is err ErrUnsupportedProviderAction then mkStatus InvalidArgument "unsupported provider action"
  else
    match errors_As_Payload err with
    | Some problems =>
        mkStatus InvalidArgument
          (match problems with [] => "invalid provider payload"
           | _ => ("invalid provider payload" +:+ ": " +:+ strings_Join problems "; ")%string end)
    | None =>
        if errors_Is err ErrInvalidPayload then mkStatus InvalidArgument "invalid provider payload"
        else if errors_Is err ErrSourceRequestConflict then
          mkStatus AlreadyExists "source request conflicts with an existing notification"
        else if errors_Is err ErrNotFound then mkStatus CodeNotFound "notification not found"
        else if errors_Is err ErrStorageUnavailable then mkStatus Unavailable "notification storage unavailable"
        else mkStatus Internal "internal server error"
    end.

Definition protoStatus (value : string) : NotificationStatus :=
  if String.eqb value (Status_string StatusPending) then SPending
  else if String.eqb value (Status_string StatusProcessing) then SProcessing
  else if String.eqb value (Status_string StatusFailed) then SFailed
  else if String.eqb value "SUCCEEDED" then SSucceeded
  else if String.eqb value "UNKNOWN" then SUnknown
  else SUnspecified.

(** ** Methods *)

Record SubmitNotificationResponse := {
  G_EventId : string; G_SourceSystem : string; G_SourceRequestId : string;
  G_Status : NotificationStatus; G_Duplicate : bool; G_AcceptedAt : Z;
}.

Record NotificationStatusResponse := {
  GS_EventId : string; GS_SourceSystem : string; GS_SourceRequestId : string;
  GS_ProviderCode : string; GS_ProviderAction : string; GS_Status : NotificationStatus; GS_AttemptCount : Z;
  GS_LastResultJson : string; GS_ProviderResponseJson : string; GS_CreatedAt : Z; GS_UpdatedAt : Z;
}.

(** The bytes of a stored document; none when the column is null. *)
Definition document_bytes (d : option json) : string := match d with Some j => print j | None => EmptyString end.

Section methods.
Context {N : Type} (uuid_string : UUID -> string) (registry : Registry N).

Definition SubmitNotification (cmd : SubmitCommand) : prog (rpc SubmitNotificationResponse) :=
  (result <- Submit uuid_string registry cmd ;;
   match result with
   | Err e => Ret (Err (applicationError e))
   | Ok r =>
       Ret (Ok {| G_EventId := SR_EventID r; G_SourceSystem := SR_SourceSystem r; G_SourceRequestId := SR_SourceRequestID r;
                  G_Status := protoStatus (SR_Status r); G_Duplicate := Duplicate r; G_AcceptedAt := AcceptedAt r |})
   end)%prog.

Definition GetNotificationStatus (q : StatusQuery) : prog (rpc NotificationStatusResponse) :=
  (event <- GetStatus q ;;
   match event with
   | Err e => Ret (Err (applicationError e))
   | Ok ev =>
       Ret (Ok {| GS_EventId := uuid_string (ID ev); GS_SourceSystem := SourceSystem ev; GS_SourceRequestId := SourceRequestID ev;
                  GS_ProviderCode := ProviderCode ev; GS_ProviderAction := ProviderAction ev;
                  GS_Status := protoStatus (Status_string (EvStatus ev)); GS_AttemptCount := wrap_signed 32 (AttemptCount ev);
                  GS_LastResultJson := document_bytes (LastResult ev); GS_ProviderResponseJson := document_bytes (ProviderResponse ev);
                  GS_CreatedAt := CreatedAt ev; GS_UpdatedAt := UpdatedAt ev |})
   end)%prog.

Definition ListProviderCapabilities : list (string * list (string * string)) :=
  List.map (fun c => (PC_ProviderCode c, List.map (fun a => (PAC_ProviderAction a, PAC_Description a)) (PC_Actions c)))
    (ListCapabilities registry).
End methods.

(** ** Interceptors *)

(** [strings.Fields]: the runs of bytes between white space. *)
Fixpoint fields_go (fuel : nat) (s : string) (cur : string) : list string :=
  let flush := if string_empty cur then [] else [string_rev cur] in
  match fuel with
  | O => flush
  | S f =>
      match strip_any unicode_spaces s with
      | Some r => flush ++ fields_go f r EmptyString
      | None => match s with EmptyString => flush | String c r => fields_go f r (String c cur) end
      end
  end.
Definition strings_Fields (s : string) : list string := fields_go (S (String.length s)) s EmptyString.

(** [verifyIncomingToken]; [md] are the values of the [authorization]
    metadata key, [None] without metadata. *)
Definition verifyIncomingToken (verifier : option Verifier) (md : option (list string)) : option grpc_error :=
  match md with
  | Some [value] =>
      match strings_Fields value with
      | [scheme; token] =>
          if negb (strings_EqualFold scheme "Bearer") then Some (mkStatus Unauthenticated "invalid bearer token")
          else match Verify verifier token with
               | Some _ => Some (mkStatus Unauthenticated "invalid bearer token")
               | None => None
               end
      | _ => Some (mkStatus Unauthenticated "invalid bearer token")
      end
  | _ => Some (mkStatus Unauthenticated "missing bearer token")
  end.

Definition isHealthMethod (method : string) : bool := strings_HasPrefix method "/grpc.health.v1.Health/".

(** What a handler does: it returns a response or an error, or it panics. *)
Inductive outcome (A : Type) := Returned (r : rpc A) | Panicked.
Arguments Returned {A} r.
Arguments Panicked {A}.

(** The lines the interceptors log, without the time a call took and the
    stack of a panic; no [status] is [OK]. *)
Inductive grpc_line :=
| RequestLine (operation : string) (status : option code)
| PanicLine (operation : string).

(** A call through interceptors: how it ended, and what was logged. *)
Abbreviation call A := (outcome A * list grpc_line)%type.

(** [status.Code(err)]. *)
Definition status_Code {A} (r : rpc A) : option code := match r with Ok _ => None | Err e => Some (st_code e) end.

Section interceptors.
Context {A : Type} (logger : bool) (verifier : option Verifier) (fullMethod : string) (md : option (list string)).

Definition authUnaryInterceptor (handler : prog (call A)) : prog (call A) :=
  if isHealthMethod fullMethod then handler
  else match verifyIncomingToken verifier md with
       | Some e => Ret (Returned (Err e), [])
       | None => handler
       end.

Definition authStreamInterceptor (handler : prog (option grpc_error)) : prog (option grpc_error) :=
  if isHealthMethod fullMethod then handler
  else match verifyIncomingToken verifier md with
       | Some e => Ret (Some e)
       | None => handler
       end.

(** A panic passes by the line. *)
Definition loggingUnaryInterceptor (handler : prog (call A)) : prog (call A) :=
  (x <- handler ;;
   match x with
   | (Returned r, lines) => Ret (Returned r, lines ++ (if logger then [RequestLine fullMethod (status_Code r)] else []))
   | (Panicked, lines) => Ret (Panicked, lines)
   end)%prog.

Definition recoveryUnaryInterceptor (handler : prog (call A)) : prog (call A) :=
  (x <- handler ;;
   match x with
   | (Panicked, lines) =>
       Ret (Returned (Err (mkStatus Internal "internal server error")), lines ++ (if logger then [PanicLine fullMethod] else []))
   | (Returned r, lines) => Ret (Returned r, lines)
   end)%prog.

(** [grpc.ChainUnaryInterceptor]: the first interceptor is the outermost. *)
Definition ChainUnaryInterceptor (interceptors : list (prog (call A) -> prog (call A))) (handler : prog (call A)) : prog (call A) :=
  fold_right (fun interceptor k => interceptor k) handler interceptors.

Definition unary_chain (handler : prog (outcome A)) : prog (call A) :=
  ChainUnaryInterceptor [recoveryUnaryInterceptor; authUnaryInterceptor; loggingUnaryInterceptor]
    (o <- handler ;; Ret (o, []))%prog.
End interceptors.

(** ** The server *)

Record Options := { MaxReceiveMessageBytes : Z; ReflectionEnabled : bool }.

(** What [New] gives the library besides the interceptors: the limit on a
    received message ([None] is the library's own), the registered services,
    and the health of the whole server. *)
Inductive service := NotificationService | HealthService | ReflectionService.

Record grpc_server := { max_receive : option Z; services : list service; serving : bool }.

Definition New (opts : Options) : grpc_server :=
  {| max_receive := if 0 <? MaxReceiveMessageBytes opts then Some (MaxReceiveMessageBytes opts) else None;
     services := [NotificationService; HealthService] ++ (if ReflectionEnabled opts then [ReflectionService] else []);
     serving := true |}.

Example fields_example : strings_Fields "  Bearer   abc " = ["Bearer"; "abc"].
Proof. vm_compute. reflexivity. Qed.
