(* ===== verification/Mcp.v ===== *)
(** * The MCP front end ([internal/mcpapi])

    The three tools, what is announced of them, their errors, and the wrappers around the endpoint. The
    MCP library decodes the arguments and checks the bearer token with the
    function it is given. *)

From S2P Require Import Prelude Prog Errors Json JsonRaw Body Url Domain Config Provider Store Effects Service.

Definition toolError (err : error) : string :=
  if errors_Is err ErrInvalidRequest then "INVALID_REQUEST: required fields or payload are invalid"
  else if errors_Is err ErrUnsupportedProviderAction then "UNSUPPORTED_PROVIDER_ACTION: provider or action is not enabled"
  else
    match errors_As_Payload err with
    | Some problems =>
        let message := "INVALID_PAYLOAD: payload does not meet provider requirements" in
        match problems with [] => message | _ => (message +:+ ": " +:+ strings_Join problems "; ")%string end
    | None =>
        if errors_Is err ErrInvalidPayload then "INVALID_PAYLOAD: payload does not meet provider requirements"
        else if errors_Is err ErrSourceRequestConflict then
          "SOURCE_REQUEST_CONFLICT: the idempotency key was previously accepted with different content"
        else if errors_Is err ErrNotFound then "NOT_FOUND: notification was not found"
        else if errors_Is err ErrStorageUnavailable then "STORAGE_UNAVAILABLE: notification storage is temporarily unavailable"
        else "INTERNAL: notification operation failed"
    end.

(** [input.Payload] is the map the library decoded from the arguments; a nil
    one is [null]. A number of it is a Go [float64], written here as the
    literal [json.Marshal] prints for that [float64]. *)
Record submitInput := {
  MI_SourceSystem : string; MI_SourceRequestID : string; MI_ProviderCode : string; MI_ProviderAction : string;
  MI_Payload : option (list (string * json));
}.

Record submitOutput := {
  MO_EventID : string; MO_SourceSystem : string; MO_SourceRequestID : string;
  MO_Status : string; MO_Duplicate : bool; MO_AcceptedAt : string;
}.

Record getStatusOutput := {
  MS_EventID : string; MS_SourceSystem : string; MS_SourceRequestID : string;
  MS_ProviderCode : string; MS_ProviderAction : string; MS_Status : string; MS_AttemptCount : Z;
  MS_LastResult : option json; MS_ProviderResponse : option json; MS_CreatedAt : string; MS_UpdatedAt : string;
}.

(** [json.Marshal(input.Payload)]: the keys of a map are printed in order. *)
Definition payload_text (p : option (list (string * json))) : string :=
  match p with Some m => print (to_any (JObj m)) | None => "null" end.

(** [decodeJSON] of a stored document; [null] decodes to nil. The members are
    in the order of their keys, and a number is the one the literal denotes. *)
Definition decodeJSON (raw : option json) : option json :=
  match raw with
  | Some JNull | None => None
  | Some j => Some (to_any j)
  end.

Section tools.
Context {N : Type} (uuid_string : UUID -> string) (registry : Registry N).

Definition submit_notification (input : submitInput) : prog (result string submitOutput) :=
  (result <- Submit uuid_string registry
     {| Cmd_SourceSystem := MI_SourceSystem input; Cmd_SourceRequestID := MI_SourceRequestID input;
        Cmd_ProviderCode := MI_ProviderCode input; Cmd_ProviderAction := MI_ProviderAction input;
        Cmd_Payload := payload_text (MI_Payload input) |} ;;
   match result with
   | Err e => Ret (Err (toolError e))
   | Ok r =>
       Ret (Ok {| MO_EventID := SR_EventID r; MO_SourceSystem := SR_SourceSystem r; MO_SourceRequestID := SR_SourceRequestID r;
                  MO_Status := SR_Status r; MO_Duplicate := Duplicate r; MO_AcceptedAt := rfc3339nano (AcceptedAt r) |})
   end)%prog.

Definition get_notification_status (q : StatusQuery) : prog (result string getStatusOutput) :=
  (event <- GetStatus q ;;
   match event with
   | Err e => Ret (Err (toolError e))
   | Ok ev =>
       Ret (Ok {| MS_EventID := uuid_string (ID ev); MS_SourceSystem := SourceSystem ev; MS_SourceRequestID := SourceRequestID ev;
                  MS_ProviderCode := ProviderCode ev; MS_ProviderAction := ProviderAction ev;
                  MS_Status := Status_string (EvStatus ev); MS_AttemptCount := AttemptCount ev;
                  MS_LastResult := decodeJSON (LastResult ev); MS_ProviderResponse := decodeJSON (ProviderResponse ev);
                  MS_CreatedAt := rfc3339nano (CreatedAt ev); MS_UpdatedAt := rfc3339nano (UpdatedAt ev) |})
   end)%prog.

Definition list_provider_capabilities : list (string * list (string * string)) :=
  List.map (fun c => (PC_ProviderCode c, List.map (fun a => (PAC_ProviderAction a, PAC_Description a)) (PC_Actions c)))
    (ListCapabilities registry).

(** *** Registration

    What [registerTools] tells a client about each tool; a nil hint is
    [None]. The library decodes the arguments of a call and runs the handler
    registered under the tool's name. *)
Record ToolAnnotations := {
  ReadOnlyHint : bool;
  DestructiveHint : option bool;
  IdempotentHint : bool;
  OpenWorldHint : option bool;
}.

Record Tool := { Tool_Name : string; Tool_Title : string; Tool_Description : string; Annotations : ToolAnnotations }.

Inductive tool_call := CallSubmit (input : submitInput) | CallStatus (input : StatusQuery) | CallList.
Inductive tool_answer := AnswerSubmit (o : submitOutput) | AnswerStatus (o : getStatusOutput) | AnswerList (o : list (string * list (string * string))).

(** The tool a call names, and what its handler does. *)
Definition tool_of (c : tool_call) : Tool :=
  match c with
  | CallSubmit _ =>
      {| Tool_Name := "submit_notification"; Tool_Title := "Submit notification";
         Tool_Description := "Durably accepts a notification for asynchronous delivery. Success means accepted and persisted, not delivered by the provider.";
         Annotations := {| ReadOnlyHint := false; DestructiveHint := Some false; IdempotentHint := true; OpenWorldHint := Some true |} |}
  | CallStatus _ =>
      {| Tool_Name := "get_notification_status"; Tool_Title := "Get notification status";
         Tool_Description := "Returns the persisted asynchronous delivery state for one source request.";
         Annotations := {| ReadOnlyHint := true; DestructiveHint := None; IdempotentHint := false; OpenWorldHint := Some false |} |}
  | CallList =>
      {| Tool_Name := "list_provider_capabilities"; Tool_Title := "List provider capabilities";
         Tool_Description := "Lists provider codes and actions enabled by the current runtime configuration.";
         Annotations := {| ReadOnlyHint := true; DestructiveHint := None; IdempotentHint := false; OpenWorldHint := Some false |} |}
  end.

Definition call_tool (c : tool_call) : prog (result string tool_answer) :=
  (match c with
   | CallSubmit input =>
       r <- submit_notification input ;; Ret (match r with Ok o => Ok (AnswerSubmit o) | Err e => Err e end)
   | CallStatus q =>
       r <- get_notification_status q ;; Ret (match r with Ok o => Ok (AnswerStatus o) | Err e => Err e end)
   | CallList => Ret (Ok (AnswerList list_provider_capabilities))
   end)%prog.
End tools.

(** The token check given to [auth.RequireBearerToken]: an error wraps the
    library's own, success expires in a day. *)
Definition verify_token (verifier : option Verifier) (now : Z) (token : string) : res Z :=
  match Verify verifier token with
  | Some e => Err (EString ("invalid token: " +:+ Error e)%string)
  | None => Ok (now + 86400 * time_Second)
  end.

(** ** The endpoint *)

(** What the wrappers read of a request, and its body. *)
Record mcp_request := {
  mh_method : string;
  mh_path : string;
  mh_host : string;
  mh_sec_fetch_site : string;
  mh_origin : string;
  mh_authorization : string;
  mh_body : option reader;
}.

(** The calls a handler makes on its [http.ResponseWriter]. *)
Inductive writer_call := WriteHeader (status : Z) | Write (body : string).

Definition mcp_handler : Type := mcp_request -> prog (list writer_call).

(** [http.Error]. *)
Definition http_Error (message : string) (status : Z) : list writer_call :=
  [WriteHeader status; Write (message +:+ String "010" EmptyString)%string].

Definition errCrossOriginRequest : string := "cross-origin request detected from Sec-Fetch-Site header".
Definition errCrossOriginRequestFromOldBrowser : string :=
  "cross-origin request detected, and/or browser is out of date: Sec-Fetch-Site is missing, and Origin does not match Host".

(** [CrossOriginProtection.Check], with no trusted origins and no bypass. *)
Definition cross_origin_check (rq : mcp_request) : option string :=
  if existsb (String.eqb (mh_method rq)) ["GET"; "HEAD"; "OPTIONS"] then None
  else if existsb (String.eqb (mh_sec_fetch_site rq)) ["same-origin"; "none"] then None
  else if negb (String.eqb (mh_sec_fetch_site rq) EmptyString) then Some errCrossOriginRequest
  else if String.eqb (mh_origin rq) EmptyString then None
  else
    match Parse (mh_origin rq) with
    | Some o => if String.eqb (Host o) (mh_host rq) then None else Some errCrossOriginRequestFromOldBrowser
    | None => Some errCrossOriginRequestFromOldBrowser
    end.

(** [protection.Handler]. *)
Definition protect (next : mcp_handler) : mcp_handler := fun rq =>
  match cross_origin_check rq with
  | Some message => Ret (http_Error message 403)
  | None => next rq
  end.

Definition limit_mcp_body (limit : Z) (next : mcp_handler) : mcp_handler := fun rq =>
  next {| mh_method := mh_method rq; mh_path := mh_path rq; mh_host := mh_host rq; mh_sec_fetch_site := mh_sec_fetch_site rq;
          mh_origin := mh_origin rq; mh_authorization := mh_authorization rq; mh_body := limitRequestBody limit (mh_body rq) |}.

(** [statusWriter]: the status the access log shows. *)
Definition writer_step (status : Z) (c : writer_call) : Z :=
  match c with
  | WriteHeader s => s
  | Write _ => if status =? 0 then 200 else status
  end.

Definition logged_status (calls : list writer_call) : Z :=
  let status := fold_left writer_step calls 0 in if status =? 0 then 200 else status.

(** The line of the access log, without the time it took. *)
Record access_line := { al_method : string; al_path : string; al_status : Z }.

(** Every call is passed on; a nil logger logs nothing. *)
Definition accessLogger (logger : bool) (next : mcp_handler) (rq : mcp_request) : prog (list writer_call * option access_line) :=
  (calls <- next rq ;;
   Ret (calls, if logger then Some {| al_method := mh_method rq; al_path := mh_path rq; al_status := logged_status calls |} else None))%prog.

(** [bearer] is [auth.RequireBearerToken] and [streamable] the library's
    handler, which decodes a call and runs the tool it names. *)
Definition NewHandler (bearer : (string -> res Z) -> mcp_handler -> mcp_handler) (streamable : mcp_handler) (logger : bool)
    (verifier : option Verifier) (maxBodyBytes : Z) (now : Z) : mcp_request -> prog (list writer_call * option access_line) :=
  accessLogger logger (limit_mcp_body maxBodyBytes (bearer (verify_token verifier now) (protect streamable))).

(** What the status writer records is what the client gets, as long as the
    header is written once, before the body. *)
Lemma logged_status_sent status bodies : status <> 0 -> logged_status (WriteHeader status :: List.map Write bodies) = status.
Proof.
  intros Hs. unfold logged_status. cbn [fold_left writer_step].
  assert (fold_left writer_step (List.map Write bodies) status = status) as ->.
  { induction bodies as [|b bodies IH]; [done|]. cbn [List.map fold_left writer_step]. replace (status =? 0) with false by lia. exact IH. }
  by replace (status =? 0) with false by lia.
Qed.
