(* ===== verification/Settings.v ===== *)
(** * The configuration files ([internal/config])

    The structs [server.yaml] and [worker.yaml] are decoded into. The requeue
    policy, RabbitMQ's settings and the compensator's are with the components
    that read them. *)

From S2P Require Import Prelude Errors Mq Rabbit Compensator.

Record HTTPConfig := {
  HTTP_Addr : string;
  ReadTimeout : Z;
  WriteTimeout : Z;
  HTTP_ShutdownTimeout : Z;
  HTTP_MaxBodyBytes : Z;
}.

Record MCPConfig := {
  MCP_Enabled : bool;
  MCP_Path : string;
  MCP_MaxBodyBytes : Z;
}.

Record GRPCConfig := {
  GRPC_Enabled : bool;
  GRPC_Addr : string;
  GRPC_ShutdownTimeout : Z;
  GRPC_MaxReceiveMessageBytes : Z;
  GRPC_ReflectionEnabled : bool;
}.

Record SwaggerConfig := { Swagger_Enabled : bool }.

Record DatabaseConfig := {
  DB_Driver : string;
  DSN : string;
  AutoCreate : bool;
  MaxConns : Z;
  MinConns : Z;
}.

Record AuthConfig := { Tokens : list string }.

Record MemoryConfig := { BufferSize : Z; Memory_Requeue : RequeueConfig }.

Record NSQConfig := {
  NSQDAddr : string;
  LookupdAddrs : list string;
  Topic : string;
  Channel : string;
  NSQ_Requeue : RequeueConfig;
}.

Record MQConfig := {
  MQ_Driver : string;
  MQ_Memory : MemoryConfig;
  MQ_NSQ : NSQConfig;
  MQ_RabbitMQ : RabbitMQConfig;
}.

Record LeaseConfig := { Lease_Duration : Z; RenewInterval : Z }.

Record HTTPClientConfig := { MaxResponseBytes : Z; Client_AllowedRespHeaders : list string }.

Record WorkerRuntimeConfig := {
  Lease : LeaseConfig;
  Concurrency : Z;
  Runtime_Compensator : CompensatorConfig;
  HTTPClient : HTTPClientConfig;
}.

Record ServerConfig := {
  HTTP : HTTPConfig;
  MCP : MCPConfig;
  GRPC : GRPCConfig;
  Swagger : SwaggerConfig;
  Database : DatabaseConfig;
  MQ : MQConfig;
  Worker : WorkerRuntimeConfig;
  Auth : AuthConfig;
  ProvidersFile : string;
  AutoMigrate : bool;
}.

Record WorkerConfig := {
  W_Database : DatabaseConfig;
  W_MQ : MQConfig;
  W_ProvidersFile : string;
  W_Runtime : WorkerRuntimeConfig;
  W_AutoMigrate : bool;
}.
