(* ===== verification/Boot.v ===== *)
(** * What the two commands call while they start, run and stop

    The effects of [cmd/server], [cmd/worker] and the packages they start
    with: files, the maintenance connection and the connection pool, the
    message backends, the listener, the goroutines, the signal. RabbitMQ's
    own calls are embedded as they are. *)

From S2P Require Import Prelude Prog Errors Json Mq Memory Rabbit Nsq Provider Breaker Limiter Compensator Grpc Api Settings.

(** [time.Duration.String]. *)
Definition duration_fraction (digits : nat) (v : Z) : string :=
  let f := v mod 10 ^ Z.of_nat digits in
  if f =? 0 then EmptyString else ("." +:+ string_rev (trim_zeros (string_rev (pad digits f))))%string.

Definition Duration_String (d : Z) : string :=
  let u := Z.abs d in
  let sign := if d <? 0 then "-"%string else EmptyString in
  let scaled digits unit := (strconv_Itoa (u / 10 ^ Z.of_nat digits) +:+ duration_fraction digits u +:+ unit)%string in
  if u =? 0 then "0s"%string
  else if u <? 1000 then (sign +:+ strconv_Itoa u +:+ "ns")%string
  else if u <? 1000000 then (sign +:+ scaled 3%nat (string_of_bytes [194; 181; 115]%N))%string
  else if u <? time_Second then (sign +:+ scaled 6%nat "ms"%string)%string
  else
    let secs := u / time_Second in
    let s := (strconv_Itoa (secs mod 60) +:+ duration_fraction 9 u +:+ "s")%string in
    let mins := secs / 60 in
    let m := if mins =? 0 then EmptyString else (strconv_Itoa (mins mod 60) +:+ "m")%string in
    let h := if mins / 60 =? 0 then EmptyString else (strconv_Itoa (mins / 60) +:+ "h")%string in
    (sign +:+ h +:+ m +:+ s)%string.

Example duration_strings : List.map Duration_String
  [0; 15 * time_Second; 90 * time_Second; 1500000; 3600 * time_Second; 61500000000; 42; -time_Second]
  = ["0s"; "15s"; "1m30s"; "1.5ms"; "1h0m0s"; "1m1.5s"; "42ns"; "-1s"].
Proof. vm_compute. reflexivity. Qed.

(** [pgx.ConnConfig]: the fields the DSN was parsed into, and the database. *)
Record ConnConfig := { CC_parsed : string; CC_Database : string }.

(** What a worker goroutine is built from. *)
Record WorkerDeps := {
  WD_Limiters : Limiters;
  WD_Breakers : Breakers;
  WD_LeaseDuration : Z;
  WD_Compensator : CompensatorConfig;
  WD_Concurrency : Z;
}.

Inductive thread :=
| TEmbeddedWorker (w : WorkerDeps)
| THTTP (addr : string) (readTimeout writeTimeout : Z) (router : Deps) (mcp : option (string * Z))
| TGRPC (server : grpc_server)
| TPublishLoop (interval : Z)
| TLeaseLoop (interval : Z)
| TConsumerLoop.

(** What ends the server's [select]: the context, or a goroutine that
    returned. The HTTP and gRPC goroutines report only while the context is
    alive; the worker's always does, and [cancelled] says what it saw. *)
Inductive wake :=
| WStop
| WHTTP (err : option error)
| WGRPC (err : option error)
| WWorker (err : option error) (cancelled : bool).

Inductive peer := PublisherPeer | ConsumerPeer.

Inductive boot : Type -> Type :=
| BReadFile (path : string) : boot (res string)
| BRandom : boot (res (list N))
| BLogToken (token : string) : boot unit
| BNotifyContext : boot unit
| BStop : boot unit
| BConnectConfig (cfg : ConnConfig) : boot (res unit)
| BConnClose : boot unit
| BDatabaseExists (name : string) : boot (res bool)
| BCreateDatabase (identifier : string) : boot (res unit)
| BOpen (dsn : string) : boot (res unit)
| BDB : boot (res unit)
| BSetMaxOpenConns (n : Z) : boot unit
| BSetMaxIdleConns (n : Z) : boot unit
| BPing : boot (res unit)
| BMigrate : boot (res unit)
| BSQLClose : boot unit
| BAmqp {X} (p : peer) (e : amqp X) : boot X
| BNewProducer (addr : string) : boot (res unit)
| BProducerStop : boot unit
| BNewConsumer (topic channel : string) (cfg : RequeueConfig) : boot (res unit)
| BAddHandlers (n : Z) : boot unit
| BConnectLookupds (addrs : list string) : boot (res unit)
| BConsumerStop : boot unit
| BMemoryNew (b : MemoryBroker) : boot unit
| BMemoryStart (concurrency : Z) : boot (res unit)
| BMemoryClose : boot unit
| BListen (addr : string) : boot (res unit)
| BListenerClose : boot unit
| BGo (t : thread) : boot unit
| BSelect : boot wake
| BDone : boot unit
| BHealthShutdown : boot unit
| BHTTPShutdown (timeout : Z) : boot (res unit)
| BGracefulStop (timeout : Z) : boot bool
| BForceStop : boot unit.

Abbreviation prog := (Prog.prog boot).

(** [if err != nil { return fmt.Errorf(pre + "%w", err) }]; an empty prefix
    returns the error as it is. *)
Definition wrapped (pre : string) (e : error) : error := if string_empty pre then e else EWrap pre e EmptyString.

Definition tried {A B} (p : prog (res A)) (pre : string) (k : A -> prog (res B)) : prog (res B) :=
  (r <- p ;; match r with Ok a => k a | Err e => Ret (Err (wrapped pre e)) end)%prog.

Notation "x <-? p 'or' pre ;; q" := (tried p%prog pre%string (fun x => q%prog))
  (at level 100, p at next level, pre at level 9, right associativity) : prog_scope.

Definition when (b : bool) (p : prog (res unit)) : prog (res unit) := if b then p else Ret (Ok tt).
Definition lift_err (e : option error) : res unit := match e with Some e => Err e | None => Ok tt end.
Definition failure {A} (r : res A) : option error := match r with Ok _ => None | Err e => Some e end.
