(* ===== verification/Startup.v ===== *)
(** * Start-up and shutdown ([cmd/server], [cmd/worker], [internal/bootstrap],
      [internal/worker/worker.go], [internal/store/database.go] and
      [postgres.go])

    The two commands, [main] and [run], statement by statement, with the packages that
    only they use. YAML decoding, [pgx] and the identifier quoting are
    parameters. *)

From S2P Require Import Prelude Float Prog Errors Json JsonRaw Config Mq Memory Rabbit Nsq Provider Breaker Limiter.
From S2P Require Import Http Webhook Loadtest LarkBot Firebase Smtp Compensator Grpc Api Settings Boot.

(** What the commands take from the operating system and from libraries:
    environment variables, the parts of [pgx], [yaml.v3] decoding a file or a
    provider's block into each struct, and the order of a Go map. *)
Class Platform (Y : Type) := {
  os_LookupEnv : string -> option string;
  pgx_ParseConfig : string -> res string;
  pgx_Sanitize : string -> string;
  yaml_server : string -> res ServerConfig;
  yaml_worker : string -> res WorkerConfig;
  yaml_providers : string -> res (list (string * Y));
  yaml_webhook : Y -> res webhookConfig;
  yaml_lark : Y -> res larkBotConfig;
  yaml_loadtest : Y -> res loadtestHTTPRequestConfig;
  yaml_firebase : Y -> res firebasePushConfig;
  yaml_smtp : Y -> res smtpEmailConfig;
  map_order : gmap string string -> list string;
}.

(** ** The database *)

Section database.
Context {Wd : Wording} (ParseConfig : string -> res string) (Sanitize : string -> string).

Definition duplicateDatabaseSQLState : string := "42P04".

Definition postgresAdminConfig (dsn : string) : res (ConnConfig * string) :=
  match ParseConfig dsn with
  | Err e => Err (EWrap "parse PostgreSQL DSN: " e EmptyString)
  | Ok database =>
      let targetDatabase := strings_TrimSpace database in
      if string_empty targetDatabase then Err (EString "PostgreSQL DSN must include a database name")
      else Ok ({| CC_parsed := dsn; CC_Database := "postgres" |}, targetDatabase)
  end.

Definition create_database (targetDatabase : string) : prog (res unit) :=
  (r <- trigger (BCreateDatabase (Sanitize targetDatabase)) ;;
   match r with
   | Ok _ => Ret (Ok tt)
   | Err e =>
       match errors_As_PgCode e with
       | Some code =>
           if String.eqb code duplicateDatabaseSQLState then Ret (Ok tt)
           else Ret (Err (EWrap ("create database " +:+ quote_q targetDatabase +:+ ": ")%string e EmptyString))
       | None => Ret (Err (EWrap ("create database " +:+ quote_q targetDatabase +:+ ": ")%string e EmptyString))
       end
   end)%prog.

Definition ensurePostgresDatabase (dsn : string) : prog (res unit) :=
  match postgresAdminConfig dsn with
  | Err e => Ret (Err e)
  | Ok (adminConfig, targetDatabase) =>
      (_ <-? trigger (BConnectConfig adminConfig) or "connect to PostgreSQL maintenance database: " ;;
       deferring (trigger BConnClose)
         (exists_ <-? trigger (BDatabaseExists targetDatabase) or ("check database " +:+ quote_q targetDatabase +:+ ": ") ;;
          if exists_ : bool then Ret (Ok tt) else create_database targetDatabase))%prog
  end.

Definition EnsureDatabase (dsn driver : string) : prog (res unit) :=
  match validatePostgresDriver driver with
  | Some e => Ret (Err e)
  | None => ensurePostgresDatabase dsn
  end.

(** [resolveDialector] fails only for the driver's name. *)
Definition resolveDialector (driver : string) : option error := validatePostgresDriver driver.

Definition NewPool (dsn : string) (maxConns minConns : Z) (driver : string) : prog (res unit) :=
  match resolveDialector driver with
  | Some e => Ret (Err e)
  | None =>
      (_ <-? trigger (BOpen dsn) or "open database: " ;;
       _ <-? trigger BDB or "resolve sql database: " ;;
       (if 0 <? maxConns then trigger (BSetMaxOpenConns maxConns) else Ret tt) ;;;
       (if 0 <? minConns then trigger (BSetMaxIdleConns minConns) else Ret tt) ;;;
       (_ <-? trigger BPing or "ping: " ;; Ret (Ok tt)))%prog
  end.

Definition Migrate : prog (res unit) := (_ <-? trigger BMigrate or "migrate: " ;; Ret (Ok tt))%prog.
End database.

(** ** The registry ([bootstrap.BuildRegistry]) *)

Section bootstrap.
Context {Wd : Wording} {ML : MailLib} {Y : Type} {Pf : Platform Y}.

(** What an adapter's [Config] stores for its own use is left out here. *)
Definition config_of {A} (r : res (Config * A)) : res Config :=
  match r with Ok (c, _) => Ok c | Err e => Err e end.

Definition larkBotAdapter : Adapter Y :=
  {| Ad_ProviderCode := "lark-bot"; Ad_Config := Lark_Config yaml_lark; Ad_Validate := Lark_Validate |}.
Definition smtpEmailAdapter : Adapter Y :=
  {| Ad_ProviderCode := "smtp-email"; Ad_Config := fun raw => config_of (Smtp_Config yaml_smtp raw); Ad_Validate := Smtp_Validate |}.
Definition webhookAdapter : Adapter Y :=
  {| Ad_ProviderCode := "webhook"; Ad_Config := fun raw => config_of (Webhook_Config yaml_webhook raw); Ad_Validate := Webhook_Validate |}.
Definition firebasePushAdapter : Adapter Y :=
  {| Ad_ProviderCode := "firebase-push"; Ad_Config := fun raw => config_of (Firebase_Config yaml_firebase raw);
     Ad_Validate := Firebase_Validate map_order |}.
Definition loadtestHTTPAdapter : Adapter Y :=
  {| Ad_ProviderCode := "loadtest-http"; Ad_Config := Loadtest_Config yaml_loadtest; Ad_Validate := Loadtest_Validate |}.

(** [adapters.Register]. *)
Definition adapters_Register (reg : Registry Y) : Registry Y :=
  fold_left RegisterAdapter [larkBotAdapter; smtpEmailAdapter; webhookAdapter; firebasePushAdapter; loadtestHTTPAdapter] reg.

(** [LoadProviders], given what reading the file answered. *)
Definition LoadProviders (content : res string) (path : string) : res (list (string * Y)) :=
  loadYAML os_LookupEnv (fun _ => content) yaml_providers path.

Definition build_registry (content : res string) (path : string) (httpClient : bool) (allowedRespHeaders : list string) : res (Registry Y) :=
  match LoadProviders content path with
  | Err e => Err (EWrap "load providers config: " e EmptyString)
  | Ok providersCfg =>
      match Build (Resolve os_LookupEnv) (adapters_Register (NewRegistry providersCfg httpClient allowedRespHeaders)) with
      | Err e => Err (EWrap "build provider registry: " e EmptyString)
      | Ok reg => Ok reg
      end
  end.

Definition BuildRegistry (path : string) (httpClient : bool) (allowedRespHeaders : list string) : prog (res (Registry Y)) :=
  (content <- trigger (BReadFile path) ;; Ret (build_registry content path httpClient allowedRespHeaders))%prog.
End bootstrap.

(** The loop over [registry.All()] that registers every configured action
    with the limiters and the breakers. *)
Definition register_action {N} (lb : Limiters * Breakers) (kv : string * ResolvedAction N) : Limiters * Breakers :=
  (Limiters_Register lb.1 kv.1 (RA_RequestsPerSecond kv.2) (RA_MaxConcurrency kv.2), Register lb.2 kv.1 (RA_CircuitBreaker kv.2)).

Definition register_actions {N} (registry : Registry N) : Limiters * Breakers :=
  fold_left register_action (map_to_list (All registry)) (NewLimiters, NewBreakers).

(** ** Message backends *)

Definition NewPublisher {Wd : Wording} (cfg : MQConfig) : prog (res unit) :=
  match select_driver (MQ_Driver cfg) with
  | Err e => Ret (Err e)
  | Ok DriverNSQ =>
      (r <- trigger (BNewProducer (NSQDAddr (MQ_NSQ cfg))) ;; Ret (lift_err (newNSQPublisher (failure r))))%prog
  | Ok DriverRabbitMQ =>
      (err <- translate (fun X => @BAmqp X PublisherPeer) (newRabbitMQPublisher (MQ_RabbitMQ cfg)) ;; Ret (lift_err err))%prog
  end.

(** [Close] of the publisher [NewPublisher] returned. *)
Definition broker_Close {Wd : Wording} (cfg : MQConfig) : prog unit :=
  match select_driver (MQ_Driver cfg) with
  | Ok DriverNSQ => trigger BProducerStop
  | Ok DriverRabbitMQ =>
      (translate (fun X => @BAmqp X PublisherPeer) (publisher_Close true true) ;;; Ret tt)%prog
  | Err _ => Ret tt
  end.

(** What [Worker] holds as its [mq.Consumer]. *)
Record Consumer := {
  consumer_Start : Z -> prog (res unit);
  consumer_Close : prog (res unit);
}.

Definition nsq_consumer (cfg : NSQConfig) : Consumer :=
  {| consumer_Start := fun concurrency =>
       (trigger (BAddHandlers (nsq_handlers concurrency)) ;;;
        (_ <-? trigger (BConnectLookupds (LookupdAddrs cfg)) or "nsq connect to lookupd: " ;; Ret (Ok tt)))%prog;
     consumer_Close := (trigger BConsumerStop ;;; Ret (Ok tt))%prog |}.

Definition rabbitmq_consumer (cfg : RabbitMQConfig) : Consumer :=
  {| consumer_Start := fun concurrency =>
       (err <- translate (fun X => @BAmqp X ConsumerPeer) (connect cfg (start_params cfg concurrency).1) ;;
        match err with
        | Some e => Ret (Err e)
        | None => trigger (BGo TConsumerLoop) ;;; Ret (Ok tt)
        end)%prog;
     consumer_Close :=
       (err <- translate (fun X => @BAmqp X ConsumerPeer) (Rabbit.consumer_Close true true true) ;; Ret (lift_err err))%prog |}.

Definition memory_consumer : Consumer :=
  {| consumer_Start := fun concurrency => trigger (BMemoryStart concurrency);
     consumer_Close := (trigger BMemoryClose ;;; Ret (Ok tt))%prog |}.

Definition NewConsumer {Wd : Wording} (cfg : MQConfig) : prog (res Consumer) :=
  match select_driver (MQ_Driver cfg) with
  | Err e => Ret (Err e)
  | Ok DriverNSQ =>
      let nsq := MQ_NSQ cfg in
      match newNSQConsumer (NSQ_Requeue nsq) None with
      | Err e => Ret (Err e)
      | Ok (own, _) =>
          (r <- trigger (BNewConsumer (Topic nsq) (Channel nsq) own) ;;
           match newNSQConsumer (NSQ_Requeue nsq) (failure r) with
           | Err e => Ret (Err e)
           | Ok _ => Ret (Ok (nsq_consumer nsq))
           end)%prog
      end
  | Ok DriverRabbitMQ =>
      match newRabbitMQConsumer (MQ_RabbitMQ cfg) with
      | Some e => Ret (Err e)
      | None => Ret (Ok (rabbitmq_consumer (MQ_RabbitMQ cfg)))
      end
  end.

(** ** [Worker.Run] *)

Definition compensator_Run (cfg : CompensatorConfig) : prog unit :=
  (trigger (BGo (TPublishLoop (loop_interval (PublishScanInterval cfg)))) ;;;
   trigger (BGo (TLeaseLoop (loop_interval (LeaseScanInterval cfg)))))%prog.

Definition worker_Run (consumer : Consumer) (w : WorkerDeps) : prog (res unit) :=
  (compensator_Run (WD_Compensator w) ;;;
   (_ <-? consumer_Start consumer (WD_Concurrency w) or "" ;;
    trigger BDone ;;; consumer_Close consumer))%prog.

(** ** [cmd/worker] *)

Section commands.
Context {Wd : Wording} {ML : MailLib} {Y : Type} {Pf : Platform Y}.

Definition LoadWorker (content : res string) (path : string) : res WorkerConfig :=
  loadYAML os_LookupEnv (fun _ => content) yaml_worker path.

(** From the broker on: the publisher, the consumer, and [Worker.Run]. *)
Definition worker_with_registry (cfg : WorkerConfig) (registry : Registry Y) : prog (res unit) :=
  let '(limiters, breakers) := register_actions registry in
  let runtime := W_Runtime cfg in
  (_ <-? NewPublisher (W_MQ cfg) or "connect to mq publisher: " ;;
   deferring (broker_Close (W_MQ cfg))
     (consumer <-? NewConsumer (W_MQ cfg) or "connect to mq consumer: " ;;
      worker_Run consumer
        {| WD_Limiters := limiters; WD_Breakers := breakers; WD_LeaseDuration := Lease_Duration (Lease runtime);
           WD_Compensator := Runtime_Compensator runtime; WD_Concurrency := worker_concurrency (Concurrency runtime) |}))%prog.

Definition worker_with_pool (cfg : WorkerConfig) : prog (res unit) :=
  (_ <-? when (W_AutoMigrate cfg) Migrate or "migrate: " ;;
   registry <-? BuildRegistry (W_ProvidersFile cfg) true (Client_AllowedRespHeaders (HTTPClient (W_Runtime cfg))) or "" ;;
   worker_with_registry cfg registry)%prog.

Definition worker_with_signal (cfg : WorkerConfig) : prog (res unit) :=
  let db := W_Database cfg in
  (_ <-? when (AutoCreate db) (EnsureDatabase pgx_ParseConfig pgx_Sanitize (DSN db) (DB_Driver db)) or "ensure database: " ;;
   _ <-? NewPool (DSN db) (MaxConns db) (MinConns db) (DB_Driver db) or "connect to database: " ;;
   _ <-? trigger BDB or "resolve database handle: " ;;
   deferring (trigger BSQLClose) (worker_with_pool cfg))%prog.

Definition worker_run (configPath : string) : prog (res unit) :=
  (content <- trigger (BReadFile configPath) ;;
   match LoadWorker content configPath with
   | Err e => Ret (Err e)
   | Ok cfg =>
       match worker_driver_check (MQ_Driver (W_MQ cfg)) with
       | Some e => Ret (Err e)
       | None => trigger BNotifyContext ;;; deferring (trigger BStop) (worker_with_signal cfg)
       end
   end)%prog.

(** ** [cmd/server] *)

Definition LoadServer (content : res string) (path : string) : res ServerConfig :=
  loadYAML os_LookupEnv (fun _ => content) yaml_server path.

(** [rand.Read] is called only when no token is configured. *)
Definition resolve_tokens (configured : list string) : prog (res (list string * string)) :=
  match collect_tokens configured ∅ with
  | [] => (random <- trigger BRandom ;; Ret (ResolveAuthTokens configured random))%prog
  | _ => Ret (ResolveAuthTokens configured (Ok []))
  end.

(** The readiness function given to the router. *)
Definition server_ready (ping : option error) (memory : option MemoryBroker) : option error :=
  match ping with
  | Some e => Some e
  | None => match memory with Some b => Ready b | None => None end
  end.

Definition server_deps (cfg : ServerConfig) (authTokens : list string) : Deps :=
  {| AuthVerifier := Some (NewVerifier authTokens); AuthTokens := authTokens;
     MaxBodyBytes := HTTP_MaxBodyBytes (HTTP cfg); SwaggerEnabled := Swagger_Enabled (Swagger cfg) |}.

(** What the three goroutines report to the [select]. *)
Definition stopped_unexpectedly (err : option error) (closed : sentinel) (text : string) : error :=
  match err with
  | Some e => if errors_Is e closed then EString text else e
  | None => EString text
  end.

Definition worker_report (err : option error) (cancelled : bool) : option error :=
  match err with
  | Some e => Some e
  | None => if cancelled then None else Some (EString "embedded memory worker stopped unexpectedly")
  end.

(** [runErr] after the [select]. *)
Definition wake_error (w : wake) : option error :=
  match w with
  | WStop => None
  | WHTTP err => Some (EWrap "http server: " (stopped_unexpectedly err HTTPErrServerClosed "HTTP server stopped unexpectedly") EmptyString)
  | WGRPC err => Some (EWrap "grpc server: " (stopped_unexpectedly err GRPCErrServerStopped "gRPC server stopped unexpectedly") EmptyString)
  | WWorker err cancelled =>
      match worker_report err cancelled with
      | Some e => Some (EWrap "embedded memory worker: " e EmptyString)
      | None => None
      end
  end.

Definition gracefulStopGRPC (timeout : Z) : prog (res unit) :=
  (stopped <- trigger (BGracefulStop timeout) ;;
   if stopped : bool then Ret (Ok tt)
   else trigger BForceStop ;;;
        Ret (Err (EString ("gRPC graceful shutdown exceeded " +:+ Duration_String timeout +:+ "; forced stop")%string)))%prog.

(** After the [select]: cancel, then stop the servers. *)
Definition server_shutdown (cfg : ServerConfig) (w : wake) : prog (res unit) :=
  let grpc := GRPC_Enabled (GRPC cfg) in
  (trigger BStop ;;;
   (if grpc then trigger BHealthShutdown else Ret tt) ;;;
   (httpShutdownErr <- trigger (BHTTPShutdown (normalizedShutdownTimeout (HTTP_ShutdownTimeout (HTTP cfg)))) ;;
    grpcShutdownErr <- when grpc (gracefulStopGRPC (normalizedShutdownTimeout (GRPC_ShutdownTimeout (GRPC cfg)))) ;;
    match wake_error w with
    | Some e => Ret (Err e)
    | None => Ret (lift_err (errors_Join (failure httpShutdownErr) (failure grpcShutdownErr)))
    end))%prog.

(** The root handler: [http.ServeMux] sends exactly the MCP path to the MCP
    handler; without MCP everything goes to the router. *)
Inductive front := FrontREST | FrontMCP.

Definition root_handler (cfg : MCPConfig) (path : string) : front :=
  if MCP_Enabled cfg && String.eqb path (MCP_Path cfg) then FrontMCP else FrontREST.

Definition server_serve (cfg : ServerConfig) (router : Deps) (embedded : option WorkerDeps) : prog (res unit) :=
  ((match embedded with Some w => trigger (BGo (TEmbeddedWorker w)) | None => Ret tt end) ;;;
   trigger (BGo (THTTP (HTTP_Addr (HTTP cfg)) (ReadTimeout (HTTP cfg)) (WriteTimeout (HTTP cfg))
                   router
                   (if MCP_Enabled (MCP cfg) then Some (MCP_Path (MCP cfg), MCP_MaxBodyBytes (MCP cfg)) else None))) ;;;
   (if GRPC_Enabled (GRPC cfg)
    then trigger (BGo (TGRPC (Grpc.New {| MaxReceiveMessageBytes := GRPC_MaxReceiveMessageBytes (GRPC cfg);
                                          ReflectionEnabled := GRPC_ReflectionEnabled (GRPC cfg) |})))
    else Ret tt) ;;;
   (w <- trigger BSelect ;; server_shutdown cfg w))%prog.

(** The front ends are checked before anything is started. *)
Definition server_with_broker (cfg : ServerConfig) (router : Deps) (embedded : option WorkerDeps) : prog (res unit) :=
  match (if MCP_Enabled (MCP cfg) then validateMCPPath (MCP_Path (MCP cfg)) else None) with
  | Some e => Ret (Err e)
  | None =>
      let grpc := GRPC cfg in
      if GRPC_Enabled grpc then
        if string_empty (strings_TrimSpace (GRPC_Addr grpc)) then Ret (Err (EString "grpc.addr must be configured when gRPC is enabled"))
        else
          (_ <-? trigger (BListen (GRPC_Addr grpc)) or ("listen for gRPC on " +:+ GRPC_Addr grpc +:+ ": ") ;;
           deferring (trigger BListenerClose) (server_serve cfg router embedded))%prog
      else server_serve cfg router embedded
  end.

Definition embedded_worker (cfg : ServerConfig) (registry : Registry Y) : WorkerDeps :=
  let '(limiters, breakers) := register_actions registry in
  {| WD_Limiters := limiters; WD_Breakers := breakers; WD_LeaseDuration := Lease_Duration (Lease (Worker cfg));
     WD_Compensator := Runtime_Compensator (Worker cfg); WD_Concurrency := worker_concurrency (Concurrency (Worker cfg)) |}.

Definition server_with_registry (cfg : ServerConfig) (router : Deps) (registry : Registry Y) : prog (res unit) :=
  if String.eqb (MQ_Driver (MQ cfg)) "memory" then
    match NewMemoryBroker (BufferSize (MQ_Memory (MQ cfg))) (Memory_Requeue (MQ_Memory (MQ cfg))) with
    | Err e => Ret (Err (EWrap "create memory mq: " e EmptyString))
    | Ok memoryBroker =>
        (trigger (BMemoryNew memoryBroker) ;;;
         deferring (trigger BMemoryClose) (server_with_broker cfg router (Some (embedded_worker cfg registry))))%prog
    end
  else
    (_ <-? NewPublisher (MQ cfg) or "connect to mq: " ;;
     deferring (broker_Close (MQ cfg)) (server_with_broker cfg router None))%prog.

Definition server_with_pool (cfg : ServerConfig) (router : Deps) : prog (res unit) :=
  let memory := String.eqb (MQ_Driver (MQ cfg)) "memory" in
  (_ <-? when (AutoMigrate cfg) Migrate or "migrate: " ;;
   match server_lease_check (MQ_Driver (MQ cfg)) (Lease_Duration (Lease (Worker cfg))) with
   | Some e => Ret (Err e)
   | None =>
       registry <-? BuildRegistry (ProvidersFile cfg) memory
                      (if memory then Client_AllowedRespHeaders (HTTPClient (Worker cfg)) else []) or "" ;;
       server_with_registry cfg router registry
   end)%prog.

Definition server_with_signal (cfg : ServerConfig) (router : Deps) : prog (res unit) :=
  let db := Database cfg in
  (_ <-? when (AutoCreate db) (EnsureDatabase pgx_ParseConfig pgx_Sanitize (DSN db) (DB_Driver db)) or "ensure database: " ;;
   _ <-? NewPool (DSN db) (MaxConns db) (MinConns db) (DB_Driver db) or "connect to database: " ;;
   _ <-? trigger BDB or "resolve database handle: " ;;
   deferring (trigger BSQLClose) (server_with_pool cfg router))%prog.

Definition server_run (configPath : string) : prog (res unit) :=
  (content <- trigger (BReadFile configPath) ;;
   match LoadServer content configPath with
   | Err e => Ret (Err e)
   | Ok cfg =>
       tokens <-? resolve_tokens (Tokens (Auth cfg)) or "" ;;
       (if string_empty tokens.2 then Ret tt else trigger (BLogToken tokens.2)) ;;;
       trigger BNotifyContext ;;; deferring (trigger BStop) (server_with_signal cfg (server_deps cfg tokens.1))
   end)%prog.

(** ** [main]

    What cobra makes of the command line: an error, a request for help, or
    [RunE] with the value of [--config] if it was given. The result is the
    exit status. *)
Inductive command_line := CmdError | CmdHelp | CmdRun (config : option string).

Definition execute (default_path : string) (run : string -> prog (res unit)) (line : command_line) : prog Z :=
  (match line with
   | CmdError => Ret 1
   | CmdHelp => Ret 0
   | CmdRun flag => r <- run (default default_path flag) ;; Ret (match r with Ok _ => 0 | Err _ => 1 end)
   end)%prog.

Definition server_main : command_line -> prog Z := execute "config/server.yaml" server_run.
Definition worker_main : command_line -> prog Z := execute "config/worker.yaml" worker_run.
End commands.
