(* ===== verification/FrontSpec.v ===== *)
(** * What the three front ends answer

    The REST, gRPC and MCP front ends call the same two operations.  One
    verdict says what a submission, or a status query, came to; each front
    end's answer is the translation of the verdict into its own protocol, and
    no verdict is an internal error.  Authentication comes before any of
    this. *)

From S2P Require Import Prelude Float Prog Errors Json JsonRaw Body Domain Config Provider Store Lifecycle.
From S2P Require Import Effects Service ServiceSpec Api Grpc Mcp.

(** ** Verdicts on a submission *)

Inductive verdict :=
| VAccepted (sr : SubmitResult)
| VBadRequest
| VUnsupported
| VBadPayload (problems : list string)
| VConflict
| VUnavailable.

Definition reports (x : res SubmitResult) (v : verdict) : Prop :=
  match v with
  | VAccepted sr => x = Ok sr
  | VBadRequest => x = Err (ESentinel ErrInvalidRequest)
  | VUnsupported => x = Err (ESentinel ErrUnsupportedProviderAction)
  | VBadPayload ps => x = Err (EPayloadValidation ps) \/ ps = [] /\ x = Err (ESentinel ErrInvalidPayload)
  | VConflict => x = Err (ESentinel ErrSourceRequestConflict)
  | VUnavailable => exists e, x = Err e /\ unavailable_error e
  end.

Section verdicts.
Context {P : Postgres} {N : Type} (uuid_string : UUID -> string) (registry : Registry N).

(** When a verdict is given, and what the submission then did. *)
Definition means (cmd : SubmitCommand) (w : world) (v : verdict) (w' : world) : Prop :=
  match v with
  | VAccepted sr => submitted uuid_string registry cmd w (Ok sr) w'
  | VBadRequest => malformed cmd = true /\ w' = w
  | VUnsupported => malformed cmd = false /\ Lookup registry (Cmd_ProviderCode cmd) (Cmd_ProviderAction cmd) = None /\ w' = w
  | VBadPayload ps =>
      w' = w /\ malformed cmd = false /\
      exists ra e, Lookup registry (Cmd_ProviderCode cmd) (Cmd_ProviderAction cmd) = Some ra /\
        Ad_Validate (RA_Adapter ra) (Cmd_ProviderAction cmd) (Cmd_Payload cmd) = Some e /\
        ps = default [] (errors_As_Validation e)
  | VConflict =>
      validate_command registry cmd = None /\ w_db w' = w_db w /\
      exists r, keyed_by (Cmd_SourceSystem cmd) (Cmd_SourceRequestID cmd) (w_db w) r /\ ~ repeats cmd r
  | VUnavailable => validate_command registry cmd = None
  end.

Lemma Submit_verdict cmd w :
  wp local (Submit uuid_string registry cmd) w (fun x w' => exists v, reports x v /\ means cmd w v w').
Proof using Type.
  eapply wp_mono; [apply Submit_submitted|]. intros [sr|e] w' H; [by exists (VAccepted sr)|].
  cbn in H. destruct (validate_command registry cmd) as [e'|] eqn:Ev.
  - destruct H as [-> ->]. unfold validate_command in Ev. destruct (malformed cmd) eqn:Em.
    { exists VBadRequest. by injection Ev as <-. }
    destruct (Lookup _ _ _) as [ra|] eqn:El; [|exists VUnsupported; by injection Ev as <-].
    destruct (Ad_Validate _ _ _) as [e|] eqn:Ea; [|done].
    exists (VBadPayload (default [] (errors_As_Validation e))).
    split; [|by split; [|split; [|exists ra, e]]].
    destruct (errors_As_Validation e) as [ps|]; injection Ev as <-; [by left|by right].
  - destruct H as [_ [(-> & H)|[H _]]]; [by exists VConflict|]. exists VUnavailable. split; [by exists e|done].
Qed.
End verdicts.

(** ** The three translations *)

Definition http_answer (lang : string) (v : verdict) : http_response :=
  match v with
  | VAccepted sr => writeSuccess 202 (createMessageResponse sr)
  | VBadRequest => writeError lang 400 errInvalidRequest
  | VUnsupported => writeError lang 422 errUnsupportedProviderAction
  | VBadPayload ps => writePayloadValidationError lang ps
  | VConflict => writeError lang 409 errSourceRequestConflict
  | VUnavailable => writeError lang 503 errStorageUnavailable
  end.

(** The status code; the message only tells the cases of [InvalidArgument]
    apart. *)
Definition grpc_answer (x : rpc SubmitNotificationResponse) (v : verdict) : Prop :=
  match v with
  | VAccepted sr =>
      x = Ok {| G_EventId := SR_EventID sr; G_SourceSystem := SR_SourceSystem sr; G_SourceRequestId := SR_SourceRequestID sr;
                G_Status := protoStatus (SR_Status sr); G_Duplicate := Duplicate sr; G_AcceptedAt := AcceptedAt sr |}
  | VBadRequest | VUnsupported | VBadPayload _ => exists m, x = Err (mkStatus InvalidArgument m)
  | VConflict => exists m, x = Err (mkStatus AlreadyExists m)
  | VUnavailable => exists m, x = Err (mkStatus Unavailable m)
  end.

Definition mcp_answer (x : result string submitOutput) (v : verdict) : Prop :=
  let failed prefix := exists m, x = Err (prefix +:+ ": " +:+ m)%string in
  match v with
  | VAccepted sr =>
      x = Ok {| MO_EventID := SR_EventID sr; MO_SourceSystem := SR_SourceSystem sr; MO_SourceRequestID := SR_SourceRequestID sr;
                MO_Status := SR_Status sr; MO_Duplicate := Duplicate sr; MO_AcceptedAt := rfc3339nano (AcceptedAt sr) |}
  | VBadRequest => failed "INVALID_REQUEST"
  | VUnsupported => failed "UNSUPPORTED_PROVIDER_ACTION"
  | VBadPayload _ => failed "INVALID_PAYLOAD"
  | VConflict => failed "SOURCE_REQUEST_CONFLICT"
  | VUnavailable => failed "STORAGE_UNAVAILABLE"
  end.

Lemma writeSubmitError_verdict lang e v : reports (Err e) v -> writeSubmitError lang e = http_answer lang v.
Proof.
  destruct v as [sr| | |ps| |]; cbn; intros H; try (by injection H as ->); [done| |].
  - by destruct H as [[= ->]|[-> [= ->]]].
  - by destruct H as (e' & [= ->] & what & ->).
Qed.

Lemma applicationError_verdict e v : reports (Err e) v -> grpc_answer (Err (applicationError e)) v.
Proof.
  destruct v as [sr| | |ps| |]; cbn; intros H; try (by injection H as ->; eexists); [done| |].
  - destruct H as [[= ->]|[-> [= ->]]]; eexists; reflexivity.
  - destruct H as (e' & [= ->] & what & ->). eexists; reflexivity.
Qed.

Lemma toolError_verdict e v : reports (Err e) v -> mcp_answer (Err (toolError e)) v.
Proof.
  destruct v as [sr| | |[|p ps]| |]; cbn; intros H; try (by injection H as ->; eexists); try done.
  - destruct H as [[= ->]|[_ [= ->]]]; eexists; reflexivity.
  - destruct H as [[= ->]|[? _]]; [|done]. eexists. reflexivity.
  - destruct H as (e' & [= ->] & what & ->). eexists; reflexivity.
Qed.

Definition http_command (req : createMessageRequest) : SubmitCommand :=
  {| Cmd_SourceSystem := CM_SourceSystem req; Cmd_SourceRequestID := CM_SourceRequestID req;
     Cmd_ProviderCode := CM_ProviderCode req; Cmd_ProviderAction := CM_ProviderAction req; Cmd_Payload := CM_Payload req |}.

Definition mcp_command (i : submitInput) : SubmitCommand :=
  {| Cmd_SourceSystem := MI_SourceSystem i; Cmd_SourceRequestID := MI_SourceRequestID i;
     Cmd_ProviderCode := MI_ProviderCode i; Cmd_ProviderAction := MI_ProviderAction i; Cmd_Payload := payload_text (MI_Payload i) |}.

(** C18: A submission over any front end is answered by the verdict on it and by
    nothing else: 202, 400, 422, 409 or 503 over HTTP (with the error code and
    the localized text of that verdict), [OK], [INVALID_ARGUMENT],
    [ALREADY_EXISTS] or [UNAVAILABLE] over gRPC, the tool result or the error
    text of that name over MCP; the three never disagree on a verdict, none
    ever answers an internal error, and a rejected command has touched
    neither the database nor the broker. *)
Theorem submission_answers `{Postgres} {N} (uuid_string : UUID -> string) (registry : Registry N) w :
  (forall bind rq, wp local (createMessage uuid_string registry bind rq) w (fun resp w' =>
     match bind (rq_body rq) with
     | None => resp = http_answer (rq_accept_language rq) VBadRequest /\ w' = w
     | Some req => exists v, means uuid_string registry (http_command req) w v w' /\ resp = http_answer (rq_accept_language rq) v
     end)) /\
  (forall cmd, wp local (SubmitNotification uuid_string registry cmd) w (fun x w' =>
     exists v, means uuid_string registry cmd w v w' /\ grpc_answer x v)) /\
  (forall input, wp local (submit_notification uuid_string registry input) w (fun x w' =>
     exists v, means uuid_string registry (mcp_command input) w v w' /\ mcp_answer x v)).
Proof.
  split; [|split].
  - intros bind rq. unfold createMessage. destruct (bind (rq_body rq)) as [req|]; [|by cbn].
    apply wp_bind. eapply wp_mono; [apply Submit_verdict|]. intros x w' (v & Hx & Hv).
    destruct x as [sr|e]; cbn [wp]; exists v; (split; [done|]); [|by apply writeSubmitError_verdict].
    destruct v; cbn in Hx; naive_solver.
  - intros cmd. apply wp_bind. eapply wp_mono; [apply Submit_verdict|]. intros x w' (v & Hx & Hv).
    destruct x as [sr|e]; cbn [wp]; exists v; (split; [done|]); [|by apply applicationError_verdict].
    destruct v; cbn in Hx; naive_solver.
  - intros input. apply wp_bind. eapply wp_mono; [apply Submit_verdict|]. intros x w' (v & Hx & Hv).
    destruct x as [sr|e]; cbn [wp]; exists v; (split; [done|]); [|by apply toolError_verdict].
    destruct v; cbn in Hx; naive_solver.
Qed.

(** ** Status queries *)

Inductive finding := Found (r : Event) | FBadRequest | FMissing | FUnavailable.

Definition found (q : StatusQuery) (w : world) (f : finding) : Prop :=
  match f with
  | Found r => keyed_by (Q_SourceSystem q) (Q_SourceRequestID q) (w_db w) r
  | FBadRequest => Q_SourceSystem q = EmptyString \/ Q_SourceRequestID q = EmptyString
  | FMissing => unkeyed (Q_SourceSystem q) (Q_SourceRequestID q) (w_db w)
  | FUnavailable => True
  end.

Definition tells (x : res Event) (f : finding) : Prop :=
  match f with
  | Found r => x = Ok r
  | FBadRequest => x = Err (ESentinel ErrInvalidRequest)
  | FMissing => x = Err (ESentinel ErrNotFound)
  | FUnavailable => exists e, x = Err e /\ unavailable_error e
  end.

Definition proto_of (s : Status) : NotificationStatus :=
  match s with
  | StatusUnset => SUnspecified | StatusPending => SPending | StatusProcessing => SProcessing
  | StatusSucceeded => SSucceeded | StatusFailed => SFailed | StatusUnknown => SUnknown
  end.

Lemma protoStatus_of s : protoStatus (Status_string s) = proto_of s.
Proof. by destruct s. Qed.

#[export] Instance proto_of_inj : Inj (=) (=) proto_of.
Proof. by intros [] []. Qed.

Lemma tells_inv x f : tells x f ->
  match x, f with
  | Ok r, Found r' => r = r'
  | Err e, FBadRequest => e = ESentinel ErrInvalidRequest
  | Err e, FMissing => e = ESentinel ErrNotFound
  | Err e, FUnavailable => unavailable_error e
  | _, _ => False
  end.
Proof. destruct f, x; cbn; try naive_solver. Qed.

Lemma GetStatus_finding `{Postgres} q w :
  wp local (GetStatus q) w (fun x w' => w' = w /\ exists f, tells x f /\ found q w f).
Proof.
  eapply wp_mono; [apply GetStatus_spec|]. intros x w' [-> Hx]. split; [done|].
  destruct x as [r|e]; [by exists (Found r)|]. destruct Hx as [[-> H']|[[-> H']|He]].
  - by exists FBadRequest.
  - by exists FMissing.
  - exists FUnavailable. split; [by exists e|done].
Qed.

(** The names of the statuses. *)
Definition status_name (s : Status) : string :=
  match s with
  | StatusPending => "PENDING" | StatusProcessing => "PROCESSING" | StatusSucceeded => "SUCCEEDED" | StatusFailed => "FAILED"
  | StatusUnset => EmptyString | StatusUnknown => "UNKNOWN"
  end.


(** ** Authentication *)

(** A token the server knows. *)
Definition known (verifier : option Verifier) (token : string) : Prop := Verify verifier token = None.

Lemma bearerAuth_known verifier rq :
  bearerAuth verifier rq = true <-> exists token, rq_authorization rq = ("Bearer " +:+ token)%string /\ known verifier token.
Proof.
  unfold bearerAuth. rewrite andb_true_iff, HasPrefix_true. unfold known. split.
  - intros [[t ->] H]. exists t. split; [done|]. unfold strings_TrimPrefix in H. rewrite strip_prefix_app in H. by destruct (Verify verifier t).
  - intros (t & -> & H). split; [by exists t|]. unfold strings_TrimPrefix. by rewrite strip_prefix_app, H.
Qed.

Lemma verifyIncomingToken_known verifier md :
  verifyIncomingToken verifier md = None ->
  exists value scheme token, md = Some [value] /\ strings_Fields value = [scheme; token] /\
    strings_EqualFold scheme "Bearer" = true /\ known verifier token.
Proof.
  unfold verifyIncomingToken, known. intros H. destruct md as [[|value [|]]|]; try done.
  destruct (strings_Fields value) as [|scheme [|token [|]]] eqn:E; try done.
  destruct (strings_EqualFold scheme "Bearer") eqn:Es; [|done]. exists value, scheme, token.
  split; [done|]. split; [done|]. split; [done|]. by destruct (Verify verifier token).
Qed.

Lemma verifyIncomingToken_code verifier md e :
  verifyIncomingToken verifier md = Some e -> st_code e = Unauthenticated.
Proof. unfold verifyIncomingToken. intros H. by repeat case_match; simplify_eq. Qed.

(** What is served without authentication. *)
Definition is_open (e : endpoint) : bool := match e with EHealthz | EReadyz | EDocsRedirect | EDocs => true | _ => false end.

Lemma open_routes swagger : List.forallb (fun r => r.1.2 || is_open r.2) (NewRouter swagger) = true.
Proof. by destruct swagger. Qed.

Lemma open_route swagger i m p e : NewRouter swagger !! i = Some (m, p, false, e) -> is_open e = true.
Proof.
  intros E.
  by pose proof (proj1 (List.forallb_forall _ _) (open_routes swagger) _ (proj1 (list_elem_of_In _ _) (list_elem_of_lookup_2 _ _ _ E))).
Qed.

(** A call without a known token is answered before the handler. *)
Lemma unary_chain_admitted {A} logger verifier method md (h : prog (outcome A)) :
  isHealthMethod method = false -> verifyIncomingToken verifier md <> None ->
  exists m, unary_chain logger verifier method md h = Ret (Returned (Err (mkStatus Unauthenticated m)), []).
Proof.
  intros Hh Ht. unfold unary_chain, ChainUnaryInterceptor. cbn [fold_right]. unfold authUnaryInterceptor. rewrite Hh.
  destruct (verifyIncomingToken verifier md) as [[c m]|] eqn:E; [|done]. apply verifyIncomingToken_code in E. cbn in E. subst. by exists m.
Qed.

(** The documented contract of [auth.RequireBearerToken]: the request is passed
    on when the check accepts the token of its [Authorization] header, and is
    answered 401 otherwise. *)
Definition requires_bearer (bearer : (string -> res Z) -> mcp_handler -> mcp_handler) : Prop :=
  forall check next rq,
    (exists scheme token expiry, strings_Fields (mh_authorization rq) = [scheme; token] /\ check token = Ok expiry /\
       bearer check next rq = next rq) \/
    exists body, bearer check next rq = Ret [WriteHeader 401; Write body].

Lemma verify_token_known verifier now token expiry : verify_token verifier now token = Ok expiry -> known verifier token /\ now < expiry.
Proof.
  unfold verify_token, known. destruct (Verify verifier token); [done|].
  intros [= <-]. split; [done|]. change time_Second with 1000000000. lia.
Qed.

Lemma mcp_admission bearer streamable logger verifier limit now rq :
  requires_bearer bearer ->
  let answer := Mcp.NewHandler bearer streamable logger verifier limit now rq in
  (exists scheme token, strings_Fields (mh_authorization rq) = [scheme; token] /\ known verifier token /\
     cross_origin_check rq = None /\ answer = accessLogger logger (limit_mcp_body limit streamable) rq) \/
  (exists status body, (status = 401 \/ status = 403) /\
     answer = Ret ([WriteHeader status; Write body], if logger then Some (Build_access_line (mh_method rq) (mh_path rq) status) else None)).
Proof.
  intros Hb answer. subst answer. unfold Mcp.NewHandler, accessLogger, limit_mcp_body. set (limited := Build_mcp_request _ _ _ _ _ _ _).
  destruct (Hb (verify_token verifier now) (protect streamable) limited) as [(scheme & token & expiry & Hf & Hv & ->)|(body & ->)].
  - unfold protect. change (cross_origin_check limited) with (cross_origin_check rq). destruct (cross_origin_check rq) as [m|] eqn:E.
    + right. exists 403. eexists. split; [by right|]. reflexivity.
    + left. exists scheme, token. split; [exact Hf|]. split; [exact (proj1 (verify_token_known _ _ _ _ Hv))|]. by split.
  - right. exists 401, body. split; [by left|]. reflexivity.
Qed.

(** C21: No operation of the service is performed for a caller without a known
    token.  Over HTTP a request whose [Authorization] header is not
    ["Bearer "] and a known token makes no call at all, and is answered 401
    when the route is one of the authenticated ones; over gRPC every unary
    method but the health check answers [UNAUTHENTICATED], without running
    the handler, unless the metadata has exactly one [authorization] value
    naming the scheme and a known token, and so does every stream; over MCP
    a request either carries a known token, is not a cross-origin one, and
    reaches the tools with its body limited, or is answered 401 or 403 with no
    call made, and the access log shows that status.  What gRPC accepts, HTTP
    and MCP accept too. *)
Theorem authentication_required {N} (uuid_string : UUID -> string) (registry : Registry N) d bearer :
  requires_bearer bearer ->
  (forall bind gin_match assets ready rq,
     (forall token, rq_authorization rq = ("Bearer " +:+ token)%string -> ~ known (AuthVerifier d) token) ->
     let answer := serve uuid_string registry bind gin_match assets d ready rq in
     exists resp, answer = Ret resp /\
     forall i m p e, gin_match (List.map (fun r => (r.1.1.1, r.1.1.2)) (NewRouter (SwaggerEnabled d))) (rq_method rq) (rq_path rq) = Matched i ->
       NewRouter (SwaggerEnabled d) !! i = Some (m, p, true, e) ->
       resp = writeError (rq_accept_language rq) 401 errUnauthenticated) /\
  (forall A logger method md (h : prog (outcome A)) (stream : prog (option grpc_error)), isHealthMethod method = false ->
     ((exists m, unary_chain logger (AuthVerifier d) method md h = Ret (Returned (Err (mkStatus Unauthenticated m)), [])) /\
      (exists m, authStreamInterceptor (AuthVerifier d) method md stream = Ret (Some (mkStatus Unauthenticated m)))) \/
     exists value scheme token, md = Some [value] /\ strings_Fields value = [scheme; token] /\ known (AuthVerifier d) token /\
       (forall rq, rq_authorization rq = ("Bearer " +:+ token)%string -> bearerAuth (AuthVerifier d) rq = true) /\
       forall now, exists expiry, verify_token (AuthVerifier d) now token = Ok expiry) /\
  (forall streamable logger limit now rq,
     let answer := Mcp.NewHandler bearer streamable logger (AuthVerifier d) limit now rq in
     (exists scheme token, strings_Fields (mh_authorization rq) = [scheme; token] /\ known (AuthVerifier d) token /\
        cross_origin_check rq = None /\ answer = accessLogger logger (limit_mcp_body limit streamable) rq) \/
     (exists status body, (status = 401 \/ status = 403) /\
        answer = Ret ([WriteHeader status; Write body], if logger then Some (Build_access_line (mh_method rq) (mh_path rq) status) else None))).
Proof.
  intros Hbearer. split; [|split].
  - intros bind gin_match assets ready rq Hno.
    assert (bearerAuth (AuthVerifier d) (limit_body (MaxBodyBytes d) rq) = false) as Hb.
    { apply not_true_iff_false. rewrite bearerAuth_known. intros (t & E & Ht). by apply (Hno t). }
    unfold serve. cbn zeta. cbn [rq_method rq_path rq_accept_language limit_body] in *.
    destruct (gin_match _ _ _) as [i| |]; [|by eexists..].
    destruct (NewRouter (SwaggerEnabled d) !! i) as [[[[m p] [|]] e]|] eqn:E.
    + rewrite Hb. eexists. split; [done|]. intros. by simplify_eq.
    + pose proof (open_route _ _ _ _ _ E) as Ho. cbn [andb negb].
      destruct e; try discriminate Ho; (eexists; split; [reflexivity|]); intros i' m' p' e' [= <-] E'; by rewrite E in E'.
    + eexists. split; [done|]. intros i' m' p' e' [= <-] E'. by rewrite E in E'.
  - intros A logger method md h stream Hh. destruct (verifyIncomingToken (AuthVerifier d) md) as [e|] eqn:E.
    + left. split; [by apply unary_chain_admitted; [|rewrite E]|]. unfold authStreamInterceptor. rewrite Hh, E.
      apply verifyIncomingToken_code in E. destruct e as [c m]. cbn in E. subst. by exists m.
    + right. apply verifyIncomingToken_known in E as (v & s & t & -> & Hf & _ & Ht).
      exists v, s, t. split; [done|]. split; [done|]. split; [done|]. split.
      * intros rq Hrq. apply bearerAuth_known. by exists t.
      * intros now. unfold verify_token. unfold known in Ht. rewrite Ht. by eexists.
  - intros streamable logger limit now rq. by apply mcp_admission.
Qed.
