(* ===== verification/RestSpec.v ===== *)
(** * What the REST API puts on the wire

    Every response is typed; the routes left open; the Swagger page; panics
    behind the gRPC interceptors and behind gin's recovery, and what is
    logged of them. *)

From S2P Require Import Prelude Float Prog Errors Json JsonRaw Body Domain Config Provider Store Lifecycle.
From S2P Require Import Effects Service ServiceSpec Dto Api Grpc FrontSpec.

(** ** Typed responses *)

(** The status line that goes with an error code. *)
Definition http_status (c : errorCode) : Z :=
  match c with
  | errInvalidRequest => 400
  | errUnauthenticated => 401
  | errUnsupportedProviderAction | errInvalidPayload => 422
  | errSourceRequestConflict => 409
  | errMessageNotFound | errRouteNotFound => 404
  | errMethodNotAllowed => 405
  | errStorageUnavailable | errDependencyUnavailable => 503
  | errInternal => 500
  end.

(** The status line and the document of a successful answer. *)
Definition endpoint_success (e : endpoint) : option (Z * schema) :=
  match e with
  | EHealthz => Some (200, emptyAPIResponse)
  | EReadyz => Some (200, readinessAPIResponse)
  | EProviders => Some (200, providerCapabilitiesAPIResponse)
  | ECreateMessage => Some (202, createMessageAPIResponse)
  | EGetMessage => Some (200, messageStatusAPIResponse)
  | EDocsRedirect | EDocs => None
  end.

Definition succeeds (e : endpoint) (r : http_response) : Prop :=
  exists st sc j, endpoint_success e = Some (st, sc) /\ rs_status r = st /\ rs_body r = JSONBody j /\
    conforms sc j /\ json_get "status" j = Some (JInt 0) /\ json_get "error_message" j = Some (JStr EmptyString).

(** An error names its code, with the status line that belongs to it and a
    text; an internal error is not among them. *)
Definition refuses (r : http_response) : Prop :=
  exists c j text, c <> errInternal /\ rs_status r = http_status c /\ rs_body r = JSONBody j /\ conforms errorResponse j /\
    json_get "status" j = Some (JInt (errorCode_Z c)) /\ json_get "error_message" j = Some (JStr text) /\ text <> EmptyString.

Lemma writeError_refuses lang c : c <> errInternal -> refuses (writeError lang (http_status c) c).
Proof.
  intros Hc. exists c, (apiResponse (errorCode_Z c) emptyData (localizedErrorMessage lang c)), (localizedErrorMessage lang c).
  repeat split; [done| |].
  - eexists. split; [reflexivity|]. cbn. repeat split; [by eexists| |by eexists]. by exists [].
  - unfold localizedErrorMessage. by destruct (String.eqb _ _), c.
Qed.

Lemma writePayload_refuses lang ps : refuses (writePayloadValidationError lang ps).
Proof.
  unfold writePayloadValidationError. set (text := match ps with [] => _ | _ => _ end).
  exists errInvalidPayload, (apiResponse (errorCode_Z errInvalidPayload) emptyData text), text. repeat split.
  - done.
  - eexists. split; [reflexivity|]. cbn. repeat split; [by eexists| |by eexists]. by exists [].
  - subst text. unfold localizedErrorMessage. destruct ps; [|destruct (String.eqb _ _)]; [by destruct (String.eqb _ _)|done..].
Qed.

Lemma writeSuccess_succeeds e st data sc :
  endpoint_success e = Some (st, apiResponse_schema sc) -> conforms sc data -> succeeds e (writeSuccess st data).
Proof.
  intros He Hd. exists st, (apiResponse_schema sc), (apiResponse 0 data EmptyString). repeat split; [done|].
  eexists. split; [reflexivity|]. cbn [apiResponse_schema]. repeat split; [by eexists|done|by eexists].
Qed.

Ltac fields := eexists; split; [reflexivity|]; cbn; repeat split; try by eexists.

Lemma createMessageResponse_typed r : conforms createMessageResponse_schema (createMessageResponse r).
Proof. fields. Qed.

Lemma messageStatusResponse_typed us r : conforms messageStatusResponse_schema (messageStatusResponse us r).
Proof. fields. Qed.

Lemma providerCapabilitiesData_typed l : conforms providerCapabilitiesData_schema (providerCapabilitiesData l).
Proof.
  fields. eexists. split; [reflexivity|]. apply Forall_map, Forall_true. intros c. fields.
  eexists. split; [reflexivity|]. apply Forall_map, Forall_true. intros a. fields.
Qed.

Lemma http_answer_typed lang v : succeeds ECreateMessage (http_answer lang v) \/ refuses (http_answer lang v).
Proof.
  destruct v; cbn [http_answer]; [left|right..].
  - eapply writeSuccess_succeeds; [reflexivity|apply createMessageResponse_typed].
  - by apply (writeError_refuses _ errInvalidRequest).
  - by apply (writeError_refuses _ errUnsupportedProviderAction).
  - apply writePayload_refuses.
  - by apply (writeError_refuses _ errSourceRequestConflict).
  - by apply (writeError_refuses _ errStorageUnavailable).
Qed.

(** Only the Swagger routes answer anything but the envelope. *)
Definition typed (gin_match : list (string * string) -> string -> string -> routing) (d : Deps) (rq : api_request) (r : http_response) : Prop :=
  let table := NewRouter (SwaggerEnabled d) in
  refuses r \/
  exists i m p a e, gin_match (List.map (fun r => (r.1.1.1, r.1.1.2)) table) (rq_method rq) (rq_path rq) = Matched i /\
    table !! i = Some (m, p, a, e) /\
    match endpoint_success e with Some _ => succeeds e r | None => SwaggerEnabled d = true end.

Section rest.
Context {P : Postgres} {N : Type} (uuid_string : UUID -> string) (registry : Registry N).
Context (bind : reader -> option createMessageRequest) (assets : string -> http_response).

Lemma endpoint_typed d ready e rq w :
  endpoint_success e <> None ->
  wp local (endpoint_handler uuid_string registry bind assets d ready e rq) w (fun resp _ => succeeds e resp \/ refuses resp).
Proof using Type.
  destruct e; cbn [endpoint_handler endpoint_success]; intros He; try done.
  - left. by eapply writeSuccess_succeeds; [reflexivity|exists []].
  - destruct ready as [e|]; [right; by apply (writeError_refuses _ errDependencyUnavailable)|left].
    eapply writeSuccess_succeeds; [reflexivity|]. fields.
  - left. eapply writeSuccess_succeeds; [reflexivity|apply providerCapabilitiesData_typed].
  - unfold createMessage. destruct (bind (rq_body rq)) as [req|]; [|right; by apply (writeError_refuses _ errInvalidRequest)].
    apply wp_bind. eapply wp_mono; [apply Submit_verdict|]. intros x w' (v & Hx & _).
    destruct x as [sr|e]; cbn [wp].
    + left. eapply writeSuccess_succeeds; [reflexivity|apply createMessageResponse_typed].
    + rewrite (writeSubmitError_verdict _ _ _ Hx). apply http_answer_typed.
  - apply wp_bind. eapply wp_mono; [apply GetStatus_finding|]. intros x w' (_ & f & Hx & _). apply tells_inv in Hx.
    destruct x as [r|e]; cbn [wp].
    + left. eapply writeSuccess_succeeds; [reflexivity|apply messageStatusResponse_typed].
    + right. destruct f; try done; [subst; by apply (writeError_refuses _ errInvalidRequest)
        |subst; by apply (writeError_refuses _ errMessageNotFound)
        |destruct Hx as (what & ->); by apply (writeError_refuses _ errStorageUnavailable)].
Qed.

(** C33: Every response of the REST API is typed, whatever the request, the
    database and the broker do: the envelope of a success carries code 0, no
    error text and exactly the members, in order and of the types, that the
    endpoint documents, with its documented status line; any other response
    is the error envelope with a known code, the status line that belongs to
    this code and a text, never an internal error; only the Swagger routes,
    and only when Swagger is enabled, answer anything else. *)
Theorem rest_responses_typed gin_match d ready rq w :
  wp local (serve uuid_string registry bind gin_match assets d ready rq) w (fun resp _ => typed gin_match d rq resp).
Proof using Type.
  unfold serve, typed. cbn [rq_method rq_path rq_accept_language limit_body].
  destruct (gin_match _ _ _) as [i| |];
    [|left; by apply (writeError_refuses _ errMethodNotAllowed)|left; by apply (writeError_refuses _ errRouteNotFound)].
  destruct (NewRouter (SwaggerEnabled d) !! i) as [[[[m p] a] e]|] eqn:E; [|left; by apply (writeError_refuses _ errRouteNotFound)].
  destruct (a && negb _); [left; by apply (writeError_refuses _ errUnauthenticated)|].
  destruct (decide (endpoint_success e = None)) as [He|He].
  - assert (SwaggerEnabled d = true) as Hs.
    { destruct (SwaggerEnabled d); [done|]. do 5 (destruct i as [|i]; [cbn in E; by simplify_eq|]). done. }
    destruct e; try done; cbn [endpoint_handler wp]; right; exists i, m, p, a; eexists; (split; [done|]); (split; [done|]); done.
  - eapply wp_mono; [by apply endpoint_typed|]. intros resp w' [H|H]; [right|by left].
    exists i, m, p, a, e. split; [done|]. split; [done|]. by destruct (endpoint_success e).
Qed.
End rest.

(** ** The Swagger page *)

(** With Swagger enabled, anybody reads a bearer token: the page is served
    without authentication and contains the first token the server accepts,
    and a request made with it passes the bearer check of every authenticated
    route. *)
Theorem swagger_page_discloses_token {N} uuid_string (registry : Registry N) bind gin_match assets d ready rq token rest :
  SwaggerEnabled d = true -> AuthTokens d = token :: rest -> AuthVerifier d = Some (NewVerifier (AuthTokens d)) -> token <> EmptyString ->
  gin_match (List.map (fun r => (r.1.1.1, r.1.1.2)) (NewRouter true)) (rq_method rq) "/docs/index.html" = Matched 3 ->
  rq_path rq = "/docs/index.html" ->
  serve uuid_string registry bind gin_match assets d ready rq =
    Ret (mkResp 200 (HTMLBody (swagger_head +:+ quote token +:+ swagger_tail)%string)) /\
  forall rq', rq_authorization rq' = ("Bearer " +:+ token)%string -> bearerAuth (AuthVerifier d) rq' = true.
Proof.
  intros Hs Ht Hv Hne Hm Hp. split.
  - unfold serve. cbn [rq_method rq_path rq_accept_language limit_body]. rewrite Hs, Hp, Hm.
    change (NewRouter true !! 3%nat) with (Some ("GET", "/docs/*any", false, EDocs)). cbn [andb negb endpoint_handler rq_path limit_body].
    rewrite Hp, Ht. reflexivity.
  - intros rq' Hrq. apply bearerAuth_known. exists token. split; [done|]. unfold known. rewrite Hv, Ht. unfold Verify, NewVerifier. cbn [accepted].
    rewrite decide_True; [done|]. rewrite elem_of_list_to_set. cbn [List.filter].
    destruct token as [|c t]; [done|]. cbn. by left.
Qed.

(** ** Panics and access lines *)

(** Every request is answered and, with a logger, leaves one line with the
    status it was answered with, also when its handler panicked. *)
Lemma middleware_line {P : Postgres} logger client_ip next rq w :
  wp local (middleware logger client_ip next rq) w (fun x _ =>
    x.2 = if logger then Some {| hl_method := rq_method rq; hl_path := rq_path rq; hl_status := rs_status x.1; hl_client_ip := client_ip rq |}
          else None).
Proof.
  unfold middleware, accessLogger, CustomRecovery. apply wp_bind, wp_bind.
  eapply (wp_mono _ _ _ (fun _ _ => True)); [by apply wp_invariant|]. by intros [r|] w' _.
Qed.

(** Behind the token check a panic of a gRPC handler is answered as an
    internal error; a call that returned is logged with its status, one that
    panicked only as a panic. *)
Lemma unary_chain_recovers {P : Postgres} {A} logger verifier method md (h : prog (outcome A)) w :
  isHealthMethod method = true \/ verifyIncomingToken verifier md = None ->
  wp local (unary_chain logger verifier method md h) w (fun x _ =>
    (exists r, x.1 = Returned r /\ x.2 = if logger then [RequestLine method (status_Code r)] else []) \/
    x = (Returned (Err (mkStatus Internal "internal server error")), if logger then [PanicLine method] else [])).
Proof.
  intros Ht. unfold unary_chain, ChainUnaryInterceptor. cbn [fold_right]. unfold recoveryUnaryInterceptor, authUnaryInterceptor, loggingUnaryInterceptor.
  assert (forall k : prog (call A), (if isHealthMethod method then k else match verifyIncomingToken verifier md with
            | Some e => Ret (Returned (Err e), []) | None => k end) = k) as ->.
  { intros k. destruct Ht as [->| ->]; [done|]. by destruct (isHealthMethod method). }
  apply wp_bind, wp_bind, wp_bind. eapply (wp_mono _ _ _ (fun _ _ => True)); [by apply wp_invariant|].
  intros [r|] w' _; cbn [wp]; [left; by eexists|right; by destruct logger].
Qed.
