(* ===== verification/ToolSpec.v ===== *)
(** * What the MCP tools promise ([internal/mcpapi/tools.go])

    The annotations given to the library are read by clients to decide which
    calls are safe to make, and to repeat. *)

From S2P Require Import Prelude Prog Errors Json Domain Provider Store Lifecycle StoreSpec Effects Publish Service ServiceSpec.
From S2P Require Import Mcp.

Section tools.
Context {P : Postgres} {N : Type} (uuid_string : UUID -> string) (registry : Registry N).

(** Every row of the first table is in the second as it was. *)
Definition keeps (db db' : table) : Prop := forall i r, db !! i = Some r -> db' !! i = Some r.

Lemma insert_keeps now ev db : keeps db (Insert now ev db).2.
Proof using Type.
  unfold Insert. destruct (insert_row now ev) as [r0|e]; [|by intros i r]. destruct (unique_violation db r0) eqn:Eu; [by intros i r|].
  apply unique_violation_false in Eu as [Hn _]. intros i r Hi. cbn. rewrite lookup_insert_ne; [done|]. congruence.
Qed.

Lemma stmt_answer_insert ev db x db' : stmt_answer (SInsert ev) db x db' -> keeps db db'.
Proof using Type. intros [now|e _|now e _]; [apply insert_keeps|by intros i r|apply insert_keeps]. Qed.

(** Submitting changes no row that was stored before. *)
Lemma Submit_keeps cmd w : wp local (Submit uuid_string registry cmd) w (fun _ w' => keeps (w_db w) (w_db w')).
Proof using Type.
  assert (forall w0, w_db w0 = w_db w -> keeps (w_db w) (w_db w0)) as Hsame by (intros w0 ->; by intros i r).
  unfold Submit. destruct (validate_command registry cmd) as [e|]; [by apply Hsame|].
  apply wp_bind. eapply wp_mono; [apply resolveExisting_spec|]. intros [[sr|]|e] w1 [-> _]; [by apply Hsame| |by apply Hsame].
  intros id w1 (_ & ->). cbn [Prog.bind]. intros x w2 (db' & Ha & ->). cbn [Prog.bind]. apply stmt_answer_insert in Ha as Hk. cbn in Hk.
  destruct x as [[c u]|e].
  - assert (exists now, (Insert now (new_event id cmd) (w_db w)).1 = Ok (c, u) /\ db' = (Insert now (new_event id cmd) (w_db w)).2) as (now & Hi & ->)
      by (inversion Ha; cbn in *; simplify_eq; by eexists).
    destruct (insert_accepted _ _ _ _ _ _ Hi) as (r0 & <- & Hacc & Hn & _ & _ & _ & E). rewrite E in *.
    apply wp_bind. eapply wp_mono; [apply (publish_pending uuid_string (ID r0) r0); [apply lookup_insert_eq|apply Hacc]|].
    intros err w3 (_ & _ & Hoth). cbn [wp]. intros i r Hi'. rewrite Hoth; [by apply Hk|]. congruence.
  - destruct (errors_Is e ErrDuplicateSourceRequest); [|exact Hk].
    apply wp_bind. eapply wp_mono; [apply resolveExisting_spec|]. intros [[sr|]|e'] w3 [-> _]; exact Hk.
Qed.

(** The table has a row under the key the columns would give [cmd]'s event. *)
Definition taken (cmd : SubmitCommand) (db : table) : Prop :=
  forall now id r0, insert_row now (new_event id cmd) = Ok r0 -> exists i r, db !! i = Some r /\ same_source (SourceSystem r0) (SourceRequestID r0) r = true.

Lemma taken_insert now id cmd db : taken cmd db -> exists e, Insert now (new_event id cmd) db = (Err e, db).
Proof using Type.
  intros Ht. unfold Insert. destruct (insert_row now (new_event id cmd)) as [r0|e] eqn:E; [|by eexists].
  destruct (unique_violation db r0) eqn:Eu; [by eexists|]. apply unique_violation_false in Eu as [_ Hs].
  destruct (Ht _ _ _ E) as (i & r & Hr & Hsrc). by rewrite (Hs _ _ Hr) in Hsrc.
Qed.

(** Everything but the ids drawn. *)
Definition same_but_ids (w w' : world) : Prop :=
  w_db w' = w_db w /\ w_breakers w' = w_breakers w /\ w_limiters w' = w_limiters w /\
  w_calls w' = w_calls w /\ w_published w' = w_published w.

(** Once a command's event is stored, or another under its key, repeating it
    does nothing. *)
Lemma Submit_again cmd w :
  (exists r, keyed_by (Cmd_SourceSystem cmd) (Cmd_SourceRequestID cmd) (w_db w) r) \/ taken cmd (w_db w) ->
  wp local (Submit uuid_string registry cmd) w (fun _ w' => same_but_ids w w').
Proof using Type.
  intros Hk. unfold Submit. destruct (validate_command registry cmd); [done|].
  apply wp_bind. eapply wp_mono; [apply resolveExisting_spec|]. intros [[sr|]|e] w1 [-> Hx]; [done| |done].
  destruct Hk as [(r & id & Hr & S1 & S2)|Ht].
  { specialize (Hx _ _ Hr). apply not_true_iff_false in Hx. exfalso. by apply Hx, same_source_spec. }
  intros id w1 (_ & ->). cbn [Prog.bind]. intros x w2 (db' & Ha & ->). cbn [Prog.bind].
  assert (db' = w_db w /\ exists e, x = Err e) as [-> [e ->]].
  { inversion Ha as [now Hq|e Hf|now e Hf]; subst; cbn; destruct (taken_insert 0 id cmd _ Ht) as (e1 & E1);
      try (destruct (taken_insert now id cmd _ Ht) as (e2 & E2); rewrite E2); by eauto. }
  destruct (errors_Is e ErrDuplicateSourceRequest); [|done].
  apply wp_bind. eapply wp_mono; [apply resolveExisting_spec|]. by intros [[sr|]|e'] w3 [-> _].
Qed.

Lemma Submit_takes cmd w sr w' : submitted uuid_string registry cmd w (Ok sr) w' ->
  (exists r, keyed_by (Cmd_SourceSystem cmd) (Cmd_SourceRequestID cmd) (w_db w') r) \/ taken cmd (w_db w').
Proof using Type.
  intros [_ Hs]. destruct (Duplicate sr).
  - destruct Hs as (-> & _ & r & Hk & _). left. by exists r.
  - destruct Hs as (_ & now & r & _ & Hr & (V1 & V2 & _) & _). right. intros t id r0 [_ (V3 & V4 & _)]%insert_row_fields.
    exists (ID r), r. split; [done|]. apply same_source_spec. split; congruence.
Qed.

(** C28: The annotations of the MCP tools are true. A tool called read-only
    changes nothing, in the table or anywhere else the service can reach. A
    tool that is not is called non-destructive, and every row stored before
    the call is there after it, unchanged in every column. A tool called
    idempotent has, once it succeeded, no further effect when it is called
    again with the same arguments: no row, no wake-up, nothing. That is so
    even where a text column cuts the key down to its length and the event
    is not found under the key it was given. *)
Theorem tool_hints_true c w :
  let hints := Annotations (tool_of c) in
  (ReadOnlyHint hints = true -> wp local (call_tool uuid_string registry c) w (fun _ w' => w' = w)) /\
  (ReadOnlyHint hints = false ->
     DestructiveHint hints = Some false /\
     wp local (call_tool uuid_string registry c) w (fun _ w' => keeps (w_db w) (w_db w'))) /\
  (IdempotentHint hints = true ->
     wp local (call_tool uuid_string registry c) w (fun answer w1 => forall o, answer = Ok o ->
       wp local (call_tool uuid_string registry c) w1 (fun _ w2 => same_but_ids w1 w2))).
Proof using Type.
  destruct c as [input|q|]; cbn [tool_of Annotations ReadOnlyHint DestructiveHint IdempotentHint call_tool]; (split; [|split]); try done.
  - intros _. split; [done|]. unfold submit_notification. apply wp_bind, wp_bind.
    eapply wp_mono; [apply Submit_keeps|]. by intros [sr|e] w' Hk.
  - intros _. unfold submit_notification. apply wp_bind, wp_bind. eapply wp_mono; [apply Submit_submitted|].
    intros [sr|e] w1 Hs; cbn [wp]; [|done]. intros o _. apply Submit_takes in Hs.
    apply wp_bind, wp_bind. eapply wp_mono; [by eapply Submit_again|]. by intros [sr'|e] w2 Hw2.
  - intros _. unfold get_notification_status. apply wp_bind, wp_bind. eapply wp_mono; [apply GetStatus_spec|].
    by intros [ev|e] w' [-> _].
Qed.
End tools.
