(* ===== verification/StartupSpec.v ===== *)
(** * What start-up and shutdown guarantee

    A typestate for the two commands: which resources are open, which checks
    have passed, how far the shutdown is. The programs are followed on every
    branch, whatever each call answers. *)

From S2P Require Import Prelude Float Prog Errors Json JsonRaw Config Mq Memory Rabbit RabbitSpec Nsq Provider Breaker Limiter.
From S2P Require Import Http Smtp Compensator Api Settings Boot Startup.

(** ** The typestate *)

(** What is closed in the reverse order of its opening. *)
Inductive resource := RPool | RMaintenance | RProducer | RConnection (p : peer) | RMemory | RListener.

#[export] Instance peer_eq_dec : EqDecision peer.
Proof. solve_decision. Defined.
#[export] Instance resource_eq_dec : EqDecision resource.
Proof. solve_decision. Defined.

(** How far the gRPC server's stop is. *)
Inductive grpc_stop := GRunning | GStopped | GTimedOut | GForced.

(** [Woken w health]: the [select] (or the wait of [Worker.Run]) returned, and
    [health] says whether the health service reports the shutdown; [Down w h
    s]: [Shutdown] of the HTTP server returned [h], and [s] is where the gRPC
    server's stop is. *)
Inductive phase := Starting | Serving | Woken (w : wake) (health : bool) | Down (w : wake) (h : res unit) (s : grpc_stop).

(** The gRPC server is stopped, gracefully or by force, or there is none. *)
Definition grpc_down (enabled : bool) (s : grpc_stop) : bool :=
  match s with GRunning => negb enabled | GStopped | GForced => enabled | GTimedOut => false end.

Record stage := mkStage {
  sg_open : list resource;
  sg_pub : resources;
  sg_sub : resources;
  sg_signal : bool;
  sg_consumer : bool;
  sg_pinged : bool;
  sg_migrated : bool;
  sg_registry : bool;
  sg_phase : phase;
}.

(** What a command requires before it starts a goroutine: its configuration
    passed the checks that need no call, the schema was migrated when that is
    configured, the providers file built a registry, and exactly the listed
    resources are open. [rq_grpc]: it has a gRPC server to shut down.
    [rq_closing]: in which phases it may close them. *)
Record requirements := mkRequirements {
  rq_config : bool;
  rq_migrate : bool;
  rq_providers : res string -> bool;
  rq_resources : thread -> list resource;
  rq_grpc : bool;
  rq_closing : phase -> bool;
}.

Definition may_start (rq : requirements) (t : thread) (g : stage) : bool :=
  rq_config rq && sg_pinged g && (negb (rq_migrate rq) || sg_migrated g) && sg_registry g &&
  bool_decide (sg_open g = rq_resources rq t) && match sg_phase g with Starting | Serving => true | _ => false end.

Definition set_open (g : stage) (l : list resource) : stage :=
  mkStage l (sg_pub g) (sg_sub g) (sg_signal g) (sg_consumer g) (sg_pinged g) (sg_migrated g) (sg_registry g) (sg_phase g).
Definition set_phase (g : stage) (ph : phase) : stage :=
  mkStage (sg_open g) (sg_pub g) (sg_sub g) (sg_signal g) (sg_consumer g) (sg_pinged g) (sg_migrated g) (sg_registry g) ph.
Definition set_checks (g : stage) (ping migrated registry : bool) : stage :=
  mkStage (sg_open g) (sg_pub g) (sg_sub g) (sg_signal g) (sg_consumer g) ping migrated registry (sg_phase g).
Definition set_signal (g : stage) (s : bool) : stage :=
  mkStage (sg_open g) (sg_pub g) (sg_sub g) s (sg_consumer g) (sg_pinged g) (sg_migrated g) (sg_registry g) (sg_phase g).
Definition set_consumer (g : stage) (c : bool) : stage :=
  mkStage (sg_open g) (sg_pub g) (sg_sub g) (sg_signal g) c (sg_pinged g) (sg_migrated g) (sg_registry g) (sg_phase g).
Definition set_peer (g : stage) (p : peer) (r : resources) : stage :=
  match p with
  | PublisherPeer => mkStage (sg_open g) r (sg_sub g) (sg_signal g) (sg_consumer g) (sg_pinged g) (sg_migrated g) (sg_registry g) (sg_phase g)
  | ConsumerPeer => mkStage (sg_open g) (sg_pub g) r (sg_signal g) (sg_consumer g) (sg_pinged g) (sg_migrated g) (sg_registry g) (sg_phase g)
  end.
Definition peer_res (g : stage) (p : peer) : resources := match p with PublisherPeer => sg_pub g | ConsumerPeer => sg_sub g end.

Definition open_resource {A} (r : resource) (g : stage) (answer : res A) : option stage :=
  if bool_decide (r ∈ sg_open g) then None
  else Some (match answer with Ok _ => set_open g (r :: sg_open g) | Err _ => g end).

(** Only the resource opened last is closed, and only in a phase that lets
    resources go. *)
Definition close_resource (rq : requirements) (r : resource) (g : stage) : option stage :=
  match sg_open g with
  | r' :: rest => if bool_decide (r = r') && rq_closing rq (sg_phase g) then Some (set_open g rest) else None
  | [] => None
  end.

(** A call of RabbitMQ's keeps RabbitMQ's own protocol; its connection is one
    resource. *)
Definition amqp_call {X} (rq : requirements) (p : peer) (e : amqp X) (g : stage) (x : X) : option stage :=
  match opening X e (peer_res g p) x with
  | None => None
  | Some r =>
      match conn_open (peer_res g p), conn_open r with
      | false, true => open_resource (RConnection p) (set_peer g p r) (Ok tt)
      | true, false => close_resource rq (RConnection p) (set_peer g p r)
      | _, _ => Some (set_peer g p r)
      end
  end.

Definition is_open (r : resource) (g : stage) : bool := bool_decide (r ∈ sg_open g).
Definition is_ok {A} (r : res A) : bool := match r with Ok _ => true | Err _ => false end.
Definition only (b : bool) (g : stage) : option stage := if b then Some g else None.

Definition startup (rq : requirements) : protocol boot stage := fun X e g =>
  match e in boot X return X -> option stage with
  | BReadFile _ => fun r => Some (set_checks g (sg_pinged g) (sg_migrated g) (rq_providers rq r))
  | BRandom | BLogToken _ => fun _ => Some g
  | BNotifyContext => fun _ => only (negb (sg_signal g)) (set_signal g true)
  | BStop => fun _ => Some (set_signal g false)
  | BConnectConfig _ => fun r => open_resource RMaintenance g r
  | BConnClose => fun _ => close_resource rq RMaintenance g
  | BDatabaseExists _ | BCreateDatabase _ => fun _ => only (is_open RMaintenance g) g
  | BOpen _ => fun r => open_resource RPool g r
  | BDB | BSetMaxOpenConns _ | BSetMaxIdleConns _ => fun _ => only (is_open RPool g) g
  | BPing => fun r => only (is_open RPool g) (set_checks g (is_ok r) (sg_migrated g) (sg_registry g))
  | BMigrate => fun r => only (sg_pinged g) (set_checks g (sg_pinged g) (is_ok r) (sg_registry g))
  | BSQLClose => fun _ => close_resource rq RPool g
  | BAmqp p e => fun x => amqp_call rq p e g x
  | BNewProducer _ => fun r => open_resource RProducer g r
  | BProducerStop => fun _ => close_resource rq RProducer g
  | BNewConsumer _ _ _ => fun r => only (negb (sg_consumer g)) (set_consumer g (is_ok r))
  | BAddHandlers _ | BConnectLookupds _ => fun _ => only (sg_consumer g) g
  | BConsumerStop => fun _ => only (sg_consumer g) (set_consumer g false)
  | BMemoryNew _ => fun _ => open_resource RMemory g (Ok tt)
  | BMemoryStart _ => fun _ => only (is_open RMemory g) g
  | BMemoryClose => fun _ => close_resource rq RMemory g
  | BListen _ => fun r => open_resource RListener g r
  | BListenerClose => fun _ => close_resource rq RListener g
  | BGo t => fun _ => only (may_start rq t g) (set_phase g Serving)
  | BSelect => fun w => match sg_phase g with Serving => Some (set_phase g (Woken w false)) | _ => None end
  | BDone => fun _ => match sg_phase g with Serving => Some (set_phase g (Woken WStop false)) | _ => None end
  | BHealthShutdown => fun _ =>
      match sg_phase g with Woken w false => only (rq_grpc rq && negb (sg_signal g)) (set_phase g (Woken w true)) | _ => None end
  | BHTTPShutdown _ => fun h =>
      match sg_phase g with
      | Woken w health => only (eqb health (rq_grpc rq) && negb (sg_signal g)) (set_phase g (Down w h GRunning))
      | _ => None
      end
  | BGracefulStop _ => fun stopped =>
      match sg_phase g with
      | Down w h GRunning => only (rq_grpc rq) (set_phase g (Down w h (if stopped : bool then GStopped else GTimedOut)))
      | _ => None
      end
  | BForceStop => fun _ => match sg_phase g with Down w h GTimedOut => Some (set_phase g (Down w h GForced)) | _ => None end
  end.

(** Nothing is open and nothing has happened. *)
Definition cold : stage := mkStage [] all_closed all_closed false false false false false Starting.

(** ** The steps of the error monad *)

Lemma tried_obeys {A B} (P : protocol boot stage) g (p : prog (res A)) pre (k : A -> prog (res B)) Q :
  obeys P g p (fun r g1 => match r with Ok a => obeys P g1 (k a) Q | Err e => Q (Err (wrapped pre e)) g1 end) ->
  obeys P g (tried p pre k) Q.
Proof. intros H. apply obeys_bind. eapply obeys_mono; [exact H|]. by intros [a|e] g1 Hr. Qed.

Lemma call_obeys {X} (P : protocol boot stage) (e : boot X) g (f : X -> stage) (Q : X -> stage -> Prop) :
  (forall x, P X e g x = Some (f x)) -> (forall x, Q x (f x)) -> obeys P g (trigger e) Q.
Proof. apply obeys_trigger. Qed.

Section rq.
Context {Wd : Wording} (rq : requirements).
Context (Hstarting : rq_closing rq Starting = true).
Abbreviation P := (startup rq).

(** A call, with the state it leads to computed. *)
Ltac call := eapply call_obeys; [intros ?; cbn; reflexivity|cbn].

Lemma EnsureDatabase_obeys `{Wording} pc san dsn driver g :
  sg_phase g = Starting -> RMaintenance ∉ sg_open g ->
  obeys P g (EnsureDatabase pc san dsn driver) (fun _ g' => g' = g).
Proof using Hstarting.
  intros Hp Hm. unfold EnsureDatabase. destruct (validatePostgresDriver driver); [done|]. unfold ensurePostgresDatabase.
  destruct (postgresAdminConfig pc dsn) as [[cfg target]|]; [|done]. apply tried_obeys.
  set (g1 := set_open g (RMaintenance :: sg_open g)).
  assert (is_open RMaintenance g1 = true) as Ho by (apply bool_decide_eq_true; by left).
  assert (close_resource rq RMaintenance g1 = Some g) as Hc.
  { unfold close_resource, g1. cbn. rewrite bool_decide_true by done. cbn. rewrite Hp, Hstarting. by destruct g. }
  eapply (call_obeys _ _ _ (fun r => match r with Ok _ => g1 | Err _ => g end)).
  { intros x. cbn. unfold open_resource. rewrite bool_decide_false by done. by destruct x. }
  intros [[]|e]; [|done]. apply obeys_deferring. eapply (obeys_mono _ _ _ (fun _ g2 => g2 = g1)).
  - apply tried_obeys. eapply (call_obeys _ _ _ (fun _ => g1)); [intros x; cbn; by rewrite Ho|].
    intros [[|]|]; try done. unfold create_database. apply obeys_bind.
    eapply (call_obeys _ _ _ (fun _ => g1)); [intros x; cbn; by rewrite Ho|].
    intros [|]; [done|]. by repeat case_match.
  - intros r ? ->. by eapply (call_obeys _ _ _ (fun _ => g)); [intros x; exact Hc|].
Qed.

(** The pool stays open when it could not be used. *)
Lemma NewPool_obeys `{Wording} dsn mx mn driver g :
  RPool ∉ sg_open g ->
  obeys P g (NewPool dsn mx mn driver) (fun r g' =>
    match r with
    | Ok _ => g' = set_checks (set_open g (RPool :: sg_open g)) true (sg_migrated g) (sg_registry g)
    | Err _ => g' = g \/ exists ping, g' = set_checks (set_open g (RPool :: sg_open g)) ping (sg_migrated g) (sg_registry g)
    end).
Proof using Type.
  intros Hp. unfold NewPool. destruct (resolveDialector driver); [by left|]. apply tried_obeys.
  set (g1 := set_open g (RPool :: sg_open g)).
  assert (is_open RPool g1 = true) as Ho by (apply bool_decide_eq_true; by left).
  assert (g1 = set_checks g1 (sg_pinged g) (sg_migrated g) (sg_registry g)) as Eg by done.
  eapply (call_obeys _ _ _ (fun r => match r with Ok _ => g1 | Err _ => g end)).
  { intros x. cbn. unfold open_resource. rewrite bool_decide_false by done. by destruct x. }
  intros [[]|e]; [|by left]. apply tried_obeys.
  eapply (call_obeys _ _ _ (fun _ => g1)); [intros x; cbn; by rewrite Ho|]. intros [[]|e]; [|right; by eexists].
  assert (forall b (e : boot unit), (forall x, P _ e g1 x = Some g1) ->
    obeys P g1 (if b : bool then trigger e else Ret tt) (fun _ g' => g' = g1)) as Hset.
  { intros [|] e He; [|done]. by eapply (call_obeys _ _ _ (fun _ => g1)). }
  apply obeys_bind. eapply obeys_mono; [apply Hset; intros x; cbn; by rewrite Ho|]. intros [] ? ->.
  apply obeys_bind. eapply obeys_mono; [apply Hset; intros x; cbn; by rewrite Ho|]. intros [] ? ->.
  apply tried_obeys.
  eapply (call_obeys _ _ _ (fun r => set_checks g1 (is_ok r) (sg_migrated g) (sg_registry g))); [intros x; cbn; by rewrite Ho|].
  intros [[]|e]; cbn; [done|right; by eexists].
Qed.

Lemma Migrate_obeys g :
  sg_pinged g = true ->
  obeys P g Migrate (fun r g' => g' = set_checks g true (is_ok r) (sg_registry g)).
Proof using Type.
  intros Hp. unfold Migrate. apply tried_obeys.
  eapply (call_obeys _ _ _ (fun r => set_checks g true (is_ok r) (sg_registry g))); [intros x; cbn; by rewrite Hp|].
  by intros [[]|e].
Qed.

(** ** RabbitMQ inside *)

(** [g] with the connection of [p] in state [r]; open, it is the resource
    opened last. *)
Definition with_connection (g : stage) (p : peer) (r : resources) : stage :=
  set_open (set_peer g p r) (if conn_open r then RConnection p :: sg_open g else sg_open g).

Lemma with_connection_closed g p : peer_res g p = all_closed -> with_connection g p all_closed = g.
Proof using Type. intros H. destruct g, p; cbn in *; by subst. Qed.

Lemma amqp_call_embed {X} (e : amqp X) g p r x r' :
  RConnection p ∉ sg_open g -> rq_closing rq (sg_phase g) = true -> opening X e r x = Some r' ->
  amqp_call rq p e (with_connection g p r) x = Some (with_connection g p r').
Proof using Type.
  intros Hn Hc He. unfold amqp_call.
  replace (peer_res (with_connection g p r) p) with r by (by destruct p). rewrite He.
  assert (sg_phase (set_peer (with_connection g p r) p r') = sg_phase g) as Hph by (by destruct p).
  destruct (conn_open r) eqn:E1, (conn_open r') eqn:E2.
  - f_equal. unfold with_connection. rewrite E1, E2. by destruct p.
  - unfold close_resource. rewrite Hph, Hc. unfold with_connection. rewrite E1, E2.
    destruct p; cbn; by rewrite bool_decide_true.
  - unfold open_resource, with_connection. rewrite E1, E2.
    destruct p; cbn; by rewrite bool_decide_false.
  - f_equal. unfold with_connection. rewrite E1, E2. by destruct p.
Qed.

Lemma amqp_obeys {A} g p r (q : Rabbit.prog A) Q :
  RConnection p ∉ sg_open g -> rq_closing rq (sg_phase g) = true -> obeys opening r q Q ->
  obeys P (with_connection g p r) (translate (fun X => @BAmqp X p) q) (fun a g' => exists r', g' = with_connection g p r' /\ Q a r').
Proof using Type.
  intros Hn Hc. apply (obeys_translate opening P (fun X => @BAmqp X p) (with_connection g p)); [|by eauto].
  intros X e r0 x r' He. by apply amqp_call_embed.
Qed.

(** ** The publisher *)

Definition publisher_resource (cfg : MQConfig) : resource :=
  match select_driver (MQ_Driver cfg) with Ok DriverRabbitMQ => RConnection PublisherPeer | _ => RProducer end.

(** [g] with the publisher open. *)
Definition publishing (cfg : MQConfig) (g : stage) : stage :=
  match select_driver (MQ_Driver cfg) with
  | Ok DriverRabbitMQ => with_connection g PublisherPeer (mkRes true true false)
  | _ => set_open g (RProducer :: sg_open g)
  end.

Lemma publishing_open cfg g : sg_open (publishing cfg g) = publisher_resource cfg :: sg_open g.
Proof using Type. unfold publishing, publisher_resource. by destruct (select_driver _) as [[]|]. Qed.

Lemma NewPublisher_obeys cfg g :
  publisher_resource cfg ∉ sg_open g -> sg_pub g = all_closed -> rq_closing rq (sg_phase g) = true ->
  obeys P g (NewPublisher cfg) (fun r g' =>
    match r with Ok _ => is_ok (select_driver (MQ_Driver cfg)) = true /\ g' = publishing cfg g | Err _ => g' = g end).
Proof using Type.
  unfold NewPublisher, publishing, publisher_resource. intros Hn Hp Hc. destruct (select_driver (MQ_Driver cfg)) as [[]|e]; [| |done].
  - apply obeys_bind. eapply (call_obeys _ _ _ (fun r => match r with Ok _ => set_open g (RProducer :: sg_open g) | Err _ => g end)).
    { intros x. cbn. unfold open_resource. rewrite bool_decide_false by done. by destruct x. }
    by intros [[]|e].
  - apply obeys_bind. rewrite <- (with_connection_closed g PublisherPeer) at 1 by done.
    eapply obeys_mono; [apply amqp_obeys; [done..|apply publisher_all_or_nothing]|].
    intros [e|] g' (r' & -> & Hr); subst r'; cbn; [by apply (with_connection_closed g PublisherPeer)|done].
Qed.

Lemma broker_Close_obeys cfg g :
  is_ok (select_driver (MQ_Driver cfg)) = true -> publisher_resource cfg ∉ sg_open g -> sg_pub g = all_closed ->
  rq_closing rq (sg_phase g) = true ->
  obeys P (publishing cfg g) (broker_Close cfg) (fun _ g' => g' = g).
Proof using Type.
  unfold broker_Close, publishing, publisher_resource. intros Hok Hn Hp Hc. destruct (select_driver (MQ_Driver cfg)) as [[]|e]; [| |done].
  - eapply (call_obeys _ _ _ (fun _ => g)); [|done]. intros x. cbn. rewrite bool_decide_true by done. rewrite Hc. by destruct g.
  - apply obeys_bind. eapply obeys_mono; [apply (amqp_obeys _ _ _ _ (fun _ r => r = all_closed)); [done..|]|].
    + unfold publisher_Close. cbn. intros x. eexists; split; [reflexivity|]. cbn. intros y. by eexists.
    + intros a g' (r' & -> & ->). cbn. by apply with_connection_closed.
Qed.

(** ** The consumer and [Worker.Run] *)

(** A stage in which every check has passed and goroutines may start. *)
Record ready_to_serve (g : stage) : Prop := {
  rs_config : rq_config rq = true;
  rs_pinged : sg_pinged g = true;
  rs_migrated : (negb (rq_migrate rq) || sg_migrated g) = true;
  rs_registry : sg_registry g = true;
  rs_phase : sg_phase g = Starting \/ sg_phase g = Serving;
}.

Lemma may_start_ready t g : ready_to_serve g -> sg_open g = rq_resources rq t -> may_start rq t g = true.
Proof using Type.
  intros [H1 H2 H3 H4 H5] E. unfold may_start. rewrite H1, H2, H3, H4, bool_decide_true by done. by destruct H5 as [->| ->].
Qed.

Lemma BGo_obeys t g (Q : unit -> stage -> Prop) :
  ready_to_serve g -> sg_open g = rq_resources rq t -> Q tt (set_phase g Serving) -> obeys P g (trigger (BGo t)) Q.
Proof using Type.
  intros Hg E HQ. eapply (call_obeys _ _ _ (fun _ => set_phase g Serving)); [intros x; cbn; by rewrite may_start_ready|by intros []].
Qed.

Lemma ready_serving g : ready_to_serve g -> ready_to_serve (set_phase g Serving).
Proof using Type. intros [H1 H2 H3 H4 _]. split; cbn; try done. by right. Qed.

Lemma compensator_Run_obeys cfg g :
  ready_to_serve g -> (forall t, t <> TConsumerLoop -> rq_resources rq t = sg_open g) ->
  obeys P g (compensator_Run cfg) (fun _ g' => g' = set_phase g Serving).
Proof using Type.
  intros Hg Hr. apply obeys_bind. apply BGo_obeys; [done|by rewrite Hr|]. apply BGo_obeys; [by apply ready_serving|by rewrite Hr|done].
Qed.

(** What [NewConsumer] prepares, and what its [Start] opens. *)
Definition consuming (cfg : MQConfig) (g : stage) : stage :=
  match select_driver (MQ_Driver cfg) with Ok DriverNSQ => set_consumer g true | _ => g end.

(** The error of an NSQ consumer that could not be connected. *)
Definition consumer_unconnected (r : res unit) : Prop := exists e, r = Err (EWrap "nsq connect to lookupd: " e EmptyString).

(** The end of [Worker.Run]: the consumer is closed, or its [Start] failed;
    an NSQ consumer that could not be connected is not stopped. *)
Definition run_ends (cfg : MQConfig) (g : stage) (r : res unit) (g' : stage) : Prop :=
  g' = set_phase g (Woken WStop false) \/
  ((exists e, r = Err e) /\ g' = set_phase (consuming cfg g) Serving /\ (sg_consumer (consuming cfg g) = true -> consumer_unconnected r)).

Lemma worker_Run_obeys cfg w g :
  ready_to_serve g -> sg_consumer g = false -> sg_sub g = all_closed -> RConnection ConsumerPeer ∉ sg_open g ->
  rq_closing rq Serving = true -> rq_closing rq (Woken WStop false) = true ->
  (forall t, rq_resources rq t = match t with TConsumerLoop => RConnection ConsumerPeer :: sg_open g | _ => sg_open g end) ->
  obeys P g (NewConsumer cfg) (fun r g1 =>
    match r with
    | Ok consumer => obeys P g1 (worker_Run consumer w) (run_ends cfg g)
    | Err _ => g1 = g
    end).
Proof using Type.
  intros Hg Hcons Hsub Hn Hc1 Hc2 Hr. unfold NewConsumer, run_ends, consuming.
  assert (forall g1 t, g1 = g \/ g1 = set_consumer g true -> t <> TConsumerLoop -> rq_resources rq t = sg_open g1) as Hr'.
  { intros g1 t Hg1 Ht. rewrite Hr. destruct Hg1 as [-> | ->], t; done. }
  assert (ready_to_serve (set_consumer g true)) as Hg2 by (destruct Hg; by split).
  destruct (select_driver (MQ_Driver cfg)) as [[]|e]; [| |done].
  - destruct (newNSQConsumer _ None) as [[own z]|e] eqn:En; [|done]. apply obeys_bind.
    eapply (call_obeys _ _ _ (fun r => set_consumer g (is_ok r))); [intros x; cbn; by rewrite Hcons|].
    assert (set_consumer g false = g) as Eg by (destruct g; cbn in *; by subst).
    unfold newNSQConsumer in En |- *. destruct (validateRequeueConfig _ _); [done|]. intros [u|e]; [|by cbn; rewrite Eg].
    cbn [failure is_ok obeys]. unfold worker_Run. apply obeys_bind.
    eapply obeys_mono; [apply compensator_Run_obeys; [done|]; intros t Ht; apply Hr'; [by right|done]|]. intros [] ? ->.
    apply tried_obeys. apply obeys_bind. set (g3 := set_phase (set_consumer g true) Serving).
    eapply (call_obeys _ _ _ (fun _ => g3)); [done|]. intros _. apply tried_obeys.
    eapply (call_obeys _ _ _ (fun _ => g3)); [done|]. intros [[]|e']; [|right; split; [by eexists|]; split; [done|]; intros _; by eexists].
    apply obeys_bind. eapply (call_obeys _ _ _ (fun _ => set_phase g3 (Woken WStop false))); [done|]. intros _.
    apply obeys_bind. eapply (call_obeys _ _ _ (fun _ => set_phase g (Woken WStop false))); [|by left].
    intros x. cbn. destruct g. cbn in *. by subst.
  - destruct (newRabbitMQConsumer _); [done|]. cbn [obeys]. unfold worker_Run. apply obeys_bind.
    eapply obeys_mono; [apply compensator_Run_obeys; [done|]; intros t Ht; apply Hr'; [by left|done]|]. intros [] ? ->.
    set (g3 := set_phase g Serving). apply tried_obeys. apply obeys_bind.
    rewrite <- (with_connection_closed g3 ConsumerPeer) at 1 by done.
    eapply obeys_mono; [apply amqp_obeys; [done..|apply connect_all_or_nothing]|].
    intros [e|] g' (r' & -> & Hr2); subst r'; rewrite ?with_connection_closed by done.
    { right. split; [by eexists|]. split; [done|]. by rewrite Hcons. }
    apply obeys_bind. set (g4 := with_connection g3 ConsumerPeer (mkRes true true true)).
    apply BGo_obeys; [destruct Hg; split; try done; by right|by rewrite Hr|].
    change (set_phase g4 Serving) with g4. cbn [obeys]. apply obeys_bind.
    eapply (call_obeys _ _ _ (fun _ => set_phase g4 (Woken WStop false))); [done|]. intros _.
    apply obeys_bind. set (g5 := set_phase g (Woken WStop false)).
    change (set_phase g4 (Woken WStop false)) with (with_connection g5 ConsumerPeer (mkRes true true true)).
    eapply obeys_mono; [apply (amqp_obeys _ _ _ _ (fun _ r => r = all_closed)); [done..|]|].
    + unfold Rabbit.consumer_Close. cbn. intros x. eexists; split; [reflexivity|]. cbn. intros y.
      eexists; split; [reflexivity|]. cbn. intros z. by eexists.
    + intros a g' (r' & -> & ->). left. by apply with_connection_closed.
Qed.
End rq.

(** ** [cmd/server] *)

(** The exit status after a shutdown: the error that ended the [select], or
    what the two servers' shutdowns said. *)
Definition exit_status (w : wake) (h : res unit) (s : grpc_stop) (r : res unit) : Prop :=
  (r = Ok tt <-> wake_error w = None /\ h = Ok tt /\ s <> GForced) /\
  forall e, wake_error w = Some e -> r = Err e.

(** Errors after which the pool is left open: it was created and could not be
    used. *)
Definition pool_unusable (r : res unit) : Prop :=
  exists e, r = Err (EWrap "connect to database: " e EmptyString) \/ r = Err (EWrap "resolve database handle: " e EmptyString).

Section server.
Context {Wd : Wording} {ML : MailLib} {Y : Type} {Pf : Platform Y} (cfg : ServerConfig).

Definition is_memory : bool := String.eqb (MQ_Driver (MQ cfg)) "memory".

Definition server_broker : resource := if is_memory then RMemory else publisher_resource (MQ cfg).

Definition server_requirements : requirements :=
  {| rq_config :=
       match server_lease_check (MQ_Driver (MQ cfg)) (Lease_Duration (Lease (Worker cfg))) with None => true | Some _ => false end &&
       (negb is_memory || is_ok (NewMemoryBroker (BufferSize (MQ_Memory (MQ cfg))) (Memory_Requeue (MQ_Memory (MQ cfg))))) &&
       (negb (MCP_Enabled (MCP cfg)) || match validateMCPPath (MCP_Path (MCP cfg)) with None => true | Some _ => false end);
     rq_migrate := AutoMigrate cfg;
     rq_providers := fun content => is_ok (build_registry content (ProvidersFile cfg) is_memory
                       (if is_memory then Client_AllowedRespHeaders (HTTPClient (Worker cfg)) else []));
     rq_resources := fun _ => (if GRPC_Enabled (GRPC cfg) then [RListener] else []) ++ [server_broker; RPool];
     rq_grpc := GRPC_Enabled (GRPC cfg);
     rq_closing := fun ph => match ph with Starting => true | Down _ _ s => grpc_down (GRPC_Enabled (GRPC cfg)) s | _ => false end |}.

Abbreviation P := (startup server_requirements).
Abbreviation ready := (ready_to_serve server_requirements).

(** How a part of [run] ends: with an error before anything was started, and
    everything it opened closed again, or after a shutdown. *)
Definition server_ends (g : stage) (r : res unit) (g' : stage) : Prop :=
  (g' = g /\ exists e, r = Err e) \/
  exists w h s, g' = set_phase (set_signal g false) (Down w h s) /\ grpc_down (GRPC_Enabled (GRPC cfg)) s = true /\ exit_status w h s r.

Lemma exit_status_join w h st (s : res unit) : (s = Ok tt <-> st <> GForced) ->
  exit_status w h st
    (match wake_error w with Some e => Err e | None => lift_err (errors_Join (failure h) (failure s)) end).
Proof using Type.
  intros Hs. unfold exit_status. destruct (wake_error w) as [e|].
  { split; [|by intros ? [= ->]]. split; [done|]. by intros (? & _). }
  split; [|done]. destruct h as [[]|e], s as [[]|e']; cbn; naive_solver.
Qed.

Lemma server_shutdown_obeys w g :
  sg_phase g = Woken w false ->
  obeys P g (server_shutdown cfg w) (fun r g' =>
    exists h s, g' = set_phase (set_signal g false) (Down w h s) /\ grpc_down (GRPC_Enabled (GRPC cfg)) s = true /\ exit_status w h s r).
Proof using Type.
  intros Hp. unfold server_shutdown. set (g1 := set_signal g false). apply obeys_bind.
  eapply (call_obeys _ _ _ (fun _ => g1)); [done|]. intros _. apply obeys_bind.
  set (g2 := set_phase g1 (Woken w (GRPC_Enabled (GRPC cfg)))).
  eapply (obeys_mono _ _ _ (fun _ g' => g' = g2)).
  { destruct (GRPC_Enabled _) eqn:Eg; [|unfold g2, g1; destruct g; cbn in *; by subst].
    eapply (call_obeys _ _ _ (fun _ => g2)); [|done]. intros x. cbn. by rewrite Hp, Eg. }
  intros [] ? ->. apply obeys_bind. eapply (call_obeys _ _ _ (fun h => set_phase g1 (Down w h GRunning))).
  { intros h. cbn. by destruct (GRPC_Enabled _). }
  intros h. apply obeys_bind.
  eapply (obeys_mono _ _ _ (fun r g' => exists s, g' = set_phase g1 (Down w h s) /\ grpc_down (GRPC_Enabled (GRPC cfg)) s = true /\ (r = Ok tt <-> s <> GForced))).
  { unfold when. destruct (GRPC_Enabled _) eqn:Eg; [|by exists GRunning]. unfold gracefulStopGRPC. apply obeys_bind.
    eapply (call_obeys _ _ _ (fun stopped => set_phase g1 (Down w h (if stopped : bool then GStopped else GTimedOut)))); [intros x; cbn; by rewrite Eg|].
    intros [|]; [by exists GStopped|].
    apply obeys_bind. eapply (call_obeys _ _ _ (fun _ => set_phase g1 (Down w h GForced))); [done|]. intros _. exists GForced. by split; [|split; [|split]]. }
  intros s g' (st & -> & Hd & Hs). pose proof (exit_status_join w h st s Hs) as He.
  destruct (wake_error w); exists h, st; by split.
Qed.

Lemma server_serve_obeys router embedded g :
  ready g -> (forall t, sg_open g = rq_resources server_requirements t) ->
  obeys P g (server_serve cfg router embedded) (server_ends g).
Proof using Type.
  intros Hg Hr. unfold server_serve. set (g1 := set_phase g Serving).
  assert (ready g1) as Hg1 by by apply ready_serving.
  assert (exists g0, (g0 = g \/ g0 = g1) /\ obeys P g
    (match embedded with Some w => trigger (BGo (TEmbeddedWorker w)) | None => Ret tt end) (fun _ g2 => g2 = g0)) as (g0 & Hg0 & Ho).
  { destruct embedded as [w|]; [exists g1|exists g]; (split; [by auto|]); [|done]. apply BGo_obeys; [done|apply Hr|done]. }
  apply obeys_bind. eapply obeys_mono; [exact Ho|]. intros [] ? ->. apply obeys_bind.
  assert (set_phase g0 Serving = g1) as E0 by (by destruct Hg0 as [-> | ->]).
  apply BGo_obeys; [by destruct Hg0 as [-> | ->]|destruct Hg0 as [-> | ->]; apply (Hr _)|]. rewrite E0. apply obeys_bind.
  eapply (obeys_mono _ _ _ (fun _ g2 => g2 = g1)).
  { destruct (GRPC_Enabled _); [|done]. apply BGo_obeys; [done|apply Hr|done]. }
  intros [] ? ->. apply obeys_bind. eapply (call_obeys _ _ _ (fun w => set_phase g (Woken w false))); [done|].
  intros w. eapply obeys_mono; [by apply server_shutdown_obeys|]. intros r g' (h & s & -> & Hd & He).
  right. by exists w, h, s.
Qed.

(** A part of [run] inside the [defer] of a resource: [opened] opens it. *)
Lemma server_deferring (opened : stage -> stage) cleanup body g :
  sg_phase g = Starting ->
  (forall ph, opened (set_phase (set_signal g false) ph) = set_phase (set_signal (opened g) false) ph) ->
  (forall g0, rq_closing server_requirements (sg_phase g0) = true -> sg_open g0 = sg_open g -> sg_pub g0 = sg_pub g ->
     obeys P (opened g0) cleanup (fun _ g1 => g1 = g0)) ->
  obeys P (opened g) body (server_ends (opened g)) ->
  obeys P (opened g) (deferring cleanup body) (server_ends g).
Proof using Type.
  intros Hp Hph Hc Hb. apply obeys_deferring. eapply obeys_mono; [exact Hb|].
  intros r g' [[-> He]|(w & h & s & -> & Hd & He)].
  - eapply obeys_mono; [apply Hc; [by rewrite Hp|done..]|]. intros [] ? ->. by left.
  - rewrite <- Hph. eapply obeys_mono; [by apply Hc|]. intros [] ? ->. right. by exists w, h, s.
Qed.

Lemma close_top_obeys (e : boot unit) r g :
  (forall g0, startup server_requirements unit e g0 = fun _ => close_resource server_requirements r g0) ->
  rq_closing server_requirements (sg_phase g) = true ->
  obeys P (set_open g (r :: sg_open g)) (trigger e) (fun _ g1 => g1 = g).
Proof using Type.
  intros He Hc. eapply (call_obeys _ _ _ (fun _ => g)); [|done]. intros x. rewrite He. unfold close_resource. cbn -[server_requirements].
  rewrite bool_decide_true, Hc by done. by destruct g.
Qed.

(** The checks made before the broker exists. *)
Definition early_checks : bool :=
  match server_lease_check (MQ_Driver (MQ cfg)) (Lease_Duration (Lease (Worker cfg))) with None => true | Some _ => false end &&
  (negb is_memory || is_ok (NewMemoryBroker (BufferSize (MQ_Memory (MQ cfg))) (Memory_Requeue (MQ_Memory (MQ cfg))))).

(** A stage of [run] past the checks of the database and the registry. *)
Record checked_stage (g : stage) : Prop := {
  ck_phase : sg_phase g = Starting;
  ck_pinged : sg_pinged g = true;
  ck_migrated : (negb (AutoMigrate cfg) || sg_migrated g) = true;
  ck_registry : sg_registry g = true;
}.

Lemma checked_open g l : checked_stage g -> checked_stage (set_open g l).
Proof using Type. intros [H1 H2 H3 H4]. by split. Qed.

Lemma server_with_broker_obeys router embedded g :
  checked_stage g -> early_checks = true -> sg_open g = [server_broker; RPool] ->
  obeys P g (server_with_broker cfg router embedded) (server_ends g).
Proof using Type.
  intros Hg He Ho. unfold server_with_broker.
  assert (forall g, checked_stage g ->
    (if MCP_Enabled (MCP cfg) then validateMCPPath (MCP_Path (MCP cfg)) else None) = None -> ready g) as Hready.
  { intros g0 [H1 H2 H3 H4] Hm. split; try done; [|by left]. cbn. unfold early_checks in He. rewrite He.
    destruct (MCP_Enabled _); [|done]. by rewrite Hm. }
  destruct (if MCP_Enabled (MCP cfg) then _ else _) as [e|] eqn:Em; [left; split; [done|by eexists]|]. specialize (fun g0 H => Hready g0 H eq_refl).
  destruct (GRPC_Enabled (GRPC cfg)) eqn:Eg.
  - destruct (string_empty _); [left; split; [done|by eexists]|]. apply tried_obeys.
    set (opened := fun g0 => set_open g0 (RListener :: sg_open g0)).
    eapply (call_obeys _ _ _ (fun r => match r with Ok _ => opened g | Err _ => g end)).
    { intros x. cbn. unfold open_resource. rewrite bool_decide_false; [by destruct x|].
      rewrite Ho. unfold server_broker, publisher_resource. repeat case_match; set_solver. }
    intros [[]|e]; [|left; split; [done|by eexists]].
    apply (server_deferring opened); [by destruct Hg|done|intros g0 Hc _ _; by apply close_top_obeys|].
    apply server_serve_obeys; [by apply Hready, checked_open|]. intros t. cbn. by rewrite Ho, Eg.
  - apply server_serve_obeys; [by apply Hready|]. intros t. cbn. by rewrite Ho, Eg.
Qed.

Lemma server_with_registry_obeys router (registry : Registry Y) g :
  checked_stage g -> server_lease_check (MQ_Driver (MQ cfg)) (Lease_Duration (Lease (Worker cfg))) = None ->
  sg_open g = [RPool] -> sg_pub g = all_closed ->
  obeys P g (server_with_registry cfg router registry) (server_ends g).
Proof using Type.
  intros Hg Hl Ho Hp. unfold server_with_registry. fold is_memory. destruct is_memory eqn:Em.
  - destruct (NewMemoryBroker _ _) as [b|e] eqn:Eb; [|left; split; [done|by eexists]]. apply obeys_bind.
    set (opened := fun g0 => set_open g0 (RMemory :: sg_open g0)).
    eapply (call_obeys _ _ _ (fun _ => opened g)).
    { intros x. cbn. unfold open_resource. rewrite bool_decide_false; [done|]. rewrite Ho. set_solver. }
    intros _. apply (server_deferring opened); [by destruct Hg|done|intros g0 Hc _ _; by apply close_top_obeys|].
    apply server_with_broker_obeys; [by apply checked_open|by unfold early_checks; rewrite Hl, Em, Eb|].
    cbn. unfold server_broker. by rewrite Em, Ho.
  - apply tried_obeys. assert (publisher_resource (MQ cfg) ∉ [RPool]) as Hn.
    { unfold publisher_resource. repeat case_match; set_solver. }
    eapply obeys_mono; [apply NewPublisher_obeys; rewrite ?Ho; [done|done|by destruct Hg as [-> _ _ _]]|].
    intros [[]|e] g1; [|intros ->; left; split; [done|by eexists]]. intros [Hd ->].
    apply (server_deferring (publishing (MQ cfg))); [by destruct Hg| | |].
    + intros ph. unfold publishing. by destruct (select_driver _) as [[]|].
    + intros g0 Hc Ho0 Hp0. apply broker_Close_obeys; [done|by rewrite Ho0, Ho|by rewrite Hp0|done].
    + apply server_with_broker_obeys; [|by unfold early_checks; rewrite Hl, Em|].
      * destruct Hg as [H1 H2 H3 H4]. unfold publishing. destruct (select_driver _) as [[]|]; by split.
      * rewrite publishing_open, Ho. unfold server_broker. by rewrite Em.
Qed.

Lemma server_with_pool_obeys router g :
  sg_phase g = Starting -> sg_pinged g = true -> sg_open g = [RPool] -> sg_pub g = all_closed ->
  obeys P g (server_with_pool cfg router) (fun r g' => exists m reg, server_ends (set_checks g true m reg) r g').
Proof using Type.
  intros Hs Hpi Ho Hp. unfold server_with_pool. fold is_memory. apply tried_obeys.
  assert (set_checks g true (sg_migrated g) (sg_registry g) = g) as Eg by (destruct g; cbn in *; by subst).
  assert (forall e, exists m reg, server_ends (set_checks g true m reg) (Err e) g) as Hfail.
  { intros e. exists (sg_migrated g), (sg_registry g). rewrite Eg. left. split; [done|by eexists]. }
  eapply (obeys_mono _ _ _ (fun r g1 => exists m, g1 = set_checks g true m (sg_registry g) /\
    (r = Ok tt -> (negb (AutoMigrate cfg) || m) = true))).
  { unfold when. destruct (AutoMigrate cfg); [|exists (sg_migrated g); by rewrite Eg].
    eapply obeys_mono; [by apply Migrate_obeys|]. intros r ? ->. exists (is_ok r). split; [done|by intros ->]. }
  intros [[]|e] g1 (m & -> & Hm); [|exists m, (sg_registry g); left; split; [done|by eexists]].
  destruct (server_lease_check _ _) as [e|] eqn:El; [exists m, (sg_registry g); left; split; [done|by eexists]|].
  apply tried_obeys. apply obeys_bind.
  eapply (call_obeys _ _ _ (fun content => set_checks g true m (rq_providers server_requirements content))); [done|].
  intros content. cbn [obeys]. cbn [rq_providers server_requirements].
  destruct (build_registry _ _ _ _) as [registry|e] eqn:Eb; [|exists m, false; left; split; [done|by eexists]].
  eapply obeys_mono; [apply server_with_registry_obeys; try done; split; cbn; [done|done|by apply Hm|done]|].
  intros r g' H. by exists m, true.
Qed.

(** [run] after the signal handler is installed. *)
Definition server_outcome (r : res unit) (g : stage) : Prop :=
  sg_signal g = false /\ sg_consumer g = false /\
  match sg_phase g with
  | Starting => (exists e, r = Err e) /\ (sg_open g = [] \/ sg_open g = [RPool] /\ pool_unusable r)
  | Down w h s => sg_open g = [] /\ grpc_down (GRPC_Enabled (GRPC cfg)) s = true /\ exit_status w h s r
  | _ => False
  end.

Lemma server_with_signal_obeys router :
  obeys P (set_signal cold true) (deferring (trigger BStop) (server_with_signal cfg router)) server_outcome.
Proof using Type.
  apply obeys_deferring. set (g := set_signal cold true). unfold server_with_signal.
  assert (forall (Q : res unit -> stage -> Prop) r g1, Q r (set_signal g1 false) -> obeys P g1 (trigger BStop) (fun _ g2 => Q r g2)) as Hstop.
  { intros Q r g1 HQ. eapply (call_obeys _ _ _ (fun _ => set_signal g1 false)); [done|]. by intros []. }
  apply tried_obeys. eapply (obeys_mono _ _ _ (fun _ g1 => g1 = g)).
  { unfold when. destruct (AutoCreate _); [|done]. by apply EnsureDatabase_obeys; [..|by intros ?%elem_of_nil]. }
  intros [[]|e] ? ->; [|apply Hstop; split; [done|]; split; [done|]; split; [by eexists|by left]].
  apply tried_obeys. eapply obeys_mono; [by apply NewPool_obeys; intros ?%elem_of_nil|].
  intros [[]|e] g1; cbn [wrapped string_empty].
  2:{ intros Hg1. apply Hstop. assert (sg_open g1 = [] \/ sg_open g1 = [RPool]) as Ho by (destruct Hg1 as [->|[ping ->]]; [by left|by right]).
      destruct Hg1 as [->|[ping ->]]; split; try done; (split; [done|]); split; try (by eexists); [by left|right; split; [done|]; eexists; by left]. }
  intros ->. set (g2 := set_checks _ _ _ _). apply tried_obeys. eapply (call_obeys _ _ _ (fun _ => g2)); [done|].
  intros [[]|e]; cbn [wrapped string_empty].
  2:{ apply Hstop. split; [done|]. split; [done|]. split; [by eexists|]. right. split; [done|]. eexists. by right. }
  apply obeys_deferring. eapply obeys_mono; [by apply server_with_pool_obeys|].
  intros r g3 (m & reg & [[-> He]|(w & h & s & -> & Hd & He)]).
  - set (g4 := set_checks (set_open g2 []) true m reg).
    eapply (obeys_mono _ _ _ (fun _ g5 => g5 = g4)); [by apply (close_top_obeys BSQLClose RPool g4)|]. intros [] ? ->.
    apply Hstop. split; [done|]. split; [done|]. split; [done|]. by left.
  - set (g4 := set_phase (set_signal (set_checks (set_open g2 []) true m reg) false) (Down w h s)).
    eapply (obeys_mono _ _ _ (fun _ g5 => g5 = g4)); [by apply (close_top_obeys BSQLClose RPool g4)|]. intros [] ? ->.
    apply Hstop. split; [done|]. split; [done|]. by split.
Qed.
End server.

(** ** [cmd/worker] *)

Section worker.
Context {Wd : Wording} {ML : MailLib} {Y : Type} {Pf : Platform Y} (cfg : WorkerConfig).

(** A worker's goroutines run until the process ends, so what it opened may
    be closed in any phase. *)
Definition worker_requirements : requirements :=
  {| rq_config := match worker_driver_check (MQ_Driver (W_MQ cfg)) with None => true | Some _ => false end;
     rq_migrate := W_AutoMigrate cfg;
     rq_providers := fun content =>
       is_ok (build_registry content (W_ProvidersFile cfg) true (Client_AllowedRespHeaders (HTTPClient (W_Runtime cfg))));
     rq_resources := fun t =>
       (match t with TConsumerLoop => [RConnection ConsumerPeer] | _ => [] end) ++ [publisher_resource (W_MQ cfg); RPool];
     rq_grpc := false;
     rq_closing := fun _ => true |}.

Abbreviation P := (startup worker_requirements).

(** The consumer ran until the context was cancelled and was closed; or
    nothing was started; or the consumer could not be started, with the
    compensator's loops already running. *)
Definition worker_ends (g : stage) (r : res unit) (g' : stage) : Prop :=
  (g' = g /\ exists e, r = Err e) \/ run_ends (W_MQ cfg) g r g'.

Lemma broker_Close_worker g ph c :
  is_ok (select_driver (MQ_Driver (W_MQ cfg))) = true -> publisher_resource (W_MQ cfg) ∉ sg_open g -> sg_pub g = all_closed ->
  obeys P (set_phase (set_consumer (publishing (W_MQ cfg) g) c) ph) (broker_Close (W_MQ cfg)) (fun _ g' => g' = set_phase (set_consumer g c) ph).
Proof using Type.
  intros Hd Hn Hp.
  replace (set_phase (set_consumer (publishing (W_MQ cfg) g) c) ph) with (publishing (W_MQ cfg) (set_phase (set_consumer g c) ph))
    by (unfold publishing; by destruct (select_driver _) as [[]|]).
  by apply broker_Close_obeys.
Qed.

Lemma worker_with_registry_obeys (registry : Registry Y) g :
  sg_open g = [RPool] -> sg_pub g = all_closed -> sg_sub g = all_closed -> sg_consumer g = false -> sg_phase g = Starting ->
  ready_to_serve worker_requirements g ->
  obeys P g (worker_with_registry cfg registry) (worker_ends g).
Proof using Type.
  intros Ho Hp Hs Hc Hph Hg. unfold worker_with_registry. destruct (register_actions registry) as [limiters breakers].
  assert (publisher_resource (W_MQ cfg) ∉ sg_open g) as Hn.
  { rewrite Ho. unfold publisher_resource. repeat case_match; set_solver. }
  apply tried_obeys. eapply obeys_mono; [by apply NewPublisher_obeys|].
  intros [[]|e] g1; [|intros ->; left; split; [done|by eexists]]. intros [Hd ->].
  set (g1 := publishing (W_MQ cfg) g).
  assert (sg_open g1 = [publisher_resource (W_MQ cfg); RPool]) as Ho1 by (unfold g1; by rewrite publishing_open, Ho).
  assert (set_consumer g false = g) as Eg by (destruct g; cbn in *; by subst).
  assert (sg_consumer g1 = false /\ sg_sub g1 = all_closed /\ sg_phase g1 = Starting) as (Hc1 & Hs1 & Hp1).
  { unfold g1, publishing. by destruct (select_driver _) as [[]|]. }
  assert (set_phase (set_consumer g1 false) Starting = g1) as Eg1 by (destruct g1; cbn in *; by subst).
  assert (set_phase g Starting = g) as Eph by (destruct g; cbn in *; by subst).
  apply obeys_deferring. eapply (obeys_mono _ _ _ (worker_ends g1)).
  - apply tried_obeys. eapply obeys_mono; [apply (worker_Run_obeys worker_requirements _
      {| WD_Limiters := limiters; WD_Breakers := breakers; WD_LeaseDuration := Lease_Duration (Lease (W_Runtime cfg));
         WD_Compensator := Runtime_Compensator (W_Runtime cfg); WD_Concurrency := worker_concurrency (Concurrency (W_Runtime cfg)) |})|].
    + destruct Hg as [H1 H2 H3 H4 H5]. unfold g1, publishing. destruct (select_driver _) as [[]|]; by split.
    + done.
    + done.
    + rewrite Ho1. unfold publisher_resource. repeat case_match; set_solver.
    + done.
    + done.
    + intros t. rewrite Ho1. by destruct t.
    + intros [consumer|e] g2; cbn beta iota.
      * intros H. eapply obeys_mono; [exact H|]. intros r g3 Hr. by right.
      * intros ->. left. split; [done|by eexists].
  - intros r g2 [[-> He]|[->|(He & -> & Hu)]].
    + rewrite <- Eg1. eapply obeys_mono; [by apply broker_Close_worker|]. intros [] ? ->. rewrite Eg, Eph. by left.
    + replace (set_phase g1 (Woken WStop false)) with (set_phase (set_consumer g1 false) (Woken WStop false)) by (destruct g1; cbn in *; by subst).
      eapply obeys_mono; [by apply broker_Close_worker|]. intros [] ? ->. rewrite Eg. right. by left.
    + unfold worker_ends, run_ends, consuming in Hu |- *. destruct (select_driver _) as [[]|e'] eqn:Ed; [| |done].
      * eapply obeys_mono; [by apply broker_Close_worker; rewrite ?Ed|]. intros [] ? ->. right. right. split; [done|]. split; [done|]. intros _. by apply Hu.
      * replace (set_phase g1 Serving) with (set_phase (set_consumer g1 false) Serving) by (destruct g1; cbn in *; by subst).
        eapply obeys_mono; [by apply broker_Close_worker; rewrite ?Ed|]. intros [] ? ->. rewrite Eg. right. right. split; [done|]. split; [done|]. by rewrite Hc.
Qed.

Definition worker_outcome (r : res unit) (g : stage) : Prop :=
  sg_signal g = false /\
  match sg_phase g with
  | Starting => (exists e, r = Err e) /\ sg_consumer g = false /\ (sg_open g = [] \/ sg_open g = [RPool] /\ pool_unusable r)
  | Serving => (exists e, r = Err e) /\ sg_open g = [] /\ (sg_consumer g = true -> consumer_unconnected r)
  | Woken w _ => w = WStop /\ sg_open g = [] /\ sg_consumer g = false
  | Down _ _ _ => False
  end.

Lemma worker_with_pool_obeys g :
  worker_driver_check (MQ_Driver (W_MQ cfg)) = None -> sg_phase g = Starting -> sg_pinged g = true -> sg_open g = [RPool] ->
  sg_pub g = all_closed -> sg_sub g = all_closed -> sg_consumer g = false ->
  obeys P g (worker_with_pool cfg) (fun r g' => exists m reg, worker_ends (set_checks g true m reg) r g').
Proof using Type.
  intros Hd Hph Hpi Ho Hp Hs Hc. unfold worker_with_pool. apply tried_obeys.
  assert (set_checks g true (sg_migrated g) (sg_registry g) = g) as Eg by (destruct g; cbn in *; by subst).
  eapply (obeys_mono _ _ _ (fun r g1 => exists m, g1 = set_checks g true m (sg_registry g) /\
    (r = Ok tt -> (negb (W_AutoMigrate cfg) || m) = true))).
  { unfold when. destruct (W_AutoMigrate cfg); [|exists (sg_migrated g); by rewrite Eg].
    eapply obeys_mono; [by apply Migrate_obeys|]. intros r ? ->. exists (is_ok r). split; [done|by intros ->]. }
  intros [[]|e] g1 (m & -> & Hm); [|exists m, (sg_registry g); left; split; [done|by eexists]].
  apply tried_obeys. apply obeys_bind.
  eapply (call_obeys _ _ _ (fun content => set_checks g true m (rq_providers worker_requirements content))); [done|].
  intros content. cbn [obeys]. cbn [rq_providers worker_requirements].
  destruct (build_registry _ _ _ _) as [registry|e] eqn:Eb; [|exists m, false; left; split; [done|by eexists]].
  eapply obeys_mono; [apply worker_with_registry_obeys; try done|].
  - split; cbn; try done; [by rewrite Hd|by apply Hm|by left].
  - intros r g' H. by exists m, true.
Qed.

Lemma worker_with_signal_obeys :
  worker_driver_check (MQ_Driver (W_MQ cfg)) = None ->
  obeys P (set_signal cold true) (deferring (trigger BStop) (worker_with_signal cfg)) worker_outcome.
Proof using Type.
  intros Hd. apply obeys_deferring. set (g := set_signal cold true). unfold worker_with_signal.
  assert (forall (Q : res unit -> stage -> Prop) r g1, Q r (set_signal g1 false) -> obeys P g1 (trigger BStop) (fun _ g2 => Q r g2)) as Hstop.
  { intros Q r g1 HQ. eapply (call_obeys _ _ _ (fun _ => set_signal g1 false)); [done|]. by intros []. }
  apply tried_obeys. eapply (obeys_mono _ _ _ (fun _ g1 => g1 = g)).
  { unfold when. destruct (AutoCreate _); [|done]. by apply EnsureDatabase_obeys; [..|by intros ?%elem_of_nil]. }
  intros [[]|e] ? ->; [|apply Hstop; split; [done|]; split; [by eexists|]; split; [done|by left]].
  apply tried_obeys. eapply obeys_mono; [by apply NewPool_obeys; intros ?%elem_of_nil|].
  intros [[]|e] g1; cbn [wrapped string_empty].
  2:{ intros Hg1. apply Hstop. destruct Hg1 as [->|[ping ->]]; (split; [done|]); (split; [by eexists|]); (split; [done|]); [by left|].
      right. split; [done|]. eexists. by left. }
  intros ->. set (g2 := set_checks _ _ _ _). apply tried_obeys. eapply (call_obeys _ _ _ (fun _ => g2)); [done|].
  intros [[]|e]; cbn [wrapped string_empty].
  2:{ apply Hstop. split; [done|]. split; [by eexists|]. split; [done|]. right. split; [done|]. eexists. by right. }
  apply obeys_deferring. eapply obeys_mono; [by apply worker_with_pool_obeys|].
  assert (forall g3 r, sg_open g3 = [RPool] -> worker_outcome r (set_signal (set_open g3 []) false) ->
    obeys P g3 (trigger BSQLClose) (fun _ g4 => obeys P g4 (trigger BStop) (fun _ g5 => worker_outcome r g5))) as Hend.
  { intros g3 r Ho Hr. eapply (call_obeys _ _ _ (fun _ => set_open g3 [])); [|intros _; by apply Hstop].
    intros x. change (close_resource worker_requirements RPool g3 = Some (set_open g3 [])). unfold close_resource. by rewrite Ho. }
  intros r g3 (m & reg & [[-> He]|[->|(He & -> & Hu)]]); apply Hend; try done.
  - split; [done|]. split; [done|]. split; [done|by left].
  - unfold consuming. by destruct (select_driver _) as [[]|].
Qed.
End worker.

(** ** The two commands *)

(** C19: [cmd/server], on every path through [run] and whatever every call
    answers. It starts nothing before all is checked: a goroutine is started
    only with the configuration validated, the database answering, the schema
    migrated when that is configured, the provider registry built, and
    exactly the pool, the broker and (when enabled) the gRPC listener open.
    A run that served shuts down in one order: the context is cancelled, then
    (with gRPC) the health service reports the shutdown, then HTTP [Shutdown]
    is called, which may time out, then the gRPC server is stopped, gracefully
    or by force when that takes too long. Only after that, and in the reverse
    order of their opening, listener, broker and pool are closed. At the end
    nothing is open, except a pool that could not be used. A run that never
    served returns an error; one that served returns nil exactly when no
    server or worker had failed (it was asked to stop, or the embedded worker
    ended on the cancelled context), HTTP [Shutdown] returned nil and the gRPC
    server was not stopped by force. *)
Theorem server_run_discipline {Wd : Wording} {ML : MailLib} {Y} {Pf : Platform Y} path :
  exists body, server_run path = Vis (BReadFile path) body /\
  forall content,
    match LoadServer content path with
    | Err e => body content = Ret (Err e)
    | Ok cfg => obeys (startup (server_requirements cfg)) cold (body content) (fun r g =>
        (g = cold /\ exists e, r = Err e) \/ server_outcome cfg r g)
    end.
Proof.
  eexists. split; [reflexivity|]. intros content. cbn [bind]. destruct (LoadServer content path) as [cfg|e]; [|done].
  apply tried_obeys. eapply (obeys_mono _ _ _ (fun _ g => g = cold)).
  { unfold resolve_tokens. destruct (collect_tokens _ _); [|done]. apply obeys_bind.
    by eapply (call_obeys _ _ _ (fun _ => cold)). }
  intros [[tokens generated]|e] ? ->; [|left; split; [done|by eexists]]. apply obeys_bind.
  eapply (obeys_mono _ _ _ (fun _ g => g = cold)); [destruct (string_empty _); [done|]; by eapply (call_obeys _ _ _ (fun _ => cold))|].
  intros [] ? ->. apply obeys_bind. eapply (call_obeys _ _ _ (fun _ => set_signal cold true)); [done|]. intros _.
  eapply obeys_mono; [apply server_with_signal_obeys|]. intros r g H. by right.
Qed.

(** C20: [cmd/worker], on every path through [run] and whatever every call
    answers: with the in-memory driver it makes no call; it consumes only
    after the same checks as the server and with the pool and the publisher
    open; pool, publisher and consumer are closed in the reverse order of
    their opening, on every path but two: a pool that was opened and could not
    be used is left open, and an NSQ consumer that could not be connected is
    not stopped. It returns an error unless it was asked to stop, and then
    with everything closed. *)
Theorem worker_run_discipline {Wd : Wording} {ML : MailLib} {Y} {Pf : Platform Y} path :
  exists body, worker_run path = Vis (BReadFile path) body /\
  forall content,
    match LoadWorker content path with
    | Err e => body content = Ret (Err e)
    | Ok cfg =>
        if String.eqb (MQ_Driver (W_MQ cfg)) "memory" then exists e, body content = Ret (Err e)
        else obeys (startup (worker_requirements cfg)) cold (body content) worker_outcome
    end.
Proof.
  eexists. split; [reflexivity|]. intros content. cbn [bind]. destruct (LoadWorker content path) as [cfg|e]; [|done].
  unfold worker_driver_check. destruct (String.eqb _ _) eqn:E; [by eexists|]. apply obeys_bind.
  eapply (call_obeys _ _ _ (fun _ => set_signal cold true)); [done|]. intros _.
  apply worker_with_signal_obeys. unfold worker_driver_check. by rewrite E.
Qed.
