(* ===== verification/BootstrapSpec.v ===== *)
(** * What the parts of start-up achieve

    Creating the database in a race, the registry with its five adapters, and
    the limiters and breakers of the configured actions. *)

From S2P Require Import Prelude Float Prog Errors Json JsonRaw Config Mq Memory Rabbit Nsq Provider Breaker Limiter.
From S2P Require Import Http Smtp ProviderSpec Settings Boot Startup StartupSpec.

(** ** [EnsureDatabase] in a race

    The databases of the server, and those this process created. *)
Record catalog := mkCatalog { ct_names : gset string; ct_mine : gset string }.

Section race.
Context (san ident name_in : string -> string) (reliable : bool).

(** [ident]: the name the server reads from an identifier in a statement;
    [name_in]: the one it reads from a parameter compared with [datname].

    A failed call; on a reliable server there is none. *)
Definition failed {A} (x : res A) : Prop :=
  reliable = false /\ exists e, x = Err e /\ errors_As_PgCode e <> Some duplicateDatabaseSQLState.

(** Of two [CREATE DATABASE] that both saw no database of the name, the
    second may fail on the unique index of [pg_database]. *)
Definition uniqueViolationSQLState : string := "23505".

(** Other processes create databases at any time. [CREATE DATABASE] succeeds
    only when there is no database of that name, and may have succeeded when
    its answer is lost; a database that is there, or appears while the
    statement runs, is a duplicate, or in the second case a violation of the
    index. *)
Definition racing : handler boot catalog := fun X e s x s' =>
  exists names, ct_names s ⊆ names /\
  match e in boot X return X -> Prop with
  | BConnectConfig _ => fun x => (x = Ok tt \/ failed x) /\ s' = mkCatalog names (ct_mine s)
  | BDatabaseExists n => fun x => (x = Ok (bool_decide (name_in n ∈ names)) \/ failed x) /\ s' = mkCatalog names (ct_mine s)
  | BCreateDatabase i => fun x => let n := ident i in
      ((n ∈ names /\ (exists code msg, x = Err (EPg code msg) /\
          (code = duplicateDatabaseSQLState \/ n ∉ ct_names s /\ code = uniqueViolationSQLState)) /\ s' = mkCatalog names (ct_mine s)) \/
       (n ∉ names /\ x = Ok tt /\ s' = mkCatalog ({[n]} ∪ names) ({[n]} ∪ ct_mine s)) \/
       (failed x /\ (s' = mkCatalog names (ct_mine s) \/ s' = mkCatalog ({[n]} ∪ names) ({[n]} ∪ ct_mine s))))
  | _ => fun _ => s' = mkCatalog names (ct_mine s)
  end x.

(** A name the server keeps: no NUL byte, which pgx drops, and no more than
    the 63 bytes of a name, to which the server cuts it down. *)
Definition plain_name (n : string) : Prop := string_mem "000" n = false /\ (String.length n <= 63)%nat.

(** A quoted identifier names the text it quotes. *)
Hypothesis quoted : forall n, plain_name n -> ident (san n) = n /\ name_in n = n.

(** What a call that ended in [s'] with [r] leaves behind. *)
Definition ensured (s : catalog) (target : string) (r : res unit) (s' : catalog) : Prop :=
  ct_names s ⊆ ct_names s' /\ ct_mine s' ⊆ {[target]} ∪ ct_mine s /\
  (r = Ok tt -> target ∈ ct_names s') /\
  (reliable = true -> r = Ok tt \/
     (target ∉ ct_names s /\ target ∈ ct_names s' /\ ct_mine s' = ct_mine s /\
      exists e, r = Err e /\ errors_As_PgCode e = Some uniqueViolationSQLState)).

(** C40: [EnsureDatabase] when several servers and workers start at once, for a
    database name without NUL of at most 63 bytes: if it reports success the
    database exists, whichever process created it; this process creates no
    database but the one its DSN names. On a server that answers every call
    it succeeds, also when another process created the database between the
    check and the [CREATE] and the server answers that it is a duplicate;
    except that the [CREATE] may lose the race on the unique index of
    [pg_database] ([23505]): that error is returned although the database is
    there. With another driver or a DSN without a database it makes no
    call. *)
Theorem ensure_database_race `{Wording} pc dsn driver s :
  wp racing (EnsureDatabase pc san dsn driver) s (fun r s' =>
    match validatePostgresDriver driver, postgresAdminConfig pc dsn with
    | None, Ok (_, target) => plain_name target -> ensured s target r s'
    | _, _ => s' = s /\ exists e, r = Err e
    end).
Proof using All.
  unfold EnsureDatabase. destruct (validatePostgresDriver driver) as [e|]; [split; [done|by eexists]|].
  unfold ensurePostgresDatabase. destruct (postgresAdminConfig pc dsn) as [[cfg target]|e]; [|split; [done|by eexists]].
  assert (plain_name target \/ ~ plain_name target) as [Hplain|Hno].
  { unfold plain_name. destruct (string_mem "000" target); [right; naive_solver|]. destruct (Nat.le_gt_cases (String.length target) 63); [left|right]; naive_solver lia. }
  2: { eapply wp_mono; [by apply (wp_invariant racing (fun _ => True))|]. by intros r s' _ ?. }
  destruct (quoted _ Hplain) as [Hident Hname]. eapply wp_mono; [|intros r s' HQ _; exact HQ].
  apply wp_bind. intros x s1 (n1 & Hn1 & Hx & ->).
  destruct x as [[]|e]; [clear Hx|destruct Hx as [|Hx]; [done|]].
  2:{ split; [done|]. split; [set_solver|]. split; [done|]. intros Hr. by destruct Hx as [Hx _]; rewrite Hr in Hx. }
  apply wp_bind, wp_bind. intros x s2 (n2 & Hn2 & Hx & ->). cbn [ct_names ct_mine] in *.
  assert (forall r s3 (Q : catalog -> Prop), Q s3 -> (forall names, ct_names s3 ⊆ names -> Q (mkCatalog names (ct_mine s3))) ->
    wp racing (trigger BConnClose ;;; Ret (r : res unit))%prog s3 (fun r' s4 => r' = r /\ Q s4)) as Hclose.
  { intros r s3 Q HQ Hg [] s4 (n4 & Hn4 & ->). split; [done|]. by apply Hg. }
  set (goal := ensured s target).
  assert (forall r s3, goal r s3 -> wp racing (trigger BConnClose ;;; Ret r)%prog s3 goal) as Hend.
  { intros r s3 HQ. eapply wp_mono; [apply (Hclose r s3 (goal r) HQ)|by intros ?? [-> ?]].
    intros names Hnames. destruct HQ as (H1 & H2 & H3 & H4). split; [cbn; set_solver|]. split; [done|]. cbn. split; [set_solver|].
    intros Hr. destruct (H4 Hr) as [->|(G1 & G2 & G3 & G4)]; [by left|right]. split; [done|]. split; [set_solver|done]. }
  destruct x as [[|]|e].
  - apply Hend. destruct Hx as [[= Hx]|[_ (? & [=] & _)]]. symmetry in Hx. apply bool_decide_eq_true in Hx. rewrite Hname in Hx.
    split; [cbn; set_solver|]. split; [cbn; set_solver|]. split; [by intros _|by left].
  - assert (target ∉ ct_names s) as Habsent.
    { destruct Hx as [[= Hx]|[_ (? & [=] & _)]]. symmetry in Hx. apply bool_decide_eq_false in Hx. rewrite Hname in Hx. set_solver. }
    unfold create_database. apply wp_bind. intros x s3 (n3 & Hn3 & Hc). rewrite Hident in Hc. cbn [ct_names ct_mine] in *.
    destruct Hc as [(Hin & (code & msg & -> & Hcode) & ->)|[(Hin & -> & ->)|[[Hr (e & -> & He)] Hs]]].
    + cbn [wp errors_As_PgCode]. destruct (String.eqb_spec code duplicateDatabaseSQLState) as [->|Hne]; apply Hend;
        (split; [cbn; set_solver|]; split; [cbn; set_solver|]).
      * split; [by intros _|by left].
      * split; [done|]. intros _. right. split; [done|]. split; [done|]. split; [done|]. eexists. split; [done|]. cbn.
        destruct Hcode as [|[_ ->]]; done.
    + apply Hend. split; [cbn; set_solver|]. split; [cbn; set_solver|]. split; [intros _; cbn; set_solver|by left].
    + assert (forall e', goal (Err e') s3) as Hg.
      { intros e'. split; [destruct Hs as [-> | ->]; cbn; set_solver|]. split; [destruct Hs as [-> | ->]; cbn; set_solver|].
        split; [done|]. by rewrite Hr. }
      cbn [wp]. destruct (errors_As_PgCode e) as [code|]; [|exact (Hend _ _ (Hg _))].
      destruct (String.eqb_spec code duplicateDatabaseSQLState) as [->|]; [done|exact (Hend _ _ (Hg _))].
  - apply Hend. destruct Hx as [|[Hr _]]; [done|]. split; [cbn; set_solver|]. split; [cbn; set_solver|]. split; [done|]. by rewrite Hr.
Qed.

(** The race lost on the index: the database is there, and start-up fails. *)
Lemma lost_race_fails `{Wording} pc dsn driver cfg target s names :
  validatePostgresDriver driver = None -> postgresAdminConfig pc dsn = Ok (cfg, target) -> plain_name target ->
  target ∉ ct_names s -> ct_names s ⊆ names -> target ∈ names ->
  may racing (EnsureDatabase pc san dsn driver) s (fun r s' =>
    target ∈ ct_names s' /\ exists e, r = Err e /\ errors_As_PgCode e = Some uniqueViolationSQLState).
Proof using All.
  intros Hd Hc Hp Hn Hs Ht. destruct (quoted _ Hp) as [Hident Hname]. unfold EnsureDatabase. rewrite Hd. unfold ensurePostgresDatabase. rewrite Hc.
  apply may_bind. exists (Ok tt), s. split; [exists (ct_names s); split; [done|]; split; [by left|by destruct s]|].
  apply may_bind, may_bind. exists (Ok false), s. split.
  { exists (ct_names s). split; [done|]. split; [left; by rewrite Hname, bool_decide_eq_false_2|by destruct s]. }
  unfold create_database. apply may_bind. exists (Err (EPg uniqueViolationSQLState EmptyString)), (mkCatalog names (ct_mine s)). split.
  { exists names. split; [done|]. left. rewrite Hident. split; [done|]. split; [|done]. eexists _, _. split; [done|]. by right. }
  cbn [may errors_As_PgCode]. exists tt, (mkCatalog names (ct_mine s)). split; [by exists names|]. split; [done|]. by eexists.
Qed.
End race.

(** ** The registry's adapters *)

Section adapters.
Context {Wd : Wording} {ML : MailLib} {Y : Type} {Pf : Platform Y}.

(** The adapters a configuration block can name. *)
Definition adapter_named (code : string) : option (Adapter Y) :=
  List.find (fun a => String.eqb (Ad_ProviderCode a) code)
    [larkBotAdapter; smtpEmailAdapter; webhookAdapter; firebasePushAdapter; loadtestHTTPAdapter].

(** After [adapters.Register] each provider code finds its own adapter. *)
Lemma adapters_Register_lookup (reg : Registry Y) code :
  R_adapters reg = ∅ -> R_adapters (adapters_Register reg) !! code = adapter_named code.
Proof using Type.
  intros He. unfold adapters_Register, adapter_named. cbn [fold_left RegisterAdapter R_adapters]. rewrite He. cbn [List.find Ad_ProviderCode larkBotAdapter smtpEmailAdapter webhookAdapter firebasePushAdapter loadtestHTTPAdapter].
  repeat match goal with |- context [String.eqb ?a code] => destruct (String.eqb_spec a code) as [<-|] end;
    rewrite ?lookup_insert_eq; try done; rewrite ?lookup_insert_ne by done; rewrite ?lookup_insert_eq; try done; by rewrite lookup_empty.
Qed.

(** ** Limiters and breakers *)

(** What a configured action is registered with. *)
Definition limiter_of (ra : ResolvedAction Y) : actionLimiter :=
  {| limiter := if float_ltb (float_of_Z 0) (RA_RequestsPerSecond ra)
                then Some {| rl_limit := RA_RequestsPerSecond ra;
                             rl_burst := if float_to_int (RA_RequestsPerSecond ra) <? 1 then 1 else float_to_int (RA_RequestsPerSecond ra) |}
                else None;
     sem_cap := if 0 <? RA_MaxConcurrency ra then Some (RA_MaxConcurrency ra) else None; sem_len := 0 |}.

Lemma register_fold (l : list (string * ResolvedAction Y)) lb k :
  NoDup (l.*1) -> lb.1 !! k = None -> lb.2 !! k = None ->
  let found := snd <$> List.find (fun kv => String.eqb kv.1 k) l in
  (fold_left register_action l lb).1 !! k = limiter_of <$> found /\
  (fold_left register_action l lb).2 !! k = (ra ← found; registered k <$> RA_CircuitBreaker ra).
Proof using Type.
  assert (forall (l : list (string * ResolvedAction Y)) lb, k ∉ l.*1 ->
    (fold_left register_action l lb).1 !! k = lb.1 !! k /\ (fold_left register_action l lb).2 !! k = lb.2 !! k) as Hskip.
  { clear. induction l as [|[k' ra] l IH]; intros lb Hk; cbn [fold_left]; [done|]. cbn in Hk. rewrite not_elem_of_cons in Hk.
    destruct (IH (register_action lb (k', ra))) as [E1 E2]; [by apply Hk|]. rewrite E1, E2. unfold register_action, Limiters_Register, Register. cbn.
    rewrite lookup_insert_ne by (destruct Hk; congruence). split; [done|]. destruct (RA_CircuitBreaker ra); [|done].
    rewrite lookup_insert_ne by (destruct Hk; congruence). done. }
  revert lb. induction l as [|[k' ra] l IH]; intros lb Hnd H1 H2; cbn; [done|]. inversion_clear Hnd as [|? ? Hnot Hnd'].
  destruct (String.eqb_spec k' k) as [->|Hne].
  - cbn. destruct (Hskip l (register_action lb (k, ra)) Hnot) as [-> ->]. unfold register_action, Limiters_Register, Register. cbn.
    rewrite lookup_insert_eq. split; [done|]. destruct (RA_CircuitBreaker ra); cbn; [by rewrite lookup_insert_eq|done].
  - apply IH; [done|..]; unfold register_action, Limiters_Register, Register; cbn; [by rewrite lookup_insert_ne|].
    destruct (RA_CircuitBreaker ra); [by rewrite lookup_insert_ne|done].
Qed.

Lemma find_map_to_list {A} (m : gmap string A) k :
  snd <$> List.find (fun kv => String.eqb kv.1 k) (map_to_list m) = m !! k.
Proof using Type.
  destruct (List.find _ _) as [[k' v]|] eqn:E; cbn.
  - apply List.find_some in E as [Hin Hk]. cbn in Hk. apply String.eqb_eq in Hk as ->.
    symmetry. by apply elem_of_map_to_list, list_elem_of_In.
  - destruct (m !! k) as [v|] eqn:El; [|done]. apply elem_of_map_to_list, list_elem_of_In in El.
    apply (List.find_none _ _ E) in El. cbn in El. by rewrite String.eqb_refl in El.
Qed.

(** Before anything is consumed every configured action has its own
    limiter, with its rate and its concurrency and no slot taken, and, exactly
    when one is configured, its own closed breaker; nothing else is
    registered, and the order in which the map of actions is visited makes no
    difference. *)
Lemma register_actions_lookup (registry : Registry Y) k :
  (register_actions registry).1 !! k = limiter_of <$> (All registry !! k) /\
  (register_actions registry).2 !! k = (ra ← All registry !! k; registered k <$> RA_CircuitBreaker ra).
Proof using Type.
  unfold register_actions. rewrite <- (find_map_to_list (All registry) k).
  apply register_fold; [apply NoDup_fst_map_to_list|apply lookup_empty..].
Qed.
End adapters.
