(* ===== verification/Progress.v ===== *)
(** * No accepted event is ever stuck

    From every reachable state of [System]'s interleaving, whatever crashed,
    was lost or left behind, the program as it stands can still bring an
    event to its end: a recovery scan makes it claimable, and a delivery by a
    restarted worker finishes it. First, every result document the handlers
    write is one the recovery scan can read. *)

From S2P Require Import Prelude Float Prog Errors Json Domain Mq Provider Breaker Limiter Store Lifecycle StoreSpec Effects.
From S2P Require Import Publish Processor Compensator CompensatorSpec Service System SystemSpec Startup BootstrapSpec.

#[local] Opaque marshal_finished marshal_claimed marshal_requesting.
#[local] Arguments outcome_is_requeue : simpl never.

(** ** The documents in the table *)

Definition readable (j : json) : Prop := requeue_doc j -> outcomeOf (Some j) = OutcomeRequeueRequested.

Lemma readable_finished f : readable (marshal_finished f).
Proof. unfold readable, requeue_doc. rewrite finished_outcome, outcomeOf_finished. by intros [= ->]. Qed.

Lemma readable_claimed f : readable (marshal_claimed f).
Proof. unfold readable, requeue_doc. by rewrite claimed_outcome. Qed.

Lemma readable_requesting f : readable (marshal_requesting f).
Proof. unfold readable, requeue_doc. by rewrite requesting_outcome. Qed.

Definition stmt_docs {A} (s : stmt A) : Prop :=
  match s with
  | SClaim _ _ _ j | SMarkRequesting _ _ j | SMarkSucceeded _ _ j _ | SMarkWaitingForRequeue _ _ _ j _
  | SMarkCircuitOpenWaitingForRequeue _ _ _ j | SMarkFailed _ _ j _ | SMarkFailedWithoutProviderAttempt _ _ j
  | SRecoverExpiredToRequeue _ _ _ j => readable j
  | _ => True
  end.

Definition writes_readable X (e : eff X) : Prop :=
  match e with ERepo s => stmt_docs s | _ => True end.

Ltac docs_leaf :=
  idtac; match goal with
  | |- writes_readable _ _ => first [exact I | cbn [writes_readable stmt_docs]; first [exact I | apply readable_finished | apply readable_claimed | apply readable_requesting]]
  | |- only _ (Repo_exec _) => unfold Repo_exec
  end.
Ltac only_auto := only_steps docs_leaf.

Section documents.
Context {P : Postgres} {N : Type} (registry : Registry N) (uuid_string : UUID -> string)
  (cfg : CompensatorConfig) (LeaseDuration : Z).

Lemma release_only ev tok d result latency : only writes_readable (releaseForRequeue LeaseDuration ev tok d result latency).
Proof using Type. unfold releaseForRequeue. only_auto. Qed.

Lemma retry_only ev tok d result latency : only writes_readable (retryOrFail LeaseDuration ev tok d result latency).
Proof using Type. unfold retryOrFail. only_auto. apply release_only. Qed.

Lemma with_slot_only ev tok d (resolved : ResolvedAction N) permit : only writes_readable (with_slot LeaseDuration ev tok d resolved permit).
Proof using Type.
  unfold with_slot, Repo_MarkRequesting. only_auto. unfold after_send. destruct (classify _ _). only_auto. apply retry_only.
Qed.

Lemma HandleDelivery_only d : only writes_readable (HandleDelivery (Lookup registry) LeaseDuration d).
Proof using Type.
  unfold HandleDelivery, Repo_Claim. only_auto. unfold process, finishExhaustedBeforeProvider, deferForOpenCircuit.
  only_auto; [by apply with_slot_only|apply retry_only].
Qed.

Lemma PublishAndMark_only id : only writes_readable (PublishAndMark uuid_string id).
Proof using Type. unfold PublishAndMark. only_auto. Qed.

Lemma resolveExisting_only cmd : only writes_readable (resolveExisting uuid_string cmd).
Proof using Type. unfold resolveExisting. only_auto. Qed.

Lemma task_only t : only writes_readable (task_prog registry uuid_string cfg LeaseDuration t).
Proof using Type.
  destruct t as [d| | |cmd|q]; cbn [task_prog].
  - apply only_bind; [apply HandleDelivery_only|done].
  - unfold scanPendingPublish. only_auto. apply only_for_each. only_auto. apply PublishAndMark_only.
  - unfold scanExpiredLeases. only_auto. apply only_for_each. intros ev. unfold recoverOne. only_auto; apply PublishAndMark_only.
  - unfold Submit. only_auto; first [apply resolveExisting_only|apply PublishAndMark_only].
  - unfold GetStatus. only_auto.
Qed.
End documents.

(** ** They stay readable *)

Definition row_readable (r : Event) : Prop := outcome_is_requeue r = true -> outcomeOf (LastResult r) = OutcomeRequeueRequested.

Lemma row_readable_doc r j : readable j -> LastResult r = Some j -> row_readable r.
Proof.
  intros Hj Hl. unfold row_readable, outcome_is_requeue. rewrite Hl. intros Ho. apply Hj. unfold requeue_doc.
  destruct (json_get "outcome" j) as [[]|]; try done. by apply String.eqb_eq in Ho as ->.
Qed.

Lemma row_readable_same r r' : LastResult r' = LastResult r -> row_readable r -> row_readable r'.
Proof. unfold row_readable, outcome_is_requeue. by intros ->. Qed.

Lemma docs_insert db id r : row_readable r -> docs_readable db -> docs_readable (<[id := r]> db).
Proof. intros Hr Hd i q. rewrite lookup_insert. case_decide; [intros [= <-]; exact Hr|apply Hd]. Qed.

Lemma docs_update_where db id cond f :
  (forall r, row_readable r -> row_readable (f r)) -> docs_readable db -> docs_readable (update_where db id cond f).2.
Proof.
  intros Hf Hd. destruct (update_where_cases db id cond f) as [->|(r & Hr & _ & ->)]; [done|].
  apply docs_insert; [|done]. apply Hf. exact (Hd _ _ Hr).
Qed.

Lemma exec_docs `{Postgres} {A} (s : stmt A) now db : stmt_docs s -> docs_readable db -> docs_readable (exec_stmt s now db).2.
Proof.
  intros Hs Hd. destruct s; cbn [stmt_docs exec_stmt snd] in *; try exact Hd;
    try (apply docs_update_where; [|exact Hd]; intros r Hr; first [by eapply row_readable_doc | by eapply row_readable_same]).
  - unfold Insert. destruct (insert_row now ev) as [r|e] eqn:E; [|done]. destruct (unique_violation db r); [done|].
    apply docs_insert; [|done]. unfold insert_row in E. repeat case_match; try done. injection E as <-. done.
  - unfold Claim. destruct (db !! id) as [r|]; [|done]. destruct (claimable now r); [|done]. destruct (_ <? _); [done|].
    apply docs_insert; [|done]. by eapply row_readable_doc.
Qed.

Section reach.
Context {P : Postgres} {N : Type} (registry : Registry N) (uuid_string : UUID -> string)
  (cfg : CompensatorConfig) (LeaseDuration mx : Z) (breakers0 : Breakers) (limiters0 : Limiters).

Abbreviation step := (sstep registry uuid_string cfg LeaseDuration mx breakers0 limiters0).
Abbreviation reachable := (star step (empty_sys breakers0 limiters0)).

Definition docs_inv (s : sys) : Prop :=
  Forall (fun th => only writes_readable (th_prog th)) (sy_threads s) /\ docs_readable (sy_db s).

Lemma local_docs X (e : eff X) w x w' : writes_readable X e -> local X e w x w' -> docs_readable (w_db w) -> docs_readable (w_db w').
Proof using Type.
  intros He Hl Hd. destruct e as [| |A s|id|k|p o|p|k|k|ad ac action payload].
  3: { destruct Hl as (db' & Ha & ->). destruct Ha as [now|e _|now e _]; [by apply exec_docs|done|by apply exec_docs]. }
  all: cbn in Hl; destruct_and?; repeat match goal with H : exists _, _ |- _ => destruct H; destruct_and? end; subst w'; exact Hd.
Qed.

Lemma step_docs s s' : docs_inv s -> step s s' -> docs_inv s'.
Proof using Type.
  intros [Hth Hd] Hst. destruct Hst as [s p t Ht|s p X e k x w' l1 l2 E Hl|s p l1 l2 E|s p]; split; try exact Hd; cbn [sy_threads put set_threads crashed].
  - constructor; [apply task_only|done].
  - rewrite E in Hth. rewrite Forall_app, Forall_cons in *. destruct Hth as (H1 & [_ Hk] & H2). split; [done|]. split; [apply Hk|done].
  - rewrite E in Hth. rewrite Forall_app, Forall_cons in Hth. destruct Hth as (_ & [He _] & _). by eapply local_docs in Hl.
  - rewrite E in Hth. rewrite Forall_app, Forall_cons in *. tauto.
  - rewrite Forall_forall in *. intros th Hin. apply list_elem_of_In, List.filter_In in Hin as [Hin _]. by apply Hth, list_elem_of_In.
Qed.

Lemma reachable_docs s : reachable s -> docs_readable (sy_db s).
Proof using Type.
  intros H. apply (star_invariant step docs_inv) in H; [by apply H|apply step_docs|].
  split; [constructor|]. intros id r. cbn. by rewrite lookup_empty.
Qed.
End reach.

(** ** Answers a call may get *)

Section may_call.
Context {P : Postgres}.
Implicit Types w : world.

Lemma may_call {X B} (e : eff X) x w w' (k : X -> prog B) Q :
  local X e w x w' -> may local (k x) w' Q -> may local (Prog.bind (trigger e) k) w Q.
Proof using Type. intros Hl Hk. by exists x, w'. Qed.

Lemma may_now {B} t w (k : Z -> prog B) Q : may local (k t) w Q -> may local (Prog.bind (trigger ENow) k) w Q.
Proof using Type. by apply may_call. Qed.

(** A statement under a lease, at [T], by whoever holds the lease. *)
Lemma may_lease T (s : stmt unit) id tok f q w (Q : option error -> world -> Prop) :
  exec_stmt s T (w_db w) = claimed_or_error (update_where (w_db w) id (holds_lease tok) f) ->
  w_db w !! id = Some q -> holds_lease tok q = true -> Q None (set_db w (<[id := f q]> (w_db w))) ->
  may local (Repo_exec s) w Q.
Proof using Type.
  intros He Hq Hl Hk. exists (Ok tt), (set_db w (<[id := f q]> (w_db w))). split; [|exact Hk].
  exists (<[id := f q]> (w_db w)). split; [|done].
  assert (exec_stmt s T (w_db w) = (Ok tt, <[id := f q]> (w_db w))) as E by (rewrite He; unfold update_where; by rewrite Hq, Hl).
  pose proof (sa_done s (w_db w) T) as H. by rewrite E in H.
Qed.
End may_call.

(** ** One task, run alone *)

Section progress.
Context {P : Postgres} {N : Type} (registry : Registry N) (uuid_string : UUID -> string)
  (cfg : CompensatorConfig) (LeaseDuration mx : Z).

(** Every process registers the configured actions before it consumes. *)
Abbreviation breakers0 := (register_actions registry).2.
Abbreviation limiters0 := (register_actions registry).1.
Abbreviation step := (sstep registry uuid_string cfg LeaseDuration mx breakers0 limiters0).
Abbreviation reachable := (star step (empty_sys breakers0 limiters0)).

Lemma world_of_put s p w ths : world_of (put s p w ths) p = w.
Proof using Type. unfold world_of, put, upd. cbn. rewrite !decide_True by done. by destruct w. Qed.

Lemma program_may p (prg : prog unit) s ths (Q : world -> Prop) :
  sy_threads s = mkThread p prg :: ths -> may local prg (world_of s p) (fun _ => Q) ->
  exists s', star step s s' /\ Q (world_of s' p).
Proof using Type.
  revert s. induction prg as [a|X e k IH]; intros s Hth Hm.
  - exists s. split; [apply star_refl|exact Hm].
  - destruct Hm as (x & w' & Hl & Hm). destruct (IH x (put s p w' (mkThread p (k x) :: ths))) as (s' & Hs & HQ); [done|by rewrite world_of_put|].
    exists s'. split; [|done]. eapply star_trans; [|exact Hs]. eapply star_snoc; [apply star_refl|].
    by apply (s_effect _ _ _ _ _ _ _ s p X e k x w' [] ths).
Qed.

Lemma task_may p t s (Q : world -> Prop) :
  task_ok mx t -> may local (task_prog registry uuid_string cfg LeaseDuration t) (world_of s p) (fun _ => Q) ->
  exists s', star step s s' /\ Q (world_of s' p).
Proof using Type.
  intros Ht Hm.
  destruct (program_may p (task_prog registry uuid_string cfg LeaseDuration t)
    (set_threads s (mkThread p (task_prog registry uuid_string cfg LeaseDuration t) :: sy_threads s)) (sy_threads s) Q) as (s' & Hs & HQ); [done|by destruct s|].
  exists s'. split; [|done]. eapply star_trans; [|exact Hs]. eapply star_snoc; [apply star_refl|]. by constructor.
Qed.

(** ** Recovery *)

Definition expired_ids (T : Z) (db : table) : gset UUID := dom (filter (fun kv => expired T kv.2 = true) db).

Lemma expired_ids_spec T db id : id ∈ expired_ids T db <-> exists r, db !! id = Some r /\ expired T r = true.
Proof using Type.
  unfold expired_ids. rewrite elem_of_dom. unfold is_Some. split.
  - intros [r Hr]. apply map_lookup_filter_Some in Hr. by exists r.
  - intros (r & Hr). exists r. by apply map_lookup_filter_Some.
Qed.

Lemma effective_lease_pos : 0 < effective_lease LeaseDuration.
Proof using Type. unfold effective_lease, time_Second. destruct (Z.leb_spec LeaseDuration 0); lia. Qed.

Lemma recovered_not_expired T ev w : recovered LeaseDuration T ev w -> ID ev ∉ expired_ids T (w_db w).
Proof using Type.
  intros (_ & r' & Hr & _ & _ & _ & Hu) Hin. apply expired_ids_spec in Hin as (q & Hq & He).
  assert (q = r') as -> by congruence. unfold expired in He. rewrite Hu in He. cbn in He. pose proof effective_lease_pos. bool_to_prop. lia.
Qed.

(** One scan at [T]: the row is recovered, or fewer rows are expired. *)
Lemma one_scan s T id r :
  reachable s -> sy_db s !! id = Some r -> expired T r = true ->
  exists s', star step s s' /\
    (recovered LeaseDuration T r (world_of s' 0) \/
     (sy_db s' !! id = Some r /\ expired_ids T (sy_db s') ⊂ expired_ids T (sy_db s))).
Proof using Type.
  intros Hs Hr He. pose proof (reachable_docs _ _ _ _ _ _ _ _ Hs) as Hd.
  assert (table_wf (sy_db s)) as Hw by (apply reachable_inv in Hs as (gs & _ & Hinv); by eapply i_wf).
  set (limit := if LeaseScanBatchSize cfg <=? 0 then 200 else LeaseScanBatchSize cfg).
  set (batch := SelectExpiredLeases T limit (sy_db s)).
  destruct (task_may 0 TScanExpired s (fun w' => (forall ev, ev ∈ batch -> recovered LeaseDuration T ev w') /\
    framed (List.map ID batch) (world_of s 0) w')) as (s' & Hst & Hrec & Hfr); [done| |].
  { apply (wp_may (reliable T)); [apply reliable_total|intros ?????; apply reliable_local|].
    by apply (scan_recovers_batch uuid_string cfg LeaseDuration T (world_of s 0)). }
  exists s'. split; [done|]. destruct (SelectExpiredLeases_spec T limit (sy_db s)) as (_ & Hin & Hout). fold batch in Hin, Hout.
  assert (forall i, i ∈ List.map ID batch -> exists ev, ev ∈ batch /\ ID ev = i /\ sy_db s !! i = Some ev) as Hids.
  { intros i Hi. apply list_elem_of_In, List.in_map_iff in Hi as (ev & Hid & Hev). apply list_elem_of_In in Hev.
    destruct (Hin ev Hev) as (_ & j & Hj). exists ev. split; [done|]. split; [done|]. by rewrite <- Hid, (wf_id _ Hw _ _ Hj). }
  destruct (decide (id ∈ List.map ID batch)) as [Hi|Hid].
  { left. destruct (Hids _ Hi) as (ev & Hev & _ & Hj). simplify_eq. by apply Hrec. }
  right. assert (r ∉ batch) as Hnot.
  { intros Hb. apply Hid. rewrite <- (wf_id _ Hw _ _ Hr). apply list_elem_of_In, List.in_map. by apply list_elem_of_In. }
  destruct Hfr as [Hfr _]. split; [change (sy_db s') with (w_db (world_of s' 0)); by rewrite Hfr|].
  assert (forall i, i ∈ List.map ID batch -> i ∉ expired_ids T (sy_db s')) as Hgone.
  { intros i Hi. destruct (Hids _ Hi) as (ev & Hev & <- & _). by apply (recovered_not_expired T ev (world_of s' 0)), Hrec. }
  split.
  - intros i Hi. destruct (decide (i ∈ List.map ID batch)) as [Hb|Hb]; [by destruct (Hgone i Hb)|].
    apply expired_ids_spec in Hi as (q & Hq & Hqe). change (sy_db s') with (w_db (world_of s' 0)) in Hq. rewrite Hfr in Hq by done.
    apply expired_ids_spec. by exists q.
  - intros Hsub. destruct (Hout id r Hr He Hnot) as [Hlen _]. assert (0 < limit) by (unfold limit; destruct (Z.leb_spec (LeaseScanBatchSize cfg) 0); lia).
    destruct batch as [|ev batch'] eqn:Eb; [cbn in Hlen; lia|].
    destruct (Hin ev) as (Hev & j & Hj); [by left|]. apply (Hgone (ID ev)); [by left|]. apply Hsub, expired_ids_spec. exists ev.
    by rewrite (wf_id _ Hw _ _ Hj).
Qed.

(** Enough scans recover any expired row. *)
Lemma scans_recover T id r : forall n s, reachable s -> (size (expired_ids T (sy_db s)) <= n)%nat -> sy_db s !! id = Some r -> expired T r = true ->
  exists s', star step s s' /\ recovered LeaseDuration T r (world_of s' 0).
Proof using Type.
  induction n as [|n IH]; intros s Hs Hn Hr He; destruct (one_scan s T id r Hs Hr He) as (s1 & Hs1 & [Hrec|[Hr1 Hsub]]);
    try (exists s1; by split); apply subset_size in Hsub; [lia|].
  destruct (IH s1) as (s2 & Hs2 & Hrec); [by eapply star_trans|lia|done|done|]. exists s2. split; [by eapply star_trans|done].
Qed.

(** ** Delivery *)

(** A process that has just started grants both permits. *)
Lemma fresh_allows (T : Z) k w : w_breakers w = breakers0 ->
  exists dec w', local _ (EAllow k) w dec w' /\ Allowed dec = true /\ w_db w' = w_db w /\ w_limiters w' = w_limiters w.
Proof using Type.
  intros Hb. exists (Allow T (w_breakers w) k).1, (set_breakers w (Allow T (w_breakers w) k).2). split; [by exists T|]. split; [|done].
  rewrite Hb. destruct (register_actions_lookup registry k) as [_ E]. unfold Allow. rewrite E.
  destruct (All registry !! k) as [a|]; [|done]. cbn. by destruct (RA_CircuitBreaker a).
Qed.

Lemma fresh_acquires k w : w_limiters w = limiters0 -> exists w', local _ (EAcquire k) w None w' /\ w_db w' = w_db w.
Proof using Type.
  intros Hl. destruct (register_actions_lookup registry k) as [E _].
  assert (exists l, Acquire (w_limiters w) k None None = Some (None, l)) as [l Ha].
  { rewrite Hl. unfold Acquire. rewrite E. destruct (All registry !! k) as [a|]; cbn; [|by eexists].
    destruct (float_ltb _ _), (Z.ltb_spec 0 (RA_MaxConcurrency a)); try by eexists.
    - destruct (Z.ltb_spec 0 (RA_MaxConcurrency a)); [by eexists|lia].
    - destruct (Z.ltb_spec 0 (RA_MaxConcurrency a)); [by eexists|lia]. }
  exists (set_limiters w l). split; [|done]. exists None, None, l. split; [|done]. by intros e [|].
Qed.

Section delivery.
Context (T : Z) (id : UUID) (r : Event) (ra : ResolvedAction N).
Hypothesis Hact : Lookup registry (ProviderCode r) (ProviderAction r) = Some ra.
Hypothesis Hid : ID r = id.
Hypothesis Hcount : 0 <= AttemptCount r < 32767.

Definition wake : Delivery :=
  {| EventID := id; Attempts := 1; MaxAttempts := mx; RequeueDelay := 0; defaultRequeueDelay := 0; maxRequeueDelay := 0 |}.

Definition delivered : option Result * option error :=
  (Some {| Success := true; AvailabilityFailure := false; Res_HTTPStatus := 200; Res_ErrorClass := EmptyString;
           Res_Message := EmptyString; Res_ProviderResponse := None |}, None).

Definition ended (w : world) : Prop :=
  exists r', w_db w !! id = Some r' /\ same_identity r r' /\
    EvStatus r' = (if past mx (AttemptCount r + 1) then StatusFailed else StatusSucceeded).

(** The call and what follows it. *)
Lemma after_claim_may tok q permit w :
  w_db w !! id = Some q -> holds_lease tok q = true -> same_identity r q ->
  AttemptCount q = AttemptCount r + 1 -> past mx (AttemptCount r + 1) = false ->
  may local (with_slot LeaseDuration q tok wake ra permit) w (fun _ => ended).
Proof using T Hid.
  intros Hq Hl Hs Hc Hp. assert (ID q = id) as Hqid by (by destruct Hs as [-> _]). apply holds_lease_spec in Hl as [Hl1 Hl2].
  assert (forall st ac u lr pr upd e, st = StatusProcessing -> holds_lease tok (update_event st ac (Some tok) u lr pr upd e) = true) as Hh.
  { intros st ac u lr pr upd e ->. by apply holds_lease_spec. }
  unfold with_slot, Repo_MarkRequesting. rewrite Hqid. apply may_bind, (may_now T).
  set (j := marshal_requesting _). eapply (may_lease T (SMarkRequesting id tok j)); [done|done|by apply holds_lease_spec|].
  apply may_bind. eapply (may_lease T (SRenewLease id tok LeaseDuration)); [done|apply lookup_insert_eq|cbn; rewrite Hl2; by apply Hh|].
  apply (may_now T). eapply (may_call _ delivered); [by cbn|]. apply (may_now T).
  unfold after_send. cbn [classify delivered fst snd]. eapply (may_call _ tt); [by exists T|]. cbn [Success]. apply (may_now T). rewrite Hqid.
  apply may_bind. eapply (may_lease T (SMarkSucceeded id tok _ _)); [done|apply lookup_insert_eq|cbn; rewrite Hl2; by apply Hh|].
  cbn [may]. eexists. split; [apply lookup_insert_eq|]. split; [|by rewrite Hp]. etrans; [exact Hs|]. repeat split.
Qed.

Lemma deliver_may w :
  w_db w !! id = Some r -> claimable T r = true -> w_breakers w = breakers0 -> w_limiters w = limiters0 ->
  may local (HandleDelivery (Lookup registry) LeaseDuration wake) w (fun _ => ended).
Proof using All.
  intros Hr Hc Hb Hl. unfold HandleDelivery. set (tok := fresh (w_uuids w)).
  eapply (may_call ENewUUID tok); [split; [apply is_fresh|done]|]. apply may_bind. unfold Repo_Claim. apply (may_now T).
  set (j := marshal_claimed _). set (q := claim_update T tok LeaseDuration j r).
  exists (Ok q), (set_db (set_uuids w ({[tok]} ∪ w_uuids w)) (<[id := q]> (w_db w))). split.
  { eexists. split; [|done]. assert (exec_stmt (SClaim id tok LeaseDuration j) T (w_db w) = (Ok q, <[id := q]> (w_db w))) as E.
    { cbn. unfold Claim. rewrite Hr, Hc. by destruct (Z.ltb_spec 32767 (AttemptCount r + 1)); [lia|]. }
    pose proof (sa_done (SClaim id tok LeaseDuration j) (w_db w) T) as H. by rewrite E in H. }
  cbn [may]. unfold process.
  assert (claimed_past_budget wake q = past mx (AttemptCount r + 1)) as ->.
  { unfold claimed_past_budget, past. cbn [MaxAttempts wake AttemptCount q claim_update update_event].
    rewrite uint32_small by lia. by replace (0 <? AttemptCount r + 1) with true by lia; rewrite andb_true_r. }
  assert (holds_lease tok q = true) as Hh by by apply holds_lease_spec. assert (same_identity r q) as Hs by by repeat split.
  destruct (past mx (AttemptCount r + 1)) eqn:Ep.
  - unfold finishExhaustedBeforeProvider. change (ID q) with (ID r). rewrite Hid. apply (may_now T).
    apply may_bind. eapply (may_lease T (SMarkFailedWithoutProviderAttempt id tok _)); [done|apply lookup_insert_eq|done|].
    cbn [may]. eexists. split; [apply lookup_insert_eq|]. split; [done|by rewrite Ep].
  - change (Lookup registry (ProviderCode q) (ProviderAction q)) with (Lookup registry (ProviderCode r) (ProviderAction r)). rewrite Hact.
    edestruct (fresh_allows T (key (ProviderCode q) (ProviderAction q))) as (dec & w1 & Hloc & Ha & Hdb1 & Hl1);
      [|eapply may_call; [exact Hloc|]]; [exact Hb|]. rewrite Ha. cbn [negb].
    edestruct (fresh_acquires (key (ProviderCode q) (ProviderAction q)) w1) as (w2 & Hloc2 & Hdb2); [by rewrite Hl1|].
    eapply may_call; [exact Hloc2|]. apply may_bind. eapply may_mono.
    + apply (after_claim_may tok); try done. rewrite Hdb2, Hdb1. apply lookup_insert_eq.
    + intros res w3 He. eapply (may_call _ tt); [done|exact He].
Qed.
End delivery.

(** A claimable row, delivered by a worker that has just restarted. *)
Lemma deliver_now s T id r ra :
  reachable s -> sy_db s !! id = Some r -> claimable T r = true -> AttemptCount r < 32767 ->
  Lookup registry (ProviderCode r) (ProviderAction r) = Some ra ->
  exists s', star step s s' /\ ended id r (world_of s' 0).
Proof using Type.
  intros Hs Hr Hc Hcount Hact. assert (table_wf (sy_db s)) as Hw by (apply reachable_inv in Hs as (gs & _ & Hinv); by eapply i_wf).
  destruct (wf_row _ Hw _ _ Hr) as [Hrange _]. pose proof (wf_id _ Hw _ _ Hr) as Hid.
  destruct (task_may 0 (TDeliver (wake id)) (crashed breakers0 limiters0 s 0) (ended id r)) as (s' & Hst & He); [done| |].
  - cbn [task_prog]. apply may_bind. eapply may_mono; [|intros a w H; exact H].
    apply (deliver_may T id r ra); try done; [lia|..]; cbn; unfold upd; by rewrite decide_True.
  - exists s'. split; [|done]. eapply star_trans; [|exact Hst]. eapply star_snoc; [apply star_refl|]. by apply s_crash.
Qed.

(** C5: No accepted event is ever stuck. From every reachable state, however
    many deliveries, scans and processes failed or crashed before it and
    whatever lease the event is left with, as long as its action is
    configured and its counter has room, some continuation ends it: recovery
    scans free its lease, one delivery by a restarted worker to a provider
    that accepts makes it SUCCEEDED, or FAILED when a maximum is configured
    and its attempts were already used up; it is the same event, and nothing
    but the program's own steps is needed. *)
Theorem delivery_never_stuck s id r ra :
  reachable s -> sy_db s !! id = Some r -> ~ terminal r -> AttemptCount r < 32767 ->
  Lookup registry (ProviderCode r) (ProviderAction r) = Some ra ->
  exists s' r', star step s s' /\ sy_db s' !! id = Some r' /\ same_identity r r' /\
    EvStatus r' = if (0 <? mx) && (mx <=? AttemptCount r) then StatusFailed else StatusSucceeded.
Proof using Type.
  intros Hs Hr Hterm Hcount Hact. assert (table_wf (sy_db s)) as Hw by (apply reachable_inv in Hs as (gs & _ & Hinv); by eapply i_wf).
  assert (exists s1 r1 T, star step s s1 /\ sy_db s1 !! id = Some r1 /\ claimable T r1 = true /\
    AttemptCount r1 = AttemptCount r /\ same_identity r r1) as (s1 & r1 & T & Hs1 & Hr1 & Hc & Hcnt & Hsame).
  { destruct (wf_row _ Hw _ _ Hr) as [_ Hrow]. destruct (EvStatus r) eqn:Est; try done; try (destruct Hterm; unfold terminal; tauto).
    - exists s, r, (NextAttemptAt r). split; [apply star_refl|]. split; [done|]. split; [|done]. apply claimable_spec. left. split; [done|lia].
    - destruct Hrow as [[u Hu] Hl]. destruct (LeaseToken r) as [tok|] eqn:Et.
      + assert (expired (u + 1) r = true) as He by (unfold expired; rewrite Est, Hu, bool_decide_eq_true_2 by done; apply Z.ltb_lt; lia).
        destruct (scans_recover (u + 1) id r _ s Hs (le_n _) Hr He) as (s1 & Hs1 & _ & r1 & Hr1 & Hc & Hcnt & Hsame & _).
        rewrite (wf_id _ Hw _ _ Hr) in Hr1. by exists s1, r1, 0.
      + exists s, r, 0. split; [apply star_refl|]. split; [done|]. split; [|done]. apply claimable_spec. by right. }
  pose proof Hsame as (_ & _ & _ & Epc & Epa & _).
  destruct (deliver_now s1 T id r1 ra) as (s2 & Hs2 & r2 & Hr2 & Hsame2 & Hend); [by eapply star_trans|done|done|lia|congruence|].
  exists s2, r2. split; [by eapply star_trans|]. split; [done|]. split; [by etrans|]. rewrite Hend, Hcnt. unfold past.
  by replace (mx <? AttemptCount r + 1) with (mx <=? AttemptCount r) by lia.
Qed.
End progress.
