(* ===== verification/Demo.v ===== *)
(** * A concrete environment

    A small database, registry and set of answers, on which the handlers can
    be evaluated and the theorems applied. Nothing else depends on it. *)

From S2P Require Import Prelude Float Prog Errors Json JsonRaw Domain Mq Provider Breaker Limiter Store Lifecycle Effects Among.
From S2P Require Import Publish Processor Compensator Service System.

(** ** The database *)

(** [VARCHAR(n)] by bytes, [jsonb] that keeps its text, rows in id order. *)
#[export] Instance demo_pg : Postgres := {
  varchar n s := if Z.of_nat (String.length s) <=? n then Ok s else Err (EPg "22001" "value too long");
  jsonb_text s := if json_valid s then Ok s else Err (EPg "22P02" "invalid input syntax for type json");
  heap_order l := l;
  heap_order_perm l := Permutation_refl l;
}.

(** ** The registry: one webhook action *)

#[export] Instance demo_wording : Wording := {| json_error s := s; quote_q s := s |}.

Definition demo_adapter : Adapter unit :=
  {| Ad_ProviderCode := "webhook";
     Ad_Config _ := Ok {| CredentialRef := EmptyString; Actions := [] |};
     Ad_Validate _ payload := if String.eqb payload "{}" then Some (EValidation ["body is required"]) else None |}.

Definition demo_context : ActionContext :=
  {| AC_ProviderCode := "webhook"; AC_ProviderAction := "deliver"; BaseURL := "http://h"; AC_Path := "/p";
     AC_Method := "POST"; Credential := EmptyString; AC_TimeoutMs := 1000; AC_SourceSystem := EmptyString;
     AC_SourceRequestID := EmptyString; HasHTTPClient := true; AllowedRespHeaders := [] |}.

Definition demo_action : ResolvedAction unit :=
  {| RA_Adapter := demo_adapter; RA_Context := demo_context; RA_Description := "webhook"; RA_TimeoutMs := 1000;
     RA_RequestsPerSecond := float_of_Z 5; RA_MaxConcurrency := 2;
     RA_CircuitBreaker := Some {| FailureThreshold := 2; OpenDuration := 30 * time_Second |} |}.

Definition demo_registry : Registry unit :=
  set_resolved (NewRegistry [] true []) {[ "webhook/deliver" := demo_action ]}.

Definition demo_cb : CircuitBreakerConfig := {| FailureThreshold := 2; OpenDuration := 30 * time_Second |}.
Definition demo_breakers : Breakers := Register NewBreakers "webhook/deliver" (Some demo_cb).
Definition demo_limiters : Limiters := Limiters_Register NewLimiters "webhook/deliver" (float_of_Z 5) 2.

(** ** Answers *)

Definition next_uuid (s : gset UUID) : UUID := (1 + fold_right N.max 0 (elements s))%N.

Lemma next_uuid_fresh s : next_uuid s ∉ s.
Proof.
  unfold next_uuid. rewrite <- elem_of_elements. intros Hin.
  assert (forall l (x : N), x ∈ l -> (x <= fold_right N.max 0 l)%N) as H.
  { induction l as [|y l IH]; intros x Hx; [by apply elem_of_nil in Hx|]. cbn.
    apply elem_of_cons in Hx as [->|Hx]; [lia|]. specialize (IH _ Hx). lia. }
  specialize (H _ _ Hin). lia.
Qed.

(** The ids drawn, and those in the table. *)
Definition seen (w : world) : gset UUID :=
  w_uuids w ∪ dom (w_db w) ∪ list_to_set (omap LeaseToken (map_to_list (w_db w)).*2).

Lemma next_uuid_unused w : next_uuid (seen w) ∉ w_uuids w /\ unused (next_uuid (seen w)) (w_db w).
Proof.
  pose proof (next_uuid_fresh (seen w)) as H. unfold seen at 2 in H. split; [set_solver|].
  split; [apply not_elem_of_dom; set_solver|]. intros id r Hr E. apply H.
  apply elem_of_union_r, elem_of_list_to_set, list_elem_of_omap. exists r. split; [|done].
  apply list_elem_of_fmap. exists (id, r). split; [done|by apply elem_of_map_to_list].
Qed.

(** Everything answers, at database time [now]; the broker is durable and the
    adapter returns [answer]. *)
Definition demo_runner (now : Z) (answer : option Result * option error) : runner eff world := fun X e =>
  match e in eff X return world -> X * world with
  | ENow => fun w => (now, w)
  | ENewUUID => fun w => (next_uuid (seen w), set_uuids w ({[next_uuid (seen w)]} ∪ w_uuids w))
  | ERepo s => fun w => ((exec_stmt s now (w_db w)).1, set_db w (exec_stmt s now (w_db w)).2)
  | EPublish id => fun w => (Ok {| Durable := true |}, add_published w id)
  | EAllow key => fun w =>
      ((Allow now (w_breakers w) key).1, set_breakers w (Allow now (w_breakers w) key).2)
  | EObserve p o => fun w => (tt, set_breakers w (Observe now (w_breakers w) p o))
  | EAbort p => fun w => (tt, set_breakers w (Abort (w_breakers w) p))
  | EAcquire key => fun w =>
      match Acquire (w_limiters w) key None None with
      | Some (x, l) => (x, set_limiters w l)
      | None => match Acquire (w_limiters w) key None (Some (ESentinel CtxCanceled)) with
                | Some (x, l) => (x, set_limiters w l)
                | None => (None, w)
                end
      end
  | ERelease key => fun w => (tt, set_limiters w (Release (w_limiters w) key))
  | ESend adapter ac action payload => fun w => (answer, add_call w (mkCall adapter ac action payload answer))
  end.

Lemma demo_runner_local now answer X (e : eff X) w :
  local X e w (demo_runner now answer X e w).1 (demo_runner now answer X e w).2.
Proof.
  destruct e as [| |A s|id|k|p o|p|k|k|ad ac action payload]; cbn; eauto.
  - split; [by apply next_uuid_unused|done].
  - eexists. split; [apply sa_done|done].
  - destruct (Acquire _ _ None None) as [[x l]|] eqn:E1; cbn.
    + exists None, None, l. split; [naive_solver|by split].
    + destruct (Acquire_done (w_limiters w) k None (ESentinel CtxCanceled)) as [r Hr].
      rewrite Hr. cbn. exists None, (Some (ESentinel CtxCanceled)), (w_limiters w).
      split; [|by split]. intros e [|[= <-]]; [done|]. by repeat split.
Qed.

(** The same among other processes that happen to do nothing. *)
Lemma demo_runner_among now answer before : 0 <= now -> forall X (e : eff X) w,
  among false 0 before X e w (demo_runner now answer X e w).1 (demo_runner now answer X e w).2.
Proof.
  intros Hn X e w. pose proof (demo_runner_local now answer X e w) as Hl. exists (demo_runner now answer X e w).2.
  split; [|split; [|apply others_refl]].
  - destruct e; try exact Hl. left. by exists now.
  - destruct e; try done. by apply next_uuid_unused.
Qed.

(** With what a delivery was told. *)
Definition noting (r : runner eff world) : runner eff (world * said) := fun X e s =>
  ((r X e s.1).1, ((r X e s.1).2, note e (r X e s.1).1 s.2)).

Lemma demo_runner_noted now answer before : 0 <= now -> forall X (e : eff X) s,
  noted (among false 0 before) X e s (noting (demo_runner now answer) X e s).1 (noting (demo_runner now answer) X e s).2.
Proof. intros Hn X e s. split; [by apply demo_runner_among|done]. Qed.

Definition delivered_ok : option Result * option error :=
  (Some {| Success := true; AvailabilityFailure := false; Res_HTTPStatus := 200; Res_ErrorClass := EmptyString;
           Res_Message := EmptyString; Res_ProviderResponse := None |}, None).

Definition unavailable : option Result * option error :=
  (Some {| Success := false; AvailabilityFailure := true; Res_HTTPStatus := 503; Res_ErrorClass := "HTTP_5XX";
           Res_Message := "unavailable"; Res_ProviderResponse := None |}, None).

(** ** A day in the life *)

Definition demo_uuid_string (u : UUID) : string := pretty u.

Definition demo_cfg : CompensatorConfig :=
  {| PublishScanInterval := 0; PublishBatchSize := 0; LeaseScanInterval := 0; LeaseScanBatchSize := 0 |}.

Definition demo_cmd : SubmitCommand :=
  {| Cmd_SourceSystem := "crm"; Cmd_SourceRequestID := "r-1"; Cmd_ProviderCode := "webhook";
     Cmd_ProviderAction := "deliver"; Cmd_Payload := "[1]" |}.

Definition demo_delivery (id : UUID) : Delivery :=
  make_delivery {| DefaultRequeueDelay := time_Second; MaxRequeueDelay := 10 * time_Second; CfgMaxAttempts := 3 |} id 1.

Definition demo_lease : Z := 60 * time_Second.

Definition empty_world : world := mkWorld ∅ ∅ demo_breakers demo_limiters [] [].

(** The world after [demo_cmd] was accepted, and after its delivery. *)
Definition submitted : world :=
  (run (demo_runner 1000 delivered_ok) (Submit demo_uuid_string demo_registry demo_cmd) empty_world).2.
Definition submitted_nf : world := Eval vm_compute in submitted.
Lemma submitted_eq : submitted = submitted_nf.
Proof. vm_compute. reflexivity. Qed.

Definition handle (answer : option Result * option error) (w : world) : option error * world :=
  run (demo_runner 2000 answer) (HandleDelivery (Lookup demo_registry) demo_lease (demo_delivery 1)) w.

Definition status_of (id : UUID) (w : world) : option (Status * Z) :=
  match w_db w !! id with Some r => Some (EvStatus r, AttemptCount r) | None => None end.

Example submitted_pending : status_of 1 submitted = Some (StatusPending, 0).
Proof. vm_compute. reflexivity. Qed.

Example handled_success :
  (handle delivered_ok submitted).1 = None /\
  status_of 1 (handle delivered_ok submitted).2 = Some (StatusSucceeded, 1).
Proof. vm_compute. split; reflexivity. Qed.

Example handled_failure :
  (handle unavailable submitted).1 =
    Some (ERequeue (Some (EString "provider failure: HTTP_5XX")) time_Second true) /\
  status_of 1 (handle unavailable submitted).2 = Some (StatusProcessing, 1).
Proof. vm_compute. split; reflexivity. Qed.

(** ** Running one task of the system alone *)

Section solo.
Context (mx : Z).
Abbreviation step := (sstep demo_registry demo_uuid_string demo_cfg demo_lease mx demo_breakers demo_limiters).

Lemma solo_star (r : runner eff world) p (prg : prog unit) s ths :
  (forall X (e : eff X) w, local X e w (r X e w).1 (r X e w).2) ->
  sy_threads s = mkThread p prg :: ths ->
  exists s', star step s s' /\ world_of s' p = (run r prg (world_of s p)).2 /\ sy_threads s' = ths.
Proof.
  intros Hr. revert s. induction prg as [a|X e k IH]; intros s Hth.
  - destruct a. exists (set_threads s ths). split; [|by destruct s].
    eapply star_snoc; [apply star_refl|]. by apply (s_exit _ _ _ _ _ _ _ s p [] ths).
  - pose proof (Hr X e (world_of s p)) as Hl. cbn. destruct (r X e (world_of s p)) as [x w'] eqn:Er. cbn in Hl.
    destruct (IH x (put s p w' (mkThread p (k x) :: ths))) as (s' & Hs & Hw & Ht); [done|].
    exists s'. split; [|split; [|done]].
    + eapply star_trans; [|exact Hs]. eapply star_snoc; [apply star_refl|].
      by apply (s_effect _ _ _ _ _ _ _ s p X e k x w' [] ths).
    + rewrite Hw. f_equal. unfold world_of, put, upd. cbn. rewrite !decide_True by done. by destruct w'.
Qed.

(** The first [n] calls of a program. *)
Fixpoint run_n (n : nat) (r : runner eff world) (prg : prog unit) (w : world) : prog unit * world :=
  match n, prg with
  | S m, Vis e k => let '(x, w') := r _ e w in run_n m r (k x) w'
  | _, _ => (prg, w)
  end.

Lemma solo_prefix (r : runner eff world) p n prg s ths :
  (forall X (e : eff X) w, local X e w (r X e w).1 (r X e w).2) ->
  sy_threads s = mkThread p prg :: ths ->
  exists s', star step s s' /\ world_of s' p = (run_n n r prg (world_of s p)).2 /\
    sy_threads s' = mkThread p (run_n n r prg (world_of s p)).1 :: ths.
Proof.
  intros Hr. revert prg s. induction n as [|n IH]; intros prg s Hth; [exists s; split; [apply star_refl|done]|].
  destruct prg as [a|X e k]; [exists s; split; [apply star_refl|done]|].
  pose proof (Hr X e (world_of s p)) as Hl. cbn. destruct (r X e (world_of s p)) as [x w'] eqn:Er. cbn in Hl.
  destruct (IH (k x) (put s p w' (mkThread p (k x) :: ths))) as (s' & Hs & Hw & Ht); [done|].
  assert (world_of (put s p w' (mkThread p (k x) :: ths)) p = w') as Ew.
  { unfold world_of, put, upd. cbn. rewrite !decide_True by done. by destruct w'. }
  rewrite Ew in Hw, Ht. exists s'. split; [|by split].
  eapply star_trans; [|exact Hs]. eapply star_snoc; [apply star_refl|].
  by apply (s_effect _ _ _ _ _ _ _ s p X e k x w' [] ths).
Qed.

Lemma solo_task (r : runner eff world) p t s :
  (forall X (e : eff X) w, local X e w (r X e w).1 (r X e w).2) -> task_ok mx t ->
  exists s', star step s s' /\
    world_of s' p = (run r (task_prog demo_registry demo_uuid_string demo_cfg demo_lease t) (world_of s p)).2 /\
    sy_threads s' = sy_threads s.
Proof.
  intros Hr Ht. destruct (solo_star r p (task_prog demo_registry demo_uuid_string demo_cfg demo_lease t)
    (set_threads s (mkThread p (task_prog demo_registry demo_uuid_string demo_cfg demo_lease t) :: sy_threads s)) (sy_threads s) Hr)
    as (s' & Hs & Hw & Hth); [done|].
  exists s'. split; [|by split]. eapply star_trans; [|exact Hs]. eapply star_snoc; [apply star_refl|]. by constructor.
Qed.
End solo.
