(* ===== verification/Witnesses.v ===== *)
(** * The theorems at concrete inputs

    For every theorem with hypotheses, an input at which they hold, on the
    environment of [Demo]. *)

From S2P Require Import Prelude Float Prog Errors Json Domain Mq Provider Breaker Limiter Store Lifecycle StoreSpec.
From S2P Require Import Effects Among DeliverySpec Publish Processor ProcessorSpec Compensator CompensatorSpec Service.
From S2P Require Import ServiceSpec System SystemSpec Backend Concurrent Demo.
From S2P Require Import ProviderSpec Startup BootstrapSpec Progress.
From S2P Require Memory MemorySpec Rabbit RabbitSpec Nsq Mcp ToolSpec.

(** ** Breakers *)

Definition one_failure : CircuitBreakerConfig := {| FailureThreshold := 1; OpenDuration := 30 |}.

(** Opened by its first failure at 5, probed at 40. *)
Definition probed : bsys :=
  mkBsys {| b_key := "k"; failureThreshold := 1; openDuration := 30; b_state := breakerHalfOpen;
            consecutiveFailure := 1; generation := 1; openUntil := Some 35; halfOpenInFlight := true |}
    [mkPermit (Some "k") 1 true].

Lemma breach_probed : breach "k" one_failure 3 probed.
Proof.
  eapply breach_step; [eapply breach_step; [eapply breach_step; [apply breach_init|]|]|].
  - by apply (bstep_allow 0 _ _ (mkDecision true (mkPermit (Some "k") 0 false) 0)).
  - apply (bstep_observe 5 BreakerUnavailable _ _ (mkPermit (Some "k") 0 false) []). reflexivity.
  - by apply (bstep_allow 40 _ _ (mkDecision true (mkPermit (Some "k") 1 true) 0)).
Qed.

Lemma breaker_single_probe_witness :
  (length (current 1 (bs_permits probed)) <= 1)%nat /\ Allowed (allow 41 (bs_breaker probed)).1 = false.
Proof.
  destruct (breaker_single_probe "k" one_failure 3 probed) as (H1 & _ & H3);
    [cbn; lia|cbn; lia|apply breach_probed|reflexivity|].
  split; [exact H1|]. apply H3. discriminate.
Defined.

Lemma breaker_trips_at_threshold_witness :
  b_state (observe 7 (mkPermit (Some "k") 0 false) BreakerUnavailable
             (unavailable_all (mkPermit (Some "k") 0 false) [3] (registered "k" demo_cb))) = breakerOpen.
Proof.
  apply (breaker_trips_at_threshold (mkPermit (Some "k") 0 false) [3] 7 (registered "k" demo_cb));
    reflexivity || (cbn; lia).
Defined.

(** ** The table *)

Lemma table_wf_singleton id r : ID r = id -> row_wf r -> table_wf {[id := r]}.
Proof.
  intros Hid Hw. split.
  - intros i q Hq. apply lookup_singleton_Some in Hq as [<- <-]. done.
  - intros i q Hq. apply lookup_singleton_Some in Hq as [<- <-]. done.
  - intros i j q1 q2 H1 H2 _ _. apply lookup_singleton_Some in H1 as [<- _]. apply lookup_singleton_Some in H2 as [<- _]. done.
Qed.

Definition demo_row (st : Status) (ac : Z) (tok : option UUID) (until : option Z) (lr : option json) : Event :=
  {| ID := 1; SourceSystem := "crm"; SourceRequestID := "r-1"; ProviderCode := "webhook"; ProviderAction := "deliver";
     Payload := "[1]"; EvStatus := st; AttemptCount := ac; NextAttemptAt := 1000; EnqueuedAt := None;
     LeaseToken := tok; LeaseUntil := until; LastResult := lr; ProviderResponse := None;
     CreatedAt := 1000; UpdatedAt := 1000 |}.

Definition pending_row : Event := demo_row StatusPending 0 None None None.
Definition waiting_doc : json := JObj [("outcome", JStr "REQUEUE_REQUESTED")].
Definition waiting_row (ac : Z) : Event := demo_row StatusProcessing ac None (Some 1500) (Some waiting_doc).
Definition leased_row : Event := demo_row StatusProcessing 1 (Some 9%N) (Some 1500) None.

Lemma pending_wf : table_wf {[1%N := pending_row]}.
Proof. apply table_wf_singleton; [done|]. by repeat split. Qed.

Lemma waiting_wf ac : 0 <= ac <= 32767 -> table_wf {[1%N := waiting_row ac]}.
Proof. intros H. apply table_wf_singleton; [done|]. split; [done|]. by split; [eexists|]. Qed.

Lemma store_refines_lifecycle_witness :
  phase_at (exec_stmt (SClaim 1 9 60 JNull) 2000 {[1%N := pending_row]}).2 1 = Some (PhLeased 9) /\
  life_move (Some PhPending) (Some (PhLeased 9)).
Proof.
  split; [reflexivity|].
  exact (proj2 (store_refines_lifecycle (SClaim 1 9 60 JNull) 2000 {[1%N := pending_row]} I pending_wf) 1%N).
Defined.

Lemma lease_exclusive_witness :
  (exec_stmt (SMarkSucceeded 1 8 JNull None) 2000 {[1%N := leased_row]}).1 = Err (ESentinel ErrNotClaimed).
Proof.
  apply (lease_exclusive (SMarkSucceeded 1 8 JNull None) 2000 {[1%N := leased_row]} 1 leased_row 9); done.
Defined.

Lemma claim_saturated_witness :
  Claim 2000 1 9 60 JNull {[1%N := waiting_row 32767]} =
    (Err (EPg "22003" "smallint out of range"), {[1%N := waiting_row 32767]}).
Proof. by apply (claim_saturated 2000 1 9 60 JNull {[1%N := waiting_row 32767]} (waiting_row 32767)). Defined.

Lemma SelectPendingToPublish_spec_witness :
  SelectPendingToPublish 2000 500 {[1%N := pending_row]} = [1%N] /\
  exists r, ({[1%N := pending_row]} : table) !! 1%N = Some r /\ pending_to_publish 2000 r = true.
Proof.
  assert (SelectPendingToPublish 2000 500 {[1%N := pending_row]} = [1%N]) as E by (vm_compute; reflexivity).
  split; [exact E|]. apply (SelectPendingToPublish_spec 2000 500 {[1%N := pending_row]} pending_wf).
  rewrite E. by left.
Defined.

(** ** Deliveries *)

Definition world_with (r : Event) : world := mkWorld {[1%N := r]} ∅ demo_breakers demo_limiters [] [].

(** The first attempt of three, with what the delivery was told last. *)
Definition noted_delivery (answer : option Result * option error) (w : world) : option error * (world * said) :=
  run (noting (demo_runner 2000 answer)) (HandleDelivery (Lookup demo_registry) demo_lease (demo_delivery 1)) (w, Quiet).

Lemma HandleDelivery_truthful_witness :
  (noted_delivery delivered_ok (world_with pending_row)).1 = None /\
  (claim_refused 0 1 (world_with pending_row) (noted_delivery delivered_ok (world_with pending_row)).2.1 \/
   taken_over 1 (w_db (world_with pending_row)) (w_db (noted_delivery delivered_ok (world_with pending_row)).2.1) \/
   ended_by (demo_delivery 1) (world_with pending_row) (noted_delivery delivered_ok (world_with pending_row)).2.1) /\
  released_by demo_lease (demo_delivery 1) time_Second true
    (world_with pending_row) (noted_delivery unavailable (world_with pending_row)).2.1.
Proof.
  assert (forall answer, handled demo_lease false 0 (demo_delivery 1) (world_with pending_row)
    (noted_delivery answer (world_with pending_row)).1 (noted_delivery answer (world_with pending_row)).2) as H.
  { intros answer. exact (run_wp _ _ _ _ _ (demo_runner_noted 2000 answer _ (proj1 (Z.leb_le 0 2000) eq_refl))
      (HandleDelivery_truthful (Lookup demo_registry) demo_lease false 0 (demo_delivery 1) (world_with pending_row) pending_wf)). }
  assert ((noted_delivery delivered_ok (world_with pending_row)).1 = None) as E1 by (vm_compute; reflexivity).
  assert ((noted_delivery unavailable (world_with pending_row)).1 =
    Some (ERequeue (Some (EString "provider failure: HTTP_5XX")) time_Second true)) as E2 by (vm_compute; reflexivity).
  split; [exact E1|]. split.
  - specialize (H delivered_ok). rewrite E1 in H. destruct (noted_delivery delivered_ok (world_with pending_row)).2 as [w' g]. cbn in *. tauto.
  - specialize (H unavailable). rewrite E2 in H. destruct (noted_delivery unavailable (world_with pending_row)).2 as [w' g]. exact (proj2 H).
Defined.

(** The handler behind the in-process queue, three attempts at most. *)
Definition demo_broker : Memory.MemoryBroker := Memory.mkBroker 10 [] time_Second (10 * time_Second) 3 true false false.

Definition demo_receive (answer : option Result * option error) (w : world) : (option error * fate) * (world * said) :=
  run (noting (demo_runner 2000 answer))
    (receive (H := memory_backend demo_broker) (Lookup demo_registry) demo_lease (Memory.mkMessage 1 1)) (w, Quiet).

Lemma wakeups_settled_witness :
  (demo_receive unavailable (world_with pending_row)).1.2 = ScheduledAfter time_Second /\
  released_by demo_lease (demo_delivery 1) time_Second true
    (world_with pending_row) (demo_receive unavailable (world_with pending_row)).2.1.
Proof.
  assert ((demo_receive unavailable (world_with pending_row)).1 =
    (Some (ERequeue (Some (EString "provider failure: HTTP_5XX")) time_Second true), ScheduledAfter time_Second)) as E
    by (vm_compute; reflexivity).
  pose proof (run_wp _ _ _ _ _ (demo_runner_noted 2000 unavailable _ (proj1 (Z.leb_le 0 2000) eq_refl))
    (wakeups_settled (H := memory_backend demo_broker) (Lookup demo_registry) demo_lease (memory_config demo_broker) false 0
       (Memory.mkMessage 1 1) (world_with pending_row) pending_wf)) as H.
  change (settled (H := memory_backend demo_broker) demo_lease 0 (Memory.mkMessage 1 1) (world_with pending_row)
    (demo_receive unavailable (world_with pending_row)).1 (demo_receive unavailable (world_with pending_row)).2) in H.
  unfold settled in H. rewrite E in *. split; [reflexivity|]. exact (proj2 (proj2 (proj2 H) time_Second true eq_refl)).
Defined.

Definition demo_next (m : Memory.memoryMessage) : Memory.memoryMessage :=
  Memory.mkMessage (Memory.eventID m) (Memory.next_attempts (Memory.attempts m)).

(** Two failures open the circuit; from then on the message is deferred. *)
Definition demo_chain : history * (world * said) :=
  run (noting (demo_runner 2000 unavailable))
    (redeliveries (H := memory_backend demo_broker) (Lookup demo_registry) demo_lease demo_next 10 (Memory.mkMessage 1 1))
    (world_with pending_row, Quiet).

Lemma retries_end_witness : demo_chain.1 = mkHistory 2 8 0 false /\ 10 - 3 < 8.
Proof.
  assert (demo_chain.1 = mkHistory 2 8 0 false) as E by (vm_compute; reflexivity).
  split; [exact E|].
  pose proof (run_wp _ _ _ _ _ (demo_runner_noted 2000 unavailable _ (proj1 (Z.leb_le 0 2000) eq_refl))
    (retries_end (H := memory_backend demo_broker) (Lookup demo_registry) demo_lease (memory_config demo_broker) false 0 demo_next 10
       (Memory.mkMessage 1 1) (world_with pending_row) (fun _ => eq_refl) eq_refl pending_wf)) as H.
  fold demo_chain in H. rewrite E in H. exact (proj2 H eq_refl).
Defined.

Lemma demo_at_rest r : at_rest (fun _ => 0) (world_with r).
Proof.
  split; [|split].
  - intros k b. cbn. unfold demo_breakers, Register, NewBreakers. rewrite lookup_insert. case_decide; [by intros [= <-]|].
    by rewrite lookup_empty.
  - intros k b. cbn. unfold demo_breakers, Register, NewBreakers. rewrite lookup_insert. case_decide; [by intros [= <-]|].
    by rewrite lookup_empty.
  - intros k. unfold sem_holds. cbn. unfold demo_limiters, Limiters_Register, NewLimiters. rewrite lookup_insert.
    case_decide; [cbn; lia|by rewrite lookup_empty].
Qed.

Lemma HandleDelivery_releases_witness :
  at_rest (fun _ => 0) (handle unavailable (world_with pending_row)).2.
Proof.
  exact (run_wp local (demo_runner 2000 unavailable) _ _ _ (demo_runner_local _ _)
    (HandleDelivery_releases (Lookup demo_registry) demo_lease (demo_delivery 1) (fun _ => 0)
       (world_with pending_row) (demo_at_rest pending_row))).
Defined.

(** The action's breaker, open for five seconds more. *)
Definition refusing_world : world :=
  mkWorld {[1%N := pending_row]} ∅
    {[ "webhook/deliver" := {| b_key := "webhook/deliver"; failureThreshold := 2; openDuration := 30; b_state := breakerOpen;
         consecutiveFailure := 2; generation := 1; openUntil := Some (2000 + 5 * time_Second); halfOpenInFlight := false |} ]}
    demo_limiters [] [].

(** Whether [k] refuses each time it is asked on a run. *)
Fixpoint refused_throughout {A} (k : string) (r : runner eff world) (p : prog A) (w : world) : bool :=
  match p with
  | Ret _ => true
  | Vis e next =>
      match e in eff X return X -> bool with
      | EAllow k' => fun d => negb (String.eqb k' k) || negb (Allowed d)
      | _ => fun _ => true
      end (r _ e w).1 && refused_throughout k r (next (r _ e w).1) (r _ e w).2
  end.

Lemma run_refusing {A} k (r : runner eff world) (p : prog A) w Q :
  (forall X (e : eff X) w, local X e w (r X e w).1 (r X e w).2) ->
  refused_throughout k r p w = true -> wp (refusing k) p w Q -> Q (run r p w).1 (run r p w).2.
Proof.
  intros Hr. revert w. induction p as [a|X e next IH]; intros w Hf Hp; [done|]. cbn [refused_throughout] in Hf.
  apply andb_true_iff in Hf as [Hf1 Hf2]. pose proof (Hr X e w) as Hl. cbn in *. destruct (r X e w) as [x w'] eqn:Er. cbn in *.
  apply IH; [done|]. apply Hp. split; [done|]. destruct e; try done. intros ->. rewrite String.eqb_refl in Hf1. by destruct (Allowed x).
Qed.

Lemma open_circuit_is_free_witness :
  (handle delivered_ok refusing_world).1 = Some (ERequeue (Some (EString "provider circuit is open")) (5 * time_Second) false) /\
  w_calls (handle delivered_ok refusing_world).2 = [] /\
  Allowed (Allow 2001 (w_breakers refusing_world) "webhook/deliver").1 = false.
Proof.
  split; [vm_compute; reflexivity|].
  destruct (open_circuit_is_free (Lookup demo_registry) demo_lease (demo_delivery 1) refusing_world pending_row demo_action)
    as [Ho Hf]; [exact pending_wf|reflexivity|right; cbn; lia|reflexivity|]. split.
  - refine (proj1 (run_refusing "webhook/deliver" (demo_runner 2000 delivered_ok) _ _ _ (demo_runner_local _ _) _ Hf)).
    vm_compute. reflexivity.
  - exact (Ho _ (2000 + 5 * time_Second) 2001 eq_refl eq_refl eq_refl).
Defined.

(** ** The system *)

Abbreviation demo_step := (sstep demo_registry demo_uuid_string demo_cfg demo_lease 3 demo_breakers demo_limiters).
Abbreviation demo_start := (empty_sys demo_breakers demo_limiters).

(** A submission, then its delivery, by process 0. *)
Lemma demo_reachable : exists s, star demo_step demo_start s /\
  world_of s 0 = (handle delivered_ok submitted).2 /\ sy_threads s = [].
Proof.
  destruct (solo_task 3 (demo_runner 1000 delivered_ok) 0 (TSubmit demo_cmd) demo_start) as (s1 & H1 & W1 & T1);
    [apply demo_runner_local|done|].
  destruct (solo_task 3 (demo_runner 2000 delivered_ok) 0 (TDeliver (demo_delivery 1)) s1) as (s2 & H2 & W2 & T2);
    [apply demo_runner_local|done|].
  exists s2. split; [by eapply star_trans|]. split; [|by rewrite T2, T1]. rewrite W2, W1. vm_compute. reflexivity.
Qed.

Definition finished_row : Event := default pending_row (w_db (handle delivered_ok submitted).2 !! 1%N).

Lemma demo_finished s : world_of s 0 = (handle delivered_ok submitted).2 ->
  sy_db s !! 1%N = Some finished_row /\ length (sy_calls s) = 1%nat.
Proof.
  intros E. change (sy_db s) with (w_db (world_of s 0)). change (sy_calls s) with (w_calls (world_of s 0)).
  rewrite E. split; vm_compute; reflexivity.
Qed.

Lemma provider_calls_bounded_witness :
  exists s, length (sy_calls s) = 1%nat /\ Z.of_nat (calls_of finished_row (sy_calls s)) <= AttemptCount finished_row.
Proof.
  destruct demo_reachable as (s & Hr & Hw & _). destruct (demo_finished s Hw) as [Hdb Hc].
  exists s. split; [exact Hc|].
  apply (proj1 (provider_calls_bounded _ _ _ _ 3 _ _ s Hr) 1%N finished_row Hdb).
Defined.

Lemma terminal_justified_witness :
  exists s c, EvStatus finished_row = StatusSucceeded /\ c ∈ sy_calls s /\ call_for c finished_row.
Proof.
  destruct demo_reachable as (s & Hr & Hw & _). destruct (demo_finished s Hw) as [Hdb _].
  assert (EvStatus finished_row = StatusSucceeded) as E by (vm_compute; reflexivity).
  destruct (proj1 (terminal_justified _ _ _ _ 3 _ _ s 1%N finished_row Hr Hdb) E) as (c & Hc & Hf & _).
  exists s, c. split; [exact E|split; assumption].
Defined.

Lemma accepted_events_persist_witness :
  exists s s', star demo_step s s' /\ sy_db s' !! 1%N = Some finished_row.
Proof.
  destruct demo_reachable as (s & Hr & Hw & _). destruct (demo_finished s Hw) as [Hdb _].
  exists s, (crashed demo_breakers demo_limiters s 0).
  assert (star demo_step s (crashed demo_breakers demo_limiters s 0)) as Hs.
  { eapply star_snoc; [apply star_refl|]. apply s_crash. }
  split; [exact Hs|].
  destruct (accepted_events_persist _ _ _ _ 3 _ _ s _ 1%N finished_row Hr Hs Hdb) as (r' & Hr' & _ & Ht).
  rewrite Hr'. f_equal. apply Ht. left. vm_compute. reflexivity.
Defined.

(** A delivery that has claimed and is about to write REQUESTING. *)
Definition claim_prog : prog unit := task_prog demo_registry demo_uuid_string demo_cfg demo_lease (TDeliver (demo_delivery 1)).
Definition claimed : prog unit * world := run_n 6 (demo_runner 2000 delivered_ok) claim_prog submitted.

Lemma demo_claimed : exists s, star demo_step demo_start s /\ world_of s 0 = claimed.2 /\
  sy_threads s !! 0%nat = Some (mkThread 0 claimed.1).
Proof.
  destruct (solo_task 3 (demo_runner 1000 delivered_ok) 0 (TSubmit demo_cmd) demo_start) as (s1 & H1 & W1 & T1);
    [apply demo_runner_local|done|].
  destruct (solo_prefix 3 (demo_runner 2000 delivered_ok) 0 6 claim_prog (set_threads s1 (mkThread 0 claim_prog :: sy_threads s1)) (sy_threads s1))
    as (s2 & H2 & W2 & T2); [apply demo_runner_local|done|].
  change (world_of (set_threads s1 _) 0) with (world_of s1 0) in T2, W2. rewrite W1 in T2, W2.
  change (run _ _ _).2 with submitted in T2, W2. fold claimed in T2, W2.
  exists s2. split; [|split; [exact W2|by rewrite T2]].
  eapply star_trans; [exact H1|]. eapply star_trans; [|exact H2]. eapply star_snoc; [apply star_refl|]. by constructor.
Qed.

Lemma claimed_thread : exists k, claimed.1 = Vis (ERepo (SMarkRequesting 1 2 (marshal_requesting
  {| Requesting_Phase := PhaseRequesting; StartedAt := 2000 |}))) k.
Proof. unfold claimed. rewrite submitted_eq. eexists. reflexivity. Qed.

Definition held_row : Event := default pending_row (w_db claimed.2 !! 1%N).

Lemma single_lease_holder_witness : exists s,
  star demo_step demo_start s /\ sy_db s !! 1%N = Some held_row /\ LeaseToken held_row = Some 2%N /\
  (exists k, sy_threads s !! 0%nat = Some (mkThread 0 (Vis (ERepo (SMarkRequesting 1 2 (marshal_requesting
     {| Requesting_Phase := PhaseRequesting; StartedAt := 2000 |}))) k))) /\
  (forall tok dur doc now, (exec_stmt (SClaim 1 tok dur doc) now (sy_db s)).1 = Err (ESentinel ErrNotClaimed)) /\
  forall j p A (st : stmt A) k', sy_threads s !! j = Some (mkThread p (Vis (ERepo st) k')) -> lease_of st = Some (1%N, 2%N) -> 0%nat = j.
Proof.
  destruct demo_claimed as (s & Hr & Hw & Hth). destruct claimed_thread as [k Hk]. rewrite Hk in Hth. exists s.
  assert (sy_db s !! 1%N = Some held_row) as Hdb.
  { change (sy_db s) with (w_db (world_of s 0)). rewrite Hw. vm_compute. reflexivity. }
  assert (LeaseToken held_row = Some 2%N) as Ht by (vm_compute; reflexivity).
  split; [exact Hr|]. split; [exact Hdb|]. split; [exact Ht|]. split; [by exists k|].
  destruct (single_lease_holder _ _ _ _ 3 _ _ s 1%N held_row 2%N Hr Hdb Ht) as (_ & Hc & Hu). split.
  - intros tok dur doc now. by rewrite Hc.
  - intros j p A st k' Hj Hl. exact (Hu 0%nat j 0%nat p unit A _ st k k' Hth Hj eq_refl Hl).
Defined.

(** ** The compensator *)

(** A lost wake-up past its deadline. *)
Definition lost_world : world := world_with (waiting_row 1).

Lemma lost_wf : table_wf (w_db lost_world).
Proof. apply waiting_wf. lia. Qed.

Lemma lost_readable : docs_readable (w_db lost_world).
Proof.
  intros id r Hr _. change (({[1%N := waiting_row 1]} : table) !! id = Some r) in Hr.
  apply lookup_singleton_Some in Hr as [_ <-]. reflexivity.
Qed.

Lemma scanExpiredLeases_recovers_witness :
  SelectExpiredLeases 2000 200 (w_db lost_world) = [waiting_row 1] /\
  wp (reliable 2000) (scanExpiredLeases demo_uuid_string demo_cfg demo_lease) lost_world
    (fun _ w' => recovered demo_lease 2000 (waiting_row 1) w').
Proof.
  assert (SelectExpiredLeases 2000 200 (w_db lost_world) = [waiting_row 1]) as E by (vm_compute; reflexivity).
  split; [exact E|].
  eapply wp_mono; [apply (scanExpiredLeases_recovers demo_uuid_string demo_cfg demo_lease 2000 lost_world lost_wf lost_readable)|].
  intros [] w' [H _]. apply H. change (LeaseScanBatchSize demo_cfg <=? 0) with true. cbv iota. rewrite E. by left.
Defined.

Lemma no_expired_left_behind_witness :
  wp (reliable 2000) (scanExpiredLeases demo_uuid_string demo_cfg demo_lease) lost_world
    (fun _ w' => recovered demo_lease 2000 (waiting_row 1) w').
Proof.
  eapply wp_mono.
  - apply (no_expired_left_behind demo_uuid_string demo_cfg demo_lease 2000 lost_world lost_wf lost_readable).
    vm_compute. lia.
  - intros [] w' H. apply (H 1%N); vm_compute; reflexivity.
Defined.

(** ** Submissions *)

Lemma canonicalEqual_refl p : canonicalEqual p p = true.
Proof. unfold canonicalEqual. destruct (canonicalize p); apply String.eqb_refl. Qed.

Lemma demo_payload cmd : payload_kept cmd.
Proof. intros p. cbn. case_match; intros [= <-]. apply canonicalEqual_refl. Qed.

Lemma demo_text : text_kept demo_cmd.
Proof. by repeat split. Qed.

Lemma empty_wf : table_wf ∅.
Proof. by split; intros *; rewrite lookup_empty. Qed.

Lemma Submit_outcome_witness :
  let '(x, w') := run (demo_runner 1000 delivered_ok) (Submit demo_uuid_string demo_registry demo_cmd) empty_world in
  x = Ok (new_answer demo_uuid_string demo_cmd 1 1000) /\ w_published w' = [1%N] /\
  decided demo_uuid_string demo_registry false demo_cmd empty_world x w'.
Proof.
  pose proof (run_wp _ _ _ _ _ (demo_runner_among 1000 delivered_ok (w_uuids empty_world) (proj1 (Z.leb_le 0 1000) eq_refl))
    (proj2 (Submit_outcome demo_uuid_string demo_registry demo_cmd empty_world) false 0 empty_wf)) as H.
  destruct (run (demo_runner 1000 delivered_ok) (Submit demo_uuid_string demo_registry demo_cmd) empty_world) as [x w'] eqn:E.
  cbn [fst snd] in H. split; [|split; [|exact H]].
  - change x with (x, w').1. rewrite <- E. vm_compute. reflexivity.
  - change w' with (x, w').2. rewrite <- E. vm_compute. reflexivity.
Defined.

Definition submit_twice {P : Postgres} (cmd : SubmitCommand) : prog (res SubmitResult * res SubmitResult) :=
  (r1 <- Submit demo_uuid_string demo_registry cmd ;; r2 <- Submit demo_uuid_string demo_registry cmd ;; Ret (r1, r2))%prog.

Lemma Submit_idempotent_witness :
  exists sr1 sr2, (run (demo_runner 1000 delivered_ok) (submit_twice demo_cmd) empty_world).1 = (Ok sr1, Ok sr2) /\
    Duplicate sr2 = true /\ SR_EventID sr2 = SR_EventID sr1.
Proof.
  pose proof (run_wp local (demo_runner 1000 delivered_ok) _ _ _ (demo_runner_local _ _)
    (Submit_idempotent demo_uuid_string demo_registry demo_cmd empty_world demo_text (demo_payload _) empty_wf)) as H.
  fold (submit_twice demo_cmd) in H.
  destruct (run (demo_runner 1000 delivered_ok) (submit_twice demo_cmd) empty_world).1 as [r1 r2] eqn:E.
  assert (exists sr1 sr2, (r1, r2) = (Ok sr1, Ok sr2)) as (sr1 & sr2 & Er).
  { rewrite <- E. eexists _, _. vm_compute. reflexivity. }
  injection Er as -> ->. exists sr1, sr2. split; [reflexivity|]. exact (H sr1 eq_refl).
Defined.

(** The same key for another payload. *)
Definition rival_cmd : SubmitCommand :=
  {| Cmd_SourceSystem := "crm"; Cmd_SourceRequestID := "r-1"; Cmd_ProviderCode := "webhook";
     Cmd_ProviderAction := "deliver"; Cmd_Payload := "[2]" |}.

Lemma rival_text : text_kept rival_cmd.
Proof. by repeat split. Qed.

Definition demo_submit (cmd : SubmitCommand) (w : world) : res SubmitResult * world :=
  run (demo_runner 1000 delivered_ok) (Submit demo_uuid_string demo_registry cmd) w.

Lemma demo_runner_interfering now answer X (e : eff X) w :
  interfering X e w (demo_runner now answer X e w).1 (demo_runner now answer X e w).2.
Proof. exists (demo_runner now answer X e w).2. split; [apply demo_runner_local|reflexivity]. Qed.

(** One of two rival commands is accepted, the other told they differ. *)
Lemma submissions_agree_witness :
  exists sr, (demo_submit demo_cmd empty_world).1 = Ok sr /\
    (demo_submit rival_cmd (demo_submit demo_cmd empty_world).2).1 = Err (ESentinel ErrSourceRequestConflict) /\
    refusal demo_registry demo_cmd rival_cmd (ESentinel ErrSourceRequestConflict).
Proof.
  pose (w2 := (demo_submit demo_cmd empty_world).2).
  assert (table_wf (w_db w2)) as Hw2.
  { exact (run_wp local _ _ _ _ (demo_runner_local 1000 delivered_ok)
      (wp_writes_ok _ empty_world (Submit_writes_ok demo_uuid_string demo_registry demo_cmd) empty_wf)). }
  assert (evolves (w_db w2) (w_db (demo_submit rival_cmd w2).2)) as He.
  { exact (run_wp interfering _ _ _ _ (demo_runner_interfering 1000 delivered_ok)
      (interfering_evolves _ w2 (Submit_writes_ok demo_uuid_string demo_registry rival_cmd))). }
  pose proof (run_wp interfering _ _ _ _ (demo_runner_interfering 1000 delivered_ok)
    (run_wp interfering _ _ _ _ (demo_runner_interfering 1000 delivered_ok)
      (submissions_agree demo_uuid_string demo_registry demo_cmd rival_cmd empty_world w2
        (conj eq_refl eq_refl) demo_text rival_text empty_wf Hw2)) He) as [H _].
  change (agree demo_registry demo_cmd rival_cmd (demo_submit demo_cmd empty_world).1 (demo_submit rival_cmd w2).1) in H.
  assert (exists sr, (demo_submit demo_cmd empty_world).1 = Ok sr) as (sr & E1) by (eexists; vm_compute; reflexivity).
  assert ((demo_submit rival_cmd w2).1 = Err (ESentinel ErrSourceRequestConflict)) as E2 by (vm_compute; reflexivity).
  exists sr. rewrite E1, E2 in H. by split.
Defined.

(** A [jsonb] that prints the number [1e2] as PostgreSQL does. *)
Definition numeric_pg : Postgres := {|
  varchar n s := if Z.of_nat (String.length s) <=? n then Ok s else Err (EPg "22001" "value too long");
  jsonb_text s := if String.eqb s "[1e2]" then Ok "[100]" else if json_valid s then Ok s else Err (EPg "22P02" "invalid input syntax for type json");
  heap_order l := l;
  heap_order_perm l := Permutation_refl l;
|}.

Definition numeric_cmd : SubmitCommand :=
  {| Cmd_SourceSystem := "crm"; Cmd_SourceRequestID := "r-1"; Cmd_ProviderCode := "webhook";
     Cmd_ProviderAction := "deliver"; Cmd_Payload := "[1e2]" |}.

Lemma renormalised_payload_conflicts_witness :
  wp (@local numeric_pg) (@submit_twice numeric_pg numeric_cmd) empty_world
    (fun rr _ => forall sr1, rr.1 = Ok sr1 -> Duplicate sr1 = false ->
       rr.2 = Err (ESentinel ErrSourceRequestConflict) \/ exists e, rr.2 = Err e /\ errors_Is e ErrStorageUnavailable = true).
Proof.
  apply (@renormalised_payload_conflicts numeric_pg unit demo_uuid_string demo_registry numeric_cmd "[100]" empty_world).
  - by repeat split.
  - vm_compute. reflexivity.
  - vm_compute. reflexivity.
Defined.

(** ** The registry *)

Definition hook_action : ActionConfig :=
  {| Description := "webhook"; Cfg_BaseURL := "http://h"; Cfg_Path := "/p"; Cfg_Method := "POST"; Cfg_TimeoutMs := 1000;
     Cfg_RequestsPerSecond := float_of_Z 5; Cfg_MaxConcurrency := 2; CircuitBreaker := Some demo_cb |}.

Definition hook_adapter : Adapter unit :=
  {| Ad_ProviderCode := "webhook";
     Ad_Config _ := Ok {| CredentialRef := "webhook/main"; Actions := [("deliver", hook_action); ("audit", hook_action)] |};
     Ad_Validate _ _ := None |}.

Definition hook_registry : Registry unit := RegisterAdapter (NewRegistry [("webhook", tt)] true []) hook_adapter.
Definition hook_resolver (ref : string) : res string := Ok "s3cret".
Definition hook_built : Registry unit :=
  match Build hook_resolver hook_registry with Ok r => r | Err _ => hook_registry end.

Lemma hook_builds : Build hook_resolver hook_registry = Ok hook_built.
Proof. reflexivity. Qed.

Lemma Build_complete_witness :
  exists adapter c cred, R_adapters hook_registry !! "webhook" = Some adapter /\ Ad_Config adapter tt = Ok c /\
    hook_resolver (CredentialRef c) = Ok cred /\ Actions c <> [].
Proof.
  destruct (Build_complete hook_resolver hook_registry hook_built "webhook" tt) as (ad & c & cred & H1 & H2 & H3 & H4 & _).
  - by repeat constructor.
  - repeat constructor. by intros ?%elem_of_nil.
  - apply hook_builds.
  - by left.
  - exists ad, c, cred. repeat split; assumption.
Defined.

Lemma ListCapabilities_deterministic_witness :
  List.map PC_ProviderCode (ListCapabilities hook_built) = ["webhook"] /\
  capabilities_of (List.map snd (map_to_list (All hook_built))) = ListCapabilities hook_built.
Proof.
  split; [vm_compute; reflexivity|].
  apply (ListCapabilities_deterministic hook_resolver hook_registry hook_built
    (List.map snd (map_to_list (All hook_built))) eq_refl hook_builds (Permutation_refl _)).
Defined.

(** ** The queues *)

Definition queue_cfg : RequeueConfig :=
  {| DefaultRequeueDelay := time_Second; MaxRequeueDelay := 10 * time_Second; CfgMaxAttempts := 3 |}.

Lemma memory_queue_safe_witness : exists b s,
  Memory.NewMemoryBroker 1 queue_cfg = Ok b /\ Memory.ms_accepted s = [5%N] /\
  Z.of_nat (length (Memory.jobs (Memory.ms_broker s))) <= 1 /\
  Memory.ms_accepted s ≡ₚ MemorySpec.held s ++ Memory.ms_acked s ++ Memory.ms_dropped s.
Proof.
  destruct (Memory.NewMemoryBroker 1 queue_cfg) as [b|] eqn:E; [|discriminate E].
  assert (exists s, star Memory.mstep (Memory.fresh_msys b) s /\ Memory.ms_accepted s = [5%N]) as (s & Hs & Ha).
  { eexists. split.
    - eapply star_snoc; [apply star_refl|]. unfold Memory.fresh_msys. left.
      apply (Memory.m_publish b false Memory.Open 0 0 [] [] [] [] [] None 5%N). apply surjective_pairing.
    - injection E as <-. vm_compute. reflexivity. }
  exists b, s. split; [reflexivity|]. split; [exact Ha|].
  destruct (MemorySpec.memory_queue_safe 1 queue_cfg b s E Hs) as (H1 & _ & _ & H4). split; assumption.
Defined.

Definition counted_table (n : Z) : Rabbit.Table := {[ Rabbit.rabbitAttemptsHeader := Rabbit.VInt64 n ]}.

Lemma attempts_header_roundtrip_witness : 0 <= Rabbit.rabbitDeliveryAttempts (Some (counted_table 41)) < 2 ^ 32.
Proof.
  apply (RabbitSpec.attempts_header_roundtrip (counted_table 41)).
  intros v Hv. unfold counted_table in Hv. rewrite lookup_singleton_eq in Hv. injection Hv as <-. cbn. lia.
Defined.


Lemma requeue_delay_policy_witness :
  RequeueDelayFor (make_delivery queue_cfg 1 1) 4 = 4 * time_Second /\
  DefaultRequeueDelay queue_cfg <= RequeueDelayFor (make_delivery queue_cfg 1 1) 4 <= MaxRequeueDelay queue_cfg.
Proof.
  split; [reflexivity|].
  apply (requeue_delay_policy "nsq" queue_cfg 1 1 4); [reflexivity|vm_compute; discriminate|lia].
Defined.

(** ** A worker dies after its claim *)

Lemma demo_registered : register_actions demo_registry = (demo_limiters, demo_breakers).
Proof. vm_compute. reflexivity. Qed.

Definition claimed_world : world := (run_n 3 (demo_runner 2000 delivered_ok) claim_prog submitted).2.
Definition claimed_row : Event := default pending_row (w_db claimed_world !! 1%N).

Lemma claimed_reachable : exists s, star demo_step demo_start s /\ world_of s 0 = claimed_world.
Proof.
  destruct (solo_task 3 (demo_runner 1000 delivered_ok) 0 (TSubmit demo_cmd) demo_start) as (s1 & H1 & W1 & T1);
    [apply demo_runner_local|done|].
  destruct (solo_prefix 3 (demo_runner 2000 delivered_ok) 0 3 claim_prog (set_threads s1 (mkThread 0 claim_prog :: sy_threads s1)) (sy_threads s1))
    as (s2 & H2 & W2 & T2); [apply demo_runner_local|done|].
  exists s2. split.
  - eapply star_trans; [exact H1|]. eapply star_trans; [|exact H2]. eapply star_snoc; [apply star_refl|]. by apply s_spawn.
  - rewrite W2. unfold claimed_world. f_equal. change (world_of (set_threads s1 (mkThread 0 claim_prog :: sy_threads s1)) 0) with (world_of s1 0).
    by rewrite W1.
Qed.

Lemma delivery_never_stuck_witness :
  (EvStatus claimed_row, AttemptCount claimed_row, bool_decide (is_Some (LeaseToken claimed_row))) = (StatusProcessing, 1, true) /\
  exists s s' r', sy_db s !! 1%N = Some claimed_row /\ star demo_step s s' /\ sy_db s' !! 1%N = Some r' /\ EvStatus r' = StatusSucceeded.
Proof.
  split; [vm_compute; reflexivity|]. destruct claimed_reachable as (s & Hr & Hw).
  assert (sy_db s !! 1%N = Some claimed_row) as Hdb.
  { change (sy_db s) with (w_db (world_of s 0)). rewrite Hw. vm_compute. reflexivity. }
  pose proof (delivery_never_stuck demo_registry demo_uuid_string demo_cfg demo_lease 3 s 1%N claimed_row demo_action) as H.
  rewrite demo_registered in H. destruct H as (s' & r' & Hs & Hr' & _ & He).
  - exact Hr.
  - exact Hdb.
  - intros [E|E]; vm_compute in E; discriminate E.
  - vm_compute. reflexivity.
  - vm_compute. reflexivity.
  - exists s, s', r'. split; [exact Hdb|]. split; [exact Hs|]. split; [exact Hr'|]. rewrite He. vm_compute. reflexivity.
Defined.
