(* ===== verification/EdgeWitnesses.v ===== *)
(** * The theorems on configuration, adapters, queues and start-up at
      concrete inputs

    An instance of each interface to the standard library, and for every
    theorem with hypotheses an input at which they hold. *)

From S2P Require Import Prelude Float Prog Errors Json JsonText JsonRaw Mq Memory MemorySpec Startup BootstrapSpec.
From S2P Require Import Crypto Url Provider Http Adapter Webhook LarkBot AdapterSpec.
From S2P Require Import Firebase FirebaseSpec Smtp SmtpSpec Config Domain Store Effects Service Api Grpc Mcp FrontSpec Demo.

(** ** Tokens *)

Lemma auth_tokens_effective_witness :
  ResolveAuthTokens [" a "; "a"; EmptyString; "b"] (Ok (repeat 7%N 32)) = Ok (["a"; "b"], EmptyString) /\
  Verify (Some (NewVerifier ["a"; "b"])) "b" = None.
Proof.
  split; [vm_compute; reflexivity|].
  destruct (auth_tokens_effective [" a "; "a"; EmptyString; "b"] (repeat 7%N 32) ["a"; "b"] EmptyString) as (_ & _ & _ & H & _);
    [vm_compute; reflexivity..|]. apply H. right. left.
Defined.

(** ** The webhook *)

Lemma idempotency_key_identifies_witness :
  webhookIdempotencyKey "webhook" "crm" "r-1" = webhookIdempotencyKey "webhook" "crm" "r-1" /\
  (("webhook", "crm", "r-1") = ("webhook", "crm", "r-1") \/
   exists x y, x <> y /\ hex_EncodeToString (Sum256 (bytes_of x)) = hex_EncodeToString (Sum256 (bytes_of y))).
Proof.
  split; [reflexivity|].
  apply (idempotency_key_identifies "webhook" "crm" "r-1" "webhook" "crm" "r-1"); [repeat constructor|reflexivity].
Defined.

Definition demo_hook : webhookConfig :=
  {| WC_CredentialRef := "vault://hooks";
     WC_Deliver := {| WD_EndpointURL := "https://hooks.example/notify"; WD_Authentication := " Bearer"; WD_TimeoutMs := 3000;
                      WD_RequestsPerSecond := float_of_Z 10; WD_MaxConcurrency := 4; WD_CircuitBreaker := None |} |}.

Definition no_lark : larkBotConfig :=
  {| SigningSecretRef := EmptyString;
     LB_Send := {| LS_WebhookURL := "https://open.larksuite.com/open-apis/bot/v2/hook/abc"; LS_TimeoutMs := 3000;
                   LS_RequestsPerSecond := float_of_Z 5; LS_MaxConcurrency := 1; LS_CircuitBreaker := None |} |}.

Definition no_loadtest : Loadtest.loadtestHTTPRequestConfig :=
  {| Loadtest.LT_EndpointURL := "http://127.0.0.1:9/x"; Loadtest.LT_TimeoutMs := 100; Loadtest.LT_MaxConcurrency := 8 |}.

Lemma http_configs_safe_witness : exists c auth a,
  Webhook_Config (fun _ : unit => Ok demo_hook) tt = Ok (c, auth) /\ auth ∈ ["none"; "bearer"; "hmac_sha256"] /\
  Actions c = [("deliver", a)] /\ rate_checked (Cfg_RequestsPerSecond a) /\ safe_endpoint isLoopbackHost (strings_TrimSpace (Cfg_Path a)) /\
  exists c', Lark_Config (fun _ : unit => Ok no_lark) tt = Ok c' /\
  exists c'', Loadtest.Loadtest_Config (fun _ : unit => Ok no_loadtest) tt = Ok c''.
Proof.
  destruct (Webhook_Config (fun _ : unit => Ok demo_hook) tt) as [[c auth]|] eqn:E; [|vm_compute in E; discriminate E].
  destruct (http_configs_safe (fun _ => Ok demo_hook) (fun _ => Ok no_lark) (fun _ => Ok no_loadtest) tt) as (H & _ & _).
  destruct (H c auth E) as (H1 & _ & a & H2 & _ & Hrate & H3). exists c, auth, a.
  split; [reflexivity|]. split; [exact H1|]. split; [exact H2|]. split; [exact Hrate|]. split; [exact H3|].
  eexists. split; [vm_compute; reflexivity|]. eexists. vm_compute. reflexivity.
Defined.

(** ** Firebase *)

Definition demo_range (m : gmap string string) : list string := List.map fst (map_to_list m).

Lemma demo_ranges : ranges demo_range.
Proof.
  intros m k. unfold demo_range. rewrite list_elem_of_In, List.in_map_iff. split.
  - intros ([k' v] & <- & H). exists v. by apply elem_of_map_to_list, list_elem_of_In.
  - intros [v Hv]. exists (k, v). split; [done|]. by apply list_elem_of_In, elem_of_map_to_list.
Qed.

Definition demo_push : string :=
  print (JObj [("token", JStr "t-1"); ("notification", JObj [("title", JStr "hi"); ("image_url", JStr "https://i.example/p.png")]);
               ("data", JObj [("order", JStr "7")])]).

Lemma firebase_accepted_wellformed_witness :
  Firebase_Validate demo_range "send" demo_push = None /\
  exists m, buildFirebaseMessage demo_range demo_push = Ok m /\ well_formed m.
Proof.
  split; [vm_compute; reflexivity|].
  destruct (firebase_accepted_wellformed demo_range "send" demo_push demo_ranges) as (_ & _ & H);
    [vm_compute; reflexivity|exact H].
Defined.

#[local] Instance demo_sdk : FirebaseSDK :=
  {| errorutils_HTTPResponse _ := None; errorutils_IsDeadlineExceeded _ := false; errorutils_IsCancelled _ := false;
     errorutils_IsInvalidArgument _ := false; errorutils_IsResourceExhausted _ := false; errorutils_IsUnavailable _ := false;
     errorutils_IsInternal _ := false; errorutils_IsUnauthenticated _ := false; errorutils_IsPermissionDenied _ := false;
     messaging_IsUnregistered _ := false; messaging_IsThirdPartyAuthError _ := false; messaging_IsSenderIDMismatch _ := false;
     messaging_IsInvalidArgument _ := false; messaging_IsQuotaExceeded _ := false; messaging_IsUnavailable _ := false;
     messaging_IsInternal _ := false |}.

Definition demo_adapter : FirebasePush := {| projectID := "p"; credentialsRequired := false; initialized := true |}.
Definition demo_fac : ActionContext :=
  {| AC_ProviderCode := "firebase-push"; AC_ProviderAction := "send"; BaseURL := EmptyString; AC_Path := EmptyString; AC_Method := "FCM";
     Credential := EmptyString; AC_TimeoutMs := 1000; AC_SourceSystem := "crm"; AC_SourceRequestID := "r-1"; HasHTTPClient := true;
     AllowedRespHeaders := [] |}.

Definition demo_start (p : fprog answer) : Prop := exists ac action payload, p = Firebase_Send demo_range demo_adapter ac action payload.

Lemma star_step {S} (R : S -> S -> Prop) s1 s2 s3 : R s1 s2 -> star R s2 s3 -> star R s1 s3.
Proof. intros H1 H2. eapply star_trans; [|exact H2]. eapply star_snoc; [apply star_refl|exact H1]. Qed.

(** One delivery that finds no client, makes client 7 and sends with it. *)
Lemma demo_delivery : exists s, star (fstep demo_start) fs_init s /\ fs_used s = [7%N].
Proof.
  destruct (buildFirebaseMessage demo_range demo_push) as [m|e] eqn:E; [|vm_compute in E; discriminate E].
  eexists. split.
  - eapply star_step; [apply fs_start; by exists demo_fac, "send", demo_push|]. unfold Firebase_Send. rewrite E. cbn.
    eapply star_step; [eapply (fs_call _ 0%nat _ _ _ None); [reflexivity|split; reflexivity]|cbn].
    eapply star_step; [eapply (fs_call _ 0%nat _ _ _ tt); [reflexivity|split; reflexivity]|cbn].
    eapply star_step; [eapply (fs_call _ 0%nat _ _ _ None); [reflexivity|split; reflexivity]|cbn].
    eapply star_step; [eapply (fs_call _ 0%nat _ _ _ (Ok 1%N)); [reflexivity|reflexivity]|cbn].
    eapply star_step; [eapply (fs_call _ 0%nat _ _ _ (Ok 7%N)); [reflexivity|reflexivity]|cbn].
    do 2 (eapply star_step; [eapply (fs_call _ 0%nat _ _ _ tt); [reflexivity|reflexivity]|cbn]).
    eapply star_step; [eapply (fs_call _ 0%nat _ _ _ (Ok "m-1")); [reflexivity|reflexivity]|apply star_refl].
  - reflexivity.
Qed.

Lemma firebase_single_client_witness : exists s,
  star (fstep demo_start) fs_init s /\ fs_used s = [7%N] /\ fs_made s = [7%N] /\ fs_client s = Some 7%N.
Proof.
  destruct demo_delivery as (s & Hs & Hu). exists s. split; [exact Hs|]. split; [exact Hu|].
  destruct (firebase_single_client demo_range demo_adapter s Hs) as (_ & H & _). apply H. rewrite Hu. left.
Defined.

(** ** SMTP *)

(** Addresses without display names, one [@], printed in angle brackets. *)
#[local] Instance demo_mail : MailLib :=
  {| mail_ParseAddress raw := if string_mem "@" raw then Some (mkAddress EmptyString raw) else None;
     Address_String a := ("<" +:+ Addr_Address a +:+ ">")%string;
     QEncode s := s; quotedprintable s := s; rfc1123z t := "Thu, 01 Jan 1970 00:00:00 +0000" |}.

#[local] Instance demo_mail_laws : MailLaws.
Proof.
  split; cbn.
  - intros raw a Hr H. destruct (string_mem "@" raw); [|done]. by injection H as <-.
  - intros raw a n Hr H. destruct (string_mem "@" raw); [|done]. injection H as <-. cbn.
    apply (no_crlf_app "<"); [done|]. by apply no_crlf_app.
  - done.
  - intros t. vm_compute. reflexivity.
Qed.

Definition demo_smtp : smtpEmailConfig :=
  {| SE_PasswordRef := "vault://smtp";
     SE_Send := {| SC_Host := "mail.example"; SC_Port := 587; SC_TLSMode := EmptyString; SC_Username := "svc"; SC_FromAddress := "no-reply@example.com";
                   SC_FromName := "Example"; SC_TimeoutMs := 5000; SC_RequestsPerSecond := float_of_Z 2; SC_MaxConcurrency := 2;
                   SC_CircuitBreaker := None |} |}.

Definition demo_send : smtpSendRuntimeConfig :=
  {| RC_Host := "mail.example"; RC_Address := "mail.example:587"; RC_TLSMode := "starttls"; RC_Username := "svc";
     RC_From := mkAddress "Example" "no-reply@example.com"; RC_Initialized := true |}.

Definition demo_email : string :=
  print (JObj [("to", JArr [JStr "a@b.example"]); ("subject", JStr "hi"); ("text", JStr "hello")]).

Lemma smtp_config_safe_witness : exists c,
  Smtp_Config (fun _ : unit => Ok demo_smtp) tt = Ok (c, demo_send) /\
  (RC_Username demo_send = EmptyString <-> CredentialRef c = EmptyString).
Proof.
  destruct (Smtp_Config (fun _ : unit => Ok demo_smtp) tt) as [[c send]|] eqn:E; [|vm_compute in E; discriminate E].
  assert (send = demo_send) as ->.
  { transitivity (snd (c, send)); [reflexivity|]. vm_compute in E. injection E as _ <-. reflexivity. }
  exists c. split; [reflexivity|].
  destruct (smtp_config_safe (fun _ : unit => Ok demo_smtp) tt c demo_send E) as (_ & _ & H & _). exact H.
Defined.

Lemma smtp_message_lines_witness : exists message m headers,
  buildSMTPMessage demo_email (RC_From demo_send) "crm" "r-1" 0 "b0" = Ok message /\
  normalizeSMTPPayload demo_email = Ok m /\
  message = (lines (headers ++ [EmptyString]) +:+ message_body m "b0")%string /\ Forall (fun h => no_crlf h = true) headers.
Proof.
  destruct (buildSMTPMessage demo_email (RC_From demo_send) "crm" "r-1" 0 "b0") as [message|] eqn:E; [|vm_compute in E; discriminate E].
  destruct (Smtp_Config (fun _ : unit => Ok demo_smtp) tt) as [[c send]|] eqn:Ec; [|vm_compute in Ec; discriminate Ec].
  assert (send = demo_send) as ->.
  { vm_compute in Ec. injection Ec as _ <-. reflexivity. }
  destruct (smtp_message_lines (fun _ : unit => Ok demo_smtp) tt c demo_send demo_email "crm" "r-1" 0 "b0" message Ec)
    as (m & headers & H1 & H2 & H3 & _); [vm_compute; reflexivity|exact E|].
  exists message, m, headers. split; [reflexivity|]. split; [exact H1|]. split; [exact H2|exact H3].
Defined.

(** ** Queues and start-up *)

(** A queue of two messages with two consumers, one of them busy. *)
Definition demo_queue : Memory.MemoryBroker := Memory.mkBroker 8 [] 1000 5000 3 false false false.
Definition busy_queue : Memory.msys :=
  let m k := Memory.mkMessage k 1 in
  Memory.mkMsys (Memory.mkBroker 8 [m 2%N] 1000 5000 3 true false false) false Memory.Open 2 1 [m 1%N] [] [2%N; 1%N] [] [].
(** [Close] is called. *)
Definition closed_queue : Memory.msys :=
  let m k := Memory.mkMessage k 1 in
  Memory.mkMsys (Memory.Close (Memory.mkBroker 8 [m 2%N] 1000 5000 3 true false false)) false Memory.WaitWorkers 2 1 [m 1%N] [] [2%N; 1%N] [] [].

Lemma closed_reachable : star Memory.mstep (Memory.fresh_msys demo_queue) closed_queue.
Proof.
  eapply star_step; [left; by eapply (Memory.m_publish _ _ _ _ _ _ _ _ _ _ None 1%N)|]. cbn.
  eapply star_step; [left; by eapply (Memory.m_publish _ _ _ _ _ _ _ _ _ _ None 2%N)|]. cbn.
  eapply star_step; [left; by eapply (Memory.m_start _ _ _ _ _ _ _ _ _ _ false 2)|]. cbn.
  eapply star_step; [right; by eapply Memory.m_dequeue|]. cbn.
  eapply star_step; [left; apply Memory.m_close|]. apply star_refl.
Qed.

Lemma memory_close_terminates_witness :
  (forall n s', nsteps MemorySpec.moves n closed_queue s' -> (n <= 8)%nat) /\
  exists n s', nsteps Memory.gstep n closed_queue s' /\ Memory.ms_closing s' = Memory.Returned.
Proof.
  destruct (MemorySpec.memory_close_terminates demo_queue closed_queue closed_reachable) as (Hb & _ & He & _); [discriminate|].
  split; [|exact He]. intros n s' Hn. pose proof (Hb n s' Hn) as H. vm_compute in H. lia.
Defined.

Definition short_uuid (id : N) : string := pretty id.
Definition read_seven (s : string) : option N := if String.eqb s "7" then Some 7%N else None.

Lemma envelope_roundtrip_witness : Mq.decode read_seven (Mq.encode short_uuid 7%N) = Ok 7%N.
Proof. apply Mq.envelope_roundtrip; [by apply (utf8_one "7" EmptyString); [|constructor]|vm_compute; reflexivity]. Defined.

Definition sanitize (name : string) : string := (String "034" name +:+ String "034" EmptyString)%string.
Definition identifier (text : string) : string :=
  match text with String _ r => take_bytes (pred (String.length r)) r | EmptyString => EmptyString end.

Lemma identifier_sanitize name : string_mem "000" name = false -> identifier (sanitize name) = name.
Proof.
  intros _. unfold identifier, sanitize. rewrite string_app_cons. induction name as [|c name IH]; [done|].
  rewrite string_app_cons. cbn [String.length pred]. destruct (String.length (name +:+ String "034" EmptyString)%string) as [|n] eqn:E.
  - by destruct name.
  - cbn [pred] in IH. cbn [take_bytes]. by rewrite IH.
Qed.

Lemma plain_quoted name : plain_name name -> identifier (sanitize name) = name /\ name = name.
Proof. intros [H _]. split; [by apply identifier_sanitize|done]. Qed.

Lemma ensure_database_race_witness :
  plain_name "app" /\
  wp (racing identifier (fun n => n) true) (EnsureDatabase (fun dsn => Ok dsn) sanitize "app" "postgres") (mkCatalog {["postgres"]} ∅)
    (fun r s' => "app" ∈ ct_names s' /\
       (r = Ok tt \/ exists e, r = Err e /\ errors_As_PgCode e = Some uniqueViolationSQLState)).
Proof.
  assert (plain_name "app") as Hp by (split; [reflexivity|cbn; lia]). split; [exact Hp|].
  eapply wp_mono; [exact (ensure_database_race sanitize identifier (fun n => n) true plain_quoted (fun dsn => Ok dsn) "app" "postgres" _)|].
  intros r s' H. specialize (H Hp) as (_ & _ & H1 & H2). destruct (H2 eq_refl) as [H3|(_ & H3 & _ & H4)]; split; auto.
Defined.

(** ** The MCP endpoint *)

(** A bearer middleware, and a request from the page of another site. *)
Definition demo_bearer (check : string -> res Z) (next : mcp_handler) : mcp_handler := fun rq =>
  match strings_Fields (mh_authorization rq) with
  | [scheme; token] => match check token with Ok _ => next rq | Err e => Ret [WriteHeader 401; Write (Error e)] end
  | _ => Ret [WriteHeader 401; Write "no bearer token"]
  end.

Lemma demo_bearer_requires : requires_bearer demo_bearer.
Proof.
  intros check next rq. unfold demo_bearer.
  destruct (strings_Fields (mh_authorization rq)) as [|scheme [|token [|]]] eqn:E; try (right; by eexists).
  destruct (check token) as [expiry|e] eqn:Ec; [left|right; by eexists]. by exists scheme, token, expiry.
Qed.

Definition demo_deps : Deps :=
  {| SwaggerEnabled := true; AuthTokens := ["secret"]; AuthVerifier := Some (NewVerifier ["secret"]); MaxBodyBytes := 4096 |}.

Definition cross_site : mcp_request :=
  {| mh_method := "POST"; mh_path := "/mcp"; mh_host := "push.example.com"; mh_sec_fetch_site := EmptyString;
     mh_origin := "https://evil.example.com"; mh_authorization := "Bearer secret"; mh_body := Some ("{}", None) |}.

Lemma authentication_required_witness :
  cross_origin_check cross_site = Some errCrossOriginRequestFromOldBrowser /\
  exists status body, (status = 401 \/ status = 403) /\
    Mcp.NewHandler demo_bearer (fun _ => Ret [Write "called"]) true (AuthVerifier demo_deps) 64 0 cross_site
    = Ret ([WriteHeader status; Write body], Some (Build_access_line "POST" "/mcp" status)).
Proof.
  split; [vm_compute; reflexivity|].
  destruct (authentication_required demo_uuid_string demo_registry demo_deps demo_bearer demo_bearer_requires) as (_ & _ & H).
  destruct (H (fun _ => Ret [Write "called"]) true 64 0 cross_site) as [(s & t & _ & _ & E & _)|H']; [|exact H'].
  vm_compute in E. discriminate E.
Defined.
